(* ===== verification/_CoqProject ===== *)
-Q . S2P
Prelude.v
GoStrings.v
PathMatch.v
Types.v
Address.v
Engine.v
RateLimit.v
Credential.v
RedisLimit.v
Verifier.v
Driver.v
Webhook.v
Resolver.v
Gateway.v
Bcc.v
Slots.v
LoginThrottle.v
MailParse.v
Session.v
CredController.v
MimeText.v
MimeMessage.v
MimeParts.v
SmtpDriver.v
OAuth.v
Graph.v
TokenReview.v
HttpRequest.v
HttpApi.v
BodyBudget.v
BackendController.v
TokenBroker.v
Guard.v
StartUp.v
Router.v
AuditLog.v
Telemetry.v
Decimal.v
Argon.v
JsonPatch.v
OAuthTest.v
Serving.v
Conn.v
EndToEnd.v
