(* ===== verification/Prelude.v ===== *)
(** * Sigillum: a verification development

    Sigillum is a mail gateway for Kubernetes.  A workload hands it a message, over
    HTTP (POST /v1/messages) or SMTP; the gateway decides by the namespace's
    [MailPolicy] objects whether the caller may send it, charges a rate limit, finds
    the [MailBackend] the policy names and gives the message to that backend's driver,
    which relays it.  Webhooks and controllers check the objects and issue SMTP
    passwords.  This library models the Go code of these parts and proves what
    makes each of them correct.

    ** The parts, and where they are modelled

    Shared ground:
    - Prelude.v: results, times, stable sorting, the tactics ([to_prop], [case_test])
      and hint databases of the development.
    - GoStrings.v: Go strings as bytes, with UTF-8, trimming, case folding.
    - Decimal.v: numbers in text, written and read back.
    - Types.v: the custom resources (api/v1alpha1), field by field.

    What may be sent:
    - PathMatch.v: Go's [path.Match], which the address globs use, against a
      reference semantics of globs.
    - Address.v: mailboxes and domains (internal/policy/address.go).
    - Engine.v: [Match] and [Evaluate] (internal/policy/engine.go).
    - RateLimit.v: the sliding-window limiter (internal/policy/ratelimit) and the
      interface [Limiter] with its laws, against which the gateway is proved.
    - RedisLimit.v: the limiter that replicas share (redis.go, its script included), a
      second implementation of [Limiter].
    - Webhook.v: the admission rules (internal/webhook).
    - Resolver.v: a backend's secrets and certificates, conditions, audit events
      (internal/controller/backend_resolver.go, conditions.go, internal/audit).
    - Gateway.v: the pipeline from policy to driver (internal/gateway): one [Send],
      its audit record, its charges and refunds, the cache of validations.

    Who may send:
    - Credential.v: usernames, password hashes, rotation settings
      (internal/credential/credential.go); Argon.v: the hash a user brings, written and
      read back.
    - Verifier.v: SMTP logins and their re-checks (internal/credential/verifier.go).
    - CredController.v: the controller that issues and rotates passwords
      (internal/controller/mailcredential_controller.go).
    - Guard.v: the admission policy that confines the controller's Secret writes
      (internal/credential/guard.go, internal/controller/credential_guard.go).
    - TokenReview.v: bearer tokens (internal/apiserver/auth).

    The SMTP front end (internal/smtpproxy):
    - Slots.v, LoginThrottle.v: concurrent logins and relays as steps that
      interleave (tenant.go, credential.go).
    - Bcc.v, MailParse.v: what is read of a message and removed from it (bcc.go,
      session.go, size.go).
    - Session.v: the commands of a session, from AUTH to DATA (session.go, podip.go).
    - Conn.v: the connection below a session, its closing and its deadlines (conn.go).

    The HTTP front end (internal/apiserver):
    - HttpRequest.v: how a request is decoded and checked (messages.go).
    - HttpApi.v: one request from its bearer token to its answer (messages.go,
      server.go, problem, health.go).
    - BodyBudget.v: the memory for request bodies, under every interleaving
      (bodybudget.go).
    - Router.v: which request reaches which handler (server.go, [buildRouter]).

    The way out (internal/driver):
    - Driver.v: messages, errors and the registry (driver.go, registry.go), and which
      Secrets may be read (internal/kubecache).
    - MimeText.v, MimeMessage.v, MimeParts.v: the message as text (smtp/mime.go), with
      reference readers written from the RFCs.
    - SmtpDriver.v: deliveries to SMTP relays (smtp/smtp.go).
    - OAuth.v: access tokens and the cache that senders share (internal/oauth).
    - Graph.v: deliveries to Microsoft Graph (graph).

    The objects' state in the cluster (internal/controller):
    - BackendController.v: the conditions and gauges of backends and policies
      (mailbackend, clustermailbackend and mailpolicy controllers, probe.go, metrics.go).
    - TokenBroker.v: refresh tokens redeemed and kept in Secrets (oauth_broker.go).
    - JsonPatch.v: the patch documents of the two Secret writers, and which objects an
      event of a ServiceAccount requeues.
    - OAuthTest.v: the OAuth provider of the tests (internal/oauth/oauthtest), a provider
      as the broker's theorem asks for.

    Processes and their composition:
    - StartUp.v: the schema check and the reloading of certificates
      (internal/crdcheck, internal/tlsreload).
    - AuditLog.v: the audit stream as bytes (internal/audit), with a reader written from
      RFC 8259.
    - Telemetry.v: log keys and levels, reports of failed exports, when tracing is on
      (internal/telemetry).
    - Serving.v: from the command line and the flags of each mode to the components above,
      and the order of a shutdown (cmd/sigillum, smtpproxy/run.go, apiserver/server.go,
      controller/controller.go).
    - EndToEnd.v: the gateway with the registered drivers behind both front ends.

    A definition has the name of the Go function, method or type it translates; where
    a function is long its loops and closures are definitions of their own.  State is
    passed explicitly: a handler takes the state it changes and returns it, with its
    result or error ([res]).  What it only reads, and what it cannot determine (random
    bytes, clock readings, the order of a map range, an answer from the network), is an
    argument.  Logs, metrics and traces of an operation are left out.

    ** What the theorems show

    - The whole way.  Whatever is posted or relayed, an upstream sees something only for
      a caller whose identity was vouched for, of a message a policy of the caller's
      namespace allows: one transaction, at an endpoint the policy's backend declares,
      with the sender and recipients that were checked, over TLS only with the host it
      names ([EndToEnd.post_reaches_upstream],
      [EndToEnd.data_reaches_upstream], which compose the theorems of the parts).
    - Authorization.  A message reaches a driver only if a valid policy of the caller's
      namespace that applies to the caller lists its senders and recipients, and the
      backend lists the sender ([Gateway.send_only_authorized], on top of the
      characterizations of [Match] and [Evaluate]); an address entry that
      the webhook accepts never matches outside its domain.
    - Identity.  SMTP sessions act as the ServiceAccount they logged in as, a revoked
      credential delivers nothing more, an accepted password or token was vouched for
      by the object or the API server, within the cache lifetimes of the code.
    - Limits.  Both limiters refine an unbounded-log specification and never let
      more hits through than their caps; failed logins, concurrent relays and the bodies
      in memory stay within their caps under every interleaving, without starving other
      tenants.
    - Records.  Every request leaves exactly one audit record, which tells the truth; a
      reader of the stream finds exactly the recorded events, and nothing a caller writes
      can forge one ([AuditLog.audit_log_reads_back]).
    - Content.  What is relayed is the message that was checked: blind copies are
      removed, header fields cannot be injected, names, bodies and attachments read
      back as they were given.
    - Delivery.  A message is offered to at most one relay at most once, never
      unencrypted where TLS is asked for, and failures are classified for retry.  The rest
      of a transfer that was cut short is never read as commands
      ([Conn.aborted_data_ends_session]).
      Graph is given the recipients that were checked; a token is fetched by one caller
      at a time and served until shortly before it expires.
    - Controllers.  Issued passwords log in, old ones only during the grace period,
      foreign objects stay untouched, and reconciliation comes to rest.  A guard that
      verifies confines the controller to its own Secrets and admits every write the
      controller makes; the patches it sends, read as the RFCs say, do what its proofs
      ask of the API server ([JsonPatch.patches_satisfy_interface]).  A policy is Ready exactly if the gateway can use its backend; a
      delegated sign-in is not lost while the controller runs.
    - Processes.  A started front end accepts only the listed ways to log in, gives no
      tenant all of several slots, and fails its readiness before it refuses requests;
      the controller, its webhook and its guard exclude the same namespaces.

    ** Bounds and fuel

    Recursion that is not structural has fuel: the length of the text (trimming, rune
    decoding, encoders: each step consumes at least a byte) or the nesting limit of the
    source ([maxMIMEDepth], and the retry counts of the controller).  Lemmas show the fuel
    to be enough where a theorem depends on it.  Integers are [Z]; where the code relies
    on 64 bits, the theorems bound the values (durations, rates, argon2id costs) or wrap
    is written out.  Times are nanoseconds since the zero [time.Time].

    ** What is assumed

    Code that is not in this repository is a type class without laws, or with the laws
    its documentation states, and every class has an instance in the examples:
    - the standard library: [UnicodeTables] (case tables outside ASCII), [AddressParser],
      [MailReader] (net/mail, mime), [MIMEReader], [MediaTypes], [MediaTypeOf] (mime),
      [JSONDecoder] (encoding/json), [FloatNanos], [RFC3339], [AuditClock] (time),
      [UnicodeClasses] (letters and digits outside ASCII), [MapOrder] (the
      order of a map range), [KeyPairs], [X509], [Hashes], [HMACMD5] (crypto);
    - Kubernetes: [LabelMatcher], [K8sNames], [MetaConditions], [RemoveCondition],
      [SecretAPI], [TokenSecretAPI], [LabelLimit], [CelJSON], [Admission];
    - other modules and services: [LRU] and [LRUMap] (golang-lru), [Weighted] (x/sync),
      [Chi] (go-chi), [UUIDs], [Redis], [TokenEndpoint] and [GraphErrors] (the JSON of an answer),
      [RetryDelay] (a regular expression), [TokenText] (the claims of a token);
    - wording no theorem depends on: [ErrorTexts], [StatusTexts], [BrokerTexts],
      [GuardTexts].
    Inside the development, [Limiter] and [CredentialVerifier] are the interfaces between
    components; the implementations' theorems are their instances.

    ** What is not modelled

    The parsing of flags (package flag and internal/cliflags, which calls it), listeners,
    sockets, TLS, the logging, metrics and tracing libraries with the declarations of
    metrics (internal/telemetry/metrics.go): they call the operating system and other
    modules and decide nothing about a message; what a starting process asks of them is an
    argument of Serving.v.  The wiring of controllers and webhooks into controller-runtime's
    manager.  The deep copies generated by controller-gen: values here are immutable. *)

From Stdlib Require Export Ascii String ZArith Lia Bool.
From stdpp Require Export base tactics option list gmap strings sorting.

(** ** Scope and notations *)

Declare Scope go_scope.
Delimit Scope go_scope with go.

(** Decidable equality as the source's [==] and [!=]. *)
Notation "a == b" := (bool_decide (a = b)) (at level 70, no associativity) : go_scope.
Notation "a != b" := (negb (bool_decide (a = b))) (at level 70, no associativity) : go_scope.

#[export] Set Warnings "-notation-overridden".
#[global] Open Scope string_scope.
#[global] Open Scope list_scope.
#[global] Open Scope Z_scope.
#[global] Open Scope go_scope.

(** ** Go strings: byte sequences

    A Go [string] (and [[]byte]) is a sequence of bytes; [ascii] is exactly an
    8-bit byte.  Literals are written as Rocq strings and coerced. *)

Definition gostring := list ascii.
Definition lit (s : string) : gostring := list_ascii_of_string s.
Coercion lit : string >-> gostring.

#[global] Instance ascii_inhabited : Inhabited ascii := populate Ascii.zero.
#[global] Program Instance ascii_countable : Countable ascii :=
  inj_countable N_of_ascii (λ n, Some (ascii_of_N n)) _.
Next Obligation. intros c. simpl. by rewrite ascii_N_embedding. Qed.
#[global] Instance gostring_eq_dec : EqDecision gostring := list_eq_dec.
#[global] Instance gostring_countable : Countable gostring := list_countable.
#[global] Instance gostring_inhabited : Inhabited gostring := populate [].

(** ** Results: a value or an error, as Go's [(T, error)] returns *)

Inductive res (E A : Type) : Type :=
| Ok (a : A)
| Err (e : E).
Arguments Ok {E A} a.
Arguments Err {E A} e.

#[global] Instance res_eq_dec {E A} `{EqDecision E, EqDecision A} : EqDecision (res E A).
Proof. solve_decision. Defined.

Definition res_bind {E A B} (r : res E A) (f : A → res E B) : res E B :=
  match r with Ok a => f a | Err e => Err e end.

Notation "'let!' x ':=' r 'in' k" := (res_bind r (λ x, k))
  (at level 10, x name, r at level 100, k at level 200) : go_scope.

Definition is_ok {E A} (r : res E A) : bool := match r with Ok _ => true | Err _ => false end.

Lemma res_bind_Ok {E A B} (r : res E A) (f : A → res E B) (b : B) :
  res_bind r f = Ok b ↔ ∃ a, r = Ok a ∧ f a = Ok b.
Proof. destruct r; naive_solver. Qed.

Lemma res_bind_Err {E A B} (r : res E A) (f : A → res E B) (e : E) :
  res_bind r f = Err e ↔ r = Err e ∨ ∃ a, r = Ok a ∧ f a = Err e.
Proof. destruct r; naive_solver. Qed.

(** [res_mapM f l]: the loop [for _, x := range l { y, err := f(x); if err != nil
    { return nil, err }; out = append(out, y) }]. *)
Fixpoint res_mapM {E A B} (f : A → res E B) (l : list A) : res E (list B) :=
  match l with
  | [] => Ok []
  | x :: l => let! y := f x in let! ys := res_mapM f l in Ok (y :: ys)
  end.

Lemma res_mapM_Ok {E A B} (f : A → res E B) (l : list A) (k : list B) :
  res_mapM f l = Ok k ↔ Forall2 (λ x y, f x = Ok y) l k.
Proof.
  revert k. induction l as [|x l IH]; intros k; simpl.
  - split; [by intros [= <-]; constructor|by inversion 1].
  - rewrite res_bind_Ok. setoid_rewrite res_bind_Ok. setoid_rewrite IH.
    split; [intros (y & ? & ys & ? & [= <-]); by constructor|].
    inversion 1; subst; naive_solver.
Qed.

(** ** Times and durations

    [time.Time] and [time.Duration] are nanosecond counts.  Time 0 is Go's zero
    [time.Time] (so [IsZero t] is [t =? 0]); [Sub] saturates at the limits of an
    [int64] as [time.Time.Sub] does. *)

Abbreviation Time := Z (only parsing).
Abbreviation Duration := Z (only parsing).

Definition Nanosecond : Duration := 1.
Definition Millisecond : Duration := 1000000.
Definition Second : Duration := 1000000000.
Definition Minute : Duration := 60000000000.
Definition Hour : Duration := 3600000000000.

Definition min_int64 : Z := - 2 ^ 63.
Definition max_int64 : Z := 2 ^ 63 - 1.

Definition time_sub (t u : Time) : Duration := Z.max min_int64 (Z.min max_int64 (t - u)).

(** Wrap-around of a [w]-bit signed integer. *)
Definition wrap (w : Z) (x : Z) : Z := (x + 2 ^ (w - 1)) `mod` 2 ^ w - 2 ^ (w - 1).

Lemma wrap_id (w x : Z) : 0 < w → - 2 ^ (w - 1) ≤ x < 2 ^ (w - 1) → wrap w x = x.
Proof.
  intros Hw Hx. unfold wrap.
  assert (2 ^ w = 2 * 2 ^ (w - 1)) as Hp.
  { rewrite <- Z.pow_succ_r by lia. f_equal. lia. }
  rewrite Z.mod_small; lia.
Qed.

Lemma wrap_range (w x : Z) : 0 < w → - 2 ^ (w - 1) ≤ wrap w x < 2 ^ (w - 1).
Proof.
  intros Hw. unfold wrap.
  assert (2 ^ w = 2 * 2 ^ (w - 1)) as Hp.
  { rewrite <- Z.pow_succ_r by lia. f_equal. lia. }
  pose proof (Z.mod_pos_bound (x + 2 ^ (w - 1)) (2 ^ w)). lia.
Qed.

Lemma time_sub_pos (t u : Time) : 0 < time_sub t u ↔ u < t.
Proof. unfold time_sub, min_int64, max_int64. lia. Qed.

Lemma time_sub_le_add (t u : Time) (d : Duration) :
  min_int64 < d < max_int64 → time_sub t u ≤ d ↔ t ≤ u + d.
Proof. unfold time_sub, min_int64, max_int64. lia. Qed.

(** ** Filtering *)

Lemma list_filter_all {A} (P : A → Prop) `{!∀ x, Decision (P x)} (l : list A) :
  Forall P l → filter P l = l.
Proof. induction 1; simpl; [done|]. rewrite filter_cons_True by done. by f_equal. Qed.

Lemma list_filter_none {A} (P : A → Prop) `{!∀ x, Decision (P x)} (l : list A) :
  Forall (λ x, ¬ P x) l → filter P l = [].
Proof. induction 1; simpl; [done|]. by rewrite filter_cons_False. Qed.

(** ** Stable sorting ([sort.SliceStable])

    The result of a stable sort with a strict weak order is unique; insertion sort
    computes it. *)
Section StableSort.
Context {A : Type} (less : A → A → bool).

Fixpoint insert_stable (x : A) (l : list A) : list A :=
  match l with
  | [] => [x]
  | y :: l' => if less y x then y :: insert_stable x l' else x :: l
  end.

Definition SliceStable (l : list A) : list A := foldr insert_stable [] l.

Lemma insert_stable_perm (x : A) (l : list A) : insert_stable x l ≡ₚ x :: l.
Proof.
  induction l as [|y l IH]; simpl; [done|]. destruct (less y x); [|done].
  rewrite IH. by rewrite Permutation_swap.
Qed.

Lemma SliceStable_perm (l : list A) : SliceStable l ≡ₚ l.
Proof. induction l as [|x l IH]; simpl; [done|]. by rewrite insert_stable_perm, IH. Qed.

(** [less] is a strict weak order. *)
Class WeakOrder := {
  less_asym : ∀ x y, less x y = true → less y x = false;
  less_negtrans : ∀ x y z, less x y = false → less y z = false → less x z = false }.

Context `{WeakOrder}.

Lemma insert_stable_sorted (x : A) (l : list A) :
  StronglySorted (λ a b, less b a = false) l → StronglySorted (λ a b, less b a = false) (insert_stable x l).
Proof.
  induction 1 as [|y l Hl IH Hy]; simpl; [repeat constructor|].
  destruct (less y x) eqn:E.
  - constructor; [done|]. rewrite insert_stable_perm. constructor; [|done]. by apply less_asym.
  - constructor; [by constructor|]. constructor; [done|].
    eapply Forall_impl; [done|]. simpl. intros z Hz. by eapply less_negtrans.
Qed.

Lemma SliceStable_sorted (l : list A) : StronglySorted (λ a b, less b a = false) (SliceStable l).
Proof. induction l; simpl; [constructor|by apply insert_stable_sorted]. Qed.

(** The first element of the sorted list: none of the others sorts before it. *)
Lemma SliceStable_head (x : A) (l : list A) :
  head (SliceStable l) = Some x → x ∈ l ∧ ∀ y, y ∈ l → less y x = false.
Proof.
  pose proof (SliceStable_sorted l) as Hs. pose proof (SliceStable_perm l) as Hp.
  destruct (SliceStable l) as [|z k]; intros [= ->]. inversion_clear Hs as [|? ? _ Hx].
  rewrite Forall_forall in Hx. split; [rewrite <- Hp; left|]. intros y Hy. rewrite <- Hp in Hy.
  apply elem_of_cons in Hy as [->|Hy]; [|by apply Hx].
  destruct (less x x) eqn:E; [|done]. by rewrite (less_asym _ _ E) in E.
Qed.

Lemma SliceStable_nil (l : list A) : head (SliceStable l) = None ↔ l = [].
Proof.
  pose proof (SliceStable_perm l) as Hp. split.
  - destruct (SliceStable l); [|done]. intros _. by apply Permutation_nil.
  - by intros ->.
Qed.
End StableSort.
Arguments WeakOrder {A} less.

Create HintDb go discriminated.
Create Rewrite HintDb go_bool.
#[export] Hint Rewrite andb_true_iff orb_true_iff negb_true_iff andb_false_iff orb_false_iff
  negb_false_iff bool_decide_eq_true bool_decide_eq_false
  Z.ltb_lt Z.leb_le Z.ltb_ge Z.leb_gt Z.eqb_eq Z.eqb_neq : go_bool.

(** Turns boolean tests in the context and the goal into propositions. *)
Ltac to_prop := repeat (autorewrite with go_bool in *; simplify_eq).

(** Case analysis on the test of the first [if] or [match] of the goal. *)
Ltac case_test := case_match; to_prop.
