(* ===== verification/GoStrings.v ===== *)
(** * Go's [strings], [bytes] and [unicode/utf8] functions the sources use

    Strings are byte lists ([Prelude.gostring]).  UTF-8 decoding and encoding
    follow [unicode/utf8] exactly; the Unicode case tables are a parameter
    ([UnicodeTables]), consulted only for runes outside ASCII, as the library
    does. *)

From S2P Require Import Prelude.

(** ** Bytes *)

Definition bz (c : ascii) : Z := Z.of_N (N_of_ascii c).
Definition zb (z : Z) : ascii := ascii_of_N (Z.to_N z).

Definition in_range (lo hi c : ascii) : bool := (bz lo <=? bz c) && (bz c <=? bz hi).

Definition CR : ascii := "013".
Definition LF : ascii := "010".
Definition NUL : ascii := "000".
Definition TAB : ascii := "009".
Definition SP : ascii := " ".
Definition crlf : gostring := [CR; LF].

Definition is_lower (c : ascii) : bool := in_range "a" "z" c.
Definition is_upper (c : ascii) : bool := in_range "A" "Z" c.
Definition is_digit (c : ascii) : bool := in_range "0" "9" c.
Definition is_alnum (c : ascii) : bool := is_lower c || is_upper c || is_digit c.

Definition lower_byte (c : ascii) : ascii := if is_upper c then zb (bz c + 32) else c.

Definition is_ascii (c : ascii) : bool := bz c <? 128.
Definition all_ascii (s : gostring) : bool := forallb is_ascii s.

(** ** Searching *)

Definition elem (c : ascii) (s : gostring) : bool := existsb (Ascii.eqb c) s.

(** [strings.ContainsAny] for an ASCII character set: byte by byte. *)
Definition ContainsAny (s chars : gostring) : bool := existsb (λ c, elem c chars) s.

Definition HasPrefix (s p : gostring) : bool := bool_decide (p `prefix_of` s).
Definition HasSuffix (s p : gostring) : bool := bool_decide (p `suffix_of` s).

Definition TrimPrefix (s p : gostring) : gostring :=
  if HasPrefix s p then drop (length p) s else s.
Definition TrimSuffix (s p : gostring) : gostring :=
  if HasSuffix s p then take (length s - length p) s else s.

(** [strings.CutSuffix]: [Some before] when [s] ends in [p]. *)
Definition CutSuffix (s p : gostring) : option gostring :=
  if HasSuffix s p then Some (take (length s - length p) s) else None.

Fixpoint Contains (s sub : gostring) : bool :=
  HasPrefix s sub || match s with [] => false | _ :: s => Contains s sub end.

(** [strings.Count] of a non-empty substring (non-overlapping occurrences). *)
Fixpoint Count_fuel (fuel : nat) (s sub : gostring) : Z :=
  match fuel, s with
  | S fuel, _ :: s' => if HasPrefix s sub then 1 + Count_fuel fuel (drop (length sub) s) sub
                       else Count_fuel fuel s' sub
  | _, _ => 0
  end.
Definition Count (s sub : gostring) : Z := Count_fuel (length s) s sub.

Fixpoint IndexByte (s : gostring) (c : ascii) : option nat :=
  match s with
  | [] => None
  | x :: s => if Ascii.eqb x c then Some 0%nat else S <$> IndexByte s c
  end.

Fixpoint LastIndexByte (s : gostring) (c : ascii) : option nat :=
  match s with
  | [] => None
  | x :: s => match LastIndexByte s c with
              | Some i => Some (S i)
              | None => if Ascii.eqb x c then Some 0%nat else None
              end
  end.

(** [strings.Split] at a one-byte separator. *)
Fixpoint Split (s : gostring) (c : ascii) : list gostring :=
  match s with
  | [] => [[]]
  | x :: s => if Ascii.eqb x c then [] :: Split s c
              else match Split s c with [] => [[x]] | p :: ps => (x :: p) :: ps end
  end.

(** [strings.Cut] at a one-byte separator: the parts before and after its
    first occurrence. *)
Fixpoint Cut (s : gostring) (c : ascii) : option (gostring * gostring) :=
  match s with
  | [] => None
  | x :: s => if Ascii.eqb x c then Some ([], s)
              else '(a, b) ← Cut s c; Some (x :: a, b)
  end.

(** [strings.TrimRight] with a one-byte cutset. *)
Fixpoint drop_byte (c : ascii) (s : gostring) : gostring :=
  match s with
  | [] => []
  | x :: s' => if Ascii.eqb x c then drop_byte c s' else s
  end.
Definition TrimRight (s : gostring) (c : ascii) : gostring := reverse (drop_byte c (reverse s)).

Definition Join (l : list gostring) (sep : gostring) : gostring :=
  match l with
  | [] => []
  | x :: l => x ++ foldr (λ y acc, sep ++ y ++ acc) [] l
  end.

(** [strings.NewReplacer] for one byte by another. *)
Definition ReplaceByte (from to : ascii) (s : gostring) : gostring :=
  (λ c, if Ascii.eqb c from then to else c) <$> s.

(** Bytewise order of Go's [<] on strings. *)
Fixpoint str_ltb (a b : gostring) : bool :=
  match a, b with
  | [], [] => false
  | [], _ :: _ => true
  | _ :: _, [] => false
  | x :: a, y :: b => if bz x =? bz y then str_ltb a b else bz x <? bz y
  end.

(** [strconv.ParseInt(s, 10, 64)] and [strconv.Atoi]: a sign, digits, and 64 bits. *)
Definition ParseInt64 (s : gostring) : option Z :=
  let '(neg, digits) := match s with
                        | c :: t => if Ascii.eqb c "-" then (true, t) else if Ascii.eqb c "+" then (false, t) else (false, s)
                        | [] => (false, s)
                        end in
  let v := foldl (λ n c, n * 10 + (bz c - 48)) 0 digits in
  let v := if neg : bool then - v else v in
  if (digits != []) && forallb is_digit digits && (min_int64 <=? v) && (v <=? max_int64) then Some v else None.

(** ** TrimSpace: [unicode.IsSpace] runes at either end, in UTF-8 *)

Definition space1 (a : ascii) : bool := ((9 <=? bz a) && (bz a <=? 13)) || (bz a =? 32).
(** U+0085, U+00A0 *)
Definition space2 (a b : ascii) : bool := (bz a =? 194) && ((bz b =? 133) || (bz b =? 160)).
(** U+1680, U+2000-U+200A, U+2028, U+2029, U+202F, U+205F, U+3000 *)
Definition space3 (a b c : ascii) : bool :=
  ((bz a =? 225) && (bz b =? 154) && (bz c =? 128))
  || ((bz a =? 226) && (bz b =? 128)
      && (((128 <=? bz c) && (bz c <=? 138)) || (bz c =? 168) || (bz c =? 169) || (bz c =? 175)))
  || ((bz a =? 226) && (bz b =? 129) && (bz c =? 159))
  || ((bz a =? 227) && (bz b =? 128) && (bz c =? 128)).

Fixpoint trim_with (s2 : ascii → ascii → bool) (s3 : ascii → ascii → ascii → bool)
    (s : gostring) : gostring :=
  match s with
  | a :: t1 =>
      if space1 a then trim_with s2 s3 t1
      else match t1 with
           | b :: t2 =>
               if s2 a b then trim_with s2 s3 t2
               else match t2 with
                    | c :: t3 => if s3 a b c then trim_with s2 s3 t3 else s
                    | [] => s
                    end
           | [] => s
           end
  | [] => []
  end.

Definition TrimSpace (s : gostring) : gostring :=
  let left := trim_with space2 space3 s in
  reverse (trim_with (λ a b, space2 b a) (λ a b c, space3 c b a) (reverse left)).

(** ** UTF-8 *)

Definition RuneError : Z := 65533.

Definition cont_byte (c : ascii) : bool := (128 <=? bz c) && (bz c <=? 191).
Definition between (lo hi : Z) (c : ascii) : bool := (lo <=? bz c) && (bz c <=? hi).

(** [utf8.DecodeRuneInString]: the rune and its width, [(RuneError, 1)] for an
    invalid encoding and [(RuneError, 0)] for the empty string. *)
Definition DecodeRune (s : gostring) : Z * nat :=
  match s with
  | [] => (RuneError, 0%nat)
  | a :: t =>
      let x := bz a in
      if x <? 128 then (x, 1%nat)
      else match t with
      | [] => (RuneError, 1%nat)
      | b :: t =>
          if (194 <=? x) && (x <=? 223) then
            if cont_byte b then ((x - 192) * 64 + (bz b - 128), 2%nat) else (RuneError, 1%nat)
          else match t with
          | [] => (RuneError, 1%nat)
          | c :: t =>
              if (224 <=? x) && (x <=? 239) then
                let lo := if x =? 224 then 160 else 128 in
                let hi := if x =? 237 then 159 else 191 in
                if between lo hi b && cont_byte c
                then ((x - 224) * 4096 + (bz b - 128) * 64 + (bz c - 128), 3%nat)
                else (RuneError, 1%nat)
              else match t with
              | [] => (RuneError, 1%nat)
              | d :: _ =>
                  if (240 <=? x) && (x <=? 244) then
                    let lo := if x =? 240 then 144 else 128 in
                    let hi := if x =? 244 then 143 else 191 in
                    if between lo hi b && cont_byte c && cont_byte d
                    then ((x - 240) * 262144 + (bz b - 128) * 4096 + (bz c - 128) * 64 + (bz d - 128), 4%nat)
                    else (RuneError, 1%nat)
                  else (RuneError, 1%nat)
              end
          end
      end
  end.

#[global] Arguments DecodeRune : simpl never.

(** [utf8.AppendRune]: surrogates and out-of-range values encode as RuneError. *)
Definition EncodeRune (r : Z) : gostring :=
  let enc3 r := [zb (224 + r / 4096); zb (128 + (r / 64) `mod` 64); zb (128 + r `mod` 64)] in
  if (0 <=? r) && (r <? 128) then [zb r]
  else if (128 <=? r) && (r <? 2048) then [zb (192 + r / 64); zb (128 + r `mod` 64)]
  else if (r <? 0) || (1114111 <? r) || ((55296 <=? r) && (r <=? 57343)) then enc3 RuneError
  else if r <? 65536 then enc3 r
  else [zb (240 + r / 262144); zb (128 + (r / 4096) `mod` 64);
        zb (128 + (r / 64) `mod` 64); zb (128 + r `mod` 64)].

(** The runes of [for _, r := range s]. *)
Fixpoint runes_fuel (fuel : nat) (s : gostring) : list Z :=
  match fuel, s with
  | S fuel, _ :: _ => let '(r, n) := DecodeRune s in r :: runes_fuel fuel (drop n s)
  | _, _ => []
  end.
Definition runes (s : gostring) : list Z := runes_fuel (length s) s.

(** ** Letter case *)

Class UnicodeTables := {
  unicode_lower : Z → Z;            (* unicode.ToLower of a rune >= 0x80 *)
  unicode_fold_eq : Z → Z → bool    (* same unicode.SimpleFold orbit, not both ASCII *)
}.

Section Case.
Context `{UnicodeTables}.

Definition rune_lower (r : Z) : Z :=
  if r <? 128 then (if (65 <=? r) && (r <=? 90) then r + 32 else r) else unicode_lower r.

(** [strings.ToLower]: the ASCII fast path, else [strings.Map(unicode.ToLower, s)]. *)
Definition ToLower (s : gostring) : gostring :=
  if all_ascii s then lower_byte <$> s
  else runes s ≫= (λ r, EncodeRune (rune_lower r)).

Definition fold_eq (r r' : Z) : bool :=
  (r =? r') || (if (r <? 128) && (r' <? 128) then rune_lower r =? rune_lower r'
                else unicode_fold_eq r r').

Fixpoint folds_eq (a b : list Z) : bool :=
  match a, b with
  | [], [] => true
  | x :: a, y :: b => fold_eq x y && folds_eq a b
  | _, _ => false
  end.

(** [strings.EqualFold]: rune by rune. *)
Definition EqualFold (s t : gostring) : bool := folds_eq (runes s) (runes t).
End Case.

(** Case tables that change nothing outside ASCII (for evaluating witnesses). *)
Definition ascii_tables : UnicodeTables :=
  {| unicode_lower := λ r, r; unicode_fold_eq := λ _ _, false |}.

(** ** Facts *)

(** Proves a fact about one byte by going through its 256 values. *)
Ltac by_byte c := destruct c as [[] [] [] [] [] [] [] []]; vm_compute; try (done || congruence).

Lemma bz_range (c : ascii) : 0 ≤ bz c < 256.
Proof. by_byte c. Qed.

Lemma zb_bz (c : ascii) : zb (bz c) = c.
Proof. unfold zb, bz. rewrite N2Z.id. apply ascii_N_embedding. Qed.

Lemma bz_zb (z : Z) : 0 ≤ z < 256 → bz (zb z) = z.
Proof. intros. unfold zb, bz. rewrite N_ascii_embedding; lia. Qed.

Lemma bz_inj (a b : ascii) : bz a = bz b → a = b.
Proof. intros E. by rewrite <- (zb_bz a), <- (zb_bz b), E. Qed.

Lemma elem_spec (c : ascii) (s : gostring) : elem c s = true ↔ c ∈ s.
Proof.
  unfold elem. rewrite existsb_exists. setoid_rewrite Ascii.eqb_eq.
  setoid_rewrite <- list_elem_of_In. naive_solver.
Qed.

Lemma ContainsAny_false (s chars : gostring) :
  ContainsAny s chars = false ↔ ∀ c, c ∈ s → c ∉ chars.
Proof.
  unfold ContainsAny. rewrite <- not_true_iff_false, existsb_exists.
  setoid_rewrite elem_spec. setoid_rewrite <- list_elem_of_In. naive_solver.
Qed.

Lemma HasPrefix_spec (s p : gostring) : HasPrefix s p = true ↔ ∃ t, s = p ++ t.
Proof. unfold HasPrefix. by rewrite bool_decide_eq_true. Qed.

Lemma HasSuffix_spec (s p : gostring) : HasSuffix s p = true ↔ ∃ t, s = t ++ p.
Proof. unfold HasSuffix. by rewrite bool_decide_eq_true. Qed.

Lemma CutSuffix_Some (s p b : gostring) : CutSuffix s p = Some b ↔ s = b ++ p.
Proof.
  unfold CutSuffix. split.
  - destruct (HasSuffix s p) eqn:E; [|done]. intros [= <-].
    apply HasSuffix_spec in E as [t ->]. rewrite length_app, Nat.add_sub, take_app_length. done.
  - intros ->. rewrite (proj2 (HasSuffix_spec _ _)); [|eauto].
    rewrite length_app, Nat.add_sub, take_app_length. done.
Qed.

Lemma LastIndexByte_None (s : gostring) (c : ascii) : LastIndexByte s c = None ↔ c ∉ s.
Proof.
  induction s as [|x s IH]; simpl; [set_solver|].
  destruct (LastIndexByte s c).
  - split; [done|]. intros Hn. exfalso.
    assert (c ∉ s) as Hs by set_solver. by apply IH in Hs.
  - destruct (Ascii.eqb_spec x c); [set_solver|]. split; [|done]. intros _.
    apply not_elem_of_cons. split; [done|]. by apply IH.
Qed.

Lemma LastIndexByte_Some (s : gostring) (c : ascii) (i : nat) :
  LastIndexByte s c = Some i ↔ ∃ a b, s = a ++ c :: b ∧ length a = i ∧ c ∉ b.
Proof.
  revert i. induction s as [|x s IH]; intros i; simpl.
  { split; [done|]. intros ([] & ? & ? & _); done. }
  destruct (LastIndexByte s c) as [j|] eqn:E.
  - pose proof (proj1 (IH j) eq_refl) as (a & b & -> & <- & Hb). split.
    + intros [= <-]. by exists (x :: a), b.
    + intros (a' & b' & Heq & <- & Hb'). destruct a' as [|y a']; simplify_eq/=; [set_solver|].
      assert (Some (length a) = Some (length a')); [apply IH; eauto|congruence].
  - apply LastIndexByte_None in E. destruct (Ascii.eqb_spec x c) as [->|Hne]; split.
    + intros [= <-]. by exists [], s.
    + intros (a' & b' & Heq & <- & Hb'). destruct a' as [|y a']; simplify_eq/=; [done|set_solver].
    + done.
    + intros (a' & b' & Heq & <- & Hb'). destruct a' as [|y a']; simplify_eq/=; set_solver.
Qed.

Lemma LastIndexByte_app (a b : gostring) (c : ascii) :
  c ∉ b → LastIndexByte (a ++ c :: b) c = Some (length a).
Proof. intros. apply LastIndexByte_Some. eauto. Qed.

Lemma Cut_Some (s a b : gostring) (c : ascii) :
  Cut s c = Some (a, b) ↔ s = a ++ c :: b ∧ c ∉ a.
Proof.
  revert a b. induction s as [|x s IH]; intros a b; simpl.
  { split; [done|]. intros [? _]. by destruct a. }
  destruct (Ascii.eqb_spec x c) as [->|Hne].
  - split; [intros [= <- <-]; set_solver|]. intros [E Ha]. destruct a; simplify_eq/=; [done|set_solver].
  - destruct (Cut s c) as [[a' b']|] eqn:E; simpl.
    + pose proof (proj1 (IH a' b') eq_refl) as [-> Ha']. split.
      * intros [= <- <-]. set_solver.
      * intros [E' Ha]. destruct a as [|y a]; simplify_eq/=.
        assert (Some (a', b') = Some (a, b)) as [= -> ->]; [|done].
        apply IH. set_solver.
    + split; [done|]. intros [E' Ha]. destruct a as [|y a]; simplify_eq/=.
      assert (None = Some (a, b)); [|done]. apply IH. set_solver.
Qed.

Lemma Cut_None (s : gostring) (c : ascii) : Cut s c = None ↔ c ∉ s.
Proof.
  induction s as [|x s IH]; simpl; [set_solver|].
  destruct (Ascii.eqb_spec x c) as [->|Hne]; [set_solver|].
  destruct (Cut s c) as [[a b]|]; simpl; set_solver.
Qed.

Lemma Split_nonempty (s : gostring) (c : ascii) : Split s c ≠ [].
Proof. destruct s as [|x s]; simpl; [done|]. case_match; [done|]. by case_match. Qed.

Lemma Split_elem (s : gostring) (c : ascii) : Forall (λ p, c ∉ p ∧ ∀ x, x ∈ p → x ∈ s) (Split s c).
Proof.
  induction s as [|x s IH]; simpl; [repeat constructor; set_solver|].
  destruct (Ascii.eqb_spec x c).
  - constructor; [set_solver|]. eapply Forall_impl; [done|]. set_solver.
  - destruct (Split s c) eqn:E; [by apply Split_nonempty in E|].
    inversion IH; subst. constructor; [set_solver|]. eapply Forall_impl; [done|]. set_solver.
Qed.

(** Every byte of the split string is the separator or in one of the parts. *)
Lemma Split_cover (s : gostring) (c x : ascii) :
  x ∈ s → x = c ∨ Exists (λ p, x ∈ p) (Split s c).
Proof.
  induction s as [|y s IH]; simpl; [set_solver|]. rewrite elem_of_cons. intros Hx.
  destruct (Ascii.eqb_spec y c) as [->|Hne].
  - destruct Hx as [->|Hx]; [by left|]. destruct (IH Hx); [by left|right; by constructor 2].
  - destruct (Split s c) as [|p ps] eqn:E; [by apply Split_nonempty in E|].
    destruct Hx as [->|Hx]; [right; constructor; set_solver|].
    destruct (IH Hx) as [|Hp]; [by left|]. right. inversion Hp; subst; [constructor; set_solver|by constructor 2].
Qed.

(** *** Case *)

Lemma lower_byte_ascii (c : ascii) : is_ascii (lower_byte c) = is_ascii c.
Proof. by_byte c. Qed.

Lemma lower_byte_idem (c : ascii) : lower_byte (lower_byte c) = lower_byte c.
Proof. by_byte c. Qed.

(** Lower-casing only moves letters: a byte that is not a letter keeps its place. *)
Lemma lower_byte_nonletter (c d : ascii) :
  is_alnum d = false → lower_byte c = d ↔ c = d.
Proof.
  intros Hd. unfold lower_byte. destruct (is_upper c) eqn:E; [|done]. split; intros <-.
  - exfalso. revert Hd E. clear. by_byte c.
  - exfalso. unfold is_alnum in Hd. rewrite E in Hd. by destruct (is_lower c).
Qed.

Lemma all_ascii_app (s t : gostring) : all_ascii (s ++ t) = all_ascii s && all_ascii t.
Proof. apply forallb_app. Qed.

Lemma all_ascii_elem (s : gostring) (c : ascii) : all_ascii s = true → c ∈ s → is_ascii c = true.
Proof. unfold all_ascii. rewrite forallb_forall. setoid_rewrite <- list_elem_of_In. auto. Qed.

Lemma all_ascii_lower (s : gostring) : all_ascii (lower_byte <$> s) = all_ascii s.
Proof. unfold all_ascii. induction s as [|c s IH]; csimpl; [done|]. by rewrite IH, lower_byte_ascii. Qed.

(** *** UTF-8 *)

Lemma ascii_not_cont (c : ascii) : is_ascii c = true → cont_byte c = false.
Proof. unfold is_ascii, cont_byte. to_prop. lia. Qed.

Lemma ascii_not_between (c : ascii) (lo hi : Z) : is_ascii c = true → 128 ≤ lo → between lo hi c = false.
Proof. unfold is_ascii, between. to_prop. lia. Qed.

Lemma DecodeRune_ascii (c : ascii) (s : gostring) : is_ascii c = true → DecodeRune (c :: s) = (bz c, 1%nat).
Proof. unfold is_ascii, DecodeRune. by intros ->. Qed.

Lemma DecodeRune_width (s : gostring) : s ≠ [] → (1 ≤ snd (DecodeRune s) ≤ length s)%nat.
Proof. intros Hs. unfold DecodeRune. repeat case_match; simplify_eq/=; done || lia. Qed.

(** An ASCII byte after a rune's bytes does not change how they decode. *)
Lemma DecodeRune_app (s t : gostring) :
  s ≠ [] → all_ascii t = true → DecodeRune (s ++ t) = DecodeRune s.
Proof.
  intros Hs Ht. destruct t as [|e t]; [by rewrite app_nil_r|].
  simpl in Ht. apply andb_true_iff in Ht as [He _].
  pose proof (ascii_not_cont e He) as Hc.
  assert (∀ lo hi, 128 ≤ lo → between lo hi e = false) as Hb by (intros; by apply ascii_not_between).
  destruct s as [|a [|b [|c [|d s]]]]; [done| | | |done]; unfold DecodeRune; cbn -[between cont_byte];
    rewrite ?Hc; repeat (rewrite Hb; [|case_match; lia]); simpl;
    rewrite ?andb_false_r; repeat case_match; try done.
Qed.

Lemma runes_fuel_enough (n m : nat) (s : gostring) :
  (length s ≤ n)%nat → (length s ≤ m)%nat → runes_fuel n s = runes_fuel m s.
Proof.
  revert m s. induction n as [|n IH]; intros m s Hn Hm; destruct s as [|a s]; simpl in *; try lia.
  1, 2: by destruct m.
  destruct m as [|m]; [lia|]. cbn [runes_fuel].
  pose proof (DecodeRune_width (a :: s) ltac:(done)) as Hw.
  destruct (DecodeRune (a :: s)) as [r k]. simpl in Hw. f_equal.
  apply IH; rewrite length_drop; simpl; lia.
Qed.

Lemma runes_cons (s : gostring) : s ≠ [] →
  runes s = fst (DecodeRune s) :: runes (drop (snd (DecodeRune s)) s).
Proof.
  intros Hs. unfold runes. pose proof (DecodeRune_width s Hs) as Hw.
  destruct s as [|a s]; [done|]. simpl length at 1. cbn [runes_fuel].
  destruct (DecodeRune (a :: s)) as [r k]. simpl fst. simpl snd in *. f_equal.
  apply runes_fuel_enough; rewrite length_drop; simpl in *; lia.
Qed.

Lemma runes_ascii (s : gostring) : all_ascii s = true → runes s = bz <$> s.
Proof.
  induction s as [|c s IH]; [done|]. intros E. simpl in E. apply andb_true_iff in E as [Hc Hs].
  rewrite runes_cons by done. rewrite DecodeRune_ascii by done.
  rewrite fmap_cons, <- IH by done. done.
Qed.

Lemma runes_app (s t : gostring) : all_ascii t = true → runes (s ++ t) = runes s ++ runes t.
Proof.
  intros Ht. remember (length s) as n eqn:Hn. revert s Hn.
  induction (lt_wf n) as [n _ IH]. intros s ->. destruct s as [|a s]; [done|].
  set (u := a :: s) in *. assert (u ≠ []) as Hu by done. clearbody u.
  pose proof (DecodeRune_width u Hu) as Hw.
  rewrite (runes_cons (u ++ t)) by (by destruct u). rewrite DecodeRune_app by done.
  rewrite (runes_cons u) by done. simpl. f_equal.
  rewrite drop_app_le by lia. eapply IH; [|done]. rewrite length_drop. lia.
Qed.

Section CaseFacts.
Context `{UnicodeTables}.

Lemma rune_lower_byte (c : ascii) : is_ascii c = true → EncodeRune (rune_lower (bz c)) = [lower_byte c].
Proof. intros Hc. unfold rune_lower. unfold is_ascii in Hc. rewrite Hc. revert Hc. by_byte c. Qed.

Lemma ToLower_ascii (s : gostring) : all_ascii s = true → ToLower s = lower_byte <$> s.
Proof. unfold ToLower. by intros ->. Qed.

Lemma ToLower_app (s t : gostring) : all_ascii t = true → ToLower (s ++ t) = ToLower s ++ ToLower t.
Proof.
  intros Ht. rewrite (ToLower_ascii t) by done. unfold ToLower. rewrite all_ascii_app, Ht, andb_true_r.
  destruct (all_ascii s); [by rewrite fmap_app|].
  rewrite runes_app by done. rewrite bind_app. f_equal.
  rewrite runes_ascii by done. clear s. induction t as [|c t IH]; [done|].
  simpl in Ht. apply andb_true_iff in Ht as [Hc Ht]. csimpl. by rewrite rune_lower_byte, IH.
Qed.

Lemma rune_lower_ascii (c : ascii) : is_ascii c = true → rune_lower (bz c) = bz (lower_byte c).
Proof. intros Hc. unfold rune_lower. unfold is_ascii in Hc. rewrite Hc. revert Hc. by_byte c. Qed.

Lemma fold_eq_ascii (a b : ascii) : is_ascii a = true → is_ascii b = true →
  fold_eq (bz a) (bz b) = true ↔ lower_byte a = lower_byte b.
Proof.
  intros Ha Hb. unfold fold_eq. rewrite !rune_lower_ascii by done.
  unfold is_ascii in Ha, Hb. rewrite Ha, Hb. simpl.
  rewrite orb_true_iff, !Z.eqb_eq. split; [|intros ->; by right].
  intros [E|E]; [f_equal|]; by apply bz_inj.
Qed.

(** On ASCII strings [EqualFold] compares the lower-cased strings. *)
Lemma EqualFold_ascii (s t : gostring) : all_ascii s = true → all_ascii t = true →
  EqualFold s t = true ↔ lower_byte <$> s = lower_byte <$> t.
Proof.
  intros Hs Ht. unfold EqualFold. rewrite !runes_ascii by done.
  revert t Ht. induction s as [|a s IH]; intros [|b t]; try done. intros Ht.
  simpl in Hs, Ht. apply andb_true_iff in Hs as [Ha Hs], Ht as [Hb Ht].
  specialize (IH Hs t Ht). csimpl. rewrite andb_true_iff, fold_eq_ascii, IH by done.
  split; [intros [-> ->]|intros [= -> ->]]; done.
Qed.

Lemma folds_eq_length (a b : list Z) : folds_eq a b = true → length a = length b.
Proof.
  revert b. induction a as [|x a IH]; intros [|y b]; simpl; try done.
  rewrite andb_true_iff. intros [_ ?]. f_equal. auto.
Qed.
End CaseFacts.

(** *** Order of strings *)

Lemma str_ltb_asym (a b : gostring) : str_ltb a b = true → str_ltb b a = false.
Proof.
  revert b. induction a as [|x a IH]; intros [|y b]; simpl; try done.
  destruct (Z.eqb_spec (bz x) (bz y)) as [->|]; [rewrite Z.eqb_refl; apply IH|].
  rewrite (proj2 (Z.eqb_neq (bz y) (bz x))) by done. rewrite Z.ltb_lt, Z.ltb_ge. lia.
Qed.

Lemma str_ltb_total (a b : gostring) : str_ltb a b = false → str_ltb b a = false → a = b.
Proof.
  revert b. induction a as [|x a IH]; intros [|y b]; simpl; try done.
  destruct (Z.eqb_spec (bz x) (bz y)) as [E|E].
  - rewrite <- E, Z.eqb_refl. intros ? ?. apply bz_inj in E as ->. f_equal. auto.
  - rewrite (proj2 (Z.eqb_neq (bz y) (bz x))) by done. rewrite !Z.ltb_ge. lia.
Qed.

Lemma str_ltb_negtrans (a b c : gostring) :
  str_ltb a b = false → str_ltb b c = false → str_ltb a c = false.
Proof.
  revert b c. induction a as [|x a IH]; intros [|y b] [|z c]; simpl; try done.
  destruct (Z.eqb_spec (bz x) (bz y)), (Z.eqb_spec (bz y) (bz z)), (Z.eqb_spec (bz x) (bz z));
    rewrite ?Z.ltb_ge; try lia. apply IH.
Qed.

(** *** TrimSpace *)

Lemma trim_with_keep (s2 : ascii → ascii → bool) (s3 : ascii → ascii → ascii → bool) (l r : gostring) (c : ascii) :
  (∀ a b, s2 a b = true → is_ascii a = false ∧ is_ascii b = false) →
  (∀ a b d, s3 a b d = true → is_ascii a = false ∧ is_ascii b = false ∧ is_ascii d = false) →
  is_ascii c = true → space1 c = false →
  ∃ l1 l2, l = l1 ++ l2 ∧ trim_with s2 s3 (l ++ c :: r) = l2 ++ c :: r.
Proof.
  intros H2 H3 Hc Hsp. remember (length l) as n eqn:Hn. revert l Hn.
  induction (lt_wf n) as [n _ IH]. intros l ->.
  assert (trim_with s2 s3 (c :: r) = c :: r) as Hstop.
  { cbn [trim_with]. rewrite Hsp. destruct r as [|b r]; [done|].
    destruct (s2 c b) eqn:E2; [apply H2 in E2 as [? _]; congruence|].
    destruct r as [|d r]; [done|]. destruct (s3 c b d) eqn:E3; [apply H3 in E3 as [? _]; congruence|done]. }
  destruct l as [|a t1]; [by exists [], []|]. cbn [app trim_with].
  destruct (space1 a).
  { destruct (IH (length t1) ltac:(simpl; lia) t1 eq_refl) as (l1 & l2 & -> & ->). by exists (a :: l1), l2. }
  destruct t1 as [|b t2]; cbn [app].
  { destruct (s2 a c) eqn:E2; [apply H2 in E2 as [_ ?]; congruence|]. destruct r as [|d r]; [by exists [], [a]|].
    destruct (s3 a c d) eqn:E3; [apply H3 in E3 as (_ & ? & _); congruence|by exists [], [a]]. }
  destruct (s2 a b).
  { destruct (IH (length t2) ltac:(simpl; lia) t2 eq_refl) as (l1 & l2 & -> & ->). by exists (a :: b :: l1), l2. }
  destruct t2 as [|d t3]; cbn [app].
  { destruct (s3 a b c) eqn:E3; [apply H3 in E3 as (_ & _ & ?); congruence|by exists [], [a; b]]. }
  destruct (s3 a b d); [|by exists [], (a :: b :: d :: t3)].
  destruct (IH (length t3) ltac:(simpl; lia) t3 eq_refl) as (l1 & l2 & -> & ->). by exists (a :: b :: d :: l1), l2.
Qed.

Lemma space2_ascii (a b : ascii) : space2 a b = true → is_ascii a = false ∧ is_ascii b = false.
Proof. unfold space2, is_ascii. to_prop. lia. Qed.

Lemma space3_ascii (a b c : ascii) :
  space3 a b c = true → is_ascii a = false ∧ is_ascii b = false ∧ is_ascii c = false.
Proof. unfold space3, is_ascii. to_prop. lia. Qed.

(** An end made of an ASCII byte that is no blank, up to another one, is not trimmed. *)
Lemma TrimSpace_end (l r : gostring) (c x : ascii) :
  is_ascii c = true → space1 c = false → last (c :: r) = Some x → is_ascii x = true → space1 x = false →
  ∃ l1 l2, l = l1 ++ l2 ∧ TrimSpace (l ++ c :: r) = l2 ++ c :: r.
Proof.
  intros Hc Hsc Hl Hx Hsx. unfold TrimSpace.
  destruct (trim_with_keep space2 space3 l r c space2_ascii space3_ascii Hc Hsc) as (l1 & l2 & -> & ->).
  exists l1, l2. split; [done|]. apply last_Some in Hl as [k Hk].
  assert (reverse (l2 ++ c :: r) = [] ++ x :: reverse (l2 ++ k)) as Hrev.
  { rewrite Hk, app_assoc, reverse_app. done. }
  destruct (trim_with_keep (λ a b, space2 b a) (λ a b d, space3 d b a) [] (reverse (l2 ++ k)) x) as (a1 & a2 & Ha & E).
  - intros a b Hab. by apply space2_ascii in Hab as [? ?].
  - intros a b d Habd. by apply space3_ascii in Habd as (? & ? & ?).
  - done.
  - done.
  - symmetry in Ha. apply app_nil in Ha as [-> ->]. rewrite Hrev, E, <- Hrev. apply reverse_involutive.
Qed.

(** The part after the last occurrence of a byte is unique. *)
Lemma after_last_unique (a b x y : gostring) (c : ascii) :
  a ++ c :: x = b ++ c :: y → c ∉ x → c ∉ y → a = b ∧ x = y.
Proof.
  intros E Hx Hy. pose proof (LastIndexByte_app a x c Hx) as H1. rewrite E, LastIndexByte_app in H1 by done.
  simplify_eq. apply app_inj_1 in E as [-> [= ->]]; done.
Qed.
