(* ===== verification/PathMatch.v ===== *)
(** * [path.Match]: shell patterns over byte strings

    The standard library's matcher, as [policy.AddressMatches] and the webhook's
    entry check use it ([filepath.Match] is the same function on Linux).  A
    pattern is split at stars outside brackets into chunks; a chunk is matched
    byte by byte, classes and [?] rune by rune.  [None] is [ErrBadPattern]. *)

From S2P Require Import Prelude GoStrings.

Definition c_star : ascii := "*".
Definition c_qm : ascii := "?".
Definition c_lb : ascii := "[".
Definition c_rb : ascii := "]".
Definition c_bs : ascii := "\".
Definition c_sl : ascii := "/".
Definition c_caret : ascii := "^".
Definition c_dash : ascii := "-".

(** ** Definitions *)

Fixpoint strip_stars (p : gostring) : bool * gostring :=
  match p with
  | c :: p' => if Ascii.eqb c c_star then (true, snd (strip_stars p')) else (false, p)
  | [] => (false, [])
  end.

Fixpoint scan (inrange : bool) (p : gostring) : gostring * gostring :=
  match p with
  | [] => ([], [])
  | c :: p' =>
      if Ascii.eqb c c_bs then
        match p' with
        | [] => ([c], [])
        | d :: p'' => let '(a, b) := scan inrange p'' in (c :: d :: a, b)
        end
      else if Ascii.eqb c c_lb then let '(a, b) := scan true p' in (c :: a, b)
      else if Ascii.eqb c c_rb then let '(a, b) := scan false p' in (c :: a, b)
      else if Ascii.eqb c c_star && negb inrange then ([], p)
      else let '(a, b) := scan inrange p' in (c :: a, b)
  end.

Definition scanChunk (p : gostring) : bool * gostring * gostring :=
  let '(star, p) := strip_stars p in
  let '(chunk, rest) := scan false p in (star, chunk, rest).

Definition getEsc (chunk : gostring) : option (Z * gostring) :=
  match chunk with
  | [] => None
  | c :: t =>
      if Ascii.eqb c c_dash || Ascii.eqb c c_rb then None
      else
        let chunk := if Ascii.eqb c c_bs then t else chunk in
        match chunk with
        | [] => None
        | _ =>
            let '(r, n) := DecodeRune chunk in
            if (r =? RuneError) && (n =? 1)%nat then None
            else match drop n chunk with [] => None | rest => Some (r, rest) end
        end
  end.

(** The ranges of a class up to its closing bracket: whether one holds [r], and
    the rest of the chunk. *)
Fixpoint class_loop (fuel : nat) (chunk : gostring) (r : Z) (found : bool) (nrange : nat)
    : option (bool * gostring) :=
  match fuel with
  | O => None
  | S fuel =>
      match chunk with
      | c :: t =>
          if Ascii.eqb c c_rb && (0 <? nrange)%nat then Some (found, t)
          else
            '(lo, chunk) ← getEsc chunk;
            '(hi, chunk) ← match chunk with
                           | d :: t => if Ascii.eqb d c_dash then getEsc t else Some (lo, chunk)
                           | [] => Some (lo, chunk)
                           end;
            class_loop fuel chunk r (found || ((lo <=? r) && (r <=? hi))) (S nrange)
      | [] => None
      end
  end.

(** [Some (Some rest)]: a match; [Some None]: none; [None]: a bad pattern. *)
Fixpoint matchChunk_loop (fuel : nat) (failed : bool) (chunk s : gostring) : option (option gostring) :=
  match chunk with
  | [] => Some (if failed then None else Some s)
  | c :: t =>
      match fuel with
      | O => None
      | S fuel =>
          let failed := failed || match s with [] => true | _ => false end in
          if Ascii.eqb c c_lb then
            let '(r, s) := if failed then (0, s) else let '(r, n) := DecodeRune s in (r, drop n s) in
            let '(negated, t) := match t with
                                 | d :: t' => if Ascii.eqb d c_caret then (true, t') else (false, t)
                                 | [] => (false, t)
                                 end in
            '(found, t) ← class_loop (S (length t)) t r false 0;
            matchChunk_loop fuel (failed || Bool.eqb found negated) t s
          else if Ascii.eqb c c_qm then
            if failed then matchChunk_loop fuel true t s
            else
              let slash := match s with d :: _ => Ascii.eqb d c_sl | [] => false end in
              matchChunk_loop fuel slash t (drop (snd (DecodeRune s)) s)
          else
            match (if Ascii.eqb c c_bs then t else chunk) with
            | [] => None
            | d :: t =>
                if failed then matchChunk_loop fuel true t s
                else match s with
                     | x :: s => matchChunk_loop fuel (negb (Ascii.eqb d x)) t s
                     | [] => matchChunk_loop fuel true t s
                     end
            end
      end
  end.

Definition matchChunk (chunk s : gostring) : option (option gostring) :=
  matchChunk_loop (length chunk) false chunk s.

(** The search past a star: [chunk] at every later offset before a slash. *)
Fixpoint star_search (chunk : gostring) (last : bool) (name : gostring) : option (option gostring) :=
  match name with
  | [] => Some None
  | c :: name' =>
      if Ascii.eqb c c_sl then Some None
      else
        m ← matchChunk chunk name';
        match m with
        | Some t => if last && match t with [] => false | _ => true end
                    then star_search chunk last name' else Some (Some t)
        | None => star_search chunk last name'
        end
  end.

(** The syntax check of the chunks after a failed match. *)
Fixpoint check_rest (fuel : nat) (pattern : gostring) : option bool :=
  match pattern, fuel with
  | [], _ => Some false
  | _, O => None
  | _, S fuel => let '(_, chunk, rest) := scanChunk pattern in
                 _ ← matchChunk chunk []; check_rest fuel rest
  end.

Fixpoint Match_loop (fuel : nat) (pattern name : gostring) : option bool :=
  match pattern, fuel with
  | [], _ => Some (match name with [] => true | _ => false end)
  | _, O => None
  | _, S fuel =>
      let '(star, chunk, rest) := scanChunk pattern in
      let last := match rest with [] => true | _ => false end in
      if star && match chunk with [] => true | _ => false end then Some (negb (elem c_sl name))
      else
        m ← matchChunk chunk name;
        match m with
        | Some t => if negb last || match t with [] => true | _ => false end
                    then Match_loop fuel rest t
                    else if star then
                           m ← star_search chunk last name;
                           match m with Some t => Match_loop fuel rest t | None => check_rest fuel rest end
                         else check_rest fuel rest
        | None => if star then
                    m ← star_search chunk last name;
                    match m with Some t => Match_loop fuel rest t | None => check_rest fuel rest end
                  else check_rest fuel rest
        end
  end.

(** [path.Match(pattern, name)]; every round consumes part of the pattern, so
    its length is enough fuel. *)
Definition Match (pattern name : gostring) : option bool := Match_loop (length pattern) pattern name.

Example match_star : Match "*@example.com" "a.b@example.com" = Some true.
Proof. reflexivity. Qed.
Example match_class : Match "[a-c]?x*" "b_xyz" = Some true.
Proof. reflexivity. Qed.
Example match_bad : Match "[a" "a" = None.
Proof. reflexivity. Qed.
Example match_escaped : Match "\*a" "*a" = Some true.
Proof. reflexivity. Qed.

(** ** The fuel is enough *)

Lemma getEsc_shorter (chunk : gostring) (r : Z) (rest : gostring) :
  getEsc chunk = Some (r, rest) → ∃ pre, chunk = pre ++ rest ∧ (0 < length pre)%nat.
Proof.
  unfold getEsc. destruct chunk as [|c t]; [done|].
  destruct (_ || _); [done|].
  set (u := if Ascii.eqb c c_bs then t else c :: t).
  assert (∃ p, c :: t = p ++ u) as [p Hp].
  { unfold u. destruct (Ascii.eqb c c_bs); [by exists [c]|by exists []]. }
  clearbody u. destruct u as [|d u]; [done|].
  pose proof (DecodeRune_width (d :: u) ltac:(done)) as Hw.
  destruct (DecodeRune (d :: u)) as [r' n]. simpl in Hw.
  destruct (_ && _); [done|]. destruct (drop n (d :: u)) as [|e v] eqn:Ed; [done|].
  intros [= <- <-]. exists (p ++ take n (d :: u)). rewrite <- app_assoc, <- Ed, take_drop. split; [done|].
  rewrite length_app, length_take. simpl. lia.
Qed.

Lemma class_loop_fuel (n m : nat) (chunk : gostring) (r : Z) (found : bool) (k : nat) :
  (length chunk < n)%nat → (length chunk < m)%nat →
  class_loop n chunk r found k = class_loop m chunk r found k.
Proof.
  revert m chunk found k. induction n as [|n IH]; intros [|m] chunk found k Hn Hm; try lia.
  cbn [class_loop]. destruct chunk as [|c t]; [done|]. destruct (_ && _); [done|].
  destruct (getEsc (c :: t)) as [[lo u]|] eqn:E1; [|done]. cbn [mbind option_bind].
  apply getEsc_shorter in E1 as (pre & Hpre & Hlen).
  apply (f_equal length) in Hpre. rewrite length_app in Hpre.
  destruct u as [|d u]; simpl.
  - apply IH; simpl; lia.
  - destruct (Ascii.eqb d c_dash).
    + destruct (getEsc u) as [[hi v]|] eqn:E2; [|done]. simpl.
      apply getEsc_shorter in E2 as (pre' & -> & Hlen').
      simpl in *. rewrite length_app in Hpre. apply IH; lia.
    + apply IH; simpl in *; lia.
Qed.

(** The loop ends at a closing bracket of the chunk. *)
Lemma class_loop_suffix (n : nat) (chunk : gostring) (r : Z) (found : bool) (k : nat) (b : bool)
    (rest : gostring) :
  class_loop n chunk r found k = Some (b, rest) → ∃ pre, chunk = pre ++ c_rb :: rest.
Proof.
  revert chunk found k. induction n as [|n IH]; intros chunk found k; [done|].
  cbn [class_loop]. destruct chunk as [|c t]; [done|].
  destruct (Ascii.eqb c c_rb && (0 <? k)%nat) eqn:E.
  { intros [= <- <-]. apply andb_true_iff in E as [->%Ascii.eqb_eq _]. by exists []. }
  destruct (getEsc (c :: t)) as [[lo u]|] eqn:E1; [|done]. cbn [mbind option_bind].
  apply getEsc_shorter in E1 as (pre & -> & _).
  destruct u as [|d u]; simpl; [intros (pre' & ?)%IH; by destruct pre'|].
  destruct (Ascii.eqb d c_dash).
  - destruct (getEsc u) as [[hi v]|] eqn:E2; [|done]. simpl.
    apply getEsc_shorter in E2 as (pre' & -> & _). intros (p & ->)%IH.
    exists (pre ++ d :: pre' ++ p). by rewrite <- !app_assoc; simpl; rewrite <- app_assoc.
  - intros (p & ->)%IH. exists (pre ++ p). by rewrite <- app_assoc.
Qed.

Lemma matchChunk_fuel (n m : nat) (failed : bool) (chunk s : gostring) :
  (length chunk ≤ n)%nat → (length chunk ≤ m)%nat →
  matchChunk_loop n failed chunk s = matchChunk_loop m failed chunk s.
Proof.
  revert m failed chunk s. induction n as [|n IH]; intros m failed chunk s Hn Hm;
    destruct chunk as [|c t]; simpl in Hn; try lia; [by destruct m|by destruct m|].
  destruct m as [|m]; simpl in Hm; [lia|]. cbn [matchChunk_loop].
  set (fl := failed || _). clearbody fl. destruct (Ascii.eqb c c_lb).
  - destruct (if fl then _ else _) as [r s']. set (nt := match t with [] => _ | _ => _ end).
    assert (length nt.2 ≤ length t)%nat as Hnt.
    { unfold nt. destruct t as [|d t']; simpl; [lia|]. destruct (Ascii.eqb d c_caret); simpl; lia. }
    destruct nt as [neg t']. simpl in Hnt.
    destruct (class_loop _ _ _ _ _) as [[b u]|] eqn:E; [|done]. simpl.
    apply class_loop_suffix in E as [pre ->]. rewrite length_app in Hnt. simpl in Hnt.
    apply IH; lia.
  - destruct (Ascii.eqb c c_qm); [destruct fl; apply IH; lia|].
    destruct (Ascii.eqb c c_bs); [destruct t as [|d t]; simpl in *; [done|]|];
      destruct fl, s; apply IH; simpl in *; lia.
Qed.

Lemma scan_app (b : bool) (p chunk rest : gostring) :
  scan b p = (chunk, rest) → p = chunk ++ rest ∧ (rest = [] ∨ ∃ r, rest = c_star :: r).
Proof.
  revert b chunk rest. remember (length p) as n eqn:Hn. revert p Hn.
  induction (lt_wf n) as [n _ IH]. intros p -> b chunk rest. destruct p as [|c p]; cbn [scan].
  { intros [= <- <-]. auto. }
  assert (∀ b q chunk rest, (length q < length (c :: p))%nat → scan b q = (chunk, rest) →
          q = chunk ++ rest ∧ (rest = [] ∨ ∃ r, rest = c_star :: r)) as IH'.
  { intros b' q ch re Hlt. by apply (IH (length q)). }
  destruct (Ascii.eqb c c_bs).
  { destruct p as [|d p]; [intros [= <- <-]; auto|].
    destruct (scan b p) as [ch re] eqn:E. intros [= <- <-].
    apply IH' in E as [-> Hr]; [done|simpl; lia]. }
  destruct (Ascii.eqb c c_lb); [|destruct (Ascii.eqb c c_rb)].
  1, 2: destruct (scan _ p) as [ch re] eqn:E; intros [= <- <-];
        apply IH' in E as [-> Hr]; [done|simpl; lia].
  destruct (Ascii.eqb_spec c c_star) as [->|]; destruct b; simpl.
  2: intros [= <- <-]; eauto.
  all: destruct (scan _ p) as [ch re] eqn:E; intros [= <- <-];
       apply IH' in E as [-> Hr]; [done|simpl; lia].
Qed.

Lemma strip_stars_app (p : gostring) : ∃ k, p = replicate k c_star ++ snd (strip_stars p).
Proof.
  induction p as [|c p [k IH]]; [by exists 0%nat|]. cbn [strip_stars].
  destruct (Ascii.eqb_spec c c_star) as [->|]; [|by exists 0%nat].
  exists (S k). simpl. by rewrite <- IH.
Qed.

Lemma strip_stars_head (p r : gostring) : snd (strip_stars p) ≠ c_star :: r.
Proof.
  induction p as [|c p IH]; [done|]. cbn [strip_stars].
  destruct (Ascii.eqb_spec c c_star) as [->|]; [done|]. simpl. congruence.
Qed.

(** What a scanned chunk leaves is shorter than the pattern. *)
Lemma scanChunk_shorter (p chunk rest : gostring) (star : bool) :
  p ≠ [] → scanChunk p = (star, chunk, rest) → (length rest < length p)%nat.
Proof.
  unfold scanChunk. intros Hp. destruct (strip_stars_app p) as [k Hk].
  destruct (strip_stars p) as [st q] eqn:Es. simpl in Hk.
  destruct (scan false q) as [ch re] eqn:E. intros [= <- <- <-].
  pose proof (scan_app _ _ _ _ E) as [Hq Hre]. rewrite Hk, length_app, length_replicate, Hq, length_app.
  destruct k as [|k]; [|lia]. simpl in Hk. subst q.
  destruct ch as [|c ch]; simpl; [|lia]. exfalso. simpl in Hq. subst re.
  destruct Hre as [->|[r ->]]; [done|]. apply (strip_stars_head (c_star :: r) r). by rewrite Es.
Qed.

Lemma check_rest_fuel (n m : nat) (p : gostring) :
  (length p ≤ n)%nat → (length p ≤ m)%nat → check_rest n p = check_rest m p.
Proof.
  revert m p. induction n as [|n IH]; intros m p Hn Hm; destruct p as [|c p]; simpl in Hn; try lia;
    [by destruct m|by destruct m|].
  destruct m as [|m]; simpl in Hm; [lia|]. cbn [check_rest].
  destruct (scanChunk (c :: p)) as [[st ch] re] eqn:E. apply scanChunk_shorter in E; [|done].
  destruct (matchChunk ch []); [|done]. simpl in *. apply IH; lia.
Qed.

(** More fuel than the length of the pattern never changes [Match]. *)
Lemma Match_fuel (n m : nat) (p s : gostring) :
  (length p ≤ n)%nat → (length p ≤ m)%nat → Match_loop n p s = Match_loop m p s.
Proof.
  revert m p s. induction n as [|n IH]; intros m p s Hn Hm; destruct p as [|c p]; simpl in Hn; try lia;
    [by destruct m|by destruct m|].
  destruct m as [|m]; simpl in Hm; [lia|]. cbn [Match_loop].
  destruct (scanChunk (c :: p)) as [[st ch] re] eqn:E. apply scanChunk_shorter in E; [|done]. simpl in E.
  assert (∀ t, Match_loop n re t = Match_loop m re t) as HM by (intros; apply IH; lia).
  rewrite (check_rest_fuel n m) by lia.
  destruct (st && _); [done|]. destruct (matchChunk ch s) as [[t|]|]; simpl; [| |done].
  - rewrite HM. destruct (negb _ || _); [done|]. destruct st; [|done].
    destruct (star_search _ _ _) as [[u|]|]; simpl; done || apply HM.
  - destruct st; [|done]. destruct (star_search _ _ _) as [[u|]|]; simpl; done || apply HM.
Qed.

#[local] Arguments class_loop : simpl never.

(** ** Anchoring: a literal end of the pattern is an end of the name *)

(** No byte of [w] has a meaning of its own in a pattern. *)
Definition literal (w : gostring) : Prop := Forall (λ c, c ∉ [c_star; c_qm; c_lb; c_rb; c_bs]) w.

Lemma literal_notin (w : gostring) (c : ascii) :
  literal w → c ∈ [c_star; c_qm; c_lb; c_rb; c_bs] → c ∉ w.
Proof. unfold literal. rewrite Forall_forall. intros Hw Hc Hin. by apply (Hw c). Qed.

(** A split at a byte that does not occur in the end leaves the end intact. *)
Lemma app_eq_end (l w a b : gostring) (c : ascii) :
  l ++ w = a ++ c :: b → c ∉ w → ∃ l', b = l' ++ w ∧ l = a ++ c :: l'.
Proof.
  intros E Hc. apply app_eq_app in E as [k [[-> E]|[-> E]]].
  - destruct k as [|x k]; simplify_eq/=; [set_solver|]. eauto.
  - set_solver.
Qed.

Lemma matchChunk_failed (n : nat) (chunk s t : gostring) :
  matchChunk_loop n true chunk s ≠ Some (Some t).
Proof.
  revert chunk s. induction n as [|n IH]; intros [|c chunk] s; cbn [matchChunk_loop]; try done.
  simpl. destruct (Ascii.eqb c c_lb).
  - destruct (match chunk with [] => _ | _ => _ end) as [neg u].
    destruct (class_loop _ _ _ _ _) as [[b v]|]; [|done]. apply IH.
  - destruct (Ascii.eqb c c_qm); [apply IH|]. destruct (if Ascii.eqb c c_bs then _ else _); [done|apply IH].
Qed.

(** What a chunk leaves of the name is an end of the name. *)
Lemma matchChunk_suffix (n : nat) (failed : bool) (chunk s t : gostring) :
  matchChunk_loop n failed chunk s = Some (Some t) → ∃ y, s = y ++ t.
Proof.
  revert failed chunk s. induction n as [|n IH]; intros failed [|c chunk] s; cbn [matchChunk_loop].
  1, 3: destruct failed; [done|]; intros [= <-]; by exists [].
  { done. }
  destruct failed; simpl.
  { intros Hm. exfalso. revert Hm. apply (matchChunk_failed (S n) (c :: chunk) s t). }
  destruct s as [|x s].
  { intros Hm. exfalso. revert Hm. apply (matchChunk_failed (S n) (c :: chunk) [] t). }
  destruct (Ascii.eqb c c_lb).
  - destruct (DecodeRune (x :: s)) as [r k].
    destruct (match chunk with [] => _ | _ => _ end) as [neg u].
    destruct (class_loop _ _ _ _ _) as [[b v]|]; [|done]. simpl. intros [y Hy]%IH.
    exists (take k (x :: s) ++ y). by rewrite <- app_assoc, <- Hy, take_drop.
  - destruct (Ascii.eqb c c_qm).
    + intros [y Hy]%IH. exists (take (snd (DecodeRune (x :: s))) (x :: s) ++ y).
      by rewrite <- app_assoc, <- Hy, take_drop.
    + destruct (if Ascii.eqb c c_bs then _ else _) as [|d u]; [done|].
      intros [z ->]%IH. by exists (x :: z).
Qed.

Lemma matchChunk_literal (n : nat) (w s t : gostring) :
  literal w → matchChunk_loop n false w s = Some (Some t) → s = w ++ t.
Proof.
  revert w s. induction n as [|n IH]; intros [|c w] s Hw; cbn [matchChunk_loop]; simpl; try congruence.
  inversion_clear Hw as [|? ? Hc Hw']. rewrite !not_elem_of_cons in Hc.
  destruct Hc as (H1 & H2 & H3 & H4 & H5 & _).
  rewrite (proj2 (Ascii.eqb_neq c c_lb)), (proj2 (Ascii.eqb_neq c c_qm)),
    (proj2 (Ascii.eqb_neq c c_bs)) by done.
  destruct s as [|x s].
  { intros Hm. exfalso. by apply matchChunk_failed in Hm. }
  destruct (Ascii.eqb_spec c x) as [->|]; simpl.
  - intros ->%IH; done.
  - intros Hm. exfalso. by apply matchChunk_failed in Hm.
Qed.

Lemma matchChunk_end (n : nat) (x w s t : gostring) :
  literal w → w ≠ [] → matchChunk_loop n false (x ++ w) s = Some (Some t) → ∃ y, s = y ++ w ++ t.
Proof.
  intros Hw Hne. revert x s. induction n as [|n IH]; intros x s Hm.
  { destruct (x ++ w) as [|c u] eqn:E; [by destruct x, w|done]. }
  destruct x as [|c x]; [apply matchChunk_literal in Hm as ->; [by exists []|done]|].
  cbn [matchChunk_loop app] in Hm. simpl in Hm.
  destruct s as [|b s]; [exfalso; revert Hm; apply (matchChunk_failed (S n) (c :: x ++ w) [] t)|].
  simpl in Hm. destruct (Ascii.eqb c c_lb).
  - destruct (DecodeRune (b :: s)) as [r k].
    destruct (match x ++ w with [] => _ | _ => _ end) as [neg u] eqn:Eu.
    destruct (class_loop _ _ _ _ _) as [[f v]|] eqn:Ec; [|done]. simpl in Hm.
    apply class_loop_suffix in Ec as [pre ->].
    assert (∃ p, x ++ w = p ++ c_rb :: v) as [p Hp].
    { destruct (x ++ w) as [|d u']; [destruct pre; discriminate|].
      destruct (Ascii.eqb d c_caret); simplify_eq/=; [by exists (d :: pre)|by exists pre]. }
    apply app_eq_end in Hp as (x' & -> & ->); [|apply literal_notin; [done|set_solver]].
    destruct (Bool.eqb f neg); [exfalso; by apply matchChunk_failed in Hm|].
    apply IH in Hm as [y Hy]. exists (take k (b :: s) ++ y).
    by rewrite <- app_assoc, <- Hy, take_drop.
  - destruct (Ascii.eqb c c_qm).
    + destruct (Ascii.eqb b c_sl); [exfalso; by apply matchChunk_failed in Hm|].
      apply IH in Hm as [y Hy]. exists (take (snd (DecodeRune (b :: s))) (b :: s) ++ y).
      by rewrite <- app_assoc, <- Hy, take_drop.
    + destruct (Ascii.eqb c c_bs).
      * destruct x as [|d x]; simpl in Hm.
        -- destruct w as [|d w]; [done|]. destruct (Ascii.eqb_spec d b) as [->|];
             [|exfalso; by apply matchChunk_failed in Hm].
           apply matchChunk_literal in Hm as ->; [by exists []|by inversion Hw].
        -- destruct (Ascii.eqb d b); [|exfalso; by apply matchChunk_failed in Hm].
           apply IH in Hm as [y ->]. by exists (b :: y).
      * destruct (Ascii.eqb c b); [|exfalso; by apply matchChunk_failed in Hm].
        apply IH in Hm as [y ->]. by exists (b :: y).
Qed.

Lemma star_search_spec (chunk name t : gostring) (last : bool) :
  star_search chunk last name = Some (Some t) →
  ∃ y s, name = y ++ s ∧ matchChunk chunk s = Some (Some t) ∧ (last = true → t = []).
Proof.
  induction name as [|c name IH]; [done|]. cbn [star_search].
  destruct (Ascii.eqb c c_sl); [done|].
  destruct (matchChunk chunk name) as [[u|]|] eqn:E; simpl; [| |done].
  - destruct last, u as [|d u]; simpl; intros Hm.
    2: apply IH in Hm as (y & s & -> & ? & ?); by exists (c :: y), s.
    all: simplify_eq; exists [c], name; done.
  - intros (y & s & -> & ? & ?)%IH. by exists (c :: y), s.
Qed.

Lemma check_rest_false (n : nat) (p : gostring) : check_rest n p ≠ Some true.
Proof.
  revert p. induction n as [|n IH]; intros [|c p]; cbn [check_rest]; try done.
  destruct (scanChunk (c :: p)) as [[? ch] re]. destruct (matchChunk ch []); simpl; [apply IH|done].
Qed.

(** The next chunk of a pattern that ends in the literal [w]: the last chunk,
    ending in [w], or one that leaves a pattern ending in [w]. *)
Lemma scanChunk_end (l w chunk rest : gostring) (star : bool) :
  literal w → w ≠ [] → scanChunk (l ++ w) = (star, chunk, rest) →
  chunk ≠ [] ∧ ((rest = [] ∧ ∃ x, chunk = x ++ w) ∨ (∃ l', rest = l' ++ w)).
Proof.
  intros Hw Hne E. assert (c_star ∉ w) as Hstar by (apply literal_notin; [done|set_solver]).
  pose proof (strip_stars_app (l ++ w)) as [k Hk]. unfold scanChunk in E.
  destruct (strip_stars (l ++ w)) as [st q] eqn:Eq. simpl in Hk.
  assert (∃ l2, q = l2 ++ w) as [l2 ->].
  { clear -Hk Hstar. revert l Hk. induction k as [|k IH]; intros l Hk; simpl in Hk; [eauto|].
    destruct l as [|c l]; simpl in Hk; [subst w; set_solver|]. simplify_eq. eauto. }
  destruct (scan false (l2 ++ w)) as [ch re] eqn:Es. simplify_eq.
  apply scan_app in Es as [Happ Hre].
  assert (chunk ≠ []) as Hch.
  { intros ->. simpl in Happ. destruct Hre as [->|[r ->]]; [by destruct l2, w|].
    apply (strip_stars_head (l ++ w) r). by rewrite Eq. }
  split; [done|]. destruct Hre as [->|[r ->]].
  - left. rewrite app_nil_r in Happ. eauto.
  - right. symmetry in Happ. apply eq_sym, app_eq_end in Happ as (l' & -> & _); [|done].
    by exists (c_star :: l').
Qed.

(** A name that matches a pattern with a literal end has that end. *)
Lemma Match_loop_end (n : nat) (l w name : gostring) :
  literal w → w ≠ [] → Match_loop n (l ++ w) name = Some true → ∃ y, name = y ++ w.
Proof.
  intros Hw Hne. revert l name. induction n as [|n IH]; intros l name Hm.
  { destruct (l ++ w) eqn:E; [by destruct l, w|done]. }
  destruct (l ++ w) as [|c u] eqn:E; [by destruct l, w|]. cbn [Match_loop] in Hm.
  destruct (scanChunk (c :: u)) as [[star chunk] rest] eqn:Es.
  rewrite <- E in Es. apply scanChunk_end in Es as [Hch Hrest]; [|done..].
  destruct chunk as [|d chunk]; [done|]. rewrite andb_false_r in Hm.
  assert (∀ y s t, name = y ++ s → matchChunk (d :: chunk) s = Some (Some t) → (rest = [] → t = []) →
    Match_loop n rest t = Some true → ∃ y, name = y ++ w) as Hgo.
  { intros y s t -> Hmc Ht Hr. destruct Hrest as [[-> [x Hx]]|[l' ->]].
    - rewrite Hx in Hmc. apply matchChunk_end in Hmc as [z ->]; [|done..].
      rewrite Ht, app_nil_r, app_assoc by done. eauto.
    - apply IH in Hr as [z ->]. apply matchChunk_suffix in Hmc as [v ->].
      exists (y ++ v ++ z). by rewrite <- !app_assoc. }
  assert (∀ t, star_search (d :: chunk) (match rest with [] => true | _ => false end) name = Some (Some t) →
    Match_loop n rest t = Some true → ∃ y, name = y ++ w) as Hstar.
  { intros t (y & s & Hs & Hmc & Hl)%star_search_spec Hr. apply (Hgo y s t); [done..| |done].
    intros ->. by apply Hl. }
  assert (∀ o, star_search (d :: chunk) (match rest with [] => true | _ => false end) name = Some o →
     match o with Some t => Match_loop n rest t | None => check_rest n rest end = Some true →
     ∃ y, name = y ++ w) as Hopt.
  { intros [t|] Ho Hr; [by eapply Hstar|by apply check_rest_false in Hr]. }
  destruct (matchChunk (d :: chunk) name) as [[t|]|] eqn:Emc; simpl in Hm; [| |done].
  - destruct (_ || _) eqn:Ec.
    + apply (Hgo [] name t); [done..| |done]. intros ->. by destruct t.
    + destruct star; [|by apply check_rest_false in Hm].
      destruct (star_search _ _ _) as [o|] eqn:Eo; simpl in Hm; [|done]. by eapply Hopt.
  - destruct star; [|by apply check_rest_false in Hm].
    destruct (star_search _ _ _) as [o|] eqn:Eo; simpl in Hm; [|done]. by eapply Hopt.
Qed.

Lemma Match_end (l w name : gostring) :
  literal w → w ≠ [] → Match (l ++ w) name = Some true → ∃ y, name = y ++ w.
Proof. apply Match_loop_end. Qed.
