(* ===== verification/Types.v ===== *)
(** * The API types ([api/v1alpha1])

    The custom resources the gateway, the proxy, the webhooks and the controller
    share.  Go strings that Kubernetes restricts to an enumeration stay strings,
    as the code compares them; a pointer is an [option]; a slice is a list, except
    [BackendSpec.AllowedSenders], where a nil and an empty list mean different
    things.  Of Kubernetes' own types only the fields the code uses appear. *)

From S2P Require Import Prelude.

(** ** Kubernetes metadata and conditions *)

Record OwnerReference := {
  or_APIVersion : gostring; or_Kind : gostring; or_Name : gostring; or_UID : gostring; or_Controller : bool }.

Record ObjectMeta := {
  om_Name : gostring; om_Namespace : gostring; om_UID : gostring;
  om_Generation : Z; om_CreationTimestamp : Time; om_DeletionTimestamp : option Time;
  om_Labels : gmap gostring gostring; om_Annotations : gmap gostring gostring;
  om_OwnerReferences : list OwnerReference }.

Inductive ConditionStatus := ConditionTrue | ConditionFalse | ConditionUnknown.

#[global] Instance ConditionStatus_eq_dec : EqDecision ConditionStatus.
Proof. solve_decision. Defined.

Record Condition := {
  c_Type : gostring; c_Status : ConditionStatus; c_ObservedGeneration : Z;
  c_LastTransitionTime : Time; c_Reason : gostring; c_Message : gostring }.

#[global] Instance Condition_eq_dec : EqDecision Condition.
Proof. solve_decision. Defined.

(** [metav1.LabelSelectorRequirement]. *)
Record LabelSelectorRequirement := {
  lr_Key : gostring; lr_Operator : gostring; lr_Values : list gostring }.

Record LabelSelector := {
  MatchLabels : gmap gostring gostring;
  MatchExpressions : list LabelSelectorRequirement }.

(** [GroupVersion.String()] of [groupversion_info.go]. *)
Definition GroupVersion : gostring := "sigillum.dev/v1alpha1".

(** ** [mailpolicy_types.go] *)

Definition KindMailBackend : gostring := "MailBackend".
Definition KindClusterMailBackend : gostring := "ClusterMailBackend".

Record BackendRef := { br_Name : gostring; br_Kind : gostring }.

Record ServiceAccountSubject := { sa_Name : gostring; sa_Namespace : gostring }.

(** [LabelSelectorSubject] has the shape of a label selector. *)
Definition LabelSelectorSubject := LabelSelector.

Record PolicySubject := {
  ServiceAccount : option ServiceAccountSubject;
  ServiceAccountSelector : option LabelSelectorSubject;
  PodSelector : option LabelSelectorSubject }.

Record SenderRestrictions := { AllowedSenders : list gostring }.

Record RecipientRestrictions := {
  AllowedDomains : list gostring;
  AllowedRecipients : list gostring;
  BlockedDomains : list gostring }.

Record RateLimitsSpec := {
  MessagesPerMinute : Z; MessagesPerHour : Z; MessagesPerDay : Z }.

Record MessageLimitsSpec := { MaxSizeBytes : Z; MaxRecipients : Z }.

Record LegacyAuthSpec := { PodIPFallback : bool }.

Record MailPolicySpec := {
  mps_Priority : Z;
  mps_Subjects : list PolicySubject;
  mps_BackendRef : BackendRef;
  mps_SenderRestrictions : option SenderRestrictions;
  mps_RecipientRestrictions : option RecipientRestrictions;
  mps_RateLimits : option RateLimitsSpec;
  mps_MessageLimits : option MessageLimitsSpec;
  mps_LegacyAuth : option LegacyAuthSpec }.

Record MailPolicyStatus := {
  mpst_Conditions : list Condition;
  mpst_MatchedSubjects : Z;
  mpst_ObservedGeneration : Z }.

Record MailPolicy := {
  mp_Meta : ObjectMeta; mp_Spec : MailPolicySpec; mp_Status : MailPolicyStatus }.

Definition mp_Name (p : MailPolicy) : gostring := om_Name (mp_Meta p).
Definition mp_Namespace (p : MailPolicy) : gostring := om_Namespace (mp_Meta p).

(** ** [backend_common.go] *)

Definition BackendSMTP : gostring := "smtp".
Definition BackendMicrosoftGraph : gostring := "microsoftGraph".
Definition BackendSendGrid : gostring := "sendgrid".
Definition BackendGmail : gostring := "gmail".

Definition CapabilitySend : gostring := "send".

Definition SMTPTLSNone : gostring := "none".
Definition SMTPTLSStartTLS : gostring := "starttls".
Definition SMTPTLSImplicit : gostring := "tls".

Definition SMTPAuthNone : gostring := "NONE".
Definition SMTPAuthPlain : gostring := "PLAIN".
Definition SMTPAuthLogin : gostring := "LOGIN".
Definition SMTPAuthCRAMMD5 : gostring := "CRAM-MD5".

Record SMTPEndpoint := {
  ep_Host : gostring; ep_Port : Z; ep_TLS : gostring; ep_InsecureSkipVerify : bool }.

#[global] Instance SMTPEndpoint_eq_dec : EqDecision SMTPEndpoint.
Proof. solve_decision. Defined.

Record SecretReference := { sec_Name : gostring; sec_Namespace : gostring }.

Record CASecretReference := { ca_Name : gostring; ca_Namespace : gostring; ca_Key : gostring }.

Record SMTPBackendSpec := {
  Endpoints : list SMTPEndpoint;
  AuthType : gostring;
  smtp_CredentialsRef : option SecretReference;
  ConnectionTimeoutSeconds : Z;
  HeloDomain : gostring;
  CASecretRef : option CASecretReference }.

Record MicrosoftGraphBackendSpec := {
  TenantID : gostring; ClientID : gostring; graph_CredentialsRef : SecretReference }.

Record HealthCheckSpec := { hc_Enabled : bool; hc_IntervalSeconds : Z }.

Record EndpointStatus := {
  es_Host : gostring; es_Port : Z; es_Ready : bool; es_Message : gostring }.

Record BackendSpec := {
  bs_Type : gostring;
  bs_SMTP : option SMTPBackendSpec;
  bs_MicrosoftGraph : option MicrosoftGraphBackendSpec;
  bs_HealthCheck : option HealthCheckSpec;
  (** [None] is nil: no restriction; [Some []] denies every sender. *)
  bs_AllowedSenders : option (list gostring) }.

Record BackendStatus := {
  bst_Capabilities : list gostring;
  bst_EndpointStatus : list EndpointStatus;
  bst_Conditions : list Condition;
  bst_LastProbeTime : option Time;
  bst_ObservedGeneration : Z }.

Record MailBackend := {
  mb_Meta : ObjectMeta; mb_Spec : BackendSpec; mb_Status : BackendStatus }.

Record ClusterMailBackend := {
  cmb_Meta : ObjectMeta; cmb_Spec : BackendSpec; cmb_Status : BackendStatus }.

Definition ConditionReady : gostring := "Ready".
Definition ConditionUsingLegacyAuth : gostring := "UsingLegacyAuth".
Definition ConditionAuthorized : gostring := "Authorized".

Definition ReasonAtLeastOneEndpointReady : gostring := "AtLeastOneEndpointReady".
Definition ReasonAllEndpointsDown : gostring := "AllEndpointsDown".
Definition ReasonUnsupportedBackendType : gostring := "UnsupportedBackendType".
Definition ReasonInvalidConfiguration : gostring := "InvalidConfiguration".
Definition ReasonSecretNamespaceNotAllowed : gostring := "SecretNamespaceNotAllowed".
Definition ReasonProbeError : gostring := "ProbeError".
Definition ReasonBackendNotFound : gostring := "BackendNotFound".
Definition ReasonBackendNotReady : gostring := "BackendNotReady".
Definition ReasonReady : gostring := "Ready".

(** ** [mailcredential_types.go] *)

Definition CredentialLabel : gostring := "sigillum.dev/credential".
Definition CredentialUIDAnnotation : gostring := "sigillum.dev/credential-uid".
Definition RotateAnnotation : gostring := "sigillum.dev/rotate".

Definition CredentialSecretUsernameKey : gostring := "username".
Definition CredentialSecretPasswordKey : gostring := "password".
Definition CredentialSecretHostKey : gostring := "host".
Definition CredentialSecretPortKey : gostring := "port".

Definition ConditionSecretsManaged : gostring := "SecretsManaged".
Definition ReasonServiceAccountNotFound : gostring := "ServiceAccountNotFound".
Definition ReasonNamespaceExcluded : gostring := "NamespaceExcluded".
Definition ReasonSecretConflict : gostring := "SecretConflict".
Definition ReasonSecretWriteFailed : gostring := "SecretWriteFailed".
Definition ReasonGuardMissing : gostring := "GuardMissing".
Definition ReasonGeneratedModeDisabled : gostring := "GeneratedModeDisabled".
Definition ReasonBringYourOwnHash : gostring := "BringYourOwnHash".

Record CredentialRotation := { rot_Interval : gostring; rot_GracePeriod : gostring }.

Record MailCredentialSpec := {
  mcs_ServiceAccountName : gostring;
  mcs_SecretName : gostring;
  mcs_Rotation : option CredentialRotation;
  mcs_PasswordHash : gostring }.

Record CredentialHash := { ch_Hash : gostring; ch_CreatedAt : Time }.
Record PreviousCredentialHash := { ph_Hash : gostring; ph_ValidUntil : Time }.

Record MailCredentialStatus := {
  mcst_Username : gostring;
  mcst_SecretName : gostring;
  mcst_ServiceAccountName : gostring;
  mcst_Current : option CredentialHash;
  mcst_Previous : option PreviousCredentialHash;
  mcst_LastRotateRequest : gostring;
  mcst_Conditions : list Condition;
  mcst_ObservedGeneration : Z }.

Record MailCredential := {
  mc_Meta : ObjectMeta; mc_Spec : MailCredentialSpec; mc_Status : MailCredentialStatus }.

Definition mc_Name (c : MailCredential) : gostring := om_Name (mc_Meta c).
Definition mc_Namespace (c : MailCredential) : gostring := om_Namespace (mc_Meta c).

(** [MailCredential.Generated]. *)
Definition Generated (c : MailCredential) : bool := mcs_PasswordHash (mc_Spec c) == [].

(** ** Metadata of a named object, for examples *)

Definition meta_of (namespace name : gostring) : ObjectMeta :=
  {| om_Name := name; om_Namespace := namespace; om_UID := name; om_Generation := 1;
     om_CreationTimestamp := 0; om_DeletionTimestamp := None;
     om_Labels := ∅; om_Annotations := ∅; om_OwnerReferences := [] |}.
