(* ===== verification/Address.v ===== *)
(** * Mailbox addresses ([internal/policy/address.go])

    Which addresses the transports and the policy engine accept: a dot-atom local
    part without routing characters and an ASCII host name.  [net/mail]'s address
    parser and [mime]'s header decoder are the parameters of [AddressParser]. *)

From S2P Require Import Prelude GoStrings.

(** ** Definitions *)

Inductive DomainError := DomainLength | LabelLength | LabelDash | NotHostName.
Inductive MailboxError :=
| NotPlainMailbox | BadDomain (e : DomainError) | NotDotAtom | BadLocalByte (c : ascii).

Definition c_at : ascii := "@".
Definition c_dot : ascii := ".".
Definition c_hyphen : ascii := "-".

(** The bytes [ValidateDomain] accepts in a label. *)
Definition domainByte (c : ascii) : bool :=
  in_range "a" "z" c || in_range "A" "Z" c || in_range "0" "9" c || Ascii.eqb c c_hyphen.

Definition checkLabel (label : gostring) : res DomainError unit :=
  if (length label =? 0)%nat || (63 <? length label)%nat then Err LabelLength
  else if (head label == Some c_hyphen) || (last label == Some c_hyphen) then Err LabelDash
  else if negb (forallb domainByte label) then Err NotHostName
  else Ok ().

Fixpoint checkLabels (labels : list gostring) : res DomainError unit :=
  match labels with
  | [] => Ok ()
  | l :: labels => let! _ := checkLabel l in checkLabels labels
  end.

Definition ValidateDomain (d : gostring) : res DomainError unit :=
  if (length d =? 0)%nat || (253 <? length d)%nat then Err DomainLength
  else checkLabels (Split d c_dot).

Definition localPartByte (c : ascii) : bool :=
  if 128 <=? bz c then true
  else if in_range "a" "z" c || in_range "A" "Z" c || in_range "0" "9" c then true
  else elem c "#$&'*+-/=?^_`{|}~.".

(** The loop over the bytes of the local part: the first refused one. *)
Fixpoint checkLocal (local : gostring) : res MailboxError unit :=
  match local with
  | [] => Ok ()
  | c :: local => if localPartByte c then checkLocal local else Err (BadLocalByte c)
  end.

Definition ValidateMailbox (addr : gostring) : res MailboxError unit :=
  match LastIndexByte addr c_at with
  | None => Err NotPlainMailbox
  | Some at_ =>
      if (at_ =? 0)%nat || (at_ =? length addr - 1)%nat then Err NotPlainMailbox
      else
        match ValidateDomain (drop (at_ + 1) addr) with
        | Err e => Err (BadDomain e)
        | Ok _ =>
            let local := take at_ addr in
            if HasPrefix local "." || HasSuffix local "." || Contains local ".." then Err NotDotAtom
            else checkLocal local
        end
  end.

(** The parts of [net/mail] and [mime] the package calls. *)
Class AddressParser := {
  (** [mail.ParseAddress]: display name and addr-spec. *)
  ParseAddress : gostring → option (gostring * gostring);
  (** [mime.WordDecoder.DecodeHeader] with a charset filter. *)
  DecodeHeader : (gostring → bool) → gostring → option gostring
}.

Inductive PlainAddressError := Unparsable | NotPlainAddress | BadMailbox (e : MailboxError).
Inductive HeaderError := CannotDecode | NameContainsAt.

Section Parsers.
Context `{AddressParser, UnicodeTables}.

Definition ValidatePlainAddress (s : gostring) : res PlainAddressError unit :=
  match ParseAddress s with
  | None => Err Unparsable
  | Some (name, address) =>
      if (name != []) || (address != s) then Err NotPlainAddress
      else match ValidateMailbox address with Ok _ => Ok () | Err e => Err (BadMailbox e) end
  end.

(** The charsets [wordDecoder.CharsetReader] passes through. *)
Definition charsetAccepted (charset : gostring) : bool :=
  let cs := ToLower charset in
  negb (existsb (λ p : string, HasPrefix cs p)
    ["utf-7"; "utf7"; "utf-16"; "utf16"; "utf-32"; "utf32"; "ucs"; "unicode"]%string).

(** U+FF20 and U+FE6B in UTF-8. *)
Definition fullwidthAt : gostring := [zb 239; zb 188; zb 160].
Definition smallAt : gostring := [zb 239; zb 185; zb 171].

Definition ValidateAddressHeader (raw : gostring) (n : Z) : res HeaderError unit :=
  match DecodeHeader charsetAccepted raw with
  | None => Err CannotDecode
  | Some decoded =>
      let ats := Count decoded "@" + (Count decoded fullwidthAt + Count decoded smallAt) in
      if n <? ats then Err NameContainsAt else Ok ()
  end.
End Parsers.

(** ** What the checks accept *)

(** A label of an ASCII host name. *)
Definition host_label (l : gostring) : Prop :=
  (0 < length l ≤ 63)%nat ∧ head l ≠ Some c_hyphen ∧ last l ≠ Some c_hyphen ∧
  ∀ c, c ∈ l → is_alnum c = true ∨ c = c_hyphen.

(** An ASCII host name: labels joined by dots, 253 bytes at most. *)
Definition host_name (d : gostring) : Prop :=
  (length d ≤ 253)%nat ∧ ∃ labels, labels ≠ [] ∧ Forall host_label labels ∧ d = Join labels ".".

(** A dot-atom: atoms of allowed bytes, none of them empty, joined by dots. *)
Definition dot_atom (local : gostring) : Prop :=
  ∃ atoms, atoms ≠ [] ∧ local = Join atoms "." ∧
    Forall (λ a, a ≠ [] ∧ ∀ c, c ∈ a → localPartByte c = true ∧ c ≠ c_dot) atoms.

Lemma Join_cons (x : gostring) (l : list gostring) (sep : gostring) :
  l ≠ [] → Join (x :: l) sep = x ++ sep ++ Join l sep.
Proof. destruct l; done. Qed.

(** Splitting and joining at one byte are inverse. *)
Lemma Join_Split (s : gostring) (c : ascii) : Join (Split s c) [c] = s.
Proof.
  induction s as [|x s IH]; [done|]. simpl. destruct (Ascii.eqb_spec x c) as [->|Hne].
  - rewrite Join_cons by apply Split_nonempty. by rewrite IH.
  - destruct (Split s c) as [|p ps] eqn:E; [by apply Split_nonempty in E|].
    rewrite <- IH. by destruct ps.
Qed.

Lemma Split_app (a s : gostring) (c : ascii) : Split (a ++ c :: s) c = Split a c ++ Split s c.
Proof.
  induction a as [|x a IH]; simpl; [by rewrite Ascii.eqb_refl|].
  destruct (Ascii.eqb x c); [by rewrite IH|]. rewrite IH.
  destruct (Split a c) eqn:E; [by apply Split_nonempty in E|done].
Qed.

Lemma Split_notin (s : gostring) (c : ascii) : c ∉ s → Split s c = [s].
Proof.
  induction s as [|x s IH]; intros Hs; simpl; [done|]. apply not_elem_of_cons in Hs as [Hx Hs].
  destruct (Ascii.eqb_spec x c); [by subst|]. by rewrite IH.
Qed.

Lemma Split_Join (l : list gostring) (c : ascii) :
  l ≠ [] → Forall (λ p, c ∉ p) l → Split (Join l [c]) c = l.
Proof.
  intros Hne Hl. induction Hl as [|x l Hx Hl IH]; [done|]. destruct l as [|y l].
  - simpl. rewrite app_nil_r. by apply Split_notin.
  - rewrite Join_cons by done. change (x ++ [c] ++ ?t) with (x ++ c :: t).
    rewrite Split_app, Split_notin, IH by done. done.
Qed.

Lemma domainByte_spec (c : ascii) : domainByte c = true ↔ is_alnum c = true ∨ c = c_hyphen.
Proof.
  unfold domainByte, is_alnum, is_lower, is_upper, is_digit.
  rewrite orb_true_iff. destruct (Ascii.eqb_spec c c_hyphen); naive_solver.
Qed.

Lemma forallb_elem (f : ascii → bool) (l : gostring) :
  forallb f l = true ↔ ∀ c, c ∈ l → f c = true.
Proof. rewrite forallb_forall. split; intros Hf c Hc; apply Hf; by apply list_elem_of_In. Qed.

Lemma checkLabel_spec (l : gostring) : checkLabel l = Ok () ↔ host_label l.
Proof.
  unfold checkLabel, host_label.
  assert ((∀ c, c ∈ l → is_alnum c = true ∨ c = c_hyphen) ↔ forallb domainByte l = true) as ->.
  { rewrite forallb_elem. split; intros Hc c Hin; apply domainByte_spec, Hc, Hin. }
  destruct (forallb domainByte l); repeat case_bool_decide; simpl;
    destruct (Nat.eqb_spec (length l) 0), (Nat.ltb_spec 63 (length l)); simpl; naive_solver lia.
Qed.

Lemma checkLabels_spec (ls : list gostring) : checkLabels ls = Ok () ↔ Forall host_label ls.
Proof.
  induction ls as [|l ls IH]; simpl; [naive_solver|].
  rewrite Forall_cons, <- IH, <- checkLabel_spec. destruct (checkLabel l) as [[]|]; simpl; naive_solver.
Qed.

Lemma host_label_no_dot (l : gostring) : host_label l → c_dot ∉ l.
Proof. intros (_ & _ & _ & Hc) [Ha|Ha]%Hc; [by vm_compute in Ha|done]. Qed.

Lemma ValidateDomain_spec (d : gostring) : ValidateDomain d = Ok () ↔ host_name d.
Proof.
  unfold ValidateDomain, host_name.
  destruct (Nat.eqb_spec (length d) 0) as [E|E]; simpl.
  { split; [done|]. intros (_ & [|l ls] & Hne & Hl & ->); [done|].
    apply Forall_cons in Hl as [[Hl _] _]. simpl in E. rewrite length_app in E. lia. }
  destruct (Nat.ltb_spec 253 (length d)); [naive_solver lia|]. rewrite checkLabels_spec. split.
  - intros Hl. split; [done|]. exists (Split d c_dot).
    split; [apply Split_nonempty|]. by rewrite Join_Split.
  - intros (_ & ls & Hne & Hl & ->). change (lit ".") with [c_dot]. rewrite Split_Join; [done..|].
    eapply Forall_impl; [done|]. apply host_label_no_dot.
Qed.

(** An accepted domain is ASCII, holds no ['@'] and no blank. *)
Lemma ValidateDomain_byte (d : gostring) (c : ascii) :
  ValidateDomain d = Ok () → c ∈ d → is_alnum c = true ∨ c = c_hyphen ∨ c = c_dot.
Proof.
  unfold ValidateDomain. destruct (_ || _); [done|]. rewrite checkLabels_spec.
  intros Hl Hc. destruct (Split_cover d c_dot c Hc) as [->|He]; [by auto|].
  apply Exists_exists in He as (l & Hin & Hcl). eapply Forall_forall in Hl; [|done].
  destruct Hl as (_ & _ & _ & Hb). naive_solver.
Qed.

Lemma alnum_ascii (c : ascii) : is_alnum c = true → is_ascii c = true.
Proof. by_byte c. Qed.

Lemma ValidateDomain_ascii (d : gostring) : ValidateDomain d = Ok () → all_ascii d = true.
Proof.
  intros Hd. apply forallb_elem. intros c Hc.
  destruct (ValidateDomain_byte d c Hd Hc) as [?|[->| ->]]; [by apply alnum_ascii|done..].
Qed.

Lemma checkLocal_spec (l : gostring) : checkLocal l = Ok () ↔ ∀ c, c ∈ l → localPartByte c = true.
Proof.
  induction l as [|c l IH]; simpl; [set_solver|]. destruct (localPartByte c) eqn:E.
  - rewrite IH. set_solver.
  - split; [done|]. intros Hc. specialize (Hc c ltac:(left)). congruence.
Qed.

Lemma localPartByte_dot : localPartByte c_dot = true.
Proof. reflexivity. Qed.

Lemma Contains_spec (s sub : gostring) : Contains s sub = true ↔ ∃ a b, s = a ++ sub ++ b.
Proof.
  induction s as [|x s IH]; cbn [Contains]; rewrite orb_true_iff, HasPrefix_spec.
  - split; [intros [[t Ht]|]; [by exists [], t|done]|]. intros (a & b & E). left.
    exists b. destruct a, sub; done.
  - rewrite IH. split.
    + intros [[t Ht]|(a & b & ->)]; [by exists [], t|by exists (x :: a), b].
    + intros ([|y a] & b & E); [left; eauto|]. right. simplify_eq/=. eauto.
Qed.

(** An empty part of a split is a leading, trailing or doubled separator. *)
Lemma Split_nil_part (s : gostring) (c : ascii) :
  s ≠ [] → [] ∈ Split s c ↔ (∃ t, s = c :: t) ∨ (∃ t, s = t ++ [c]) ∨ (∃ a b, s = a ++ c :: c :: b).
Proof.
  intros Hs. split.
  - intros (l1 & l2 & E)%list_elem_of_split. pose proof (Join_Split s c) as Hj.
    rewrite E in Hj. destruct l1 as [|x l1]; [left; destruct l2; simpl in Hj; [by subst|rewrite <- Hj; eauto]|].
    right. simpl in Hj. rewrite foldr_app in Hj. simpl in Hj.
    assert (∀ k, foldr (λ y acc : gostring, c :: y ++ acc) k l1 =
                 foldr (λ y acc, c :: y ++ acc) [] l1 ++ k) as Hf.
    { clear. intros k. induction l1 as [|y l1 IH]; simpl; [done|]. by rewrite IH, app_assoc. }
    rewrite Hf, app_assoc in Hj. rewrite <- Hj. destruct l2 as [|y l2]; simpl; eauto.
  - intros [[t ->]|[[t ->]|(a & b & ->)]]; [simpl; rewrite Ascii.eqb_refl; left|..];
      rewrite Split_app; apply elem_of_app; right; simpl; [left|rewrite Ascii.eqb_refl; left].
Qed.

Lemma dot_atom_spec (local : gostring) :
  dot_atom local ↔ local ≠ [] ∧ HasPrefix local "." || HasSuffix local "." || Contains local ".." = false ∧
    ∀ c, c ∈ local → localPartByte c = true.
Proof.
  assert (local ≠ [] → HasPrefix local "." || HasSuffix local "." || Contains local ".." = false ↔
    [] ∉ Split local c_dot) as Hdots.
  { intros Hne. rewrite Split_nil_part by done. rewrite <- not_true_iff_false, !orb_true_iff.
    rewrite HasPrefix_spec, HasSuffix_spec, Contains_spec. simpl. naive_solver. }
  split.
  - intros (atoms & Hne & -> & Hat). change (lit ".") with [c_dot] in *.
    assert (Split (Join atoms [c_dot]) c_dot = atoms) as Hsp.
    { apply Split_Join; [done|]. eapply Forall_impl; [done|]. intros a [_ Ha] Hin. by apply Ha in Hin as []. }
    assert (Join atoms [c_dot] ≠ []) as Hnil.
    { destruct atoms as [|[|] ?]; [done| |done]. apply Forall_cons in Hat as [[? _] _]. done. }
    split; [done|]. rewrite Hdots, Hsp by done. split.
    + rewrite Forall_forall in Hat. by intros [? _]%Hat.
    + intros c Hc. destruct (Split_cover _ c_dot _ Hc) as [->|He]; [done|]. rewrite Hsp in He.
      apply Exists_exists in He as (a & Ha & Hca). rewrite Forall_forall in Hat.
      apply Hat in Ha as [_ Ha]. by apply Ha.
  - intros (Hne & Hd & Hb). exists (Split local c_dot). split; [apply Split_nonempty|].
    split; [by rewrite Join_Split|]. apply Hdots in Hd; [|done]. apply Forall_forall. intros a Ha.
    split; [by intros ->|]. intros c Hc. pose proof (Split_elem local c_dot) as Hel.
    rewrite Forall_forall in Hel. apply Hel in Ha as [Hdot Hin]. split; [by apply Hb, Hin|]. by intros ->.
Qed.

(** The split of a mailbox at its last ['@']. *)
Lemma ValidateMailbox_parts (addr : gostring) :
  ValidateMailbox addr = Ok () ↔
  ∃ local domain, addr = local ++ c_at :: domain ∧ dot_atom local ∧ ValidateDomain domain = Ok ().
Proof.
  unfold ValidateMailbox. destruct (LastIndexByte addr c_at) as [i|] eqn:E.
  - apply LastIndexByte_Some in E as (a & b & -> & <- & Hb).
    rewrite take_app_length, <- drop_drop, drop_app_length. simpl. rewrite drop_0, length_app. simpl.
    assert (∀ l d, a ++ c_at :: b = l ++ c_at :: d → ValidateDomain d = Ok () → l = a ∧ d = b) as Huniq.
    { intros l d Eq Hd. assert (c_at ∉ d) as Hd'.
      { intros Hin. destruct (ValidateDomain_byte _ _ Hd Hin) as [Hx|[Hx|Hx]]; by vm_compute in Hx. }
      pose proof (LastIndexByte_app a b c_at Hb) as H1. rewrite Eq, LastIndexByte_app in H1 by done.
      simplify_eq. apply app_inj_1 in Eq as [-> [= ->]]; done. }
    destruct (_ || _) eqn:Eg.
    { split; [done|]. intros (l & d & Eq & Hl & Hd). destruct (Huniq _ _ Eq Hd) as [-> ->].
      exfalso. apply dot_atom_spec in Hl as [Hl _]. apply ValidateDomain_spec in Hd as Hn.
      assert (b ≠ []) by (intros ->; vm_compute in Hd; done).
      apply orb_true_iff in Eg as [Eg|Eg]; apply Nat.eqb_eq in Eg;
        destruct a, b; simpl in *; done || lia. }
    apply orb_false_iff in Eg as [Eg1 Eg2]. apply Nat.eqb_neq in Eg1, Eg2.
    destruct (ValidateDomain b) as [[]|e] eqn:Ed.
    + transitivity (dot_atom a).
      * rewrite dot_atom_spec, <- checkLocal_spec. destruct (_ || _); [naive_solver|].
        split; [|naive_solver]. intros ?. split_and!; [by intros ->|done..].
      * split; [intros; by exists a, b|]. intros (l & d & Eq & Hl & Hd). by destruct (Huniq _ _ Eq Hd) as [-> _].
    + split; [done|]. intros (l & d & Eq & _ & Hd). destruct (Huniq _ _ Eq Hd) as [_ ->]. congruence.
  - apply LastIndexByte_None in E. split; [done|]. intros (l & d & -> & _). set_solver.
Qed.

(** [ValidateMailbox] accepts exactly the addresses made of a dot-atom local
    part (no ['@'], ['%'], ['!'], quotes, blanks or control bytes, no empty atom)
    and an ASCII host name (labels of 1 to 63 letters, digits and inner hyphens,
    253 bytes at most). *)
Theorem ValidateMailbox_exact (addr : gostring) :
  ValidateMailbox addr = Ok () ↔
  ∃ local domain, addr = local ++ [c_at] ++ domain ∧ dot_atom local ∧ host_name domain.
Proof. rewrite ValidateMailbox_parts. setoid_rewrite ValidateDomain_spec. done. Qed.
