(* ===== verification/Engine.v ===== *)
(** * The policy engine ([internal/policy/engine.go])

    Which policy governs a caller ([Match]) and whether it lets a message through
    ([Evaluate]).  Kubernetes' label selectors are the parameter [LabelMatcher]. *)

From S2P Require Import Prelude GoStrings PathMatch Types Address.

(** ** Definitions *)

Record Caller := {
  cl_Namespace : gostring;
  cl_ServiceAccount : gostring;
  cl_SALabels : gmap gostring gostring;
  cl_SALabelsKnown : bool;
  cl_LegacyPodIP : bool;
  cl_PodLabels : gmap gostring gostring }.

Record MessageView := {
  mv_From : gostring;
  mv_EnvelopeFrom : gostring;
  mv_Sender : gostring;
  mv_Recipients : list gostring;
  mv_ReplyTo : list gostring;
  mv_SizeBytes : Z }.

Inductive DenyReason :=
| DenyNoPolicy | DenySenderNotAllowed | DenyRecipientBlocked | DenyMessageTooLarge | DenyTooManyRecipient.

#[global] Instance DenyReason_eq_dec : EqDecision DenyReason.
Proof. solve_decision. Defined.

Definition DenyReason_string (r : DenyReason) : gostring :=
  match r with
  | DenyNoPolicy => "no_policy_matched"
  | DenySenderNotAllowed => "sender_not_allowed"
  | DenyRecipientBlocked => "recipient_not_allowed"
  | DenyMessageTooLarge => "message_too_large"
  | DenyTooManyRecipient => "too_many_recipients"
  end.

(** [d_DenyReason = None] is the empty reason of an allowed message. *)
Record Decision := {
  d_Allowed : bool;
  d_Policy : option MailPolicy;
  d_DenyReason : option DenyReason;
  d_DenyDetail : gostring }.

Definition deny (p : option MailPolicy) (r : DenyReason) (detail : gostring) : Decision :=
  {| d_Allowed := false; d_Policy := p; d_DenyReason := Some r; d_DenyDetail := detail |}.

(** [metav1.LabelSelectorAsSelector] and [Selector.Matches]; [None] is the
    conversion error. *)
Class LabelMatcher := {
  LabelSelectorAsSelector : LabelSelector → option (gmap gostring gostring → bool) }.

Definition NeedsSALabels (policies : list MailPolicy) : bool :=
  existsb (λ p, existsb (λ s, bool_decide (is_Some (ServiceAccountSelector s))) (mps_Subjects (mp_Spec p)))
    policies.

Section Matching.
Context `{LabelMatcher}.

Definition selectorMatches (sel : LabelSelectorSubject) (have : gmap gostring gostring) : bool :=
  if (MatchLabels sel == ∅) && (length (MatchExpressions sel) =? 0)%nat then false
  else match LabelSelectorAsSelector sel with None => false | Some m => m have end.

Definition subjectMatches1 (caller : Caller) (s : PolicySubject) : bool :=
  match ServiceAccount s with Some a => sa_Name a == cl_ServiceAccount caller | None => false end
  || match ServiceAccountSelector s with
     | Some sel => cl_SALabelsKnown caller && selectorMatches sel (cl_SALabels caller)
     | None => false
     end
  || match PodSelector s with
     | Some sel => cl_LegacyPodIP caller && selectorMatches sel (cl_PodLabels caller)
     | None => false
     end.

Definition subjectMatches (p : MailPolicy) (caller : Caller) : bool :=
  existsb (subjectMatches1 caller) (mps_Subjects (mp_Spec p)).

Definition podIPFallback (p : MailPolicy) : bool :=
  match mps_LegacyAuth (mp_Spec p) with Some l => PodIPFallback l | None => false end.

(** The loop's three [continue] guards. *)
Definition candidate (caller : Caller) (p : MailPolicy) : bool :=
  (mp_Namespace p == cl_Namespace caller)
  && negb (cl_LegacyPodIP caller && negb (podIPFallback p))
  && subjectMatches p caller.

Definition policyLess (a b : MailPolicy) : bool :=
  if mps_Priority (mp_Spec a) =? mps_Priority (mp_Spec b)
  then str_ltb (mp_Name a) (mp_Name b)
  else mps_Priority (mp_Spec b) <? mps_Priority (mp_Spec a).

Definition Match (policies : list MailPolicy) (caller : Caller) : option MailPolicy :=
  head (SliceStable policyLess (List.filter (candidate caller) policies)).
End Matching.

Section Evaluation.
Context `{UnicodeTables}.

Definition globSlash : gostring → gostring := ReplaceByte c_sl NUL.

Definition AddressMatches (addr pattern : gostring) : bool :=
  let a := ToLower (TrimSpace addr) in
  let p := ToLower (TrimSpace pattern) in
  if p == a then true
  else if ContainsAny p "*?[" then
    match PathMatch.Match (globSlash p) (globSlash a) with Some ok => ok | None => false end
  else false.

Definition senderAllowed (from : gostring) (allowed : list gostring) : bool :=
  existsb (AddressMatches from) allowed.

Definition senders (msg : MessageView) : list gostring :=
  [mv_From msg]
  ++ (if mv_EnvelopeFrom msg != [] then [mv_EnvelopeFrom msg] else [])
  ++ (if mv_Sender msg != [] then [mv_Sender msg] else []).

(** The first sender that matches no entry, and whether there is none. *)
Definition SendersAllowed (msg : MessageView) (allowed : list gostring) : gostring * bool :=
  match List.find (λ from, negb (senderAllowed from allowed)) (senders msg) with
  | Some from => (from, false)
  | None => ([], true)
  end.

Definition domainOf (addr : gostring) : gostring :=
  match LastIndexByte addr c_at with
  | None => []
  | Some at_ => ToLower (drop (at_ + 1) addr)
  end.

Definition recipientAllowed (addr : gostring) (r : option RecipientRestrictions) : bool :=
  match r with
  | None => true
  | Some r =>
      let domain := domainOf addr in
      if existsb (λ d, EqualFold d domain) (BlockedDomains r) then false
      else if (length (AllowedDomains r) =? 0)%nat && (length (AllowedRecipients r) =? 0)%nat then true
      else if existsb (λ d, EqualFold d domain) (AllowedDomains r) then true
      else existsb (AddressMatches addr) (AllowedRecipients r)
  end.

(** The condition of the two loops over addresses. *)
Definition addressRefused (r : option RecipientRestrictions) (addr : gostring) : bool :=
  negb (is_ok (ValidateMailbox addr)) || negb (recipientAllowed addr r).

Definition Evaluate (p : option MailPolicy) (msg : MessageView) : Decision :=
  match p with
  | None => deny None DenyNoPolicy "no policy matched the calling subject"
  | Some pol =>
      let spec := mp_Spec pol in
      let too_large := match mps_MessageLimits spec with
        | Some l => (0 <? MaxSizeBytes l) && (MaxSizeBytes l <? mv_SizeBytes msg) | None => false end in
      let too_many := match mps_MessageLimits spec with
        | Some l => (0 <? MaxRecipients l)
                    && (MaxRecipients l <? wrap 32 (Z.of_nat (length (mv_Recipients msg))))
        | None => false end in
      let bad_sender := match mps_SenderRestrictions spec with
        | Some r => let '(from, ok) := SendersAllowed msg (AllowedSenders r) in
                    if ok then None else Some from
        | None => None end in
      let refused := addressRefused (mps_RecipientRestrictions spec) in
      if too_large then deny p DenyMessageTooLarge "message exceeds policy maxSizeBytes"
      else if too_many then deny p DenyTooManyRecipient "message exceeds policy maxRecipients"
      else match bad_sender with
      | Some from => deny p DenySenderNotAllowed (lit "sender '" ++ from ++ lit "' not in allowedSenders")
      | None =>
      match List.find refused (mv_Recipients msg) with
      | Some r => deny p DenyRecipientBlocked (lit "recipient '" ++ r ++ lit "' not allowed by policy")
      | None =>
      match List.find refused (mv_ReplyTo msg) with
      | Some r => deny p DenyRecipientBlocked (lit "reply-to '" ++ r ++ lit "' not allowed by policy")
      | None => {| d_Allowed := true; d_Policy := p; d_DenyReason := None; d_DenyDetail := [] |}
      end end end
  end.
End Evaluation.

(** ** Which policy governs a caller *)

(** What makes a policy apply to a caller, independently of the code's loops. *)
Inductive subject_applies `{LabelMatcher} (caller : Caller) (s : PolicySubject) : Prop :=
| applies_service_account a :
    ServiceAccount s = Some a → sa_Name a = cl_ServiceAccount caller → subject_applies caller s
| applies_sa_selector sel :
    ServiceAccountSelector s = Some sel → cl_SALabelsKnown caller = true →
    selectorMatches sel (cl_SALabels caller) = true → subject_applies caller s
| applies_pod_selector sel :
    PodSelector s = Some sel → cl_LegacyPodIP caller = true →
    selectorMatches sel (cl_PodLabels caller) = true → subject_applies caller s.

Record applicable `{LabelMatcher} (caller : Caller) (p : MailPolicy) : Prop := {
  app_namespace : mp_Namespace p = cl_Namespace caller;
  app_legacy : cl_LegacyPodIP caller = true → podIPFallback p = true;
  app_subject : ∃ s, s ∈ mps_Subjects (mp_Spec p) ∧ subject_applies caller s }.

(** [p] goes before [q]: a higher priority, or the same and the lesser name. *)
Definition precedes (p q : MailPolicy) : Prop :=
  mps_Priority (mp_Spec q) < mps_Priority (mp_Spec p) ∨
  (mps_Priority (mp_Spec q) = mps_Priority (mp_Spec p) ∧ str_ltb (mp_Name p) (mp_Name q) = true).

#[export] Instance policyLess_weak : WeakOrder policyLess.
Proof.
  split.
  - intros a b. unfold policyLess.
    destruct (Z.eqb_spec (mps_Priority (mp_Spec a)) (mps_Priority (mp_Spec b))) as [->|?].
    + rewrite Z.eqb_refl. apply str_ltb_asym.
    + rewrite (proj2 (Z.eqb_neq _ _)) by done. rewrite Z.ltb_lt, Z.ltb_ge. lia.
  - intros a b c. unfold policyLess. repeat case_match; to_prop; try lia; try done.
    all: try (intros; eapply str_ltb_negtrans; done). all: rewrite ?Z.ltb_ge; lia.
Qed.

Lemma policyLess_precedes (p q : MailPolicy) : policyLess p q = true ↔ precedes p q.
Proof.
  unfold policyLess, precedes.
  destruct (Z.eqb_spec (mps_Priority (mp_Spec p)) (mps_Priority (mp_Spec q))); rewrite ?Z.ltb_lt; naive_solver lia.
Qed.

Section MatchFacts.
Context `{LabelMatcher}.

Lemma subjectMatches1_spec (caller : Caller) (s : PolicySubject) :
  subjectMatches1 caller s = true ↔ subject_applies caller s.
Proof.
  unfold subjectMatches1. rewrite !orb_true_iff. split.
  - intros [[Ha|Hs]|Hp].
    + destruct (ServiceAccount s) eqn:E; [|done]. to_prop. by econstructor 1.
    + destruct (ServiceAccountSelector s) eqn:E; [|done]. to_prop. destruct Hs. by econstructor 2.
    + destruct (PodSelector s) eqn:E; [|done]. to_prop. destruct Hp. by econstructor 3.
  - intros [a E Hn|sel E Hk Hs|sel E Hk Hs]; rewrite E, ?Hk, ?Hs; [|naive_solver..].
    left; left. by apply bool_decide_eq_true.
Qed.

Lemma existsb_elem {A} (f : A → bool) (l : list A) : existsb f l = true ↔ ∃ x, x ∈ l ∧ f x = true.
Proof. rewrite existsb_exists. by setoid_rewrite list_elem_of_In. Qed.

Lemma candidate_spec (caller : Caller) (p : MailPolicy) :
  candidate caller p = true ↔ applicable caller p.
Proof.
  unfold candidate, subjectMatches. rewrite !andb_true_iff, existsb_elem, bool_decide_eq_true.
  setoid_rewrite subjectMatches1_spec. split.
  - intros [[? Hl] ?]. split; [done| |done]. intros E. rewrite E in Hl. by destruct (podIPFallback p).
  - intros [? Hl ?]. split_and!; [done| |done]. destruct (cl_LegacyPodIP caller); [by rewrite Hl|done].
Qed.

Lemma filter_candidate (caller : Caller) (ps : list MailPolicy) (p : MailPolicy) :
  p ∈ List.filter (candidate caller) ps ↔ p ∈ ps ∧ applicable caller p.
Proof. rewrite !list_elem_of_In, filter_In, candidate_spec. done. Qed.

Lemma Match_Some (ps : list MailPolicy) (caller : Caller) (p : MailPolicy) :
  Match ps caller = Some p →
  p ∈ ps ∧ applicable caller p ∧ ∀ q, q ∈ ps → applicable caller q → ¬ precedes q p.
Proof.
  intros [Hin Hmin]%SliceStable_head; [|apply _]. apply filter_candidate in Hin as [? ?].
  split_and!; [done..|]. intros q Hq Ha. rewrite <- policyLess_precedes, Hmin; [done|].
  by apply filter_candidate.
Qed.

Lemma Match_None (ps : list MailPolicy) (caller : Caller) :
  Match ps caller = None ↔ ∀ p, p ∈ ps → ¬ applicable caller p.
Proof.
  unfold Match. rewrite SliceStable_nil. split.
  - intros E p Hp Ha. assert (p ∈ List.filter (candidate caller) ps) as Hc by (by apply filter_candidate).
    rewrite E in Hc. set_solver.
  - intros Hn. destruct (List.filter _ _) as [|p l] eqn:E; [done|].
    assert (p ∈ List.filter (candidate caller) ps) as Hc by (rewrite E; left).
    apply filter_candidate in Hc as [? ?]. exfalso. by apply (Hn p).
Qed.

(** Two policies of one namespace with different names: one precedes the other. *)
Lemma precedes_total (p q : MailPolicy) : ¬ precedes p q → ¬ precedes q p → mp_Name p = mp_Name q.
Proof.
  unfold precedes. intros Hp Hq.
  destruct (Z.lt_total (mps_Priority (mp_Spec p)) (mps_Priority (mp_Spec q))) as [?|[E|?]];
    [by destruct Hq; left| |by destruct Hp; left].
  apply str_ltb_total; apply not_true_iff_false; intros ?; [destruct Hp|destruct Hq]; by right.
Qed.
End MatchFacts.

(** Kubernetes' rule for names: unique per namespace. *)
Definition unique_names (ps : list MailPolicy) : Prop :=
  ∀ q r, q ∈ ps → r ∈ ps → mp_Namespace q = mp_Namespace r → mp_Name q = mp_Name r → q = r.

Section UniqueNames.
Context `{LabelMatcher} (ps : list MailPolicy) (Huniq : unique_names ps).

Lemma Match_iff (caller : Caller) (p : MailPolicy) :
  Match ps caller = Some p ↔
  p ∈ ps ∧ applicable caller p ∧ ∀ q, q ∈ ps → applicable caller q → q ≠ p → precedes p q.
Proof.
  assert (∀ q r, q ∈ ps → r ∈ ps → applicable caller q → applicable caller r →
    ¬ precedes q r → ¬ precedes r q → q = r) as Heq.
  { intros q r Hq Hr Aq Ar H1 H2. apply Huniq; [done..| |by apply precedes_total].
    by rewrite (app_namespace _ _ Aq), (app_namespace _ _ Ar). }
  assert (∀ q r, precedes q r → ¬ precedes r q) as Has.
  { intros q r. rewrite <- !policyLess_precedes. intros ->%less_asym; [done|apply _]. }
  assert (∀ q r, precedes q r ∨ ¬ precedes q r) as Hdec.
  { intros q r. rewrite <- policyLess_precedes. destruct (policyLess q r); auto. }
  split.
  - intros (Hin & Ha & Hmin)%Match_Some. split_and!; [done..|]. intros q Hq Aq Hne.
    destruct (Hdec p q); [done|]. exfalso. apply Hne, Heq; auto.
  - intros (Hin & Ha & Hmin). destruct (Match ps caller) as [r|] eqn:E.
    + apply Match_Some in E as (Hr & Ar & Hrmin). f_equal. apply Heq; auto.
      intros Hrp. apply (Has r p); [done|]. apply Hmin; [done..|]. intros ->. by apply (Has p p).
    + exfalso. by eapply Match_None in E.
Qed.
End UniqueNames.

(** ** What [Evaluate] lets through *)

Section EvaluateFacts.
Context `{UnicodeTables}.

(** [addr] satisfies an allowedSenders or allowedRecipients list. *)
Definition listed (allowed : list gostring) (addr : gostring) : Prop :=
  ∃ pattern, pattern ∈ allowed ∧ AddressMatches addr pattern = true.

(** The limits, sender restrictions and recipient restrictions of a policy. *)
Definition within_limits (l : MessageLimitsSpec) (msg : MessageView) : Prop :=
  (0 < MaxSizeBytes l → mv_SizeBytes msg ≤ MaxSizeBytes l) ∧
  (0 < MaxRecipients l → Z.of_nat (length (mv_Recipients msg)) ≤ MaxRecipients l).

Definition senders_listed (r : SenderRestrictions) (msg : MessageView) : Prop :=
  listed (AllowedSenders r) (mv_From msg) ∧
  (mv_EnvelopeFrom msg ≠ [] → listed (AllowedSenders r) (mv_EnvelopeFrom msg)) ∧
  (mv_Sender msg ≠ [] → listed (AllowedSenders r) (mv_Sender msg)).

Definition recipient_ok (r : option RecipientRestrictions) (addr : gostring) : Prop :=
  ValidateMailbox addr = Ok () ∧
  ∀ rr, r = Some rr →
    (∀ d, d ∈ BlockedDomains rr → EqualFold d (domainOf addr) = false) ∧
    ((AllowedDomains rr = [] ∧ AllowedRecipients rr = []) ∨
     (∃ d, d ∈ AllowedDomains rr ∧ EqualFold d (domainOf addr) = true) ∨
     listed (AllowedRecipients rr) addr).

Lemma senderAllowed_listed (from : gostring) (allowed : list gostring) :
  senderAllowed from allowed = true ↔ listed allowed from.
Proof. apply existsb_elem. Qed.

Lemma SendersAllowed_spec (msg : MessageView) (r : SenderRestrictions) :
  snd (SendersAllowed msg (AllowedSenders r)) = true ↔ senders_listed r msg.
Proof.
  unfold SendersAllowed, senders_listed, senders. rewrite <- !senderAllowed_listed. simpl.
  destruct (senderAllowed (mv_From msg) _); simpl; [|naive_solver].
  repeat case_bool_decide; simpl; repeat (case_match; simpl); to_prop; naive_solver.
Qed.

(** The address [SendersAllowed] reports is a sender of the message that is not
    listed, and every sender before it is. *)
Lemma SendersAllowed_first (msg : MessageView) (allowed : list gostring) (from : gostring) :
  SendersAllowed msg allowed = (from, false) →
  ∃ before after, senders msg = before ++ from :: after ∧
    ¬ listed allowed from ∧ Forall (listed allowed) before.
Proof.
  unfold SendersAllowed. induction (senders msg) as [|x l IH]; simpl; [done|].
  destruct (senderAllowed x allowed) eqn:E; simpl.
  - intros (b & a & -> & ? & ?)%IH. exists (x :: b), a. split_and!; [done..|].
    constructor; [by apply senderAllowed_listed|done].
  - intros [= <-]. exists [], l. split_and!; [done| |constructor].
    by rewrite <- senderAllowed_listed, E.
Qed.

Lemma existsb_false {A} (f : A → bool) (l : list A) : existsb f l = false ↔ ∀ x, x ∈ l → f x = false.
Proof.
  rewrite <- not_true_iff_false, existsb_elem. split.
  - intros Hn x Hx. apply not_true_iff_false. eauto.
  - intros Hf (x & Hx & E). by rewrite Hf in E.
Qed.

Lemma addressRefused_spec (r : option RecipientRestrictions) (addr : gostring) :
  addressRefused r addr = false ↔ recipient_ok r addr.
Proof.
  unfold addressRefused, recipient_ok, recipientAllowed, listed.
  destruct (ValidateMailbox addr) as [[]|e]; simpl; [|naive_solver].
  destruct r as [r|]; simpl; [|naive_solver].
  assert ((length (AllowedDomains r) =? 0)%nat && (length (AllowedRecipients r) =? 0)%nat = true ↔
    AllowedDomains r = [] ∧ AllowedRecipients r = []) as He.
  { by rewrite andb_true_iff, !Nat.eqb_eq, !length_zero_iff_nil. }
  pose proof (existsb_false (λ d, EqualFold d (domainOf addr)) (BlockedDomains r)) as Hb.
  pose proof (existsb_elem (λ d, EqualFold d (domainOf addr)) (AllowedDomains r)) as Hd.
  pose proof (existsb_elem (AddressMatches addr) (AllowedRecipients r)) as Ha.
  destruct (existsb _ (BlockedDomains r)), (_ && _), (existsb _ (AllowedDomains r)),
    (existsb _ (AllowedRecipients r)); simpl; naive_solver.
Qed.
End EvaluateFacts.

Section EvaluateBranches.
Context `{UnicodeTables} (p : MailPolicy) (msg : MessageView).

Definition policy_allows : Prop :=
  (∀ l, mps_MessageLimits (mp_Spec p) = Some l → within_limits l msg) ∧
  (∀ r, mps_SenderRestrictions (mp_Spec p) = Some r → senders_listed r msg) ∧
  (∀ a, a ∈ mv_Recipients msg ++ mv_ReplyTo msg → recipient_ok (mps_RecipientRestrictions (mp_Spec p)) a).

Lemma find_none_all (f : gostring → bool) (l : list gostring) :
  List.find f l = None ↔ ∀ x, x ∈ l → f x = false.
Proof.
  split.
  - intros Hf x Hx. apply list_elem_of_In in Hx. by eapply find_none.
  - intros Hf. destruct (List.find f l) as [x|] eqn:E; [|done].
    apply find_some in E as [Hx E]. apply list_elem_of_In in Hx. by rewrite Hf in E.
Qed.

Lemma Evaluate_allowed (Hlen : Z.of_nat (length (mv_Recipients msg)) < 2 ^ 31) :
  d_Allowed (Evaluate (Some p) msg) = true ↔ policy_allows.
Proof.
  unfold policy_allows, Evaluate. rewrite wrap_id by lia.
  assert (∀ a : list gostring, (∀ x, x ∈ a → addressRefused (mps_RecipientRestrictions (mp_Spec p)) x = false) ↔
    ∀ x, x ∈ a → recipient_ok (mps_RecipientRestrictions (mp_Spec p)) x) as Hok.
  { intros a. by setoid_rewrite addressRefused_spec. }
  setoid_rewrite elem_of_app.
  assert (match mps_SenderRestrictions (mp_Spec p) with
    | Some r => let '(from, ok) := SendersAllowed msg (AllowedSenders r) in if ok then None else Some from
    | None => None end = None ↔ ∀ r, mps_SenderRestrictions (mp_Spec p) = Some r → senders_listed r msg) as Hs.
  { destruct (mps_SenderRestrictions _) as [r|]; [|naive_solver].
    pose proof (SendersAllowed_spec msg r) as Hr. destruct (SendersAllowed _ _) as [f []]; naive_solver. }
  set (bs := match mps_SenderRestrictions _ with Some _ => _ | None => _ end) in *. clearbody bs.
  transitivity ((∀ l, mps_MessageLimits (mp_Spec p) = Some l → within_limits l msg) ∧ bs = None ∧
    List.find (addressRefused (mps_RecipientRestrictions (mp_Spec p))) (mv_Recipients msg) = None ∧
    List.find (addressRefused (mps_RecipientRestrictions (mp_Spec p))) (mv_ReplyTo msg) = None).
  2: { rewrite Hs, !find_none_all, !Hok. naive_solver. }
  unfold within_limits. destruct (mps_MessageLimits _) as [l|].
  - destruct (_ && _) eqn:E1; [to_prop; split; [done|]; intros [Hl _]; specialize (Hl l eq_refl); lia|].
    destruct (_ && _) eqn:E2 in |- *; [to_prop; split; [done|]; intros [Hl _]; specialize (Hl l eq_refl); lia|].
    assert (∀ l', Some l = Some l' → within_limits l' msg) as Hw.
    { intros ? [= <-]. unfold within_limits. to_prop. split; intros; lia. }
    destruct bs; [naive_solver|]. destruct (List.find _ _); [naive_solver|]. destruct (List.find _ _); naive_solver.
  - destruct bs; [naive_solver|]. destruct (List.find _ _); [naive_solver|]. destruct (List.find _ _); naive_solver.
Qed.

(** Every deny names a violation of the message against the policy. *)
Lemma Evaluate_denied (Hlen : Z.of_nat (length (mv_Recipients msg)) < 2 ^ 31) :
  d_Allowed (Evaluate (Some p) msg) = false →
  match d_DenyReason (Evaluate (Some p) msg) with
  | Some DenyMessageTooLarge =>
      ∃ l, mps_MessageLimits (mp_Spec p) = Some l ∧ 0 < MaxSizeBytes l < mv_SizeBytes msg
  | Some DenyTooManyRecipient =>
      ∃ l, mps_MessageLimits (mp_Spec p) = Some l ∧
        0 < MaxRecipients l < Z.of_nat (length (mv_Recipients msg))
  | Some DenySenderNotAllowed =>
      ∃ r from, mps_SenderRestrictions (mp_Spec p) = Some r ∧ from ∈ senders msg ∧
        ¬ listed (AllowedSenders r) from ∧
        d_DenyDetail (Evaluate (Some p) msg) = lit "sender '" ++ from ++ lit "' not in allowedSenders"
  | Some DenyRecipientBlocked =>
      ∃ a, a ∈ mv_Recipients msg ++ mv_ReplyTo msg ∧
        ¬ recipient_ok (mps_RecipientRestrictions (mp_Spec p)) a
  | Some DenyNoPolicy | None => False
  end.
Proof.
  unfold Evaluate. rewrite wrap_id by lia.
  destruct (match mps_MessageLimits _ with Some l => (0 <? MaxSizeBytes l) && _ | None => _ end) eqn:E1.
  { intros _. simpl. destruct (mps_MessageLimits _) as [l|]; [|done]. exists l. split; [done|]. clear -E1. to_prop. lia. }
  destruct (match mps_MessageLimits _ with Some l => (0 <? MaxRecipients l) && _ | None => _ end) eqn:E2.
  { intros _. simpl. destruct (mps_MessageLimits _) as [l|]; [|done]. exists l. split; [done|]. clear -E2. to_prop. lia. }
  destruct (match mps_SenderRestrictions _ with Some _ => _ | None => _ end) as [from|] eqn:E3.
  { intros _. simpl. destruct (mps_SenderRestrictions _) as [r|]; [|done].
    destruct (SendersAllowed _ _) as [f []] eqn:Es; simplify_eq.
    apply SendersAllowed_first in Es as (b & a & Es & Hn & _). exists r, from. rewrite Es.
    split_and!; [done| |done..]. set_solver. }
  assert (∀ l a, List.find (addressRefused (mps_RecipientRestrictions (mp_Spec p))) l = Some a →
    a ∈ l ∧ ¬ recipient_ok (mps_RecipientRestrictions (mp_Spec p)) a) as Hf.
  { intros l a [Hin Hr]%find_some. split; [by apply list_elem_of_In|].
    by rewrite <- addressRefused_spec, Hr. }
  destruct (List.find _ (mv_Recipients msg)) eqn:E4; [|destruct (List.find _ (mv_ReplyTo msg)) eqn:E5; [|done]].
  all: intros _; simpl; eexists; rewrite elem_of_app.
  - apply Hf in E4 as [? ?]. eauto.
  - apply Hf in E5 as [? ?]. eauto.
Qed.
End EvaluateBranches.

Section Domains.
Context `{UnicodeTables}.

Lemma domainOf_mailbox (local domain : gostring) :
  ValidateDomain domain = Ok () → domainOf (local ++ c_at :: domain) = lower_byte <$> domain.
Proof.
  intros Hd. unfold domainOf. rewrite LastIndexByte_app.
  - rewrite <- drop_drop, drop_app_length. simpl. rewrite drop_0.
    by apply ToLower_ascii, ValidateDomain_ascii.
  - intros Hin. destruct (ValidateDomain_byte _ _ Hd Hin) as [Hx|[Hx|Hx]]; by vm_compute in Hx.
Qed.

Lemma EqualFold_domain (d local domain : gostring) :
  all_ascii d = true → ValidateDomain domain = Ok () →
  EqualFold d (domainOf (local ++ c_at :: domain)) = true ↔ lower_byte <$> d = lower_byte <$> domain.
Proof.
  intros Hd Hv. rewrite domainOf_mailbox by done. rewrite EqualFold_ascii; [|done|].
  - rewrite <- list_fmap_compose. erewrite (list_fmap_ext (lower_byte ∘ lower_byte)); [done|].
    intros. apply lower_byte_idem.
  - rewrite all_ascii_lower. by apply ValidateDomain_ascii.
Qed.

(** The domain of an accepted recipient, against the policy's domain lists. *)
Lemma recipient_ok_domain (r : RecipientRestrictions) (addr : gostring) :
  recipient_ok (Some r) addr →
  ∃ local domain, addr = local ++ [c_at] ++ domain ∧ dot_atom local ∧ host_name domain ∧
    (∀ b, b ∈ BlockedDomains r → all_ascii b = true → lower_byte <$> b ≠ lower_byte <$> domain) ∧
    (AllowedRecipients r = [] → Forall (λ d, all_ascii d = true) (AllowedDomains r) →
      AllowedDomains r = [] ∨ ∃ d, d ∈ AllowedDomains r ∧ lower_byte <$> d = lower_byte <$> domain).
Proof.
  intros [Hv Hr]. apply ValidateMailbox_parts in Hv as (local & domain & -> & Hl & Hd).
  destruct (Hr r eq_refl) as [Hb Ha]. exists local, domain.
  split_and!; [done..|by apply ValidateDomain_spec| |].
  - intros b Hin Hascii E. apply Hb in Hin. apply (EqualFold_domain b local) in E; [|done..]. congruence.
  - intros Hnil Hall. destruct Ha as [[-> _]|[(d & Hin & E)|(p & Hin & _)]]; [by left|right|].
    + exists d. split; [done|]. rewrite Forall_forall in Hall. by apply EqualFold_domain in E; [|auto..].
    + rewrite Hnil in Hin. set_solver.
Qed.
End Domains.

(** ** Claims *)

Section Claims.
Context `{LabelMatcher, UnicodeTables}.

(** C16. [Match] is the choice its comment describes: with policy names unique per
    namespace, it returns [p] exactly when [p] is a policy of the list that applies
    to the caller (same namespace, pod-IP callers only with opt-in, one subject
    matching) and every other applicable policy has a lower priority or, at the
    same priority, a greater name. *)
Theorem Match_correct (ps : list MailPolicy) (caller : Caller) (p : MailPolicy) :
  unique_names ps →
  Match ps caller = Some p ↔
  p ∈ ps ∧ applicable caller p ∧ ∀ q, q ∈ ps → applicable caller q → q ≠ p → precedes p q.
Proof. intros. by apply Match_iff. Qed.

(** The chosen policy does not depend on the order in which the cache lists
    the policies. *)
Theorem Match_order_irrelevant (ps ps' : list MailPolicy) (caller : Caller) :
  unique_names ps → ps ≡ₚ ps' → Match ps caller = Match ps' caller.
Proof.
  intros Hu Hp. assert (unique_names ps') as Hu'.
  { intros q r. rewrite <- Hp. apply Hu. }
  apply option_eq. intros p. rewrite (Match_iff ps Hu), (Match_iff ps' Hu').
  setoid_rewrite Hp. done.
Qed.

(** Selectors fail closed: a caller whose ServiceAccount labels could not be
    resolved, and who was not identified by pod IP, is only ever governed by a
    policy that names its ServiceAccount, in its own namespace. *)
Theorem Match_unknown_labels (ps : list MailPolicy) (caller : Caller) (p : MailPolicy) :
  cl_SALabelsKnown caller = false → cl_LegacyPodIP caller = false → Match ps caller = Some p →
  mp_Namespace p = cl_Namespace caller ∧
  ∃ s a, s ∈ mps_Subjects (mp_Spec p) ∧ ServiceAccount s = Some a ∧ sa_Name a = cl_ServiceAccount caller.
Proof.
  intros Hk Hl (_ & [Hns _ (s & Hs & Ha)] & _)%Match_Some. split; [done|].
  destruct Ha; [by eauto 6|congruence..].
Qed.

(** C15. A message passes [Evaluate] exactly when it is within the policy's limits,
    every sender address (From, and the envelope sender and Sender where present)
    is listed, and every recipient and Reply-To address is a valid mailbox outside
    the blocked domains and inside the allowlists. *)
Theorem Evaluate_correct (p : MailPolicy) (msg : MessageView) :
  Z.of_nat (length (mv_Recipients msg)) < 2 ^ 31 →
  d_Allowed (Evaluate (Some p) msg) = true ↔ policy_allows p msg.
Proof. apply Evaluate_allowed. Qed.

(** A refusal names a real violation: the reason [Evaluate] gives is a limit the
    message exceeds, a sender that is not listed (quoted in the detail) or an
    address the recipient restrictions refuse. *)
Theorem Evaluate_deny_reason (p : MailPolicy) (msg : MessageView) :
  Z.of_nat (length (mv_Recipients msg)) < 2 ^ 31 →
  d_Allowed (Evaluate (Some p) msg) = false →
  match d_DenyReason (Evaluate (Some p) msg) with
  | Some DenyMessageTooLarge =>
      ∃ l, mps_MessageLimits (mp_Spec p) = Some l ∧ 0 < MaxSizeBytes l < mv_SizeBytes msg
  | Some DenyTooManyRecipient =>
      ∃ l, mps_MessageLimits (mp_Spec p) = Some l ∧
        0 < MaxRecipients l < Z.of_nat (length (mv_Recipients msg))
  | Some DenySenderNotAllowed =>
      ∃ r from, mps_SenderRestrictions (mp_Spec p) = Some r ∧ from ∈ senders msg ∧
        ¬ listed (AllowedSenders r) from ∧
        d_DenyDetail (Evaluate (Some p) msg) = lit "sender '" ++ from ++ lit "' not in allowedSenders"
  | Some DenyRecipientBlocked =>
      ∃ a, a ∈ mv_Recipients msg ++ mv_ReplyTo msg ∧
        ¬ recipient_ok (mps_RecipientRestrictions (mp_Spec p)) a
  | Some DenyNoPolicy | None => False
  end.
Proof. apply Evaluate_denied. Qed.

(** Where mail can go: every recipient and Reply-To address of an allowed
    message is [local@domain] with a dot-atom local part and an ASCII host name that
    is no blocked domain in any letter case and, when the policy lists domains only,
    is one of the allowed domains. *)
Theorem Evaluate_recipient_domains (p : MailPolicy) (msg : MessageView) (r : RecipientRestrictions)
    (addr : gostring) :
  Z.of_nat (length (mv_Recipients msg)) < 2 ^ 31 →
  mps_RecipientRestrictions (mp_Spec p) = Some r →
  d_Allowed (Evaluate (Some p) msg) = true →
  addr ∈ mv_Recipients msg ++ mv_ReplyTo msg →
  ∃ local domain, addr = local ++ [c_at] ++ domain ∧ dot_atom local ∧ host_name domain ∧
    (∀ b, b ∈ BlockedDomains r → all_ascii b = true → lower_byte <$> b ≠ lower_byte <$> domain) ∧
    (AllowedRecipients r = [] → Forall (λ d, all_ascii d = true) (AllowedDomains r) →
      AllowedDomains r = [] ∨ ∃ d, d ∈ AllowedDomains r ∧ lower_byte <$> d = lower_byte <$> domain).
Proof.
  intros Hlen Hr (_ & _ & Ha)%Evaluate_allowed Hin; [|done].
  apply recipient_ok_domain. rewrite <- Hr. by apply Ha.
Qed.
End Claims.

(** ** Examples and witnesses *)

(** Label selectors made of matchLabels only. *)
Definition matchLabelsOnly : LabelMatcher :=
  {| LabelSelectorAsSelector := λ sel, Some (λ have, bool_decide (map_to_list (MatchLabels sel) ⊆ map_to_list have)) |}.

Definition example_spec (prio : Z) (sa : gostring) : MailPolicySpec :=
  {| mps_Priority := prio;
     mps_Subjects := [{| ServiceAccount := Some {| sa_Name := sa; sa_Namespace := [] |};
                         ServiceAccountSelector := None; PodSelector := None |}];
     mps_BackendRef := {| br_Name := "relay"; br_Kind := KindMailBackend |};
     mps_SenderRestrictions := Some {| AllowedSenders := [lit "*@corp.example"] |};
     mps_RecipientRestrictions :=
       Some {| AllowedDomains := [lit "Corp.example"]; AllowedRecipients := []; BlockedDomains := [lit "evil.example"] |};
     mps_RateLimits := Some {| MessagesPerMinute := 2; MessagesPerHour := 0; MessagesPerDay := 0 |};
     mps_MessageLimits := Some {| MaxSizeBytes := 1000; MaxRecipients := 2 |};
     mps_LegacyAuth := None |}.

Definition example_policy (name : gostring) (prio : Z) : MailPolicy :=
  {| mp_Meta := meta_of "team" name; mp_Spec := example_spec prio "app";
     mp_Status := {| mpst_Conditions := []; mpst_MatchedSubjects := 0; mpst_ObservedGeneration := 0 |} |}.

Definition example_caller : Caller :=
  {| cl_Namespace := "team"; cl_ServiceAccount := "app"; cl_SALabels := ∅; cl_SALabelsKnown := false;
     cl_LegacyPodIP := false; cl_PodLabels := ∅ |}.

Definition example_msg (from rcpt : gostring) : MessageView :=
  {| mv_From := from; mv_EnvelopeFrom := []; mv_Sender := []; mv_Recipients := [rcpt];
     mv_ReplyTo := []; mv_SizeBytes := 10 |}.

Definition low_policy := example_policy "a" 1.
Definition high_policy := example_policy "b" 5.

Lemma example_unique : unique_names [low_policy; high_policy].
Proof.
  intros q r Hq Hr _ Hn. rewrite !elem_of_cons, elem_of_nil in Hq, Hr.
  destruct Hq as [->|[->|[]]], Hr as [->|[->|[]]]; done.
Qed.

Lemma Match_correct_witness :
  high_policy ∈ [low_policy; high_policy] ∧
  @applicable matchLabelsOnly example_caller high_policy ∧
  ∀ q, q ∈ [low_policy; high_policy] → @applicable matchLabelsOnly example_caller q →
    q ≠ high_policy → precedes high_policy q.
Proof. apply (@Match_correct matchLabelsOnly); [apply example_unique|reflexivity]. Defined.

Lemma Match_order_irrelevant_witness :
  @Match matchLabelsOnly [low_policy; high_policy] example_caller =
  @Match matchLabelsOnly [high_policy; low_policy] example_caller.
Proof.
  apply (@Match_order_irrelevant matchLabelsOnly); [apply example_unique|apply Permutation_swap].
Defined.

Lemma Match_unknown_labels_witness :
  mp_Namespace high_policy = cl_Namespace example_caller ∧
  ∃ s a, s ∈ mps_Subjects (mp_Spec high_policy) ∧ ServiceAccount s = Some a ∧
    sa_Name a = cl_ServiceAccount example_caller.
Proof.
  apply (@Match_unknown_labels matchLabelsOnly [low_policy; high_policy] example_caller); reflexivity.
Defined.

Definition good_msg := example_msg "app@corp.example" "bob@CORP.example".
Definition bad_msg := example_msg "app@corp.example" "bob@evil.example".

Lemma Evaluate_correct_witness : @policy_allows ascii_tables high_policy good_msg.
Proof. apply (@Evaluate_correct ascii_tables); [reflexivity|vm_compute; reflexivity]. Defined.

Lemma Evaluate_deny_reason_witness :
  ∃ a, a ∈ mv_Recipients bad_msg ++ mv_ReplyTo bad_msg ∧
    ¬ @recipient_ok ascii_tables (mps_RecipientRestrictions (mp_Spec high_policy)) a.
Proof.
  exact (@Evaluate_deny_reason ascii_tables high_policy bad_msg eq_refl ltac:(vm_compute; reflexivity)).
Defined.

Lemma Evaluate_recipient_domains_witness :
  ∃ local domain, lit "bob@CORP.example" = local ++ [c_at] ++ domain ∧ dot_atom local ∧ host_name domain ∧
    (∀ b, b ∈ [lit "evil.example"] → all_ascii b = true → lower_byte <$> b ≠ lower_byte <$> domain) ∧
    ([] = @nil gostring → Forall (λ d, all_ascii d = true) [lit "Corp.example"] →
      [lit "Corp.example"] = [] ∨ ∃ d, d ∈ [lit "Corp.example"] ∧ lower_byte <$> d = lower_byte <$> domain).
Proof.
  eapply (@Evaluate_recipient_domains ascii_tables high_policy good_msg
    {| AllowedDomains := [lit "Corp.example"]; AllowedRecipients := []; BlockedDomains := [lit "evil.example"] |});
    [reflexivity|reflexivity|vm_compute; reflexivity|left].
Defined.
