(* ===== verification/RateLimit.v ===== *)
(** * Rate limits ([internal/policy/ratelimit]: [ratelimit.go], [memory.go])

    The [Limiter] interface the gateway uses, with the in-memory sliding-window
    limiter.  The clock is an argument; the limiter's mutex makes every call one
    atomic step, so a run is a sequence of steps. *)

From S2P Require Import Prelude GoStrings.

(** ** Limits and windows *)

Record Limits := { PerMinute : Z; PerHour : Z; PerDay : Z }.

Definition Limits_None (l : Limits) : bool :=
  (PerMinute l <=? 0) && (PerHour l <=? 0) && (PerDay l <=? 0).

Record window := { w_limit : Z; w_size : Duration }.

Definition windows (l : Limits) : list window :=
  [ {| w_limit := PerMinute l; w_size := Minute |};
    {| w_limit := PerHour l; w_size := Hour |};
    {| w_limit := PerDay l; w_size := 24 * Hour |} ].

Definition keep (l : Limits) : Duration := if 0 <? PerDay l then 24 * Hour else Hour.

Definition retain (l : Limits) (left : Duration) : Duration :=
  if keep l <? left then 24 * Hour else keep l.

(** ** The interface *)

Inductive LimiterError := ErrUnavailable.

(** [Allow] returns whether the call is admitted and, when it is not, the wait;
    [Refund] gives back the newest hit. *)
Class Limiter (L : Type) := {
  Allow : Time → gostring → Limits → L → L * res LimiterError (bool * Duration);
  Refund : Time → gostring → L → L * res LimiterError unit }.

(** What the interface's comment promises its clients. *)
Class LimiterLaws (L : Type) `{Limiter L} := {
  Allow_none : ∀ now key limits (l : L), Limits_None limits = true → Allow now key limits l = (l, Ok (true, 0));
  Allow_retry : ∀ now key limits (l : L) ok retry,
    snd (Allow now key limits l) = Ok (ok, retry) → if ok then retry = 0 else Second ≤ retry }.

(** [NoLimit]. *)
#[export] Instance noLimit : Limiter unit := {
  Allow _ _ _ s := (s, Ok (true, 0));
  Refund _ _ s := (s, Ok ()) }.

(** ** The in-memory limiter *)

Record history := { h_hits : list Time; h_expires : Time }.

Record MemoryLimiter := { ml_hits : gmap gostring history; ml_swept : Time }.

Definition NewMemoryLimiter : MemoryLimiter := {| ml_hits := ∅; ml_swept := 0 |}.

(** [sort.Search]: binary search for the first index in [[i, j)] satisfying [f];
    the interval shrinks every round, so its length is enough fuel. *)
Fixpoint Search_loop (fuel : nat) (f : nat → bool) (i j : nat) : nat :=
  match fuel with
  | O => i
  | S fuel =>
      if (i <? j)%nat then
        let h := Nat.div2 (i + j) in
        if f h then Search_loop fuel f i h else Search_loop fuel f (S h) j
      else i
  end.
Definition Search (n : nat) (f : nat → bool) : nat := Search_loop n f 0 n.

Definition since (hist : list Time) (cutoff : Time) : nat :=
  Search (length hist) (λ i, match hist !! i with Some t => cutoff <? t | None => false end).

Definition later (a b : Time) : Time := if b <? a then a else b.

Definition ceilToSecond (d : Duration) : Duration :=
  if d <=? 0 then Second
  else if negb (Z.rem d Second =? 0) then (d - Z.rem d Second) + Second
  else d.

Definition sweep (now : Time) (l : MemoryLimiter) : MemoryLimiter :=
  if time_sub now (ml_swept l) <? Minute then l
  else {| ml_hits := filter (λ kh, now < h_expires kh.2) (ml_hits l); ml_swept := now |}.

Definition emptyHistory : history := {| h_hits := []; h_expires := 0 |}.

(** One round of the loop over the windows: the longest wait so far. *)
Definition windowWait (now : Time) (hist : list Time) (retry : Duration) (w : window) : Duration :=
  if w_limit w <=? 0 then retry
  else
    let first := since hist (now - w_size w) in
    if Z.of_nat (length hist - first) <? w_limit w then retry
    else match hist !! (length hist - Z.to_nat (w_limit w))%nat with
         | Some t => Z.max retry (time_sub (t + w_size w) now)
         | None => retry (* out of range: unreachable, the window holds [w_limit] hits *)
         end.

(** The live history of a key at a call, and the part of it the call keeps. *)
Definition liveHistory (now : Time) (key : gostring) (l : MemoryLimiter) : history :=
  let h := default emptyHistory (ml_hits l !! key) in
  if negb (now <? h_expires h) then emptyHistory else h.

Definition retained (now : Time) (limits : Limits) (h : history) : list Time :=
  drop (since (h_hits h) (now - retain limits (time_sub (h_expires h) now))) (h_hits h).

Definition Memory_Allow (now : Time) (key : gostring) (limits : Limits) (l : MemoryLimiter)
    : MemoryLimiter * (bool * Duration) :=
  if Limits_None limits then (l, (true, 0))
  else
    let l := sweep now l in
    let h := liveHistory now key l in
    let hist := retained now limits h in
    let retry := foldl (windowWait now hist) 0 (windows limits) in
    if 0 <? retry then
      ({| ml_hits := <[key := {| h_hits := hist; h_expires := h_expires h |}]> (ml_hits l);
          ml_swept := ml_swept l |}, (false, ceilToSecond retry))
    else
      ({| ml_hits := <[key := {| h_hits := hist ++ [now];
                                 h_expires := later (h_expires h) (now + keep limits) |}]> (ml_hits l);
          ml_swept := ml_swept l |}, (true, 0)).

Definition Memory_Refund (key : gostring) (l : MemoryLimiter) : MemoryLimiter :=
  let h := default emptyHistory (ml_hits l !! key) in
  if (0 <? length (h_hits h))%nat then
    {| ml_hits := <[key := {| h_hits := take (length (h_hits h) - 1) (h_hits h);
                              h_expires := h_expires h |}]> (ml_hits l);
       ml_swept := ml_swept l |}
  else l.

#[export] Instance memoryLimiter : Limiter MemoryLimiter := {
  Allow now key limits l := let '(l, r) := Memory_Allow now key limits l in (l, Ok r);
  Refund _ key l := (Memory_Refund key l, Ok ()) }.

(** ** Binary search *)

Lemma Search_loop_spec (f : nat → bool) (n i j : nat) :
  (j - i ≤ n)%nat → (i ≤ j)%nat →
  (∀ a b, (a ≤ b)%nat → f a = true → f b = true ∨ (j ≤ b)%nat) →
  (i ≤ Search_loop n f i j ≤ j)%nat ∧
  (∀ k, (i ≤ k < Search_loop n f i j)%nat → f k = false) ∧
  (∀ k, (Search_loop n f i j ≤ k < j)%nat → f k = true).
Proof.
  revert i j. induction n as [|n IH]; intros i j Hn Hij Hmono; simpl; [split_and!; lia|].
  destruct (Nat.ltb_spec i j) as [Hlt|]; [|split_and!; lia].
  assert (i ≤ Nat.div2 (i + j) < j)%nat as Hh.
  { rewrite Nat.div2_div. split; [apply Nat.div_le_lower_bound|apply Nat.Div0.div_lt_upper_bound]; lia. }
  set (h := Nat.div2 (i + j)) in *. clearbody h. destruct (f h) eqn:E.
  - destruct (IH i h) as (Hb & Hlo & Hhi); [lia..| |].
    { intros a b Hab Ha. destruct (Hmono a b Hab Ha); [by left|]. right. lia. }
    split_and!; [lia..|done|]. intros k Hk. destruct (decide (k < h)%nat); [apply Hhi; lia|].
    destruct (Hmono h k); [lia|done|done|lia].
  - destruct (IH (S h) j) as (Hb & Hlo & Hhi); [lia..| |].
    { intros a b Hab Ha. by apply (Hmono a b). }
    split_and!; [lia..| |done]. intros k Hk. destruct (decide (S h ≤ k)%nat); [apply Hlo; lia|].
    destruct (f k) eqn:Ek; [|done]. destruct (Hmono k h); [lia|done|congruence|lia].
Qed.

(** Sorted oldest first. *)
Abbreviation sorted_hits := (StronglySorted Z.le).

Lemma sorted_lookup (l : list Time) (i j : nat) (x y : Time) :
  sorted_hits l → (i ≤ j)%nat → l !! i = Some x → l !! j = Some y → x ≤ y.
Proof.
  intros Hs Hij Hi Hj. destruct (decide (i = j)) as [->|Hne]; [simplify_eq; lia|].
  revert i j Hij Hne Hi Hj. induction Hs as [|z l Hs IH Hz]; intros i j Hij Hne Hi Hj; [done|].
  destruct j as [|j]; [lia|]. destruct i as [|i]; simpl in *.
  - simplify_eq. rewrite Forall_forall in Hz. by apply Hz; eapply list_elem_of_lookup_2.
  - eapply (IH i j); [lia..|done|done].
Qed.

(** On a sorted history [since] splits off the hits younger than the cutoff. *)
Lemma since_spec (hist : list Time) (cutoff : Time) :
  sorted_hits hist →
  take (since hist cutoff) hist = filter (λ t, t ≤ cutoff) hist ∧
  drop (since hist cutoff) hist = filter (λ t, cutoff < t) hist ∧
  (since hist cutoff ≤ length hist)%nat.
Proof.
  intros Hs. unfold since, Search. set (f := λ i, match hist !! i with Some t => cutoff <? t | None => false end).
  destruct (Search_loop_spec f (length hist) 0 (length hist)) as (Hb & Hlo & Hhi); [lia..| |].
  { intros a b Hab Ha. destruct (hist !! b) as [y|] eqn:Eb; [|right; by apply lookup_ge_None].
    left. unfold f in *. rewrite Eb. destruct (hist !! a) as [x|] eqn:Ea; [|done].
    apply Z.ltb_lt in Ha. apply Z.ltb_lt. pose proof (sorted_lookup _ _ _ _ _ Hs Hab Ea Eb). lia. }
  set (k := Search_loop _ _ _ _) in *. clearbody k.
  assert (∀ i t, hist !! i = Some t → (i < k)%nat ↔ t ≤ cutoff) as Hk.
  { intros i t Hi. pose proof (lookup_lt_Some _ _ _ Hi). split.
    - intros Hik. specialize (Hlo i ltac:(lia)). unfold f in Hlo. rewrite Hi in Hlo. by apply Z.ltb_ge.
    - intros Ht. destruct (decide (i < k)%nat); [done|]. specialize (Hhi i ltac:(lia)).
      unfold f in Hhi. rewrite Hi in Hhi. apply Z.ltb_lt in Hhi. lia. }
  assert (Forall (λ t, t ≤ cutoff) (take k hist)) as Htake.
  { apply Forall_lookup. intros i t Hi. apply lookup_take_Some in Hi as [Hi ?]. by eapply Hk. }
  assert (Forall (λ t, cutoff < t) (drop k hist)) as Hdrop.
  { apply Forall_lookup. intros i t Hi. rewrite lookup_drop in Hi.
    destruct (decide (cutoff < t)); [done|]. apply Hk in Hi. lia. }
  clear Hk Hlo Hhi. rewrite <- (take_drop k hist) at 2 4. rewrite !filter_app. split_and!; [| |lia].
  - rewrite (list_filter_all (λ t, t ≤ cutoff) (take k hist)) by done.
    rewrite (list_filter_none (λ t, t ≤ cutoff) (drop k hist)); [by rewrite app_nil_r|].
    eapply Forall_impl; [done|]. simpl. lia.
  - rewrite (list_filter_all _ (drop k hist)) by done.
    rewrite (list_filter_none _ (take k hist)); [done|]. eapply Forall_impl; [done|]. simpl. lia.
Qed.

(** ** The contract: a sliding window over the full log of hits

    The specification never forgets a hit and counts directly. *)

Definition younger (cutoff : Time) (log : list Time) : nat := length (filter (λ t, cutoff < t) log).

Definition has_room (now : Time) (log : list Time) (w : window) : bool :=
  (w_limit w <=? 0) || (Z.of_nat (younger (now - w_size w) log) <? w_limit w).

Definition fits (now : Time) (limits : Limits) (log : list Time) : bool :=
  forallb (has_room now log) (windows limits).

Definition spec_Allow (now : Time) (limits : Limits) (log : list Time) : list Time * bool :=
  if Limits_None limits then (log, true)
  else if fits now limits log then (log ++ [now], true) else (log, false).

Definition spec_Refund (log : list Time) : list Time := take (length log - 1) log.

(** ** Waiting times *)

Definition capped (limits : Limits) (w : window) : Prop := w ∈ windows limits ∧ 0 < w_limit w.

Lemma windows_size (limits : Limits) (w : window) : w ∈ windows limits → 0 < w_size w ≤ 24 * Hour.
Proof.
  unfold windows. rewrite !elem_of_cons, elem_of_nil. unfold Minute, Hour.
  intros [->|[->|[->|[]]]]; simpl; lia.
Qed.

Lemma keep_pos (limits : Limits) : Hour ≤ keep limits ≤ 24 * Hour.
Proof. unfold keep, Hour. destruct (_ <? _); lia. Qed.

Lemma retain_keep (limits : Limits) (left : Duration) : keep limits ≤ retain limits left.
Proof. pose proof (keep_pos limits). unfold retain. destruct (_ <? _); lia. Qed.

Lemma capped_keep (limits : Limits) (w : window) : capped limits w → w_size w ≤ keep limits.
Proof.
  intros [Hw Hl]. unfold windows in Hw. rewrite !elem_of_cons, elem_of_nil in Hw. unfold keep.
  destruct Hw as [->|[->|[->|[]]]]; simpl in *; unfold Minute, Hour in *; destruct (Z.ltb_spec 0 (PerDay limits)); lia.
Qed.

Lemma ceilToSecond_spec (d : Duration) :
  0 < d → Second ≤ ceilToSecond d ∧ d ≤ ceilToSecond d < d + Second ∧ (Second | ceilToSecond d).
Proof.
  intros Hd. unfold ceilToSecond, Second in *.
  pose proof (Z.rem_bound_pos d 1000000000 ltac:(lia) ltac:(lia)).
  pose proof (Z.quot_rem' d 1000000000) as Hq.
  assert (0 ≤ d ÷ 1000000000) by (apply Z.quot_pos; lia).
  destruct (Z.leb_spec d 0); [lia|]. destruct (Z.eqb_spec (Z.rem d 1000000000) 0); simpl.
  - split_and!; [nia|lia..|]. exists (d ÷ 1000000000). lia.
  - split_and!; [nia|lia..|]. exists (d ÷ 1000000000 + 1). lia.
Qed.

Section Waits.
Context (now : Time) (hist : list Time) (Hs : sorted_hits hist) (Hnow : Forall (λ t, t ≤ now) hist).

Lemma since_younger (cutoff : Time) : (length hist - since hist cutoff)%nat = younger cutoff hist.
Proof.
  unfold younger. destruct (since_spec hist cutoff Hs) as (_ & <- & _). by rewrite length_drop.
Qed.

(** The wait for a full window: until its [w_limit]-th newest hit has left it. *)
Lemma windowWait_full (retry : Duration) (w : window) :
  has_room now hist w = false → 0 < w_size w ≤ 24 * Hour →
  ∃ t, hist !! (length hist - Z.to_nat (w_limit w))%nat = Some t ∧ now - w_size w < t ≤ now ∧
    windowWait now hist retry w = Z.max retry (t + w_size w - now).
Proof.
  unfold has_room, windowWait. rewrite orb_false_iff, Z.leb_gt, Z.ltb_ge. intros [Hl Hn] Hsz.
  rewrite since_younger, (proj2 (Z.leb_gt _ _)), (proj2 (Z.ltb_ge _ _)) by done.
  pose proof (since_spec hist (now - w_size w) Hs) as (_ & Hd & Hle).
  pose proof (since_younger (now - w_size w)) as Hy.
  set (i := (length hist - Z.to_nat (w_limit w))%nat).
  assert (i < length hist)%nat as Hi by lia. apply lookup_lt_is_Some in Hi as [t Ht].
  exists t. rewrite Ht. split; [done|].
  assert (t ∈ drop (since hist (now - w_size w)) hist) as Hin.
  { apply (list_elem_of_lookup_2 _ (i - since hist (now - w_size w))). rewrite lookup_drop.
    rewrite <- Ht. f_equal. lia. }
  rewrite Hd, list_elem_of_filter in Hin. destruct Hin as [Hin _].
  rewrite Forall_lookup in Hnow. specialize (Hnow i t Ht). split; [lia|].
  unfold time_sub, min_int64, max_int64, Hour in *. f_equal. lia.
Qed.

Lemma windowWait_room (retry : Duration) (w : window) :
  has_room now hist w = true → windowWait now hist retry w = retry.
Proof.
  unfold has_room, windowWait. rewrite orb_true_iff, since_younger. destruct (w_limit w <=? 0); [done|].
  by intros [?| ->].
Qed.

Lemma windowWait_ge (retry : Duration) (w : window) : retry ≤ windowWait now hist retry w.
Proof. unfold windowWait. repeat case_match; lia. Qed.

Lemma foldl_wait (ws : list window) (retry : Duration) :
  Forall (λ w, 0 < w_size w ≤ 24 * Hour) ws →
  retry ≤ foldl (windowWait now hist) retry ws ∧
  (∀ w t, w ∈ ws → has_room now hist w = false →
     hist !! (length hist - Z.to_nat (w_limit w))%nat = Some t →
     t + w_size w - now ≤ foldl (windowWait now hist) retry ws) ∧
  (forallb (has_room now hist) ws = true → foldl (windowWait now hist) retry ws = retry) ∧
  (forallb (has_room now hist) ws = false → 0 < foldl (windowWait now hist) retry ws).
Proof.
  intros Hws. revert retry. induction Hws as [|w ws Hw Hws IH]; intros retry; simpl.
  { split_and!; [lia|intros ? ? ?%not_elem_of_nil; done|done|done]. }
  destruct (IH (windowWait now hist retry w)) as (H1 & H2 & H3 & H4).
  pose proof (windowWait_ge retry w) as Hge. split_and!.
  - lia.
  - intros w' t [->|Hin]%elem_of_cons Hfull Ht; [|by apply H2].
    destruct (windowWait_full retry w Hfull Hw) as (t' & Ht' & _ & E). simplify_eq. lia.
  - intros [Ha Hb]%andb_true_iff. rewrite H3 by done. by apply windowWait_room.
  - destruct (has_room now hist w) eqn:E; simpl; [done|]. intros _.
    destruct (windowWait_full retry w E Hw) as (t & _ & ? & E'). lia.
Qed.

Lemma wait_fits (limits : Limits) :
  (0 <? foldl (windowWait now hist) 0 (windows limits)) = negb (fits now limits hist).
Proof.
  destruct (foldl_wait (windows limits) 0) as (_ & _ & H3 & H4).
  { apply Forall_forall. intros w. apply windows_size. }
  unfold fits. destruct (forallb _ _).
  - by rewrite H3.
  - by apply Z.ltb_lt, H4.
Qed.
End Waits.

(** ** Simulation: the limiter's trimmed histories against the full log *)

(** What a key's history keeps of its log: all but hits too old to count. *)
Record hist_rel (now : Time) (limits : Limits) (h : history) (log : list Time) : Prop := {
  hr_pre : ∃ pre, log = pre ++ h_hits h ∧ Forall (λ t, t ≤ now - keep limits) pre;
  hr_expires : Forall (λ t, t + keep limits ≤ h_expires h) (h_hits h);
  hr_sorted : sorted_hits log;
  hr_past : Forall (λ t, t ≤ now) log }.

Lemma hist_rel_later (now now' : Time) (limits : Limits) (h : history) (log : list Time) :
  now ≤ now' → hist_rel now limits h log → hist_rel now' limits h log.
Proof.
  intros Hle [(pre & -> & Hpre) He Hs Hp]. split; [|done..|].
  - exists pre. split; [done|]. eapply Forall_impl; [done|]. simpl. lia.
  - eapply Forall_impl; [done|]. simpl. lia.
Qed.

Lemma hist_rel_sorted (now : Time) (limits : Limits) (h : history) (log : list Time) :
  hist_rel now limits h log → sorted_hits (h_hits h) ∧ Forall (λ t, t ≤ now) (h_hits h).
Proof.
  intros [(pre & -> & _) _ Hs Hp]. apply Forall_app in Hp as [_ ?]. split; [|done].
  by eapply StronglySorted_app_1_r.
Qed.

(** An expired history may be forgotten. *)
Lemma hist_rel_expired (now : Time) (limits : Limits) (h : history) (log : list Time) :
  h_expires h ≤ now → hist_rel now limits h log → hist_rel now limits emptyHistory log.
Proof.
  intros Hexp [(pre & -> & Hpre) He Hs Hp]. split; [|by constructor|done..].
  exists (pre ++ h_hits h). simpl. rewrite app_nil_r. split; [done|]. apply Forall_app. split; [done|].
  eapply Forall_impl; [done|]. simpl. lia.
Qed.

(** So may the hits a call does not retain. *)
Lemma hist_rel_trim (now : Time) (limits : Limits) (h : history) (log : list Time) :
  hist_rel now limits h log →
  hist_rel now limits {| h_hits := retained now limits h; h_expires := h_expires h |} log.
Proof.
  intros Hr. destruct (hist_rel_sorted _ _ _ _ Hr) as [Hsh _]. destruct Hr as [(pre & -> & Hpre) He Hs Hp].
  unfold retained. set (c := now - retain limits _).
  destruct (since_spec (h_hits h) c Hsh) as (Ht & Hd & _).
  pose proof (retain_keep limits (time_sub (h_expires h) now)).
  split; simpl; [|by apply Forall_drop|done..].
  exists (pre ++ take (since (h_hits h) c) (h_hits h)). rewrite <- app_assoc, take_drop. split; [done|].
  apply Forall_app. split; [done|]. rewrite Ht. apply Forall_forall. intros t. rewrite list_elem_of_filter. lia.
Qed.

Lemma younger_app (cutoff : Time) (a b : list Time) :
  younger cutoff (a ++ b) = (younger cutoff a + younger cutoff b)%nat.
Proof. unfold younger. by rewrite filter_app, length_app. Qed.

Lemma younger_old (cutoff : Time) (l : list Time) : Forall (λ t, t ≤ cutoff) l → younger cutoff l = 0%nat.
Proof.
  intros Hl. unfold younger. rewrite list_filter_none; [done|]. eapply Forall_impl; [done|]. simpl. lia.
Qed.

Lemma fits_rel (now : Time) (limits : Limits) (h : history) (log : list Time) :
  hist_rel now limits h log → fits now limits (h_hits h) = fits now limits log.
Proof.
  intros [(pre & -> & Hpre) _ _ _]. unfold fits.
  assert (∀ w, w ∈ windows limits → has_room now (h_hits h) w = has_room now (pre ++ h_hits h) w) as Hw.
  { intros w Hw. unfold has_room. destruct (Z.leb_spec (w_limit w) 0); [done|].
    assert (w_size w ≤ keep limits) by (by apply capped_keep). simpl.
    rewrite younger_app, (younger_old _ pre); [done|]. eapply Forall_impl; [done|]. simpl. lia. }
  induction (windows limits) as [|w ws IH]; [done|]. simpl. rewrite Hw by left. f_equal.
  apply IH. intros w' ?. apply Hw. by right.
Qed.

Lemma hist_rel_admit (now : Time) (limits : Limits) (h : history) (log : list Time) :
  hist_rel now limits h log →
  hist_rel now limits {| h_hits := h_hits h ++ [now]; h_expires := later (h_expires h) (now + keep limits) |}
    (log ++ [now]).
Proof.
  intros [(pre & -> & Hpre) He Hs Hp].
  assert (h_expires h ≤ later (h_expires h) (now + keep limits) ∧
          now + keep limits ≤ later (h_expires h) (now + keep limits)) as [Hl1 Hl2].
  { unfold later. destruct (Z.ltb_spec (now + keep limits) (h_expires h)); lia. }
  split; simpl.
  - exists pre. by rewrite app_assoc.
  - apply Forall_app. split; [|by repeat constructor]. eapply Forall_impl; [done|]. simpl. lia.
  - apply StronglySorted_app. split_and!; [|done|repeat constructor].
    intros x y Hx ->%list_elem_of_singleton. rewrite Forall_forall in Hp. by apply Hp.
  - apply Forall_app. split; [done|]. repeat constructor. lia.
Qed.

Lemma hist_rel_refund (now : Time) (limits : Limits) (h : history) (log : list Time) :
  hist_rel now limits h log →
  hist_rel now limits {| h_hits := take (length (h_hits h) - 1) (h_hits h); h_expires := h_expires h |}
    (spec_Refund log).
Proof.
  intros [(pre & -> & Hpre) He Hs Hp]. unfold spec_Refund. rewrite <- (take_drop (length (pre ++ h_hits h) - 1) (pre ++ h_hits h)) in Hs.
  split; simpl; [|by apply Forall_take|by eapply StronglySorted_app_1_l|by apply Forall_take].
  rewrite take_app, length_app. destruct (h_hits h) as [|x l]; simpl.
  - rewrite take_nil, Nat.add_0_r. eexists. split; [done|]. by apply Forall_take.
  - exists pre. split; [|done]. rewrite take_ge by lia. do 2 f_equal. lia.
Qed.

(** ** Runs of the limiter *)

Section Runs.
(** The limits of each key do not change during the run. *)
Context (lim : gostring → Limits).

Inductive op := OpAllow (now : Time) (key : gostring) | OpRefund (key : gostring).

(** The steps of a run, with the answers of the [Allow] calls. *)
Fixpoint run_memory (l : MemoryLimiter) (ops : list op) : list bool :=
  match ops with
  | [] => []
  | OpAllow now key :: ops =>
      let '(l, (ok, _)) := Memory_Allow now key (lim key) l in ok :: run_memory l ops
  | OpRefund key :: ops => run_memory (Memory_Refund key l) ops
  end.

(** The same steps on the logs of the specification. *)
Definition logs := gostring → list Time.

Definition spec_step (s : logs) (o : op) : logs * option bool :=
  match o with
  | OpAllow now key => let '(log, ok) := spec_Allow now (lim key) (s key) in
                       (λ k, if decide (k = key) then log else s k, Some ok)
  | OpRefund key => (λ k, if decide (k = key) then spec_Refund (s k) else s k, None)
  end.

Fixpoint run_spec (s : logs) (ops : list op) : list bool :=
  match ops with
  | [] => []
  | o :: ops => let '(s, r) := spec_step s o in option_list r ++ run_spec s ops
  end.

Fixpoint spec_logs (s : logs) (ops : list op) : logs :=
  match ops with [] => s | o :: ops => spec_logs (fst (spec_step s o)) ops end.

(** The clock never runs backwards. *)
Fixpoint clocked (now : Time) (ops : list op) : Prop :=
  match ops with
  | [] => True
  | OpAllow t _ :: ops => now ≤ t ∧ clocked t ops
  | OpRefund _ :: ops => clocked now ops
  end.

Definition limiter_rel (now : Time) (l : MemoryLimiter) (s : logs) : Prop :=
  ∀ key, hist_rel now (lim key) (default emptyHistory (ml_hits l !! key)) (s key).

Lemma sweep_rel (now : Time) (l : MemoryLimiter) (s : logs) :
  limiter_rel now l s → limiter_rel now (sweep now l) s.
Proof.
  intros Hr key. specialize (Hr key). unfold sweep. destruct (_ <? _); [done|]. simpl.
  destruct (ml_hits l !! key) as [h|] eqn:E; simpl in Hr.
  - destruct (decide (now < h_expires h)).
    + rewrite (map_lookup_filter_Some_2 _ _ _ h); done.
    + rewrite (proj2 (map_lookup_filter_None _ _ _)); [|right; intros ? ?; by simplify_eq].
      eapply hist_rel_expired; [|done]. lia.
  - rewrite (proj2 (map_lookup_filter_None _ _ _)); [done|]. by left.
Qed.

Lemma liveHistory_rel (now : Time) (key : gostring) (l : MemoryLimiter) (s : logs) :
  limiter_rel now l s → hist_rel now (lim key) (liveHistory now key l) (s key).
Proof.
  intros Hr. specialize (Hr key). unfold liveHistory.
  destruct (Z.ltb_spec now (h_expires (default emptyHistory (ml_hits l !! key)))); simpl; [done|].
  by eapply hist_rel_expired.
Qed.

(** One [Allow] of the limiter is one [Allow] of the specification. *)
Lemma Memory_Allow_sim (now : Time) (key : gostring) (l : MemoryLimiter) (s : logs) :
  limiter_rel now l s →
  snd (spec_step s (OpAllow now key)) = Some (fst (snd (Memory_Allow now key (lim key) l))) ∧
  limiter_rel now (fst (Memory_Allow now key (lim key) l)) (fst (spec_step s (OpAllow now key))).
Proof.
  intros Hr. unfold Memory_Allow, spec_step, spec_Allow. destruct (Limits_None (lim key)).
  { simpl. split; [done|]. intros k. destruct (decide (k = key)) as [->|]; apply Hr. }
  pose proof (sweep_rel _ _ _ Hr) as Hsw. set (l' := sweep now l) in *. clearbody l'.
  pose proof (hist_rel_trim _ _ _ _ (liveHistory_rel now key l' s Hsw)) as Ht.
  set (h := liveHistory now key l') in *. set (hist := retained now (lim key) h) in *.
  destruct (hist_rel_sorted _ _ _ _ Ht) as [Hsorted Hpast]. simpl in Hsorted, Hpast.
  cbv zeta. rewrite (wait_fits now hist Hsorted Hpast). pose proof (fits_rel _ _ _ _ Ht) as Hf. simpl in Hf. rewrite Hf.
  destruct (fits now (lim key) (s key)); simpl; (split; [done|]); intros k; simpl;
    destruct (decide (k = key)) as [->|Hne];
    [|by rewrite lookup_insert_ne by done| |by rewrite lookup_insert_ne by done].
  - rewrite lookup_insert_eq. by apply (hist_rel_admit _ _ _ _ Ht).
  - by rewrite lookup_insert_eq.
Qed.

Lemma Memory_Refund_sim (now : Time) (key : gostring) (l : MemoryLimiter) (s : logs) :
  limiter_rel now l s → limiter_rel now (Memory_Refund key l) (fst (spec_step s (OpRefund key))).
Proof.
  intros Hr k. pose proof (Hr k) as Hk. unfold Memory_Refund. simpl.
  destruct (decide (k = key)) as [->|Hne].
  - pose proof (hist_rel_refund _ _ _ _ Hk) as Hrf.
    destruct (Nat.ltb_spec 0 (length (h_hits (default emptyHistory (ml_hits l !! key))))) as [|Hz]; simpl.
    + by rewrite lookup_insert_eq.
    + destruct (default emptyHistory (ml_hits l !! key)) as [hits e]. simpl in *. by destruct hits; [|simpl in Hz; lia].
  - destruct (_ <? _)%nat; [|done]. simpl. by rewrite lookup_insert_ne.
Qed.

Lemma run_sim (now : Time) (l : MemoryLimiter) (s : logs) (ops : list op) :
  limiter_rel now l s → clocked now ops → run_memory l ops = run_spec s ops.
Proof.
  revert now l s. induction ops as [|[t key|key] ops IH]; intros now l s Hr Hc; [done|..]; cbn [clocked] in Hc.
  - destruct Hc as [Hle Hc]. assert (limiter_rel t l s) as Hr'.
    { intros k. eapply hist_rel_later; [done|apply Hr]. }
    destruct (Memory_Allow_sim t key l s Hr') as [Ho Hr2]. cbn [run_memory run_spec].
    destruct (Memory_Allow t key (lim key) l) as [l2 [ok r]]. destruct (spec_step s (OpAllow t key)) as [s2 o].
    simpl in *. subst o. simpl. f_equal. by eapply IH.
  - simpl. eapply IH; [by apply (Memory_Refund_sim now key)|done].
Qed.
End Runs.

(** ** The caps hold over whole runs *)

Lemma younger_mono (c c' : Time) (l : list Time) : c ≤ c' → (younger c' l ≤ younger c l)%nat.
Proof.
  intros Hc. unfold younger. induction l as [|x l IH]; [done|].
  rewrite !filter_cons. repeat case_decide; simpl; lia.
Qed.

(** At every hit, the window that ends with it holds at most [w_limit] hits. *)
Definition cap_inv (w : window) (log : list Time) : Prop :=
  ∀ l1 u l2, log = l1 ++ u :: l2 → Z.of_nat (younger (u - w_size w) (l1 ++ [u])) ≤ w_limit w.

Lemma cap_inv_prefix (w : window) (a b : list Time) : cap_inv w (a ++ b) → cap_inv w a.
Proof. intros Hc l1 u l2 ->. apply (Hc l1 u (l2 ++ b)). by rewrite <- app_assoc. Qed.

Lemma cap_inv_snoc (w : window) (log : list Time) (now : Time) :
  has_room now log w = true → 0 < w_limit w → 0 < w_size w → cap_inv w log → cap_inv w (log ++ [now]).
Proof.
  intros Hroom Hl Hsz Hc l1 u l2 E. destruct l2 as [|x l2 _] using rev_ind.
  - apply app_inj_tail in E as [-> ->]. rewrite younger_app. unfold has_room in Hroom.
    apply orb_true_iff in Hroom as [?%Z.leb_le|?%Z.ltb_lt]; [lia|].
    assert (younger (u - w_size w) [u] ≤ 1)%nat by apply length_filter. lia.
  - rewrite app_comm_cons, app_assoc in E. apply app_inj_tail in E as [-> _]. by apply (Hc l1 u l2).
Qed.

(** Then every window, wherever it ends, holds at most [w_limit] hits. *)
Lemma cap_inv_window (w : window) (log : list Time) (t : Time) :
  0 ≤ w_limit w → cap_inv w log →
  Z.of_nat (length (filter (λ x, t - w_size w < x ∧ x ≤ t) log)) ≤ w_limit w.
Proof.
  intros Hl Hc. destruct (last (filter (λ x, x ≤ t) log)) as [u|] eqn:E.
  - pose proof (list_elem_of_filter (λ x, x ≤ t) log u) as Hu.
    assert (u ∈ filter (λ x, x ≤ t) log) as Hin by (by apply last_Some_elem_of).
    apply Hu in Hin as [Hut _]. clear Hu. apply last_filter_Some in E as (l1 & l2 & -> & Hl2).
    specialize (Hc l1 u l2 eq_refl).
    assert (Nat.le (length (filter (λ x, t - w_size w < x ∧ x ≤ t) (l1 ++ u :: l2)))
            (younger (t - w_size w) (l1 ++ [u]))) as Hle.
    { change (u :: l2) with ([u] ++ l2). rewrite app_assoc, filter_app, length_app.
      rewrite (list_filter_none _ l2) by (eapply Forall_impl; [done|]; simpl; lia). simpl.
      rewrite Nat.add_0_r. unfold younger. generalize (l1 ++ [u]). intros l.
      induction l as [|x l IH]; [done|]. rewrite !filter_cons. repeat case_decide; simpl; lia. }
    pose proof (younger_mono (u - w_size w) (t - w_size w) (l1 ++ [u]) ltac:(lia)). lia.
  - apply last_None in E. rewrite list_filter_none; [done|]. apply Forall_forall. intros x Hx [_ Hxt].
    assert (x ∈ filter (λ x, x ≤ t) log) as Hin by (by apply list_elem_of_filter). rewrite E in Hin. set_solver.
Qed.

Section Caps.
Context (lim : gostring → Limits).

(** The state after a run, and the hits admitted for [key] and not refunded. *)
Fixpoint mem_exec (l : MemoryLimiter) (ops : list op) : MemoryLimiter :=
  match ops with
  | [] => l
  | OpAllow now key :: ops => mem_exec (fst (Memory_Allow now key (lim key) l)) ops
  | OpRefund key :: ops => mem_exec (Memory_Refund key l) ops
  end.

Fixpoint admitted (key : gostring) (l : MemoryLimiter) (log : list Time) (ops : list op) : list Time :=
  match ops with
  | [] => log
  | OpAllow now k :: ops =>
      let '(l, (ok, _)) := Memory_Allow now k (lim k) l in
      admitted key l (if (k == key) && ok then log ++ [now] else log) ops
  | OpRefund k :: ops =>
      admitted key (Memory_Refund k l) (if k == key then spec_Refund log else log) ops
  end.

(** The time a run has reached. *)
Fixpoint clock (now : Time) (ops : list op) : Time :=
  match ops with [] => now | OpAllow t _ :: ops => clock t ops | OpRefund _ :: ops => clock now ops end.

Lemma mem_exec_rel (now : Time) (l : MemoryLimiter) (s : logs) (ops : list op) :
  limiter_rel lim now l s → clocked now ops →
  limiter_rel lim (clock now ops) (mem_exec l ops) (spec_logs lim s ops).
Proof.
  revert now l s. induction ops as [|[t key|key] ops IH]; intros now l s Hr Hc; [done|..];
    cbn [clocked] in Hc; cbn [mem_exec spec_logs clock].
  - destruct Hc as [Hle Hc]. apply IH; [|done]. apply Memory_Allow_sim. intros k.
    eapply hist_rel_later; [done|apply Hr].
  - apply IH; [|done]. by apply Memory_Refund_sim.
Qed.

Lemma admitted_spec (key : gostring) (now : Time) (l : MemoryLimiter) (s : logs) (ops : list op) :
  Limits_None (lim key) = false → limiter_rel lim now l s → clocked now ops →
  admitted key l (s key) ops = spec_logs lim s ops key.
Proof.
  intros Hn. revert now l s. induction ops as [|[t k|k] ops IH]; intros now l s Hr Hc; [done|..];
    cbn [clocked] in Hc; cbn [admitted spec_logs].
  - destruct Hc as [Hle Hc]. assert (limiter_rel lim t l s) as Hr'.
    { intros k'. eapply hist_rel_later; [done|apply Hr]. }
    destruct (Memory_Allow_sim lim t k l s Hr') as [Ho Hr2].
    destruct (Memory_Allow t k (lim k) l) as [l2 [ok r]]. simpl in Ho, Hr2.
    assert ((if (k == key) && ok then s key ++ [t] else s key) = fst (spec_step lim s (OpAllow t k)) key) as ->.
    { simpl. unfold spec_Allow in *. destruct (decide (key = k)) as [<-|Hne].
      - rewrite bool_decide_eq_true_2 by done. rewrite Hn in *.
        destruct (fits t (lim key) (s key)); simpl in *; simplify_eq; by rewrite decide_True.
      - rewrite bool_decide_eq_false_2 by done. simpl. destruct (if Limits_None _ then _ else _). simpl.
        by rewrite decide_False. }
    by eapply IH.
  - assert ((if k == key then spec_Refund (s key) else s key) = fst (spec_step lim s (OpRefund k)) key) as ->.
    { simpl. destruct (decide (key = k)) as [<-|Hne]; [by rewrite bool_decide_eq_true_2|].
      by rewrite bool_decide_eq_false_2. }
    eapply IH; [by apply (Memory_Refund_sim lim now k)|done].
Qed.

Lemma spec_logs_cap (key : gostring) (w : window) (s : logs) (ops : list op) :
  capped (lim key) w → cap_inv w (s key) → cap_inv w (spec_logs lim s ops key).
Proof.
  intros Hw. revert s. induction ops as [|o ops IH]; intros s Hc; [done|]. simpl. apply IH.
  destruct o as [t k|k]; simpl.
  - unfold spec_Allow. destruct (Limits_None (lim k)); simpl; [by case_decide; subst|].
    destruct (fits t (lim k) (s k)) eqn:E; simpl; case_decide; subst; try done.
    apply cap_inv_snoc; [|by apply Hw|by eapply windows_size, Hw|done].
    unfold fits in E. rewrite forallb_forall in E. apply E, list_elem_of_In, Hw.
  - case_decide; [|done]. subst. unfold spec_Refund.
    rewrite <- (take_drop (length (s k) - 1) (s k)) in Hc. by eapply cap_inv_prefix.
Qed.

Lemma capped_not_none (limits : Limits) (w : window) : capped limits w → Limits_None limits = false.
Proof.
  intros [Hw Hl]. unfold windows in Hw. rewrite !elem_of_cons, elem_of_nil in Hw. unfold Limits_None.
  apply not_true_iff_false. rewrite !andb_true_iff, !Z.leb_le.
  destruct Hw as [->|[->|[->|[]]]]; simpl in Hl; lia.
Qed.

Lemma initial_rel (now : Time) : limiter_rel lim now NewMemoryLimiter (λ _, []).
Proof. intros key. simpl. rewrite lookup_empty. split; [by exists []|repeat constructor..]. Qed.
End Caps.

(** ** Room after the wait *)

Section Retry.
Context (now now' : Time) (limits : Limits) (hist : list Time).
Context (Hs : sorted_hits hist) (Hnow : Forall (λ t, t ≤ now) hist).
Context (Hwait : now + foldl (windowWait now hist) 0 (windows limits) ≤ now').

Lemma fits_after_wait : fits now' limits hist = true.
Proof.
  destruct (foldl_wait now hist Hs Hnow (windows limits) 0) as (H0 & Hfull & _).
  { apply Forall_forall. intros w. apply windows_size. }
  set (retry := foldl _ _ _) in *. clearbody retry. unfold fits. apply forallb_forall. intros w Hw.
  apply list_elem_of_In in Hw. pose proof (windows_size _ _ Hw) as Hsz. unfold has_room.
  destruct (Z.leb_spec (w_limit w) 0) as [|Hl]; [done|]. simpl. apply Z.ltb_lt.
  destruct (has_room now hist w) eqn:E.
  - unfold has_room in E. apply orb_true_iff in E as [?%Z.leb_le|E%Z.ltb_lt]; [lia|].
    pose proof (younger_mono (now - w_size w) (now' - w_size w) hist ltac:(lia)). lia.
  - destruct (windowWait_full now hist Hs Hnow 0 w E Hsz) as (t & Ht & Hbnd & _).
    specialize (Hfull w t Hw E Ht). set (i := (length hist - Z.to_nat (w_limit w))%nat) in *.
    rewrite <- (take_drop (S i) hist), younger_app, (younger_old _ (take (S i) hist)).
    + pose proof (length_filter (λ x, now' - w_size w < x) (drop (S i) hist)) as Hlen.
      rewrite length_drop in Hlen. apply lookup_lt_Some in Ht. unfold younger. lia.
    + apply Forall_lookup. intros j x Hj. apply lookup_take_Some in Hj as [Hj ?].
      pose proof (sorted_lookup _ _ _ _ _ Hs (ltac:(lia) : (j ≤ i)%nat) Hj Ht). lia.
Qed.
End Retry.

(** A rejected call records nothing and leaves the state related to the same log. *)
Lemma Memory_Allow_rejected (lim : gostring → Limits) (now : Time) (key : gostring)
    (l l' : MemoryLimiter) (s : logs) (r : Duration) :
  limiter_rel lim now l s → Memory_Allow now key (lim key) l = (l', (false, r)) →
  limiter_rel lim now l' s ∧ Second ≤ r ∧ (Second | r) ∧
  ∀ now', now + r ≤ now' → fits now' (lim key) (s key) = true.
Proof.
  intros Hr E. destruct (Memory_Allow_sim lim now key l s Hr) as [Ho Hr'].
  rewrite E in Ho, Hr'. simpl in Ho, Hr'. unfold spec_Allow in *.
  assert (limiter_rel lim now l' s) as Hrel.
  { intros k. specialize (Hr' k). destruct (Limits_None (lim key)); [done|].
    destruct (fits now (lim key) (s key)); [done|]. simpl in *. by destruct (decide (k = key)) as [->|]. }
  split; [done|]. unfold Memory_Allow in E. destruct (Limits_None (lim key)); [done|].
  pose proof (hist_rel_trim _ _ _ _ (liveHistory_rel lim now key _ s (sweep_rel lim now l s Hr))) as Ht.
  cbv zeta in E. set (h := liveHistory now key (sweep now l)) in *.
  destruct (hist_rel_sorted _ _ _ _ Ht) as [Hsorted Hpast]. simpl in Hsorted, Hpast.
  set (hist := retained now (lim key) h) in *. clearbody hist h.
  set (retry := foldl (windowWait now hist) 0 (windows (lim key))) in *.
  destruct (Z.ltb_spec 0 retry) as [Hpos|]; [|done]. simplify_eq.
  destruct (ceilToSecond_spec retry Hpos) as (H1 & H2 & H3). split_and!; [done..|].
  intros now' Hn. rewrite <- (fits_rel now' (lim key) _ _ (hist_rel_later now now' _ _ _ ltac:(lia) Ht)).
  simpl. apply (fits_after_wait now now'); [done..|]. fold retry. lia.
Qed.

#[export] Instance memoryLimiter_laws : LimiterLaws MemoryLimiter.
Proof.
  split.
  - intros now key limits l Hn. simpl. unfold Memory_Allow. by rewrite Hn.
  - intros now key limits l ok retry. simpl. unfold Memory_Allow. cbv zeta.
    destruct (Limits_None limits); [by intros [= <- <-]|].
    destruct (Z.ltb_spec 0 (foldl (windowWait now (retained now limits (liveHistory now key (sweep now l)))) 0
      (windows limits))) as [Hpos|]; intros [= <- <-]; [|done].
    by apply ceilToSecond_spec.
Qed.

#[export] Instance noLimit_laws : LimiterLaws unit.
Proof. split; [by intros ? ? ? []|]. simpl. by intros ? ? ? ? ? ? [= <- <-]. Qed.

(** ** Changing limits: the day of history survives *)

(** Calls whose limits vary, as replicas that see a policy change at different times. *)
Fixpoint calls (l : MemoryLimiter) (cs : list (Time * gostring * Limits)) : MemoryLimiter :=
  match cs with
  | [] => l
  | (now, key, limits) :: cs => calls (fst (Memory_Allow now key limits l)) cs
  end.

(** [key]'s history lasts beyond [till] and has every hit of [hits] younger than a day. *)
Definition day_kept (now : Time) (key : gostring) (till : Time) (hits : list Time) (l : MemoryLimiter) : Prop :=
  ∃ h, ml_hits l !! key = Some h ∧ till ≤ h_expires h ∧
    sorted_hits (h_hits h) ∧ Forall (λ t, t ≤ now) (h_hits h) ∧
    ∀ t, t ∈ hits → now - 24 * Hour < t → t ∈ h_hits h.

Lemma sweep_lookup (now : Time) (l : MemoryLimiter) (key : gostring) (h : history) :
  ml_hits l !! key = Some h → now < h_expires h → ml_hits (sweep now l) !! key = Some h.
Proof.
  intros Hh He. unfold sweep. destruct (_ <? _); [done|]. simpl. by apply map_lookup_filter_Some_2.
Qed.

Lemma Memory_Allow_other (now : Time) (k key : gostring) (limits : Limits) (l : MemoryLimiter) (h : history) :
  k ≠ key → ml_hits l !! key = Some h → now < h_expires h →
  ml_hits (fst (Memory_Allow now k limits l)) !! key = Some h.
Proof.
  intros Hne Hh He. unfold Memory_Allow. cbv zeta. destruct (Limits_None limits); [done|].
  destruct (_ <? _); cbn [fst ml_hits]; rewrite lookup_insert_ne by done; by apply sweep_lookup.
Qed.

Lemma day_kept_step (now now' till : Time) (key k : gostring) (limits : Limits) (hits : list Time) (l : MemoryLimiter) :
  now ≤ now' → now' + Hour < till → till ≤ now + 48 * Hour → day_kept now key till hits l →
  day_kept now' key till hits (fst (Memory_Allow now' k limits l)).
Proof.
  intros Hle Htill Hsane (h & Hh & He & Hs & Hp & Hk).
  assert (now' < h_expires h) as Hlive by (unfold Hour in *; lia).
  assert (Forall (λ t, t ≤ now') (h_hits h)) as Hp' by (eapply Forall_impl; [done|]; simpl; lia).
  destruct (decide (k = key)) as [->|Hne].
  2: { exists h. split_and!; [by apply Memory_Allow_other|done..|]. intros t Ht Hy. apply Hk; [done|lia]. }
  unfold Memory_Allow. cbv zeta. destruct (Limits_None limits).
  { exists h. split_and!; [done..|]. intros t Ht Hy. apply Hk; [done|lia]. }
  unfold liveHistory. rewrite (sweep_lookup _ _ _ _ Hh Hlive). change (default emptyHistory (Some h)) with h.
  rewrite (proj2 (Z.ltb_lt _ _) Hlive). cbn [negb]. unfold retained.
  assert (retain limits (time_sub (h_expires h) now') = 24 * Hour) as ->.
  { unfold retain, keep. destruct (0 <? PerDay limits); [by case_match|].
    rewrite (proj2 (Z.ltb_lt _ _)); [done|]. unfold time_sub, min_int64, max_int64, Hour in *. lia. }
  destruct (since_spec (h_hits h) (now' - 24 * Hour) Hs) as (_ & -> & _).
  set (hist := filter _ (h_hits h)).
  assert (sorted_hits hist ∧ Forall (λ t, t ≤ now') hist) as [Hsh Hph].
  { split; [|apply Forall_forall; intros t; unfold hist; rewrite list_elem_of_filter; rewrite Forall_forall in Hp';
      intros [_ Ht]; by apply Hp'].
    unfold hist. destruct (since_spec (h_hits h) (now' - 24 * Hour) Hs) as (_ & <- & _).
    rewrite <- (take_drop (since (h_hits h) (now' - 24 * Hour)) (h_hits h)) in Hs. by eapply StronglySorted_app_1_r. }
  assert (∀ t, t ∈ hits → now' - 24 * Hour < t → t ∈ hist) as Hin.
  { intros t Ht Hy. apply list_elem_of_filter. split; [done|]. apply Hk; [done|lia]. }
  destruct (_ <? _); cbn [fst]; eexists; (split; [apply lookup_insert_eq|]); simpl;
    [by split_and!|].
  split_and!.
  - unfold later. destruct (Z.ltb_spec (now' + keep limits) (h_expires h)); lia.
  - apply StronglySorted_app. split_and!; [|done|repeat constructor].
    intros x y Hx ->%list_elem_of_singleton. rewrite Forall_forall in Hph. by apply Hph.
  - apply Forall_app. split; [done|]. repeat constructor. lia.
  - intros t Ht Hy. apply elem_of_app. left. by apply Hin.
Qed.

Lemma day_kept_calls (now till : Time) (key : gostring) (hits : list Time) (cs : list (Time * gostring * Limits))
    (l : MemoryLimiter) (last : Time) :
  till ≤ now + 24 * Hour → last + Hour < till → day_kept now key till hits l →
  StronglySorted Z.le (now :: (fst ∘ fst <$> cs) ++ [last]) →
  day_kept last key till hits (calls l cs).
Proof.
  intros Ht Hl. revert now l Ht.
  induction cs as [|[[t k] limits] cs IH]; intros now l Ht Hk Hs; simpl in *.
  - destruct Hk as (h & ? & ? & ? & Hp & Hkeep). inversion_clear Hs as [|? ? _ Hle].
    apply Forall_cons in Hle as [Hle _]. exists h. split_and!; try done.
    + eapply Forall_impl; [done|]. simpl. lia.
    + intros x Hx Hy. apply Hkeep; [done|lia].
  - inversion_clear Hs as [|? ? Hs' Hle]. apply Forall_cons in Hle as [Hle _].
    assert (t ≤ last) as Htl.
    { inversion_clear Hs' as [|? ? _ Hf]. rewrite Forall_forall in Hf. apply Hf. set_solver. }
    eapply (IH t); [unfold Hour in *; lia| |done].
    eapply day_kept_step; [| | |done]; unfold Hour in *; lia.
Qed.

(** ** Claims *)


(** The caps hold: whatever the calls, for every capped window of a key's limits
    and every instant [t], at most [w_limit] of the admitted and not refunded hits lie
    in the window of that size that ends at [t]. *)
Theorem memory_limiter_caps (lim : gostring → Limits) (now : Time) (ops : list op) (key : gostring)
    (w : window) (t : Time) :
  clocked now ops → w ∈ windows (lim key) → 0 < w_limit w →
  Z.of_nat (length (filter (λ x, t - w_size w < x ∧ x ≤ t) (admitted lim key NewMemoryLimiter [] ops)))
  ≤ w_limit w.
Proof.
  intros Hc Hw Hl. assert (capped (lim key) w) as Hcap by done.
  rewrite (admitted_spec lim key now NewMemoryLimiter (λ _, []));
    [|by eapply capped_not_none|apply initial_rel|done].
  apply cap_inv_window; [lia|]. apply spec_logs_cap; [done|]. by intros [].
Qed.

(** Retry-After is honest: after any run, a rejected call reports a wait of a
    positive number of whole seconds, and a call for the key at any later time after
    that wait, with no other call in between, is admitted. *)
Theorem memory_retry_after (lim : gostring → Limits) (start now : Time) (ops : list op) (key : gostring)
    (l' : MemoryLimiter) (r : Duration) :
  clocked start ops → clock start ops ≤ now →
  Memory_Allow now key (lim key) (mem_exec lim NewMemoryLimiter ops) = (l', (false, r)) →
  Second ≤ r ∧ (Second | r) ∧
  ∀ now', now + r ≤ now' → fst (snd (Memory_Allow now' key (lim key) l')) = true.
Proof.
  intros Hc Hnow E. pose proof (mem_exec_rel lim start _ _ ops (initial_rel lim start) Hc) as Hr.
  set (s := spec_logs lim (λ _, []) ops) in *. clearbody s.
  assert (limiter_rel lim now (mem_exec lim NewMemoryLimiter ops) s) as Hr2.
  { intros k. eapply hist_rel_later; [done|apply Hr]. }
  destruct (Memory_Allow_rejected lim now key _ l' s r Hr2 E) as (Hrel & H1 & H2 & Hfit).
  split_and!; [done..|]. intros now' Hn. assert (limiter_rel lim now' l' s) as Hr3.
  { intros k. eapply hist_rel_later; [|apply Hrel]. unfold Second in *. lia. }
  destruct (Memory_Allow_sim lim now' key l' s Hr3) as [Ho _].
  simpl in Ho. unfold spec_Allow in Ho. rewrite (Hfit now' Hn) in Ho.
  destruct (Limits_None (lim key)); simpl in Ho; congruence.
Qed.

(** A daily count is not wiped by callers that do not know the daily cap: once a
    call with a daily cap is admitted, any calls with any limits in the next 23 hours
    keep every hit of the key that is younger than a day. *)
Theorem daily_history_survives (lim : gostring → Limits) (start t0 last : Time) (ops : list op)
    (key : gostring) (l1 : MemoryLimiter) (h : history) (cs : list (Time * gostring * Limits)) (t : Time) :
  clocked start ops → clock start ops ≤ t0 → 0 < PerDay (lim key) →
  Memory_Allow t0 key (lim key) (mem_exec lim NewMemoryLimiter ops) = (l1, (true, 0)) →
  ml_hits l1 !! key = Some h →
  StronglySorted Z.le (t0 :: (fst ∘ fst <$> cs) ++ [last]) → last < t0 + 23 * Hour →
  t ∈ h_hits h → last - 24 * Hour < t →
  ∃ h', ml_hits (calls l1 cs) !! key = Some h' ∧ t ∈ h_hits h'.
Proof.
  intros Hc Hnow Hday E Hh Hs Hlast Ht Hy.
  pose proof (mem_exec_rel lim start _ _ ops (initial_rel lim start) Hc) as Hr.
  assert (limiter_rel lim t0 (mem_exec lim NewMemoryLimiter ops) (spec_logs lim (λ _, []) ops)) as Hr2.
  { intros k. eapply hist_rel_later; [done|apply Hr]. }
  destruct (Memory_Allow_sim lim t0 key _ _ Hr2) as [_ Hr3]. rewrite E in Hr3. specialize (Hr3 key).
  cbn [fst] in Hr3. rewrite Hh in Hr3. apply hist_rel_sorted in Hr3 as [Hsh Hph].
  assert (t0 + 24 * Hour ≤ h_expires h) as Hexp.
  { unfold Memory_Allow in E. cbv zeta in E.
    assert (Limits_None (lim key) = false) as Hn by (unfold Limits_None; rewrite (proj2 (Z.leb_gt _ _) Hday); by rewrite andb_false_r).
    rewrite Hn in E. destruct (_ <? _); [done|]. simplify_eq. simpl in Hh. rewrite lookup_insert_eq in Hh.
    simplify_eq. simpl. unfold later, keep. rewrite (proj2 (Z.ltb_lt _ _) Hday).
    destruct (Z.ltb_spec (t0 + 24 * Hour) (h_expires (liveHistory t0 key (sweep t0 (mem_exec lim NewMemoryLimiter ops))))); lia. }
  destruct (day_kept_calls t0 (t0 + 24 * Hour) key (h_hits h) cs l1 last) as (h' & Hh' & _ & _ & _ & Hk);
    [lia|unfold Hour in *; lia| |done|by eauto].
  exists h. by split_and!.
Qed.

(** ** Witnesses *)

Definition example_limits (_ : gostring) : Limits := {| PerMinute := 2; PerHour := 0; PerDay := 3 |}.

(** A burst, a refund, and calls after the minute. *)
Definition example_ops : list op :=
  [OpAllow (100 * Second) "a"; OpAllow (101 * Second) "a"; OpAllow (102 * Second) "a"; OpRefund "a";
   OpAllow (103 * Second) "b"; OpAllow (170 * Second) "a"; OpAllow (171 * Second) "a"].

Example example_run :
  run_memory example_limits NewMemoryLimiter example_ops = [true; true; false; true; true; true].
Proof. vm_compute. reflexivity. Qed.

Lemma example_clocked : clocked 0 example_ops.
Proof. vm_compute. repeat split; done. Qed.


Lemma memory_limiter_caps_witness :
  Z.of_nat (length (filter (λ x, 171 * Second - Minute < x ∧ x ≤ 171 * Second)
    (admitted example_limits "a" NewMemoryLimiter [] example_ops))) ≤ 2.
Proof.
  apply (memory_limiter_caps example_limits 0 example_ops "a" {| w_limit := 2; w_size := Minute |});
    [apply example_clocked|left|reflexivity].
Defined.

Definition example_state := mem_exec example_limits NewMemoryLimiter example_ops.

Lemma memory_retry_after_witness :
  Second ≤ 86328 * Second ∧ (Second | 86328 * Second) ∧
  ∀ now', 172 * Second + 86328 * Second ≤ now' →
    fst (snd (Memory_Allow now' "a" (example_limits "a")
      (fst (Memory_Allow (172 * Second) "a" (example_limits "a") example_state)))) = true.
Proof.
  apply (memory_retry_after example_limits 0 (172 * Second) example_ops "a"
    (fst (Memory_Allow (172 * Second) "a" (example_limits "a") example_state)) (86328 * Second));
    [apply example_clocked|vm_compute; discriminate|vm_compute; reflexivity].
Defined.

(** A replica that sees no daily cap calls for the key six hours later. *)
Definition example_admitted := Memory_Allow (300 * Second) "b" (example_limits "b") example_state.

Lemma daily_history_survives_witness :
  ∃ h', ml_hits (calls (fst example_admitted)
      [(6 * Hour, lit "b", {| PerMinute := 1; PerHour := 0; PerDay := 0 |})]) !! lit "b" = Some h' ∧
    103 * Second ∈ h_hits h'.
Proof.
  apply (daily_history_survives example_limits 0 (300 * Second) (6 * Hour) example_ops "b" (fst example_admitted)
    {| h_hits := [103 * Second; 300 * Second]; h_expires := 24 * Hour + 300 * Second |}).
  - apply example_clocked.
  - vm_compute. discriminate.
  - reflexivity.
  - vm_compute. reflexivity.
  - vm_compute. reflexivity.
  - repeat constructor; vm_compute; discriminate.
  - reflexivity.
  - left.
  - reflexivity.
Defined.
