(* ===== verification/Credential.v ===== *)
(** * SMTP credentials ([internal/credential/credential.go])

    Usernames, passwords and their hashes, rotation settings and the namespace
    exclusion list.  SHA-256 and argon2id are the parameters of [Hashes], the
    Kubernetes name rules those of [K8sNames]; the nanoseconds of a fractional
    duration, which Go computes in floating point, are [FloatNanos]. *)

From S2P Require Import Prelude GoStrings Types.

(** ** Encodings of the standard library *)

(** [strconv.ParseUint(s, 10, bits)]. *)
Fixpoint digits_value (acc : Z) (s : gostring) : option Z :=
  match s with
  | [] => Some acc
  | c :: s => if is_digit c then digits_value (acc * 10 + (bz c - 48)) s else None
  end.

Definition ParseUint (bits : Z) (s : gostring) : option Z :=
  match s with
  | [] => None
  | _ => n ← digits_value 0 s; if n <? 2 ^ bits then Some n else None
  end.

(** [encoding/hex]. *)
Definition hex_digit (n : Z) : ascii := zb (if n <? 10 then 48 + n else 87 + n).

Definition hex_value (c : ascii) : option Z :=
  if is_digit c then Some (bz c - 48)
  else if in_range "a" "f" c then Some (bz c - 87)
  else if in_range "A" "F" c then Some (bz c - 55)
  else None.

Definition hex_Encode (s : gostring) : gostring :=
  s ≫= λ c, [hex_digit (bz c / 16); hex_digit (bz c `mod` 16)].

Fixpoint hex_Decode (s : gostring) : option gostring :=
  match s with
  | [] => Some []
  | [_] => None
  | a :: b :: s => x ← hex_value a; y ← hex_value b; t ← hex_Decode s; Some (zb (16 * x + y) :: t)
  end.

(** [encoding/base64], unpadded: the alphabet is given by its last two characters. *)
Definition b64_digit (c62 c63 : ascii) (n : Z) : ascii :=
  if n <? 26 then zb (65 + n) else if n <? 52 then zb (71 + n) else if n <? 62 then zb (n - 4)
  else if n =? 62 then c62 else c63.

Definition b64_value (c62 c63 c : ascii) : option Z :=
  if is_upper c then Some (bz c - 65)
  else if is_lower c then Some (bz c - 71)
  else if is_digit c then Some (bz c + 4)
  else if Ascii.eqb c c62 then Some 62 else if Ascii.eqb c c63 then Some 63 else None.

Fixpoint b64_Encode (c62 c63 : ascii) (s : gostring) : gostring :=
  let d := b64_digit c62 c63 in
  match s with
  | [] => []
  | [a] => [d (bz a / 4); d ((bz a `mod` 4) * 16)]
  | [a; b] => [d (bz a / 4); d ((bz a `mod` 4) * 16 + bz b / 16); d ((bz b `mod` 16) * 4)]
  | a :: b :: c :: s =>
      d (bz a / 4) :: d ((bz a `mod` 4) * 16 + bz b / 16) :: d ((bz b `mod` 16) * 4 + bz c / 64)
        :: d (bz c `mod` 64) :: b64_Encode c62 c63 s
  end.

(** The decoder skips line breaks; the spare bits of the last group are ignored. *)
Fixpoint b64_groups (l : list Z) : option gostring :=
  match l with
  | [] => Some []
  | [_] => None
  | [a; b] => Some [zb (a * 4 + b / 16)]
  | [a; b; c] => Some [zb (a * 4 + b / 16); zb ((b `mod` 16) * 16 + c / 4)]
  | a :: b :: c :: d :: l =>
      t ← b64_groups l;
      Some (zb (a * 4 + b / 16) :: zb ((b `mod` 16) * 16 + c / 4) :: zb ((c `mod` 4) * 64 + d) :: t)
  end.

Definition b64_Decode (c62 c63 : ascii) (s : gostring) : option gostring :=
  vs ← mapM (b64_value c62 c63) (List.filter (λ c, negb (Ascii.eqb c CR || Ascii.eqb c LF)) s);
  b64_groups vs.

Definition c_plus : ascii := "+".
Definition c_slash : ascii := "/".
Definition c_minus : ascii := "-".
Definition c_under : ascii := "_".
Definition c_dollar : ascii := "$".
Definition c_comma : ascii := ",".
Definition c_eq : ascii := "=".
Definition c_period : ascii := ".".

(** ** Durations ([time.ParseDuration]) *)

Class FloatNanos := {
  (** [uint64(float64(f) * (float64(unit) / scale))], [scale] a power of ten. *)
  fraction_nanos : Z → Z → Z → Z }.

Fixpoint leadingInt (acc : Z) (s : gostring) : option (Z * gostring) :=
  match s with
  | c :: s' =>
      if is_digit c then
        if 2 ^ 63 / 10 <? acc then None
        else let acc := acc * 10 + (bz c - 48) in if 2 ^ 63 <? acc then None else leadingInt acc s'
      else Some (acc, s)
  | [] => Some (acc, [])
  end.

(** Value and scale of the digits after the point; digits beyond an [int64] are
    consumed and dropped. *)
Fixpoint leadingFraction (acc scale : Z) (overflow : bool) (s : gostring) : Z * Z * gostring :=
  match s with
  | c :: s' =>
      if is_digit c then
        if overflow then leadingFraction acc scale true s'
        else if (2 ^ 63 - 1) / 10 <? acc then leadingFraction acc scale true s'
        else let y := acc * 10 + (bz c - 48) in
             if 2 ^ 63 <? y then leadingFraction acc scale true s'
             else leadingFraction y (scale * 10) false s'
      else (acc, scale, s)
  | [] => (acc, scale, [])
  end.

Fixpoint unit_name (s : gostring) : gostring * gostring :=
  match s with
  | c :: s' => if Ascii.eqb c c_period || is_digit c then ([], s)
               else let '(u, r) := unit_name s' in (c :: u, r)
  | [] => ([], [])
  end.

Definition unitMap (u : gostring) : option Z :=
  if u == lit "ns" then Some 1
  else if (u == lit "us") || (u == [zb 194; zb 181; "s"%char]) || (u == [zb 206; zb 188; "s"%char])
  then Some 1000
  else if u == lit "ms" then Some Millisecond
  else if u == lit "s" then Some Second
  else if u == lit "m" then Some Minute
  else if u == lit "h" then Some Hour
  else None.

Section GoDuration.
Context `{FloatNanos}.

(** The loop over [number unit] groups; every round consumes at least one byte. *)
Fixpoint duration_loop (fuel : nat) (d : Z) (s : gostring) : option Z :=
  match s, fuel with
  | [], _ => Some d
  | _, O => None
  | c :: _, S fuel =>
      if negb (Ascii.eqb c c_period || is_digit c) then None
      else
        '(v, s1) ← leadingInt 0 s;
        let pre := negb (length s1 =? length s)%nat in
        let '(f, scale, s2, post) :=
          match s1 with
          | x :: s1' => if Ascii.eqb x c_period
                        then let '(f, scale, s2) := leadingFraction 0 1 false s1' in
                             (f, scale, s2, negb (length s2 =? length s1')%nat)
                        else (0, 1, s1, false)
          | [] => (0, 1, s1, false)
          end in
        if negb pre && negb post then None
        else
          let '(u, s3) := unit_name s2 in
          if u == [] then None
          else
            unit ← unitMap u;
            if 2 ^ 63 / unit <? v then None
            else
              let v := v * unit in
              let v := if 0 <? f then v + fraction_nanos f unit scale else v in
              if 2 ^ 63 <? v then None
              else
                let d := (d + v) `mod` 2 ^ 64 in
                if 2 ^ 63 <? d then None else duration_loop fuel d s3
  end.

Definition GoParseDuration (s : gostring) : option Duration :=
  let '(neg, s) := match s with
                   | c :: s' => if Ascii.eqb c c_minus then (true, s')
                                else if Ascii.eqb c c_plus then (false, s') else (false, s)
                   | [] => (false, s)
                   end in
  if s == lit "0" then Some 0
  else if s == [] then None
  else
    d ← duration_loop (length s) 0 s;
    if neg : bool then Some (wrap 64 (- d))
    else if 2 ^ 63 - 1 <? d then None else Some d.
End GoDuration.

(** ** Usernames *)

Definition Username (name namespace : gostring) : gostring := name ++ lit "." ++ namespace.

(** [Some (namespace, name)]. *)
Definition ParseUsername (u : gostring) : option (gostring * gostring) :=
  match LastIndexByte u c_period with
  | None => None
  | Some i => if (i =? 0)%nat || (i =? length u - 1)%nat then None
              else Some (drop (i + 1) u, take i u)
  end.

(** ** Generated passwords *)

Class Hashes := {
  Sum256 : gostring → gostring;
  (** [argon2.IDKey(password, salt, time, memory, threads, keyLen)] *)
  IDKey : gostring → gostring → Z → Z → Z → Z → gostring }.

(** The documented size of a SHA-256 sum. *)
Class HashesLaws `{Hashes} := { Sum256_length : ∀ s, length (Sum256 s) = 32%nat }.

(** [GeneratePassword], with the 32 bytes read from [crypto/rand]. *)
Definition GeneratePassword (random : gostring) : gostring := b64_Encode c_minus c_under random.

Definition sha256Prefix : gostring := "sha256:".
Definition sha256_Size : nat := 32.

Definition HashGenerated `{Hashes} (password : gostring) : gostring :=
  sha256Prefix ++ hex_Encode (Sum256 password).

Definition IsGeneratedHash (hash : gostring) : bool := HasPrefix hash sha256Prefix.

Definition VerifyGenerated `{Hashes} (hash password : gostring) : bool :=
  if negb (IsGeneratedHash hash) then false
  else match hex_Decode (TrimPrefix hash sha256Prefix) with
       | None => false
       | Some want => if negb (length want =? sha256_Size)%nat then false
                      else want == Sum256 password
       end.

(** ** Bring-your-own argon2id hashes *)

Definition Argon2MinMemoryKiB : Z := 7 * 1024.
Definition Argon2MaxMemoryKiB : Z := 64 * 1024.
Definition Argon2MinMemoryTimeKiB : Z := 35 * 1024.
Definition Argon2MaxTime : Z := 10.
Definition Argon2MaxThreads : Z := 16.
Definition argon2MinSaltLen : nat := 8.
Definition argon2MinKeyLen : nat := 16.
Definition argon2MaxKeyLen : nat := 64.

Record Argon2Params := {
  a2_MemoryKiB : Z; a2_Time : Z; a2_Threads : Z; a2_Salt : gostring; a2_Key : gostring }.

Inductive PHCError :=
| NotPHC | MalformedPHC | UnsupportedAlgorithm | UnsupportedVersion | MalformedParams | MalformedParam
| ParallelismRange | UnknownParam | MissingParams | MemoryRange | TimeRange | TooWeak | ThreadsRange
| BadSalt | BadKey.

(** The loop over [m=..,t=..,p=..]: the parameters and the keys seen so far. *)
Fixpoint argon2_params (m t p : Z) (seen : list gostring) (kvs : list gostring)
    : res PHCError (Z * Z * Z * list gostring) :=
  match kvs with
  | [] => Ok (m, t, p, seen)
  | kv :: kvs =>
      match Cut kv c_eq with
      | None => Err MalformedParams
      | Some (k, v) =>
          if bool_decide (k ∈ seen) then Err MalformedParams
          else match ParseUint 32 v with
               | None => Err MalformedParam
               | Some n =>
                   if k == lit "m" then argon2_params n t p (k :: seen) kvs
                   else if k == lit "t" then argon2_params m n p (k :: seen) kvs
                   else if k == lit "p" then
                     if 255 <? n then Err ParallelismRange else argon2_params m t n (k :: seen) kvs
                   else Err UnknownParam
               end
      end
  end.

Definition decodeB64 (s : gostring) : option gostring := b64_Decode c_plus c_slash (TrimRight s c_eq).

Definition ParseArgon2id (phc : gostring) : res PHCError Argon2Params :=
  match Split phc c_dollar with
  | [p0; p1; p2; p3; p4; p5] =>
      if p0 != [] then (if negb (HasPrefix phc "$") then Err NotPHC else Err MalformedPHC)
      else if p1 != lit "argon2id" then Err UnsupportedAlgorithm
      else if p2 != lit "v=19" then Err UnsupportedVersion
      else
        let! r := argon2_params 0 0 0 [] (Split p3 c_comma) in
        let '(m, t, p, seen) := r in
        if negb (bool_decide (lit "m" ∈ seen)) || negb (bool_decide (lit "t" ∈ seen))
           || negb (bool_decide (lit "p" ∈ seen)) then Err MissingParams
        else if (m <? Argon2MinMemoryKiB) || (Argon2MaxMemoryKiB <? m) then Err MemoryRange
        else if (t <? 1) || (Argon2MaxTime <? t) then Err TimeRange
        else if (m * t) `mod` 2 ^ 64 <? Argon2MinMemoryTimeKiB then Err TooWeak
        else if (p <? 1) || (Argon2MaxThreads <? p) then Err ThreadsRange
        else match decodeB64 p4 with
        | None => Err BadSalt
        | Some salt =>
            if (length salt <? argon2MinSaltLen)%nat then Err BadSalt
            else match decodeB64 p5 with
            | None => Err BadKey
            | Some key =>
                if (length key <? argon2MinKeyLen)%nat || (argon2MaxKeyLen <? length key)%nat then Err BadKey
                else Ok {| a2_MemoryKiB := m; a2_Time := t; a2_Threads := p; a2_Salt := salt; a2_Key := key |}
            end
        end
  | _ => if negb (HasPrefix phc "$") then Err NotPHC else Err MalformedPHC
  end.

Definition VerifyArgon2id `{Hashes} (phc password : gostring) : res PHCError bool :=
  let! p := ParseArgon2id phc in
  Ok (IDKey password (a2_Salt p) (a2_Time p) (a2_MemoryKiB p) (a2_Threads p) (Z.of_nat (length (a2_Key p)))
      == a2_Key p).

(** ** Rotation *)

Inductive DurationError := InvalidDays | InvalidDuration | NegativeDuration.

Definition ParseDuration `{FloatNanos} (s : gostring) : res DurationError Duration :=
  if s == [] then Ok 0
  else
    let! d := match CutSuffix s "d" with
              | Some days => match ParseUint 16 days with
                             | None => Err InvalidDays
                             | Some n => Ok (wrap 64 (wrap 64 (n * 24) * Hour))
                             end
              | None => match GoParseDuration s with None => Err InvalidDuration | Some d => Ok d end
              end in
    if d <? 0 then Err NegativeDuration else Ok d.

Definition DefaultGracePeriod : Duration := 24 * Hour.
Definition MinRotationInterval : Duration := Hour.

Inductive RotationField := FieldInterval | FieldGracePeriod.
Inductive RotationDetail := DurationDetail (e : DurationError) | BelowMinimum.

Record RotationError := { re_Field : RotationField; re_Value : gostring; re_Detail : RotationDetail }.

(** Interval and grace period, or the errors of the invalid fields. *)
Definition ParseRotation `{FloatNanos} (rot : option CredentialRotation)
    : res (list RotationError) (Duration * Duration) :=
  match rot with
  | None => Ok (0, DefaultGracePeriod)
  | Some rot =>
      let interval := match ParseDuration (rot_Interval rot) with
        | Err e => Err {| re_Field := FieldInterval; re_Value := rot_Interval rot; re_Detail := DurationDetail e |}
        | Ok d => if negb (d =? 0) && (d <? MinRotationInterval)
                  then Err {| re_Field := FieldInterval; re_Value := rot_Interval rot; re_Detail := BelowMinimum |}
                  else Ok d
        end in
      let grace := if rot_GracePeriod rot != [] then
          match ParseDuration (rot_GracePeriod rot) with
          | Err e => Err {| re_Field := FieldGracePeriod; re_Value := rot_GracePeriod rot; re_Detail := DurationDetail e |}
          | Ok d => Ok d
          end
        else Ok DefaultGracePeriod in
      match interval, grace with
      | Ok i, Ok g => Ok (i, g)
      | Err e, Ok _ => Err [e]
      | Ok _, Err e => Err [e]
      | Err e, Err e' => Err [e; e']
      end
  end.

(** ** Excluded namespaces *)

Record Exclusions := { ex_Patterns : list gostring; ex_ReleaseNamespace : gostring }.

Definition ParseExclusions (list_ releaseNamespace : gostring) : Exclusions :=
  {| ex_Patterns := List.filter (λ p, p != []) (TrimSpace <$> Split list_ c_comma);
     ex_ReleaseNamespace := releaseNamespace |}.

(** [Exclusions.Validate]: whether every pattern is a name or a prefix. *)
Definition Exclusions_Validate (e : Exclusions) : bool :=
  forallb (λ p, negb (Contains (TrimSuffix p "*") "*")) (ex_Patterns e).

Definition excludedBy (ns p : gostring) : bool :=
  match CutSuffix p "*" with Some prefix => HasPrefix ns prefix | None => ns == p end.

Definition Excluded (e : Exclusions) (ns : gostring) : bool :=
  if (ex_ReleaseNamespace e != []) && (ns == ex_ReleaseNamespace e) then true
  else existsb (excludedBy ns) (ex_Patterns e).

(** [Exclusions.split]: exact names and prefixes. *)
Fixpoint split_patterns (ps : list gostring) : list gostring * list gostring :=
  match ps with
  | [] => ([], [])
  | p :: ps => let '(exact, prefixes) := split_patterns ps in
               match CutSuffix p "*" with
               | Some prefix => (exact, prefix :: prefixes)
               | None => (p :: exact, prefixes)
               end
  end.
Definition split (e : Exclusions) : list gostring * list gostring := split_patterns (ex_Patterns e).

(** [validation.IsDNS1123Subdomain] and [validation.IsValidLabelValue]: the
    messages about a value, none when it is valid. *)
Class K8sNames := {
  IsDNS1123Subdomain : gostring → list gostring;
  IsValidLabelValue : gostring → list gostring }.

(** What the first documents: lower-case alphanumerics, ['-'] and ['.'], 1 to 253
    characters, an alphanumeric at both ends. *)
Class K8sNamesLaws `{K8sNames} := {
  subdomain_chars : ∀ s, IsDNS1123Subdomain s = [] →
    (0 < length s ≤ 253)%nat ∧ ∀ c, c ∈ s → is_lower c = true ∨ is_digit c = true ∨ c = c_minus ∨ c = c_period }.

Definition GeneratedNameError `{K8sNames} (name : gostring) : gostring :=
  match IsValidLabelValue name with
  | [] => []
  | msgs => lit "the name of a generated MailCredential becomes a label value of its Secret: " ++ Join msgs "; "
  end.

(** ** Facts *)

Lemma nil_length_neq {A} (l : list A) : l ≠ [] → length l ≠ 0%nat.
Proof. by destruct l. Qed.

Lemma ParseUsername_iff (u namespace name : gostring) :
  ParseUsername u = Some (namespace, name) ↔
  u = Username name namespace ∧ name ≠ [] ∧ namespace ≠ [] ∧ c_period ∉ namespace.
Proof.
  unfold ParseUsername, Username. change (lit ".") with [c_period]. split.
  - destruct (LastIndexByte u c_period) as [i|] eqn:E; [|done].
    apply LastIndexByte_Some in E as (a & b & -> & <- & Hb).
    destruct (_ || _) eqn:Eg; [done|]. rewrite take_app_length, <- drop_drop, drop_app_length. simpl.
    rewrite drop_0. intros [= <- <-]. apply orb_false_iff in Eg as [E1 E2].
    apply Nat.eqb_neq in E1, E2. rewrite length_app in E2. simpl in E2.
    split_and!; [done|by intros ->|intros ->; simpl in E2; lia|done].
  - intros (-> & Hn & Hns & Hdot). simpl. rewrite LastIndexByte_app by done.
    rewrite take_app_length, <- drop_drop, drop_app_length, length_app. cbn [length drop]. rewrite drop_0.
    apply nil_length_neq in Hn, Hns.
    rewrite (proj2 (Nat.eqb_neq _ 0)), (proj2 (Nat.eqb_neq _ (_ - 1))) by lia. done.
Qed.

(** *** Hexadecimal *)

Lemma hex_value_digit (n : Z) : 0 ≤ n < 16 → hex_value (hex_digit n) = Some n.
Proof.
  intros Hn. assert (n ∈ seqZ 0 16) as Hin by (apply elem_of_seqZ; lia). clear Hn.
  revert n Hin. apply Forall_forall. vm_compute. repeat constructor.
Qed.

Lemma hex_round_trip (s : gostring) : hex_Decode (hex_Encode s) = Some s.
Proof.
  induction s as [|c s IH]; [done|]. unfold hex_Encode in *. cbn [mbind list_bind hex_Decode app].
  pose proof (bz_range c). rewrite !hex_value_digit by (split; [apply Z.div_pos || apply Z.mod_pos_bound|
    apply Z.div_lt_upper_bound || apply Z.mod_pos_bound]; lia).
  cbn [mbind option_bind]. rewrite IH. cbn [mbind option_bind]. do 2 f_equal.
  rewrite <- Z.div_mod by lia. apply zb_bz.
Qed.

Section Sums.
Context `{HashesLaws}.

Lemma VerifyGenerated_hash (p q : gostring) : VerifyGenerated (HashGenerated q) p = bool_decide (Sum256 q = Sum256 p).
Proof.
  unfold VerifyGenerated, IsGeneratedHash, TrimPrefix, HashGenerated.
  assert (HasPrefix (sha256Prefix ++ hex_Encode (Sum256 q)) sha256Prefix = true) as E
    by (apply HasPrefix_spec; eauto).
  rewrite E. cbn [negb]. rewrite drop_app_length, hex_round_trip, Sum256_length. done.
Qed.
End Sums.

(** *** Base64 *)

(** An alphabet whose characters decode to their values and are no line breaks. *)
Definition alphabet_ok (c62 c63 : ascii) : bool :=
  forallb (λ n, let c := b64_digit c62 c63 n in
    bool_decide (b64_value c62 c63 c = Some n) && negb (Ascii.eqb c CR || Ascii.eqb c LF)) (seqZ 0 64).

Section Base64.
Context (c62 c63 : ascii) (Halpha : alphabet_ok c62 c63 = true).

Lemma b64_digit_ok (n : Z) : 0 ≤ n < 64 →
  b64_value c62 c63 (b64_digit c62 c63 n) = Some n ∧
  negb (Ascii.eqb (b64_digit c62 c63 n) CR || Ascii.eqb (b64_digit c62 c63 n) LF) = true.
Proof.
  intros Hn. unfold alphabet_ok in Halpha. rewrite forallb_forall in Halpha.
  specialize (Halpha n). rewrite <- list_elem_of_In, elem_of_seqZ in Halpha.
  specialize (Halpha ltac:(lia)). apply andb_true_iff in Halpha as [?%bool_decide_eq_true ?]. done.
Qed.

(** The values of an encoding's characters. *)
Fixpoint b64_values (s : gostring) : list Z :=
  match s with
  | [] => []
  | [a] => [bz a / 4; (bz a `mod` 4) * 16]
  | [a; b] => [bz a / 4; (bz a `mod` 4) * 16 + bz b / 16; (bz b `mod` 16) * 4]
  | a :: b :: c :: s =>
      (bz a / 4) :: ((bz a `mod` 4) * 16 + bz b / 16) :: ((bz b `mod` 16) * 4 + bz c / 64)
        :: (bz c `mod` 64) :: b64_values s
  end.

Lemma three_at_a_time (P : gostring → Prop) :
  P [] → (∀ a, P [a]) → (∀ a b, P [a; b]) → (∀ a b c s, P s → P (a :: b :: c :: s)) → ∀ s, P s.
Proof.
  intros H0 H1 H2 H3 s. remember (length s) as n eqn:Hn. revert s Hn.
  induction (lt_wf n) as [n _ IH]. intros [|a [|b [|c s]]] ->; auto.
  apply H3. eapply IH; [|done]. simpl. lia.
Qed.

Lemma b64_Encode_values (s : gostring) : b64_Encode c62 c63 s = b64_digit c62 c63 <$> b64_values s.
Proof. induction s using three_at_a_time; [done..|]. cbn [b64_Encode b64_values fmap list_fmap]. by rewrite IHs. Qed.

Lemma byte_split (c : ascii) (k : Z) : k = 4 ∨ k = 16 ∨ k = 64 →
  0 ≤ bz c / k ≤ 255 / k ∧ 0 ≤ bz c `mod` k < k ∧ bz c = k * (bz c / k) + bz c `mod` k.
Proof.
  pose proof (bz_range c). intros Hk. assert (0 < k) by lia. split_and!.
  - apply Z.div_pos; lia.
  - apply Z.div_le_mono; lia.
  - apply Z.mod_pos_bound. lia.
  - apply Z.mod_pos_bound. lia.
  - apply Z.div_mod. lia.
Qed.

Ltac split_bytes := repeat match goal with
  | c : ascii |- _ =>
      lazymatch goal with
      | _ : bz c = 4 * _ + _ |- _ => fail
      | _ => destruct (byte_split c 4 ltac:(auto)) as (? & ? & ?);
             destruct (byte_split c 16 ltac:(auto)) as (? & ? & ?);
             destruct (byte_split c 64 ltac:(auto)) as (? & ? & ?)
      end
  end; change (255 / 4) with 63 in *; change (255 / 16) with 15 in *; change (255 / 64) with 3 in *.

Lemma b64_values_range (s : gostring) : Forall (λ n, 0 ≤ n < 64) (b64_values s).
Proof.
  induction s using three_at_a_time; cbn [b64_values]; split_bytes; repeat constructor; try done; lia.
Qed.

(** Recombining the pieces of bytes. *)
Lemma rejoin (x k m : Z) : 0 ≤ m < k → (x * k + m) / k = x ∧ (x * k + m) `mod` k = m.
Proof.
  intros Hm. split.
  - rewrite Z.div_add_l by lia. rewrite Z.div_small by lia. lia.
  - rewrite Z.add_comm, Z.mod_add by lia. by apply Z.mod_small.
Qed.

Lemma zb_eq (z : Z) (c : ascii) : z = bz c → zb z = c.
Proof. intros ->. apply zb_bz. Qed.

Lemma b64_groups_values (s : gostring) : b64_groups (b64_values s) = Some s.
Proof.
  induction s using three_at_a_time; cbn [b64_values b64_groups]; [done|..]; split_bytes.
  - do 2 f_equal. apply zb_eq. rewrite Z.div_mul by lia. lia.
  - destruct (rejoin (bz a `mod` 4) 16 (bz b / 16) ltac:(lia)) as [-> ->].
    rewrite Z.div_mul by lia. do 2 f_equal; [|f_equal]; apply zb_eq; lia.
  - rewrite IHs. cbn [mbind option_bind].
    destruct (rejoin (bz a `mod` 4) 16 (bz b / 16) ltac:(lia)) as [-> ->].
    destruct (rejoin (bz b `mod` 16) 4 (bz c / 64) ltac:(lia)) as [-> ->].
    f_equal. f_equal; [|f_equal; [|f_equal]]; apply zb_eq; lia.
Qed.

Lemma b64_round_trip (s : gostring) : b64_Decode c62 c63 (b64_Encode c62 c63 s) = Some s.
Proof.
  unfold b64_Decode. rewrite b64_Encode_values. pose proof (b64_values_range s) as Hr.
  assert (List.filter (λ c, negb (Ascii.eqb c CR || Ascii.eqb c LF)) (b64_digit c62 c63 <$> b64_values s)
    = b64_digit c62 c63 <$> b64_values s) as ->.
  { induction Hr as [|n l Hn _ IH]; [done|]. cbn [fmap list_fmap List.filter].
    destruct (b64_digit_ok n Hn) as [_ ->]. by rewrite IH. }
  assert (mapM (b64_value c62 c63) (b64_digit c62 c63 <$> b64_values s) = Some (b64_values s)) as ->.
  { apply mapM_Some. apply Forall2_fmap_l. apply Forall_Forall2_diag. eapply Forall_impl; [done|].
    intros n Hn. by apply b64_digit_ok. }
  apply b64_groups_values.
Qed.

Lemma b64_Encode_length3 (s : gostring) (n : nat) : length s = (3 * n + 2)%nat →
  length (b64_Encode c62 c63 s) = (4 * n + 3)%nat.
Proof.
  rewrite b64_Encode_values, length_fmap. revert n.
  induction s as [|a|a b|a b c s IH] using three_at_a_time; intros n Hn; simpl in *; try lia.
  destruct n as [|n]; [lia|]. rewrite (IH n) by lia. lia.
Qed.
End Base64.

(** *** argon2id parameters *)

Lemma digits_value_pos (s : gostring) (acc n : Z) : 0 ≤ acc → digits_value acc s = Some n → 0 ≤ n.
Proof.
  revert acc. induction s as [|c s IH]; intros acc Hacc; simpl; [by intros [= <-]|].
  destruct (is_digit c) eqn:E; [|done]. apply IH.
  unfold is_digit, in_range in E. apply andb_true_iff in E as [E%Z.leb_le _].
  change (bz "0") with 48 in E. lia.
Qed.

Lemma ParseUint_range (bits : Z) (s : gostring) (n : Z) : ParseUint bits s = Some n → 0 ≤ n < 2 ^ bits.
Proof.
  unfold ParseUint. destruct s as [|c s]; [done|]. destruct (digits_value 0 (c :: s)) as [m|] eqn:E; simpl; [|done].
  apply digits_value_pos in E; [|lia]. destruct (Z.ltb_spec m (2 ^ bits)); [|done]. intros [= <-]. lia.
Qed.

(** Every accepted hash costs a bounded amount of memory and time, and is strong
    enough; the product that is checked does not overflow. *)
Record argon2_bounded (p : Argon2Params) : Prop := {
  ab_memory : Argon2MinMemoryKiB ≤ a2_MemoryKiB p ≤ Argon2MaxMemoryKiB;
  ab_time : 1 ≤ a2_Time p ≤ Argon2MaxTime;
  ab_strength : Argon2MinMemoryTimeKiB ≤ a2_MemoryKiB p * a2_Time p;
  ab_threads : 1 ≤ a2_Threads p ≤ Argon2MaxThreads;
  ab_salt : (argon2MinSaltLen ≤ length (a2_Salt p))%nat;
  ab_key : (argon2MinKeyLen ≤ length (a2_Key p) ≤ argon2MaxKeyLen)%nat }.

Lemma ParseArgon2id_bounded (phc : gostring) (p : Argon2Params) :
  ParseArgon2id phc = Ok p → argon2_bounded p.
Proof.
  unfold ParseArgon2id. destruct (Split phc c_dollar) as [|p0 [|p1 [|p2 [|p3 [|p4 [|p5 [|]]]]]]];
    try (by destruct (negb (HasPrefix phc "$"))).
  destruct (p0 != []); [by destruct (negb (HasPrefix phc "$"))|]. destruct (p1 != _); [done|].
  destruct (p2 != _); [done|]. intros [[[[m t] p'] seen] [_ E]]%res_bind_Ok. revert E.
  repeat (case_match; try done). intros [= <-]. to_prop. destruct_and?.
  repeat match goal with Hx : (_ <? _)%nat = false |- _ => apply Nat.ltb_ge in Hx end.
  assert (0 ≤ m * t < 2 ^ 64) by (unfold Argon2MinMemoryKiB, Argon2MaxMemoryKiB, Argon2MaxTime in *; nia).
  rewrite Z.mod_small in * by done. split; simpl; lia.
Qed.

(** *** Durations *)

Section Durations.
Context `{FloatNanos}.

Lemma duration_loop_range (fuel : nat) (d0 d : Z) (s : gostring) :
  0 ≤ d0 ≤ 2 ^ 63 → duration_loop fuel d0 s = Some d → 0 ≤ d ≤ 2 ^ 63.
Proof.
  revert d0 s. induction fuel as [|fuel IH]; intros d0 [|c s] Hd0; cbn [duration_loop];
    [by intros [= <-]|done|by intros [= <-]|].
  destruct (negb _); [done|]. destruct (leadingInt 0 (c :: s)) as [[v s1]|]; [|done]. cbn [mbind option_bind].
  destruct (match s1 with [] => _ | _ => _ end) as [[[f scale] s2] post].
  destruct (_ && _); [done|]. destruct (unit_name s2) as [u s3]. destruct (u == []); [done|].
  destruct (unitMap u) as [unit|]; [|done]. cbn [mbind option_bind].
  destruct (_ <? v); [done|]. destruct (_ <? _); [done|].
  destruct (Z.ltb_spec (2 ^ 63) ((d0 + (if 0 <? f then v * unit + fraction_nanos f unit scale else v * unit)) `mod` 2 ^ 64));
    [done|]. apply IH. split; [apply Z.mod_pos_bound; lia|done].
Qed.

Lemma GoParseDuration_range (s : gostring) (d : Duration) :
  GoParseDuration s = Some d → min_int64 ≤ d ≤ max_int64.
Proof.
  unfold GoParseDuration, min_int64, max_int64. destruct (match s with [] => _ | _ => _ end) as [neg t].
  destruct (t == lit "0"); [intros [= <-]; lia|]. destruct (t == []); [done|].
  destruct (duration_loop _ _ _) as [d'|] eqn:E; [|done]. cbn [mbind option_bind].
  apply duration_loop_range in E; [|lia]. destruct neg.
  - intros [= <-]. pose proof (wrap_range 64 (- d') ltac:(lia)). simpl in *. lia.
  - destruct (Z.ltb_spec (2 ^ 63 - 1) d'); [done|]. intros [= <-]. lia.
Qed.

Lemma days_exact (n : Z) : 0 ≤ n < 2 ^ 16 → wrap 64 (wrap 64 (n * 24) * Hour) = n * (24 * Hour).
Proof. intros Hn. unfold Hour. rewrite (wrap_id 64 (n * 24)) by lia. rewrite wrap_id by lia. lia. Qed.

Lemma ParseDuration_range (s : gostring) (d : Duration) :
  ParseDuration s = Ok d → 0 ≤ d ≤ max_int64 ∧
  (∀ days, s = days ++ lit "d" → ∃ n, ParseUint 16 days = Some n ∧ d = n * (24 * Hour)).
Proof.
  unfold ParseDuration. destruct (bool_decide_reflect (s = [])) as [->|Hs].
  { intros [= <-]. split; [unfold max_int64; lia|]. intros days E. by destruct days. }
  rewrite res_bind_Ok. intros (d' & E & Hd). destruct (Z.ltb_spec d' 0); [done|]. simplify_eq.
  destruct (CutSuffix s "d") as [days|] eqn:Ec.
  - destruct (ParseUint 16 days) as [n|] eqn:En; [|done]. simplify_eq.
    pose proof (ParseUint_range _ _ _ En). rewrite days_exact by done. split.
    + unfold max_int64, Hour. lia.
    + intros days' ->. assert (CutSuffix (days' ++ lit "d") "d" = Some days') as E' by (by apply CutSuffix_Some).
      rewrite E' in Ec. simplify_eq. eauto.
  - destruct (GoParseDuration s) eqn:Eg; [|done]. simplify_eq. apply GoParseDuration_range in Eg.
    split; [lia|]. intros days E. exfalso. rewrite (proj2 (CutSuffix_Some s "d" days) E) in Ec. done.
Qed.
End Durations.

(** *** Exclusions *)

Lemma excluded_split (e : Exclusions) (ns : gostring) :
  Excluded e ns = true ↔
  (ex_ReleaseNamespace e ≠ [] ∧ ns = ex_ReleaseNamespace e) ∨
  ns ∈ fst (split e) ∨ ∃ prefix, prefix ∈ snd (split e) ∧ HasPrefix ns prefix = true.
Proof.
  unfold Excluded. assert (existsb (excludedBy ns) (ex_Patterns e) = true ↔
    ns ∈ fst (split e) ∨ ∃ prefix, prefix ∈ snd (split e) ∧ HasPrefix ns prefix = true) as Hp.
  { unfold split. induction (ex_Patterns e) as [|p ps IH]; simpl.
    - split; [done|]. intros [Hx|(? & Hx & _)]; set_solver.
    - rewrite orb_true_iff, IH. unfold excludedBy. destruct (split_patterns ps) as [exact prefixes]. simpl.
      destruct (CutSuffix p _) as [prefix|]; simpl; [|rewrite bool_decide_eq_true]; set_solver. }
  destruct (_ && _) eqn:E; to_prop.
  - split; [|done]. intros _. left. naive_solver.
  - rewrite Hp. naive_solver.
Qed.

(** ** Claims *)

(** A username names exactly one MailCredential: [ParseUsername] answers
    [(namespace, name)] exactly for [Username name namespace] with non-empty parts and
    a namespace without dots, as Kubernetes' are. *)
Theorem username_round_trip (u namespace name : gostring) :
  ParseUsername u = Some (namespace, name) ↔
  u = Username name namespace ∧ name ≠ [] ∧ namespace ≠ [] ∧ c_period ∉ namespace.
Proof. apply ParseUsername_iff. Qed.

(** A generated password verifies against the stored hash of another exactly when
    their SHA-256 sums agree; in particular against its own. *)
Theorem generated_hash_round_trip `{HashesLaws} (p q : gostring) :
  VerifyGenerated (HashGenerated q) p = true ↔ Sum256 q = Sum256 p.
Proof. rewrite VerifyGenerated_hash. apply bool_decide_eq_true. Qed.

(** A generated password is 43 characters and loses none of its 256 bits: different
    random bytes give different passwords. *)
Theorem generated_password_injective (r r' : gostring) :
  length r = 32%nat → length r' = 32%nat →
  length (GeneratePassword r) = 43%nat ∧ (GeneratePassword r = GeneratePassword r' → r = r').
Proof.
  intros Hr Hr'. unfold GeneratePassword. split; [by apply (b64_Encode_length3 _ _ _ 10)|].
  intros E. assert (Some r = Some r') as [= ->]; [|done].
  rewrite <- (b64_round_trip c_minus c_under eq_refl r), E. by apply b64_round_trip.
Qed.

(** An accepted bring-your-own hash keeps one login's cost within bounds: 7 to 64
    MiB, 1 to 10 passes, 1 to 16 threads, a key of 16 to 64 bytes, and memory times
    passes at least 35 MiB, computed without overflow. *)
Theorem argon2id_cost_bounded (phc : gostring) (p : Argon2Params) :
  ParseArgon2id phc = Ok p → argon2_bounded p.
Proof. apply ParseArgon2id_bounded. Qed.

(** Rotation settings: an accepted interval is zero or at least an hour, the grace
    period is not negative, both fit an [int64] duration, and ["<n>d"] means exactly
    [n] days. *)
Theorem rotation_bounded `{FloatNanos} (rot : option CredentialRotation) (interval grace : Duration) :
  ParseRotation rot = Ok (interval, grace) →
  (interval = 0 ∨ Hour ≤ interval ≤ max_int64) ∧ 0 ≤ grace ≤ max_int64 ∧
  ∀ r days n, rot = Some r → rot_Interval r = days ++ lit "d" → ParseUint 16 days = Some n →
    interval = n * (24 * Hour).
Proof.
  unfold ParseRotation. destruct rot as [r|].
  - destruct (ParseDuration (rot_Interval r)) as [i|] eqn:Ei; [|by repeat case_match].
    apply ParseDuration_range in Ei as [Hi Hdays].
    destruct (_ && _) eqn:Em; [by repeat case_match|]. unfold MinRotationInterval in Em. to_prop.
    assert (i = 0 ∨ Hour ≤ i ≤ max_int64) as Hint by (destruct Em; [left|right]; lia).
    assert (∀ r' days n, Some r = Some r' → rot_Interval r' = days ++ lit "d" → ParseUint 16 days = Some n →
      i = n * (24 * Hour)) as Hd.
    { intros ? days n [= <-] E En. destruct (Hdays days E) as (n' & En' & ->). congruence. }
    destruct (rot_GracePeriod r != []).
    + destruct (ParseDuration (rot_GracePeriod r)) eqn:Eg; [|done]. intros [= <- <-].
      apply ParseDuration_range in Eg as [Hg _]. done.
    + intros [= <- <-]. split_and!; try done; unfold DefaultGracePeriod, Hour, max_int64; lia.
  - intros [= <- <-]. split_and!; [by left|unfold DefaultGracePeriod, Hour, max_int64; lia..|done].
Qed.

(** ** Witnesses *)

(** A sum of 32 bytes (a checksum, for evaluation only) and exact fractions. *)
Definition toy_hashes : Hashes := {|
  Sum256 := λ s, take 32 (s ++ replicate 32 NUL);
  IDKey := λ password salt _ _ _ n, take (Z.to_nat n) (password ++ salt ++ replicate 64 NUL) |}.

#[export] Instance toy_hashes_laws : @HashesLaws toy_hashes.
Proof. split. intros s. cbn [Sum256 toy_hashes]. rewrite length_take, length_app, length_replicate. lia. Defined.

Definition exact_fractions : FloatNanos := {| fraction_nanos := λ f unit scale, f * unit / scale |}.

Lemma generated_hash_round_trip_witness :
  @VerifyGenerated toy_hashes (@HashGenerated toy_hashes "secret") "secret" = true ↔
  @Sum256 toy_hashes "secret" = @Sum256 toy_hashes "secret".
Proof. exact (@generated_hash_round_trip toy_hashes toy_hashes_laws "secret" "secret"). Defined.

Lemma generated_password_injective_witness :
  length (GeneratePassword (replicate 32 (zb 7))) = 43%nat ∧
  (GeneratePassword (replicate 32 (zb 7)) = GeneratePassword (replicate 32 (zb 8)) →
   replicate 32 (zb 7) = replicate 32 (zb 8)).
Proof. apply generated_password_injective; reflexivity. Defined.

Definition example_phc : gostring := "$argon2id$v=19$m=19456,t=2,p=1$c2FsdHNhbHQ$AAAAAAAAAAAAAAAAAAAAAA".

Lemma argon2id_cost_bounded_witness :
  argon2_bounded {| a2_MemoryKiB := 19456; a2_Time := 2; a2_Threads := 1; a2_Salt := "saltsalt";
                    a2_Key := replicate 16 NUL |}.
Proof. apply (argon2id_cost_bounded example_phc). vm_compute. reflexivity. Defined.

Lemma rotation_bounded_witness :
  (90 * (24 * Hour) = 0 ∨ Hour ≤ 90 * (24 * Hour) ≤ max_int64) ∧ 0 ≤ 90 * Minute ≤ max_int64 ∧
  ∀ r days n, Some {| rot_Interval := "90d"; rot_GracePeriod := "1.5h" |} = Some r →
    rot_Interval r = days ++ lit "d" → ParseUint 16 days = Some n → 90 * (24 * Hour) = n * (24 * Hour).
Proof.
  apply (@rotation_bounded exact_fractions (Some {| rot_Interval := "90d"; rot_GracePeriod := "1.5h" |})).
  vm_compute. reflexivity.
Defined.
