(* ===== verification/RedisLimit.v ===== *)
(** * The shared rate limiter ([internal/policy/ratelimit]: [redis.go], [config.go])

    Every replica runs the same script on one Redis server, which executes scripts
    one at a time and reads its own clock.  Redis is the parameter [Redis], with what
    its documentation says of the commands the script uses; [slidingWindow] is the
    script, command by command.  The limiter is proved against the specification of
    RateLimit.v, which the in-memory limiter implements too. *)

From S2P Require Import Prelude GoStrings Credential RateLimit.

(** ** Redis *)

(** The sorted set of a key, by score, with its members; the instant (in ms) it
    expires; and the commands, each on one key.  Scores are integers. *)
Class Redis (R : Type) := {
  r_time : R → Z * Z;                              (* TIME: seconds and microseconds *)
  r_set : R → gostring → list (Z * gostring);
  r_expires : R → gostring → option Z;
  PTTL : gostring → R → Z;
  ZREMRANGEBYSCORE : gostring → Z → R → R;         (* from -inf up to this score *)
  ZCOUNT : gostring → Z → R → Z;                   (* above this score *)
  ZRANGE : gostring → Z → R → option Z;            (* the score at this rank, both ends *)
  ZADD : gostring → Z → gostring → R → R;
  PEXPIRE : gostring → Z → R → R;
  ZPOPMAX : gostring → R → R }.

Section script.
Context `{Redis R}.

Definition now_ms (r : R) : Z := let '(s, us) := r_time r in s * 1000 + us / 1000.

Definition scores (r : R) (key : gostring) : list Z := fst <$> r_set r key.

(** One round of the script's loop over the windows. *)
Definition scriptWait (r : R) (key : gostring) (now retry : Z) (w : Z * Z) : Z :=
  let '(limit, size) := w in
  if 0 <? limit then
    if limit <=? ZCOUNT key (now - size) r then
      match ZRANGE key (- limit) r with
      | Some hit => let wait := hit + size - now in if retry <? wait then wait else retry
      | None => retry
      end
    else retry
  else retry.

Definition scriptWindows (limits : Limits) : list (Z * Z) :=
  [(PerMinute limits, 60000); (PerHour limits, 3600000); (PerDay limits, 86400000)].

(** The script; the reply is its two numbers. *)
Definition slidingWindow (key : gostring) (limits : Limits) (member : gostring) (r : R) : R * (Z * Z) :=
  let now := now_ms r in
  let keep := if 0 <? PerDay limits then 86400000 else 3600000 in
  let ttl := PTTL key r in
  let trim := if keep <? ttl then 86400000 else keep in
  let r := ZREMRANGEBYSCORE key (now - trim) r in
  let retry := foldl (scriptWait r key now) (-1) (scriptWindows limits) in
  if 0 <=? retry then (r, (0, retry))
  else
    let r := ZADD key now member r in
    let r := if PTTL key r <? keep then PEXPIRE key keep r else r in
    (r, (1, 0)).

(** ** The limiter *)

Record RedisLimiter := { rl_prefix : gostring; rl_FailOpen : bool }.

Definition NewRedisLimiter (prefix : gostring) (failOpen : bool) : RedisLimiter :=
  {| rl_prefix := if prefix == [] then lit "sigillum:rl:" else prefix; rl_FailOpen := failOpen |}.

(** How a call went: answered, or lost before or after the script ran. *)
Inductive Link := Answers | LostBefore | LostAfter.

(** [member]: 12 random bytes in hex. *)
Definition member_of (random : gostring) : gostring := hex_Encode random.

Definition Redis_Allow (l : RedisLimiter) (link : Link) (random key : gostring) (limits : Limits) (r : R)
    : R * res LimiterError (bool * Duration) :=
  if Limits_None limits then (r, Ok (true, 0))
  else
    let '(r', (ok, retry)) := slidingWindow (rl_prefix l ++ key) limits (member_of random) r in
    let lost r := (r, if rl_FailOpen l then Ok (true, 0) else Err ErrUnavailable) in
    match link with
    | Answers => (r', if ok =? 1 then Ok (true, 0) else Ok (false, ceilToSecond (retry * Millisecond)))
    | LostBefore => lost r
    | LostAfter => lost r'
    end.

Definition Redis_Refund (l : RedisLimiter) (link : Link) (key : gostring) (r : R) : R * res LimiterError unit :=
  match link with
  | Answers => (ZPOPMAX (rl_prefix l ++ key) r, Ok ())
  | LostBefore => (r, Err ErrUnavailable)
  | LostAfter => (ZPOPMAX (rl_prefix l ++ key) r, Err ErrUnavailable)
  end.
End script.

(** ** [config.go] *)

Record LimiterConfig := {
  lc_Backend : gostring; lc_RedisAddrs : gostring; lc_RedisMaster : gostring; lc_RedisDB : Z; lc_RedisTLS : bool;
  lc_RedisKeyPrefix : gostring; lc_FailOpen : bool }.

Inductive BuildError := RedisAddrsRequired | UnknownBackend (b : gostring).

(** Where to connect, and the limiter on it. *)
Record RedisClient := { rc_Addrs : list gostring; rc_MasterName : gostring; rc_DB : Z; rc_TLS : bool; rc_Limiter : RedisLimiter }.

Definition Build (c : LimiterConfig) : res BuildError (MemoryLimiter + RedisClient) :=
  if (lc_Backend c == []) || (lc_Backend c == lit "memory") then Ok (inl NewMemoryLimiter)
  else if lc_Backend c == lit "redis" then
    if lc_RedisAddrs c == [] then Err RedisAddrsRequired
    else Ok (inr {| rc_Addrs := Split (lc_RedisAddrs c) ","%char; rc_MasterName := lc_RedisMaster c; rc_DB := lc_RedisDB c;
                    rc_TLS := lc_RedisTLS c; rc_Limiter := NewRedisLimiter (lc_RedisKeyPrefix c) (lc_FailOpen c) |})
  else Err (UnknownBackend (lc_Backend c)).

(** ** What Redis documents *)

(** A set without members is a missing key. *)
Definition pttl_of (now : Z) (set : list (Z * gostring)) (expires : option Z) : Z :=
  match set, expires with
  | [], _ => -2
  | _, None => -1
  | _, Some e => e - now
  end.

Class RedisLaws (R : Type) `{Redis R} := {
  time_law : ∀ r : R, 0 ≤ fst (r_time r) ∧ 0 ≤ snd (r_time r) < 1000000;
  set_sorted : ∀ (r : R) k, StronglySorted Z.le (scores r k);
  missing_key : ∀ (r : R) k, r_set r k = [] → r_expires r k = None;
  pttl_law : ∀ (r : R) k, PTTL k r = pttl_of (now_ms r) (r_set r k) (r_expires r k);
  zcount_law : ∀ (r : R) k min, ZCOUNT k min r = Z.of_nat (length (filter (λ s, min < s) (scores r k)));
  zrange_law : ∀ (r : R) k n, 0 < n ≤ Z.of_nat (length (scores r k)) →
    ZRANGE k (- n) r = scores r k !! (length (scores r k) - Z.to_nat n)%nat;
  zrem_time : ∀ (r : R) k max, r_time (ZREMRANGEBYSCORE k max r) = r_time r;
  zrem_set : ∀ (r : R) k max, r_set (ZREMRANGEBYSCORE k max r) k = filter (λ e, max < fst e) (r_set r k);
  zrem_expires : ∀ (r : R) k max, r_set (ZREMRANGEBYSCORE k max r) k ≠ [] →
    r_expires (ZREMRANGEBYSCORE k max r) k = r_expires r k;
  zadd_time : ∀ (r : R) k s m, r_time (ZADD k s m r) = r_time r;
  zadd_set : ∀ (r : R) k s m, m ∉ snd <$> r_set r k → r_set (ZADD k s m r) k ≡ₚ (s, m) :: r_set r k;
  zadd_expires : ∀ (r : R) k s m, r_expires (ZADD k s m r) k = r_expires r k;
  pexpire_time : ∀ (r : R) k ms, r_time (PEXPIRE k ms r) = r_time r;
  pexpire_set : ∀ (r : R) k ms, r_set (PEXPIRE k ms r) k = r_set r k;
  pexpire_expires : ∀ (r : R) k ms, r_set r k ≠ [] → r_expires (PEXPIRE k ms r) k = Some (now_ms r + ms);
  zpopmax_time : ∀ (r : R) k, r_time (ZPOPMAX k r) = r_time r;
  zpopmax_set : ∀ (r : R) k, r_set (ZPOPMAX k r) k = take (length (r_set r k) - 1) (r_set r k);
  zpopmax_expires : ∀ (r : R) k, r_set (ZPOPMAX k r) k ≠ [] → r_expires (ZPOPMAX k r) k = r_expires r k;
  other_keys : ∀ (r : R) k k', k ≠ k' →
    (∀ max, r_set (ZREMRANGEBYSCORE k max r) k' = r_set r k' ∧ r_expires (ZREMRANGEBYSCORE k max r) k' = r_expires r k') ∧
    (∀ s m, r_set (ZADD k s m r) k' = r_set r k' ∧ r_expires (ZADD k s m r) k' = r_expires r k') ∧
    (∀ ms, r_set (PEXPIRE k ms r) k' = r_set r k' ∧ r_expires (PEXPIRE k ms r) k' = r_expires r k') ∧
    r_set (ZPOPMAX k r) k' = r_set r k' ∧ r_expires (ZPOPMAX k r) k' = r_expires r k' }.

(** Time passes between two scripts: the clock does not run backwards, and a key is
    kept until its expiry at least. *)
Definition elapses `{Redis R} (r r' : R) : Prop :=
  now_ms r ≤ now_ms r' ∧
  ∀ k, r_set r' k = r_set r k ∧ r_expires r' k = r_expires r k ∨
       ∃ e, r_expires r k = Some e ∧ e ≤ now_ms r' ∧ r_set r' k = [].

(** ** One script is one step of the specification *)

Section sim.
Context `{RedisLaws R}.

(** The history of a key in the units of RateLimit.v. *)
Definition hist_of (r : R) (key : gostring) : history :=
  {| h_hits := (λ s, s * Millisecond) <$> scores r key;
     h_expires := match r_expires r key with Some e => e * Millisecond | None => 0 end |}.

Definition now_of (r : R) : Time := now_ms r * Millisecond.

Lemma sorted_ms (l : list Z) : StronglySorted Z.le l → sorted_hits ((λ s, s * Millisecond) <$> l).
Proof.
  induction 1 as [|x l Hl IH Hx]; [constructor|]. csimpl. constructor; [done|]. apply Forall_fmap.
  eapply Forall_impl; [done|]. intros y Hy. cbn in *. unfold Millisecond in *. lia.
Qed.

Lemma filter_ms (c : Z) (l : list Z) :
  filter (λ t, c * Millisecond < t) ((λ s, s * Millisecond) <$> l) = (λ s, s * Millisecond) <$> filter (λ s, c < s) l.
Proof.
  induction l as [|x l IH]; [done|]. csimpl. rewrite !filter_cons, IH. unfold Millisecond in *.
  destruct (decide (c < x)); [rewrite decide_True by lia|rewrite decide_False by lia]; done.
Qed.

Lemma filter_fst (c : Z) (l : list (Z * gostring)) :
  fst <$> filter (λ e, c < fst e) l = filter (λ s, c < s) (fst <$> l).
Proof. induction l as [|x l IH]; [done|]. csimpl. rewrite !filter_cons. destruct (decide (c < fst x)); csimpl; by rewrite IH. Qed.

(** Hits that no window counts may be dropped. *)
Lemma hist_rel_drop (now : Time) (limits : Limits) (hits : list Time) (e e' : Time) (log : list Time) (cutoff : Time) :
  hist_rel now limits {| h_hits := hits; h_expires := e |} log → cutoff ≤ now - keep limits →
  (filter (λ t, cutoff < t) hits ≠ [] → e' = e) →
  hist_rel now limits {| h_hits := filter (λ t, cutoff < t) hits; h_expires := e' |} log.
Proof.
  intros Hr Hc He'. destruct (hist_rel_sorted _ _ _ _ Hr) as [Hsh _]. destruct Hr as [(pre & -> & Hpre) He Hs Hp]. cbn in *.
  destruct (since_spec hits cutoff Hsh) as (Ht & Hd & _). rewrite <- Hd in *. split; cbn; [| |done..].
  - exists (pre ++ take (since hits cutoff) hits). rewrite <- app_assoc, take_drop. split; [done|].
    apply Forall_app. split; [done|]. rewrite Ht. apply Forall_forall. intros t. rewrite list_elem_of_filter. lia.
  - destruct (drop (since hits cutoff) hits) as [|x l] eqn:E; [constructor|]. rewrite He' by done.
    rewrite <- E. by apply Forall_drop.
Qed.

(** The windows of the script are those of the limits. *)
Definition window_of (w : Z * Z) : window := {| w_limit := fst w; w_size := snd w * Millisecond |}.
Lemma script_windows (limits : Limits) : window_of <$> scriptWindows limits = windows limits.
Proof. done. Qed.

(** A round of the loop, against the rounds of the in-memory limiter. *)
Lemma scriptWait_spec (r : R) (key : gostring) (retry : Z) (w : Z * Z) :
  has_room (now_of r) (h_hits (hist_of r key)) (window_of w) = true ∧ scriptWait r key (now_ms r) retry w = retry ∨
  has_room (now_of r) (h_hits (hist_of r key)) (window_of w) = false ∧
  ∃ hit, scores r key !! (length (scores r key) - Z.to_nat (fst w))%nat = Some hit ∧ now_ms r - snd w < hit ∧
    scriptWait r key (now_ms r) retry w = Z.max retry (hit + snd w - now_ms r).
Proof.
  destruct w as [limit size]. unfold has_room, window_of, now_of, hist_of, younger, scriptWait. cbn [fst snd w_limit w_size h_hits].
  rewrite <- Z.mul_sub_distr_r, filter_ms, length_fmap, zcount_law.
  destruct (Z.ltb_spec 0 limit) as [Hl|Hl].
  2: { left. rewrite (proj2 (Z.leb_le limit 0)) by lia. done. }
  rewrite (proj2 (Z.leb_gt limit 0)) by lia. cbn [orb].
  destruct (Z.leb_spec limit (Z.of_nat (length (filter (λ s, now_ms r - size < s) (scores r key))))) as [Hn|Hn].
  2: { left. split; [by apply Z.ltb_lt|done]. }
  right. rewrite (proj2 (Z.ltb_ge _ _)) by done. split; [done|].
  pose proof (since_spec (scores r key) (now_ms r - size) (set_sorted r key)) as (_ & Hd & Hle).
  rewrite <- Hd, length_drop in Hn. set (k := since _ _) in *.
  set (i := (length (scores r key) - Z.to_nat limit)%nat).
  assert (i < length (scores r key))%nat as Hi by lia. apply lookup_lt_is_Some in Hi as [hit Hhit]. exists hit. split; [done|].
  split.
  - assert (hit ∈ drop k (scores r key)) as Hin.
    { apply (list_elem_of_lookup_2 _ (i - k)). rewrite lookup_drop, <- Hhit. f_equal. lia. }
    rewrite Hd, list_elem_of_filter in Hin. tauto.
  - rewrite zrange_law by lia. fold i. rewrite Hhit. destruct (Z.ltb_spec retry (hit + size - now_ms r)); lia.
Qed.

Lemma script_retry (r : R) (key : gostring) (ws : list (Z * Z)) (retry : Z) :
  let retry' := foldl (scriptWait r key (now_ms r)) retry ws in
  let hits := h_hits (hist_of r key) in
  retry ≤ retry' ∧
  (forallb (has_room (now_of r) hits) (window_of <$> ws) = true → retry' = retry) ∧
  (forallb (has_room (now_of r) hits) (window_of <$> ws) = false → 0 < retry').
Proof.
  revert retry. induction ws as [|w ws IH]; intros retry; cbv zeta; [cbn; split_and!; [lia|done|done]|]. cbn [foldl].
  destruct (IH (scriptWait r key (now_ms r) retry w)) as (H1 & H2 & H3). rewrite !fmap_cons. cbn [forallb].
  destruct (scriptWait_spec r key retry w) as [[Hr Hw]|(Hr & hit & _ & Hh & Hw)]; rewrite Hr; cbn [andb].
  - rewrite Hw in *. done.
  - rewrite Hw in *. split_and!; [lia|done|]. intros _. lia.
Qed.

(** The wait is the in-memory limiter's. *)
Lemma script_wait_memory (r : R) (key : gostring) (ws : list (Z * Z)) (retry : Z) :
  Forall (λ t, t ≤ now_of r) (h_hits (hist_of r key)) → Forall (λ w, 0 < snd w ≤ 86400000) ws →
  Z.max 0 (foldl (scriptWait r key (now_ms r)) retry ws) * Millisecond =
  foldl (windowWait (now_of r) (h_hits (hist_of r key))) (Z.max 0 retry * Millisecond) (window_of <$> ws).
Proof.
  intros Hp Hws. assert (sorted_hits (h_hits (hist_of r key))) as Hs by apply sorted_ms, set_sorted.
  revert retry. induction Hws as [|w ws Hw Hws IH]; intros retry; [done|]. rewrite fmap_cons. cbn [foldl]. rewrite IH. f_equal.
  destruct (scriptWait_spec r key retry w) as [[Hr E]|(Hr & hit & Hh & Hlt & E)]; rewrite E.
  - by rewrite (windowWait_room _ _ Hs).
  - destruct (windowWait_full (now_of r) _ Hs Hp (Z.max 0 retry * Millisecond) (window_of w) Hr) as (t & Ht & _ & ->).
    { unfold window_of, Hour, Millisecond. cbn. lia. }
    cbn [hist_of h_hits window_of w_limit w_size] in Ht |- *. rewrite length_fmap, list_lookup_fmap, Hh in Ht. injection Ht as <-.
    unfold now_of, Millisecond. lia.
Qed.

Lemma has_room_perm (now : Time) (a b : list Time) (w : window) : a ≡ₚ b → has_room now a w = has_room now b w.
Proof. intros Hp. unfold has_room, younger. by rewrite Hp. Qed.

(** The scores after a hit at the current time. *)
Lemma zadd_scores (r : R) (key m : gostring) : m ∉ snd <$> r_set r key → Forall (λ s, s ≤ now_ms r) (scores r key) →
  scores (ZADD key (now_ms r) m r) key = scores r key ++ [now_ms r].
Proof.
  intros Hm Hle. apply (StronglySorted_unique Z.le).
  - apply set_sorted.
  - apply StronglySorted_app. split_and!; [|apply set_sorted|repeat constructor].
    intros x y Hx ->%list_elem_of_singleton. rewrite Forall_forall in Hle. by apply Hle.
  - unfold scores. rewrite zadd_set by done. csimpl. by rewrite Permutation_app_comm.
Qed.

Definition key_rel (r : R) (limits : Limits) (key : gostring) (log : list Time) : Prop :=
  hist_rel (now_of r) limits (hist_of r key) log.

Lemma key_rel_past (r : R) (limits : Limits) (key : gostring) (log : list Time) : key_rel r limits key log →
  Forall (λ t, t ≤ now_of r) (h_hits (hist_of r key)) ∧ Forall (λ s, s ≤ now_ms r) (scores r key).
Proof.
  intros Hr. destruct (hist_rel_sorted _ _ _ _ Hr) as [_ Hp]. split; [done|]. cbn in Hp. rewrite Forall_fmap in Hp.
  eapply Forall_impl; [done|]. intros s Hs. cbn in Hs. unfold now_of, Millisecond in Hs. lia.
Qed.

Lemma keep_ms (limits : Limits) : (if 0 <? PerDay limits then 86400000 else 3600000) * Millisecond = keep limits.
Proof. unfold keep, Hour, Millisecond. by destruct (0 <? PerDay limits). Qed.

Lemma now_ms_time (r r' : R) : r_time r' = r_time r → now_ms r' = now_ms r.
Proof. unfold now_ms. by intros ->. Qed.

Lemma now_ms_pos (r : R) : 0 ≤ now_ms r.
Proof. unfold now_ms. pose proof (time_law r). destruct (r_time r) as [t us]. cbn in *. pose proof (Z.div_pos us 1000). lia. Qed.

(** The trim keeps every hit a window of these limits counts. *)
Lemma trim_rel (r : R) (limits : Limits) (key : gostring) (log : list Time) (trim : Z) :
  key_rel r limits key log → keep limits ≤ trim * Millisecond →
  key_rel (ZREMRANGEBYSCORE key (now_ms r - trim) r) limits key log.
Proof.
  intros Hr Ht. unfold key_rel, hist_of, now_of in *. rewrite (now_ms_time r) by apply zrem_time.
  assert (scores (ZREMRANGEBYSCORE key (now_ms r - trim) r) key = filter (λ s, now_ms r - trim < s) (scores r key)) as Hsc.
  { unfold scores. by rewrite zrem_set, filter_fst. }
  rewrite Hsc, <- filter_ms. apply (hist_rel_drop _ _ _ _ _ _ _ Hr).
  - rewrite Z.mul_sub_distr_r. lia.
  - intros Hne. rewrite zrem_expires; [done|]. intros Hnil. apply Hne.
    rewrite filter_ms, <- Hsc. unfold scores. by rewrite Hnil.
Qed.

Lemma hist_rel_hit (now : Time) (limits : Limits) (hits : list Time) (e e' : Time) (log : list Time) :
  hist_rel now limits {| h_hits := hits; h_expires := e |} log → now + keep limits ≤ e' → (hits ≠ [] → e ≤ e') →
  hist_rel now limits {| h_hits := hits ++ [now]; h_expires := e' |} (log ++ [now]).
Proof.
  intros Hr Hk He'. destruct (hist_rel_admit now limits _ log Hr) as [Hpre _ Hs Hp]. destruct Hr as [_ He _ _]. cbn in *.
  split; cbn; [done| |done|done]. apply Forall_app. split; [|by repeat constructor].
  destruct hits as [|x l]; [constructor|]. eapply Forall_impl; [done|]. cbn. intros t Ht. specialize (He' ltac:(done)). lia.
Qed.

(** The hit is recorded, and the expiry extended if it must be. *)
Lemma hit_rel (r : R) (limits : Limits) (key m : gostring) (log : list Time) (kp : Z) :
  key_rel r limits key log → m ∉ snd <$> r_set r key → kp * Millisecond = keep limits →
  let r1 := ZADD key (now_ms r) m r in
  let r2 := if PTTL key r1 <? kp then PEXPIRE key kp r1 else r1 in
  key_rel r2 limits key (log ++ [now_of r]) ∧ r_time r2 = r_time r.
Proof.
  intros Hr Hm Hkp r1 r2. destruct (key_rel_past _ _ _ _ Hr) as [_ Hle].
  pose proof (zadd_scores r key m Hm Hle) as Hsc. fold r1 in Hsc.
  assert (r_time r1 = r_time r) as Ht1 by apply zadd_time. pose proof (now_ms_time _ _ Ht1) as Hn1.
  assert (r_set r1 key ≠ []) as Hne by (intros Hnil; unfold scores in Hsc; rewrite Hnil in Hsc; by destruct (fst <$> r_set r key)).
  assert (r_time r2 = r_time r) as Ht2 by (unfold r2; destruct (_ <? _); [by rewrite pexpire_time|done]).
  assert (scores r2 key = scores r key ++ [now_ms r]) as Hsc2
    by (unfold r2, scores in *; destruct (_ <? _); [by rewrite pexpire_set|done]).
  assert (∃ e, r_expires r2 key = Some e ∧ now_ms r + kp ≤ e ∧ ∀ e0, r_expires r key = Some e0 → e0 ≤ e) as (e & He & Hge & Hold).
  { unfold r2. rewrite pttl_law, Hn1. unfold r1 at 2. rewrite zadd_expires. fold r1. unfold pttl_of.
    destruct (r_set r1 key) as [|x l] eqn:E; [done|].
    destruct (r_expires r key) as [e0|] eqn:Ee.
    - destruct (Z.ltb_spec (e0 - now_ms r) kp).
      + exists (now_ms r + kp). rewrite pexpire_expires, Hn1 by by rewrite E. split; [done|]. split; [lia|]. intros ? [= <-]. lia.
      + exists e0. unfold r1. rewrite zadd_expires. split; [done|]. split; [lia|]. intros ? [= <-]. lia.
    - assert (-1 <? kp = true) as ->.
      { apply Z.ltb_lt. pose proof (keep_pos limits). unfold Hour, Millisecond in *. lia. }
      exists (now_ms r + kp). rewrite pexpire_expires, Hn1 by by rewrite E. split; [done|]. split; [lia|done]. }
  split; [|done]. unfold key_rel, hist_of, now_of in *. rewrite Hsc2, He, (now_ms_time _ _ Ht2), fmap_app. cbn [fmap list_fmap].
  apply (hist_rel_hit _ _ _ _ _ _ Hr).
  - rewrite <- Hkp. unfold Millisecond. lia.
  - intros Hhits. destruct (r_expires r key) as [e0|] eqn:Ee; [specialize (Hold e0 eq_refl); unfold Millisecond; lia|].
    pose proof (now_ms_pos r). pose proof (keep_pos limits). unfold Hour, Millisecond in *. lia.
Qed.

(** One script is one call of the specification; the wait is the one the in-memory
    limiter would report. *)
Lemma slidingWindow_sim (r r' : R) (limits : Limits) (key m : gostring) (log : list Time) (ok retry : Z) :
  key_rel r limits key log → Limits_None limits = false → m ∉ snd <$> r_set r key →
  slidingWindow key limits m r = (r', (ok, retry)) →
  let '(log', fit) := spec_Allow (now_of r) limits log in
  ok = (if fit : bool then 1 else 0) ∧ key_rel r' limits key log' ∧ r_time r' = r_time r ∧ (ok = 0 → 0 < retry).
Proof.
  intros Hr Hn Hm. unfold slidingWindow. set (kp := if 0 <? PerDay limits then _ else _).
  set (trim := if kp <? _ then _ else _).
  assert (keep limits ≤ trim * Millisecond) as Htrim.
  { rewrite <- keep_ms. fold kp. unfold trim. unfold kp at 2. unfold Millisecond. repeat case_match; lia. }
  pose proof (trim_rel r limits key log trim Hr Htrim) as Hr1. set (r1 := ZREMRANGEBYSCORE _ _ _) in *.
  assert (r_time r1 = r_time r) as Ht1 by apply zrem_time. pose proof (now_ms_time _ _ Ht1) as Hn1.
  rewrite <- Hn1. destruct (script_retry r1 key (scriptWindows limits) (-1)) as (_ & Hroom & Hfull).
  rewrite script_windows in Hroom, Hfull.
  pose proof (fits_rel _ _ _ _ Hr1) as Hf. unfold fits in Hf at 1.
  unfold spec_Allow. rewrite Hn. assert (now_of r = now_of r1) as -> by (unfold now_of; by rewrite Hn1).
  destruct (forallb _ _) eqn:E.
  - rewrite (Hroom eq_refl). cbn [Z.leb]. rewrite <- Hf. intros [= <- <- <-].
    destruct (hit_rel r1 limits key m log kp Hr1) as [Hr2 Ht2]; [|apply keep_ms|].
    { unfold r1. rewrite zrem_set. intros (e & -> & He)%list_elem_of_fmap. apply Hm, list_elem_of_fmap. exists e.
      split; [done|]. by apply list_elem_of_filter in He as [_ He]. }
    split_and!; [done|done|congruence|done].
  - specialize (Hfull eq_refl). rewrite (proj2 (Z.leb_le 0 _)) by lia. rewrite <- Hf. intros [= <- <- <-].
    split_and!; [done|done|done|intros _; exact Hfull].
Qed.

(** A script touches its own key only. *)
Lemma hist_of_eq (r r' : R) (k : gostring) : r_set r' k = r_set r k ∧ r_expires r' k = r_expires r k → hist_of r' k = hist_of r k.
Proof. intros [Hs He]. unfold hist_of, scores. by rewrite Hs, He. Qed.

Lemma slidingWindow_other (r : R) (limits : Limits) (key m k : gostring) : key ≠ k →
  hist_of (fst (slidingWindow key limits m r)) k = hist_of r k.
Proof.
  intros Hne. unfold slidingWindow. set (r1 := ZREMRANGEBYSCORE _ _ _).
  assert (hist_of r1 k = hist_of r k) as H1 by (apply hist_of_eq; destruct (other_keys r key k Hne) as (Hz & _); apply Hz).
  destruct (0 <=? _); [done|]. cbn [fst]. rewrite <- H1. set (r2 := ZADD _ _ _ _).
  assert (hist_of r2 k = hist_of r1 k) as H2 by (apply hist_of_eq; destruct (other_keys r1 key k Hne) as (_ & Hz & _); apply Hz).
  destruct (PTTL _ _ <? _); [|exact H2]. rewrite <- H2. apply hist_of_eq. destruct (other_keys r2 key k Hne) as (_ & _ & Hz & _). apply Hz.
Qed.

Lemma zpopmax_rel (r : R) (limits : Limits) (key : gostring) (log : list Time) :
  key_rel r limits key log → key_rel (ZPOPMAX key r) limits key (spec_Refund log).
Proof.
  intros Hr. pose proof (hist_rel_refund _ _ _ _ Hr) as [Hpre He Hs Hp]. unfold key_rel, hist_of, now_of in *.
  rewrite (now_ms_time r) by apply zpopmax_time. cbn in *.
  assert (scores (ZPOPMAX key r) key = take (length (scores r key) - 1) (scores r key)) as Hsc.
  { unfold scores. by rewrite zpopmax_set, fmap_take, length_fmap. }
  rewrite length_fmap, <- fmap_take, <- Hsc in *. split; cbn; [done| |done|done].
  destruct (scores (ZPOPMAX key r) key) as [|x l] eqn:E; [constructor|].
  rewrite zpopmax_expires; [done|]. intros Hnil. unfold scores in E. by rewrite Hnil in E.
Qed.

Lemma elapses_rel (r r' : R) (limits : Limits) (key : gostring) (log : list Time) :
  elapses r r' → key_rel r limits key log → key_rel r' limits key log.
Proof.
  intros [Hle Hk] Hr. unfold key_rel in *. assert (now_of r ≤ now_of r') as Hn by (unfold now_of, Millisecond; lia).
  apply (hist_rel_later _ _ _ _ _ Hn) in Hr. destruct (Hk key) as [Heq|(e & He & Hexp & Hnil)].
  - by rewrite (hist_of_eq r r').
  - assert (hist_of r' key = emptyHistory) as ->.
    { unfold hist_of, scores. rewrite Hnil, (missing_key r' key Hnil). done. }
    eapply hist_rel_expired; [|exact Hr]. cbn. rewrite He. unfold now_of, Millisecond. lia.
Qed.

(** *** Runs *)

Context (l : RedisLimiter) (lim : gostring → Limits).

(** Calls of any number of replicas, in the order Redis executes them, with the answers
    of the [Allow] calls; Redis' time is the time of a call. *)
Inductive run_redis : R → list op → list bool → Prop :=
| run_done r : run_redis r [] []
| run_elapses r r' ops ans : elapses r r' → run_redis r' ops ans → run_redis r ops ans
| run_allow r r' random key ok retry ops ans :
    member_of random ∉ snd <$> r_set r (rl_prefix l ++ key) →
    Redis_Allow l Answers random key (lim key) r = (r', Ok (ok, retry)) →
    run_redis r' ops ans → run_redis r (OpAllow (now_of r) key :: ops) (ok :: ans)
| run_refund r r' key ops ans :
    Redis_Refund l Answers key r = (r', Ok ()) → run_redis r' ops ans → run_redis r (OpRefund key :: ops) ans.

Definition redis_rel (r : R) (s : logs) : Prop := ∀ key, key_rel r (lim key) (rl_prefix l ++ key) (s key).

Lemma Redis_Allow_sim (r r' : R) (random key : gostring) (ok : bool) (retry : Duration) (s : logs) :
  redis_rel r s → member_of random ∉ snd <$> r_set r (rl_prefix l ++ key) →
  Redis_Allow l Answers random key (lim key) r = (r', Ok (ok, retry)) →
  snd (spec_step lim s (OpAllow (now_of r) key)) = Some ok ∧ redis_rel r' (fst (spec_step lim s (OpAllow (now_of r) key))).
Proof.
  intros Hr Hm. unfold Redis_Allow, spec_step. destruct (Limits_None (lim key)) eqn:Hn.
  { intros [= <- <- <-]. unfold spec_Allow. rewrite Hn. cbn. split; [done|]. intros k. destruct (decide (k = key)) as [->|]; apply Hr. }
  destruct (slidingWindow _ _ _ _) as [r1 [okz rt]] eqn:Es. pose proof (slidingWindow_sim _ _ _ _ _ _ _ _ (Hr key) Hn Hm Es) as Hsim.
  destruct (spec_Allow (now_of r) (lim key) (s key)) as [log' fit]. destruct Hsim as (-> & Hk & Ht & _).
  intros E. assert (r1 = r' ∧ ok = fit) as [-> ->] by (destruct fit; cbn in E; by injection E). cbn [fst snd].
  split; [done|]. intros k. cbn. destruct (decide (k = key)) as [->|Hne]; [done|].
  unfold key_rel, now_of in *. rewrite (now_ms_time _ _ Ht).
  replace r' with (fst (slidingWindow (rl_prefix l ++ key) (lim key) (member_of random) r)) by by rewrite Es.
  rewrite slidingWindow_other; [apply Hr|]. intros ?%app_inv_head. congruence.
Qed.

Lemma Redis_Refund_sim (r : R) (key : gostring) (s : logs) :
  redis_rel r s → redis_rel (ZPOPMAX (rl_prefix l ++ key) r) (fst (spec_step lim s (OpRefund key))).
Proof.
  intros Hr k. cbn. destruct (decide (k = key)) as [->|Hne]; [by apply zpopmax_rel|].
  unfold key_rel, now_of in *. rewrite (now_ms_time r) by apply zpopmax_time.
  rewrite (hist_of_eq r); [apply Hr|]. assert (rl_prefix l ++ key ≠ rl_prefix l ++ k) as Hne' by (intros ?%app_inv_head; congruence).
  destruct (other_keys r _ _ Hne') as (_ & _ & _ & ?). done.
Qed.

End sim.

(** ** The interface *)

(** A replica's view: the server, how its calls go and the random bytes it draws. *)
Record Replica (R : Type) := {
  rp_redis : R; rp_limiter : RedisLimiter; rp_link : nat → Link; rp_random : nat → gostring; rp_calls : nat }.
Arguments rp_redis {R} _. Arguments rp_limiter {R} _. Arguments rp_link {R} _. Arguments rp_random {R} _.
Arguments rp_calls {R} _. Arguments Build_Replica {R} _ _ _ _ _.

Definition called {R} (r : R) (p : Replica R) : Replica R :=
  Build_Replica r (rp_limiter p) (rp_link p) (rp_random p) (S (rp_calls p)).

(** The gateway's clock is not used: Redis has its own. *)
#[export] Instance redisLimiter `{Redis R} : Limiter (Replica R) := {
  Allow _ key limits p :=
    if Limits_None limits then (p, Ok (true, 0))
    else let '(r, a) := Redis_Allow (rp_limiter p) (rp_link p (rp_calls p)) (rp_random p (rp_calls p)) key limits (rp_redis p) in
         (called r p, a);
  Refund _ key p :=
    let '(r, a) := Redis_Refund (rp_limiter p) (rp_link p (rp_calls p)) key (rp_redis p) in (called r p, a) }.

Lemma ceilToSecond_min (d : Duration) : Second ≤ ceilToSecond d.
Proof.
  destruct (decide (0 < d)) as [Hd|Hd]; [by apply ceilToSecond_spec|].
  unfold ceilToSecond. by rewrite (proj2 (Z.leb_le d 0)) by lia.
Qed.

(** So every theorem about the gateway holds with this limiter too. *)
#[export] Instance redisLimiter_laws `{Redis R} : LimiterLaws (Replica R).
Proof.
  split.
  - intros now key limits p Hn. cbn. by rewrite Hn.
  - intros now key limits p ok retry. cbn. destruct (Limits_None limits) eqn:Hn; [by intros [= <- <-]|].
    destruct (Redis_Allow _ _ _ _ _ _) as [r a] eqn:E. cbn. intros ->. unfold Redis_Allow in E. rewrite Hn in E.
    destruct (slidingWindow _ _ _ _) as [r1 [okz rt]].
    destruct (rp_link p (rp_calls p)); [destruct (okz =? 1)|destruct (rl_FailOpen _)..];
      injection E; intros; simplify_eq; try done. apply ceilToSecond_min.
Qed.

(** While Redis does not answer, a limiter that fails closed admits nothing: the caller
    is told the limiter is unavailable. *)
Theorem redis_fails_closed `{Redis R} (l : RedisLimiter) (link : Link) (random key : gostring) (limits : Limits) (r : R) :
  rl_FailOpen l = false → link ≠ Answers → Limits_None limits = false →
  snd (Redis_Allow l link random key limits r) = Err ErrUnavailable.
Proof.
  intros Hf Hl Hn. unfold Redis_Allow. rewrite Hn, Hf. destruct (slidingWindow _ _ _ _) as [r1 [okz rt]]. by destruct link.
Qed.

(** ** Witnesses *)

Module RedisExample.

(** A Redis in memory: each key's set (kept sorted) and expiry, at one instant. *)
Record mem := { me_time : N * N; me_keys : gmap gostring (list (Z * gostring) * option Z) }.

Definition set_of (r : mem) (k : gostring) : list (Z * gostring) := match me_keys r !! k with Some (s, _) => s | None => [] end.
Definition ttl_of (r : mem) (k : gostring) : option Z :=
  match me_keys r !! k with Some (_ :: _, e) => e | _ => None end.
Definition put (k : gostring) (s : list (Z * gostring)) (e : option Z) (r : mem) : mem :=
  {| me_time := me_time r; me_keys := <[k := (s, e)]> (me_keys r) |}.
Definition time_of (r : mem) : Z * Z := (Z.of_N (fst (me_time r)), Z.of_N (snd (me_time r) mod 1000000)).
Definition ms_of (r : mem) : Z := let '(s, us) := time_of r in s * 1000 + us / 1000.
Definition lower (a b : Z * gostring) : bool := fst a <? fst b.
Definition by_score : list (Z * gostring) → list (Z * gostring) := SliceStable lower.

#[local] Instance mem_redis : Redis mem := {|
  r_time := time_of; r_set := λ r k, by_score (set_of r k); r_expires := ttl_of;
  PTTL := λ k r, pttl_of (ms_of r) (by_score (set_of r k)) (ttl_of r k);
  ZREMRANGEBYSCORE := λ k max r, put k (filter (λ e, max < fst e) (by_score (set_of r k))) (ttl_of r k) r;
  ZCOUNT := λ k min r, Z.of_nat (length (filter (λ s, min < s) (fst <$> by_score (set_of r k))));
  ZRANGE := λ k n r, let s := fst <$> by_score (set_of r k) in s !! (length s - Z.to_nat (- n))%nat;
  ZADD := λ k s m r, put k ((s, m) :: set_of r k) (ttl_of r k) r;
  PEXPIRE := λ k ms r, put k (set_of r k) (Some (ms_of r + ms)) r;
  ZPOPMAX := λ k r, let s := by_score (set_of r k) in put k (take (length s - 1) s) (ttl_of r k) r |}.

#[local] Instance lower_order : WeakOrder lower.
Proof. split; unfold lower; intros; rewrite ?Z.ltb_lt, ?Z.ltb_ge in *; lia. Qed.

Lemma by_score_sorted (l : list (Z * gostring)) : StronglySorted (λ a b, lower b a = false) (by_score l).
Proof. apply SliceStable_sorted. apply _. Qed.

Lemma by_score_id (l : list (Z * gostring)) : StronglySorted (λ a b, lower b a = false) l → by_score l = l.
Proof.
  induction 1 as [|x l Hl IH Hx]; [done|]. unfold by_score, SliceStable in *. cbn [foldr]. rewrite IH.
  destruct l as [|y l]; [done|]. apply Forall_cons in Hx as [Hy _]. cbn [insert_stable]. by rewrite Hy.
Qed.

Lemma sublist_sorted (l k : list (Z * gostring)) : k `sublist_of` l → StronglySorted (λ a b, lower b a = false) l →
  StronglySorted (λ a b, lower b a = false) k.
Proof.
  induction 1 as [|x l k Hs IH|x l k Hs IH]; intros Hl; [constructor|..]; apply StronglySorted_inv in Hl as [Hl Hx].
  - constructor; [by apply IH|]. rewrite Forall_forall in *. intros y Hy. apply Hx. by eapply elem_of_sublist.
  - by apply IH.
Qed.

Lemma set_of_put (k k' : gostring) s e (r : mem) : set_of (put k s e r) k' = if decide (k = k') then s else set_of r k'.
Proof.
  unfold set_of, put. cbn. case_decide as E; [subst; by rewrite lookup_insert_eq|by rewrite lookup_insert_ne].
Qed.
Lemma ttl_of_put (k k' : gostring) s e (r : mem) :
  ttl_of (put k s e r) k' = if decide (k = k') then match s with [] => None | _ => e end else ttl_of r k'.
Proof.
  unfold ttl_of, put. cbn. case_decide as E; [subst; rewrite lookup_insert_eq; by destruct s|by rewrite lookup_insert_ne].
Qed.

Lemma by_score_nil (l : list (Z * gostring)) : by_score l = [] → l = [].
Proof. intros E. pose proof (SliceStable_perm lower l) as Hp. unfold by_score in E. rewrite E in Hp. by apply Permutation_nil. Qed.

Lemma put_other (k k' : gostring) s e (r : mem) : k ≠ k' →
  by_score (set_of (put k s e r) k') = by_score (set_of r k') ∧ ttl_of (put k s e r) k' = ttl_of r k'.
Proof. intros Hne. rewrite set_of_put, ttl_of_put, !decide_False by done. done. Qed.

#[local] Instance mem_laws : RedisLaws mem.
Proof.
  split; cbn -[put].
  - intros r. split; [apply N2Z.is_nonneg|]. split; [apply N2Z.is_nonneg|].
    assert (snd (me_time r) mod 1000000 < 1000000)%N by by apply N.mod_lt. lia.
  - intros r k. unfold scores. cbn. pose proof (by_score_sorted (set_of r k)) as Hs. induction Hs as [|x l Hl IH Hx]; [constructor|].
    csimpl. constructor; [done|]. apply Forall_fmap. eapply Forall_impl; [done|]. intros y Hy. unfold lower in Hy. cbn. apply Z.ltb_ge in Hy. lia.
  - intros r k Hn%by_score_nil. unfold set_of, ttl_of in *. destruct (me_keys r !! k) as [[[] ?]|]; done.
  - done.
  - done.
  - intros r k n Hn. by rewrite Z.opp_involutive.
  - done.
  - intros r k max. rewrite set_of_put, decide_True by done. apply by_score_id. eapply sublist_sorted; [|apply by_score_sorted].
    apply sublist_filter.
  - intros r k max. rewrite set_of_put, ttl_of_put, !decide_True by done. by destruct (filter _ _).
  - done.
  - intros r k s m _. rewrite set_of_put, decide_True by done. unfold by_score. by rewrite !SliceStable_perm.
  - intros r k s m. by rewrite ttl_of_put, decide_True.
  - done.
  - intros r k ms. by rewrite set_of_put, decide_True.
  - intros r k ms Hne. rewrite ttl_of_put, decide_True by done. destruct (set_of r k); [done|]. done.
  - done.
  - intros r k. rewrite set_of_put, decide_True by done. apply by_score_id. eapply sublist_sorted; [|apply by_score_sorted]. apply sublist_take.
  - intros r k. rewrite set_of_put, ttl_of_put, !decide_True by done. by destruct (take _ _).
  - intros r k k' Hne. split_and!; intros; by apply put_other.
Qed.

Definition limiter : RedisLimiter := NewRedisLimiter [] false.
Definition two (key : gostring) : Limits := {| PerMinute := 2; PerHour := 0; PerDay := 0 |}.
Definition at_ms (ms : N) (r : mem) : mem := {| me_time := (0%N, (ms * 1000)%N); me_keys := me_keys r |}.

Definition r0 : mem := {| me_time := (0%N, 5000%N); me_keys := ∅ |}.
Definition hit (random : string) (r : mem) := Redis_Allow limiter Answers random "team/app" (two "team/app") r.
Definition r1 : mem := fst (hit "a" r0).
Definition r2 : mem := fst (hit "b" r1).

Example third_waits : snd (hit "c" r2) = Ok (false, 60 * Second).
Proof. vm_compute. reflexivity. Qed.

Lemma hits_run : run_redis limiter two r0
  [OpAllow (now_of r0) "team/app"; OpAllow (now_of r1) "team/app"; OpAllow (now_of r2) "team/app"] [true; true; false].
Proof.
  refine (run_allow limiter two r0 r1 (lit "a") (lit "team/app") true 0 _ _ _ _ _).
  { vm_compute. by intros ?%not_elem_of_nil. }
  { match goal with |- ?a = ?b => exact (eq_refl b <: a = b) end. }
  refine (run_allow limiter two r1 r2 (lit "b") (lit "team/app") true 0 _ _ _ _ _).
  { apply (bool_decide_unpack _). vm_compute. exact I. }
  { match goal with |- ?a = ?b => exact (eq_refl b <: a = b) end. }
  refine (run_allow limiter two r2 (fst (hit "c" r2)) (lit "c") (lit "team/app") false (60 * Second) _ _ _ _ (run_done _ _ _)).
  { apply (bool_decide_unpack _). vm_compute. exact I. }
  { match goal with |- ?a = ?b => exact (eq_refl b <: a = b) end. }
Qed.


Lemma redis_fails_closed_witness : snd (Redis_Allow limiter LostBefore "a" "team/app" (two "team/app") r0) = Err ErrUnavailable.
Proof. apply (redis_fails_closed limiter LostBefore "a" "team/app" (two "team/app") r0); [reflexivity|discriminate|reflexivity]. Defined.
End RedisExample.
