(* ===== verification/Verifier.v ===== *)
(** * Verification of SMTP logins ([internal/credential/verifier.go])

    Logins are checked against the MailCredentials of the informer cache ([reader]);
    each message of a session checks again that the login still holds.  The LRU cache
    of argon2id successes is the parameter [LRU], Kubernetes' condition helpers are
    [MetaConditions]; waiting for a verification slot is an input. *)

From S2P Require Import Prelude GoStrings Types Credential.

(** ** Parameters *)

(** [meta.FindStatusCondition] and [meta.SetStatusCondition]. *)
Class MetaConditions := {
  FindStatusCondition : list Condition → gostring → option Condition;
  SetStatusCondition : list Condition → Condition → Time → list Condition }.

(** Their documented behaviour: the condition of the type, if any; setting one makes
    it the condition of its type, keeps the others, and stamps the transition time
    when the status changes. *)
Class MetaConditionsLaws `{MetaConditions} := {
  find_condition_some : ∀ cs t c, FindStatusCondition cs t = Some c → c ∈ cs ∧ c_Type c = t;
  find_condition_none : ∀ cs t, FindStatusCondition cs t = None → ∀ c, c ∈ cs → c_Type c ≠ t;
  find_set_same : ∀ cs c now, ∃ since, FindStatusCondition (SetStatusCondition cs c now) (c_Type c) =
    Some {| c_Type := c_Type c; c_Status := c_Status c; c_ObservedGeneration := c_ObservedGeneration c;
            c_LastTransitionTime := since; c_Reason := c_Reason c; c_Message := c_Message c |};
  find_set_other : ∀ cs c now t, t ≠ c_Type c →
    FindStatusCondition (SetStatusCondition cs c now) t = FindStatusCondition cs t }.

(** A bounded cache: lookups may reorder it, adding may evict. *)
Class LRU (C : Type) := {
  lru_get : gostring → C → option Time * C;
  lru_add : gostring → Time → C → C }.

(** What a lookup can find: entries that were added. *)
Class LRULaws (C : Type) `{LRU C} := {
  lru_get_get : ∀ k k' c v, fst (lru_get k' (snd (lru_get k c))) = Some v → fst (lru_get k' c) = Some v;
  lru_get_add : ∀ k v k' (c : C) w, fst (lru_get k' (lru_add k v c)) = Some w →
    (k' = k ∧ w = v) ∨ fst (lru_get k' c) = Some w }.

(** ** Definitions *)

Inductive GetError := GetNotFound | GetFailed.
Inductive VerifyError := ErrInvalid | LookupFailed | Cancelled.

Record Result := {
  r_Namespace : gostring; r_ServiceAccount : gostring; r_Username : gostring; r_Previous : bool;
  r_uid : gostring; r_hash : gostring }.

Definition argonCacheTTL : Duration := 5 * Minute.

(** The informer cache: [client.Reader.Get] of a namespaced name. *)
Definition reader := gostring → gostring → res GetError MailCredential.

Section Definitions.
Context `{MetaConditions, Hashes, LRU C}.

Definition Usable (mc : MailCredential) : bool :=
  match FindStatusCondition (mcst_Conditions (mc_Status mc)) ConditionReady with
  | None => false
  | Some ready =>
      if (c_Status ready != ConditionTrue)
         || (mcst_ServiceAccountName (mc_Status mc) != mcs_ServiceAccountName (mc_Spec mc)) then false
      else if negb (Generated mc) then
        match mcst_Current (mc_Status mc) with
        | None => false
        | Some cur => ch_Hash cur == mcs_PasswordHash (mc_Spec mc)
        end
      else true
  end.

Definition Lookup (get : reader) (username : gostring) : res VerifyError MailCredential :=
  match ParseUsername username with
  | None => Err ErrInvalid
  | Some (ns, name) =>
      match get ns name with
      | Err GetNotFound => Err ErrInvalid
      | Err GetFailed => Err LookupFailed
      | Ok mc => if negb (Usable mc) || (mcst_Username (mc_Status mc) != username) then Err ErrInvalid
                 else Ok mc
      end
  end.

Definition cacheKey (username phc password : gostring) : gostring :=
  Sum256 (username ++ [NUL] ++ phc ++ [NUL] ++ password).

(** [slot] is whether a slot was acquired before the context ended. *)
Definition verifyArgon2id (now : Time) (slot : bool) (username phc password : gostring) (c : C)
    : C * res VerifyError bool :=
  let key := cacheKey username phc password in
  let '(exp, c) := lru_get key c in
  if match exp with Some e => now <? e | None => false end then (c, Ok true)
  else if negb slot then (c, Err Cancelled)
  else match VerifyArgon2id phc password with
       | Err _ => (c, Ok false)
       | Ok true => (lru_add key (now + argonCacheTTL) c, Ok true)
       | Ok false => (c, Ok false)
       end.

Definition result_of (mc : MailCredential) (hash : gostring) (previous : bool) : Result :=
  {| r_Namespace := mc_Namespace mc; r_ServiceAccount := mcs_ServiceAccountName (mc_Spec mc);
     r_Username := mcst_Username (mc_Status mc); r_Previous := previous;
     r_uid := om_UID (mc_Meta mc); r_hash := hash |}.

Definition Check (now : Time) (slot : bool) (mc : MailCredential) (password : gostring) (c : C)
    : C * res VerifyError Result :=
  if password == [] then (c, Err ErrInvalid)
  else if negb (Generated mc) then
    let '(c, r) := verifyArgon2id now slot (mcst_Username (mc_Status mc)) (mcs_PasswordHash (mc_Spec mc)) password c in
    (c, match r with
        | Err e => Err e
        | Ok false => Err ErrInvalid
        | Ok true => Ok (result_of mc (mcs_PasswordHash (mc_Spec mc)) false)
        end)
  else
    let current := match mcst_Current (mc_Status mc) with
      | Some cur => if VerifyGenerated (ch_Hash cur) password then Some (ch_Hash cur) else None
      | None => None end in
    let previous := match mcst_Previous (mc_Status mc) with
      | Some prev => if (now <? ph_ValidUntil prev) && VerifyGenerated (ph_Hash prev) password
                     then Some (ph_Hash prev) else None
      | None => None end in
    (c, match current, previous with
        | Some h, _ => Ok (result_of mc h false)
        | None, Some h => Ok (result_of mc h true)
        | None, None => Err ErrInvalid
        end).

Definition Verify (get : reader) (now : Time) (slot : bool) (username password : gostring) (c : C)
    : C * res VerifyError Result :=
  match Lookup get username with
  | Err e => (c, Err e)
  | Ok mc => Check now slot mc password c
  end.

Definition nameOf (username : gostring) : gostring :=
  match ParseUsername username with Some (_, name) => name | None => [] end.

(** Whether the login still holds, and whether its password is now the previous one. *)
Definition StillValid (get : reader) (now : Time) (r : Result) : res VerifyError bool :=
  match get (r_Namespace r) (nameOf (r_Username r)) with
  | Err GetNotFound => Err ErrInvalid
  | Err GetFailed => Err LookupFailed
  | Ok mc =>
      if (om_UID (mc_Meta mc) != r_uid r) || negb (Usable mc)
         || (mcs_ServiceAccountName (mc_Spec mc) != r_ServiceAccount r) then Err ErrInvalid
      else if negb (Generated mc) then
        if mcs_PasswordHash (mc_Spec mc) == r_hash r then Ok false else Err ErrInvalid
      else if negb (IsGeneratedHash (r_hash r)) then Err ErrInvalid
      else if match mcst_Current (mc_Status mc) with
              | Some cur => ch_Hash cur == r_hash r | None => false end then Ok false
      else match mcst_Previous (mc_Status mc) with
           | Some prev => if (ph_Hash prev == r_hash r) && (now <? ph_ValidUntil prev) then Ok true
                          else Err ErrInvalid
           | None => Err ErrInvalid
           end
  end.
End Definitions.

(** ** What a login shows *)

Section Facts.
Context `{MetaConditions, Hashes, LRU C}.

(** The password matches what the credential holds at [now]: the current generated
    hash, the previous one within its grace period, or the user's argon2id hash
    (verified now, or remembered from a verification less than the TTL ago). *)
Inductive password_ok (now : Time) (mc : MailCredential) (password : gostring) (c : C) (hash : gostring)
    (previous : bool) : Prop :=
| ok_current cur : Generated mc = true → mcst_Current (mc_Status mc) = Some cur → hash = ch_Hash cur →
    previous = false → VerifyGenerated hash password = true → password_ok now mc password c hash previous
| ok_previous prev : Generated mc = true → mcst_Previous (mc_Status mc) = Some prev → hash = ph_Hash prev →
    previous = true → now < ph_ValidUntil prev → VerifyGenerated hash password = true →
    password_ok now mc password c hash previous
| ok_argon2id : Generated mc = false → hash = mcs_PasswordHash (mc_Spec mc) → previous = false →
    VerifyArgon2id hash password = Ok true → password_ok now mc password c hash previous
| ok_cached exp : Generated mc = false → hash = mcs_PasswordHash (mc_Spec mc) → previous = false →
    fst (lru_get (cacheKey (mcst_Username (mc_Status mc)) hash password) c) = Some exp → now < exp →
    password_ok now mc password c hash previous.

Lemma Check_ok (now : Time) (slot : bool) (mc : MailCredential) (password : gostring) (c : C) (r : Result) :
  snd (Check now slot mc password c) = Ok r →
  password ≠ [] ∧ r = result_of mc (r_hash r) (r_Previous r) ∧
  password_ok now mc password c (r_hash r) (r_Previous r).
Proof.
  unfold Check. destruct (bool_decide_reflect (password = [])); [done|].
  destruct (Generated mc) eqn:Eg; simpl.
  - destruct (mcst_Current (mc_Status mc)) as [cur|] eqn:Ec.
    + destruct (VerifyGenerated (ch_Hash cur) password) eqn:Ev.
      { intros [= <-]. split_and!; [done..|]. by eapply ok_current. }
      destruct (mcst_Previous (mc_Status mc)) as [prev|] eqn:Ep; [|done].
      destruct (_ && _) eqn:Ea; [|done]. to_prop. destruct Ea. intros [= <-]. split_and!; [done..|].
      by eapply ok_previous.
    + destruct (mcst_Previous (mc_Status mc)) as [prev|] eqn:Ep; [|done].
      destruct (_ && _) eqn:Ea; [|done]. to_prop. destruct Ea. intros [= <-]. split_and!; [done..|].
      by eapply ok_previous.
  - unfold verifyArgon2id. set (k := cacheKey _ _ _). destruct (lru_get k c) as [exp c'] eqn:Eget.
    destruct exp as [e|]; [destruct (Z.ltb_spec now e)|]; simpl.
    { intros [= <-]. split_and!; [done..|]. eapply (ok_cached _ _ _ _ _ _ e); try done. simpl. fold k. by rewrite Eget. }
    all: destruct slot; simpl; [|done];
      destruct (VerifyArgon2id _ password) as [[]|] eqn:Ev; simpl; try done;
      intros [= <-]; split_and!; [done..|]; by eapply ok_argon2id.
Qed.

Lemma Lookup_ok (get : reader) (username : gostring) (mc : MailCredential) :
  Lookup get username = Ok mc →
  ∃ ns name, ParseUsername username = Some (ns, name) ∧ get ns name = Ok mc ∧ Usable mc = true ∧
    mcst_Username (mc_Status mc) = username.
Proof.
  unfold Lookup. destruct (ParseUsername username) as [[ns name]|]; [|done].
  destruct (get ns name) as [m|[]] eqn:E; [|done..]. destruct (_ || _) eqn:Eo; [done|]. intros [= ->].
  to_prop. destruct Eo as [? ?]. exists ns, name. done.
Qed.

Lemma Verify_ok (get : reader) (now : Time) (slot : bool) (username password : gostring) (c : C) (r : Result) :
  snd (Verify get now slot username password c) = Ok r →
  ∃ ns name mc, ParseUsername username = Some (ns, name) ∧ get ns name = Ok mc ∧ Usable mc = true ∧
    mcst_Username (mc_Status mc) = username ∧ password ≠ [] ∧
    r = result_of mc (r_hash r) (r_Previous r) ∧ password_ok now mc password c (r_hash r) (r_Previous r).
Proof.
  unfold Verify. destruct (Lookup get username) as [mc|] eqn:E; [|done]. intros Hc%Check_ok.
  apply Lookup_ok in E as (ns & name & ? & ? & ? & ?). destruct Hc as (? & ? & ?). naive_solver.
Qed.

Lemma VerifyGenerated_prefix (hash password : gostring) :
  VerifyGenerated hash password = true → IsGeneratedHash hash = true.
Proof. unfold VerifyGenerated. by destruct (IsGeneratedHash hash). Qed.
End Facts.

Section Claims.
Context `{MetaConditionsLaws, Hashes, LRU C}.


(** An accepted login is confirmed against the state it was made in. *)
Lemma fresh_login_confirmed (get : reader) (now : Time) (slot : bool) (username password : gostring) (c : C)
    (r : Result) :
  snd (Verify get now slot username password c) = Ok r →
  (∀ ns name mc, get ns name = Ok mc → mc_Namespace mc = ns) →
  ∃ previous, StillValid get now r = Ok previous ∧ (previous = true → r_Previous r = true).
Proof.
  intros (ns & name & mc & Hp & Hg & Hu & Hun & Hpw & Hr & Hok)%Verify_ok Hns. rewrite Hr. unfold StillValid.
  cbn [result_of r_Namespace r_Username r_uid r_ServiceAccount r_hash r_Previous].
  rewrite Hun. unfold nameOf. rewrite Hp, (Hns _ _ _ Hg), Hg, Hu.
  rewrite !(bool_decide_eq_true_2 (_ = _)) by done. simpl.
  destruct Hok as [cur Eg Ecur Eh Epr Ev|prev Eg Epv Eh Epr Hlt Ev|Eg Eh Epr Ev|exp Eg Eh Epr Ev Hlt]; rewrite Eg, Epr; simpl.
  - rewrite (VerifyGenerated_prefix _ _ Ev), Ecur. simpl. rewrite bool_decide_eq_true_2 by done. eauto.
  - rewrite (VerifyGenerated_prefix _ _ Ev). simpl.
    destruct (match mcst_Current (mc_Status mc) with Some _ => _ | None => _ end); [eauto|].
    rewrite Epv, (proj2 (Z.ltb_lt _ _) Hlt), bool_decide_eq_true_2 by done. eauto.
  - rewrite bool_decide_eq_true_2 by done. eauto.
  - rewrite bool_decide_eq_true_2 by done. eauto.
Qed.

(** A fresh login holds: asked about the same credential at the same time,
    [StillValid] confirms an accepted login and reports the same use of a previous
    password, or that the password has meanwhile become current again; never that it
    was revoked. *)
Theorem fresh_login_valid (get : reader) (now : Time) (slot : bool) (username password : gostring) (c : C)
    (r : Result) :
  snd (Verify get now slot username password c) = Ok r →
  (∀ ns name mc, get ns name = Ok mc → mc_Namespace mc = ns) →
  ∃ previous, StillValid get now r = Ok previous ∧ (previous = true → r_Previous r = true).
Proof. apply fresh_login_confirmed. Qed.

(** C19. Revocation cuts off open sessions: if [StillValid] confirms a login, the same
    object (by UID) still exists and is Ready with the login's ServiceAccount, and the
    hash that matched is its current password, its previous one with grace left
    (reported as such), or the user's hash. *)
Theorem still_valid_sound (get : reader) (now : Time) (r : Result) (previous : bool) :
  StillValid get now r = Ok previous →
  ∃ mc, get (r_Namespace r) (nameOf (r_Username r)) = Ok mc ∧ om_UID (mc_Meta mc) = r_uid r ∧
    Usable mc = true ∧ mcs_ServiceAccountName (mc_Spec mc) = r_ServiceAccount r ∧
    if Generated mc then
      IsGeneratedHash (r_hash r) = true ∧
      if previous
      then ∃ prev, mcst_Previous (mc_Status mc) = Some prev ∧ ph_Hash prev = r_hash r ∧ now < ph_ValidUntil prev
      else ∃ cur, mcst_Current (mc_Status mc) = Some cur ∧ ch_Hash cur = r_hash r
    else previous = false ∧ mcs_PasswordHash (mc_Spec mc) = r_hash r.
Proof.
  unfold StillValid. destruct (get _ _) as [mc|[]] eqn:Eg; [|done..].
  destruct (_ || _) eqn:Eo; [done|]. rewrite !orb_false_iff, !negb_false_iff, !bool_decide_eq_true in Eo.
  destruct Eo as [[Hu1 Hu2] Hu3]. intros Hv. exists mc. split_and!; [done..|].
  destruct (Generated mc); simpl in Hv.
  - destruct (IsGeneratedHash (r_hash r)); [|done]. split; [done|]. simpl in Hv.
    destruct (match mcst_Current (mc_Status mc) with Some _ => _ | None => _ end) eqn:Ec.
    + simplify_eq. destruct (mcst_Current (mc_Status mc)) as [cur|]; [|done]. to_prop. eauto.
    + destruct (mcst_Previous (mc_Status mc)) as [prev|]; [|done]. destruct (_ && _) eqn:Ea; [|done].
      to_prop. destruct Ea. eauto.
  - case_bool_decide; [|done]. by simplify_eq.
Qed.
End Claims.

(** ** The cache of argon2id successes *)

Record argon_call := { ac_now : Time; ac_slot : bool; ac_user : gostring; ac_phc : gostring; ac_password : gostring }.

Section Cache.
Context `{Hashes, LRULaws C}.

Definition do_call (a : argon_call) (c : C) : C * res VerifyError bool :=
  verifyArgon2id (ac_now a) (ac_slot a) (ac_user a) (ac_phc a) (ac_password a) c.

Definition do_calls (cs : list argon_call) (c : C) : C := foldl (λ c a, fst (do_call a c)) c cs.

(** Every entry stems from a call of [cs] whose password argon2id accepted. *)
Definition cache_inv (cs : list argon_call) (c : C) : Prop :=
  ∀ k exp, fst (lru_get k c) = Some exp →
    ∃ a, a ∈ cs ∧ k = cacheKey (ac_user a) (ac_phc a) (ac_password a) ∧ exp = ac_now a + argonCacheTTL ∧
      VerifyArgon2id (ac_phc a) (ac_password a) = Ok true.

Lemma cache_inv_weaken (cs cs' : list argon_call) (c c' : C) :
  (∀ k v, fst (lru_get k c') = Some v → fst (lru_get k c) = Some v) → cs ⊆ cs' →
  cache_inv cs c → cache_inv cs' c'.
Proof. intros Hsub Hcs Hc k v Hk. destruct (Hc k v (Hsub _ _ Hk)) as (a & Ha & ?). exists a. set_solver. Qed.

Lemma cache_inv_step (cs : list argon_call) (a : argon_call) (c : C) :
  cache_inv cs c → cache_inv (cs ++ [a]) (fst (do_call a c)).
Proof.
  intros Hc. unfold do_call, verifyArgon2id. set (k := cacheKey _ _ _).
  pose proof (lru_get_get k) as Hgg. destruct (lru_get k c) as [exp c'] eqn:E.
  assert (cache_inv (cs ++ [a]) c') as Hc'.
  { eapply cache_inv_weaken; [|apply list_subseteq_app_l; reflexivity|done].
    intros k' v Hk. apply (Hgg k' c v). by rewrite E. }
  destruct (match exp with Some _ => _ | None => _ end); [done|]. destruct (ac_slot a); [|done]. simpl.
  destruct (VerifyArgon2id (ac_phc a) (ac_password a)) as [[]|] eqn:Ev; simpl; [|done..].
  intros k' v [[-> ->]|Hk]%lru_get_add; [|by apply Hc'].
  exists a. split_and!; try done. set_solver.
Qed.

Lemma cache_inv_calls (cs : list argon_call) (c : C) :
  (∀ k, fst (lru_get k c) = None) → cache_inv cs (do_calls cs c).
Proof.
  intros Hempty. induction cs as [|a cs IH] using rev_ind; simpl.
  - intros k v. by rewrite Hempty.
  - unfold do_calls. rewrite foldl_app. simpl. by apply cache_inv_step.
Qed.

(** The success cache never invents a login: whatever calls came before, a call that
    reports success has a password argon2id accepts, or a successful earlier call,
    less than the TTL ago, had the same SHA-256 key over username, stored hash and
    password. *)
Theorem argon_cache_sound (cs : list argon_call) (c : C) (a : argon_call) :
  (∀ k, fst (lru_get k c) = None) →
  snd (do_call a (do_calls cs c)) = Ok true →
  VerifyArgon2id (ac_phc a) (ac_password a) = Ok true ∨
  ∃ b, b ∈ cs ∧ VerifyArgon2id (ac_phc b) (ac_password b) = Ok true ∧ ac_now a < ac_now b + argonCacheTTL ∧
    cacheKey (ac_user b) (ac_phc b) (ac_password b) = cacheKey (ac_user a) (ac_phc a) (ac_password a).
Proof.
  intros Hempty. pose proof (cache_inv_calls cs c Hempty) as Hc. unfold do_call, verifyArgon2id.
  set (k := cacheKey _ _ _). destruct (lru_get k (do_calls cs c)) as [exp c'] eqn:E.
  destruct exp as [e|]; [destruct (Z.ltb_spec (ac_now a) e)|]; simpl.
  { intros _. right. destruct (Hc k e) as (b & Hb & Ek & -> & Ev); [by rewrite E|]. exists b. by split_and!. }
  all: destruct (ac_slot a); simpl; [|done]; intros Hr; left;
    destruct (VerifyArgon2id _ _) as [[]|]; simpl in *; congruence.
Qed.
End Cache.

(** ** Witnesses *)

Definition list_conditions : MetaConditions := {|
  FindStatusCondition := λ cs t, List.find (λ c, c_Type c == t) cs;
  SetStatusCondition := λ cs c now,
    let same := match List.find (λ x, c_Type x == c_Type c) cs with
                | Some x => if c_Status x == c_Status c then c_LastTransitionTime x else now
                | None => now end in
    {| c_Type := c_Type c; c_Status := c_Status c; c_ObservedGeneration := c_ObservedGeneration c;
       c_LastTransitionTime := same; c_Reason := c_Reason c; c_Message := c_Message c |}
    :: List.filter (λ x, c_Type x != c_Type c) cs |}.

#[export] Instance list_conditions_laws : @MetaConditionsLaws list_conditions.
Proof.
  split; simpl.
  - intros cs t c [Hin Ht]%find_some. apply bool_decide_eq_true in Ht. split; [by apply list_elem_of_In|done].
  - intros cs t E c Hin Ht. subst t. apply list_elem_of_In in Hin. apply (find_none _ _ E) in Hin.
    by apply bool_decide_eq_false in Hin.
  - intros cs c now. rewrite bool_decide_eq_true_2 by done. eauto.
  - intros cs c now t Ht. rewrite bool_decide_eq_false_2 by done. induction cs as [|x cs IH]; simpl; [done|].
    destruct (bool_decide_reflect (c_Type x = c_Type c)) as [E|]; simpl.
    + rewrite (bool_decide_eq_false_2 (c_Type x = t)) by congruence. done.
    + by rewrite IH.
Defined.

Definition list_lru : LRU (list (gostring * Time)) := {|
  lru_get := λ k c, (snd <$> List.find (λ kv, kv.1 == k) c, c);
  lru_add := λ k v c, (k, v) :: c |}.

#[export] Instance list_lru_laws : @LRULaws _ list_lru.
Proof.
  split; simpl; [done|]. intros k v k' c w. case_bool_decide; simpl; [|by right]. intros [= <-]. by left.
Defined.

Definition example_credential : MailCredential := {|
  mc_Meta := meta_of "team" "app";
  mc_Spec := {| mcs_ServiceAccountName := "app-sa"; mcs_SecretName := "app-mail"; mcs_Rotation := None; mcs_PasswordHash := [] |};
  mc_Status := {| mcst_Username := "app.team"; mcst_SecretName := "app-mail"; mcst_ServiceAccountName := "app-sa";
    mcst_Current := Some {| ch_Hash := @HashGenerated toy_hashes "new"; ch_CreatedAt := 10 |};
    mcst_Previous := Some {| ph_Hash := @HashGenerated toy_hashes "old"; ph_ValidUntil := 100 |};
    mcst_LastRotateRequest := [];
    mcst_Conditions := [{| c_Type := ConditionReady; c_Status := ConditionTrue; c_ObservedGeneration := 1;
                           c_LastTransitionTime := 5; c_Reason := ReasonReady; c_Message := [] |}];
    mcst_ObservedGeneration := 1 |} |}.

Definition example_reader : reader := λ ns name,
  if (ns == lit "team") && (name == lit "app") then Ok example_credential else Err GetNotFound.

Definition example_login : Result := result_of example_credential (@HashGenerated toy_hashes "old") true.

Lemma example_login_ok :
  snd (@Verify list_conditions toy_hashes _ list_lru example_reader 50 true "app.team" "old" []) = Ok example_login.
Proof. vm_compute. reflexivity. Qed.


Lemma fresh_login_valid_witness :
  ∃ previous, @StillValid list_conditions example_reader 50 example_login = Ok previous ∧
    (previous = true → r_Previous example_login = true).
Proof.
  apply (@fresh_login_valid list_conditions toy_hashes _ list_lru example_reader 50 true "app.team" "old" []).
  - apply example_login_ok.
  - intros ns name mc. unfold example_reader. destruct (_ && _) eqn:E; [|done]. intros [= <-].
    apply andb_true_iff in E as [->%bool_decide_eq_true _]. reflexivity.
Defined.

Lemma still_valid_sound_witness :
  ∃ mc, example_reader (lit "team") (lit "app") = Ok mc ∧ om_UID (mc_Meta mc) = r_uid example_login ∧
    @Usable list_conditions mc = true ∧ mcs_ServiceAccountName (mc_Spec mc) = r_ServiceAccount example_login ∧
    if Generated mc then
      IsGeneratedHash (r_hash example_login) = true ∧
      ∃ prev, mcst_Previous (mc_Status mc) = Some prev ∧ ph_Hash prev = r_hash example_login ∧ 60 < ph_ValidUntil prev
    else true = false ∧ mcs_PasswordHash (mc_Spec mc) = r_hash example_login.
Proof.
  apply (@still_valid_sound list_conditions example_reader 60 example_login true). vm_compute. reflexivity.
Defined.

Definition example_call (now : Time) (slot : bool) : argon_call :=
  {| ac_now := now; ac_slot := slot; ac_user := "app.team";
     ac_phc := "$argon2id$v=19$m=19456,t=2,p=1$c2FsdHNhbHQ$MDEyMzQ1Njc4OWFiY2RlZg"; ac_password := "0123456789abcdef" |}.

(** The second call finds the first one's success and needs no slot. *)
Lemma argon_cache_sound_witness :
  let a := example_call Minute false in
  @VerifyArgon2id toy_hashes (ac_phc a) (ac_password a) = Ok true ∨
  ∃ b, b ∈ [example_call 0 true] ∧ @VerifyArgon2id toy_hashes (ac_phc b) (ac_password b) = Ok true ∧
    ac_now a < ac_now b + argonCacheTTL ∧
    @cacheKey toy_hashes (ac_user b) (ac_phc b) (ac_password b) = @cacheKey toy_hashes (ac_user a) (ac_phc a) (ac_password a).
Proof.
  apply (@argon_cache_sound toy_hashes _ list_lru list_lru_laws [example_call 0 true] [] (example_call Minute false));
    [reflexivity|vm_compute; reflexivity].
Defined.
