(* ===== verification/Driver.v ===== *)
(** * Drivers ([internal/driver]: [driver.go], [registry.go]) and Secret namespaces
      ([internal/kubecache])

    The messages drivers send, the errors they return, the registry of backend types,
    and which namespaces' Secrets may be read. *)

From S2P Require Import Prelude GoStrings Types.

(** ** Messages *)

Definition TypeSMTP : gostring := "smtp".
Definition TypeMicrosoftGraph : gostring := "microsoftGraph".

Record EndpointHealth := { eh_Host : gostring; eh_Port : Z; eh_Ready : bool; eh_Message : gostring }.

(** Display name and addr-spec. *)
Record Address := { a_Name : gostring; a_Address : gostring }.

Record Attachment := {
  at_Filename : gostring; at_ContentType : gostring; at_Disposition : gostring;
  at_ContentID : gostring; at_Content : gostring }.

Record Body := { b_Text : gostring; b_HTML : gostring }.

(** [Headers] is a Go map: each name once, in no order the code may rely on. *)
Record Message := {
  m_MessageID : gostring; m_From : Address; m_To : list Address; m_Cc : list Address; m_Bcc : list Address;
  m_Subject : gostring; m_Body : Body; m_Attachments : list Attachment; m_Headers : gmap gostring gostring }.

Record SendResult := { sr_UpstreamID : gostring; sr_AcceptedAt : Time }.

Definition maxContentID : nat := 250.

Definition c_at_sign : ascii := "@".
Definition c_full_stop : ascii := ".".

(** [isDotAtom]: RFC 5322 dot-atom-text. *)
Definition atomByte (c : ascii) : bool :=
  in_range "a" "z" c || in_range "A" "Z" c || in_range "0" "9" c
  || Ascii.eqb c c_full_stop || elem c "!#$%&'*+-/=?^_`{|}~".

Definition isDotAtom (s : gostring) : bool :=
  if (s == []) || (head s == Some c_full_stop) || (last s == Some c_full_stop) || Contains s ".." then false
  else forallb atomByte s.

Inductive ContentIDError := ContentIDLength | ContentIDForm.

Definition ValidateContentID (id : gostring) : res ContentIDError unit :=
  if (id == []) || (maxContentID <? length id)%nat then Err ContentIDLength
  else match Cut id c_at_sign with
       | None => Err ContentIDForm
       | Some (l, r) => if negb (isDotAtom l) || negb (isDotAtom r) then Err ContentIDForm else Ok ()
       end.

(** ** Errors

    Go errors as trees: sentinels, opaque errors, [fmt.Errorf] with one or two [%w],
    and the retry-after wrapper. *)

Inductive Sentinel := ErrNoReadyEndpoint | ErrUpstreamTransient | ErrUpstreamPermanent | ErrRecipientNotInEnvelope.

#[export] Instance Sentinel_eq_dec : EqDecision Sentinel.
Proof. solve_decision. Defined.

Inductive error :=
| ESentinel (s : Sentinel)
| EOpaque (msg : gostring)
| EWrap (msg : gostring) (e : error)
| EWrap2 (msg : gostring) (e1 e2 : error)
| ERetryAfter (e : error) (after : Duration).

(** [errors.Is] for a sentinel. *)
Fixpoint Is (e : error) (s : Sentinel) : bool :=
  match e with
  | ESentinel s' => s' == s
  | EOpaque _ => false
  | EWrap _ e => Is e s
  | EWrap2 _ e1 e2 => Is e1 s || Is e2 s
  | ERetryAfter e _ => Is e s
  end.

Definition MaxRetryAfter : Duration := 10 * Minute.

(** [err == nil] is [None]. *)
Definition WithRetryAfter (err : option error) (after : Duration) : option error :=
  match err with
  | None => None
  | Some e => if after <=? 0 then Some e else Some (ERetryAfter e (Z.min after MaxRetryAfter))
  end.

(** [errors.As]: the first wrapper of the tree, depth first. *)
Fixpoint retry_after (e : error) : option Duration :=
  match e with
  | ESentinel _ | EOpaque _ => None
  | EWrap _ e => retry_after e
  | EWrap2 _ e1 e2 => match retry_after e1 with Some d => Some d | None => retry_after e2 end
  | ERetryAfter _ after => Some after
  end.

Definition RetryAfter (err : option error) : Duration :=
  match err with None => 0 | Some e => default 0 (retry_after e) end.

(** ** Configuration and the registry *)

Record SMTPConfig := {
  sc_Endpoints : list SMTPEndpoint; sc_AuthType : gostring; sc_Username : gostring; sc_Password : gostring;
  sc_Timeout : Z; sc_Helo : gostring;
  (** the extra root certificates, in PEM; [None] means the system roots *)
  sc_RootCAs : option gostring }.

Record GraphConfig := { gc_TenantID : gostring; gc_ClientID : gostring; gc_ClientSecret : gostring }.

Record Config := {
  cfg_Type : gostring; cfg_BackendKey : gostring; cfg_SMTP : option SMTPConfig; cfg_Graph : option GraphConfig }.

Section Registry.
Context {D : Type}.

Definition Factory := Config → res gostring D.
Definition registry := gmap gostring Factory.

Definition Register (t : gostring) (f : Factory) (r : registry) : registry := <[t := f]> r.

Definition New (r : registry) (cfg : Config) : res gostring D :=
  match r !! cfg_Type cfg with
  | None => Err (lit "backend type is not implemented in this build")
  | Some f => f cfg
  end.

(** In some order. *)
Definition Implemented (r : registry) : list gostring := (map_to_list r).*1.

Definition IsImplemented (r : registry) (t : gostring) : bool := bool_decide (is_Some (r !! t)).
End Registry.

(** ** [internal/kubecache] *)

(** The namespaces of [--secret-namespaces]; [podNamespace] is [POD_NAMESPACE]. *)
Definition SecretNamespaces (podNamespace list_ : gostring) : list gostring :=
  match List.filter (λ ns, ns != []) (TrimSpace <$> Split list_ ","%char) with
  | [] => if podNamespace != [] then [podNamespace] else []
  | out => out
  end.

Definition SecretNamespaceAllowed (namespaces : list gostring) (ns : gostring) : bool :=
  (length namespaces =? 0)%nat || bool_decide (ns ∈ namespaces).

Inductive SecretError := SecretNamespaceError (namespace name : gostring) | SecretNotFound | SecretReadFailed.

Definition secret_reader := gostring → gostring → res SecretError (gmap gostring gostring).

(** [GuardSecretReads], for Secrets: every other read passes through. *)
Definition GuardSecretReads (namespaces : list gostring) (get : secret_reader) : secret_reader :=
  if (length namespaces =? 0)%nat then get
  else λ ns name, if negb (SecretNamespaceAllowed namespaces ns) then Err (SecretNamespaceError ns name)
                  else get ns name.

(** [RestrictSecretCache]: the namespaces the Secret informer is limited to; [None] is a
    cluster-wide informer. *)
Definition RestrictSecretCache (o : option (gset gostring)) (namespaces : list gostring) : option (gset gostring) :=
  if (length namespaces =? 0)%nat then o else Some (list_to_set namespaces).

(** What a read through a restricted cache answers: outside its namespaces there is no
    informer to read from. *)
Definition cachedRead (o : option (gset gostring)) (get : secret_reader) : secret_reader :=
  λ ns name, match o with Some nss => if bool_decide (ns ∈ nss) then get ns name else Err SecretReadFailed | None => get ns name end.

(** ** Facts *)

(** Errors as the drivers build them: delays only through [WithRetryAfter]. *)
Inductive built : error → Prop :=
| built_sentinel s : built (ESentinel s)
| built_opaque m : built (EOpaque m)
| built_wrap m e : built e → built (EWrap m e)
| built_wrap2 m e1 e2 : built e1 → built e2 → built (EWrap2 m e1 e2)
| built_retry e after e' : built e → WithRetryAfter (Some e) after = Some e' → built e'.

Lemma built_retry_after (e : error) (d : Duration) : built e → retry_after e = Some d → 0 < d ≤ MaxRetryAfter.
Proof.
  intros Hb. revert d. induction Hb as [| |m e _ IH|m e1 e2 _ IH1 _ IH2|e after e' _ IH E]; intros d; simpl; try done.
  - apply IH.
  - destruct (retry_after e1) eqn:E1; [intros [= <-]; by apply IH1|apply IH2].
  - simpl in E. destruct (Z.leb_spec after 0); simplify_eq; [apply IH|]. simpl. intros [= <-].
    unfold MaxRetryAfter, Minute. lia.
Qed.

(** The delay a caller reads from a driver's error. *)
Lemma RetryAfter_range (e : error) : built e → 0 ≤ RetryAfter (Some e) ≤ MaxRetryAfter.
Proof.
  intros Hb. simpl. destruct (retry_after e) as [d|] eqn:E; simpl; [|unfold MaxRetryAfter, Minute; lia].
  apply (built_retry_after _ _ Hb) in E. lia.
Qed.

(** Attaching a delay does not change what kind of failure an error is. *)
Lemma WithRetryAfter_Is (e e' : error) (after : Duration) (s : Sentinel) :
  WithRetryAfter (Some e) after = Some e' → Is e' s = Is e s.
Proof. simpl. destruct (after <=? 0); intros [= <-]; done. Qed.

Lemma isDotAtom_bytes (s : gostring) : isDotAtom s = true → s ≠ [] ∧ ∀ c, c ∈ s → atomByte c = true.
Proof.
  unfold isDotAtom. destruct (_ || _) eqn:E; [done|]. rewrite !orb_false_iff in E.
  destruct E as [[[E _] _] _]. apply bool_decide_eq_false in E. rewrite forallb_forall.
  intros Hb. split; [done|]. intros c Hc. apply Hb. by apply list_elem_of_In.
Qed.

(** An accepted content ID is safe in a header line: at most 250 bytes, exactly one
    ['@'] with non-empty sides, and no control byte, blank, quote, angle bracket or
    byte outside ASCII anywhere. *)
Theorem content_id_safe (id : gostring) :
  ValidateContentID id = Ok () →
  (length id ≤ maxContentID)%nat ∧
  (∃ l r, id = l ++ [c_at_sign] ++ r ∧ l ≠ [] ∧ r ≠ [] ∧
    c_at_sign ∉ l ∧ c_at_sign ∉ r) ∧
  ∀ c, c ∈ id → 32 < bz c < 127 ∧ c ∉ lit "<>()[]:;,\ ".
Proof.
  unfold ValidateContentID. destruct (_ || _) eqn:E; [done|]. apply orb_false_iff in E as [_ E%Nat.ltb_ge].
  destruct (Cut id c_at_sign) as [[l r]|] eqn:Ec; [|done].
  destruct (_ || _) eqn:Eo; [done|]. intros _. to_prop. destruct Eo as [El Er].
  apply isDotAtom_bytes in El as [Hl Hlb], Er as [Hr Hrb]. apply Cut_Some in Ec as [-> Hat].
  assert (∀ c, atomByte c = true → 32 < bz c < 127 ∧ c ∉ lit "<>()[]:;,\ " ∧ c ≠ c_at_sign) as Hsafe.
  { intros c Hc. assert ((32 <? bz c) && (bz c <? 127) && negb (elem c "<>()[]:;,\ ") &&
      negb (Ascii.eqb c c_at_sign) = true) as Hb by (revert Hc; by_byte c).
    rewrite !andb_true_iff, !negb_true_iff, !Z.ltb_lt in Hb. destruct Hb as [[[? ?] Hel] Hat'].
    split_and!; [done..| |].
    - intros Hin%elem_spec. congruence.
    - intros ->. by rewrite Ascii.eqb_refl in Hat'. }
  split_and!; [done| |].
  - exists l, r. split_and!; [done..|]. intros Hin. by apply Hrb, Hsafe in Hin as (_ & _ & ?).
  - intros c. rewrite elem_of_app, elem_of_cons. intros [Hc|[->|Hc]].
    + by apply Hlb, Hsafe in Hc as (? & ? & _).
    + split; [vm_compute; done|]. intros Hin%elem_spec. vm_compute in Hin. done.
    + by apply Hrb, Hsafe in Hc as (? & ? & _).
Qed.

Lemma content_id_safe_witness :
  (length (lit "logo.1@mail.example") ≤ maxContentID)%nat ∧
  (∃ l r, lit "logo.1@mail.example" = l ++ [c_at_sign] ++ r ∧ l ≠ [] ∧ r ≠ [] ∧
    c_at_sign ∉ l ∧ c_at_sign ∉ r) ∧
  ∀ c, c ∈ lit "logo.1@mail.example" → 32 < bz c < 127 ∧ c ∉ lit "<>()[]:;,\ ".
Proof. apply content_id_safe. vm_compute. reflexivity. Defined.

(** Guarded reads only ever read allowed namespaces. *)
Lemma guarded_read (namespaces : list gostring) (get : secret_reader) (ns name : gostring) data :
  GuardSecretReads namespaces get ns name = Ok data →
  get ns name = Ok data ∧ (namespaces = [] ∨ ns ∈ namespaces).
Proof.
  unfold GuardSecretReads, SecretNamespaceAllowed. destruct namespaces as [|n l]; simpl; [auto|].
  case_bool_decide; simpl; [auto|done].
Qed.

(** The guard and the cache are limited to the same namespaces: behind the guard no read
    ever asks the cache for a namespace it does not hold. *)
Lemma guard_covers_cache (namespaces : list gostring) (get : secret_reader) (ns name : gostring) :
  GuardSecretReads namespaces (cachedRead (RestrictSecretCache None namespaces) get) ns name = GuardSecretReads namespaces get ns name.
Proof.
  unfold GuardSecretReads, RestrictSecretCache, SecretNamespaceAllowed, cachedRead. destruct namespaces as [|n l]; [done|].
  cbn [length Nat.eqb orb]. destruct (bool_decide_reflect (ns ∈ n :: l)) as [Hin|]; [|done].
  cbn [negb]. by rewrite bool_decide_eq_true_2 by by apply elem_of_list_to_set.
Qed.
