(* ===== verification/Webhook.v ===== *)
(** * The admission rules ([internal/webhook])

    The validators of MailPolicy, MailBackend, ClusterMailBackend and MailCredential,
    which the controller and the gateway apply again to objects that were admitted
    without them.  A field error keeps its kind, path and text; warnings are data. *)

From S2P Require Import Prelude GoStrings PathMatch Types Address Engine Credential Driver.

(** ** Field errors *)

Inductive PathElem := Child (name : string) | Index (i : nat).
Definition Path := list PathElem.

Inductive ErrorKind := FieldRequired | FieldInvalid | FieldForbidden | FieldNotSupported.

Record FieldError := { fe_Kind : ErrorKind; fe_Path : Path; fe_Detail : gostring }.

Definition required (p : Path) (detail : gostring) := {| fe_Kind := FieldRequired; fe_Path := p; fe_Detail := detail |}.
Definition invalid (p : Path) (detail : gostring) := {| fe_Kind := FieldInvalid; fe_Path := p; fe_Detail := detail |}.
Definition forbidden (p : Path) (detail : gostring) := {| fe_Kind := FieldForbidden; fe_Path := p; fe_Detail := detail |}.
Definition notSupported (p : Path) := {| fe_Kind := FieldNotSupported; fe_Path := p; fe_Detail := [] |}.

Definition specPath : Path := [Child "spec"].

(** [if b { errs = append(errs, e) }] *)
Definition when {A} (b : bool) (e : A) : list A := if b then [e] else [].

(** ** Allowlist entries *)

Inductive EntryError :=
| EntryPlain (e : PlainAddressError) | EntryForm | EntryWildcardDomain | EntryBareDomain | EntryEmptyLocal
| EntryRouting | EntryBadGlob.

(** The message of an entry, without the text of the address parser. *)
Definition EntryError_string (e : EntryError) : gostring :=
  match e with
  | EntryPlain _ => " (must be a plain address such as alerts@example.com)"
  | EntryForm => "a pattern must have the form <local-part pattern>@<domain>, e.g. *@oncall.example.com"
  | EntryWildcardDomain => "the domain of a pattern must not contain wildcards"
  | EntryBareDomain => "the domain of a pattern must be a bare domain"
  | EntryEmptyLocal => "the local part of a pattern must not be empty"
  | EntryRouting => "the local part of a pattern must not contain routing or quoting characters"
  | EntryBadGlob => "invalid glob pattern: syntax error in pattern"
  end.

Definition wildcards : gostring := "*?[".

(** Routing and quoting characters; byte 34 is the double quote. *)
Definition routingChars : gostring := lit "%!<>() ,;:" ++ [zb 34].

Section Rules.
Context `{AddressParser, UnicodeTables, LabelMatcher, K8sNames}.

(** [None] is the empty message of a valid entry. *)
Definition addressEntryError (e : gostring) : option EntryError :=
  if negb (ContainsAny e wildcards) then
    match ValidatePlainAddress e with Err err => Some (EntryPlain err) | Ok _ => None end
  else match Cut e c_at with
  | None => Some EntryForm
  | Some (local, domain) =>
      if Contains domain "@" then Some EntryForm
      else if ContainsAny domain wildcards then Some EntryWildcardDomain
      else if (0 <? length (IsDNS1123Subdomain (ToLower domain)))%nat then Some EntryBareDomain
      else if local == [] then Some EntryEmptyLocal
      else if ContainsAny local routingChars then Some EntryRouting
      else match PathMatch.Match e [] with None => Some EntryBadGlob | Some _ => None end
  end.

Definition recipientEntryError (e : gostring) : option gostring :=
  match addressEntryError e with
  | None => None
  | Some EntryWildcardDomain =>
      Some (EntryError_string EntryWildcardDomain ++ lit "; list whole domains in allowedDomains")
  | Some err => Some (EntryError_string err)
  end.

Definition validateRecipients (p : Path) (entries : list gostring) : list FieldError :=
  concat (imap (λ i e, match recipientEntryError e with
                       | Some msg => [invalid (p ++ [Index i]) msg] | None => [] end) entries).

Definition validateDomains (p : Path) (domains : list gostring) : list FieldError :=
  concat (imap (λ i d,
    if ContainsAny d "@*?[" then [invalid (p ++ [Index i]) "must be a bare domain (no '@' or wildcards)"]
    else invalid (p ++ [Index i]) <$> IsDNS1123Subdomain (ToLower d)) domains).

Definition validateSelector (p : Path) (sel : LabelSelectorSubject) : list FieldError :=
  if (MatchLabels sel == ∅) && (length (MatchExpressions sel) =? 0)%nat
  then [required p "must specify matchLabels or matchExpressions"]
  else match LabelSelectorAsSelector sel with
       | None => [invalid p "invalid selector"]
       | Some _ => []
       end.

(** ** MailPolicy *)

Inductive PolicyWarning :=
| WarnSenderEntry (i : nat) (entry : gostring) (e : EntryError)
| WarnDailyCapInMemory
| WarnBackendNeverAllows (kind name : gostring) (never : list gostring).

Definition subjectErrors (i : nat) (s : PolicySubject) : list FieldError :=
  let sPath := specPath ++ [Child "subjects"; Index i] in
  let set := (if ServiceAccount s then 1 else 0) + (if ServiceAccountSelector s then 1 else 0)
             + (if PodSelector s then 1 else 0) in
  match ServiceAccount s with
  | Some sa => when (sa_Name sa == []) (required (sPath ++ [Child "serviceAccount"; Child "name"]) "name is required")
  | None => [] end
  ++ match ServiceAccountSelector s with
     | Some sel => validateSelector (sPath ++ [Child "serviceAccountSelector"]) sel | None => [] end
  ++ match PodSelector s with
     | Some sel => validateSelector (sPath ++ [Child "podSelector"]) sel | None => [] end
  ++ when (set =? 0) (required sPath "subject must specify exactly one matcher")
  ++ when (1 <? set) (forbidden sPath "subject must specify exactly one matcher").

Definition senderEntryErrors (entries : list gostring) : list FieldError :=
  let sPath := specPath ++ [Child "senderRestrictions"; Child "allowedSenders"] in
  concat (imap (λ i s, when (s == []) (required (sPath ++ [Index i]) "allowed sender must be non-empty")) entries).

Definition senderEntryWarnings (entries : list gostring) : list PolicyWarning :=
  concat (imap (λ i s, if s == [] then [] else
    match addressEntryError s with Some e => [WarnSenderEntry i s e] | None => [] end) entries).

(** [MailPolicyValidator.validate]: warnings and the field errors. *)
Definition validatePolicy (mp : MailPolicy) : list PolicyWarning * list FieldError :=
  let spec := mp_Spec mp in
  let errs :=
    when (length (mps_Subjects spec) =? 0)%nat (required (specPath ++ [Child "subjects"]) "at least one subject is required")
    ++ concat (imap subjectErrors (mps_Subjects spec))
    ++ when (br_Name (mps_BackendRef spec) == [])
         (required (specPath ++ [Child "backendRef"; Child "name"]) "name is required")
    ++ when (negb ((br_Kind (mps_BackendRef spec) == []) || (br_Kind (mps_BackendRef spec) == KindClusterMailBackend)
                   || (br_Kind (mps_BackendRef spec) == KindMailBackend)))
         (notSupported (specPath ++ [Child "backendRef"; Child "kind"]))
    ++ match mps_SenderRestrictions spec with Some r => senderEntryErrors (AllowedSenders r) | None => [] end
    ++ match mps_RecipientRestrictions spec with
       | Some rr =>
           let rPath := specPath ++ [Child "recipientRestrictions"] in
           validateDomains (rPath ++ [Child "allowedDomains"]) (AllowedDomains rr)
           ++ validateDomains (rPath ++ [Child "blockedDomains"]) (BlockedDomains rr)
           ++ validateRecipients (rPath ++ [Child "allowedRecipients"]) (AllowedRecipients rr)
       | None => [] end in
  (match mps_SenderRestrictions spec with Some r => senderEntryWarnings (AllowedSenders r) | None => [] end, errs).

(** [ValidateMailPolicy]. *)
Definition ValidateMailPolicy (mp : MailPolicy) : res (list FieldError) unit :=
  match snd (validatePolicy mp) with [] => Ok () | errs => Err errs end.

Definition domainPart (e : gostring) : gostring :=
  TrimSpace (match Cut e c_at with Some (_, d) => d | None => [] end).

(** Whether backend entry [b] may allow an address the policy entry [e] allows. *)
Definition mayOverlap (e b : gostring) : bool :=
  if negb (ContainsAny e wildcards) then AddressMatches e b
  else if negb (ContainsAny b wildcards) then AddressMatches b e
  else if match addressEntryError b with Some _ => true | None => false end then true
  else EqualFold (domainPart e) (domainPart b).

Definition senderNeverAllowed (e : gostring) (backend : list gostring) : bool :=
  if ContainsAny e wildcards && match addressEntryError e with Some _ => true | None => false end then false
  else forallb (λ b, negb (mayOverlap e b)) backend.

(** The backends of the cluster, as the validator's Reader finds them. *)
Record BackendReader := {
  get_ClusterMailBackend : gostring → option ClusterMailBackend;
  get_MailBackend : gostring → gostring → option MailBackend }.

Definition backendWarnings (reader : option BackendReader) (mp : MailPolicy) : list PolicyWarning :=
  let spec := mp_Spec mp in
  match reader, mps_SenderRestrictions spec with
  | Some rd, Some r =>
      let name := br_Name (mps_BackendRef spec) in
      let kind := br_Kind (mps_BackendRef spec) in
      if name == [] then []
      else
        let found :=
          if (kind == KindClusterMailBackend) || (kind == [])
          then (λ b, (KindClusterMailBackend, cmb_Spec b)) <$> get_ClusterMailBackend rd name
          else if kind == KindMailBackend
          then (λ b, (KindMailBackend, mb_Spec b)) <$> get_MailBackend rd (mp_Namespace mp) name
          else None in
        match found with
        | None => []
        | Some (kind, bspec) =>
            match bs_AllowedSenders bspec with
            | None => []
            | Some allowed =>
                match List.filter (λ e, (e != []) && senderNeverAllowed e allowed) (AllowedSenders r) with
                | [] => []
                | never => [WarnBackendNeverAllows kind name never]
                end
            end
        end
  | _, _ => []
  end.

(** [MailPolicyValidator.validateWithWarnings], the create and update handler;
    deletes are always admitted. *)
Definition validateWithWarnings (reader : option BackendReader) (rateLimitBackend : gostring) (mp : MailPolicy)
    : list PolicyWarning * res (list FieldError) unit :=
  let '(warnings, errs) := validatePolicy mp in
  match errs with
  | [] =>
      let daily := match mps_RateLimits (mp_Spec mp) with
        | Some rl => (0 <? MessagesPerDay rl) && (rateLimitBackend == lit "memory") | None => false end in
      (warnings ++ when daily WarnDailyCapInMemory ++ backendWarnings reader mp, Ok ())
  | _ => (warnings, Err errs)
  end.
End Rules.

(** ** MailBackend and ClusterMailBackend *)

Inductive BackendWarning :=
| WarnCleartextAuth (i : nat)
| WarnSecretNamespace (p : Path) (ns : gostring)
| WarnCANoEffect
| WarnNoSenders.

Record BackendValidator := { bv_clusterScoped : bool; bv_secretNamespaces : list gostring }.

Definition NewMailBackendValidator : BackendValidator := {| bv_clusterScoped := false; bv_secretNamespaces := [] |}.
Definition NewClusterMailBackendValidator : BackendValidator := {| bv_clusterScoped := true; bv_secretNamespaces := [] |}.

Definition validateCredentialsRef (v : BackendValidator) (p : Path) (refNs selfNs : gostring) : list FieldError :=
  if bv_clusterScoped v && (refNs == []) then
    [required (p ++ [Child "namespace"]) "namespace is required for Secret references on cluster-scoped backends"]
  else if negb (bv_clusterScoped v) && (refNs != []) && (refNs != selfNs) then
    [invalid (p ++ [Child "namespace"]) "cross-namespace Secret references are not permitted on namespace-scoped backends"]
  else [].

Definition secretNamespaceWarning (v : BackendValidator) (p : Path) (refNs selfNs : gostring) : list BackendWarning :=
  let ns := if bv_clusterScoped v then refNs else selfNs in
  if (ns == []) || SecretNamespaceAllowed (bv_secretNamespaces v) ns then [] else [WarnSecretNamespace p ns].

Definition anyTLSEndpoint (eps : list SMTPEndpoint) : bool := existsb (λ ep, ep_TLS ep != SMTPTLSNone) eps.

Definition smtpPath : Path := specPath ++ [Child "smtp"].

Definition endpointErrors (i : nat) (ep : SMTPEndpoint) : list FieldError :=
  let epPath := smtpPath ++ [Child "endpoints"; Index i] in
  when (ep_Host ep == []) (required (epPath ++ [Child "host"]) "host is required")
  ++ when (ep_Port ep =? 0) (required (epPath ++ [Child "port"]) "port is required")
  ++ when (ep_InsecureSkipVerify ep)
       (forbidden (epPath ++ [Child "insecureSkipVerify"]) "TLS certificate verification must not be disabled").

Definition authenticates (s : SMTPBackendSpec) : bool := (AuthType s != []) && (AuthType s != SMTPAuthNone).

Definition smtpErrors (v : BackendValidator) (s : SMTPBackendSpec) (selfNs : gostring) : list FieldError :=
  when (length (Endpoints s) =? 0)%nat (required (smtpPath ++ [Child "endpoints"]) "at least one endpoint is required")
  ++ concat (imap endpointErrors (Endpoints s))
  ++ when (authenticates s && match smtp_CredentialsRef s with None => true | Some _ => false end)
       (required (smtpPath ++ [Child "credentialsRef"]) "credentialsRef is required when authType != NONE")
  ++ match smtp_CredentialsRef s with
     | Some ref => validateCredentialsRef v (smtpPath ++ [Child "credentialsRef"]) (sec_Namespace ref) selfNs
     | None => [] end
  ++ match CASecretRef s with
     | Some ref => validateCredentialsRef v (smtpPath ++ [Child "caSecretRef"]) (ca_Namespace ref) selfNs
     | None => [] end.

Definition smtpWarnings (v : BackendValidator) (s : SMTPBackendSpec) (selfNs : gostring) : list BackendWarning :=
  (if authenticates s
   then concat (imap (λ i ep, when (ep_TLS ep == SMTPTLSNone) (WarnCleartextAuth i)) (Endpoints s)) else [])
  ++ match smtp_CredentialsRef s with
     | Some ref => secretNamespaceWarning v (smtpPath ++ [Child "credentialsRef"]) (sec_Namespace ref) selfNs
     | None => [] end
  ++ match CASecretRef s with
     | Some ref => secretNamespaceWarning v (smtpPath ++ [Child "caSecretRef"]) (ca_Namespace ref) selfNs
                   ++ when (negb (anyTLSEndpoint (Endpoints s))) WarnCANoEffect
     | None => [] end.

(** [uuid.Parse]: whether it accepts a string. *)
Class UUIDs := { uuid_Parse : gostring → bool }.

Section BackendRules.
Context `{AddressParser, UnicodeTables, K8sNames, UUIDs}.

Definition validateGraph (v : BackendValidator) (spec : BackendSpec) (selfNs : gostring) : list FieldError :=
  let gPath := specPath ++ [Child "microsoftGraph"] in
  match bs_MicrosoftGraph spec with
  | None => [required gPath "spec.microsoftGraph is required when type=microsoftGraph"]
  | Some g =>
      when (0 <? length (IsDNS1123Subdomain (TenantID g)))%nat
        (invalid (gPath ++ [Child "tenantID"])
           "must be the directory (tenant) ID or a verified domain of the tenant, in lower case")
      ++ when (negb (uuid_Parse (ClientID g)) || negb (length (ClientID g) =? 36)%nat)
        (invalid (gPath ++ [Child "clientID"])
           "must be the application (client) ID of the app registration, a GUID")
      ++ validateCredentialsRef v (gPath ++ [Child "credentialsRef"]) (sec_Namespace (graph_CredentialsRef g)) selfNs
  end
  ++ when (length (default [] (bs_AllowedSenders spec)) =? 0)%nat
       (required (specPath ++ [Child "allowedSenders"])
          "a microsoftGraph backend can send as any mailbox of the tenant; list the mailboxes it sends for")
  ++ when (match bs_SMTP spec with Some _ => true | None => false end)
       (forbidden (specPath ++ [Child "smtp"]) "only for type smtp").

(** [MailBackendValidator.validate]; [implemented] is the driver registry's
    [IsImplemented], [selfNs] the object's namespace (empty for a
    ClusterMailBackend). *)
Definition validateBackend (v : BackendValidator) (implemented : gostring → bool) (spec : BackendSpec)
    (selfNs : gostring) : list BackendWarning * list FieldError :=
  let smtp := bs_Type spec == BackendSMTP in
  let graph := bs_Type spec == BackendMicrosoftGraph in
  let senders := default [] (bs_AllowedSenders spec) in
  let errs :=
    when (negb (implemented (bs_Type spec))) (notSupported (specPath ++ [Child "type"]))
    ++ (if smtp then
          match bs_SMTP spec with
          | None => [required smtpPath "spec.smtp is required when type=smtp"]
          | Some s => smtpErrors v s selfNs end
          ++ when (match bs_MicrosoftGraph spec with Some _ => true | None => false end)
               (forbidden (specPath ++ [Child "microsoftGraph"]) "only for type microsoftGraph")
        else [])
    ++ (if graph then validateGraph v spec selfNs else [])
    ++ concat (imap (λ i e, match addressEntryError e with
         | Some err => [invalid (specPath ++ [Child "allowedSenders"; Index i]) (EntryError_string err)]
         | None => [] end) senders) in
  let warnings :=
    (if smtp then match bs_SMTP spec with Some s => smtpWarnings v s selfNs | None => [] end else [])
    ++ (if graph then match bs_MicrosoftGraph spec with
          | Some g => secretNamespaceWarning v (specPath ++ [Child "microsoftGraph"; Child "credentialsRef"])
                        (sec_Namespace (graph_CredentialsRef g)) selfNs
          | None => [] end else [])
    ++ when (match bs_AllowedSenders spec with Some [] => true | _ => false end) WarnNoSenders in
  (warnings, errs).

(** The objects [ValidateBackend] accepts. *)
Inductive BackendObject := ObjMailBackend (b : MailBackend) | ObjClusterMailBackend (b : ClusterMailBackend).

Definition ValidateBackend (implemented : gostring → bool) (o : BackendObject) : res (list FieldError) unit :=
  match snd (match o with
             | ObjMailBackend b => validateBackend NewMailBackendValidator implemented (mb_Spec b) (om_Namespace (mb_Meta b))
             | ObjClusterMailBackend b => validateBackend NewClusterMailBackendValidator implemented (cmb_Spec b) []
             end) with
  | [] => Ok ()
  | errs => Err errs
  end.
End BackendRules.

(** ** MailCredential *)

Record CredentialValidator := { cv_Exclusions : Exclusions; cv_GeneratedEnabled : bool }.

Definition rotationField (f : RotationField) : string :=
  match f with FieldInterval => "interval" | FieldGracePeriod => "gracePeriod" end.

Definition rotationDetail (d : RotationDetail) : gostring :=
  match d with
  | DurationDetail InvalidDays => "invalid duration"
  | DurationDetail InvalidDuration => "invalid duration (use a Go duration such as 24h, or days such as 90d)"
  | DurationDetail NegativeDuration => "duration must not be negative"
  | BelowMinimum => "must be at least 1h"
  end.

Section CredentialRules.
Context `{K8sNames, FloatNanos}.

Definition validateCredential (v : CredentialValidator) (mc : MailCredential) : list FieldError :=
  let spec := mc_Spec mc in
  when (Excluded (cv_Exclusions v) (mc_Namespace mc))
    (forbidden [Child "metadata"; Child "namespace"] "namespace is excluded from mail credentials")
  ++ (if mcs_ServiceAccountName spec == []
      then [required (specPath ++ [Child "serviceAccountName"]) "the ServiceAccount the credential authenticates as"]
      else invalid (specPath ++ [Child "serviceAccountName"]) <$> IsDNS1123Subdomain (mcs_ServiceAccountName spec))
  ++ (if mcs_PasswordHash spec != [] then
        when (mcs_SecretName spec != [])
          (forbidden (specPath ++ [Child "secretName"])
             "secretName (generated mode) and passwordHash (bring your own hash) are mutually exclusive")
        ++ when (match mcs_Rotation spec with Some _ => true | None => false end)
          (forbidden (specPath ++ [Child "rotation"])
             "rotation applies to generated passwords only; rotate a bring-your-own hash by replacing it")
        ++ match ParseArgon2id (mcs_PasswordHash spec) with
           | Err _ => [invalid (specPath ++ [Child "passwordHash"]) "(redacted)"]
           | Ok _ => [] end
      else if mcs_SecretName spec == [] then
        [required (specPath ++ [Child "secretName"])
           "set secretName (generated mode) or passwordHash (bring your own hash)"]
      else
        when (negb (cv_GeneratedEnabled v))
          (forbidden (specPath ++ [Child "secretName"])
             "generated credentials are disabled in this installation (credentials.enabled=false); set passwordHash instead")
        ++ when (GeneratedNameError (mc_Name mc) != [])
          (invalid [Child "metadata"; Child "name"] (GeneratedNameError (mc_Name mc)))
        ++ (invalid (specPath ++ [Child "secretName"]) <$> IsDNS1123Subdomain (mcs_SecretName spec))
        ++ match ParseRotation (mcs_Rotation spec) with
           | Err es => (λ e, invalid (specPath ++ [Child "rotation"; Child (rotationField (re_Field e))])
                               (rotationDetail (re_Detail e))) <$> es
           | Ok _ => [] end).
End CredentialRules.

(** ** Anchoring: an entry only matches addresses of its own domain *)

(** The bytes of a bare domain. *)
Definition bare_byte (c : ascii) : bool := is_alnum c || Ascii.eqb c c_hyphen || Ascii.eqb c c_dot.

Definition bare_domain (d : gostring) : Prop := d ≠ [] ∧ ∀ c, c ∈ d → bare_byte c = true.

Lemma bare_byte_facts (c : ascii) : bare_byte c = true →
  is_ascii c = true ∧ space1 c = false ∧ bare_byte (lower_byte c) = true.
Proof.
  intros Hb. assert (is_ascii c && negb (space1 c) && bare_byte (lower_byte c) = true) as E
    by (revert Hb; by_byte c).
  rewrite !andb_true_iff, negb_true_iff in E. tauto.
Qed.

Lemma bare_byte_special (c : ascii) : bare_byte c = true →
  c ∉ [c_star; c_qm; c_lb; c_rb; c_bs] ∧ c ≠ c_at ∧ c ≠ c_sl.
Proof.
  intros Hb. split_and!; [|by intros ->..]. rewrite !not_elem_of_cons. split_and!; try (by intros ->).
  apply not_elem_of_nil.
Qed.

Lemma bare_domain_ascii (d : gostring) : bare_domain d → all_ascii d = true.
Proof. intros [_ Hb]. apply forallb_elem. intros c Hc. by apply bare_byte_facts, Hb. Qed.

Lemma bare_domain_no_at (d : gostring) : bare_domain d → c_at ∉ lower_byte <$> d.
Proof.
  intros [_ Hb] (c & E & Hc)%list_elem_of_fmap. apply Hb, bare_byte_facts in Hc as (_ & _ & Hl).
  rewrite <- E in Hl. by vm_compute in Hl.
Qed.

Lemma bare_domain_valid (d : gostring) : ValidateDomain d = Ok () → bare_domain d.
Proof.
  intros Hd. split; [by intros ->|]. intros c Hc. unfold bare_byte.
  destruct (ValidateDomain_byte d c Hd Hc) as [->|[->| ->]]; [done|by rewrite orb_true_r..].
Qed.

Section Anchoring.
Context `{UnicodeTables}.

(** Trimming and lower-casing an address keep its last ['@'] and domain in place. *)
Lemma normalised (l d : gostring) : bare_domain d →
  ∃ l', ToLower (TrimSpace (l ++ c_at :: d)) = l' ++ c_at :: (lower_byte <$> d).
Proof.
  intros Hd. destruct Hd as [Hne Hb] eqn:E; clear E. destruct (last d) as [x|] eqn:El; [|by apply last_None in El].
  assert (last (c_at :: d) = Some x) as Hl by (by rewrite last_cons, El).
  assert (bare_byte x = true) as Hx by (by apply Hb, last_Some_elem_of).
  apply bare_byte_facts in Hx as (Hx1 & Hx2 & _).
  destruct (TrimSpace_end l d c_at x eq_refl eq_refl Hl Hx1 Hx2) as (l1 & l2 & -> & ->).
  exists (ToLower l2). rewrite ToLower_app; [f_equal; apply ToLower_ascii|];
    simpl; by apply bare_domain_ascii.
Qed.

Lemma globSlash_app (l d : gostring) : bare_domain d →
  globSlash (l ++ c_at :: (lower_byte <$> d)) = globSlash l ++ c_at :: (lower_byte <$> d).
Proof.
  intros [_ Hb]. unfold globSlash, ReplaceByte. rewrite fmap_app. f_equal. csimpl. f_equal.
  rewrite <- list_fmap_compose. apply list_fmap_ext. intros i c Hc. simpl.
  apply list_elem_of_lookup_2, Hb, bare_byte_facts in Hc as (_ & _ & Hl).
  apply bare_byte_special in Hl as (_ & _ & Hs). by destruct (Ascii.eqb_spec (lower_byte c) c_sl).
Qed.

Lemma literal_domain (d : gostring) : bare_domain d → literal (c_at :: (lower_byte <$> d)).
Proof.
  intros [_ Hb]. constructor; [by rewrite !not_elem_of_cons; repeat split; try done; apply not_elem_of_nil|].
  apply Forall_forall. intros c (c' & -> & Hc)%list_elem_of_fmap. apply Hb, bare_byte_facts in Hc as (_ & _ & Hl).
  by apply bare_byte_special in Hl as (? & _ & _).
Qed.

Lemma AddressMatches_domain (la da le de : gostring) :
  bare_domain da → bare_domain de →
  AddressMatches (la ++ c_at :: da) (le ++ c_at :: de) = true → lower_byte <$> da = lower_byte <$> de.
Proof.
  intros Ha He. unfold AddressMatches.
  destruct (normalised la da Ha) as [la' ->], (normalised le de He) as [le' ->].
  pose proof (bare_domain_no_at da Ha). pose proof (bare_domain_no_at de He).
  case_bool_decide as E; [intros _; by eapply after_last_unique in E as [_ ->]|].
  destruct (ContainsAny _ _); [|done]. rewrite !globSlash_app by done.
  destruct (PathMatch.Match _ _) as [[]|] eqn:Em; [|done..]. intros _.
  apply Match_end in Em as [y Hy]; [|by apply literal_domain|done].
  by eapply after_last_unique in Hy as [_ ->].
Qed.
End Anchoring.

Section EntryClaims.
Context `{AddressParser, UnicodeTables, K8sNamesLaws}.

(** The domain of an accepted entry is bare. *)
Lemma entry_bare (e local domain : gostring) :
  addressEntryError e = None → e = local ++ c_at :: domain → c_at ∉ domain → all_ascii domain = true →
  bare_domain domain.
Proof.
  unfold addressEntryError. intros He -> Hat Hascii. destruct (negb _).
  - destruct (ValidatePlainAddress _) as [[]|] eqn:Ev; [|done]. unfold ValidatePlainAddress in Ev.
    destruct (ParseAddress _) as [[name address]|]; [|done]. destruct (_ || _) eqn:Eo; [done|].
    apply orb_false_iff in Eo as [_ Eo]. apply negb_false_iff, bool_decide_eq_true in Eo as ->.
    destruct (ValidateMailbox _) as [[]|] eqn:Em; [|done]. apply ValidateMailbox_parts in Em as (l & d & E & _ & Hd).
    pose proof (bare_domain_valid d Hd) as Hb. apply after_last_unique in E as [_ ->]; [done..|].
    intros Hin. destruct Hb as [_ Hb]. by apply Hb in Hin.
  - destruct (Cut _ c_at) as [[l d]|] eqn:Ec; [|done]. apply Cut_Some in Ec as [E Hl].
    destruct (Contains d "@") eqn:Ect; [done|].
    assert (c_at ∉ d) as Hd.
    { intros (a & b & ->)%list_elem_of_split. apply not_true_iff_false in Ect. apply Ect, Contains_spec. by exists a, b. }
    apply after_last_unique in E as [-> ->]; [|done..]. destruct (ContainsAny d _); [done|].
    destruct (IsDNS1123Subdomain (ToLower d)) eqn:Edns; [|done]. apply subdomain_chars in Edns as [Hlen Hc].
    rewrite ToLower_ascii in Hlen, Hc by done. rewrite length_fmap in Hlen. split; [intros ->; simpl in Hlen; lia|].
    intros c Hin. destruct (Hc (lower_byte c)) as [Hx|[Hx|[Hx|Hx]]].
    { by apply list_elem_of_fmap_2. }
    all: revert Hx; by_byte c.
Qed.

End EntryClaims.

(** ** The warning about senders a backend never allows *)

Section NeverAllowed.
Context `{AddressParser, UnicodeTables, K8sNamesLaws}.

Lemma wildcard_lower (s : gostring) : all_ascii s = true →
  ContainsAny (ToLower (TrimSpace s)) wildcards = true → ContainsAny s wildcards = true.
Proof.
  intros Ha. assert (∀ s2 s3 (t : gostring), ∃ p, t = p ++ trim_with s2 s3 t) as Htrim.
  { intros s2 s3 t. remember (length t) as n eqn:Hn. revert t Hn. induction (lt_wf n) as [n _ IH]. intros t ->.
    destruct t as [|a t1]; [by exists []|]. cbn [trim_with]. destruct (space1 a).
    { destruct (IH (length t1) ltac:(simpl; lia) t1 eq_refl) as [p Hp]. exists (a :: p). simpl. by f_equal. }
    destruct t1 as [|b t2]; [by exists []|]. destruct (s2 a b).
    { destruct (IH (length t2) ltac:(simpl; lia) t2 eq_refl) as [p Hp]. exists (a :: b :: p). simpl. by do 2 f_equal. }
    destruct t2 as [|d t3]; [by exists []|]. destruct (s3 a b d); [|by exists []].
    destruct (IH (length t3) ltac:(simpl; lia) t3 eq_refl) as [p Hp]. exists (a :: b :: d :: p). simpl. by do 3 f_equal. }
  assert (∀ c, c ∈ TrimSpace s → c ∈ s) as Hsub.
  { intros c. unfold TrimSpace. rewrite elem_of_reverse.
    destruct (Htrim (λ a b, space2 b a) (λ a b c, space3 c b a) (reverse (trim_with space2 space3 s))) as [p Hp].
    destruct (Htrim space2 space3 s) as [q Hq]. intros Hc. rewrite Hq. apply elem_of_app. right.
    rewrite <- elem_of_reverse, Hp. apply elem_of_app. by right. }
  assert (all_ascii (TrimSpace s) = true) as Ht.
  { apply forallb_elem. intros c Hc. eapply all_ascii_elem; [done|]. by apply Hsub. }
  rewrite ToLower_ascii by done. unfold ContainsAny. rewrite !existsb_elem.
  intros (c & (c' & -> & Hc)%list_elem_of_fmap & Hw). exists c'. split; [by apply Hsub|].
  clear -Hw. revert Hw. by_byte c'.
Qed.

(** A plain entry is matched by its own spelling only. *)
Lemma AddressMatches_plain (addr e : gostring) : all_ascii e = true → ContainsAny e wildcards = false →
  AddressMatches addr e = true → ToLower (TrimSpace addr) = ToLower (TrimSpace e).
Proof.
  intros Ha Hw. unfold AddressMatches. case_bool_decide as E; [done|].
  destruct (ContainsAny (ToLower _) _) eqn:Ec; [|done]. apply wildcard_lower in Ec; [|done]. congruence.
Qed.

Lemma AddressMatches_cong (a b e : gostring) :
  ToLower (TrimSpace a) = ToLower (TrimSpace b) → AddressMatches a e = AddressMatches b e.
Proof. unfold AddressMatches. by intros ->. Qed.

Lemma TrimSpace_bare (d : gostring) : bare_domain d → TrimSpace d = d.
Proof.
  intros [Hne Hb]. destruct d as [|c r]; [done|]. destruct (last (c :: r)) as [x|] eqn:El; [|by apply last_None in El].
  assert (bare_byte x = true) as Hx by (by apply Hb, last_Some_elem_of).
  assert (bare_byte c = true) as Hc by (apply Hb; left).
  apply bare_byte_facts in Hx as (? & ? & _), Hc as (? & ? & _).
  destruct (TrimSpace_end [] r c x) as (l1 & l2 & E & Ht); try done.
  symmetry in E. apply app_nil in E as [-> ->]. done.
Qed.

(** A valid glob: its local pattern, its domain, and what [domainPart] returns. *)
Lemma glob_entry (e : gostring) : all_ascii e = true → ContainsAny e wildcards = true → addressEntryError e = None →
  ∃ l d, e = l ++ c_at :: d ∧ bare_domain d ∧ domainPart e = d.
Proof.
  intros Ha Hw He. pose proof He as He'. unfold addressEntryError in He'. rewrite Hw in He'. simpl in He'.
  destruct (Cut e c_at) as [[l d]|] eqn:Ec; [|done]. destruct (Contains d _) eqn:Ect; [done|].
  assert (c_at ∉ d) as Hd.
  { intros (a & b & ->)%list_elem_of_split. apply not_true_iff_false in Ect. apply Ect, Contains_spec. by exists a, b. }
  pose proof (proj1 (Cut_Some _ _ _ _) Ec) as [-> _].
  assert (bare_domain d) as Hb.
  { eapply entry_bare; [done..|]. rewrite all_ascii_app in Ha. apply andb_true_iff in Ha as [_ Ha].
    simpl in Ha. done. }
  exists l, d. split_and!; [done..|]. unfold domainPart. rewrite Ec. by apply TrimSpace_bare.
Qed.

(** The warning is accurate: when the webhook says the backend allows none of the
    addresses of a policy entry, no valid address that matches the entry is allowed by
    the backend's list. *)
Theorem never_allowed_sound (e : gostring) (backend : list gostring) (addr : gostring) :
  all_ascii e = true → Forall (λ b, all_ascii b = true) backend → ValidateMailbox addr = Ok () →
  senderNeverAllowed e backend = true → AddressMatches addr e = true → senderAllowed addr backend = false.
Proof.
  intros Ha Hb Hv Hn Hm. apply existsb_false. intros b Hin. rewrite Forall_forall in Hb. specialize (Hb b Hin).
  unfold senderNeverAllowed in Hn. destruct (_ && _) eqn:Eg; [done|].
  rewrite forallb_forall in Hn. specialize (Hn b (proj1 (list_elem_of_In _ _) Hin)).
  apply negb_true_iff in Hn. unfold mayOverlap in Hn.
  destruct (ContainsAny e wildcards) eqn:Ew; simpl in Hn, Eg.
  - destruct (ContainsAny b wildcards) eqn:Ewb; simpl in Hn.
    + destruct (addressEntryError e) eqn:Ee; [done|]. destruct (addressEntryError b) eqn:Eb; [done|].
      destruct (glob_entry e Ha Ew Ee) as (le & de & -> & Hde & Ede).
      destruct (glob_entry b Hb Ewb Eb) as (lb & db & -> & Hdb & Edb). rewrite Ede, Edb in Hn.
      apply ValidateMailbox_parts in Hv as (l & d & -> & _ & Hd). apply bare_domain_valid in Hd.
      apply not_true_iff_false. intros Hm2.
      assert (EqualFold de db = true); [|congruence].
      apply EqualFold_ascii; [by apply bare_domain_ascii..|].
      apply AddressMatches_domain in Hm, Hm2; [congruence|done..].
    + apply not_true_iff_false. intros Hm2. apply AddressMatches_plain in Hm2; [|done..].
      rewrite (AddressMatches_cong _ _ _ Hm2) in Hm. congruence.
  - apply AddressMatches_plain in Hm; [|done..]. by rewrite (AddressMatches_cong _ _ _ Hm).
Qed.
End NeverAllowed.

(** ** What an admitted object guarantees *)

Lemma when_nil {A} (b : bool) (e : A) : when b e = [] ↔ b = false.
Proof. by destruct b. Qed.

Lemma concat_nil {A} (ls : list (list A)) : concat ls = [] ↔ ∀ l, l ∈ ls → l = [].
Proof.
  induction ls as [|l ls IH]; simpl; [set_solver|]. rewrite app_nil, IH. set_solver.
Qed.

Lemma concat_imap_nil {A B} (f : nat → A → list B) (l : list A) :
  concat (imap f l) = [] ↔ ∀ i x, l !! i = Some x → f i x = [].
Proof.
  rewrite concat_nil. split.
  - intros Hn i x Hx. apply Hn. apply list_elem_of_lookup. exists i. by rewrite list_lookup_imap, Hx.
  - intros Hf k (i & Hi)%list_elem_of_lookup. rewrite list_lookup_imap in Hi.
    destruct (l !! i) as [x|] eqn:E; simplify_eq/=. by apply Hf.
Qed.

Lemma errs_nil {A} (errs : list A) : match errs with [] => Ok () | e :: l => Err (e :: l) end = Ok () ↔ errs = [].
Proof. by destruct errs. Qed.

Create Rewrite HintDb field_errors.
#[export] Hint Rewrite @app_nil @when_nil @concat_imap_nil : field_errors.

Section Guarantees.
Context `{AddressParser, UnicodeTables, LabelMatcher, K8sNames, UUIDs}.

(** The namespace rule of a Secret reference. *)
Definition secret_ref_ok (v : BackendValidator) (refNs selfNs : gostring) : Prop :=
  if bv_clusterScoped v then refNs ≠ [] else refNs = [] ∨ refNs = selfNs.

Lemma validateCredentialsRef_nil (v : BackendValidator) (p : Path) (refNs selfNs : gostring) :
  validateCredentialsRef v p refNs selfNs = [] ↔ secret_ref_ok v refNs selfNs.
Proof.
  unfold validateCredentialsRef, secret_ref_ok.
  destruct (bv_clusterScoped v); simpl; repeat case_bool_decide; simpl; naive_solver.
Qed.

Record smtp_admitted (v : BackendValidator) (s : SMTPBackendSpec) (selfNs : gostring) : Prop := {
  sa_endpoints : Endpoints s ≠ [];
  sa_endpoint : ∀ ep, ep ∈ Endpoints s → ep_Host ep ≠ [] ∧ ep_Port ep ≠ 0 ∧ ep_InsecureSkipVerify ep = false;
  sa_credentials : AuthType s ≠ [] → AuthType s ≠ SMTPAuthNone → is_Some (smtp_CredentialsRef s);
  sa_secret : ∀ ref, smtp_CredentialsRef s = Some ref → secret_ref_ok v (sec_Namespace ref) selfNs;
  sa_ca : ∀ ref, CASecretRef s = Some ref → secret_ref_ok v (ca_Namespace ref) selfNs }.

Lemma smtpErrors_nil (v : BackendValidator) (s : SMTPBackendSpec) (selfNs : gostring) :
  smtpErrors v s selfNs = [] → smtp_admitted v s selfNs.
Proof.
  unfold smtpErrors. autorewrite with field_errors. intros (He & Hep & Ha & Hc & Hca). split.
  - intros E. by rewrite E in He.
  - intros ep (i & Hi)%list_elem_of_lookup. apply Hep in Hi. unfold endpointErrors in Hi.
    autorewrite with field_errors in Hi. destruct Hi as (Hh & Hp & Hs). to_prop. done.
  - intros Hty Hnone. unfold authenticates in Ha. rewrite !bool_decide_eq_false_2 in Ha by done.
    destruct (smtp_CredentialsRef s); [done|]. by simpl in Ha.
  - intros ref E. rewrite E in Hc. by apply validateCredentialsRef_nil in Hc.
  - intros ref E. rewrite E in Hca. by apply validateCredentialsRef_nil in Hca.
Qed.

(** The part of an object the validator reads. *)
Definition object_spec (o : BackendObject) : BackendValidator * BackendSpec * gostring :=
  match o with
  | ObjMailBackend b => (NewMailBackendValidator, mb_Spec b, om_Namespace (mb_Meta b))
  | ObjClusterMailBackend b => (NewClusterMailBackendValidator, cmb_Spec b, [])
  end.

Lemma ValidateBackend_nil (implemented : gostring → bool) (o : BackendObject) v spec selfNs :
  object_spec o = (v, spec, selfNs) → ValidateBackend implemented o = Ok () →
  snd (validateBackend v implemented spec selfNs) = [].
Proof. destruct o; intros [= <- <- <-]; unfold ValidateBackend; rewrite errs_nil; done. Qed.

(** C40. A backend that passes [ValidateBackend] has an implemented type; an SMTP backend
    has endpoints that all name a host and a port and verify certificates, credentials
    when it authenticates, and Secrets only of its own namespace (of an explicit one
    when cluster-scoped); a Graph backend has a non-empty sender list; and every entry
    of a backend's sender list passes the entry check. *)
Theorem admitted_backend (implemented : gostring → bool) (o : BackendObject) (v : BackendValidator)
    (spec : BackendSpec) (selfNs : gostring) :
  object_spec o = (v, spec, selfNs) → ValidateBackend implemented o = Ok () →
  implemented (bs_Type spec) = true ∧
  (bs_Type spec = BackendSMTP → ∃ s, bs_SMTP spec = Some s ∧ smtp_admitted v s selfNs) ∧
  (bs_Type spec = BackendMicrosoftGraph → ∃ g l, bs_MicrosoftGraph spec = Some g ∧ bs_SMTP spec = None ∧
     bs_AllowedSenders spec = Some l ∧ l ≠ [] ∧ length (ClientID g) = 36%nat ∧
     secret_ref_ok v (sec_Namespace (graph_CredentialsRef g)) selfNs) ∧
  (∀ l e, bs_AllowedSenders spec = Some l → e ∈ l → addressEntryError e = None).
Proof.
  intros Ho Hv. apply (ValidateBackend_nil _ _ _ _ _ Ho) in Hv. unfold validateBackend in Hv. cbn [snd] in Hv.
  autorewrite with field_errors in Hv. destruct Hv as (Hi & Hs & Hg & He). split_and!.
  - by apply negb_false_iff in Hi.
  - intros E. rewrite bool_decide_eq_true_2 in Hs by done. apply app_nil in Hs as [Hs _].
    destruct (bs_SMTP spec) as [s|]; [|done]. exists s. split; [done|]. by apply smtpErrors_nil.
  - intros E. rewrite bool_decide_eq_true_2 in Hg by done. unfold validateGraph in Hg.
    rewrite !app_nil, !when_nil in Hg. destruct Hg as (Hb & Hl & Hsm).
    destruct (bs_MicrosoftGraph spec) as [g|]; [|done]. autorewrite with field_errors in Hb.
    destruct Hb as (_ & Hid & Hr). apply validateCredentialsRef_nil in Hr.
    destruct (bs_SMTP spec); [done|]. destruct (bs_AllowedSenders spec) as [[|e l]|]; [done| |done].
    exists g, (e :: l). split_and!; try done. apply orb_false_iff in Hid as [_ Hid].
    by apply negb_false_iff, Nat.eqb_eq in Hid.
  - intros l e E (i & Hx)%list_elem_of_lookup. rewrite E in He. apply He in Hx.
    by destruct (addressEntryError e).
Qed.

(** What an admitted policy looks like. *)
Definition matchers (s : PolicySubject) : nat :=
  ((if ServiceAccount s then 1 else 0) + (if ServiceAccountSelector s then 1 else 0) + (if PodSelector s then 1 else 0))%nat.

Definition selector_ok (sel : LabelSelectorSubject) : Prop :=
  (MatchLabels sel ≠ ∅ ∨ MatchExpressions sel ≠ []) ∧ is_Some (LabelSelectorAsSelector sel).

Lemma validateSelector_nil (p : Path) (sel : LabelSelectorSubject) : validateSelector p sel = [] → selector_ok sel.
Proof.
  unfold validateSelector, selector_ok. destruct (_ && _) eqn:E; [done|].
  destruct (LabelSelectorAsSelector sel); [|done]. intros _. split; [|done].
  apply andb_false_iff in E as [E|E]; [left; by apply bool_decide_eq_false in E|right].
  intros En. by rewrite En in E.
Qed.

(** A policy that passes [ValidateMailPolicy] has subjects, each with exactly one
    matcher (a named ServiceAccount, or a selector that is not empty and parses), a
    backend reference of a known kind, and recipient lists whose entries all pass the
    entry check. *)
Theorem admitted_policy (mp : MailPolicy) :
  ValidateMailPolicy mp = Ok () →
  mps_Subjects (mp_Spec mp) ≠ [] ∧
  (∀ s, s ∈ mps_Subjects (mp_Spec mp) → matchers s = 1%nat ∧
     (∀ a, ServiceAccount s = Some a → sa_Name a ≠ []) ∧
     (∀ sel, ServiceAccountSelector s = Some sel ∨ PodSelector s = Some sel → selector_ok sel)) ∧
  br_Name (mps_BackendRef (mp_Spec mp)) ≠ [] ∧
  br_Kind (mps_BackendRef (mp_Spec mp)) ∈ [[]; KindClusterMailBackend; KindMailBackend] ∧
  (∀ r e, mps_RecipientRestrictions (mp_Spec mp) = Some r → e ∈ AllowedRecipients r → addressEntryError e = None).
Proof.
  unfold ValidateMailPolicy. rewrite errs_nil. unfold validatePolicy. cbn [snd].
  autorewrite with field_errors. intros (Hn & Hs & Hb & Hk & _ & Hr). split_and!.
  - intros E. by rewrite E in Hn.
  - intros s (i & Hi)%list_elem_of_lookup. apply Hs in Hi. unfold subjectErrors in Hi.
    autorewrite with field_errors in Hi. destruct Hi as (Hsa & Hsel & Hpod & Hzero & Hmany). split_and!.
    + unfold matchers. destruct (ServiceAccount s), (ServiceAccountSelector s), (PodSelector s); simpl in *; done.
    + intros a Ea. rewrite Ea in Hsa. apply when_nil, bool_decide_eq_false in Hsa. done.
    + intros sel [E|E]; [rewrite E in Hsel|rewrite E in Hpod]; by eapply validateSelector_nil.
  - by apply bool_decide_eq_false in Hb.
  - apply negb_false_iff in Hk. rewrite !orb_true_iff, !bool_decide_eq_true in Hk.
    rewrite !elem_of_cons. naive_solver.
  - intros r e E (i & Hi)%list_elem_of_lookup. rewrite E in Hr. rewrite !app_nil in Hr. destruct Hr as (_ & _ & Hr).
    unfold validateRecipients in Hr. rewrite concat_imap_nil in Hr. apply Hr in Hi.
    unfold recipientEntryError in Hi. by destruct (addressEntryError e) as [[]|].
Qed.
End Guarantees.

(** ** Witnesses *)

(** Plain addresses parse as themselves; names are checked by their characters. *)
Definition plain_parser : AddressParser := {| ParseAddress := λ s, Some ([], s); DecodeHeader := λ _ s, Some s |}.

Definition subdomain_byte (c : ascii) : bool := is_lower c || is_digit c || Ascii.eqb c c_minus || Ascii.eqb c c_period.

Definition simple_names : K8sNames := {|
  IsDNS1123Subdomain := λ s, when (negb ((0 <? length s)%nat && (length s <=? 253)%nat && forallb subdomain_byte s)) (lit "bad");
  IsValidLabelValue := λ s, when (63 <? length s)%nat (lit "too long") |}.

#[export] Instance simple_names_laws : @K8sNamesLaws simple_names.
Proof.
  split. simpl. intros s Hs%when_nil. apply negb_false_iff in Hs. rewrite !andb_true_iff in Hs.
  destruct Hs as [[Hl%Nat.ltb_lt Hu%Nat.leb_le] Hb]. split; [lia|]. intros c Hc.
  rewrite forallb_forall in Hb. apply list_elem_of_In, Hb in Hc. unfold subdomain_byte in Hc.
  rewrite !orb_true_iff in Hc. destruct Hc as [[[Hc|Hc]|Hc%Ascii.eqb_eq]|Hc%Ascii.eqb_eq]; auto.
Defined.


Lemma never_allowed_sound_witness :
  @senderAllowed ascii_tables "bob@a.example" [lit "*@b.example"; lit "carol@a.example"] = false.
Proof.
  apply (@never_allowed_sound plain_parser ascii_tables simple_names simple_names_laws "b*@a.example");
    [reflexivity|repeat constructor|vm_compute; reflexivity..].
Defined.

Definition no_uuids : UUIDs := {| uuid_Parse := λ _, true |}.

Definition example_backend : MailBackend := {|
  mb_Meta := meta_of "team" "relay";
  mb_Spec := {| bs_Type := BackendSMTP;
    bs_SMTP := Some {| Endpoints := [{| ep_Host := "mx1"; ep_Port := 587; ep_TLS := SMTPTLSStartTLS; ep_InsecureSkipVerify := false |}];
                       AuthType := SMTPAuthPlain; smtp_CredentialsRef := Some {| sec_Name := "relay"; sec_Namespace := [] |};
                       ConnectionTimeoutSeconds := 10; HeloDomain := []; CASecretRef := None |};
    bs_MicrosoftGraph := None; bs_HealthCheck := None; bs_AllowedSenders := Some [lit "*@corp.example"] |};
  mb_Status := {| bst_Capabilities := []; bst_EndpointStatus := []; bst_Conditions := []; bst_LastProbeTime := None;
                  bst_ObservedGeneration := 1 |} |}.

Definition shipped (t : gostring) : bool := bool_decide (t ∈ [TypeSMTP; TypeMicrosoftGraph]).

Lemma admitted_backend_witness :
  shipped (bs_Type (mb_Spec example_backend)) = true ∧
  (bs_Type (mb_Spec example_backend) = BackendSMTP →
     ∃ s, bs_SMTP (mb_Spec example_backend) = Some s ∧ smtp_admitted NewMailBackendValidator s "team") ∧
  (bs_Type (mb_Spec example_backend) = BackendMicrosoftGraph →
     ∃ g l, bs_MicrosoftGraph (mb_Spec example_backend) = Some g ∧ bs_SMTP (mb_Spec example_backend) = None ∧
     bs_AllowedSenders (mb_Spec example_backend) = Some l ∧ l ≠ [] ∧ length (ClientID g) = 36%nat ∧
     secret_ref_ok NewMailBackendValidator (sec_Namespace (graph_CredentialsRef g)) "team") ∧
  (∀ l e, bs_AllowedSenders (mb_Spec example_backend) = Some l → e ∈ l →
     @addressEntryError plain_parser ascii_tables simple_names e = None).
Proof.
  apply (@admitted_backend plain_parser ascii_tables simple_names no_uuids shipped (ObjMailBackend example_backend));
    [reflexivity|vm_compute; reflexivity].
Defined.

Lemma admitted_policy_witness :
  mps_Subjects (mp_Spec high_policy) ≠ [] ∧
  (∀ s, s ∈ mps_Subjects (mp_Spec high_policy) → matchers s = 1%nat ∧
     (∀ a, ServiceAccount s = Some a → sa_Name a ≠ []) ∧
     (∀ sel, ServiceAccountSelector s = Some sel ∨ PodSelector s = Some sel → @selector_ok matchLabelsOnly sel)) ∧
  br_Name (mps_BackendRef (mp_Spec high_policy)) ≠ [] ∧
  br_Kind (mps_BackendRef (mp_Spec high_policy)) ∈ [[]; KindClusterMailBackend; KindMailBackend] ∧
  (∀ r e, mps_RecipientRestrictions (mp_Spec high_policy) = Some r → e ∈ AllowedRecipients r →
     @addressEntryError plain_parser ascii_tables simple_names e = None).
Proof. apply (@admitted_policy plain_parser ascii_tables matchLabelsOnly simple_names high_policy). vm_compute. reflexivity. Defined.
