(* ===== verification/Resolver.v ===== *)
(** * Resolving a backend's configuration ([internal/controller/backend_resolver.go]),
      conditions ([conditions.go]) and audit records ([internal/audit])

    Shared by the gateway's send path and the controller's probe loop. *)

From stdpp Require Import pretty.
From S2P Require Import Prelude GoStrings Types Driver.

(** [strconv.Itoa]. *)
Definition Itoa (n : Z) : gostring := lit (pretty n).

(** [net.JoinHostPort]. *)
Definition c_colon : ascii := ":".
Definition JoinHostPort (host port : gostring) : gostring :=
  if elem c_colon host then lit "[" ++ host ++ lit "]:" ++ port else host ++ lit ":" ++ port.

(** ** Secrets *)

(** [x509.CertPool.AppendCertsFromPEM]: whether a PEM text holds a certificate. *)
Class X509 := { AppendCertsFromPEM : gostring → bool }.

Inductive ResolveError :=
| SMTPRequired | CredentialsRequired | GraphRequired | TypeNotImplemented (t : gostring)
| ForeignNamespace (ref own : gostring) | NamespaceRequired
| SecretMissing (ns name : gostring) | SecretUnreadable (e : SecretError)
| NoClientSecret (ns name : gostring) | NoCAKey (ns name key : gostring) | NoCertificate (ns name key : gostring).

(** The namespace a Secret is read from, and its data. *)
Definition backendSecret (get : secret_reader) (name refNs secretFallbackNs : gostring)
    : res ResolveError (gostring * gmap gostring gostring) :=
  let! ns := if secretFallbackNs != [] then
               if (refNs != []) && (refNs != secretFallbackNs) then Err (ForeignNamespace refNs secretFallbackNs)
               else Ok secretFallbackNs
             else Ok refNs in
  if ns == [] then Err NamespaceRequired
  else match get ns name with
       | Ok data => Ok (ns, data)
       | Err SecretNotFound => Err (SecretMissing ns name)
       | Err e => Err (SecretUnreadable e)
       end.

Definition SMTPSecretUsernameKey : gostring := "username".
Definition SMTPSecretPasswordKey : gostring := "password".
Definition GraphSecretClientSecretKey : gostring := "client_secret".

Section Resolve.
Context `{X509}.

(** [caPool]; the system roots plus these certificates. *)
Definition caPool (get : secret_reader) (ref : CASecretReference) (secretFallbackNs : gostring)
    : res ResolveError gostring :=
  let! sec := backendSecret get (ca_Name ref) (ca_Namespace ref) secretFallbackNs in
  let '(ns, data) := sec in
  let key := if ca_Key ref == [] then lit "ca.crt" else ca_Key ref in
  match data !! key with
  | None => Err (NoCAKey ns (ca_Name ref) key)
  | Some pem => if AppendCertsFromPEM pem then Ok pem else Err (NoCertificate ns (ca_Name ref) key)
  end.

Definition resolveEndpoint (ep : SMTPEndpoint) : SMTPEndpoint :=
  {| ep_Host := ep_Host ep; ep_Port := ep_Port ep;
     ep_TLS := if ep_TLS ep == [] then SMTPTLSStartTLS else ep_TLS ep;
     ep_InsecureSkipVerify := ep_InsecureSkipVerify ep |}.

(** A missing key of a Secret reads as the empty string. *)
Definition secretValue (data : gmap gostring gostring) (key : gostring) : gostring := default [] (data !! key).

Definition resolveSMTP (get : secret_reader) (s : SMTPBackendSpec) (secretFallbackNs : gostring)
    : res ResolveError SMTPConfig :=
  let authType := if AuthType s == [] then SMTPAuthNone else AuthType s in
  let! creds :=
    if authType != SMTPAuthNone then
      match smtp_CredentialsRef s with
      | None => Err CredentialsRequired
      | Some ref => let! sec := backendSecret get (sec_Name ref) (sec_Namespace ref) secretFallbackNs in
                    Ok (secretValue (snd sec) SMTPSecretUsernameKey, secretValue (snd sec) SMTPSecretPasswordKey)
      end
    else Ok ([], []) in
  let! roots := match CASecretRef s with
                | None => Ok None
                | Some ref => let! pem := caPool get ref secretFallbackNs in Ok (Some pem)
                end in
  Ok {| sc_Endpoints := resolveEndpoint <$> Endpoints s; sc_AuthType := authType;
        sc_Username := fst creds; sc_Password := snd creds;
        sc_Timeout := ConnectionTimeoutSeconds s; sc_Helo := HeloDomain s; sc_RootCAs := roots |}.

Definition ResolveBackendConfig (get : secret_reader) (backendKey : gostring) (spec : BackendSpec)
    (secretFallbackNs : gostring) : res ResolveError Config :=
  let cfg smtp graph := {| cfg_Type := bs_Type spec; cfg_BackendKey := backendKey; cfg_SMTP := smtp; cfg_Graph := graph |} in
  if bs_Type spec == BackendSMTP then
    match bs_SMTP spec with
    | None => Err SMTPRequired
    | Some s => let! c := resolveSMTP get s secretFallbackNs in Ok (cfg (Some c) None)
    end
  else if bs_Type spec == BackendMicrosoftGraph then
    match bs_MicrosoftGraph spec with
    | None => Err GraphRequired
    | Some g =>
        let! sec := backendSecret get (sec_Name (graph_CredentialsRef g)) (sec_Namespace (graph_CredentialsRef g)) secretFallbackNs in
        let secret := secretValue (snd sec) GraphSecretClientSecretKey in
        if secret == [] then Err (NoClientSecret (fst sec) (sec_Name (graph_CredentialsRef g)))
        else Ok (cfg None (Some {| gc_TenantID := TenantID g; gc_ClientID := ClientID g; gc_ClientSecret := secret |}))
    end
  else Err (TypeNotImplemented (bs_Type spec)).
End Resolve.

(** ** Conditions *)

Definition with_transition (c : Condition) (t : Time) : Condition :=
  {| c_Type := c_Type c; c_Status := c_Status c; c_ObservedGeneration := c_ObservedGeneration c;
     c_LastTransitionTime := t; c_Reason := c_Reason c; c_Message := c_Message c |}.

Fixpoint setCondition (conds : list Condition) (newCond : Condition) : list Condition :=
  match conds with
  | [] => [newCond]
  | c :: conds =>
      if c_Type c == c_Type newCond then
        (if c_Status c == c_Status newCond then with_transition newCond (c_LastTransitionTime c) else newCond) :: conds
      else c :: setCondition conds newCond
  end.

(** ** Audit records *)

Inductive AuditDecision := DecisionAccept | DecisionReject.

#[export] Instance AuditDecision_eq_dec : EqDecision AuditDecision.
Proof. solve_decision. Defined.

Record Event := {
  ev_MessageID : gostring; ev_Namespace : gostring; ev_ServiceAccount : gostring; ev_AuthMethod : gostring;
  ev_Credential : gostring; ev_CredentialPrevious : bool; ev_Cluster : gostring; ev_Transport : gostring;
  ev_From : gostring; ev_To : list gostring; ev_Policy : gostring; ev_Backend : gostring;
  ev_Decision : AuditDecision; ev_Reason : gostring }.

Definition set_Cluster (cluster : gostring) (e : Event) : Event :=
  {| ev_MessageID := ev_MessageID e; ev_Namespace := ev_Namespace e; ev_ServiceAccount := ev_ServiceAccount e;
     ev_AuthMethod := ev_AuthMethod e; ev_Credential := ev_Credential e; ev_CredentialPrevious := ev_CredentialPrevious e;
     ev_Cluster := cluster; ev_Transport := ev_Transport e; ev_From := ev_From e; ev_To := ev_To e;
     ev_Policy := ev_Policy e; ev_Backend := ev_Backend e; ev_Decision := ev_Decision e; ev_Reason := ev_Reason e |}.

(** [WithCluster]: what a record becomes before it is written. *)
Definition WithCluster (cluster : gostring) (e : Event) : Event := if cluster == [] then e else set_Cluster cluster e.

(** ** Facts *)

(** The tenant boundary: a namespaced backend reads Secrets of its own namespace only. *)
Lemma backendSecret_ns (get : secret_reader) (name refNs own ns : gostring) data :
  own ≠ [] → backendSecret get name refNs own = Ok (ns, data) → ns = own ∧ get own name = Ok data.
Proof.
  intros Hown. unfold backendSecret. rewrite (bool_decide_eq_false_2 (own = [])) by done. simpl.
  destruct (_ && _); [done|]. simpl. rewrite bool_decide_eq_false_2 by done.
  destruct (get own name) as [d|[]] eqn:E; naive_solver.
Qed.

(** Every Secret value a configuration holds was read from [own]. *)
Definition read_from (get : secret_reader) (own value : gostring) : Prop :=
  value = [] ∨ ∃ name data key, get own name = Ok data ∧ data !! key = Some value.

Lemma secretValue_read (get : secret_reader) (own name key : gostring) data :
  get own name = Ok data → read_from get own (secretValue data key).
Proof.
  intros Hg. unfold secretValue, read_from. destruct (data !! key) eqn:E; simpl; [right|by left]. eauto.
Qed.

(** C35. Tenants cannot borrow Secrets: every credential and CA certificate in the
    resolved configuration of a namespaced MailBackend was read from a Secret of that
    namespace, whatever namespaces its references name. *)
Theorem resolved_secrets_own_namespace `{X509} (get : secret_reader) (key : gostring) (spec : BackendSpec)
    (own : gostring) (cfg : Config) :
  own ≠ [] → ResolveBackendConfig get key spec own = Ok cfg →
  (∀ s, cfg_SMTP cfg = Some s → read_from get own (sc_Username s) ∧ read_from get own (sc_Password s) ∧
     ∀ pem, sc_RootCAs s = Some pem → read_from get own pem) ∧
  (∀ g, cfg_Graph cfg = Some g → read_from get own (gc_ClientSecret g)).
Proof.
  intros Hown. unfold ResolveBackendConfig. case_bool_decide as Et.
  - destruct (bs_SMTP spec) as [s|]; [|done]. rewrite res_bind_Ok. intros (c & Hc & [= <-]).
    split; [|done]. intros ? [= <-]. unfold resolveSMTP in Hc. apply res_bind_Ok in Hc as ([u p] & Hcr & Hc).
    apply res_bind_Ok in Hc as (roots & Hr & [= <-]). simpl. split_and!.
    1, 2: destruct (_ != _); [|simplify_eq; by left]; destruct (smtp_CredentialsRef s) as [ref|]; [|done];
      apply res_bind_Ok in Hcr as ([ns data] & Hs & [= <- <-]); apply backendSecret_ns in Hs as [-> Hg]; [|done];
      by eapply secretValue_read.
    intros pem ->. destruct (CASecretRef s) as [ref|]; [|done]. apply res_bind_Ok in Hr as (pem' & Hp & [= ->]).
    unfold caPool in Hp. apply res_bind_Ok in Hp as ([ns data] & Hs & Hp). apply backendSecret_ns in Hs as [-> Hg]; [|done].
    destruct (data !! _) as [x|] eqn:Ek; [|done]. destruct (AppendCertsFromPEM x); simplify_eq. right. eauto.
  - case_bool_decide; [|done]. destruct (bs_MicrosoftGraph spec) as [g|]; [|done]. rewrite res_bind_Ok.
    intros ([ns data] & Hs & Hc). apply backendSecret_ns in Hs as [-> Hg]; [|done]. case_bool_decide; [done|].
    simplify_eq. split; [done|]. intros ? [= <-]. simpl. by eapply secretValue_read.
Qed.

(** One condition per type stays one condition per type, the new one is in place,
    and its transition time moves only with its status. *)
Lemma setCondition_types (conds : list Condition) (c : Condition) :
  c_Type <$> setCondition conds c =
  if bool_decide (c_Type c ∈ c_Type <$> conds) then c_Type <$> conds else (c_Type <$> conds) ++ [c_Type c].
Proof.
  induction conds as [|x conds IH]; [done|]. cbn [setCondition]. destruct (bool_decide_reflect (c_Type x = c_Type c)) as [E|E].
  - rewrite (bool_decide_eq_true_2 (c_Type c ∈ _)); [|csimpl; rewrite E; left]. destruct (c_Status x == c_Status c); csimpl; by rewrite E.
  - csimpl. rewrite IH. destruct (bool_decide_reflect (c_Type c ∈ c_Type <$> conds)).
    + rewrite (bool_decide_eq_true_2 (c_Type c ∈ _)); [done|]. by right.
    + rewrite (bool_decide_eq_false_2 (c_Type c ∈ _)); [done|]. intros [?|?]%elem_of_cons; congruence.
Qed.

(** The transition time after setting [c]: the old one while the status is the same. *)
Definition transition_time (conds : list Condition) (c : Condition) : Time :=
  match List.find (λ x, c_Type x == c_Type c) conds with
  | Some old => if c_Status old == c_Status c then c_LastTransitionTime old else c_LastTransitionTime c
  | None => c_LastTransitionTime c
  end.

Lemma with_transition_same (c : Condition) : with_transition c (c_LastTransitionTime c) = c.
Proof. by destruct c. Qed.

(** Setting a condition replaces the one of its type or appends it: the types stay
    unique and in order, the condition found is the new one with the old transition
    time exactly while the status is unchanged, and other conditions stay as they are. *)
Theorem set_condition_correct (conds : list Condition) (c : Condition) :
  (c_Type <$> setCondition conds c =
   if bool_decide (c_Type c ∈ c_Type <$> conds) then c_Type <$> conds else (c_Type <$> conds) ++ [c_Type c]) ∧
  List.find (λ x, c_Type x == c_Type c) (setCondition conds c) = Some (with_transition c (transition_time conds c)) ∧
  ∀ t, t ≠ c_Type c →
    List.find (λ x, c_Type x == t) (setCondition conds c) = List.find (λ x, c_Type x == t) conds.
Proof.
  split; [apply setCondition_types|]. unfold transition_time. split.
  - induction conds as [|x conds IH]; cbn [setCondition List.find].
    { rewrite bool_decide_eq_true_2 by done. by rewrite with_transition_same. }
    destruct (bool_decide_reflect (c_Type x = c_Type c)) as [E|E].
    + destruct (bool_decide_reflect (c_Status x = c_Status c)) as [Es|Es]; cbn [List.find].
      * by rewrite (bool_decide_eq_true_2 (c_Type (with_transition _ _) = _)).
      * rewrite (bool_decide_eq_true_2 (c_Type c = _)) by done. by rewrite with_transition_same.
    + cbn [List.find]. by rewrite (bool_decide_eq_false_2 (c_Type x = c_Type c)).
  - intros t Ht. induction conds as [|x conds IH]; cbn [setCondition List.find].
    { by rewrite bool_decide_eq_false_2. }
    destruct (bool_decide_reflect (c_Type x = c_Type c)) as [E|E].
    + rewrite (bool_decide_eq_false_2 (c_Type x = t)) by congruence.
      destruct (c_Status x == c_Status c); cbn [List.find]; by rewrite (bool_decide_eq_false_2 (_ = t)).
    + cbn [List.find]. by rewrite IH.
Qed.

(** ** Witness *)

Definition example_secrets : secret_reader := λ ns name,
  if (ns == lit "team") && (name == lit "relay")
  then Ok {[SMTPSecretUsernameKey := lit "u"; SMTPSecretPasswordKey := lit "p"]} else Err SecretNotFound.

Definition any_certificate : X509 := {| AppendCertsFromPEM := λ _, true |}.

Definition example_smtp_spec : BackendSpec :=
  {| bs_Type := BackendSMTP;
     bs_SMTP := Some {| Endpoints := [{| ep_Host := "mx1"; ep_Port := 587; ep_TLS := []; ep_InsecureSkipVerify := false |}];
                        AuthType := SMTPAuthPlain; smtp_CredentialsRef := Some {| sec_Name := "relay"; sec_Namespace := [] |};
                        ConnectionTimeoutSeconds := 10; HeloDomain := []; CASecretRef := None |};
     bs_MicrosoftGraph := None; bs_HealthCheck := None; bs_AllowedSenders := None |}.

Definition example_config : Config :=
  {| cfg_Type := BackendSMTP; cfg_BackendKey := "team/relay";
     cfg_SMTP := Some {| sc_Endpoints := [{| ep_Host := "mx1"; ep_Port := 587; ep_TLS := SMTPTLSStartTLS; ep_InsecureSkipVerify := false |}];
                         sc_AuthType := SMTPAuthPlain; sc_Username := "u"; sc_Password := "p"; sc_Timeout := 10;
                         sc_Helo := []; sc_RootCAs := None |};
     cfg_Graph := None |}.

Lemma resolved_secrets_own_namespace_witness :
  (∀ s, cfg_SMTP example_config = Some s → read_from example_secrets "team" (sc_Username s) ∧
     read_from example_secrets "team" (sc_Password s) ∧
     ∀ pem, sc_RootCAs s = Some pem → read_from example_secrets "team" pem) ∧
  (∀ g, cfg_Graph example_config = Some g → read_from example_secrets "team" (gc_ClientSecret g)).
Proof.
  apply (@resolved_secrets_own_namespace any_certificate example_secrets "team/relay" example_smtp_spec);
    [discriminate|vm_compute; reflexivity].
Defined.
