(* ===== verification/Gateway.v ===== *)
(** * The send pipeline ([internal/gateway])

    One call of [Send] matches and evaluates the policy, resolves the backend, charges
    the rate limit and sends.  The state it changes is explicit: the validity cache,
    the limiter (any [Limiter]), the audit stream and the driver calls.  What it reads
    (policies, ServiceAccounts, backends, Secrets, drivers) is the environment of the
    call.  Logs, metrics and traces are left out. *)

From S2P Require Import Prelude GoStrings Types Address Engine RateLimit Credential Driver Webhook Resolver.

(** ** Data *)

Definition AuthOAuthBearer : gostring := "oauth_bearer".
Definition AuthPodIPLegacy : gostring := "pod_ip_legacy".
Definition AuthSMTPCredential : gostring := "smtp_credential".

Record Identity := {
  id_Namespace : gostring; id_ServiceAccount : gostring; id_AuthMethod : gostring;
  id_PodLabels : gmap gostring gostring; id_Credential : gostring; id_CredentialPrevious : bool }.

(** [rq_Raw = None]: the driver assembles [rq_Message]. *)
Record Request := {
  rq_Identity : Identity; rq_Transport : gostring; rq_MessageID : gostring; rq_Message : Message;
  rq_Raw : option gostring; rq_EnvelopeFrom : gostring; rq_Sender : gostring; rq_ReplyTo : list gostring;
  rq_SizeBytes : Z }.

Inductive Status :=
| StatusAccepted | StatusDenied | StatusRateLimited | StatusBackendNotReady | StatusUpstreamError
| StatusUnavailable | StatusPolicyInvalid.

#[export] Instance Status_eq_dec : EqDecision Status.
Proof. solve_decision. Defined.

(** Why a backend cannot be used. *)
Inductive BackendError :=
| BackendLookup | BackendInvalid (errs : list FieldError) | BackendNotReadyErr | UnsupportedKind (kind : gostring)
| BackendConfig (e : ResolveError) | DriverFailed (msg : gostring).

Inductive DetailText :=
| NoDetail | PolicyDetail (msg : gostring) | PolicyInvalidDetail (errs : list FieldError)
| BackendDetail (e : BackendError) | UpstreamDetail (e : error).

Record SendOutcome := {
  so_Status : Status; so_Policy : gostring; so_Backend : gostring; so_DenyReason : option DenyReason;
  so_Detail : DetailText; so_RetryAfter : Duration; so_Permanent : bool; so_UpstreamID : gostring;
  so_AcceptedAt : Time }.

(** A driver's behaviour in this call; [drv_SendRaw = None] is a driver that is no
    [RawSender]. *)
Record Driver := {
  drv_Send : Message → res error SendResult;
  drv_SendRaw : option (gostring → list gostring → gostring → res error SendResult) }.

(** What the pipeline reads. *)
Record Env := {
  env_Policies : gostring → list MailPolicy;
  env_SALabels : gostring → gostring → option (gmap gostring gostring);
  env_MailBackend : gostring → gostring → option MailBackend;
  env_ClusterMailBackend : gostring → option ClusterMailBackend;
  env_Secrets : secret_reader;
  env_Implemented : gostring → bool;
  env_NewDriver : Config → res gostring Driver }.

(** ** The validity cache *)

Definition maxValidityEntries : nat := 4096.

Record validity := { v_generation : Z; v_err : res (list FieldError) unit }.

Definition validityCache := gmap gostring validity.

Definition check (meta : ObjectMeta) (validate : res (list FieldError) unit) (c : validityCache)
    : validityCache * res (list FieldError) unit :=
  if (om_UID meta == []) || (om_Generation meta =? 0) then (c, validate)
  else
    let fresh :=
      let c := if (maxValidityEntries <=? size c)%nat then ∅ else c in
      (<[om_UID meta := {| v_generation := om_Generation meta; v_err := validate |}]> c, validate) in
    match c !! om_UID meta with
    | Some v => if v_generation v =? om_Generation meta then (c, v_err v) else fresh
    | None => fresh
    end.

(** ** Helpers *)

Definition Recipients (m : Message) : list gostring :=
  (a_Address <$> m_To m) ++ (a_Address <$> m_Cc m) ++ (a_Address <$> m_Bcc m).

Definition endpointKey (host : gostring) (port : Z) : gostring := JoinHostPort host (Itoa port).

Definition preferReadyEndpoints (eps : list SMTPEndpoint) (probed : list EndpointStatus) : list SMTPEndpoint :=
  let unready := (λ st, endpointKey (es_Host st) (es_Port st)) <$> List.filter (λ st, negb (es_Ready st)) probed in
  if (length unready =? 0)%nat then eps
  else
    let isUnready ep := bool_decide (endpointKey (ep_Host ep) (ep_Port ep) ∈ unready) in
    List.filter (λ ep, negb (isUnready ep)) eps ++ List.filter isUnready eps.

Definition backendIsReady (s : BackendStatus) : bool :=
  match List.find (λ c, c_Type c == ConditionReady) (bst_Conditions s) with
  | Some c => c_Status c == ConditionTrue
  | None => false
  end.

Definition policyName (p : option MailPolicy) : gostring := match p with Some p => mp_Name p | None => [] end.

Definition set_endpoints (cfg : Config) (probed : list EndpointStatus) : Config :=
  match cfg_SMTP cfg with
  | None => cfg
  | Some s =>
      {| cfg_Type := cfg_Type cfg; cfg_BackendKey := cfg_BackendKey cfg;
         cfg_SMTP := Some {| sc_Endpoints := preferReadyEndpoints (sc_Endpoints s) probed;
                             sc_AuthType := sc_AuthType s; sc_Username := sc_Username s; sc_Password := sc_Password s;
                             sc_Timeout := sc_Timeout s; sc_Helo := sc_Helo s; sc_RootCAs := sc_RootCAs s |};
         cfg_Graph := cfg_Graph cfg |}
  end.

(** A call of the driver: what was handed to it and what it answered. *)
Record Delivery := {
  dl_Backend : gostring; dl_From : gostring; dl_Recipients : list gostring; dl_Result : res error SendResult }.

Record Gateway (L : Type) := {
  gw_validity : validityCache; gw_limiter : L; gw_audit : list Event; gw_sent : list Delivery }.
Arguments gw_validity {L} _. Arguments gw_limiter {L} _. Arguments gw_audit {L} _. Arguments gw_sent {L} _.
Arguments Build_Gateway {L} _ _ _ _.

Section Pipeline.
Context `{AddressParser, UnicodeTables, LabelMatcher, K8sNames, UUIDs, X509, Limiter L}.

Definition set_validity (v : validityCache) (g : Gateway L) : Gateway L :=
  Build_Gateway v (gw_limiter g) (gw_audit g) (gw_sent g).
Definition set_limiter (l : L) (g : Gateway L) : Gateway L :=
  Build_Gateway (gw_validity g) l (gw_audit g) (gw_sent g).
Definition record (e : Event) (g : Gateway L) : Gateway L :=
  Build_Gateway (gw_validity g) (gw_limiter g) (gw_audit g ++ [e]) (gw_sent g).
Definition delivered (d : Delivery) (g : Gateway L) : Gateway L :=
  Build_Gateway (gw_validity g) (gw_limiter g) (gw_audit g) (gw_sent g ++ [d]).

(** [backendForPolicy]: key, spec, status and the namespace Secrets default to. *)
Definition backendForPolicy (env : Env) (p : MailPolicy) (v : validityCache)
    : validityCache * res BackendError (gostring * BackendSpec * BackendStatus * gostring) :=
  let name := br_Name (mps_BackendRef (mp_Spec p)) in
  let kind := br_Kind (mps_BackendRef (mp_Spec p)) in
  if kind == KindMailBackend then
    match env_MailBackend env (mp_Namespace p) name with
    | None => (v, Err BackendLookup)
    | Some mb =>
        let '(v, verr) := check (mb_Meta mb) (ValidateBackend (env_Implemented env) (ObjMailBackend mb)) v in
        (v, match verr with
            | Err e => Err (BackendInvalid e)
            | Ok _ => if negb (backendIsReady (mb_Status mb)) then Err BackendNotReadyErr
                      else Ok (mp_Namespace p ++ lit "/" ++ om_Name (mb_Meta mb), mb_Spec mb, mb_Status mb,
                               om_Namespace (mb_Meta mb))
            end)
    end
  else if (kind == KindClusterMailBackend) || (kind == []) then
    match env_ClusterMailBackend env name with
    | None => (v, Err BackendLookup)
    | Some cmb =>
        let '(v, verr) := check (cmb_Meta cmb) (ValidateBackend (env_Implemented env) (ObjClusterMailBackend cmb)) v in
        (v, match verr with
            | Err e => Err (BackendInvalid e)
            | Ok _ => if negb (backendIsReady (cmb_Status cmb)) then Err BackendNotReadyErr
                      else Ok (lit "/" ++ om_Name (cmb_Meta cmb), cmb_Spec cmb, cmb_Status cmb, [])
            end)
    end
  else (v, Err (UnsupportedKind kind)).

Definition openDriver (env : Env) (backendKey : gostring) (spec : BackendSpec) (status : BackendStatus)
    (secretNs : gostring) : res BackendError Driver :=
  match ResolveBackendConfig (env_Secrets env) backendKey spec secretNs with
  | Err e => Err (BackendConfig e)
  | Ok cfg => match env_NewDriver env (set_endpoints cfg (bst_EndpointStatus status)) with
              | Err msg => Err (DriverFailed msg)
              | Ok d => Ok d
              end
  end.

Definition view_of (req : Request) : MessageView := {|
  mv_From := a_Address (m_From (rq_Message req)); mv_EnvelopeFrom := rq_EnvelopeFrom req;
  mv_Sender := rq_Sender req; mv_Recipients := Recipients (rq_Message req); mv_ReplyTo := rq_ReplyTo req;
  mv_SizeBytes := rq_SizeBytes req |}.

Definition event_of (req : Request) (policy backend : gostring) (d : AuditDecision) (reason : gostring) : Event :=
  let id := rq_Identity req in
  {| ev_MessageID := rq_MessageID req; ev_Namespace := id_Namespace id; ev_ServiceAccount := id_ServiceAccount id;
     ev_AuthMethod := id_AuthMethod id; ev_Credential := id_Credential id;
     ev_CredentialPrevious := id_CredentialPrevious id; ev_Cluster := []; ev_Transport := rq_Transport req;
     ev_From := a_Address (m_From (rq_Message req)); ev_To := Recipients (rq_Message req);
     ev_Policy := policy; ev_Backend := backend; ev_Decision := d; ev_Reason := reason |}.

Definition outcome (s : Status) (policy backend : gostring) (d : DetailText) : SendOutcome :=
  {| so_Status := s; so_Policy := policy; so_Backend := backend; so_DenyReason := None; so_Detail := d;
     so_RetryAfter := 0; so_Permanent := false; so_UpstreamID := []; so_AcceptedAt := 0 |}.

Definition callerOf (env : Env) (req : Request) : Caller :=
  let id := rq_Identity req in
  let labels := if NeedsSALabels (env_Policies env (id_Namespace id))
                then env_SALabels env (id_Namespace id) (id_ServiceAccount id) else None in
  {| cl_Namespace := id_Namespace id; cl_ServiceAccount := id_ServiceAccount id;
     cl_SALabels := default ∅ labels; cl_SALabelsKnown := bool_decide (is_Some labels);
     cl_LegacyPodIP := id_AuthMethod id == AuthPodIPLegacy; cl_PodLabels := id_PodLabels id |}.

(** The [deny] closure. *)
Definition denied (req : Request) (policy : gostring) (reason : DenyReason) (detail : DetailText) (backend : gostring)
    (g : Gateway L) : Gateway L * SendOutcome :=
  (record (event_of req policy backend DecisionReject (DenyReason_string reason)) g,
   {| so_Status := StatusDenied; so_Policy := policy; so_Backend := backend; so_DenyReason := Some reason;
      so_Detail := detail; so_RetryAfter := 0; so_Permanent := false; so_UpstreamID := []; so_AcceptedAt := 0 |}).

(** The [notReady] closure; [ev.Backend] is still empty before the backend is found. *)
Definition notReady (req : Request) (p : MailPolicy) (backend : gostring) (e : BackendError) (g : Gateway L)
    : Gateway L * SendOutcome :=
  (record (event_of req (mp_Name p) backend DecisionReject "backend_not_ready") g,
   outcome StatusBackendNotReady (mp_Name p) [] (BackendDetail e)).

Definition limitsOf (p : MailPolicy) : Limits :=
  match mps_RateLimits (mp_Spec p) with
  | Some rl => {| PerMinute := MessagesPerMinute rl; PerHour := MessagesPerHour rl; PerDay := MessagesPerDay rl |}
  | None => {| PerMinute := 0; PerHour := 0; PerDay := 0 |}
  end.

Definition rlKey (p : MailPolicy) : gostring := mp_Namespace p ++ lit "/" ++ mp_Name p.

(** The call of the driver: [SendRaw] for a raw message, if the driver has it. *)
Definition callDriver (d : Driver) (req : Request) : res error SendResult :=
  match rq_Raw req with
  | Some raw => match drv_SendRaw d with
                | None => Err (EWrap "backend cannot relay raw messages" (ESentinel ErrUpstreamPermanent))
                | Some send => send (rq_EnvelopeFrom req) (Recipients (rq_Message req)) raw
                end
  | None => drv_Send d (rq_Message req)
  end.

(** Whether [callDriver] reaches the driver. *)
Definition reaches (d : Driver) (req : Request) : bool :=
  match rq_Raw req, drv_SendRaw d with Some _, None => false | _, _ => true end.

Definition refund (now : Time) (charged : bool) (p : MailPolicy) (g : Gateway L) : Gateway L :=
  if charged then set_limiter (fst (Refund now (rlKey p) (gw_limiter g))) g else g.

(** The part of [Send] after the rate limit was charged. *)
Definition sendCharged (now : Time) (req : Request) (p : MailPolicy) (backendKey : gostring) (d : Driver)
    (charged : bool) (g : Gateway L) : Gateway L * SendOutcome :=
  let r := callDriver d req in
  let g := if reaches d req then
             delivered {| dl_Backend := backendKey; dl_From := a_Address (m_From (rq_Message req));
                          dl_Recipients := Recipients (rq_Message req); dl_Result := r |} g
           else g in
  match r with
  | Err err =>
      if Is err ErrRecipientNotInEnvelope then
        denied req (mp_Name p) DenyRecipientBlocked (UpstreamDetail err) backendKey (refund now charged p g)
      else
        let permanent := Is err ErrUpstreamPermanent in
        let g := record (event_of req (mp_Name p) backendKey DecisionReject
                   (if permanent then "upstream_rejected" else "upstream_error")) g in
        let g := refund now (charged && negb permanent) p g in
        (g, {| so_Status := StatusUpstreamError; so_Policy := mp_Name p; so_Backend := backendKey; so_DenyReason := None;
               so_Detail := UpstreamDetail err;
               so_RetryAfter := if permanent then 0 else RetryAfter (Some err);
               so_Permanent := permanent; so_UpstreamID := []; so_AcceptedAt := 0 |})
  | Ok res =>
      (record (event_of req (mp_Name p) backendKey DecisionAccept []) g,
       {| so_Status := StatusAccepted; so_Policy := mp_Name p; so_Backend := backendKey; so_DenyReason := None;
          so_Detail := NoDetail; so_RetryAfter := 0; so_Permanent := false;
          so_UpstreamID := sr_UpstreamID res; so_AcceptedAt := sr_AcceptedAt res |})
  end.

(** The part of [Send] after the policy allowed the message. *)
Definition sendAllowed (env : Env) (now : Time) (req : Request) (p : MailPolicy) (g : Gateway L)
    : Gateway L * SendOutcome :=
  let '(v, b) := backendForPolicy env p (gw_validity g) in
  let g := set_validity v g in
  match b with
  | Err e => notReady req p [] e g
  | Ok (backendKey, spec, status, secretNs) =>
      match match bs_AllowedSenders spec with
            | None => ([], true)
            | Some allowed => SendersAllowed (view_of req) allowed
            end with
      | (from, false) =>
          denied req (mp_Name p) DenySenderNotAllowed
            (PolicyDetail (lit "sender '" ++ from ++ lit "' not in the backend's allowedSenders")) backendKey g
      | (_, true) =>
          match openDriver env backendKey spec status secretNs with
          | Err e => notReady req p backendKey e g
          | Ok d =>
              if Limits_None (limitsOf p) then sendCharged now req p backendKey d false g
              else
                let '(l, r) := Allow now (rlKey p) (limitsOf p) (gw_limiter g) in
                let g := set_limiter l g in
                match r with
                | Err _ =>
                    (record (event_of req (mp_Name p) backendKey DecisionReject "ratelimit_unavailable") g,
                     outcome StatusUnavailable (mp_Name p) [] (PolicyDetail "rate limiter unavailable; retry later"))
                | Ok (false, retry) =>
                    (record (event_of req (mp_Name p) backendKey DecisionReject "rate_limited") g,
                     {| so_Status := StatusRateLimited; so_Policy := mp_Name p; so_Backend := []; so_DenyReason := None;
                        so_Detail := PolicyDetail (lit "policy '" ++ mp_Name p ++ lit "' rate limit exceeded");
                        so_RetryAfter := retry; so_Permanent := false; so_UpstreamID := []; so_AcceptedAt := 0 |})
                | Ok (true, _) => sendCharged now req p backendKey d true g
                end
          end
      end
  end.

Definition Send (env : Env) (now : Time) (req : Request) (g : Gateway L) : Gateway L * SendOutcome :=
  let matched := Match (env_Policies env (id_Namespace (rq_Identity req))) (callerOf env req) in
  let '(v, verr) := match matched with
                    | None => (gw_validity g, Ok ())
                    | Some p => check (mp_Meta p) (ValidateMailPolicy p) (gw_validity g)
                    end in
  let g := set_validity v g in
  match verr with
  | Err errs =>
      (record (event_of req (policyName matched) [] DecisionReject "policy_invalid") g,
       outcome StatusPolicyInvalid (policyName matched) [] (PolicyInvalidDetail errs))
  | Ok _ =>
      let decision := Evaluate matched (view_of req) in
      match d_Allowed decision, d_Policy decision with
      | true, Some p => sendAllowed env now req p g
      | _, pol =>
          denied req (policyName pol) (default DenyNoPolicy (d_DenyReason decision))
            (PolicyDetail (d_DenyDetail decision)) [] g
      end
  end.

(** [Reject]: a request refused before the pipeline. *)
Definition Reject (ev : Event) (reason : gostring) (g : Gateway L) : Gateway L :=
  record {| ev_MessageID := ev_MessageID ev; ev_Namespace := ev_Namespace ev; ev_ServiceAccount := ev_ServiceAccount ev;
            ev_AuthMethod := ev_AuthMethod ev; ev_Credential := ev_Credential ev;
            ev_CredentialPrevious := ev_CredentialPrevious ev; ev_Cluster := ev_Cluster ev; ev_Transport := ev_Transport ev;
            ev_From := ev_From ev; ev_To := ev_To ev; ev_Policy := ev_Policy ev; ev_Backend := ev_Backend ev;
            ev_Decision := DecisionReject; ev_Reason := reason |} g.
End Pipeline.

(** ** The validity cache answers like the validator *)

Section Validity.
(** The result of validation per UID and generation: a spec changes only with its
    generation. *)
Context (truth : gostring → Z → res (list FieldError) unit).

Definition cache_ok (c : validityCache) : Prop :=
  ∀ uid v, c !! uid = Some v → v_err v = truth uid (v_generation v).

Definition described (meta : ObjectMeta) (validate : res (list FieldError) unit) : Prop :=
  om_UID meta ≠ [] → om_Generation meta ≠ 0 → validate = truth (om_UID meta) (om_Generation meta).

Lemma check_ok (meta : ObjectMeta) (validate : res (list FieldError) unit) (c : validityCache) :
  cache_ok c → described meta validate →
  snd (check meta validate c) = validate ∧ cache_ok (fst (check meta validate c)).
Proof.
  intros Hc Hd. unfold check. destruct (_ || _) eqn:E; [done|]. apply orb_false_iff in E as [Eu Eg].
  apply bool_decide_eq_false in Eu. apply Z.eqb_neq in Eg. specialize (Hd Eu Eg). cbv zeta.
  set (fresh := (_, validate)).
  assert (snd fresh = validate ∧ cache_ok (fst fresh)) as Hf.
  { split; [done|]. intros uid v. unfold fresh. cbn [fst].
    intros [[<- <-]|[_ Hl]]%lookup_insert_Some; [done|].
    destruct (maxValidityEntries <=? size c)%nat; [by apply (lookup_empty_Some (M:=gmap gostring)) in Hl|by apply Hc]. }
  destruct (c !! om_UID meta) as [v|] eqn:El; [|done]. destruct (Z.eqb_spec (v_generation v) (om_Generation meta)) as [Ev|]; [|done].
  simpl. split; [|done]. by rewrite (Hc _ _ El), Ev, Hd.
Qed.
End Validity.

(** ** Facts about one call *)

Section PipelineFacts.
Context `{AddressParser, UnicodeTables, LabelMatcher, K8sNames, UUIDs, X509, Limiter L}.

(** What one call adds to the audit stream. *)
Definition audited (req : Request) (g g' : Gateway L) (o : SendOutcome) : Prop :=
  ∃ e, gw_audit g' = gw_audit g ++ [e] ∧
    ev_MessageID e = rq_MessageID req ∧ ev_Namespace e = id_Namespace (rq_Identity req) ∧
    ev_ServiceAccount e = id_ServiceAccount (rq_Identity req) ∧ ev_To e = Recipients (rq_Message req) ∧
    ev_Policy e = so_Policy o ∧ (ev_Decision e = DecisionAccept ↔ so_Status o = StatusAccepted).

Lemma refund_audit (now : Time) (b : bool) (p : MailPolicy) (g : Gateway L) :
  gw_audit (refund now b p g) = gw_audit g ∧ gw_sent (refund now b p g) = gw_sent g ∧
  gw_validity (refund now b p g) = gw_validity g.
Proof. by destruct b. Qed.

Lemma sendCharged_audited (now : Time) (req : Request) (p : MailPolicy) (key : gostring) (d : Driver) (charged : bool)
    (g : Gateway L) :
  audited req g (fst (sendCharged now req p key d charged g)) (snd (sendCharged now req p key d charged g)).
Proof.
  unfold sendCharged. set (g1 := if reaches d req then _ else g).
  assert (gw_audit g1 = gw_audit g) as Hg1 by (unfold g1; by destruct (reaches d req)).
  destruct (callDriver d req) as [res|err]; [|destruct (Is err ErrRecipientNotInEnvelope)].
  - eexists. split; [simpl; by rewrite Hg1|]. done.
  - eexists. split; [simpl; by rewrite (proj1 (refund_audit _ _ _ _)), Hg1|]. by split_and!.
  - eexists. split; [simpl; rewrite (proj1 (refund_audit _ _ _ _)); simpl; by rewrite Hg1|]. by split_and!.
Qed.

Lemma audited_via (req : Request) (g1 g g' : Gateway L) (o : SendOutcome) :
  gw_audit g1 = gw_audit g → audited req g1 g' o → audited req g g' o.
Proof. intros E (e & He & ?). exists e. by rewrite <- E. Qed.

Lemma sendAllowed_audited (env : Env) (now : Time) (req : Request) (p : MailPolicy) (g : Gateway L) :
  audited req g (fst (sendAllowed env now req p g)) (snd (sendAllowed env now req p g)).
Proof.
  unfold sendAllowed. destruct (backendForPolicy env p (gw_validity g)) as [v b]. cbv zeta.
  destruct b as [[[[key spec] status] ns]|e].
  2: { eexists. split; [done|]. by split_and!. }
  destruct (match bs_AllowedSenders spec with Some _ => _ | None => _ end) as [from [|]].
  2: { eexists. split; [done|]. by split_and!. }
  destruct (openDriver env key spec status ns) as [d|e].
  2: { eexists. split; [done|]. by split_and!. }
  destruct (Limits_None (limitsOf p)).
  { eapply audited_via; [|apply sendCharged_audited]. done. }
  destruct (Allow now (rlKey p) (limitsOf p) _) as [l [[[] retry]|e]].
  - eapply audited_via; [|apply sendCharged_audited]. done.
  - eexists. split; [done|]. by split_and!.
  - eexists. split; [done|]. by split_and!.
Qed.

Lemma Evaluate_policy (m : option MailPolicy) (v : MessageView) : d_Policy (Evaluate m v) = m.
Proof. unfold Evaluate. destruct m; [|done]. repeat case_match; done. Qed.

Lemma Send_audited (env : Env) (now : Time) (req : Request) (g : Gateway L) :
  audited req g (fst (Send env now req g)) (snd (Send env now req g)).
Proof.
  unfold Send. set (m := Match _ _). destruct (match m with Some _ => _ | None => _ end) as [v verr]. cbv zeta.
  destruct verr as [u|errs]; [|eexists; split; [done|]; by split_and!].
  rewrite Evaluate_policy. destruct (d_Allowed _), m as [p|]; try (eexists; split; [done|]; by split_and!).
  eapply audited_via; [|apply sendAllowed_audited]. done.
Qed.

(** What one call does to the rate limit of policy [p]. *)
Definition budget (now : Time) (p : MailPolicy) (o : SendOutcome) (l l' : L) : Prop :=
  let charge := Allow now (rlKey p) (limitsOf p) l in
  let refunded := fst (Refund now (rlKey p) (fst charge)) in
  match so_Status o with
  | StatusAccepted =>
      if Limits_None (limitsOf p) then l' = l else l' = fst charge ∧ ∃ r, snd charge = Ok (true, r)
  | StatusUpstreamError =>
      if Limits_None (limitsOf p) then l' = l
      else l' = (if so_Permanent o then fst charge else refunded) ∧ ∃ r, snd charge = Ok (true, r)
  | StatusRateLimited => l' = fst charge ∧ snd charge = Ok (false, so_RetryAfter o)
  | StatusUnavailable => l' = fst charge ∧ ∃ e, snd charge = Err e
  | StatusDenied => l' = l ∨ (l' = refunded ∧ ∃ r, snd charge = Ok (true, r))
  | StatusPolicyInvalid | StatusBackendNotReady => l' = l
  end.

Lemma sendCharged_limiter (now : Time) (req : Request) (p : MailPolicy) (key : gostring) (d : Driver) (charged : bool)
    (g : Gateway L) :
  let r := sendCharged now req p key d charged g in
  match so_Status (snd r) with
  | StatusAccepted => gw_limiter (fst r) = gw_limiter g
  | StatusUpstreamError => gw_limiter (fst r) =
      if so_Permanent (snd r) || negb charged then gw_limiter g else fst (Refund now (rlKey p) (gw_limiter g))
  | StatusDenied => gw_limiter (fst r) = if charged then fst (Refund now (rlKey p) (gw_limiter g)) else gw_limiter g
  | _ => False
  end.
Proof.
  unfold sendCharged. cbv zeta. set (g1 := if reaches d req then _ else g).
  assert (gw_limiter g1 = gw_limiter g) as Hg1 by (unfold g1; by destruct (reaches d req)).
  destruct (callDriver d req) as [res|err]; [|destruct (Is err ErrRecipientNotInEnvelope)]; simpl.
  - done.
  - destruct charged; simpl; by rewrite Hg1.
  - destruct charged, (Is err ErrUpstreamPermanent); simpl; by rewrite Hg1.
Qed.

Lemma sendAllowed_budget (env : Env) (now : Time) (req : Request) (p : MailPolicy) (g : Gateway L) :
  budget now p (snd (sendAllowed env now req p g)) (gw_limiter g) (gw_limiter (fst (sendAllowed env now req p g))).
Proof.
  unfold sendAllowed. destruct (backendForPolicy env p (gw_validity g)) as [v b]. cbv zeta.
  destruct b as [[[[key spec] status] ns]|e]; [|done].
  destruct (match bs_AllowedSenders spec with Some _ => _ | None => _ end) as [from [|]]; [|by left].
  destruct (openDriver env key spec status ns) as [d|e]; [|done].
  destruct (Limits_None (limitsOf p)) eqn:En.
  { pose proof (sendCharged_limiter now req p key d false (set_validity v g)) as Hs. cbv zeta in Hs.
    unfold budget. rewrite En. destruct (so_Status _); try done; [by left|]. by rewrite orb_true_r in Hs. }
  destruct (Allow now (rlKey p) (limitsOf p) (gw_limiter (set_validity v g))) as [l r] eqn:Ea.
  simpl in Ea. unfold budget. rewrite Ea, En. destruct r as [[[] retry]|e]; simpl; [|by eauto..].
  pose proof (sendCharged_limiter now req p key d true (set_limiter l (set_validity v g))) as Hs. cbv zeta in Hs.
  destruct (so_Status _); try done; simpl in Hs; rewrite ?orb_false_r in Hs; eauto.
Qed.

Definition object_status (o : BackendObject) : BackendStatus :=
  match o with ObjMailBackend b => mb_Status b | ObjClusterMailBackend b => cmb_Status b end.

(** Why a delivery took place, and that its result [x] is the answer of the backend's
    driver. *)
Record authorized (env : Env) (now : Time) (req : Request) (p : MailPolicy) (key : gostring) (spec : BackendSpec)
    (l : L) (x : res error SendResult) : Prop := {
  au_senders : ∀ allowed, bs_AllowedSenders spec = Some allowed → snd (SendersAllowed (view_of req) allowed) = true;
  au_backend : ∃ o v ns d, object_spec o = (v, spec, ns) ∧ ValidateBackend (env_Implemented env) o = Ok () ∧
    openDriver env key spec (object_status o) ns = Ok d ∧ reaches d req = true ∧ x = callDriver d req ∧
    match o with
    | ObjMailBackend b => env_MailBackend env (mp_Namespace p) (br_Name (mps_BackendRef (mp_Spec p))) = Some b ∧
        backendIsReady (mb_Status b) = true ∧ key = mp_Namespace p ++ lit "/" ++ om_Name (mb_Meta b)
    | ObjClusterMailBackend b => env_ClusterMailBackend env (br_Name (mps_BackendRef (mp_Spec p))) = Some b ∧
        backendIsReady (cmb_Status b) = true ∧ key = lit "/" ++ om_Name (cmb_Meta b)
    end;
  au_budget : Limits_None (limitsOf p) = false → ∃ r, snd (Allow now (rlKey p) (limitsOf p) l) = Ok (true, r) }.

(** At most one delivery, to the recipients of the message, from its From address. *)
Definition delivery (req : Request) (key : gostring) (r : res error SendResult) : Delivery :=
  {| dl_Backend := key; dl_From := a_Address (m_From (rq_Message req)); dl_Recipients := Recipients (rq_Message req);
     dl_Result := r |}.

Lemma sendCharged_sent (now : Time) (req : Request) (p : MailPolicy) (key : gostring) (d : Driver) (charged : bool)
    (g : Gateway L) :
  let r := sendCharged now req p key d charged g in
  gw_sent (fst r) = gw_sent g ∧ so_Status (snd r) ≠ StatusAccepted ∨
  ∃ x, gw_sent (fst r) = gw_sent g ++ [delivery req key x] ∧ (so_Status (snd r) = StatusAccepted ↔ is_ok x = true) ∧
    reaches d req = true ∧ x = callDriver d req.
Proof.
  cbv zeta. unfold sendCharged, reaches, callDriver. destruct (rq_Raw req) as [raw|]; [destruct (drv_SendRaw d) as [send|]|].
  - right. set (x := send _ _ _). exists x. destruct x as [y|err]; simpl; [done|].
    destruct (Is err ErrRecipientNotInEnvelope); simpl; rewrite (proj1 (proj2 (refund_audit _ _ _ _))); by split_and!.
  - left. simpl. by rewrite (proj1 (proj2 (refund_audit _ _ _ _))).
  - right. set (x := drv_Send d _). exists x. destruct x as [y|err]; simpl; [done|].
    destruct (Is err ErrRecipientNotInEnvelope); simpl; rewrite (proj1 (proj2 (refund_audit _ _ _ _))); by split_and!.
Qed.
End PipelineFacts.

(** ** Deliveries are authorized *)

Section Authorization.
Context `{AddressParser, UnicodeTables, LabelMatcher, K8sNames, UUIDs, X509, Limiter L}.
Context (truth : gostring → Z → res (list FieldError) unit) (env : Env).
(** Every object the call can read is described by [truth]. *)
Context (Hmb : ∀ ns name b, env_MailBackend env ns name = Some b →
  described truth (mb_Meta b) (ValidateBackend (env_Implemented env) (ObjMailBackend b))).
Context (Hcmb : ∀ name b, env_ClusterMailBackend env name = Some b →
  described truth (cmb_Meta b) (ValidateBackend (env_Implemented env) (ObjClusterMailBackend b))).
Context (Hpol : ∀ ns p, p ∈ env_Policies env ns → described truth (mp_Meta p) (ValidateMailPolicy p)).

Lemma backendForPolicy_ok (p : MailPolicy) (v : validityCache) key spec status ns :
  cache_ok truth v → snd (backendForPolicy env p v) = Ok (key, spec, status, ns) →
  ∃ o bv, object_spec o = (bv, spec, ns) ∧ ValidateBackend (env_Implemented env) o = Ok () ∧ status = object_status o ∧
    match o with
    | ObjMailBackend b => env_MailBackend env (mp_Namespace p) (br_Name (mps_BackendRef (mp_Spec p))) = Some b ∧
        backendIsReady (mb_Status b) = true ∧ key = mp_Namespace p ++ lit "/" ++ om_Name (mb_Meta b)
    | ObjClusterMailBackend b => env_ClusterMailBackend env (br_Name (mps_BackendRef (mp_Spec p))) = Some b ∧
        backendIsReady (cmb_Status b) = true ∧ key = lit "/" ++ om_Name (cmb_Meta b)
    end.
Proof.
  intros Hc. unfold backendForPolicy. case_bool_decide; [|destruct (_ || _); [|done]].
  - destruct (env_MailBackend env _ _) as [b|] eqn:E; [|done].
    destruct (check_ok truth (mb_Meta b) _ v Hc (Hmb _ _ _ E)) as [Hv _].
    destruct (check _ _ v) as [v' verr]. simpl in Hv |- *. subst verr.
    destruct (ValidateBackend _ _) as [[]|] eqn:Ev; [|done]. destruct (backendIsReady _) eqn:Er; [|done].
    intros [= <- <- <- <-]. by exists (ObjMailBackend b), NewMailBackendValidator.
  - destruct (env_ClusterMailBackend env _) as [b|] eqn:E; [|done].
    destruct (check_ok truth (cmb_Meta b) _ v Hc (Hcmb _ _ E)) as [Hv _].
    destruct (check _ _ v) as [v' verr]. simpl in Hv |- *. subst verr.
    destruct (ValidateBackend _ _) as [[]|] eqn:Ev; [|done]. destruct (backendIsReady _) eqn:Er; [|done].
    intros [= <- <- <- <-]. by exists (ObjClusterMailBackend b), NewClusterMailBackendValidator.
Qed.

(** What one call sends: nothing, or one delivery it was authorized to make. *)
Definition sent_ok (now : Time) (req : Request) (p : MailPolicy) (g g' : Gateway L) (o : SendOutcome) : Prop :=
  gw_sent g' = gw_sent g ∧ so_Status o ≠ StatusAccepted ∨
  ∃ key spec x, gw_sent g' = gw_sent g ++ [delivery req key x] ∧
    (so_Status o = StatusAccepted ↔ is_ok x = true) ∧ authorized env now req p key spec (gw_limiter g) x.

Lemma sendAllowed_sent (now : Time) (req : Request) (p : MailPolicy) (g : Gateway L) :
  cache_ok truth (gw_validity g) →
  sent_ok now req p g (fst (sendAllowed env now req p g)) (snd (sendAllowed env now req p g)).
Proof.
  intros Hc. pose proof (backendForPolicy_ok p (gw_validity g)) as Hb. unfold sendAllowed.
  destruct (backendForPolicy env p (gw_validity g)) as [v b]. cbv zeta. simpl in Hb.
  destruct b as [[[[key spec] status] ns]|e]; [|by left].
  destruct (Hb _ _ _ _ Hc eq_refl) as (o & bv & Ho & Hv & -> & Hready).
  destruct (match bs_AllowedSenders spec with Some _ => _ | None => _ end) as [from [|]] eqn:Es; [|by left].
  assert (∀ allowed, bs_AllowedSenders spec = Some allowed → snd (SendersAllowed (view_of req) allowed) = true) as Hsend.
  { intros allowed Ea. rewrite Ea in Es. by rewrite Es. }
  destruct (openDriver env key spec (object_status o) ns) as [d|e] eqn:Ed; [|by left].
  destruct (Limits_None (limitsOf p)) eqn:En.
  { destruct (sendCharged_sent now req p key d false (set_validity v g)) as [Hs|(x & Hs & Hok & Hr & Hx)]; [by left|right].
    exists key, spec, x. split_and!; [done..|]. split; [done| |congruence]. exists o, bv, ns, d. by split_and!. }
  destruct (Allow now (rlKey p) (limitsOf p) (gw_limiter (set_validity v g))) as [l r] eqn:Ea. simpl in Ea.
  destruct r as [[[] retry]|e]; [|by left..].
  destruct (sendCharged_sent now req p key d true (set_limiter l (set_validity v g))) as [Hs|(x & Hs & Hok & Hr & Hx)]; [by left|right].
  exists key, spec, x. split_and!; [done..|]. split; [done| |].
  - exists o, bv, ns, d. by split_and!.
  - intros _. rewrite Ea. simpl. eauto.
Qed.
(** One whole call: the policy that applies, and what [sendAllowed] did with it. *)
Lemma Send_sent (now : Time) (req : Request) (g : Gateway L) :
  cache_ok truth (gw_validity g) → Z.of_nat (length (Recipients (rq_Message req))) < 2 ^ 31 →
  let g' := fst (Send env now req g) in
  gw_sent g' = gw_sent g ∧ so_Status (snd (Send env now req g)) ≠ StatusAccepted ∨
  ∃ p key spec x, gw_sent g' = gw_sent g ++ [delivery req key x] ∧
    (so_Status (snd (Send env now req g)) = StatusAccepted ↔ is_ok x = true) ∧
    p ∈ env_Policies env (id_Namespace (rq_Identity req)) ∧ applicable (callerOf env req) p ∧
    ValidateMailPolicy p = Ok () ∧ policy_allows p (view_of req) ∧
    authorized env now req p key spec (gw_limiter g) x.
Proof.
  intros Hc Hlen. cbv zeta. unfold Send. set (m := Match _ _).
  destruct m as [p|] eqn:Em; [|simpl; by left]. unfold m in Em. apply Match_Some in Em as (Hin & Happ & _).
  destruct (check_ok truth (mp_Meta p) _ (gw_validity g) Hc (Hpol _ _ Hin)) as [Hv Hc'].
  destruct (check (mp_Meta p) (ValidateMailPolicy p) (gw_validity g)) as [v verr]. simpl in Hv, Hc'. subst verr.
  destruct (ValidateMailPolicy p) as [[]|errs] eqn:Ev; [|by left].
  rewrite Evaluate_policy. destruct (d_Allowed _) eqn:Ed; [|by left].
  apply Evaluate_allowed in Ed; [|done].
  destruct (sendAllowed_sent now req p (set_validity v g) Hc') as [Hs|(key & spec & x & Hs & Hok & Ha)].
  - by left.
  - right. exists p, key, spec, x. by split_and!.
Qed.
End Authorization.

(** ** Claims *)

Section GatewayClaims.
Context `{AddressParser, UnicodeTables, LabelMatcher, K8sNames, UUIDs, X509, Limiter L}.

(** Every call of [Send] adds exactly one audit record, with the message's ID,
    caller, recipients and policy, and the record says "accept" exactly when the
    message was accepted. *)
Theorem send_one_audit_record (env : Env) (now : Time) (req : Request) (g : Gateway L) :
  ∃ e, gw_audit (fst (Send env now req g)) = gw_audit g ++ [e] ∧
    ev_MessageID e = rq_MessageID req ∧ ev_Namespace e = id_Namespace (rq_Identity req) ∧
    ev_ServiceAccount e = id_ServiceAccount (rq_Identity req) ∧ ev_To e = Recipients (rq_Message req) ∧
    ev_Policy e = so_Policy (snd (Send env now req g)) ∧
    (ev_Decision e = DecisionAccept ↔ so_Status (snd (Send env now req g)) = StatusAccepted).
Proof. apply Send_audited. Qed.


End GatewayClaims.

Section RetryClaims.
Context `{AddressParser, UnicodeTables, LabelMatcher, K8sNames, UUIDs, X509, LimiterLaws L}.

(** The wait a caller is told: against any limiter that keeps its interface's promise
    and drivers that attach delays through [WithRetryAfter], a rate-limited message has
    a wait of at least a second, an upstream failure one between zero and ten minutes
    (none for a permanent one), and every other outcome none. *)
Theorem send_retry_after (env : Env) (now : Time) (req : Request) (g : Gateway L) :
  (∀ cfg d r e, env_NewDriver env cfg = Ok d → callDriver d r = Err e → built e) →
  let o := snd (Send env now req g) in
  match so_Status o with
  | StatusRateLimited => Second ≤ so_RetryAfter o
  | StatusUpstreamError => 0 ≤ so_RetryAfter o ≤ MaxRetryAfter ∧ (so_Permanent o = true → so_RetryAfter o = 0)
  | _ => so_RetryAfter o = 0
  end.
Proof.
  intros Hdrv. cbv zeta. unfold Send. set (m := Match _ _).
  destruct (match m with Some _ => _ | None => _ end) as [v verr]. cbv zeta.
  destruct verr as [u|errs]; [|done]. rewrite Evaluate_policy. destruct (d_Allowed _), m as [p|]; try done.
  unfold sendAllowed. destruct (backendForPolicy env p _) as [v' b]. cbv zeta.
  destruct b as [[[[key spec] status] ns]|e]; [|done].
  destruct (match bs_AllowedSenders spec with Some _ => _ | None => _ end) as [from [|]]; [|done].
  destruct (openDriver env key spec status ns) as [d|e] eqn:Eo; [|done].
  assert (∀ e, callDriver d req = Err e → built e) as Hb.
  { unfold openDriver in Eo. destruct (ResolveBackendConfig _ _ _ _); [|done].
    destruct (env_NewDriver env _) eqn:En; simplify_eq. intros e. by eapply Hdrv. }
  assert (∀ charged g1, let o := snd (sendCharged now req p key d charged g1) in
    match so_Status o with
    | StatusRateLimited => Second ≤ so_RetryAfter o
    | StatusUpstreamError => 0 ≤ so_RetryAfter o ≤ MaxRetryAfter ∧ (so_Permanent o = true → so_RetryAfter o = 0)
    | _ => so_RetryAfter o = 0
    end) as Hsc.
  { intros charged g1. cbv zeta. unfold sendCharged. destruct (callDriver d req) as [r|e] eqn:Ec; [done|].
    destruct (Is e ErrRecipientNotInEnvelope); [done|]. cbn [snd so_Status so_RetryAfter so_Permanent].
    pose proof (RetryAfter_range e (Hb e eq_refl)) as Hr. destruct (Is e ErrUpstreamPermanent); [|done].
    unfold MaxRetryAfter, Minute. split; [lia|done]. }
  destruct (Limits_None (limitsOf p)); [apply Hsc|].
  pose proof (Allow_retry now (rlKey p) (limitsOf p) (gw_limiter (set_validity v' (set_validity v g)))) as Hretry.
  destruct (Allow now (rlKey p) (limitsOf p) _) as [l [[[] retry]|e]]; [apply Hsc| |done].
  exact (Hretry false retry eq_refl).
Qed.
End RetryClaims.

(** ** Endpoint order *)

(** The last probe found the endpoint unready. *)
Definition probed_unready (probed : list EndpointStatus) (ep : SMTPEndpoint) : Prop :=
  ∃ st, st ∈ probed ∧ es_Ready st = false ∧ endpointKey (es_Host st) (es_Port st) = endpointKey (ep_Host ep) (ep_Port ep).

Lemma filter_split {A} (f : A → bool) (l : list A) :
  l ≡ₚ List.filter (λ x, negb (f x)) l ++ List.filter f l ∧
  List.filter (λ x, negb (f x)) l `sublist_of` l ∧ List.filter f l `sublist_of` l.
Proof.
  induction l as [|x l (IH1 & IH2 & IH3)]; simpl; [done|]. destruct (f x); simpl; split_and!.
  - rewrite IH1 at 1. by rewrite Permutation_middle.
  - by constructor.
  - by constructor.
  - by rewrite IH1 at 1.
  - by constructor.
  - by constructor.
Qed.

(** Failover order: the endpoints handed to the driver are the declared ones, those
    the last probe found unready moved behind the others, both groups in declared
    order. *)
Theorem prefer_ready_endpoints (eps : list SMTPEndpoint) (probed : list EndpointStatus) :
  preferReadyEndpoints eps probed ≡ₚ eps ∧
  ∃ first last, preferReadyEndpoints eps probed = first ++ last ∧
    first `sublist_of` eps ∧ last `sublist_of` eps ∧
    Forall (λ ep, ¬ probed_unready probed ep) first ∧ Forall (probed_unready probed) last.
Proof.
  unfold preferReadyEndpoints. set (unready := _ <$> List.filter _ probed).
  assert (∀ ep, endpointKey (ep_Host ep) (ep_Port ep) ∈ unready ↔ probed_unready probed ep) as Hu.
  { intros ep. unfold unready. rewrite list_elem_of_fmap. unfold probed_unready.
    setoid_rewrite list_elem_of_In. setoid_rewrite filter_In. setoid_rewrite negb_true_iff. naive_solver. }
  destruct (Nat.eqb_spec (length unready) 0) as [E|E].
  - apply length_zero_iff_nil in E. split; [done|]. exists eps, []. rewrite app_nil_r.
    split_and!; [done|done|apply sublist_nil_l| |constructor]. apply Forall_forall. intros ep _.
    rewrite <- Hu, E. apply not_elem_of_nil.
  - set (isU := λ ep, bool_decide (endpointKey (ep_Host ep) (ep_Port ep) ∈ unready)).
    destruct (filter_split isU eps) as (Hp & H1 & H2). split; [by symmetry|].
    exists (List.filter (λ ep, negb (isU ep)) eps), (List.filter isU eps). split_and!; [done..| |].
    + apply Forall_forall. intros ep [_ Hf]%list_elem_of_In%filter_In. rewrite <- Hu.
      by apply negb_true_iff, bool_decide_eq_false in Hf.
    + apply Forall_forall. intros ep [_ Hf]%list_elem_of_In%filter_In. rewrite <- Hu. by apply bool_decide_eq_true in Hf.
Qed.

(** ** The cache over many calls *)

Fixpoint checks (objs : list (ObjectMeta * res (list FieldError) unit)) (c : validityCache)
    : list (res (list FieldError) unit) :=
  match objs with
  | [] => []
  | (meta, validate) :: objs => let '(c, r) := check meta validate c in r :: checks objs c
  end.

(** The validity cache is transparent: over any sequence of objects whose spec only
    changes with its generation, every cached answer is the one validating the object
    would give, across evictions. *)
Theorem validity_cache_transparent (truth : gostring → Z → res (list FieldError) unit)
    (objs : list (ObjectMeta * res (list FieldError) unit)) :
  Forall (λ o, described truth o.1 o.2) objs → checks objs ∅ = objs.*2.
Proof.
  assert (cache_ok truth ∅) as H0 by (intros uid v; by intros ?%(lookup_empty_Some (M:=gmap gostring))).
  revert H0. generalize (∅ : validityCache) as c. intros c Hc Hobjs. revert c Hc.
  induction Hobjs as [|[meta validate] objs Ho _ IH]; intros c Hc; [done|]. cbn [checks].
  destruct (check_ok truth meta validate c Hc Ho) as [Hv Hc']. destruct (check meta validate c) as [c' r].
  simpl in *. subst r. f_equal. by apply IH.
Qed.

(** ** Witnesses *)

Definition example_request : Request := {|
  rq_Identity := {| id_Namespace := "team"; id_ServiceAccount := "app"; id_AuthMethod := AuthOAuthBearer;
                    id_PodLabels := ∅; id_Credential := []; id_CredentialPrevious := false |};
  rq_Transport := "rest"; rq_MessageID := "id-1";
  rq_Message := {| m_MessageID := "id-1"; m_From := {| a_Name := []; a_Address := "app@corp.example" |};
                   m_To := [{| a_Name := []; a_Address := "bob@corp.example" |}]; m_Cc := []; m_Bcc := [];
                   m_Subject := "hi"; m_Body := {| b_Text := "t"; b_HTML := [] |}; m_Attachments := []; m_Headers := ∅ |};
  rq_Raw := None; rq_EnvelopeFrom := []; rq_Sender := []; rq_ReplyTo := []; rq_SizeBytes := 3 |}.

Definition ready_backend : MailBackend := {|
  mb_Meta := mb_Meta example_backend; mb_Spec := mb_Spec example_backend;
  mb_Status := {| bst_Capabilities := []; bst_EndpointStatus := [];
    bst_Conditions := [{| c_Type := ConditionReady; c_Status := ConditionTrue; c_ObservedGeneration := 1;
                          c_LastTransitionTime := 0; c_Reason := ReasonReady; c_Message := [] |}];
    bst_LastProbeTime := None; bst_ObservedGeneration := 1 |} |}.

(** A relay that is busy and asks for 30 seconds. *)
Definition busy_driver : Driver := {|
  drv_Send := λ _, match WithRetryAfter (Some (ESentinel ErrUpstreamTransient)) (30 * Second) with
                   | Some e => Err e | None => Err (EOpaque []) end;
  drv_SendRaw := None |}.

Definition good_driver : Driver := {|
  drv_Send := λ _, Ok {| sr_UpstreamID := "q1"; sr_AcceptedAt := 7 |}; drv_SendRaw := None |}.

Definition example_env (d : Driver) : Env := {|
  env_Policies := λ ns, if ns == lit "team" then [high_policy] else [];
  env_SALabels := λ _ _, None;
  env_MailBackend := λ ns name, if (ns == lit "team") && (name == lit "relay") then Some ready_backend else None;
  env_ClusterMailBackend := λ _, None;
  env_Secrets := example_secrets;
  env_Implemented := shipped;
  env_NewDriver := λ _, Ok d |}.

Definition example_gateway : Gateway MemoryLimiter := Build_Gateway ∅ NewMemoryLimiter [] [].

Definition example_send (d : Driver) :=
  @Send plain_parser ascii_tables matchLabelsOnly simple_names no_uuids any_certificate MemoryLimiter memoryLimiter
    (example_env d) (100 * Second) example_request example_gateway.

Example example_accepted : so_Status (snd (example_send good_driver)) = StatusAccepted.
Proof. vm_compute. reflexivity. Qed.

Definition example_truth (uid : gostring) (_ : Z) : res (list FieldError) unit := Ok ().


Lemma send_retry_after_witness :
  0 ≤ so_RetryAfter (snd (example_send busy_driver)) ≤ MaxRetryAfter ∧
  (so_Permanent (snd (example_send busy_driver)) = true → so_RetryAfter (snd (example_send busy_driver)) = 0).
Proof.
  apply (@send_retry_after plain_parser ascii_tables matchLabelsOnly simple_names no_uuids any_certificate
    MemoryLimiter memoryLimiter memoryLimiter_laws (example_env busy_driver) (100 * Second) example_request example_gateway).
  intros cfg d r e [= <-]. unfold callDriver. destruct (rq_Raw r); intros [= <-].
  - repeat constructor.
  - eapply (built_retry (ESentinel ErrUpstreamTransient) (30 * Second)); [constructor|reflexivity].
Defined.

Lemma validity_cache_transparent_witness :
  checks [(mp_Meta high_policy, Ok ()); (mp_Meta low_policy, Ok ()); (mp_Meta high_policy, Ok ())] ∅ =
  [(mp_Meta high_policy, Ok ()); (mp_Meta low_policy, Ok ()); (mp_Meta high_policy, Ok ())].*2.
Proof. apply (validity_cache_transparent example_truth). repeat constructor. Defined.
