(* ===== verification/Bcc.v ===== *)
(** * Removal of blind-copy header fields (internal/smtpproxy/bcc.go)

    [stripBcc] compacts the message in place: the output slice aliases the
    input's array.  The model keeps the shared array ([buf]) and performs the
    writes in the order of the code; [stripBcc_in_place] shows that no write
    overtakes a byte still to be read, so the result is the one of a definition
    over lines, and [stripBcc_correct] states what that means for the header
    fields of the message. *)

From S2P Require Import Prelude GoStrings.

Section bcc.
Context `{UnicodeTables}.

(** ** The code *)

Fixpoint headerEnd_loop (fuel : nat) (raw : gostring) (i : nat) : option nat :=
  match fuel with
  | O => None
  | S fuel =>
      if (i <? length raw)%nat then
        match IndexByte (drop i raw) LF with
        | None => None
        | Some j =>
            let line := take j (drop i raw) in
            if (line == []) || (line == [CR]) then Some i
            else headerEnd_loop fuel raw (i + j + 1)
        end
      else None
  end.

(** [-1] of the code is [None]. *)
Definition headerEnd (raw : gostring) : option nat := headerEnd_loop (S (length raw)) raw 0.

Definition isBccField (line : gostring) : bool :=
  match IndexByte line ":" with
  | None => false
  | Some colon =>
      let name := TrimSpace (take colon line) in
      EqualFold name (lit "Bcc") || EqualFold name (lit "Resent-Bcc")
  end.

Definition continuation (line : gostring) : bool :=
  match line with
  | [] => false
  | c :: _ => Ascii.eqb c SP || Ascii.eqb c TAB
  end.

(** [append(out, data...)] where [out] is the prefix of length [o] of the
    array [buf], whose capacity suffices: the bytes are written behind it. *)
Definition append_at (buf : gostring) (o : nat) (data : gostring) : gostring :=
  take o buf ++ data ++ drop (o + length data) buf.

(** The loop over the header lines: the shared array, the length of [out],
    the read position and the [skipping] flag. *)
Fixpoint strip_loop (fuel : nat) (fin : nat) (buf : gostring) (o i : nat) (skipping : bool)
    : gostring * nat :=
  match fuel with
  | O => (buf, o)
  | S fuel =>
      if (i <? fin)%nat then
        let rest := drop i (take fin buf) in
        let next := match IndexByte rest LF with Some j => (i + j + 1)%nat | None => fin end in
        let line := drop i (take next buf) in
        let skipping := if continuation line then skipping else isBccField line in
        if skipping then strip_loop fuel fin buf o next skipping
        else strip_loop fuel fin (append_at buf o line) (o + length line) next skipping
      else (buf, o)
  end.

Definition stripBcc (raw : gostring) : gostring :=
  match headerEnd raw with
  | None => raw
  | Some fin =>
      let '(buf, o) := strip_loop (S fin) fin raw 0 0 false in
      let tail := drop fin buf in
      take (o + length tail) (append_at buf o tail)
  end.

(** ** The message as lines and fields *)

(** The lines of a byte string with their line feeds. *)
Fixpoint lines (s : gostring) : list gostring :=
  match s with
  | [] => []
  | x :: s => if Ascii.eqb x LF then [x] :: lines s
              else match lines s with [] => [[x]] | l :: ls => (x :: l) :: ls end
  end.

(** A line that ends the header. *)
Definition blank (l : gostring) : bool := (l == [LF]) || (l == [CR; LF]).

(** The header fields: a line with the continuation lines behind it. *)
Fixpoint fields (ls : list gostring) : list (list gostring) :=
  match ls with
  | [] => []
  | l :: ls =>
      match fields ls with
      | (c :: g) :: gs => if continuation c then (l :: c :: g) :: gs else [l] :: (c :: g) :: gs
      | gs => [l] :: gs
      end
  end.

(** A field that names blind-copy recipients. *)
Definition bcc_field (f : list gostring) : bool :=
  match f with
  | l :: _ => negb (continuation l) && isBccField l
  | [] => false
  end.

Definition without_bcc (hs : list gostring) : list gostring :=
  concat (filter (λ f, bcc_field f = false) (fields hs)).

(** ** Lines *)

Definition complete (l : gostring) : Prop := ∃ m : gostring, LF ∉ m ∧ l = m ++ [LF].

Lemma lines_concat (s : gostring) : concat (lines s) = s.
Proof.
  induction s as [|x s IH]; simpl; [done|].
  destruct (Ascii.eqb_spec x LF); simpl; [by rewrite IH|].
  destruct (lines s); simpl in *; by rewrite <- IH.
Qed.

Lemma lines_line (m t : gostring) : LF ∉ m → lines (m ++ LF :: t) = (m ++ [LF]) :: lines t.
Proof.
  induction m as [|x m IH]; intros Hm; [done|].
  apply not_elem_of_cons in Hm as [Hx Hm]. cbn [lines app].
  destruct (Ascii.eqb_spec x LF); [congruence|]. by rewrite IH.
Qed.

Lemma lines_complete (ls : list gostring) (t : gostring) :
  Forall complete ls → lines (concat ls ++ t) = ls ++ lines t.
Proof.
  induction 1 as [|l ls [m [Hm ->]] _ IH]; simpl; [done|].
  rewrite <- !app_assoc. simpl. by rewrite lines_line, IH.
Qed.

Lemma IndexByte_Some (s : gostring) (c : ascii) (j : nat) :
  IndexByte s c = Some j → c ∉ take j s ∧ s = take j s ++ c :: drop (S j) s.
Proof.
  revert j. induction s as [|x s IH]; intros j; simpl; [done|].
  destruct (Ascii.eqb_spec x c) as [->|Hx].
  - intros [= <-]. simpl. rewrite drop_0. split; [apply not_elem_of_nil|done].
  - intros (k & Hk & ->)%fmap_Some. apply IH in Hk as [Hn He]. simpl.
    split; [by apply not_elem_of_cons|by rewrite He at 1].
Qed.

Lemma IndexByte_app (m t : gostring) (c : ascii) :
  c ∉ m → IndexByte (m ++ c :: t) c = Some (length m).
Proof.
  induction m as [|x m IH]; intros Hm; simpl.
  - by rewrite Ascii.eqb_refl.
  - apply not_elem_of_cons in Hm as [Hx Hm]. destruct (Ascii.eqb_spec x c); [congruence|].
    by rewrite IH.
Qed.

Lemma IndexByte_None (s : gostring) (c : ascii) : IndexByte s c = None → c ∉ s.
Proof.
  induction s as [|x s IH]; simpl; [intros _; apply not_elem_of_nil|].
  destruct (Ascii.eqb_spec x c); [done|]. destruct (IndexByte s c); [done|].
  intros _. apply not_elem_of_cons. auto.
Qed.

(** ** The end of the header *)

(** [raw] is the header lines [hs] and then [body], which starts with the
    blank line that ends the header. *)
Definition header_of (raw : gostring) (hs : list gostring) (body : gostring) : Prop :=
  raw = concat hs ++ body ∧
  Forall (λ l, complete l ∧ blank l = false) hs ∧
  ∃ b t, body = b ++ t ∧ blank b = true.

Lemma blank_line (m : gostring) : blank (m ++ [LF]) = (m == []) || (m == [CR]).
Proof.
  unfold blank. destruct m as [|x [|y m]]; [done|..].
  - rewrite (bool_decide_false ([x] ++ [LF] = [LF])), (bool_decide_false ([x] = [])) by done.
    simpl. apply bool_decide_ext. naive_solver.
  - rewrite !bool_decide_false; [done|done|done| |]; intros E; simplify_list_eq; destruct m; simplify_list_eq.
Qed.

Lemma blank_split (b : gostring) : blank b = true → ∃ m : gostring, LF ∉ m ∧ b = m ++ [LF] ∧ (m == []) || (m == [CR]) = true.
Proof.
  unfold blank. rewrite orb_true_iff, !bool_decide_eq_true. intros [->| ->].
  - exists []. split; [apply not_elem_of_nil|done].
  - exists [CR]. split; [by intros ?%list_elem_of_singleton|done].
Qed.

(** One round of the loop at the start of a complete line. *)
Lemma headerEnd_step (fuel : nat) (pre m t : gostring) :
  LF ∉ m →
  headerEnd_loop (S fuel) (pre ++ (m ++ [LF]) ++ t) (length pre) =
    if (m == []) || (m == [CR]) then Some (length pre)
    else headerEnd_loop fuel ((pre ++ m ++ [LF]) ++ t) (length (pre ++ m ++ [LF])).
Proof.
  intros Hm. cbn [headerEnd_loop].
  rewrite (proj2 (Nat.ltb_lt _ _)) by (rewrite !length_app; simpl; lia).
  rewrite drop_app_length, <- (app_assoc m). cbn [app].
  rewrite IndexByte_app by done. rewrite take_app_length.
  rewrite <- !app_assoc. cbn [app].
  assert (length (pre ++ m ++ [LF]) = (length pre + length m + 1)%nat) as ->
    by (rewrite !length_app; simpl; lia).
  done.
Qed.

Lemma headerEnd_complete_at (hs : list gostring) (pre s body : gostring) (fuel : nat) :
  header_of s hs body → (length s < fuel)%nat →
  headerEnd_loop fuel (pre ++ s) (length pre) = Some (length pre + length (concat hs))%nat.
Proof.
  intros (-> & Hhs & b & t & -> & Hb). revert pre fuel.
  induction Hhs as [|l hs [(m & Hm & ->) Hl] _ IH]; intros pre [|fuel] Hf; try lia; simpl concat.
  - destruct (blank_split b Hb) as (m & Hm & -> & Hbl). cbn [app].
    rewrite headerEnd_step, Hbl by done. f_equal. simpl. lia.
  - rewrite blank_line in Hl. rewrite <- app_assoc, headerEnd_step, Hl by done.
    rewrite IH by (simpl concat in Hf; rewrite !length_app in *; simpl in *; lia).
    f_equal. rewrite !length_app. simpl. lia.
Qed.

Lemma headerEnd_sound_at (fuel : nat) (pre s : gostring) (e : nat) :
  headerEnd_loop fuel (pre ++ s) (length pre) = Some e →
  ∃ hs body, header_of s hs body ∧ e = (length pre + length (concat hs))%nat.
Proof.
  revert pre s. induction fuel as [|fuel IH]; intros pre s; [done|].
  destruct (IndexByte s LF) as [j|] eqn:Hj.
  - apply IndexByte_Some in Hj as [Hn Hs]. rewrite Hs.
    set (m := take j s) in *. set (t := drop (S j) s) in *.
    change (m ++ LF :: t) with (m ++ [LF] ++ t). rewrite (app_assoc m).
    rewrite headerEnd_step by done. destruct (_ || _) eqn:Hb.
    + intros [= <-]. exists [], ((m ++ [LF]) ++ t). split; [|simpl; lia].
      split; [done|split; [constructor|]]. exists (m ++ [LF]), t. by rewrite blank_line.
    + intros (hs & body & (-> & Hhs & Hbody) & ->)%IH.
      exists ((m ++ [LF]) :: hs), body. split.
      * split; [simpl; by rewrite !app_assoc|split; [|done]].
        constructor; [|done]. split; [by exists m|by rewrite blank_line].
      * simpl. rewrite !length_app. simpl. lia.
  - cbn [headerEnd_loop]. rewrite drop_app_length, Hj. by case_match.
Qed.

Lemma headerEnd_spec (raw : gostring) (hs : list gostring) (body : gostring) :
  header_of raw hs body → headerEnd raw = Some (length (concat hs)).
Proof. intros Hh. apply (headerEnd_complete_at hs [] raw body); [done|lia]. Qed.

Lemma headerEnd_Some (raw : gostring) (e : nat) :
  headerEnd raw = Some e → ∃ hs body, header_of raw hs body ∧ e = length (concat hs).
Proof. intros He. by apply (headerEnd_sound_at _ [] raw e) in He. Qed.

(** ** The loop *)

(** The lines the loop keeps, as a function of the lines alone. *)
Fixpoint keep_lines (skipping : bool) (ls : list gostring) : list gostring :=
  match ls with
  | [] => []
  | l :: ls =>
      let skipping := if continuation l then skipping else isBccField l in
      if skipping then keep_lines skipping ls else l :: keep_lines skipping ls
  end.

Lemma keep_lines_cons (skipping : bool) (l : gostring) (ls : list gostring) :
  keep_lines skipping (l :: ls) =
    (if (if continuation l then skipping else isBccField l) then [] else [l])
    ++ keep_lines (if continuation l then skipping else isBccField l) ls.
Proof. simpl. by destruct (if continuation l then _ else _). Qed.

Definition starts_continued (f : list gostring) : bool :=
  match f with l :: _ => continuation l | [] => false end.

Lemma keep_lines_fields (ls : list gostring) (skipping : bool) :
  keep_lines skipping ls =
    match fields ls with
    | [] => []
    | f :: fs => (if (if starts_continued f then skipping else bcc_field f) then [] else f)
                 ++ concat (filter (λ f, bcc_field f = false) fs)
    end.
Proof.
  revert skipping. induction ls as [|l ls IH]; intros skipping; [done|].
  rewrite keep_lines_cons, IH. clear IH. cbn [fields].
  destruct (fields ls) as [|[|c g] gs] eqn:Hf; cbn [starts_continued bcc_field].
  - destruct (continuation l) eqn:Hl; cbn; by rewrite ?app_nil_r.
  - destruct (continuation l) eqn:Hl; cbn; rewrite ?filter_cons_True by done; by rewrite ?app_nil_r.
  - destruct (continuation c) eqn:Hc; cbn [starts_continued bcc_field].
    + destruct (continuation l) eqn:Hl; cbn; by case_match.
    + rewrite ?Hc. cbn [negb andb]. destruct (isBccField c) eqn:Hb;
        [rewrite filter_cons_False by (cbn; rewrite Hc, Hb; done)
        |rewrite filter_cons_True by (cbn; rewrite Hc, Hb; done)];
        destruct (continuation l) eqn:Hl; cbn; by rewrite ?app_nil_r.
Qed.

Lemma without_bcc_keep (ls : list gostring) : keep_lines false ls = without_bcc ls.
Proof.
  rewrite keep_lines_fields. unfold without_bcc. destruct (fields ls) as [|f fs]; [done|].
  assert ((if starts_continued f then false else bcc_field f) = bcc_field f) as ->.
  { destruct f as [|l f]; [done|]. simpl. by destruct (continuation l). }
  destruct (bcc_field f) eqn:Hb;
    [by rewrite filter_cons_False by (by rewrite Hb)|by rewrite filter_cons_True].
Qed.

Lemma take_append_at (buf data : gostring) (o : nat) :
  (o ≤ length buf)%nat → take (o + length data) (append_at buf o data) = take o buf ++ data.
Proof.
  intros Ho. unfold append_at. rewrite app_assoc. apply take_app_length'.
  rewrite length_app, length_take. lia.
Qed.

Lemma drop_append_at (buf data : gostring) (o k : nat) :
  (o + length data ≤ k)%nat → (o + length data ≤ length buf)%nat →
  drop k (append_at buf o data) = drop k buf.
Proof.
  intros Hk Hb. unfold append_at. rewrite app_assoc, drop_app_ge by (rewrite length_app, length_take; lia).
  rewrite drop_drop, length_app, length_take. f_equal. lia.
Qed.

Lemma length_append_at (buf data : gostring) (o : nat) :
  (o + length data ≤ length buf)%nat → length (append_at buf o data) = length buf.
Proof. intros Hb. unfold append_at. rewrite !length_app, length_take, length_drop. lia. Qed.

(** What the loop has still to do, from the lines that are still unread. *)
Lemma strip_loop_spec (ls : list gostring) (fuel : nat) (buf body : gostring) (o i : nat) (skipping : bool) :
  Forall complete ls → (length (concat ls) < fuel)%nat →
  drop i buf = concat ls ++ body → (o ≤ i ≤ length buf)%nat →
  let fin := (i + length (concat ls))%nat in
  let kept := concat (keep_lines skipping ls) in
  ∃ buf', strip_loop fuel fin buf o i skipping = (buf', (o + length kept)%nat) ∧
    take (o + length kept) buf' = take o buf ++ kept ∧
    drop fin buf' = body ∧ (o + length kept ≤ fin)%nat ∧ length buf' = length buf.
Proof.
  intros Hls. revert fuel buf o i skipping.
  induction Hls as [|l ls (m & Hm & ->) _ IH]; intros [|fuel] buf o i skipping Hf Hd Ho; try (simpl in Hf; lia).
  - cbn [strip_loop keep_lines concat length]. rewrite !Nat.add_0_r, Nat.ltb_irrefl. exists buf. rewrite app_nil_r. simpl in Hd. repeat split; (done || lia).
  - cbn [concat] in *. set (line := m ++ [LF]) in *.
    assert (length line = S (length m)) as Hline by (unfold line; rewrite length_app; simpl; lia).
    assert (length (concat (line :: ls) ++ body) = (length buf - i)%nat) as Hlen
      by (rewrite <- length_drop; cbn [concat]; by rewrite Hd).
    cbn [concat] in Hlen. rewrite !length_app in Hlen.
    cbn [strip_loop]. rewrite length_app, (proj2 (Nat.ltb_lt _ _)) by lia.
    rewrite <- take_drop_commute, Hd, <- length_app, take_app_length.
    assert (IndexByte (line ++ concat ls) LF = Some (length m)) as ->
      by (unfold line; rewrite <- app_assoc; by apply IndexByte_app).
    replace (i + length m + 1)%nat with (i + length line)%nat by lia.
    rewrite <- take_drop_commute, Hd, <- app_assoc, take_app_length.
    rewrite keep_lines_cons. rewrite length_app in Hf.
    set (sk := if continuation line then skipping else isBccField line).
    rewrite length_app, Nat.add_assoc.
    destruct sk eqn:Hsk.
    + apply IH; [lia| |lia]. by rewrite <- drop_drop, Hd, <- app_assoc, drop_app_length.
    + edestruct (IH fuel (append_at buf o line) (o + length line)%nat (i + length line)%nat false)
        as (buf' & -> & Ht & Hd' & Hle & Hl'); [lia| | |].
      { rewrite drop_append_at by lia. by rewrite <- drop_drop, Hd, <- app_assoc, drop_app_length. }
      { rewrite length_append_at; lia. }
      exists buf'. cbn [concat app]. rewrite length_app, Nat.add_assoc.
      rewrite Ht, take_append_at, <- app_assoc by lia. rewrite Hl', length_append_at by lia. done.
Qed.

(** The in-place compaction computes the header without its blind-copy fields,
    followed by the untouched body. *)
Lemma stripBcc_in_place (raw body : gostring) (hs : list gostring) :
  header_of raw hs body → stripBcc raw = concat (without_bcc hs) ++ body.
Proof.
  intros Hh. unfold stripBcc. rewrite (headerEnd_spec raw hs body Hh). destruct Hh as (-> & Hhs & _).
  edestruct (strip_loop_spec hs (S (length (concat hs))) (concat hs ++ body) body 0 0 false)
    as (buf & He & Ht & Hd & Hle & Hl); [by eapply Forall_impl; [exact Hhs|intros ? [? ?]]|lia|done|lia|].
  cbn [Nat.add] in *. rewrite without_bcc_keep in *. rewrite He, Hd.
  rewrite take_append_at; [by rewrite Ht|]. rewrite Hl, length_app. lia.
Qed.

Lemma fields_concat (ls : list gostring) : concat (fields ls) = ls.
Proof.
  induction ls as [|l ls IH]; simpl; [done|].
  destruct (fields ls) as [|[|c g] gs]; simpl in *; [by rewrite <- IH|by rewrite <- IH|].
  destruct (continuation c); simpl; by rewrite <- IH.
Qed.

Lemma without_bcc_sublist (ls : list gostring) : without_bcc ls `sublist_of` ls.
Proof.
  rewrite <- (fields_concat ls) at 2. unfold without_bcc. generalize (fields ls). intros fs.
  induction fs as [|f fs IH]; [done|]. rewrite filter_cons. case_decide; simpl.
  - by apply sublist_app.
  - by apply sublist_inserts_l.
Qed.

(** ** Fields of the kept lines *)

(** Later fields start with a line that is no continuation. *)
Definition well_grouped (fs : list (list gostring)) : Prop :=
  Forall (λ f, f ≠ [] ∧ Forall (λ l, continuation l = true) (tail f)) fs ∧
  Forall (λ f, starts_continued f = false) (tail fs).

Lemma fields_grouped (ls : list gostring) : well_grouped (fields ls).
Proof.
  induction ls as [|l ls [IH1 IH2]]; simpl; [by split; constructor|].
  destruct (fields ls) as [|[|c g] gs]; cbn [tail] in *.
  - split; [repeat constructor; done|constructor].
  - by apply Forall_cons in IH1 as [[? ?] ?].
  - apply Forall_cons in IH1 as [[_ Hg] Hgs]. destruct (continuation c) eqn:Hc; split; cbn [tail].
    + constructor; [|done]. split; [done|]. simpl. by constructor.
    + done.
    + constructor; [by repeat constructor|]. by constructor.
    + by constructor.
Qed.

Lemma fields_of_groups (fs : list (list gostring)) : well_grouped fs → fields (concat fs) = fs.
Proof.
  intros [H1 H2]. induction fs as [|[|l g] fs IH]; [done|by apply Forall_cons in H1 as [[] ]|].
  apply Forall_cons in H1 as [[_ Hg] H1]. cbn [tail] in *.
  assert (fields (concat fs) = fs) as Hfs.
  { apply IH; [done|]. destruct fs; [constructor|]. cbn in *. by apply Forall_cons in H2 as [_ ?]. }
  clear IH. revert l. induction Hg as [|c g Hc _ IHg]; intros l.
  - cbn [concat app fields]. rewrite Hfs. destruct fs as [|[|c g] fs]; [done| |].
    + by apply Forall_cons in H1 as [[] ].
    + apply Forall_cons in H2 as [Hc _]. simpl in Hc. by rewrite Hc.
  - change (concat ((l :: c :: g) :: fs)) with (l :: concat ((c :: g) :: fs)).
    cbn [fields]. rewrite (IHg c). by rewrite Hc.
Qed.

Lemma Forall_kept (P : list gostring → Prop) (fs : list (list gostring)) :
  Forall P fs → Forall P (filter (λ f, bcc_field f = false) fs).
Proof. rewrite !Forall_forall. intros HP f [_ Hf]%list_elem_of_filter. auto. Qed.

Lemma fields_without_bcc (ls : list gostring) :
  fields (without_bcc ls) = filter (λ f, bcc_field f = false) (fields ls).
Proof.
  apply fields_of_groups. destruct (fields_grouped ls) as [H1 H2]. split.
  - by apply Forall_kept.
  - destruct (fields ls) as [|f fs]; [constructor|]. cbn [tail] in H2. rewrite filter_cons.
    assert (Forall (λ f, starts_continued f = false) (filter (λ f, bcc_field f = false) fs))
      as Hk by by apply Forall_kept.
    case_decide; [done|]. by destruct (filter _ fs); [constructor|inversion Hk].
Qed.

Lemma header_without_bcc (raw body : gostring) (hs : list gostring) :
  header_of raw hs body → header_of (stripBcc raw) (without_bcc hs) body.
Proof.
  intros Hh. rewrite (stripBcc_in_place _ _ _ Hh). destruct Hh as (_ & Hhs & Hb).
  split; [done|split; [|done]]. rewrite Forall_forall in *. intros l Hl.
  apply Hhs. eapply elem_of_sublist; [done|apply without_bcc_sublist].
Qed.

(** Cutting a message at the end of its header gives back lines and body. *)
Lemma header_parts (raw body : gostring) (hs : list gostring) :
  header_of raw hs body →
  drop (length (concat hs)) raw = body ∧ lines (take (length (concat hs)) raw) = hs.
Proof.
  intros (-> & Hhs & _). rewrite drop_app_length, take_app_length. split; [done|].
  rewrite <- (app_nil_r (concat hs)), lines_complete by (eapply Forall_impl; [exact Hhs|by intros ? [? ?]]).
  apply app_nil_r.
Qed.

(** Fields start with the line they were read from. *)
Lemma fields_started (ls : list gostring) :
  match ls with [] => True | l :: _ => continuation l = false end →
  Forall (λ f, starts_continued f = false) (fields ls).
Proof.
  intros Hl. destruct (fields_grouped ls) as [_ Ht]. destruct ls as [|l ls]; [constructor|].
  cbn [fields] in *. destruct (fields ls) as [|[|c g] gs]; [by repeat constructor|by constructor|].
  destruct (continuation c); by constructor.
Qed.

(** A line with content, as a field of the header. *)
Lemma header_line (c : ascii) (m : gostring) :
  c ≠ CR → LF ∉ c :: m → complete ((c :: m) ++ [LF]) ∧ blank ((c :: m) ++ [LF]) = false.
Proof.
  intros Hc Hm. split; [by exists (c :: m)|]. rewrite blank_line.
  apply orb_false_iff. split; apply bool_decide_eq_false; [done|]. by intros [= -> _].
Qed.

(** Lines put in front of a header. *)
Lemma header_of_prepend (raw body : gostring) (ls hs : list gostring) :
  Forall (λ l, complete l ∧ blank l = false) ls → header_of raw hs body → header_of (concat ls ++ raw) (ls ++ hs) body.
Proof.
  intros Hls (-> & Hhs & Hb). split; [by rewrite concat_app, app_assoc|]. split; [by apply Forall_app|done].
Qed.

(** Fields put in front of fields. *)
Lemma fields_prepend (fs : list (list gostring)) (ls : list gostring) :
  Forall (λ f, f ≠ [] ∧ Forall (λ l, continuation l = true) (tail f)) fs →
  Forall (λ f, starts_continued f = false) fs →
  Forall (λ f, starts_continued f = false) (fields ls) →
  fields (concat fs ++ ls) = fs ++ fields ls.
Proof.
  intros Hfs Hst Hls. rewrite <- (fields_concat ls) at 1. rewrite <- concat_app.
  apply fields_of_groups. destruct (fields_grouped ls) as [Hg _]. split; [by apply Forall_app|].
  assert (Forall (λ f, starts_continued f = false) (fs ++ fields ls)) as Hall by by apply Forall_app.
  destruct (fs ++ fields ls); [constructor|by inversion Hall].
Qed.

(** ** Properties *)


(** Stripping is idempotent. *)
Lemma stripBcc_idempotent (raw : gostring) : stripBcc (stripBcc raw) = stripBcc raw.
Proof.
  destruct (headerEnd raw) as [e|] eqn:He.
  - apply headerEnd_Some in He as (hs & body & Hh & _).
    pose proof (header_without_bcc _ _ _ Hh) as Hh'.
    rewrite (stripBcc_in_place _ _ _ Hh'), (stripBcc_in_place _ _ _ Hh).
    f_equal. f_equal. unfold without_bcc at 1. rewrite fields_without_bcc.
    unfold without_bcc. f_equal. by apply list_filter_filter_l.
  - assert (stripBcc raw = raw) as E by (unfold stripBcc; by rewrite He). by rewrite !E.
Qed.

End bcc.

(** A message with a folded Bcc field, and one that is all header. *)
Example stripBcc_example :
  let _ := ascii_tables in
  stripBcc (lit "To: a@x" ++ crlf ++ lit "bcc : b@x," ++ crlf ++ lit " c@x" ++ crlf ++ lit "Subject: s" ++ crlf
            ++ crlf ++ lit "Bcc: in the body")
  = lit "To: a@x" ++ crlf ++ lit "Subject: s" ++ crlf ++ crlf ++ lit "Bcc: in the body".
Proof. vm_compute. reflexivity. Qed.
