(* ===== verification/Slots.v ===== *)
(** * Per-key slots shared by concurrent goroutines (internal/smtpproxy/tenant.go)

    [tenantLimiter.acquire] and its [release] as the steps a goroutine takes:
    the locked section that finds or creates the namespace's slot, the blocking
    send on the slot's channel or the end of the context, the receive of
    [release], and the locked section of [done].  Slots are heap objects: a
    goroutine keeps the pointer it found, and the map may meanwhile drop the
    entry or get a new one, so the store of slots is explicit.  Goroutines
    interleave freely ([reachable] closes over every order of steps).

    The turns of [FailureLimiter] (LoginThrottle.v) are the same construction
    with capacity one. *)

From S2P Require Import Prelude GoStrings.

(** ** Counting over the goroutines *)

Definition count {A} (P : A → Prop) `{∀ x, Decision (P x)} (l : list A) : nat := length (filter P l).

Lemma count_app {A} (P : A → Prop) `{∀ x, Decision (P x)} (l k : list A) :
  count P (l ++ k) = (count P l + count P k)%nat.
Proof. unfold count. by rewrite filter_app, length_app. Qed.

Definition bit (P : Prop) `{Decision P} : nat := if decide P then 1%nat else 0%nat.

Lemma count_cons {A} (P : A → Prop) `{∀ x, Decision (P x)} (x : A) (l : list A) :
  count P (x :: l) = (bit (P x) + count P l)%nat.
Proof. unfold count, bit. rewrite filter_cons. by case_decide. Qed.

Lemma count_snoc {A} (P : A → Prop) `{∀ x, Decision (P x)} (x : A) (l : list A) :
  count P (l ++ [x]) = (count P l + bit (P x))%nat.
Proof. rewrite count_app, count_cons. unfold count. simpl. lia. Qed.

Lemma count_update {A} (P : A → Prop) `{∀ x, Decision (P x)} (l : list A) (i : nat) (x y : A) :
  l !! i = Some x → (count P (<[i:=y]> l) + bit (P x) = count P l + bit (P y))%nat.
Proof.
  intros Hi. rewrite <- (take_drop_middle l i x Hi) at 2.
  rewrite insert_take_drop by (by eapply lookup_lt_Some).
  rewrite !count_app, !count_cons. lia.
Qed.

Lemma count_pos {A} (P : A → Prop) `{∀ x, Decision (P x)} (l : list A) :
  (0 < count P l)%nat ↔ ∃ i x, l !! i = Some x ∧ P x.
Proof.
  unfold count. split.
  - destruct (filter P l) as [|x k] eqn:Hf; [simpl; lia|]. intros _.
    assert (x ∈ filter P l) as [HP Hx]%list_elem_of_filter by (rewrite Hf; left).
    apply list_elem_of_lookup in Hx as [i Hi]. eauto.
  - intros (i & x & Hi & HP). assert (x ∈ filter P l) as Hx
      by (apply list_elem_of_filter; split; [done|by eapply list_elem_of_lookup_2]).
    destruct (filter P l); [by apply not_elem_of_nil in Hx|simpl; lia].
Qed.

Lemma count_impl {A} (P Q : A → Prop) `{∀ x, Decision (P x), ∀ x, Decision (Q x)} (l : list A) :
  (∀ x, x ∈ l → P x → Q x) → (count P l ≤ count Q l)%nat.
Proof.
  induction l as [|x l IH]; intros HPQ; [done|]. rewrite !count_cons.
  specialize (IH (λ y Hy, HPQ y (list_elem_of_further _ _ _ Hy))).
  specialize (HPQ x ltac:(left)). unfold bit. repeat case_decide; naive_solver lia.
Qed.

Lemma count_two {A} (P : A → Prop) `{∀ x, Decision (P x)} (l : list A) (i j : nat) (x y : A) :
  l !! i = Some x → l !! j = Some y → P x → P y → (i < j)%nat → (2 ≤ count P l)%nat.
Proof.
  intros Hi Hj Hx Hy Hij. rewrite <- (take_drop_middle l i x Hi), count_app, count_cons.
  assert (0 < count P (drop (S i) l))%nat.
  { apply count_pos. exists (j - S i)%nat, y. split; [|done]. rewrite lookup_drop, <- Hj. f_equal. lia. }
  unfold bit. rewrite decide_True by done. lia.
Qed.

Lemma count_ext {A} (P Q : A → Prop) `{∀ x, Decision (P x), ∀ x, Decision (Q x)} (l : list A) :
  (∀ x, x ∈ l → P x ↔ Q x) → count P l = count Q l.
Proof.
  induction l as [|x l IH]; intros HPQ; [done|]. rewrite !count_cons, IH by (intros; apply HPQ; by right).
  specialize (HPQ x ltac:(left)). unfold bit. repeat case_decide; naive_solver.
Qed.

(** ** State *)

(** [nsSlot]: the number of tokens in the channel's buffer, and [refs]. *)
Record nsSlot := { ns_ch : Z; ns_refs : Z }.

(** Where a goroutine stands inside [acquire] and [release]; it holds the
    namespace and the pointer to the slot. *)
Inductive phase :=
| Waiting (ns : gostring) (s : nat)    (* in the select *)
| Holding (ns : gostring) (s : nat)    (* sent on the channel: ok = true *)
| Leaving (ns : gostring) (s : nat) (ok : bool)  (* done() still to run *)
| Finished (ok : bool).

Record limiter := {
  tl_cap : Z;
  tl_heap : list nsSlot;               (* every slot ever allocated *)
  tl_ns : gmap gostring nat;           (* the map of the limiter *)
  tl_threads : list phase }.

Definition with_slot (s : nat) (v : nsSlot) (t : limiter) : limiter :=
  {| tl_cap := tl_cap t; tl_heap := <[s := v]> (tl_heap t); tl_ns := tl_ns t; tl_threads := tl_threads t |}.
Definition with_ns (m : gmap gostring nat) (t : limiter) : limiter :=
  {| tl_cap := tl_cap t; tl_heap := tl_heap t; tl_ns := m; tl_threads := tl_threads t |}.
Definition with_thread (i : nat) (p : phase) (t : limiter) : limiter :=
  {| tl_cap := tl_cap t; tl_heap := tl_heap t; tl_ns := tl_ns t; tl_threads := <[i := p]> (tl_threads t) |}.

(** [newTenantLimiter]: no limiter at all for a cap that is not positive. *)
Definition newTenantLimiter (cap : Z) : option limiter :=
  if cap <=? 0 then None else Some {| tl_cap := cap; tl_heap := []; tl_ns := ∅; tl_threads := [] |}.

(** ** Steps *)

Inductive action :=
| Enter (ns : gostring)                (* acquire is called *)
| Send (i : nat)                       (* the select takes the channel case *)
| Cancel (i : nat)                     (* the select takes ctx.Done() *)
| Receive (i : nat)                    (* release: <-s.ch *)
| Done (i : nat).                      (* done() *)

(** The first locked section of [acquire]. *)
Definition enter (ns : gostring) (t : limiter) : limiter :=
  let '(s, heap, m) :=
    match tl_ns t !! ns with
    | Some s => (s, tl_heap t, tl_ns t)
    | None => (length (tl_heap t), tl_heap t ++ [{| ns_ch := 0; ns_refs := 0 |}],
               <[ns := length (tl_heap t)]> (tl_ns t))
    end in
  {| tl_cap := tl_cap t;
     tl_heap := alter (λ v, {| ns_ch := ns_ch v; ns_refs := ns_refs v + 1 |}) s heap;
     tl_ns := m;
     tl_threads := tl_threads t ++ [Waiting ns s] |}.

(** [done]: drops the reference, and the entry with the last one. *)
Definition done_section (ns : gostring) (s : nat) (v : nsSlot) (t : limiter) : limiter :=
  let refs := ns_refs v - 1 in
  let t := with_slot s {| ns_ch := ns_ch v; ns_refs := refs |} t in
  if refs =? 0 then with_ns (delete ns (tl_ns t)) t else t.

(** One step; [None] when the goroutine cannot take it now (a full or an
    empty channel blocks). *)
Definition step (a : action) (t : limiter) : option limiter :=
  match a with
  | Enter ns => Some (enter ns t)
  | Send i =>
      match tl_threads t !! i with
      | Some (Waiting ns s) =>
          v ← tl_heap t !! s;
          if ns_ch v <? tl_cap t
          then Some (with_thread i (Holding ns s) (with_slot s {| ns_ch := ns_ch v + 1; ns_refs := ns_refs v |} t))
          else None
      | _ => None
      end
  | Cancel i =>
      match tl_threads t !! i with
      | Some (Waiting ns s) => Some (with_thread i (Leaving ns s false) t)
      | _ => None
      end
  | Receive i =>
      match tl_threads t !! i with
      | Some (Holding ns s) =>
          v ← tl_heap t !! s;
          if 0 <? ns_ch v
          then Some (with_thread i (Leaving ns s true) (with_slot s {| ns_ch := ns_ch v - 1; ns_refs := ns_refs v |} t))
          else None
      | _ => None
      end
  | Done i =>
      match tl_threads t !! i with
      | Some (Leaving ns s ok) =>
          v ← tl_heap t !! s;
          Some (with_thread i (Finished ok) (done_section ns s v t))
      | _ => None
      end
  end.

Inductive reachable (cap : Z) : limiter → Prop :=
| reachable_init t : newTenantLimiter cap = Some t → reachable cap t
| reachable_step a t t' : reachable cap t → step a t = Some t' → reachable cap t'.

(** ** What the goroutines hold *)

Definition holds_at (s : nat) (p : phase) : Prop := match p with Holding _ s' => s' = s | _ => False end.
Definition live_at (s : nat) (p : phase) : Prop :=
  match p with Waiting _ s' | Holding _ s' | Leaving _ s' _ => s' = s | Finished _ => False end.
Definition holds_ns (ns : gostring) (p : phase) : Prop := match p with Holding ns' _ => ns' = ns | _ => False end.

#[global] Instance holds_at_dec s p : Decision (holds_at s p).
Proof. destruct p; simpl; apply _. Defined.
#[global] Instance live_at_dec s p : Decision (live_at s p).
Proof. destruct p; simpl; apply _. Defined.
#[global] Instance holds_ns_dec ns p : Decision (holds_ns ns p).
Proof. destruct p; simpl; apply _. Defined.

(** The messages namespace [ns] is relaying. *)
Definition holders (ns : gostring) (t : limiter) : nat := count (holds_ns ns) (tl_threads t).

Definition phase_slot (p : phase) : option (gostring * nat) :=
  match p with
  | Waiting ns s | Holding ns s | Leaving ns s _ => Some (ns, s)
  | Finished _ => None
  end.

(** The invariant: a live goroutine's slot is the one the map has for its
    namespace, and a mapped slot counts the goroutines that use it. *)
Record slots_ok (t : limiter) : Prop := {
  so_cap : 0 < tl_cap t;
  so_live : ∀ i p ns s, tl_threads t !! i = Some p → phase_slot p = Some (ns, s) → tl_ns t !! ns = Some s;
  so_slot : ∀ ns s, tl_ns t !! ns = Some s → ∃ v, tl_heap t !! s = Some v ∧
    ns_refs v = Z.of_nat (count (live_at s) (tl_threads t)) ∧ 0 < ns_refs v ∧
    ns_ch v = Z.of_nat (count (holds_at s) (tl_threads t)) ∧ ns_ch v ≤ tl_cap t;
  so_inj : ∀ ns ns' s, tl_ns t !! ns = Some s → tl_ns t !! ns' = Some s → ns = ns' }.

Lemma live_at_phase (s : nat) (p : phase) : live_at s p ↔ ∃ ns, phase_slot p = Some (ns, s).
Proof. destruct p; simpl; naive_solver. Qed.

Lemma slots_init (cap : Z) (t : limiter) : newTenantLimiter cap = Some t → slots_ok t.
Proof.
  unfold newTenantLimiter. case_match; [done|]. intros [= <-].
  constructor; simpl; [lia|..]; intros *; rewrite ?lookup_empty, ?lookup_nil; done.
Qed.

(** A goroutine that keeps its slot: the phase and the channel change
    together. *)
Lemma slots_move (t : limiter) (i : nat) (p q : phase) (ns : gostring) (s : nat) (v : nsSlot) (ch : Z) :
  slots_ok t → tl_threads t !! i = Some p → tl_heap t !! s = Some v →
  phase_slot p = Some (ns, s) → phase_slot q = Some (ns, s) →
  ch ≤ tl_cap t → ch + Z.of_nat (bit (holds_at s p)) = ns_ch v + Z.of_nat (bit (holds_at s q)) →
  slots_ok (with_thread i q (with_slot s {| ns_ch := ch; ns_refs := ns_refs v |} t)).
Proof.
  intros [Hcap Hlive Hslot Hinj] Hi Hs Hp Hq Hch Hcount.
  constructor; simpl; [done| | |done].
  - intros j r ns' s'. destruct (decide (i = j)) as [<-|Hij].
    + rewrite list_lookup_insert_eq by (by eapply lookup_lt_Some). intros [= <-] Hr. simplify_eq. eauto.
    + rewrite list_lookup_insert_ne by done. eauto.
  - intros ns' s' Hns'. destruct (Hslot ns' s' Hns') as (v' & Hv' & Hrefs & Hpos & Hc & Hle).
    pose proof (count_update (live_at s') _ _ p q Hi) as Hl.
    pose proof (count_update (holds_at s') _ _ p q Hi) as Hh.
    assert (bit (live_at s' p) = bit (live_at s' q)) as Hb.
    { unfold bit. do 2 case_decide; rewrite live_at_phase, ?Hp, ?Hq in *; naive_solver. }
    destruct (decide (s = s')) as [<-|Hss].
    + rewrite list_lookup_insert_eq by (by eapply lookup_lt_Some).
      eexists. split; [done|]. simpl. simplify_eq. repeat split; lia.
    + rewrite list_lookup_insert_ne by done. exists v'. split; [done|].
      assert (bit (holds_at s' p) = 0%nat ∧ bit (holds_at s' q) = 0%nat) as [? ?].
      { split; unfold bit; case_decide as Hd; try done; destruct p, q; simpl in *; naive_solver. }
      repeat split; lia.
Qed.

Lemma bit_waiting_live (ns : gostring) (s : nat) : bit (live_at s (Waiting ns s)) = 1%nat.
Proof. unfold bit. by rewrite decide_True. Qed.

Lemma bit_waiting_other (ns : gostring) (s s' : nat) : s ≠ s' → bit (live_at s' (Waiting ns s)) = 0%nat.
Proof. intros. unfold bit. by rewrite decide_False. Qed.

Lemma bit_waiting_holds (ns : gostring) (s s' : nat) : bit (holds_at s' (Waiting ns s)) = 0%nat.
Proof. unfold bit. by rewrite decide_False by auto. Qed.

Lemma slots_bound (t : limiter) (ns : gostring) (s : nat) :
  slots_ok t → tl_ns t !! ns = Some s → (s < length (tl_heap t))%nat.
Proof. intros Hok (v & ?%lookup_lt_Some & _)%Hok. done. Qed.

(** No goroutine uses an address that is not allocated yet. *)
Lemma slots_fresh (t : limiter) (s : nat) :
  slots_ok t → (length (tl_heap t) ≤ s)%nat →
  count (live_at s) (tl_threads t) = 0%nat ∧ count (holds_at s) (tl_threads t) = 0%nat.
Proof.
  intros Hok Hs.
  assert (count (holds_at s) (tl_threads t) ≤ count (live_at s) (tl_threads t))%nat
    by (apply count_impl; by intros [] _).
  destruct (count (live_at s) (tl_threads t)) as [|n] eqn:Hn; [lia|]. exfalso.
  assert (0 < count (live_at s) (tl_threads t))%nat as (i & p & Hi & (ns' & Hp)%live_at_phase)%count_pos by lia.
  pose proof (slots_bound t ns' s Hok (so_live _ Hok _ _ _ _ Hi Hp)). lia.
Qed.

(** [enter] for a namespace that has a slot, and for one that gets its slot. *)
Lemma slots_enter_known (ns : gostring) (s : nat) (t : limiter) :
  slots_ok t → tl_ns t !! ns = Some s → slots_ok (enter ns t).
Proof.
  intros [Hcap Hlive Hslot Hinj] Hns. unfold enter. rewrite Hns.
  destruct (Hslot ns s Hns) as (v & Hv & Hrefs & Hpos & Hc & Hle).
  constructor; simpl; [done| | |done].
  - intros i p ns' s'. rewrite lookup_app_Some.
    intros [?|[_ ?%list_lookup_singleton_Some]] Hp; [eauto|]. destruct_and!. by simplify_eq/=.
  - intros ns' s' Hns'. destruct (Hslot ns' s' Hns') as (v' & Hv' & ?).
    setoid_rewrite count_snoc. rewrite bit_waiting_holds.
    destruct (decide (s = s')) as [<-|Hss].
    + rewrite list_lookup_alter_eq, Hv. eexists. split; [done|]. cbn [ns_refs ns_ch].
      rewrite bit_waiting_live. simplify_eq. lia.
    + rewrite list_lookup_alter_ne by done. exists v'. rewrite bit_waiting_other by done. split; [done|]. lia.
Qed.

Lemma slots_enter_new (ns : gostring) (t : limiter) :
  slots_ok t → tl_ns t !! ns = None → slots_ok (enter ns t).
Proof.
  intros Hok Hns. pose proof (λ ns' s', slots_bound t ns' s' Hok) as Hbound.
  unfold enter. rewrite Hns. set (s := length (tl_heap t)) in *.
  destruct (slots_fresh t s Hok) as [Hfresh Hfresh']; [unfold s; lia|]. destruct Hok as [Hcap Hlive Hslot Hinj].
  constructor; simpl; [done| | |].
  - intros i p ns' s'. rewrite lookup_app_Some.
    intros [Hi|[_ ?%list_lookup_singleton_Some]] Hp.
    + rewrite lookup_insert_ne; [eauto|]. intros <-. by rewrite (Hlive i p ns s') in Hns.
    + destruct_and!. simplify_eq/=. apply lookup_insert_eq.
  - intros ns' s'. setoid_rewrite count_snoc. rewrite bit_waiting_holds.
    rewrite lookup_insert_Some. intros [[<- <-]|[Hne Hns']].
    + rewrite list_lookup_alter_eq, list_lookup_middle by done. eexists. split; [done|].
      cbn [ns_refs ns_ch]. rewrite bit_waiting_live. lia.
    + pose proof (Hbound _ _ Hns'). destruct (Hslot ns' s' Hns') as (v' & Hv' & ?).
      assert (s ≠ s') by lia. rewrite list_lookup_alter_ne, lookup_app_l by done.
      exists v'. rewrite bit_waiting_other by done. split; [done|]. lia.
  - intros n1 n2 s'. rewrite !lookup_insert_Some. intros [[<- <-]|[? H1]] [[<- ?]|[? H2]]; try done.
    + apply Hbound in H2. lia.
    + apply Hbound in H1. lia.
    + eauto.
Qed.

(** The counts after goroutine [i] has left: its slot loses one user. *)
Lemma leaving_counts (l : list phase) (i : nat) (ns : gostring) (s s' : nat) (ok : bool) :
  l !! i = Some (Leaving ns s ok) →
  (count (live_at s') (<[i := Finished ok]> l) + bit (s = s') = count (live_at s') l)%nat ∧
  count (holds_at s') (<[i := Finished ok]> l) = count (holds_at s') l.
Proof.
  intros Hi.
  pose proof (count_update (live_at s') _ _ _ (Finished ok) Hi) as Hl.
  pose proof (count_update (holds_at s') _ _ _ (Finished ok) Hi) as Hh.
  revert Hl Hh. unfold bit. simpl. repeat case_decide; try done; lia.
Qed.

Lemma leaving_live (t : limiter) (i j : nat) (ok : bool) (p : phase) (ns : gostring) (s : nat) :
  slots_ok t → (i < length (tl_threads t))%nat →
  <[i := Finished ok]> (tl_threads t) !! j = Some p → phase_slot p = Some (ns, s) →
  tl_ns t !! ns = Some s ∧ (0 < count (live_at s) (<[i := Finished ok]> (tl_threads t)))%nat.
Proof.
  intros Hok Hi Hj Hp. split.
  - destruct (decide (i = j)) as [<-|Hij].
    + rewrite list_lookup_insert_eq in Hj by done. by simplify_eq.
    + rewrite list_lookup_insert_ne in Hj by done. by eapply so_live.
  - apply count_pos. exists j, p. split; [done|]. apply live_at_phase. eauto.
Qed.

Lemma slots_done (t : limiter) (i : nat) (ns : gostring) (s : nat) (ok : bool) (v : nsSlot) :
  slots_ok t → tl_threads t !! i = Some (Leaving ns s ok) → tl_heap t !! s = Some v →
  slots_ok (with_thread i (Finished ok) (done_section ns s v t)).
Proof.
  intros Hok Hi Hs. pose proof (lookup_lt_Some _ _ _ Hi) as Hlt.
  pose proof (λ j p ns' s', leaving_live t i j ok p ns' s' Hok Hlt) as Hlive'.
  pose proof (λ s', leaving_counts _ _ _ _ s' _ Hi) as Hn. destruct Hok as [Hcap Hlive Hslot Hinj].
  assert (tl_ns t !! ns = Some s) as Hns by by eapply Hlive.
  destruct (Hslot ns s Hns) as (v' & Hv & Hrefs & Hpos & Hc & Hle). simplify_eq.
  set (threads := <[i := Finished ok]> (tl_threads t)) in *.
  assert (∀ ns' s', tl_ns t !! ns' = Some s' → (ns' = ns → ns_refs v - 1 ≠ 0) → ∃ w,
    <[s := {| ns_ch := ns_ch v; ns_refs := ns_refs v - 1 |}]> (tl_heap t) !! s' = Some w ∧
    ns_refs w = Z.of_nat (count (live_at s') threads) ∧ 0 < ns_refs w ∧
    ns_ch w = Z.of_nat (count (holds_at s') threads) ∧ ns_ch w ≤ tl_cap t) as Hslot'.
  { intros ns' s' Hns' Hz'. specialize (Hn s'). unfold bit in Hn. destruct (decide (s = s')) as [<-|Hss].
    - rewrite list_lookup_insert_eq by (by eapply lookup_lt_Some). eexists. split; [done|]. cbn [ns_refs ns_ch].
      assert (ns' = ns) by eauto. specialize (Hz' ltac:(done)). lia.
    - rewrite list_lookup_insert_ne by done. destruct (Hslot ns' s' Hns') as (w & ? & ?). exists w. split; [done|]. lia. }
  unfold done_section. destruct (ns_refs v - 1 =? 0) eqn:Hr; constructor; simpl; try done; fold threads.
  - intros j p ns' s' Hj Hp. destruct (Hlive' _ _ _ _ Hj Hp) as [Hn' Hc'].
    rewrite lookup_delete_ne; [done|]. intros <-. assert (s' = s) as -> by congruence.
    specialize (Hn s). unfold bit in Hn. rewrite decide_True in Hn by done. lia.
  - intros ns' s' [Hne Hns']%lookup_delete_Some. by apply (Hslot' ns').
  - intros n1 n2 s' [_ ?]%lookup_delete_Some [_ ?]%lookup_delete_Some. eauto.
  - intros j p ns' s' Hj Hp. by destruct (Hlive' _ _ _ _ Hj Hp).
  - intros ns' s' Hns'. apply (Hslot' ns'); [done|]. lia.
Qed.

Lemma slots_step (a : action) (t t' : limiter) : slots_ok t → step a t = Some t' → slots_ok t'.
Proof.
  intros Hok. destruct a as [ns|i|i|i|i]; simpl.
  - intros [= <-]. destruct (tl_ns t !! ns) eqn:Hns; [by eapply slots_enter_known|by apply slots_enter_new].
  - destruct (tl_threads t !! i) as [[ns s|ns s|ns s ok|ok]|] eqn:Hi; try done.
    intros (v & Hv & Hst)%bind_Some. case_match eqn:Hc; simplify_eq. apply Z.ltb_lt in Hc.
    eapply slots_move; eauto; [lia|]. unfold bit. simpl. repeat case_decide; try done; lia.
  - destruct (tl_threads t !! i) as [[ns s|ns s|ns s ok|ok]|] eqn:Hi; try done. intros [= <-].
    destruct (so_slot _ Hok ns s) as (v & Hv & _ & _ & _ & Hle); [by eapply so_live|].
    replace t with (with_slot s {| ns_ch := ns_ch v; ns_refs := ns_refs v |} t) at 1.
    { eapply slots_move; eauto. }
    unfold with_slot. destruct t, v; simpl in *. by rewrite list_insert_id.
  - destruct (tl_threads t !! i) as [[ns s|ns s|ns s ok|ok]|] eqn:Hi; try done.
    intros (v & Hv & Hst)%bind_Some. case_match eqn:Hc; simplify_eq. apply Z.ltb_lt in Hc.
    destruct (so_slot _ Hok ns s) as (v' & Hv' & _ & _ & _ & Hle); [by eapply so_live|]. simplify_eq.
    eapply slots_move; eauto; [lia|]. unfold bit. simpl. repeat case_decide; try done; lia.
  - destruct (tl_threads t !! i) as [[ns s|ns s|ns s ok|ok]|] eqn:Hi; try done.
    intros (v & Hv & [= <-])%bind_Some. by eapply slots_done.
Qed.

Lemma step_cap (a : action) (t t' : limiter) : step a t = Some t' → tl_cap t' = tl_cap t.
Proof.
  destruct a; simpl; [intros [= <-]; unfold enter; by destruct (tl_ns t !! ns)|..];
    destruct (tl_threads t !! i) as [[| | |]|]; try done.
  all: try (intros (v & _ & Hs)%bind_Some; try case_match; by simplify_eq).
  - by intros [= <-].
  - intros (v & _ & [= <-])%bind_Some. unfold done_section. simpl. by case_match.
Qed.

Lemma slots_reachable (cap : Z) (t : limiter) : reachable cap t → slots_ok t ∧ tl_cap t = cap.
Proof.
  induction 1 as [t Ht|a t t' _ [IH <-] Hs].
  - split; [by eapply slots_init|]. revert Ht. unfold newTenantLimiter. case_match; naive_solver.
  - split; [by eapply slots_step|by eapply step_cap].
Qed.

(** The holders of a namespace are the tokens in its slot, if it has one. *)
Lemma holders_slot (t : limiter) (ns : gostring) (s : nat) :
  slots_ok t → tl_ns t !! ns = Some s → holders ns t = count (holds_at s) (tl_threads t).
Proof.
  intros Hok Hns. apply count_ext. intros p [i Hi]%list_elem_of_lookup.
  destruct p as [n s'|n s'|n s' ok|ok]; simpl; try done.
  pose proof (so_live _ Hok _ _ n s' Hi ltac:(done)) as Hl. split; [congruence|].
  intros ->. by eapply so_inj.
Qed.

Lemma holders_none (t : limiter) (ns : gostring) :
  slots_ok t → tl_ns t !! ns = None → holders ns t = 0%nat.
Proof.
  intros Hok Hns. destruct (holders ns t) as [|n] eqn:Hh; [done|]. exfalso.
  assert (0 < holders ns t)%nat as (i & p & Hi & Hp)%count_pos by lia.
  destruct p as [n' s'|n' s'|n' s' ok|ok]; simpl in *; try done. subst.
  pose proof (so_live _ Hok _ _ ns s' Hi ltac:(done)). congruence.
Qed.

(** The bound on a namespace. *)
Lemma holders_bounded (cap : Z) (t : limiter) (ns : gostring) :
  slots_ok t → tl_cap t = cap → Z.of_nat (holders ns t) ≤ cap.
Proof.
  intros Hok <-. destruct (tl_ns t !! ns) as [s|] eqn:Hns.
  - rewrite (holders_slot t ns s) by done. destruct (so_slot _ Hok ns s Hns) as (v & _ & _ & _ & <- & ?). done.
  - rewrite holders_none by done. pose proof (so_cap _ Hok). lia.
Qed.

(** With capacity one, a namespace has at most one holder. *)
Lemma holder_unique (t : limiter) (i j : nat) (ns : gostring) (s s' : nat) :
  slots_ok t → tl_cap t = 1 →
  tl_threads t !! i = Some (Holding ns s) → tl_threads t !! j = Some (Holding ns s') → i = j.
Proof.
  intros Hok Hcap Hi Hj. pose proof (holders_bounded 1 t ns Hok Hcap) as Hle. unfold holders in Hle.
  destruct (lt_eq_lt_dec i j) as [[Hij| ->]|Hij]; [|done|].
  - pose proof (count_two (holds_ns ns) _ _ _ _ _ Hi Hj ltac:(done) ltac:(done) Hij). lia.
  - pose proof (count_two (holds_ns ns) _ _ _ _ _ Hj Hi ltac:(done) ltac:(done) Hij). lia.
Qed.

(** A holder keeps its slot until it receives. *)
Lemma holding_kept (a : action) (t t' : limiter) (i : nat) (ns : gostring) (s : nat) :
  step a t = Some t' → a ≠ Receive i → tl_threads t !! i = Some (Holding ns s) →
  tl_threads t' !! i = Some (Holding ns s).
Proof.
  intros Hs Ha Hi.
  assert (∀ j p t1, (j = i → p = Holding ns s) → tl_threads t1 = tl_threads t →
    tl_threads (with_thread j p t1) !! i = Some (Holding ns s)) as Hupd.
  { intros j p t1 Hj Ht1. simpl. rewrite Ht1. destruct (decide (j = i)) as [<-|Hne].
    - rewrite list_lookup_insert_eq by (by eapply lookup_lt_Some). by rewrite Hj.
    - by rewrite list_lookup_insert_ne. }
  destruct a as [n|j|j|j|j]; simpl in Hs.
  - simplify_eq. unfold enter. destruct (tl_ns t !! n); simpl; by apply lookup_app_l_Some.
  - destruct (tl_threads t !! j) as [[| | |]|] eqn:Hj; try done. apply bind_Some in Hs as (v & _ & Hs).
    case_match; simplify_eq. apply Hupd; [|done]. intros ->. congruence.
  - destruct (tl_threads t !! j) as [[| | |]|] eqn:Hj; try done. simplify_eq. apply Hupd; [|done]. intros ->. congruence.
  - destruct (tl_threads t !! j) as [[| | |]|] eqn:Hj; try done. apply bind_Some in Hs as (v & _ & Hs).
    case_match; simplify_eq. apply Hupd; [|done]. congruence.
  - destruct (tl_threads t !! j) as [[| | |]|] eqn:Hj; try done. apply bind_Some in Hs as (v & _ & [= <-]).
    apply Hupd; [intros ->; congruence|]. unfold done_section. by case_match.
Qed.

(** A sequence of steps. *)
Fixpoint run (l : list action) (t : limiter) : option limiter :=
  match l with
  | [] => Some t
  | a :: l => t' ← step a t; run l t'
  end.

Lemma run_reachable (cap : Z) (l : list action) (t t' : limiter) :
  reachable cap t → run l t = Some t' → reachable cap t'.
Proof.
  revert t. induction l as [|a l IH]; intros t Ht; simpl; [by intros [= <-]|].
  intros (t1 & Hs & Hr)%bind_Some. eapply IH; [|done]. by eapply reachable_step.
Qed.

(** ** Properties *)

(** C6. However the goroutines interleave, a namespace never relays more
    messages at once than the cap: the slot a goroutine waits on is always the
    one later callers of that namespace find, because the entry is not removed
    while it is referenced. *)
Theorem tenant_cap (cap : Z) (t : limiter) (ns : gostring) :
  reachable cap t → Z.of_nat (holders ns t) ≤ cap.
Proof.
  intros [Hok Hcap]%slots_reachable. by apply holders_bounded.
Qed.

(** C21. No tenant waits for another, none is stuck and nothing leaks: in every
    reachable state a waiting goroutine gets its slot exactly when its own
    namespace is below the cap, a holder can always release, a goroutine that
    leaves can always finish, and once every goroutine has finished the map is
    empty. *)
Theorem tenant_isolation (cap : Z) (t : limiter) :
  reachable cap t →
  (∀ i ns s, tl_threads t !! i = Some (Waiting ns s) →
     (is_Some (step (Send i) t) ↔ Z.of_nat (holders ns t) < cap)) ∧
  (∀ i ns s, tl_threads t !! i = Some (Holding ns s) → is_Some (step (Receive i) t)) ∧
  (∀ i ns s ok, tl_threads t !! i = Some (Leaving ns s ok) → is_Some (step (Done i) t)) ∧
  ((∀ i p, tl_threads t !! i = Some p → ∃ ok, p = Finished ok) → tl_ns t = ∅).
Proof.
  intros [Hok <-]%slots_reachable. split_and!.
  - intros i ns s Hi. pose proof (so_live _ Hok _ _ ns s Hi ltac:(done)) as Hns.
    destruct (so_slot _ Hok ns s Hns) as (v & Hv & _ & _ & Hch & _).
    rewrite (holders_slot t ns s), <- Hch by done. simpl. rewrite Hi. simpl. rewrite Hv. simpl.
    destruct (Z.ltb_spec (ns_ch v) (tl_cap t)); split; intros Hs; try lia; [by eexists|by destruct Hs].
  - intros i ns s Hi. pose proof (so_live _ Hok _ _ ns s Hi ltac:(done)) as Hns.
    destruct (so_slot _ Hok ns s Hns) as (v & Hv & _ & _ & Hch & _).
    assert (0 < count (holds_at s) (tl_threads t))%nat by (apply count_pos; by exists i, (Holding ns s)).
    simpl. rewrite Hi. simpl. rewrite Hv. simpl. rewrite (proj2 (Z.ltb_lt _ _)) by lia. by eexists.
  - intros i ns s ok Hi. pose proof (so_live _ Hok _ _ ns s Hi ltac:(done)) as Hns.
    destruct (so_slot _ Hok ns s Hns) as (v & Hv & _). simpl. rewrite Hi. simpl. rewrite Hv. by eexists.
  - intros Hfin. apply map_empty. intros ns. destruct (tl_ns t !! ns) as [s|] eqn:Hns; [|done].
    destruct (so_slot _ Hok ns s Hns) as (v & _ & Hrefs & Hpos & _).
    assert (0 < count (live_at s) (tl_threads t))%nat as (i & p & Hi & Hp)%count_pos by lia.
    destruct (Hfin i p Hi) as [ok ->]. done.
Qed.

(** Two goroutines of one tenant and one of another, with cap one: the second
    one of the first tenant waits, the other tenant's does not. *)
Definition contended : list action :=
  [Enter (lit "a"); Enter (lit "a"); Send 0; Enter (lit "b"); Send 2].
Definition contended_state : limiter :=
  default {| tl_cap := 1; tl_heap := []; tl_ns := ∅; tl_threads := [] |}
    (t ← newTenantLimiter 1; run contended t).

Lemma contended_reachable : reachable 1 contended_state.
Proof.
  eapply (run_reachable 1 contended); [by apply reachable_init|]. vm_compute. reflexivity.
Qed.

Lemma tenant_cap_witness :
  reachable 1 contended_state ∧ Z.of_nat (holders (lit "a") contended_state) ≤ 1
  ∧ Z.of_nat (holders (lit "a") contended_state) = 1.
Proof.
  split; [apply contended_reachable|].
  split; [apply tenant_cap; apply contended_reachable|vm_compute; reflexivity].
Defined.

Lemma tenant_isolation_witness :
  reachable 1 contended_state ∧ step (Send 1) contended_state = None ∧
  (is_Some (step (Send 1) contended_state) ↔ Z.of_nat (holders (lit "a") contended_state) < 1).
Proof.
  split; [apply contended_reachable|]. split; [vm_compute; reflexivity|].
  destruct (tenant_isolation 1 contended_state contended_reachable) as [Hw _].
  apply (Hw 1%nat (lit "a") 0%nat). vm_compute. reflexivity.
Defined.
