(* ===== verification/LoginThrottle.v ===== *)
(** * Throttling of failed logins (internal/smtpproxy/credential.go, [FailureLimiter])

    Attempts of one username from one address take turns ([Slots] with
    capacity one), each counts the failures of the last [Window] before the
    password is checked, and records its own failure before the turn is given
    up.  The steps of concurrent logins interleave freely; the clock only moves
    forward.  The LRU cache of failure times is a parameter ([LRUMap]). *)

From S2P Require Import Prelude GoStrings Slots.

(** ** github.com/hashicorp/golang-lru/v2, as far as the limiter uses it *)

Class LRUMap (V C : Type) := {
  lm_Get : gostring → C → option V * C;
  lm_Add : gostring → V → C → C;
  lm_Remove : gostring → C → C;
  lm_empty : C }.

(** Documented behaviour, with [lm_content] the entries of a cache: [Get] finds
    the entry and changes only recency, [Remove] removes it, and [Add] stores it,
    without evicting another one while there is room, and leaves no other value. *)
Class LRUMapLaws (V C : Type) (cap : nat) `{LRUMap V C} := {
  lm_content : C → gmap gostring V;
  lm_Get_content : ∀ k c, fst (lm_Get k c) = lm_content c !! k;
  lm_Get_same : ∀ k c, lm_content (snd (lm_Get k c)) = lm_content c;
  lm_Add_content : ∀ k v c, (is_Some (lm_content c !! k) ∨ size (lm_content c) < cap)%nat →
    lm_content (lm_Add k v c) = <[k := v]> (lm_content c);
  lm_Add_sub : ∀ k v c, lm_content (lm_Add k v c) ⊆ <[k := v]> (lm_content c);
  lm_Remove_content : ∀ k c, lm_content (lm_Remove k c) = delete k (lm_content c);
  lm_empty_content : lm_content lm_empty = ∅ }.

Definition maxFailureKeys : nat := Z.to_nat 100000.

(** ** The limiter *)

(** How far a goroutine that has its turn has come: refused, checking the
    password, or with its outcome recorded. *)
Inductive attempt := Throttled | Checking | Settled.

#[global] Instance attempt_eq_dec : EqDecision attempt.
Proof. solve_decision. Defined.

Section throttle.
Context `{LRUMap (list Time) C}.

Record FailureLimiter := {
  f_Window : Duration; f_PerUserIP : Z;
  f_hits : C;
  f_busy : limiter;
  f_attempts : gmap nat attempt }.

Definition newFailureLimiter (window : Duration) (perUserIP : Z) : FailureLimiter :=
  {| f_Window := window; f_PerUserIP := perUserIP; f_hits := lm_empty;
     f_busy := {| tl_cap := 1; tl_heap := []; tl_ns := ∅; tl_threads := [] |};
     f_attempts := ∅ |}.

Definition set_hits (c : C) (f : FailureLimiter) : FailureLimiter :=
  {| f_Window := f_Window f; f_PerUserIP := f_PerUserIP f; f_hits := c; f_busy := f_busy f;
     f_attempts := f_attempts f |}.
Definition set_busy (b : limiter) (f : FailureLimiter) : FailureLimiter :=
  {| f_Window := f_Window f; f_PerUserIP := f_PerUserIP f; f_hits := f_hits f; f_busy := b;
     f_attempts := f_attempts f |}.
Definition set_attempt (i : nat) (a : attempt) (f : FailureLimiter) : FailureLimiter :=
  {| f_Window := f_Window f; f_PerUserIP := f_PerUserIP f; f_hits := f_hits f; f_busy := f_busy f;
     f_attempts := <[i := a]> (f_attempts f) |}.

Definition userIPKey (username ip : gostring) : gostring := ip ++ NUL :: username.

(** The loop over the times that are not after [cut]. *)
Fixpoint pruned (cut : Time) (ts : list Time) : nat :=
  match ts with
  | [] => 0%nat
  | t :: ts => if t <=? cut then S (pruned cut ts) else 0%nat
  end.

Definition countLocked (now : Time) (key : gostring) (f : FailureLimiter) : nat * FailureLimiter :=
  let '(r, hits) := lm_Get key (f_hits f) in
  match r with
  | None => (0%nat, set_hits hits f)
  | Some ts =>
      let cut := now - f_Window f in
      let i := pruned cut ts in
      if (i =? length ts)%nat then (0%nat, set_hits (lm_Remove key hits) f)
      else if (0 <? i)%nat then ((length ts - i)%nat, set_hits (lm_Add key (drop i ts) hits) f)
      else ((length ts - i)%nat, set_hits hits f)
  end.

(** The recording of a failure by [done(true)]. *)
Definition recordFailure (now : Time) (key : gostring) (f : FailureLimiter) : FailureLimiter :=
  let '(ts, hits) := lm_Get key (f_hits f) in
  set_hits (lm_Add key (default [] ts ++ [now]) hits) f.

(** ** Steps of [Begin] and of the function it returns *)

Inductive faction :=
| FBegin (username ip : gostring)      (* Begin, up to its select *)
| FTurn (i : nat)                      (* the turn is taken *)
| FCancel (i : nat)                    (* the context ends first *)
| FCount (i : nat)                     (* countLocked and the comparison *)
| FDone (i : nat) (failed : bool)      (* done(failed), up to release *)
| FRelease (i : nat)                   (* release: <-turn.ch *)
| FLeave (i : nat).                    (* leave() *)

Definition key_of (i : nat) (f : FailureLimiter) : option gostring :=
  match tl_threads (f_busy f) !! i with
  | Some (Holding k _) => Some k
  | _ => None
  end.

Definition fstep (a : faction) (now : Time) (f : FailureLimiter) : option FailureLimiter :=
  match a with
  | FBegin username ip =>
      if f_PerUserIP f <=? 0 then Some f
      else b ← step (Enter (userIPKey username ip)) (f_busy f); Some (set_busy b f)
  | FTurn i => b ← step (Send i) (f_busy f); Some (set_busy b f)
  | FCancel i => b ← step (Cancel i) (f_busy f); Some (set_busy b f)
  | FCount i =>
      k ← key_of i f;
      if f_attempts f !! i != None then None
      else let '(n, f) := countLocked now k f in
           Some (set_attempt i (if f_PerUserIP f <=? Z.of_nat n then Throttled else Checking) f)
  | FDone i failed =>
      k ← key_of i f;
      if f_attempts f !! i != Some Checking then None
      else Some (set_attempt i Settled (if failed then recordFailure now k f else f))
  | FRelease i =>
      if (f_attempts f !! i == Some Throttled) || (f_attempts f !! i == Some Settled)
      then b ← step (Receive i) (f_busy f); Some (set_busy b f)
      else None
  | FLeave i => b ← step (Done i) (f_busy f); Some (set_busy b f)
  end.

(** ** The history: failures that were recorded, newest first *)

Abbreviation history := (list (gostring * Time)).

Definition failure_of (a : faction) (now : Time) (f : FailureLimiter) : history :=
  match a with
  | FDone i true => match key_of i f with Some k => [(k, now)] | None => [] end
  | _ => []
  end.

(** [reached f h now]: some interleaving of logins leads to [f] at time [now],
    with [h] the failures so far. *)
Inductive reached (window : Duration) (per : Z) : FailureLimiter → history → Time → Prop :=
| reached_init now : reached window per (newFailureLimiter window per) [] now
| reached_wait f h now now' : reached window per f h now → now ≤ now' → reached window per f h now'
| reached_step a f f' h now :
    reached window per f h now → fstep a now f = Some f' →
    reached window per f' (failure_of a now f ++ h) now.

(** Failures of [k] in the window of size [w] that ends at [t]. *)
Definition in_window (k : gostring) (w t : Z) (e : gostring * Time) : Prop :=
  fst e = k ∧ t - w < snd e ≤ t.
Definition failures (k : gostring) (w t : Z) (h : history) : nat := count (in_window k w t) h.

(** The keys that ever failed. *)
Definition failed_keys (h : history) : gset gostring := list_to_set (fst <$> h).

End throttle.
Arguments FailureLimiter C : clear implicits.

(** ** Times of one key *)

(** The failure times of [k], oldest first. *)
Definition times (k : gostring) (h : list (gostring * Time)) : list Time :=
  reverse (snd <$> filter (λ e, fst e = k) h).

Lemma times_cons (k k' : gostring) (t : Time) (h : list (gostring * Time)) :
  times k ((k', t) :: h) = times k h ++ (if decide (k' = k) then [t] else []).
Proof.
  unfold times. rewrite filter_cons. simpl. case_decide; simpl.
  - by rewrite reverse_cons.
  - by rewrite app_nil_r.
Qed.

Lemma failures_times (k : gostring) (w t : Z) (h : list (gostring * Time)) :
  failures k w t h = count (λ x, t - w < x ≤ t) (times k h).
Proof.
  induction h as [|[k' x] h IH]; [done|]. unfold failures in *. rewrite count_cons, IH, times_cons, count_app.
  unfold bit, in_window. simpl. destruct (decide (k' = k)) as [->|Hne].
  - rewrite count_cons. unfold bit. change (count _ []) with 0%nat. do 2 case_decide; naive_solver lia.
  - rewrite decide_False by tauto. change (count _ []) with 0%nat. lia.
Qed.

Lemma count_all {A} (P : A → Prop) `{∀ x, Decision (P x)} (l : list A) :
  Forall P l → count P l = length l.
Proof. induction 1 as [|x l Hx _ IH]; [done|]. rewrite count_cons, IH. unfold bit. by rewrite decide_True. Qed.

Lemma count_none {A} (P : A → Prop) `{∀ x, Decision (P x)} (l : list A) :
  Forall (λ x, ¬ P x) l → count P l = 0%nat.
Proof. induction 1 as [|x l Hx _ IH]; [done|]. rewrite count_cons, IH. unfold bit. by rewrite decide_False. Qed.

Lemma pruned_le (cut : Time) (ts : list Time) :
  (pruned cut ts ≤ length ts)%nat ∧ Forall (λ x, x ≤ cut) (take (pruned cut ts) ts).
Proof.
  induction ts as [|t ts [IH1 IH2]]; simpl; [by split; [|constructor]|].
  destruct (Z.leb_spec t cut); simpl; split; try lia; [by constructor|constructor].
Qed.

Lemma pruned_rest (cut : Time) (ts : list Time) :
  Sorted Z.le ts → Forall (λ x, cut < x) (drop (pruned cut ts) ts).
Proof.
  intros Hs%Sorted_StronglySorted; [|by intros ??? ? ?; lia].
  induction Hs as [|t ts Hs IH Hall]; simpl; [constructor|].
  destruct (Z.leb_spec t cut); [done|]. constructor; [done|].
  eapply Forall_impl; [exact Hall|]. simpl. lia.
Qed.

(** Failure times grow, and are in the past. *)
Definition past (now : Time) (h : list (gostring * Time)) : Prop :=
  ∀ k, Sorted Z.le (times k h) ∧ Forall (λ x, x ≤ now) (times k h).

Lemma past_cons (k : gostring) (now : Time) (h : list (gostring * Time)) :
  past now h → past now ((k, now) :: h).
Proof.
  intros Hp k'. destruct (Hp k') as [Hs Ha]. rewrite times_cons. case_decide; [|by rewrite app_nil_r].
  split; [|apply Forall_app; split; [done|by repeat constructor]].
  apply StronglySorted_Sorted, StronglySorted_app. split_and!.
  - intros x y Hx ->%list_elem_of_singleton. by eapply Forall_forall in Ha.
  - by apply Sorted_StronglySorted; [intros ??? ? ?; lia|].
  - repeat constructor.
Qed.

Section throttle_proofs.
Context `{LRUMapLaws (list Time) C maxFailureKeys}.

(** The cache has the failures that still count: it has forgotten only
    failures that left the window. *)
Definition recent (f : FailureLimiter C) (h : list (gostring * Time)) (now : Time) : Prop :=
  (∀ k, ∃ old, times k h = old ++ default [] (lm_content (f_hits f) !! k) ∧
               Forall (λ x, x ≤ now - f_Window f) old) ∧
  dom (lm_content (f_hits f)) ⊆ failed_keys h.

Lemma recent_wait (f : FailureLimiter C) (h : list (gostring * Time)) (now now' : Time) :
  recent f h now → now ≤ now' → recent f h now'.
Proof.
  intros [Hr Hd] Hle. split; [|done]. intros k. destruct (Hr k) as (old & He & Ho). exists old. split; [done|].
  eapply Forall_impl; [exact Ho|]. simpl. lia.
Qed.

Definition with_content (m : gmap gostring (list Time)) (f f' : FailureLimiter C) : Prop :=
  f_Window f' = f_Window f ∧ f_PerUserIP f' = f_PerUserIP f ∧ f_busy f' = f_busy f ∧
  f_attempts f' = f_attempts f ∧ lm_content (f_hits f') = m.

(** Changing one key of the cache. *)
Lemma recent_update (f f' : FailureLimiter C) (h : list (gostring * Time)) (now : Time) (k : gostring)
    (o : option (list Time)) (old : list Time) :
  recent f h now → with_content (partial_alter (λ _, o) k (lm_content (f_hits f))) f f' →
  (is_Some o → is_Some (lm_content (f_hits f) !! k)) →
  times k h = old ++ default [] o → Forall (λ x, x ≤ now - f_Window f) old →
  recent f' h now.
Proof.
  intros [Hr Hd] (Hw & _ & _ & _ & Hc) Ho Ht Hold. split.
  - intros k'. rewrite Hc, Hw. destruct (decide (k = k')) as [<-|Hne].
    + rewrite lookup_partial_alter_eq. eauto.
    + rewrite lookup_partial_alter_ne by done. apply Hr.
  - rewrite Hc. intros k' Hk'. apply elem_of_dom in Hk'. apply Hd, elem_of_dom.
    destruct (decide (k = k')) as [<-|Hne].
    + rewrite lookup_partial_alter_eq in Hk'. auto.
    + by rewrite lookup_partial_alter_ne in Hk'.
Qed.

Lemma recent_split (f : FailureLimiter C) (h : list (gostring * Time)) (now : Time) (k : gostring) (ts : list Time) :
  recent f h now → past now h → lm_content (f_hits f) !! k = Some ts →
  let i := pruned (now - f_Window f) ts in
  failures k (f_Window f) now h = (length ts - i)%nat ∧
  ∃ old, times k h = old ++ drop i ts ∧ Forall (λ x, x ≤ now - f_Window f) old.
Proof.
  intros [Hr _] Hp Hk i. destruct (Hr k) as (old & He & Ho). rewrite Hk in He. simpl in He.
  destruct (Hp k) as [Hs Ha]. rewrite He in Hs, Ha.
  apply Sorted_StronglySorted in Hs; [|by intros ??? ? ?; lia].
  apply StronglySorted_app_1_r, StronglySorted_Sorted in Hs.
  apply Forall_app in Ha as [_ Ha].
  destruct (pruned_le (now - f_Window f) ts) as [Hle Htake]. pose proof (pruned_rest (now - f_Window f) ts Hs) as Hdrop.
  fold i in Hle, Htake, Hdrop.
  assert (times k h = (old ++ take i ts) ++ drop i ts) as Ht by (by rewrite <- app_assoc, take_drop).
  assert (Forall (λ x, x ≤ now - f_Window f) (old ++ take i ts)) as Hold by by apply Forall_app.
  split; [|by exists (old ++ take i ts)].
  rewrite failures_times, Ht, count_app, count_none, count_all, length_drop; [done|..].
  - rewrite <- (take_drop i ts) in Ha. apply Forall_app in Ha as [_ Ha].
    rewrite Forall_forall in *. naive_solver.
  - eapply Forall_impl; [exact Hold|]. simpl. lia.
Qed.

Lemma with_content_hits (f : FailureLimiter C) (c : C) : with_content (lm_content c) f (set_hits c f).
Proof. done. Qed.

(** [countLocked] counts exactly the failures of the window. *)
Lemma countLocked_spec (f : FailureLimiter C) (h : list (gostring * Time)) (now : Time) (k : gostring) :
  recent f h now → past now h →
  ∃ f', countLocked now k f = (failures k (f_Window f) now h, f') ∧ recent f' h now ∧
        with_content (lm_content (f_hits f')) f f'.
Proof.
  intros Hr Hp. unfold countLocked.
  destruct (lm_Get k (f_hits f)) as [r hits] eqn:Hg.
  pose proof (lm_Get_content k (f_hits f)) as Hk. rewrite Hg in Hk. simpl in Hk.
  pose proof (lm_Get_same k (f_hits f)) as Hsame. rewrite Hg in Hsame. simpl in Hsame.
  destruct r as [ts|]; symmetry in Hk.
  - destruct (recent_split f h now k ts Hr Hp Hk) as (Hf & old & Ht & Hold).
    set (i := pruned (now - f_Window f) ts) in *. rewrite Hf. pose proof (pruned_le (now - f_Window f) ts) as [Hle _].
    fold i in Hle. destruct (Nat.eqb_spec i (length ts)) as [Hi|Hi].
    + eexists. split; [f_equal; lia|]. split; [|done].
      eapply (recent_update f _ h now k None old); [done| |by intros []| |done].
      * repeat split. simpl. by rewrite lm_Remove_content, Hsame.
      * simpl. by rewrite Ht, drop_ge by lia.
    + destruct (Nat.ltb_spec 0 i) as [Hpos|Hz].
      * eexists. split; [done|]. split; [|done].
        eapply (recent_update f _ h now k (Some (drop i ts)) old); [done| |by rewrite Hk|done|done].
        repeat split. simpl. rewrite lm_Add_content by (rewrite Hsame, Hk; by left). by rewrite Hsame.
      * eexists. split; [done|]. split; [|done]. destruct Hr as [Hr Hd].
        split; simpl; rewrite Hsame; done.
  - exists (set_hits hits f). split; [|split; [|done]].
    + f_equal. destruct (proj1 Hr k) as (old & He & Ho). rewrite Hk in He. simpl in He. rewrite app_nil_r in He.
      rewrite failures_times, He, count_none; [done|]. eapply Forall_impl; [exact Ho|]. simpl. lia.
    + destruct Hr as [Hr Hd]. split; simpl; rewrite Hsame; done.
Qed.

Lemma failed_keys_cons (k : gostring) (t : Time) (h : list (gostring * Time)) :
  failed_keys ((k, t) :: h) = {[k]} ∪ failed_keys h.
Proof. done. Qed.

Lemma recordFailure_spec (f : FailureLimiter C) (h : list (gostring * Time)) (now : Time) (k : gostring) :
  recent f h now → (size (failed_keys ((k, now) :: h)) ≤ maxFailureKeys)%nat →
  recent (recordFailure now k f) ((k, now) :: h) now ∧
  with_content (lm_content (f_hits (recordFailure now k f))) f (recordFailure now k f).
Proof.
  intros [Hr Hd] Hsize. unfold recordFailure.
  destruct (lm_Get k (f_hits f)) as [ts hits] eqn:Hg.
  pose proof (lm_Get_content k (f_hits f)) as Hk. rewrite Hg in Hk. simpl in Hk. subst ts.
  pose proof (lm_Get_same k (f_hits f)) as Hsame. rewrite Hg in Hsame. simpl in Hsame.
  split; [|done].
  assert (is_Some (lm_content hits !! k) ∨ size (lm_content hits) < maxFailureKeys)%nat as Hroom.
  { rewrite Hsame. destruct (lm_content (f_hits f) !! k) as [ts|] eqn:Hk; [left; by eexists|right].
    assert (size ({[k]} ∪ dom (lm_content (f_hits f))) ≤ maxFailureKeys)%nat as Hle.
    { etrans; [|exact Hsize]. apply subseteq_size. rewrite failed_keys_cons. set_solver. }
    rewrite size_union in Hle by (apply disjoint_singleton_l, not_elem_of_dom; done).
    rewrite size_singleton, size_dom in Hle. lia. }
  split; simpl; rewrite (lm_Add_content _ _ _ Hroom), Hsame.
  - intros k'. rewrite times_cons. destruct (Hr k') as (old & He & Ho). destruct (decide (k = k')) as [<-|Hne].
    + exists old. rewrite lookup_insert_eq. simpl. by rewrite He, app_assoc.
    + exists old. by rewrite lookup_insert_ne, app_nil_r.
  - rewrite dom_insert, failed_keys_cons. set_solver.
Qed.

Lemma failures_later (k : gostring) (w now t : Z) (h : list (gostring * Time)) :
  past now h → now ≤ t → (failures k w t h ≤ failures k w now h)%nat.
Proof.
  intros Hp Hle. rewrite !failures_times. apply count_impl. intros x Hx.
  destruct (Hp k) as [_ Ha]. rewrite Forall_forall in Ha. specialize (Ha x Hx). lia.
Qed.

Lemma failures_other (k k' : gostring) (w t now : Z) (h : list (gostring * Time)) :
  k' ≠ k → failures k w t ((k', now) :: h) = failures k w t h.
Proof.
  intros Hne. unfold failures. rewrite count_cons. unfold bit, in_window. by rewrite decide_False by naive_solver.
Qed.

(** ** The invariant *)

Record throttle_ok (w : Duration) (per : Z) (f : FailureLimiter C) (h : list (gostring * Time)) (now : Time) : Prop := {
  to_slots : slots_ok (f_busy f);
  to_cap : tl_cap (f_busy f) = 1;
  to_window : f_Window f = w;
  to_per : f_PerUserIP f = per;
  to_recent : recent f h now;
  to_past : past now h;
  to_checking : ∀ i, f_attempts f !! i = Some Checking →
    ∃ k, key_of i f = Some k ∧ Z.of_nat (failures k w now h) < per;
  to_caps : ∀ k t, Z.of_nat (failures k w t h) ≤ per }.

Lemma key_of_Some (i : nat) (k : gostring) (f : FailureLimiter C) :
  key_of i f = Some k ↔ ∃ s, tl_threads (f_busy f) !! i = Some (Holding k s).
Proof. unfold key_of. destruct (tl_threads (f_busy f) !! i) as [[]|]; naive_solver. Qed.

Lemma throttle_init (w : Duration) (per : Z) (now : Time) :
  0 < per → throttle_ok w per (newFailureLimiter w per) [] now.
Proof.
  intros Hper. constructor; [by eapply (slots_init 1)|done..| | | |]; simpl.
  - split; simpl; rewrite lm_empty_content; [|set_solver]. intros k. exists []. by rewrite lookup_empty.
  - intros k. split; constructor.
  - done.
  - intros k t. unfold failures, count. simpl. lia.
Qed.

Lemma throttle_wait (w : Duration) (per : Z) (f : FailureLimiter C) (h : list (gostring * Time)) (now now' : Time) :
  throttle_ok w per f h now → now ≤ now' → throttle_ok w per f h now'.
Proof.
  intros [Hs Hc Hw Hp Hr Hpast Hch Hcaps] Hle. constructor; try done.
  - by eapply recent_wait.
  - intros k. destruct (Hpast k) as [Hsort Ha]. split; [done|]. eapply Forall_impl; [exact Ha|]. simpl. lia.
  - intros i Hi. destruct (Hch i Hi) as (k & Hk & Hf). exists k. split; [done|].
    pose proof (failures_later k w now now' h Hpast Hle). lia.
Qed.

(** A step of the turns that is no receive of a goroutine that is checking. *)
Lemma throttle_turn (w : Duration) (per : Z) (f : FailureLimiter C) (h : list (gostring * Time)) (now : Time)
    (a : action) (b : limiter) :
  throttle_ok w per f h now → step a (f_busy f) = Some b →
  (∀ i, f_attempts f !! i = Some Checking → a ≠ Receive i) →
  throttle_ok w per (set_busy b f) h now.
Proof.
  intros [Hs Hc Hw Hp Hr Hpast Hch Hcaps] Hb Ha. constructor; simpl; try done.
  - by eapply slots_step.
  - by rewrite (step_cap _ _ _ Hb).
  - intros i Hi. destruct (Hch i Hi) as (k & Hk & Hf). exists k. split; [|done].
    apply key_of_Some in Hk as [s Hk]. apply key_of_Some. exists s. simpl. eapply holding_kept; eauto.
Qed.

Lemma throttle_count (w : Duration) (per : Z) (f f' : FailureLimiter C) (h : list (gostring * Time)) (now : Time)
    (i n : nat) (k : gostring) :
  throttle_ok w per f h now → key_of i f = Some k → countLocked now k f = (n, f') →
  n = failures k w now h ∧
  throttle_ok w per (set_attempt i (if f_PerUserIP f' <=? Z.of_nat n then Throttled else Checking) f') h now.
Proof.
  intros [Hs Hc Hw Hp Hr Hpast Hch Hcaps] Hk Hn.
  destruct (countLocked_spec f h now k Hr Hpast) as (f1 & Hn' & Hr' & Hw' & Hp' & Hb' & Ha' & _).
  rewrite Hn in Hn'. simplify_eq. split; [done|].
  assert (∀ j, key_of j f1 = key_of j f) as Hkey by (intros j; unfold key_of; by rewrite Hb').
  constructor; simpl; rewrite ?Hb', ?Hw', ?Hp', ?Ha'; try done.
  intros j. change (key_of j (set_attempt _ _ _)) with (key_of j f1). rewrite Hkey.
  rewrite lookup_insert_Some. intros [[<- Hd]|[Hne Hj]].
  - exists k. split; [done|]. destruct (Z.leb_spec (f_PerUserIP f) (Z.of_nat (failures k (f_Window f) now h))); [done|lia].
  - auto.
Qed.

Lemma throttle_done (w : Duration) (per : Z) (f : FailureLimiter C) (h : list (gostring * Time)) (now : Time)
    (i : nat) (k : gostring) (failed : bool) :
  throttle_ok w per f h now → key_of i f = Some k → f_attempts f !! i = Some Checking →
  let h' := if failed then (k, now) :: h else h in
  (size (failed_keys h') ≤ maxFailureKeys)%nat →
  throttle_ok w per (set_attempt i Settled (if failed then recordFailure now k f else f)) h' now.
Proof.
  intros [Hs Hc Hw Hp Hr Hpast Hch Hcaps] Hk Hi h' Hsize.
  assert (∀ j, <[i := Settled]> (f_attempts f) !! j = Some Checking → i ≠ j ∧ f_attempts f !! j = Some Checking) as Hatt
    by (intros j; rewrite lookup_insert_Some; naive_solver).
  destruct failed; subst h'.
  2:{ constructor; simpl; try done. intros j [_ Hj]%Hatt. by apply Hch. }
  destruct (recordFailure_spec f h now k Hr Hsize) as (Hr' & Hw' & Hp' & Hb' & Ha' & _).
  constructor; simpl; rewrite ?Hb', ?Hw', ?Hp', ?Ha'; try done.
  - by apply past_cons.
  - intros j [Hij Hj]%Hatt. destruct (Hch j Hj) as (k' & Hk' & Hf). exists k'.
    split; [unfold key_of in *; simpl; by rewrite Hb'|].
    rewrite failures_other; [done|]. intros ->. apply Hij.
    apply key_of_Some in Hk as [s Hk], Hk' as [s' Hk']. by eapply holder_unique.
  - intros k' t. destruct (decide (k = k')) as [<-|Hne]; [|by rewrite failures_other].
    destruct (Hch i Hi) as (k' & Hk' & Hf). simplify_eq. unfold failures in *. rewrite count_cons.
    unfold bit. case_decide as Hin; [|apply Hcaps].
    destruct Hin as [_ Hin]. simpl in Hin.
    pose proof (failures_later k (f_Window f) now t h Hpast ltac:(lia)) as Hl. unfold failures in Hl. lia.
Qed.

Lemma failure_of_done (i : nat) (failed : bool) (k : gostring) (now : Time) (f : FailureLimiter C)
    (h : list (gostring * Time)) :
  key_of i f = Some k →
  failure_of (FDone i failed) now f ++ h = if failed then (k, now) :: h else h.
Proof. intros Hk. simpl. destruct failed; [by rewrite Hk|done]. Qed.

Lemma throttle_step (w : Duration) (per : Z) (a : faction) (f f' : FailureLimiter C) (h : list (gostring * Time)) (now : Time) :
  throttle_ok w per f h now → fstep a now f = Some f' →
  (size (failed_keys (failure_of a now f ++ h)) ≤ maxFailureKeys)%nat →
  throttle_ok w per f' (failure_of a now f ++ h) now.
Proof.
  intros Hok Hs Hsize. destruct a as [u ip|i|i|i|i failed|i|i]; cbn [fstep] in Hs.
  - case_match; [by simplify_eq|]. apply bind_Some in Hs as (b & Hb & [= <-]). by eapply throttle_turn.
  - apply bind_Some in Hs as (b & Hb & [= <-]). by eapply throttle_turn.
  - apply bind_Some in Hs as (b & Hb & [= <-]). by eapply throttle_turn.
  - apply bind_Some in Hs as (k & Hk & Hs). case_match; [done|].
    destruct (countLocked now k f) as [n f1] eqn:Hn. simplify_eq. by eapply throttle_count.
  - apply bind_Some in Hs as (k & Hk & Hs). case_match eqn:Ha; [done|]. simplify_eq.
    apply negb_false_iff, bool_decide_eq_true in Ha.
    rewrite (failure_of_done _ _ k) in * by done. by apply throttle_done.
  - case_match eqn:Ha; [|done]. apply bind_Some in Hs as (b & Hb & [= <-]). eapply throttle_turn; [done..|].
    intros j Hj [= <-]. rewrite Hj in Ha. done.
  - apply bind_Some in Hs as (b & Hb & [= <-]). by eapply throttle_turn.
Qed.

Lemma throttle_reached (w : Duration) (per : Z) (f : FailureLimiter C) (h : list (gostring * Time)) (now : Time) :
  0 < per → reached w per f h now → (size (failed_keys h) ≤ maxFailureKeys)%nat → throttle_ok w per f h now.
Proof.
  intros Hper. induction 1 as [now|f h now now' _ IH Hle|a f f' h now _ IH Hs]; intros Hsize.
  - by apply throttle_init.
  - eapply throttle_wait; [auto|done].
  - eapply throttle_step; [|done..]. apply IH. etrans; [|exact Hsize].
    apply subseteq_size. unfold failed_keys. rewrite fmap_app, list_to_set_app. set_solver.
Qed.

(** ** Properties *)


(** Attempts of one key run one at a time, and the refusal is exact: an
    attempt is throttled if and only if its key has [PerUserIP] or more
    failures in the last [Window], so a caller below the limit is never turned
    away and one at the limit always is. *)
Theorem throttle_exact (w : Duration) (per : Z) (f : FailureLimiter C) (h : list (gostring * Time)) (now : Time) :
  0 < per → reached w per f h now → (size (failed_keys h) ≤ maxFailureKeys)%nat →
  (∀ i j k, key_of i f = Some k → key_of j f = Some k → i = j) ∧
  (∀ i k, key_of i f = Some k → f_attempts f !! i = None →
     ∃ f', fstep (FCount i) now f = Some f' ∧
       f_attempts f' !! i = Some (if decide (per ≤ Z.of_nat (failures k w now h)) then Throttled else Checking)).
Proof.
  intros Hper Hr Hsize. pose proof (throttle_reached _ _ _ _ _ Hper Hr Hsize) as Hok. split.
  - intros i j k [s Hi]%key_of_Some [s' Hj]%key_of_Some.
    eapply holder_unique; [apply (to_slots _ _ _ _ _ Hok)|apply (to_cap _ _ _ _ _ Hok)|done|done].
  - intros i k Hk Hi. destruct (countLocked now k f) as [n f1] eqn:Hn.
    destruct (throttle_count _ _ _ _ _ _ _ _ _ Hok Hk Hn) as [-> Hok'].
    pose proof (to_per _ _ _ _ _ Hok') as Hp. simpl in Hp.
    cbn [fstep]. rewrite Hk. simpl. rewrite Hi, Hn. simpl. eexists. split; [done|].
    simpl. rewrite lookup_insert_eq, Hp. f_equal. destruct (Z.leb_spec per (Z.of_nat (failures k w now h))); case_decide; (done || lia).
Qed.

End throttle_proofs.

(** Different usernames or addresses never share a key. *)
Lemma userIPKey_inj (u u' ip ip' : gostring) :
  NUL ∉ ip → NUL ∉ ip' → userIPKey u ip = userIPKey u' ip' → u = u' ∧ ip = ip'.
Proof.
  unfold userIPKey. revert ip'. induction ip as [|c ip IH]; intros [|c' ip'] H1 H2 E; simplify_list_eq; try done.
  - by apply not_elem_of_cons in H2 as [? _].
  - by apply not_elem_of_cons in H1 as [? _].
  - apply not_elem_of_cons in H1 as [_ H1], H2 as [_ H2]. destruct (IH ip'); naive_solver.
Qed.

(** ** A cache with room for every key *)

Definition map_cache {V} : LRUMap V (gmap gostring V) := {|
  lm_Get k c := (c !! k, c);
  lm_Add k v c := <[k := v]> c;
  lm_Remove k c := delete k c;
  lm_empty := ∅ |}.

#[export] Instance map_cache_laws {V} (cap : nat) : @LRUMapLaws V _ cap map_cache.
Proof. by refine {| lm_content := λ c : gmap gostring V, c |}. Defined.

Fixpoint frun {C} `{LRUMap (list Time) C} (l : list (Time * faction)) (f : FailureLimiter C) (h : list (gostring * Time))
    : option (FailureLimiter C * list (gostring * Time)) :=
  match l with
  | [] => Some (f, h)
  | (now, a) :: l => f' ← fstep a now f; frun l f' (failure_of a now f ++ h)
  end.

(** The times of a sequence of steps do not decrease. *)
Fixpoint ordered (now : Time) (l : list (Time * faction)) : bool :=
  match l with
  | [] => true
  | (t, _) :: l => (now <=? t) && ordered t l
  end.

Fixpoint end_time (now : Time) (l : list (Time * faction)) : Time :=
  match l with
  | [] => now
  | (t, _) :: l => end_time t l
  end.

Lemma frun_reached {C} `{LRUMap (list Time) C} (w : Duration) (per : Z) (l : list (Time * faction)) (f f' : FailureLimiter C)
    (h h' : list (gostring * Time)) (now : Time) :
  reached w per f h now → ordered now l = true → frun l f h = Some (f', h') →
  reached w per f' h' (end_time now l).
Proof.
  revert f h now. induction l as [|[t a] l IH]; intros f h now Hr Ho; simpl; [by intros [= <- <-]|].
  intros (f1 & Hs & Hl)%bind_Some. simpl in Ho. apply andb_true_iff in Ho as [Ht%Z.leb_le Ho].
  assert (reached w per f1 (failure_of a t f ++ h) t) as Hr1 by (eapply reached_step; [by eapply reached_wait|done]).
  by eapply IH.
Qed.

(** One failure per ten seconds is allowed; the second login waits for its
    turn, counts after the first one's failure and is refused. *)
Definition two_logins : list (Time * faction) :=
  [(100, FBegin (lit "app.team") (lit "10.0.0.1")); (101, FBegin (lit "app.team") (lit "10.0.0.1"));
   (102, FTurn 0); (102, FCount 0); (103, FDone 0 true); (104, FRelease 0); (105, FTurn 1)].

Definition two_logins_state : FailureLimiter (gmap gostring (list Time)) * list (gostring * Time) :=
  default (newFailureLimiter 10 1 (H:=map_cache), []) (frun (H:=map_cache) two_logins (newFailureLimiter 10 1 (H:=map_cache)) []).

Lemma two_logins_reached :
  reached (H:=map_cache) 10 1 (fst two_logins_state) (snd two_logins_state) 105.
Proof.
  assert (bool_decide (is_Some (frun (H:=map_cache) two_logins (newFailureLimiter 10 1 (H:=map_cache)) [])) = true)
    as [[f h] Hf]%bool_decide_eq_true by (vm_compute; reflexivity).
  unfold two_logins_state. rewrite Hf. simpl.
  by apply (frun_reached (H:=map_cache) 10 1 two_logins _ _ [] _ 100) in Hf; [|apply reached_init|reflexivity].
Qed.


Lemma throttle_exact_witness :
  ∃ f', fstep (H:=map_cache) (FCount 1) 105 (fst two_logins_state) = Some f' ∧ f_attempts f' !! 1%nat = Some Throttled.
Proof.
  destruct (throttle_exact (H:=map_cache) (H0:=map_cache_laws _) 10 1 (fst two_logins_state) (snd two_logins_state) 105) as [_ He];
    [lia|apply two_logins_reached|apply Nat.leb_le; vm_compute; reflexivity|].
  destruct (He 1%nat (userIPKey (lit "app.team") (lit "10.0.0.1"))) as (f' & Hf & Ha);
    [vm_compute; reflexivity|vm_compute; reflexivity|].
  exists f'. split; [exact Hf|]. rewrite Ha, decide_True; [reflexivity|]. vm_compute. discriminate.
Defined.
