(* ===== verification/MailParse.v ===== *)
(** * What the SMTP front end reads of a message (internal/smtpproxy/session.go, size.go)

    The address fields that are checked against the policy, the trace and
    origination fields that are added, and the size that counts.  Splitting a
    message into header and body and parsing address lists is [net/mail]'s work
    and a parameter ([MailReader]); so are [mime/multipart] and the transfer
    decodings ([MIMEReader]). *)

From Stdlib Require Import Permutation.
From S2P Require Import Prelude GoStrings Address.

(** ** net/textproto headers *)

(** Canonical field name to its values in order. *)
Definition MIMEHeader := gmap gostring (list gostring).

(** [textproto.CanonicalMIMEHeaderKey] for field names made of token bytes. *)
Definition upper_byte (c : ascii) : ascii := if is_lower c then zb (bz c - 32) else c.
Fixpoint canonical (upper : bool) (s : gostring) : gostring :=
  match s with
  | [] => []
  | c :: s => (if upper then upper_byte c else lower_byte c) :: canonical (Ascii.eqb c "-") s
  end.
Definition CanonicalKey (s : gostring) : gostring := canonical true s.

(** [Header.Get]: the first value, or the empty string. *)
Definition Get (h : MIMEHeader) (key : gostring) : gostring :=
  match h !! CanonicalKey key with
  | Some (v :: _) => v
  | _ => []
  end.

(** [msg.Header[k]] *)
Definition values (h : MIMEHeader) (k : gostring) : list gostring := default [] (h !! k).

(** [mail.ReadMessage] and [mail.ParseAddressList]; an address is its display
    name and addr-spec. *)
Class MailReader := {
  ReadMessage : gostring → res gostring (MIMEHeader * gostring);
  ParseAddressList : gostring → res gostring (list (gostring * gostring)) }.

Inductive FieldProblem :=
| HeaderNotPresent | ListUnparsable (err : gostring) | BadHeaderText (e : HeaderError) | BadAddress (e : MailboxError).

Inductive ParseError :=
| MalformedHeader (err : gostring)
| ResentNotAllowed (k : gostring)
| MultipleFields (k : gostring)
| NoFrom
| InvalidField (k : gostring) (e : FieldProblem)
| MultipleFromAddresses
| SenderNotSingle.

Record addressHeaders := { ah_from : gostring; ah_sender : gostring; ah_replyTo : list gostring }.

Section parse.
Context `{AddressParser, UnicodeTables, MailReader}.

(** [Header.AddressList] *)
Definition AddressList (h : MIMEHeader) (k : gostring) : res FieldProblem (list (gostring * gostring)) :=
  let hdr := Get h k in
  if hdr == [] then Err HeaderNotPresent
  else match ParseAddressList hdr with
       | Err e => Err (ListUnparsable e)
       | Ok l => Ok l
       end.

Definition addressField (h : MIMEHeader) (k : gostring) : res FieldProblem (list gostring) :=
  let! list := AddressList h k in
  match ValidateAddressHeader (Get h k) (Z.of_nat (length list)) with
  | Err e => Err (BadHeaderText e)
  | Ok _ => res_mapM (λ a, match ValidateMailbox (snd a) with
                            | Err e => Err (BadAddress e)
                            | Ok _ => Ok (snd a)
                            end) list
  end.

(** A field that Resent- forbids, in some order of the map. *)
Definition resentField (h : MIMEHeader) : option gostring :=
  List.find (λ k, HasPrefix k (lit "Resent-")) (map_to_list h).*1.

Definition duplicateField (h : MIMEHeader) : option gostring :=
  List.find (λ k, (1 <? length (values h k))%nat) [lit "From"; lit "Sender"; lit "Reply-To"].

Definition senderField (h : MIMEHeader) : res ParseError gostring :=
  if (0 <? length (values h (lit "Sender")))%nat then
    match addressField h (lit "Sender") with
    | Err e => Err (InvalidField (lit "Sender") e)
    | Ok [a] => Ok a
    | Ok _ => Err SenderNotSingle
    end
  else Ok [].

Definition replyToField (h : MIMEHeader) : res ParseError (list gostring) :=
  if (0 <? length (values h (lit "Reply-To")))%nat then
    match addressField h (lit "Reply-To") with
    | Err e => Err (InvalidField (lit "Reply-To") e)
    | Ok l => Ok l
    end
  else Ok [].

Definition parseMessage (raw : gostring) : res ParseError (MIMEHeader * gostring * addressHeaders) :=
  match ReadMessage raw with
  | Err e => Err (MalformedHeader e)
  | Ok (h, body) =>
      match resentField h with
      | Some k => Err (ResentNotAllowed k)
      | None =>
          match duplicateField h with
          | Some k => Err (MultipleFields k)
          | None =>
              if (length (values h (lit "From")) =? 0)%nat then Err NoFrom
              else match addressField h (lit "From") with
                   | Err e => Err (InvalidField (lit "From") e)
                   | Ok [] => Err NoFrom
                   | Ok [from] =>
                       let! sender := senderField h in
                       let! replyTo := replyToField h in
                       Ok (h, body, {| ah_from := from; ah_sender := sender; ah_replyTo := replyTo |})
                   | Ok _ => Err MultipleFromAddresses
                   end
          end
      end
  end.

End parse.

(** ** Fields that are added *)

(** [date] is the current time in RFC 1123 form. *)
Definition missingOriginationHeaders (date : gostring) (h : MIMEHeader) (msgID from : gostring) : gostring :=
  (if Get h (lit "Date") == [] then lit "Date: " ++ date ++ crlf else [])
  ++ (if Get h (lit "Message-ID") == [] then
        let domain :=
          match LastIndexByte from "@" with
          | Some at_ => if (at_ <? length from - 1)%nat then drop (at_ + 1) from else lit "sigillum.local"
          | None => lit "sigillum.local"
          end in
        lit "Message-ID: <" ++ msgID ++ lit "@" ++ domain ++ lit ">" ++ crlf
      else []).

(** ** The size that counts *)

Definition maxMIMEDepth : nat := 16.

(** [mime.ParseMediaType] (media type and boundary parameter),
    [multipart.Reader.NextRawPart] over a whole body, and the number of bytes
    read from and decoded by a transfer decoding. *)
Class MIMEReader := {
  ParseMediaType : gostring → option (gostring * gostring);
  RawParts : gostring → gostring → option (list (MIMEHeader * gostring));
  DecodedLen : gostring → gostring → option (Z * Z) }.

Section size.
Context `{MIMEReader, UnicodeTables}.

Fixpoint sum_options (l : list (option Z)) : option Z :=
  match l with
  | [] => Some 0
  | o :: l => n ← o; m ← sum_options l; Some (n + m)
  end.

(** [fuel] is [maxMIMEDepth + 1 - depth]. *)
Fixpoint encodingSavings (fuel : nat) (h : MIMEHeader) (body : gostring) : option Z :=
  match fuel with
  | O => None
  | S fuel =>
      let leaf :=
        '(read, decoded) ← DecodedLen (ToLower (TrimSpace (Get h (lit "Content-Transfer-Encoding")))) body;
        Some (read - decoded) in
      match ParseMediaType (Get h (lit "Content-Type")) with
      | Some (mediaType, boundary) =>
          if HasPrefix mediaType (lit "multipart/") then
            if boundary == [] then None
            else parts ← RawParts boundary body;
                 sum_options ((λ p, encodingSavings fuel (fst p) (snd p)) <$> parts)
          else leaf
      | None => leaf
      end
  end.

Definition contentSize (h : MIMEHeader) (body : gostring) (rawLen : Z) : Z :=
  match encodingSavings (S maxMIMEDepth) h body with
  | None => rawLen
  | Some savings => if (savings <? 0) || (rawLen <? savings) then rawLen else rawLen - savings
  end.

End size.

(** ** Properties *)

Section parse_facts.
Context `{AddressParser, UnicodeTables, MailReader}.

(** The addresses of a checked field: those of its one value, each a mailbox
    the policy understands, and no more '@' in the text than addresses. *)
Definition field_addresses (h : MIMEHeader) (k : gostring) (l : list gostring) : Prop :=
  ∃ v parsed, values h k = [v] ∧ ParseAddressList v = Ok parsed ∧ l = snd <$> parsed ∧
    ValidateAddressHeader v (Z.of_nat (length l)) = Ok () ∧ Forall (λ a, ValidateMailbox a = Ok ()) l.

Lemma canonical_keys :
  CanonicalKey (lit "From") = lit "From" ∧ CanonicalKey (lit "Sender") = lit "Sender" ∧
  CanonicalKey (lit "Reply-To") = lit "Reply-To".
Proof. vm_compute. done. Qed.

Lemma res_mapM_addresses (parsed : list (gostring * gostring)) (l : list gostring) :
  res_mapM (λ a, match ValidateMailbox (snd a) with
                 | Err e => Err (BadAddress e)
                 | Ok _ => Ok (snd a)
                 end) parsed = Ok l →
  l = snd <$> parsed ∧ Forall (λ a, ValidateMailbox a = Ok ()) l.
Proof.
  intros Hm%res_mapM_Ok. induction Hm as [|[n a] b parsed l Ha _ [-> IH]]; [done|].
  simpl in *. destruct (ValidateMailbox a) as [[]|] eqn:Hv; simplify_eq. split; [done|]. by constructor.
Qed.

Lemma addressField_Ok (h : MIMEHeader) (k : gostring) (l : list gostring) :
  CanonicalKey k = k → length (values h k) = 1%nat → addressField h k = Ok l → field_addresses h k l.
Proof.
  intros Hk Hone. unfold addressField, AddressList, Get. rewrite Hk. unfold values in Hone.
  destruct (h !! k) as [[|v [|]]|] eqn:Hv; try done. rewrite res_bind_Ok. intros (parsed & Hl & Hrest).
  destruct (v == []); [done|]. destruct (ParseAddressList v) as [p|] eqn:Hp; simplify_eq.
  destruct (ValidateAddressHeader v _) as [[]|] eqn:Hva; [|done].
  apply res_mapM_addresses in Hrest as [-> Hall]. exists v, parsed.
  unfold values. rewrite Hv, length_fmap. by split_and!.
Qed.

Lemma find_false {A} (f : A → bool) (l : list A) : List.find f l = None → Forall (λ x, f x = false) l.
Proof. intros Hf. apply Forall_forall. intros x Hx%list_elem_of_In. by eapply List.find_none in Hf. Qed.

(** The From address is a mailbox. *)
Lemma parseMessage_from (raw body : gostring) (h : MIMEHeader) (hdr : addressHeaders) :
  parseMessage raw = Ok (h, body, hdr) → ValidateMailbox (ah_from hdr) = Ok ().
Proof.
  unfold parseMessage. destruct (ReadMessage raw) as [[h' body']|]; [|done].
  destruct (resentField h'); [done|]. destruct (duplicateField h'); [done|]. case_match; [done|].
  destruct (addressField h' (lit "From")) as [[|from [|]]|] eqn:Hf; try done.
  rewrite res_bind_Ok. intros (sender & _ & Hrest). apply res_bind_Ok in Hrest as (replyTo & _ & [= <- <- <-]).
  apply res_bind_Ok in Hf as (l & _ & Hf). destruct (ValidateAddressHeader _ _); [|done].
  apply res_mapM_addresses in Hf as [_ Hf]. by apply Forall_cons in Hf as [? _].
Qed.

(** What the front end checks is what the message says: when a message is
    accepted, its header has no Resent- field, each of From, Sender and Reply-To
    occurs at most once (so the checked field is the relayed one), From holds
    exactly one address and Sender, if present, exactly one, and the addresses
    handed to the policy are all the addresses of these fields, each a plain
    mailbox. *)
Theorem parseMessage_sound (raw body : gostring) (h : MIMEHeader) (hdr : addressHeaders) :
  parseMessage raw = Ok (h, body, hdr) →
  ReadMessage raw = Ok (h, body) ∧
  (∀ k vs, h !! k = Some vs → HasPrefix k (lit "Resent-") = false) ∧
  field_addresses h (lit "From") [ah_from hdr] ∧
  (values h (lit "Sender") = [] ∧ ah_sender hdr = [] ∨ field_addresses h (lit "Sender") [ah_sender hdr]) ∧
  (values h (lit "Reply-To") = [] ∧ ah_replyTo hdr = [] ∨ field_addresses h (lit "Reply-To") (ah_replyTo hdr)).
Proof.
  unfold parseMessage. destruct (ReadMessage raw) as [[h' body']|] eqn:Hr; [|done].
  destruct (resentField h') eqn:Hres; [done|]. destruct (duplicateField h') eqn:Hd; [done|].
  apply find_false in Hres, Hd. rewrite !Forall_cons in Hd. destruct Hd as (Hd1 & Hd2 & Hd3 & _).
  cbv beta in *. apply Nat.ltb_ge in Hd1, Hd2, Hd3. destruct canonical_keys as (Hk1 & Hk2 & Hk3).
  destruct (Nat.eqb_spec (length (values h' (lit "From"))) 0); [done|].
  destruct (addressField h' (lit "From")) as [[|from [|]]|] eqn:Hfrom; try done.
  rewrite res_bind_Ok. intros (sender & Hs & Hrest). apply res_bind_Ok in Hrest as (replyTo & Hrt & [= <- <- <-]).
  split; [done|]. split.
  { intros k vs Hk. rewrite Forall_forall in Hres. apply Hres. apply list_elem_of_fmap.
    exists (k, vs). split; [done|]. by apply elem_of_map_to_list. }
  split; [apply addressField_Ok; [done|lia|done]|]. cbn [ah_sender ah_replyTo]. split.
  - unfold senderField in Hs. destruct (Nat.ltb_spec 0 (length (values h' (lit "Sender")))) as [Hp|Hz].
    + right. destruct (addressField h' (lit "Sender")) as [[|a [|]]|] eqn:Ha; simplify_eq.
      apply addressField_Ok; [done|lia|done].
    + left. simplify_eq. split; [|done]. apply nil_length_inv. lia.
  - unfold replyToField in Hrt. destruct (Nat.ltb_spec 0 (length (values h' (lit "Reply-To")))) as [Hp|Hz].
    + right. destruct (addressField h' (lit "Reply-To")) as [l|] eqn:Ha; simplify_eq.
      apply addressField_Ok; [done|lia|done].
    + left. simplify_eq. split; [|done]. apply nil_length_inv. lia.
Qed.

End parse_facts.

(** A measured size never exceeds the raw one and is never negative, whatever
    the MIME structure claims. *)
Lemma contentSize_bounds `{MIMEReader, UnicodeTables} (h : MIMEHeader) (body : gostring) (rawLen : Z) :
  0 ≤ rawLen → 0 ≤ contentSize h body rawLen ≤ rawLen.
Proof.
  intros Hr. unfold contentSize. destruct (encodingSavings _ h body) as [n|]; [|lia].
  destruct (Z.ltb_spec n 0); simpl; [lia|]. destruct (Z.ltb_spec rawLen n); lia.
Qed.

(** ** A concrete reader *)

Definition from_only : MailReader := {|
  ReadMessage raw := Ok ({[ lit "From" := [lit "app@corp.example"] ]}, raw);
  ParseAddressList v := Ok [([], v)] |}.

Definition identity_decoder : AddressParser := {|
  ParseAddress s := Some ([], s);
  DecodeHeader _ s := Some s |}.

Lemma parseMessage_sound_witness :
  let _ := identity_decoder in let _ := ascii_tables in let _ := from_only in
  field_addresses {[ lit "From" := [lit "app@corp.example"] ]} (lit "From") [lit "app@corp.example"].
Proof.
  intros H1 H2 H3.
  destruct (@parseMessage_sound identity_decoder ascii_tables from_only [] []
    {[ lit "From" := [lit "app@corp.example"] ]}
    {| ah_from := lit "app@corp.example"; ah_sender := []; ah_replyTo := [] |}) as (_ & _ & Hf & _).
  - match goal with |- ?a = ?b => exact (eq_refl b <: a = b) end.
  - exact Hf.
Defined.
