(* ===== verification/Session.v ===== *)
(** * The SMTP session (internal/smtpproxy: session.go, credential.go, conn.go, podip.go)

    One submission session as a state machine: AUTH, MAIL, RCPT, DATA and RSET
    act on the session ([session]) and on what it shares with others
    ([world]: the gateway and the verifier's cache).  What a command reads
    besides (the clock, the informer caches, the token review, whether a slot or
    a turn was granted, the bytes of DATA) is its environment; slots and turns
    themselves are modelled in Slots.v and LoginThrottle.v.  Logs, metrics and
    traces are left out. *)

From S2P Require Import Prelude GoStrings Types Address Engine RateLimit Credential Verifier Driver Webhook Resolver Gateway Bcc MailParse.

(** ** Replies *)

(** The text of a reply; the wording of a parse error is [net/mail]'s. *)
Inductive ReplyText := Text (s : gostring) | ParseFailure (e : ParseError).

Record SMTPError := { se_Code : Z; se_Enhanced : Z * Z * Z; se_Message : ReplyText }.

(** An error a handler returns: a reply, or an error of go-smtp or of the
    connection that the server turns into one (AUTH that go-smtp itself
    refuses, an oversized message, a failed read). *)
Inductive HandlerError :=
| Reply (e : SMTPError) | ErrAlreadyAuthenticated | ErrAuthUnknownMechanism | ErrDataTooLarge | ErrRead (msg : gostring).

Definition reply (code : Z) (enh : Z * Z * Z) (msg : gostring) : SMTPError :=
  {| se_Code := code; se_Enhanced := enh; se_Message := Text msg |}.

Definition errInvalidCredentials := reply 535 (5, 7, 8) "Authentication credentials invalid".
Definition errEncryptionRequired :=
  reply 538 (5, 7, 11) "Encryption required for requested authentication mechanism (use STARTTLS)".
Definition errAuthThrottled := reply 454 (4, 7, 0) "Too many failed authentication attempts, try again later".
Definition errAuthUnavailable := reply 454 (4, 7, 0) "Temporary authentication failure".
Definition errCredentialRevoked := reply 454 (4, 7, 0) "Credential no longer valid; reconnect and authenticate again".
Definition errAuthRequired := reply 530 (5, 7, 0) "Authentication required".

Definition TransportSMTP : gostring := "smtp".

Definition id_suffix (msgID : gostring) : gostring := lit " (id " ++ msgID ++ lit ")".

Definition withMessageID (e : SMTPError) (msgID : gostring) : SMTPError :=
  {| se_Code := se_Code e; se_Enhanced := se_Enhanced e;
     se_Message := match se_Message e with
                   | Text s => Text (s ++ id_suffix msgID)
                   | ParseFailure p => ParseFailure p
                   end |}.

(** [int(d.Seconds())] and [int(math.Ceil(d.Seconds()))]; exact for the waits
    that occur here, which are below 2^22 seconds. *)
Definition whole_seconds (d : Duration) : Z := Z.quot d Second.
Definition ceil_seconds (d : Duration) : Z := - ((- d) `div` Second).

Definition resultError (o : SendOutcome) (msgID : gostring) : option SMTPError :=
  let e code enh msg := Some (reply code enh (msg ++ id_suffix msgID)) in
  match so_Status o with
  | StatusAccepted => None
  | StatusDenied =>
      match so_DenyReason o with
      | Some DenyMessageTooLarge => e 552 (5, 3, 4) (lit "Message exceeds policy size limit")
      | Some DenyTooManyRecipient => e 550 (5, 5, 3) (lit "Too many recipients for policy")
      | Some DenyNoPolicy => e 550 (5, 7, 1) (lit "No matching policy")
      | r => e 550 (5, 7, 1) (lit "Rejected by policy " ++ so_Policy o ++ lit ": "
                              ++ match r with Some r => DenyReason_string r | None => [] end)
      end
  | StatusRateLimited =>
      e 421 (4, 7, 0) (lit "Rate limit exceeded, retry in " ++ Itoa (whole_seconds (so_RetryAfter o)) ++ lit "s")
  | StatusUpstreamError =>
      if so_Permanent o then e 554 (5, 0, 0) (lit "Upstream relay rejected the message")
      else if 0 <? so_RetryAfter o then
        e 451 (4, 4, 1) (lit "Upstream relay unavailable, retry in " ++ Itoa (ceil_seconds (so_RetryAfter o)) ++ lit "s")
      else e 451 (4, 4, 1) (lit "Upstream relay unavailable")
  | _ => e 451 (4, 3, 0) (lit "Temporarily unavailable")
  end.

(** ** Interfaces of the session *)

(** [CredentialVerifier]; [E] is what a call reads, [V] what it changes. *)
Class CredentialVerifier (E V : Type) := {
  cv_Lookup : E → gostring → res VerifyError MailCredential;
  cv_Check : E → MailCredential → gostring → V → V * res VerifyError Result;
  cv_StillValid : E → Result → res VerifyError bool }.

(** What the session relies on: a login that was just accepted still holds. *)
Class CredentialVerifierLaws (E V : Type) `{CredentialVerifier E V} (sane : E → Prop) := {
  cv_fresh : ∀ e username mc password v v' r, sane e →
    cv_Lookup e username = Ok mc → cv_Check e mc password v = (v', Ok r) →
    ∃ previous, cv_StillValid e r = Ok previous }.

(** [TokenAuthenticator] *)
Record Subject := { sub_Namespace : gostring; sub_ServiceAccount : gostring }.
Inductive TokenError := TokenUnavailable | TokenRejected.

(** [PodResolver] over the informer cache *)
Record Pod := {
  pod_Namespace : gostring; pod_Name : gostring; pod_ServiceAccountName : gostring;
  pod_Labels : gmap gostring gostring; pod_HostNetwork : bool; pod_PodIP : gostring; pod_PodIPs : list gostring;
  pod_Running : bool; pod_Deleted : bool }.

Record PodIdentity := {
  pi_Namespace : gostring; pi_Name : gostring; pi_ServiceAccount : gostring; pi_Labels : gmap gostring gostring }.

Inductive PodError := PodLookupFailed | PodAmbiguous (a b : gostring) | PodNotFound.

Definition IndexPodIP (p : Pod) : list gostring :=
  if pod_HostNetwork p || (pod_PodIP p == []) then []
  else if (length (pod_PodIPs p) =? 0)%nat then [pod_PodIP p] else pod_PodIPs p.

(** The loop over the pods of the index. *)
Fixpoint resolvePods (pods : list Pod) (found : option Pod) : res PodError (option Pod) :=
  match pods with
  | [] => Ok found
  | p :: pods =>
      if negb (pod_Running p) || pod_Deleted p then resolvePods pods found
      else match found with
           | Some m => Err (PodAmbiguous (pod_Name m) (pod_Name p))
           | None => resolvePods pods (Some p)
           end
  end.

(** [list ip] is the informer cache's answer for the index key [ip]. *)
Definition ResolveIP (list : gostring → option (list Pod)) (ip : gostring) : res PodError PodIdentity :=
  match list ip with
  | None => Err PodLookupFailed
  | Some pods =>
      match resolvePods pods None with
      | Err e => Err e
      | Ok None => Err PodNotFound
      | Ok (Some m) =>
          Ok {| pi_Namespace := pod_Namespace m; pi_Name := pod_Name m;
                pi_ServiceAccount := if pod_ServiceAccountName m == [] then lit "default" else pod_ServiceAccountName m;
                pi_Labels := pod_Labels m |}
      end
  end.

(** ** State *)

(** Close states of a [clientConn]. *)
Inductive conn_state := connOpen | connCloseAfterReply | connReplied.

(** [closeAfterReply] swaps only from the open state. *)
Definition closeAfterReply (c : conn_state) : conn_state :=
  match c with connOpen => connCloseAfterReply | c => c end.

(** [Write]: whether the bytes reach the client, and the state after. *)
Definition conn_Write (c : conn_state) : bool * conn_state :=
  match c with
  | connReplied => (false, connReplied)
  | connCloseAfterReply => (true, connReplied)
  | connOpen => (true, connOpen)
  end.

(** [Read]: [false] is EOF. *)
Definition conn_Read (c : conn_state) : bool := match c with connReplied => false | _ => true end.

(** The read deadlines of a DATA transfer; [dw_end = 0] is no overall limit. *)
Record dataWindow := { dw_idle : Duration; dw_end : Time }.

Definition deadline (now : Time) (w : dataWindow) : Time :=
  let dl := if 0 <? dw_idle w then now + dw_idle w else 0 in
  if (dw_end w != 0) && ((dl == 0) || (dw_end w <? dl)) then dw_end w else dl.

Record session := {
  s_remoteIP : gostring; s_tls : bool;
  s_identity : option Identity; s_cred : option Result;
  s_from : gostring; s_rcpts : list gostring;
  s_revoked : bool; s_conn : conn_state }.

(** The deployment: [Backend]'s options. *)
Record Options := {
  o_Credentials : bool; o_AllowInsecureCredentialAuth : bool; o_AuthFailures : bool;
  o_Tokens : bool; o_Pods : bool }.

Record world (L V : Type) := { w_gateway : Gateway L; w_verifier : V }.
Arguments w_gateway {L V} _. Arguments w_verifier {L V} _.
Arguments Build_world {L V} _ _.

(** How [Begin] of the failure limiter ended. *)
Inductive Turn := TurnGranted | TurnThrottled | TurnCancelled.

(** What reading the DATA stream gave. *)
Inductive DataRead :=
| DataComplete (raw : gostring) | DataTooLarge | DataDeadline | DataTooLongLine | DataFailed (msg : gostring).

(** What a command reads: [cl_id] is the UUID it draws. *)
Record CallEnv (E : Type) := {
  ce_env : Env; ce_now : Time; ce_id : gostring; ce_date : gostring;
  ce_verifier : E; ce_turn : Turn;
  ce_token : gostring → res TokenError Subject;
  ce_pods : gostring → option (list Pod);
  ce_tenantSlot : bool; ce_slot : bool; ce_maxLine : Z }.
Arguments ce_env {E} _. Arguments ce_now {E} _. Arguments ce_id {E} _. Arguments ce_date {E} _.
Arguments ce_verifier {E} _. Arguments ce_turn {E} _. Arguments ce_token {E} _. Arguments ce_pods {E} _.
Arguments ce_tenantSlot {E} _. Arguments ce_slot {E} _. Arguments ce_maxLine {E} _.

Definition NewSession (remoteIP : gostring) (tls : bool) : session :=
  {| s_remoteIP := remoteIP; s_tls := tls; s_identity := None; s_cred := None; s_from := []; s_rcpts := [];
     s_revoked := false; s_conn := connOpen |}.

Definition set_identity (i : option Identity) (s : session) : session :=
  {| s_remoteIP := s_remoteIP s; s_tls := s_tls s; s_identity := i; s_cred := s_cred s; s_from := s_from s;
     s_rcpts := s_rcpts s; s_revoked := s_revoked s; s_conn := s_conn s |}.
Definition set_cred (c : option Result) (s : session) : session :=
  {| s_remoteIP := s_remoteIP s; s_tls := s_tls s; s_identity := s_identity s; s_cred := c; s_from := s_from s;
     s_rcpts := s_rcpts s; s_revoked := s_revoked s; s_conn := s_conn s |}.
Definition set_envelope (from : gostring) (rcpts : list gostring) (s : session) : session :=
  {| s_remoteIP := s_remoteIP s; s_tls := s_tls s; s_identity := s_identity s; s_cred := s_cred s; s_from := from;
     s_rcpts := rcpts; s_revoked := s_revoked s; s_conn := s_conn s |}.
Definition revoke (s : session) : session :=
  {| s_remoteIP := s_remoteIP s; s_tls := s_tls s; s_identity := None; s_cred := None; s_from := s_from s;
     s_rcpts := s_rcpts s; s_revoked := true; s_conn := s_conn s |}.
Definition closing (s : session) : session :=
  {| s_remoteIP := s_remoteIP s; s_tls := s_tls s; s_identity := s_identity s; s_cred := s_cred s; s_from := s_from s;
     s_rcpts := s_rcpts s; s_revoked := s_revoked s; s_conn := closeAfterReply (s_conn s) |}.

Definition set_previous (b : bool) (i : Identity) : Identity :=
  {| id_Namespace := id_Namespace i; id_ServiceAccount := id_ServiceAccount i; id_AuthMethod := id_AuthMethod i;
     id_PodLabels := id_PodLabels i; id_Credential := id_Credential i; id_CredentialPrevious := b |}.

(** ** Text *)

Definition auditUsernameByte (c : ascii) : bool :=
  is_lower c || is_digit c || Ascii.eqb c "-" || Ascii.eqb c ".".

Definition auditUsername (u : gostring) : gostring :=
  if (317 <? length u)%nat then []
  else match ParseUsername u with
       | None => []
       | Some _ => if forallb auditUsernameByte u then u else []
       end.

Definition receivedHeader (date remoteIP msgID authMethod : gostring) (tls : bool) : gostring :=
  let proto := lit "ESMTP" ++ (if tls then lit "S" else [])
               ++ (if (authMethod == AuthOAuthBearer) || (authMethod == AuthSMTPCredential) then lit "A" else []) in
  lit "Received: from [" ++ remoteIP ++ lit "] by sigillum with " ++ proto ++ lit " id " ++ msgID ++ lit ";" ++ crlf
  ++ [TAB] ++ date ++ crlf.

(** ** The LOGIN exchange *)

Record loginServer := { l_step : nat; l_username : gostring }.

Inductive LoginOutput :=
| Challenge (s : gostring) | Authenticate (username password : gostring) | UnexpectedResponse.

Definition Next (l : loginServer) (response : gostring) : loginServer * LoginOutput :=
  match l_step l with
  | 0%nat => if (0 <? length response)%nat
             then ({| l_step := 2; l_username := response |}, Challenge (lit "Password:"))
             else ({| l_step := 1; l_username := l_username l |}, Challenge (lit "Username:"))
  | 1%nat => ({| l_step := 2; l_username := response |}, Challenge (lit "Password:"))
  | 2%nat => ({| l_step := 3; l_username := l_username l |}, Authenticate (l_username l) response)
  | _ => (l, UnexpectedResponse)
  end.

(** ** Handlers *)

Inductive Mechanism := Plain | Login | OAuthBearer | OtherMechanism.
Inductive AuthRefusal := AuthUnknownMechanism | AuthReply (e : SMTPError).

Section handlers.
Context `{AddressParser, UnicodeTables, LabelMatcher, K8sNames, UUIDs, X509, Limiter L}.
Context `{MailReader, MIMEReader, CredentialVerifier E V}.

Definition on_gateway (f : Gateway L → Gateway L) (w : world L V) : world L V :=
  Build_world (f (w_gateway w)) (w_verifier w).

Definition credentialAuthAllowed (o : Options) (s : session) : bool :=
  o_Credentials o && (s_tls s || o_AllowInsecureCredentialAuth o).

Definition AuthMechanisms (o : Options) (s : session) : list Mechanism :=
  (if o_Tokens o then [OAuthBearer] else []) ++ (if credentialAuthAllowed o s then [Plain; Login] else []).

(** [Auth] and [credentialAuth]: whether the mechanism may be used. *)
Definition Auth (o : Options) (s : session) (mech : Mechanism) : res AuthRefusal unit :=
  match mech with
  | Plain | Login =>
      if negb (o_Credentials o) then Err AuthUnknownMechanism
      else if negb (credentialAuthAllowed o s) then Err (AuthReply errEncryptionRequired)
      else Ok ()
  | OAuthBearer => if negb (o_Tokens o) then Err AuthUnknownMechanism else Ok ()
  | OtherMechanism => Err AuthUnknownMechanism
  end.

Definition bare_event (msgID authMethod credential : gostring) : Event :=
  {| ev_MessageID := msgID; ev_Namespace := []; ev_ServiceAccount := []; ev_AuthMethod := authMethod;
     ev_Credential := credential; ev_CredentialPrevious := false; ev_Cluster := []; ev_Transport := TransportSMTP;
     ev_From := []; ev_To := []; ev_Policy := []; ev_Backend := []; ev_Decision := DecisionReject; ev_Reason := [] |}.

Definition authFailed (env : CallEnv E) (username reason : gostring) (w : world L V) : world L V :=
  on_gateway (Reject (bare_event (ce_id env) AuthSMTPCredential (auditUsername username)) reason) w.

(** The identity of a credential login. *)
Definition credentialIdentity (r : Result) : Identity :=
  {| id_Namespace := r_Namespace r; id_ServiceAccount := r_ServiceAccount r; id_AuthMethod := AuthSMTPCredential;
     id_PodLabels := ∅; id_Credential := r_Username r; id_CredentialPrevious := r_Previous r |}.

(** The check of the password: the verifier after it, the result, and the
    outcome reported to the failure limiter, if a turn was taken. *)
Definition checkPassword (o : Options) (env : CallEnv E) (username password : gostring) (v : V)
    : V * res VerifyError (option Result) * option bool :=
  match cv_Lookup (ce_verifier env) username with
  | Err e => (v, Err e, None)
  | Ok mc =>
      if Generated mc || negb (o_AuthFailures o) then
        let '(v, r) := cv_Check (ce_verifier env) mc password v in
        (v, match r with Ok r => Ok (Some r) | Err e => Err e end, None)
      else match ce_turn env with
           | TurnThrottled => (v, Ok None, None)
           | TurnCancelled => (v, Err Cancelled, None)
           | TurnGranted =>
               let '(v, r) := cv_Check (ce_verifier env) mc password v in
               (v, match r with Ok r => Ok (Some r) | Err e => Err e end,
                Some match r with Err ErrInvalid => true | _ => false end)
           end
  end.

Definition credentialLogin (o : Options) (env : CallEnv E) (username password : gostring) (s : session) (w : world L V)
    : session * world L V * option SMTPError * option bool :=
  let '(v, r, done_) := checkPassword o env username password (w_verifier w) in
  let w := Build_world (w_gateway w) v in
  match r with
  | Ok None => (s, authFailed env username "auth_rate_limited" w, Some errAuthThrottled, done_)
  | Err ErrInvalid => (s, authFailed env username "invalid_credentials" w, Some errInvalidCredentials, done_)
  | Err _ => (s, authFailed env username "auth_unavailable" w, Some errAuthUnavailable, done_)
  | Ok (Some r) => (set_identity (Some (credentialIdentity r)) (set_cred (Some r) s), w, None, done_)
  end.

(** The PLAIN exchange: the authorization identity must be empty or the user. *)
Definition plainLogin (o : Options) (env : CallEnv E) (identity username password : gostring) (s : session)
    (w : world L V) : session * world L V * option SMTPError * option bool :=
  if (identity != []) && (identity != username)
  then (s, authFailed env username "invalid_credentials" w, Some errInvalidCredentials, None)
  else credentialLogin o env username password s w.

(** The OAUTHBEARER exchange, with its wrappers [unavailableAs454] and
    [authFailedAs535]. *)
Definition bearerLogin (env : CallEnv E) (token : gostring) (s : session) (w : world L V)
    : session * world L V * option SMTPError :=
  match ce_token env token with
  | Err TokenUnavailable =>
      (s, on_gateway (Reject (bare_event (ce_id env) AuthOAuthBearer []) "auth_unavailable") w, Some errAuthUnavailable)
  | Err TokenRejected =>
      (s, on_gateway (Reject (bare_event (ce_id env) AuthOAuthBearer []) "invalid_token") w, Some errInvalidCredentials)
  | Ok subj =>
      (set_identity (Some {| id_Namespace := sub_Namespace subj; id_ServiceAccount := sub_ServiceAccount subj;
                             id_AuthMethod := AuthOAuthBearer; id_PodLabels := ∅; id_Credential := [];
                             id_CredentialPrevious := false |}) s, w, None)
  end.

(** [event]: the audit skeleton for the identified caller. *)
Definition event (s : session) (msgID from : gostring) (to : list gostring) : Event :=
  let i := s_identity s in
  let get (f : Identity → gostring) := match i with Some i => f i | None => [] end in
  {| ev_MessageID := msgID; ev_Namespace := get id_Namespace; ev_ServiceAccount := get id_ServiceAccount;
     ev_AuthMethod := get id_AuthMethod; ev_Credential := get id_Credential;
     ev_CredentialPrevious := match i with Some i => id_CredentialPrevious i | None => false end;
     ev_Cluster := []; ev_Transport := TransportSMTP; ev_From := from; ev_To := to; ev_Policy := [];
     ev_Backend := []; ev_Decision := DecisionReject; ev_Reason := [] |}.

Definition rejectMessage (s : session) (msgID reason from : gostring) (to : list gostring) (w : world L V) : world L V :=
  on_gateway (Reject (event s msgID from to) reason) w.

Definition checkCredential (env : CallEnv E) (from : gostring) (to : list gostring) (s : session) (w : world L V)
    : session * world L V * option SMTPError :=
  if s_revoked s then (s, w, Some errCredentialRevoked)
  else match s_cred s with
       | None => (s, w, None)
       | Some c =>
           match cv_StillValid (ce_verifier env) c with
           | Err ErrInvalid =>
               (revoke s, rejectMessage s (ce_id env) "invalid_credentials" from to w, Some errCredentialRevoked)
           | Err _ => (s, rejectMessage s (ce_id env) "auth_unavailable" from to w, Some errAuthUnavailable)
           | Ok previous => (set_identity (set_previous previous <$> s_identity s) s, w, None)
           end
       end.

Definition identifyByPodIP (o : Options) (env : CallEnv E) (s : session) (w : world L V)
    : session * world L V * option SMTPError :=
  let unauthenticated reason := on_gateway (Reject (bare_event (ce_id env) [] []) reason) w in
  if negb (o_Pods o) then (s, unauthenticated (lit "auth_required"), Some errAuthRequired)
  else match ResolveIP (ce_pods env) (s_remoteIP s) with
       | Err _ => (s, unauthenticated (lit "pod_ip_unresolved"), Some errAuthRequired)
       | Ok pod =>
           (set_identity (Some {| id_Namespace := pi_Namespace pod; id_ServiceAccount := pi_ServiceAccount pod;
                                  id_AuthMethod := AuthPodIPLegacy; id_PodLabels := pi_Labels pod;
                                  id_Credential := []; id_CredentialPrevious := false |}) s, w, None)
       end.

(** The end of [Mail], for an identified caller. *)
Definition mailFrom (env : CallEnv E) (from : gostring) (s : session) (w : world L V)
    : session * world L V * option SMTPError :=
  if from == [] then
    (s, rejectMessage s (ce_id env) "null_sender" [] [] w,
     Some (reply 550 (5, 7, 1) "Null sender <> is not accepted for submission"))
  else match ValidatePlainAddress from with
       | Err _ => (s, rejectMessage s (ce_id env) "invalid_payload" from [] w,
                   Some (reply 553 (5, 1, 7) "Malformed sender address"))
       | Ok _ => (set_envelope from (s_rcpts s) s, w, None)
       end.

Definition Mail (o : Options) (env : CallEnv E) (from : gostring) (s : session) (w : world L V)
    : session * world L V * option SMTPError :=
  let '(s, w, e) := checkCredential env from [] s w in
  match e with
  | Some e => (s, w, Some e)
  | None =>
      let '(s, w, e) := match s_identity s with
                        | Some _ => (s, w, None)
                        | None => identifyByPodIP o env s w
                        end in
      match e with
      | Some e => (s, w, Some e)
      | None => mailFrom env from s w
      end
  end.

Definition Rcpt (env : CallEnv E) (to : gostring) (s : session) (w : world L V)
    : session * world L V * option SMTPError :=
  match ValidatePlainAddress to with
  | Err _ => (s, rejectMessage s (ce_id env) "invalid_payload" (s_from s) [to] w,
              Some (reply 553 (5, 1, 3) "Malformed recipient address"))
  | Ok _ => (set_envelope (s_from s) (s_rcpts s ++ [to]) s, w, None)
  end.

Definition Reset (s : session) : session := set_envelope [] [] s.

Definition errLineTooLong (maxLine : Z) : SMTPError :=
  reply 550 (5, 6, 0) (lit "Line longer than " ++ Itoa maxLine ++ lit " bytes; use quoted-printable or base64").

(** The request a message becomes: its header addresses, the bytes to relay. *)
Definition request_of (env : CallEnv E) (s : session) (id : Identity) (raw : gostring) (h : MIMEHeader) (body : gostring)
    (hdr : addressHeaders) : Request :=
  let trace := receivedHeader (ce_date env) (s_remoteIP s) (ce_id env) (id_AuthMethod id) (s_tls s) in
  let added := missingOriginationHeaders (ce_date env) h (ce_id env) (ah_from hdr) in
  {| rq_Identity := id; rq_Transport := TransportSMTP; rq_MessageID := ce_id env;
     rq_Message := {| m_MessageID := []; m_From := {| a_Name := []; a_Address := ah_from hdr |};
                      m_To := (λ rc, {| a_Name := []; a_Address := rc |}) <$> s_rcpts s; m_Cc := []; m_Bcc := [];
                      m_Subject := []; m_Body := {| b_Text := []; b_HTML := [] |}; m_Attachments := [];
                      m_Headers := ∅ |};
     rq_Raw := Some (trace ++ added ++ raw);
     rq_EnvelopeFrom := s_from s; rq_Sender := ah_sender hdr; rq_ReplyTo := ah_replyTo hdr;
     rq_SizeBytes := contentSize h body (Z.of_nat (length raw)) |}.

(** The part of [Data] after the message was read. *)
Definition relay (env : CallEnv E) (data : gostring) (s : session) (w : world L V)
    : session * world L V * option HandlerError :=
  let raw := stripBcc data in
  match parseMessage raw with
  | Err e => (s, rejectMessage s (ce_id env) "invalid_payload" (s_from s) (s_rcpts s) w,
              Some (Reply {| se_Code := 550; se_Enhanced := (5, 6, 0); se_Message := ParseFailure e |}))
  | Ok (h, body, hdr) =>
      let '(s, w, e) := checkCredential env (s_from s) (s_rcpts s) s w in
      match e, s_identity s with
      | Some e, _ => (s, w, Some (Reply (withMessageID e (ce_id env))))
      | None, None => (s, w, Some (Reply errAuthRequired))  (* not reached: [relay] runs with an identity *)
      | None, Some id =>
          let '(g, o) := Send (ce_env env) (ce_now env) (request_of env s id raw h body hdr) (w_gateway w) in
          (s, Build_world g (w_verifier w), Reply <$> resultError o (ce_id env))
      end
  end.

Definition Data (env : CallEnv E) (read : DataRead) (s : session) (w : world L V)
    : session * world L V * option HandlerError :=
  match s_identity s with
  | None => (s, w, Some (Reply errAuthRequired))
  | Some _ =>
      let refused reason := rejectMessage s (ce_id env) reason (s_from s) (s_rcpts s) w in
      if negb (ce_tenantSlot env) then
        (s, refused (lit "busy"),
         Some (Reply (withMessageID (reply 451 (4, 3, 2) "Too many concurrent messages for this tenant, try again later") (ce_id env))))
      else if negb (ce_slot env) then
        (s, refused (lit "busy"),
         Some (Reply (withMessageID (reply 451 (4, 3, 2) "Too many concurrent messages, try again later") (ce_id env))))
      else match read with
           | DataTooLarge => (s, refused (lit "message_too_large"), Some ErrDataTooLarge)
           | DataDeadline =>
               (closing s, refused (lit "data_timeout"),
                Some (Reply (withMessageID (reply 451 (4, 4, 2) "Timeout during data transfer") (ce_id env))))
           | DataTooLongLine =>
               (closing s, refused (lit "invalid_payload"),
                Some (Reply (withMessageID (errLineTooLong (ce_maxLine env)) (ce_id env))))
           | DataFailed msg => (s, refused (lit "invalid_payload"), Some (ErrRead msg))
           | DataComplete data => relay env data s w
           end
  end.

End handlers.

(** ** Sessions as sequences of commands *)

(** go-smtp runs the handlers one at a time and accepts no AUTH after a
    successful one ([m_didAuth]). *)
Record machine (L V : Type) := { m_session : session; m_world : world L V; m_didAuth : bool }.
Arguments m_session {L V} _. Arguments m_world {L V} _. Arguments m_didAuth {L V} _.
Arguments Build_machine {L V} _ _ _.

Inductive command :=
| CmdPlain (identity username password : gostring)
| CmdLogin (username password : gostring)
| CmdBearer (token : gostring)
| CmdMail (from : gostring)
| CmdRcpt (to : gostring)
| CmdData (read : DataRead)
| CmdReset.

Section machine.
Context `{AddressParser, UnicodeTables, LabelMatcher, K8sNames, UUIDs, X509, Limiter L}.
Context `{MailReader, MIMEReader, CredentialVerifier E V}.

Definition after_auth (s : session) (w : world L V) (e : option SMTPError) (m : machine L V)
    : machine L V * option HandlerError :=
  (Build_machine s w (m_didAuth m || bool_decide (e = None)), Reply <$> e).

(** Why an AUTH command does not reach the exchange. *)
Definition auth_gate (o : Options) (mech : Mechanism) (m : machine L V) : option HandlerError :=
  if m_didAuth m then Some ErrAlreadyAuthenticated
  else match Auth o (m_session m) mech with
       | Err AuthUnknownMechanism => Some ErrAuthUnknownMechanism
       | Err (AuthReply e) => Some (Reply e)
       | Ok _ => None
       end.

Definition exec (o : Options) (env : CallEnv E) (c : command) (m : machine L V) : machine L V * option HandlerError :=
  let s := m_session m in
  let w := m_world m in
  let next (r : session * world L V * option SMTPError) :=
    (Build_machine (fst (fst r)) (snd (fst r)) (m_didAuth m), Reply <$> snd r) in
  match c with
  | CmdPlain identity username password =>
      match auth_gate o Plain m with
      | Some e => (m, Some e)
      | None => let '(s, w, e, _) := plainLogin o env identity username password s w in after_auth s w e m
      end
  | CmdLogin username password =>
      match auth_gate o Login m with
      | Some e => (m, Some e)
      | None => let '(s, w, e, _) := credentialLogin o env username password s w in after_auth s w e m
      end
  | CmdBearer token =>
      match auth_gate o OAuthBearer m with
      | Some e => (m, Some e)
      | None => let '(s, w, e) := bearerLogin env token s w in after_auth s w e m
      end
  | CmdMail from => next (Mail o env from s w)
  | CmdRcpt to => next (Rcpt env to s w)
  | CmdData read =>
      let r := Data env read s w in (Build_machine (fst (fst r)) (snd (fst r)) (m_didAuth m), snd r)
  | CmdReset => (Build_machine (Reset s) w (m_didAuth m), None)
  end.

(** The environment may differ at every command. *)
Inductive session_reachable (o : Options) : machine L V → Prop :=
| session_new remoteIP tls w : session_reachable o (Build_machine (NewSession remoteIP tls) w false)
| session_exec env c m : session_reachable o m → session_reachable o (fst (exec o env c m)).

(** ** The invariant *)

(** The identity agrees with the credential login, but for whether its
    password is by now the previous one. *)
Definition identity_of_cred (id : Identity) (r : Result) : Prop :=
  id = set_previous (id_CredentialPrevious id) (credentialIdentity r).

Definition plain_address (a : gostring) : Prop := ValidatePlainAddress a = Ok ().

Record session_ok (m : machine L V) : Prop := {
  sk_from : s_from (m_session m) = [] ∨ plain_address (s_from (m_session m));
  sk_rcpts : Forall plain_address (s_rcpts (m_session m));
  sk_cred : ∀ r, s_cred (m_session m) = Some r →
    m_didAuth m = true ∧ s_revoked (m_session m) = false ∧
    ∃ id, s_identity (m_session m) = Some id ∧ identity_of_cred id r;
  sk_revoked : s_revoked (m_session m) = true →
    m_didAuth m = true ∧ s_identity (m_session m) = None ∧ s_cred (m_session m) = None;
  sk_method : ∀ id, s_identity (m_session m) = Some id →
    (id_AuthMethod id = AuthSMTPCredential ∧ is_Some (s_cred (m_session m))) ∨
    (id_AuthMethod id = AuthOAuthBearer ∧ s_cred (m_session m) = None ∧ m_didAuth m = true) ∨
    (id_AuthMethod id = AuthPodIPLegacy ∧ s_cred (m_session m) = None) }.

Lemma checkCredential_spec (env : CallEnv E) (from : gostring) (to : list gostring) (s : session) (w : world L V) :
  let '(s', w', e) := checkCredential env from to s w in
  w_verifier w' = w_verifier w ∧ gw_sent (w_gateway w') = gw_sent (w_gateway w) ∧
  match e with
  | None => w' = w ∧ s_revoked s = false ∧
      match s_cred s with
      | None => s' = s
      | Some c => ∃ previous, cv_StillValid (ce_verifier env) c = Ok previous ∧
                    s' = set_identity (set_previous previous <$> s_identity s) s
      end
  | Some _ => s' = s ∨ s' = revoke s ∧ is_Some (s_cred s)
  end.
Proof.
  unfold checkCredential. destruct (s_revoked s) eqn:Hr; [by auto|].
  destruct (s_cred s) as [c|] eqn:Hc; [|done].
  destruct (cv_StillValid (ce_verifier env) c) as [previous|[]] eqn:Hv; simpl; eauto 10.
Qed.

Lemma session_credential (m : machine L V) (env : CallEnv E) (from : gostring) (to : list gostring) :
  session_ok m →
  session_ok (Build_machine (fst (fst (checkCredential env from to (m_session m) (m_world m))))
                            (snd (fst (checkCredential env from to (m_session m) (m_world m)))) (m_didAuth m)).
Proof.
  intros Hok. pose proof (checkCredential_spec env from to (m_session m) (m_world m)) as Hs.
  destruct (checkCredential _ _ _ _ _) as [[s' w'] e]. simpl. destruct Hs as (_ & _ & Hs).
  destruct Hok as [Hf Hrc Hc Hr Hm]. set (s := m_session m) in *.
  assert (s' = s ∨ (s' = revoke s ∧ is_Some (s_cred s))
    ∨ ∃ c previous, s_cred s = Some c ∧ s' = set_identity (set_previous previous <$> s_identity s) s) as Hcase.
  { destruct e; [destruct Hs; eauto|]. destruct Hs as (_ & _ & Hs).
    destruct (s_cred s) as [c|]; [destruct Hs as (p & _ & ->); right; right; eauto|auto]. }
  destruct Hcase as [->|[[-> [c Hc']]|(c & previous & Hc' & ->)]]; [by constructor|..];
    destruct (Hc c Hc') as (Hd & Hrev & id & Hid & Hag); constructor; simpl; try done.
  - intros r Hr'. destruct (Hc r Hr') as (_ & _ & id' & Hid' & Hag'). rewrite Hid'. simpl. split_and!; [done..|].
    eexists. split; [done|]. unfold identity_of_cred in *. by rewrite Hag'.
  - rewrite Hrev. done.
  - rewrite Hid. simpl. intros id' [= <-]. apply (Hm id Hid).
Qed.

Lemma gate_open (o : Options) (mech : Mechanism) (m : machine L V) : auth_gate o mech m = None → m_didAuth m = false.
Proof. unfold auth_gate. by destruct (m_didAuth m). Qed.

(** A session that has not authenticated is neither revoked nor has it a
    credential. *)
Lemma session_unauthenticated (m : machine L V) :
  session_ok m → m_didAuth m = false → s_cred (m_session m) = None ∧ s_revoked (m_session m) = false.
Proof.
  intros [_ _ Hc Hr _] Hd. split.
  - destruct (s_cred (m_session m)) as [r|]; [|done]. destruct (Hc r); [done|]. congruence.
  - destruct (s_revoked (m_session m)); [|done]. destruct Hr; [done|]. congruence.
Qed.

(** A successful AUTH exchange. *)
Lemma session_authenticated (m : machine L V) (w : world L V) (id : Identity) (c : option Result) :
  session_ok m → m_didAuth m = false →
  match c with
  | Some r => id = credentialIdentity r
  | None => id_AuthMethod id = AuthOAuthBearer
  end →
  session_ok (Build_machine (set_identity (Some id) (set_cred c (m_session m))) w true).
Proof.
  intros Hok Hd Hid. destruct (session_unauthenticated m Hok Hd) as [_ Hrev]. destruct Hok as [Hf Hrc _ _ _].
  constructor; simpl; try done.
  - intros r ->. split_and!; [done..|]. exists id. by subst.
  - by rewrite Hrev.
  - intros id' [= <-]. destruct c as [r|]; [left; subst; split; [done|by eexists]|auto].
Qed.

Lemma session_world (m : machine L V) (w : world L V) :
  session_ok m → session_ok (Build_machine (m_session m) w (m_didAuth m)).
Proof. by intros []; constructor. Qed.

Lemma login_cases (o : Options) (env : CallEnv E) (username password : gostring) (s : session) (w : world L V) :
  let '(s', w', e, _) := credentialLogin o env username password s w in
  gw_sent (w_gateway w') = gw_sent (w_gateway w) ∧
  match e with
  | Some _ => s' = s
  | None => ∃ mc r v, cv_Lookup (ce_verifier env) username = Ok mc ∧
      cv_Check (ce_verifier env) mc password (w_verifier w) = (v, Ok r) ∧
      w' = Build_world (w_gateway w) v ∧
      s' = set_identity (Some (credentialIdentity r)) (set_cred (Some r) s)
  end.
Proof.
  unfold credentialLogin, checkPassword.
  destruct (cv_Lookup (ce_verifier env) username) as [mc|[]] eqn:Hl; simpl; try done.
  destruct (Generated mc || negb (o_AuthFailures o)).
  - destruct (cv_Check (ce_verifier env) mc password (w_verifier w)) as [v [r|[]]] eqn:Hc; simpl; eauto 10.
  - destruct (ce_turn env); simpl; try done.
    destruct (cv_Check (ce_verifier env) mc password (w_verifier w)) as [v [r|[]]] eqn:Hc; simpl; eauto 10.
Qed.

(** After a login exchange, whatever it answered. *)
Lemma session_login (m : machine L V) (s' : session) (w' : world L V) (e : option SMTPError) :
  session_ok m → m_didAuth m = false →
  match e with
  | Some _ => s' = m_session m
  | None => ∃ r, s' = set_identity (Some (credentialIdentity r)) (set_cred (Some r) (m_session m))
  end →
  session_ok (fst (after_auth s' w' e m)).
Proof.
  intros Hok Hd Hs. unfold after_auth. rewrite Hd. destruct e as [e|]; simpl.
  - subst. rewrite <- Hd. by apply session_world.
  - destruct Hs as [r ->]. by apply session_authenticated.
Qed.

Lemma session_credential_login (o : Options) (env : CallEnv E) (username password : gostring) (m : machine L V) :
  session_ok m → m_didAuth m = false →
  session_ok (fst (let '(s, w, e, _) := credentialLogin o env username password (m_session m) (m_world m) in
                   after_auth s w e m)).
Proof.
  intros Hok Hd. pose proof (login_cases o env username password (m_session m) (m_world m)) as Hs.
  destruct (credentialLogin _ _ _ _ _ _) as [[[s' w'] e] d]. destruct Hs as [_ Hs]. destruct e as [e|].
  - by apply session_login.
  - destruct Hs as (mc & r & v & _ & _ & _ & Hs). apply session_login; eauto.
Qed.

Lemma session_bearer_login (o : Options) (env : CallEnv E) (token : gostring) (m : machine L V) :
  session_ok m → m_didAuth m = false →
  session_ok (fst (let '(s, w, e) := bearerLogin env token (m_session m) (m_world m) in after_auth s w e m)).
Proof.
  intros Hok Hd. unfold bearerLogin. destruct (ce_token env token) as [subj|[]]; unfold after_auth; rewrite Hd; simpl.
  - destruct (session_unauthenticated m Hok Hd) as [Hc _].
    assert (set_cred None (m_session m) = m_session m) as He by (destruct (m_session m); simpl in *; by subst).
    rewrite <- He. by apply session_authenticated.
  - rewrite <- Hd. by apply session_world.
  - rewrite <- Hd. by apply session_world.
Qed.

Abbreviation result_machine r d := (Build_machine (fst (fst r)) (snd (fst r)) d).

Lemma session_pod (o : Options) (env : CallEnv E) (m : machine L V) :
  session_ok m → s_identity (m_session m) = None → s_revoked (m_session m) = false →
  session_ok (result_machine (identifyByPodIP o env (m_session m) (m_world m)) (m_didAuth m)).
Proof.
  intros Hok Hid Hrev. unfold identifyByPodIP. destruct (negb (o_Pods o)); [by apply session_world|].
  destruct (ResolveIP _ _) as [pod|e]; [|by apply session_world].
  assert (s_cred (m_session m) = None) as Hc.
  { destruct (s_cred (m_session m)) as [r|] eqn:Hr; [|done].
    destruct (sk_cred m Hok r Hr) as (_ & _ & id & Hid' & _). congruence. }
  destruct Hok as [Hf Hrc _ _ _]. constructor; simpl; try done.
  - by rewrite Hc.
  - by rewrite Hrev.
  - intros id [= <-]. rewrite Hc. auto.
Qed.

Lemma session_from (env : CallEnv E) (from : gostring) (m : machine L V) :
  session_ok m → session_ok (result_machine (mailFrom env from (m_session m) (m_world m)) (m_didAuth m)).
Proof.
  intros Hok. unfold mailFrom. destruct (from == []); [by apply session_world|].
  destruct (ValidatePlainAddress from) as [[]|] eqn:Hv; [|by apply session_world].
  destruct Hok as [Hf Hrc Hc Hr Hm]. constructor; simpl; auto.
Qed.

Lemma session_mail (o : Options) (env : CallEnv E) (from : gostring) (m : machine L V) :
  session_ok m → session_ok (result_machine (Mail o env from (m_session m) (m_world m)) (m_didAuth m)).
Proof.
  intros Hok. unfold Mail. pose proof (session_credential m env from [] Hok) as Hok1.
  pose proof (checkCredential_spec env from [] (m_session m) (m_world m)) as Hs.
  destruct (checkCredential _ _ _ _ _) as [[s1 w1] [e|]]; [done|]. simpl in Hok1.
  destruct Hs as (_ & _ & _ & Hrev & Hs).
  assert (s_revoked s1 = false) as Hrev1.
  { destruct (s_cred (m_session m)) as [c|]; [destruct Hs as (p & _ & ->)|subst]; done. }
  destruct (s_identity s1) as [id|] eqn:Hid; [by apply (session_from env from (Build_machine s1 w1 (m_didAuth m)))|].
  pose proof (session_pod o env _ Hok1 Hid Hrev1) as Hok2. simpl in Hok2.
  destruct (identifyByPodIP o env s1 w1) as [[s2 w2] [e|]]; [done|].
  by apply (session_from env from (Build_machine s2 w2 (m_didAuth m))).
Qed.

Lemma session_rcpt (env : CallEnv E) (to : gostring) (m : machine L V) :
  session_ok m → session_ok (result_machine (Rcpt env to (m_session m) (m_world m)) (m_didAuth m)).
Proof.
  intros Hok. unfold Rcpt. destruct (ValidatePlainAddress to) as [[]|] eqn:Hv; [|by apply session_world].
  destruct Hok as [Hf Hrc Hc Hr Hm]. constructor; simpl; try done.
  apply Forall_app. split; [done|]. by repeat constructor.
Qed.

Lemma session_closing (m : machine L V) (w : world L V) :
  session_ok m → session_ok (Build_machine (closing (m_session m)) w (m_didAuth m)).
Proof. by intros []; constructor. Qed.

Lemma session_data (env : CallEnv E) (read : DataRead) (m : machine L V) :
  session_ok m → session_ok (result_machine (Data env read (m_session m) (m_world m)) (m_didAuth m)).
Proof.
  intros Hok. unfold Data. destruct (s_identity (m_session m)); [|by apply session_world].
  destruct (negb (ce_tenantSlot env)); [by apply session_world|]. destruct (negb (ce_slot env)); [by apply session_world|].
  destruct read as [data| | | |msg]; try (by apply session_world || by apply session_closing).
  unfold relay. destruct (parseMessage _) as [[[h body] hdr]|e]; [|by apply session_world].
  pose proof (session_credential m env (s_from (m_session m)) (s_rcpts (m_session m)) Hok) as Hok1.
  destruct (checkCredential _ _ _ _ _) as [[s1 w1] [e|]]; [done|].
  destruct (s_identity s1) as [id1|]; [|done]. destruct (Send _ _ _ _) as [g o].
  by apply (session_world (Build_machine s1 w1 (m_didAuth m))).
Qed.

Lemma session_reset (m : machine L V) :
  session_ok m → session_ok (Build_machine (Reset (m_session m)) (m_world m) (m_didAuth m)).
Proof. intros []. constructor; simpl; auto. Qed.

Lemma session_step (o : Options) (env : CallEnv E) (c : command) (m : machine L V) :
  session_ok m → session_ok (fst (exec o env c m)).
Proof.
  intros Hok. destruct c as [i u p|u p|t|from|to|read|]; cbn [exec].
  - destruct (auth_gate o Plain m) eqn:Hg; [done|]. apply gate_open in Hg. unfold plainLogin.
    destruct (_ && _); [by apply session_login|by apply session_credential_login].
  - destruct (auth_gate o Login m) eqn:Hg; [done|]. apply gate_open in Hg. by apply session_credential_login.
  - destruct (auth_gate o OAuthBearer m) eqn:Hg; [done|]. apply gate_open in Hg. by apply session_bearer_login.
  - by apply session_mail.
  - by apply session_rcpt.
  - by apply session_data.
  - by apply session_reset.
Qed.

Lemma session_reachable_ok (o : Options) (m : machine L V) : session_reachable o m → session_ok m.
Proof.
  induction 1 as [ip tls w|env c m _ IH]; [|by apply session_step].
  constructor; simpl; auto; done.
Qed.

(** ** What reaches the gateway *)

(** The gateway after a command that hands no message to the pipeline: at most
    one refusal is recorded. *)
Definition no_send (g g' : Gateway L) : Prop := g' = g ∨ ∃ ev reason, g' = Reject ev reason g.

Definition sent_by (env : CallEnv E) (s : session) (w : world L V) (data : gostring) (w' : world L V)
    (e : option HandlerError) : Prop :=
  ∃ id h body hdr o,
    parseMessage (stripBcc data) = Ok (h, body, hdr) ∧
    Send (ce_env env) (ce_now env) (request_of env s id (stripBcc data) h body hdr) (w_gateway w) = (w_gateway w', o) ∧
    e = Reply <$> resultError o (ce_id env) ∧
    s_revoked s = false ∧
    match s_cred s with
    | None => s_identity s = Some id
    | Some c => ∃ previous, cv_StillValid (ce_verifier env) c = Ok previous ∧
                  id = set_previous previous (credentialIdentity c)
    end.

Lemma checkCredential_gateway (env : CallEnv E) (from : gostring) (to : list gostring) (s : session) (w : world L V) :
  no_send (w_gateway w) (w_gateway (snd (fst (checkCredential env from to s w)))).
Proof.
  unfold checkCredential, no_send. destruct (s_revoked s); [by left|]. destruct (s_cred s) as [c|]; [|by left].
  destruct (cv_StillValid _ c) as [|[]]; simpl; eauto.
Qed.

Lemma request_of_identity (env : CallEnv E) (s : session) (i : option Identity) (id : Identity) (raw : gostring)
    (h : MIMEHeader) (body : gostring) (hdr : addressHeaders) :
  request_of env (set_identity i s) id raw h body hdr = request_of env s id raw h body hdr.
Proof. done. Qed.

Lemma data_cases (m : machine L V) (env : CallEnv E) (read : DataRead) :
  session_ok m →
  let '(s', w', e) := Data env read (m_session m) (m_world m) in
  (no_send (w_gateway (m_world m)) (w_gateway w') ∧ e ≠ None) ∨
  ∃ data, read = DataComplete data ∧ sent_by env (m_session m) (m_world m) data w' e.
Proof.
  intros Hok. unfold Data. destruct (s_identity (m_session m)) as [id0|] eqn:Hid0; [|left; split; [by left|done]].
  destruct (negb (ce_tenantSlot env)); [left; split; [right; eauto|done]|].
  destruct (negb (ce_slot env)); [left; split; [right; eauto|done]|].
  destruct read as [data| | | |msg]; try (left; split; [right; eauto|done]).
  unfold relay. destruct (parseMessage _) as [[[h body] hdr]|e] eqn:Hp; [|left; split; [right; eauto|done]].
  pose proof (checkCredential_gateway env (s_from (m_session m)) (s_rcpts (m_session m)) (m_session m) (m_world m)) as Hg.
  pose proof (checkCredential_spec env (s_from (m_session m)) (s_rcpts (m_session m)) (m_session m) (m_world m)) as Hs.
  destruct (checkCredential _ _ _ _ _) as [[s1 w1] [e|]]; simpl in Hg; [left; by split|].
  destruct Hs as (_ & _ & -> & Hrev & Hs). simpl.
  assert (∃ id1, s_identity s1 = Some id1 ∧ request_of env s1 = request_of env (m_session m) ∧
    match s_cred (m_session m) with
    | None => s_identity (m_session m) = Some id1
    | Some c => ∃ previous, cv_StillValid (ce_verifier env) c = Ok previous ∧
                  id1 = set_previous previous (credentialIdentity c)
    end) as (id1 & -> & -> & Hid1).
  { destruct (s_cred (m_session m)) as [c|] eqn:Hc; [|subst; eauto].
    destruct Hs as (previous & Hv & ->). simpl. rewrite Hid0. eexists. split_and!; [done..|].
    exists previous. split; [done|]. destruct (sk_cred m Hok c Hc) as (_ & _ & id & Hid & Hag).
    simplify_eq. by rewrite Hag. }
  destruct (Send _ _ _ _) as [g o] eqn:Hsend. simpl. right. exists data. split; [done|].
  by exists id1, h, body, hdr, o.
Qed.

Lemma resultError_None (o : SendOutcome) (msgID : gostring) : resultError o msgID = None ↔ so_Status o = StatusAccepted.
Proof.
  unfold resultError. split; [|by intros ->].
  destruct (so_Status o), (so_DenyReason o) as [[]|]; try done; by destruct (so_Permanent o), (0 <? so_RetryAfter o).
Qed.

(** The audit record of a message that reached the pipeline. *)
Lemma relayed_audit (env : CallEnv E) (s : session) (id : Identity) (raw : gostring) (h : MIMEHeader) (body : gostring)
    (hdr : addressHeaders) (g : Gateway L) :
  let '(g', o) := Send (ce_env env) (ce_now env) (request_of env s id raw h body hdr) g in
  ∃ ev, gw_audit g' = gw_audit g ++ [ev] ∧ ev_MessageID ev = ce_id env ∧
    (ev_Decision ev = DecisionAccept ↔ Reply <$> resultError o (ce_id env) = None).
Proof.
  pose proof (Send_audited (ce_env env) (ce_now env) (request_of env s id raw h body hdr) g) as Ha.
  destruct (Send _ _ _ _) as [g' o]. simpl in Ha. destruct Ha as (ev & Hev & Hm & _ & _ & _ & _ & Hd).
  exists ev. split_and!; [done..|]. by rewrite fmap_None, resultError_None.
Qed.

Lemma revoked_step (o : Options) (env : CallEnv E) (c : command) (m : machine L V) :
  session_ok m → s_revoked (m_session m) = true →
  let '(m', e) := exec o env c m in
  s_revoked (m_session m') = true ∧ gw_sent (w_gateway (m_world m')) = gw_sent (w_gateway (m_world m)) ∧
  match c with CmdRcpt _ | CmdReset => True | _ => e ≠ None end.
Proof.
  intros Hok Hrev. destruct (sk_revoked m Hok Hrev) as (Hd & Hid & _).
  destruct c as [i u p|u p|t|from|to|read|]; cbn [exec]; try (unfold auth_gate; rewrite Hd; done).
  - unfold Mail, checkCredential. by rewrite Hrev.
  - unfold Rcpt. by destruct (ValidatePlainAddress to).
  - unfold Data. by rewrite Hid.
Qed.

(** A sequence of commands, each with its own environment. *)
Fixpoint exec_all (o : Options) (l : list (CallEnv E * command)) (m : machine L V) : machine L V * list (option HandlerError) :=
  match l with
  | [] => (m, [])
  | (env, c) :: l =>
      let '(m, e) := exec o env c m in
      let '(m, es) := exec_all o l m in
      (m, e :: es)
  end.

(** ** Properties *)

(** C20. In every session, however its commands are ordered and whatever they
    are answered: the envelope holds only addresses that are plain mailboxes; a
    session with a credential has that credential's identity; a revoked session
    has neither identity nor credential; and an identity comes from exactly one
    of a credential login, a reviewed token or the pod's address. *)
Theorem session_invariant (o : Options) (m : machine L V) : session_reachable o m → session_ok m.
Proof. apply session_reachable_ok. Qed.

(** DATA hands a message to the pipeline only when it was read and parsed as
    a whole, as the identity of the session, which is not revoked, and, for a
    credential login, only after the credential was confirmed for this very
    message, with that credential's namespace and ServiceAccount; the recipients
    checked and relayed are the accepted RCPT addresses, and the reply is the one
    for the pipeline's result.  In every other case the client gets an error and
    at most one refusal is recorded. *)
Theorem data_sends_as_caller (o : Options) (m : machine L V) (env : CallEnv E) (read : DataRead) :
  session_reachable o m →
  let '(s', w', e) := Data env read (m_session m) (m_world m) in
  (no_send (w_gateway (m_world m)) (w_gateway w') ∧ e ≠ None) ∨
  ∃ data, read = DataComplete data ∧ sent_by env (m_session m) (m_world m) data w' e.
Proof. intros Hr. by apply data_cases, session_reachable_ok with o. Qed.

(** C4. Revocation is final: once a session's credential was found revoked, no
    later command, in any order and with any environment, delivers anything or
    lifts the revocation, and every AUTH, MAIL and DATA is refused. *)
Theorem revoked_is_final (o : Options) (l : list (CallEnv E * command)) (m : machine L V) :
  session_reachable o m → s_revoked (m_session m) = true →
  let '(m', es) := exec_all o l m in
  s_revoked (m_session m') = true ∧ gw_sent (w_gateway (m_world m')) = gw_sent (w_gateway (m_world m)) ∧
  Forall2 (λ c e, match snd c with CmdRcpt _ | CmdReset => True | _ => e ≠ None end) l es.
Proof.
  intros Hr. revert m Hr. induction l as [|[env c] l IH]; intros m Hr Hrev; simpl; [by split_and!|].
  pose proof (revoked_step o env c m (session_reachable_ok _ _ Hr) Hrev) as Hs.
  pose proof (session_exec o env c m Hr) as Hr1.
  destruct (exec o env c m) as [m1 e]. destruct Hs as (Hrev1 & Hsent & He). simpl in Hr1.
  specialize (IH m1 Hr1 Hrev1). destruct (exec_all o l m1) as [m2 es]. destruct IH as (? & ? & ?).
  split_and!; [done|congruence|by constructor].
Qed.

(** Every DATA of an identified caller leaves exactly one audit record, under
    the message's ID, and it says accept if and only if the client is told the
    message was accepted. *)
Theorem data_one_audit_record (o : Options) (m : machine L V) (env : CallEnv E) (read : DataRead) :
  session_reachable o m → is_Some (s_identity (m_session m)) →
  let '(s', w', e) := Data env read (m_session m) (m_world m) in
  ∃ ev, gw_audit (w_gateway w') = gw_audit (w_gateway (m_world m)) ++ [ev] ∧
    ev_MessageID ev = ce_id env ∧ (ev_Decision ev = DecisionAccept ↔ e = None).
Proof.
  intros Hok%session_reachable_ok [id0 Hid]. unfold Data. rewrite Hid.
  assert (s_revoked (m_session m) = false) as Hrev.
  { destruct (s_revoked (m_session m)) eqn:Hr; [|done]. destruct (sk_revoked m Hok Hr) as (_ & Hn & _). congruence. }
  destruct (negb (ce_tenantSlot env)); [eexists; by split_and!|].
  destruct (negb (ce_slot env)); [eexists; by split_and!|].
  destruct read as [data| | | |msg]; try (eexists; by split_and!).
  unfold relay. destruct (parseMessage _) as [[[h body] hdr]|e]; [|eexists; by split_and!].
  unfold checkCredential. rewrite Hrev. destruct (s_cred (m_session m)) as [c|]; simpl.
  - destruct (cv_StillValid _ c) as [previous|[]]; try (eexists; by split_and!). simpl. rewrite Hid. simpl.
    match goal with |- context [Send ?e ?n (request_of ?env ?s ?id ?raw ?h ?b ?hdr) ?g] =>
      pose proof (relayed_audit env s id raw h b hdr g) as Ha end.
    destruct (Send _ _ _ _) as [g o']. exact Ha.
  - rewrite Hid. pose proof (relayed_audit env (m_session m) id0 (stripBcc data) h body hdr (w_gateway (m_world m))) as Ha.
    destruct (Send _ _ _ _) as [g o']. exact Ha.
Qed.

End machine.

(** ** The reply to a message *)

(** Outcomes that a retry cannot change. *)
Definition permanent_outcome (o : SendOutcome) : Prop :=
  so_Status o = StatusDenied ∨ (so_Status o = StatusUpstreamError ∧ so_Permanent o = true).

(** A reply of the right class, with the message ID in its text. *)
Definition reply_fits (o : SendOutcome) (msgID : gostring) (e : SMTPError) : Prop :=
  (500 ≤ se_Code e < 600 ∧ permanent_outcome o ∨ 400 ≤ se_Code e < 500 ∧ ¬ permanent_outcome o) ∧
  fst (fst (se_Enhanced e)) = se_Code e / 100 ∧
  ∃ text, se_Message e = Text (text ++ id_suffix msgID).

Lemma reply_permanent (o : SendOutcome) (msgID text : gostring) (code : Z) (enh : Z * Z * Z) :
  permanent_outcome o → 500 ≤ code < 600 → fst (fst enh) = code / 100 →
  reply_fits o msgID (reply code enh (text ++ id_suffix msgID)).
Proof. unfold reply_fits. simpl. eauto 10. Qed.

Lemma reply_temporary (o : SendOutcome) (msgID text : gostring) (code : Z) (enh : Z * Z * Z) :
  ¬ permanent_outcome o → 400 ≤ code < 500 → fst (fst enh) = code / 100 →
  reply_fits o msgID (reply code enh (text ++ id_suffix msgID)).
Proof. unfold reply_fits. simpl. eauto 10. Qed.

(** The reply tells the client whether to retry: none for an accepted
    message and only then; a permanent 5xx exactly for a policy refusal or a
    permanent upstream rejection; a temporary 4xx exactly for everything else.
    The enhanced status code is of the same class, and the text ends with the
    message ID. *)
Theorem resultError_class (o : SendOutcome) (msgID : gostring) :
  match resultError o msgID with
  | None => so_Status o = StatusAccepted
  | Some e => so_Status o ≠ StatusAccepted ∧ reply_fits o msgID e
  end.
Proof.
  unfold resultError. destruct (so_Status o) eqn:Hs; [done|..].
  2-3,5-6: split; [done|]; apply reply_temporary; [intros [?|[? ?]]; congruence|lia|done].
  - destruct (so_DenyReason o) as [[]|];
      (split; [done|]; apply reply_permanent; [by left|lia|done]).
  - destruct (so_Permanent o) eqn:Hp; [split; [done|]; apply reply_permanent; [by right|lia|done]|].
    destruct (0 <? so_RetryAfter o);
      (split; [done|]; apply reply_temporary; [intros [?|[? ?]]; congruence|lia|done]).
Qed.

(** ** Pods *)

Definition live_pod (p : Pod) : bool := pod_Running p && negb (pod_Deleted p).

Lemma resolvePods_spec (pods : list Pod) (found : option Pod) :
  match resolvePods pods found with
  | Ok r => match found with
            | None => List.filter live_pod pods = match r with Some p => [p] | None => [] end
            | Some m => List.filter live_pod pods = [] ∧ r = Some m
            end
  | Err _ => (1 < length (List.filter live_pod pods) + if found then 1 else 0)%nat
  end.
Proof.
  revert found. induction pods as [|p pods IH]; intros found; [by destruct found|].
  cbn [resolvePods List.filter]. assert (live_pod p = negb (negb (pod_Running p) || pod_Deleted p)) as ->.
  { unfold live_pod. by destruct (pod_Running p). }
  destruct (negb (pod_Running p) || pod_Deleted p); cbn [negb]; [apply IH|].
  destruct found as [m|]; [cbn [length]; lia|]. specialize (IH (Some p)).
  destruct (resolvePods pods (Some p)) as [r|e]; [by destruct IH as [-> ->]|cbn [length]; lia].
Qed.

(** A source address identifies a caller only without doubt: [ResolveIP]
    answers exactly when one and only one of the pods indexed under the address
    is running and not being deleted, and with that pod's namespace, name,
    ServiceAccount and labels; with an index that lists a pod under the keys
    [IndexPodIP] gives it, that pod owns the address and is not on the host
    network. *)
Theorem resolve_ip_exact (list : gostring → option (list Pod)) (ip : gostring) (pid : PodIdentity) :
  (∀ k pods p, list k = Some pods → p ∈ pods → k ∈ IndexPodIP p) →
  ResolveIP list ip = Ok pid ↔
  ∃ pods p, list ip = Some pods ∧ List.filter live_pod pods = [p] ∧
    (pod_HostNetwork p = false ∧ (ip ∈ pod_PodIPs p ∨ ip = pod_PodIP p)) ∧
    pi_Namespace pid = pod_Namespace p ∧ pi_Name pid = pod_Name p ∧ pi_Labels pid = pod_Labels p ∧
    pi_ServiceAccount pid = (if pod_ServiceAccountName p == [] then lit "default" else pod_ServiceAccountName p).
Proof.
  intros Hidx. unfold ResolveIP. destruct (list ip) as [pods|] eqn:Hl; [|naive_solver].
  pose proof (resolvePods_spec pods None) as Hs.
  assert (∀ p, List.filter live_pod pods = [p] →
    pod_HostNetwork p = false ∧ (ip ∈ pod_PodIPs p ∨ ip = pod_PodIP p)) as Hown.
  { intros p Hp. assert (p ∈ pods) as Hin.
    { assert (List.In p (List.filter live_pod pods)) as [? _]%List.filter_In by (rewrite Hp; by left).
      by apply list_elem_of_In. }
    specialize (Hidx ip pods p Hl Hin). unfold IndexPodIP in Hidx.
    destruct (pod_HostNetwork p); simpl in Hidx; [by apply not_elem_of_nil in Hidx|].
    destruct (pod_PodIP p == []); [by apply not_elem_of_nil in Hidx|]. split; [done|].
    destruct (_ =? 0)%nat; [right; by apply list_elem_of_singleton in Hidx|by left]. }
  destruct (resolvePods pods None) as [[m|]|e].
  - destruct (Hown m Hs). split; [intros [= <-]; exists pods, m; by split_and!|].
    intros (pods' & p & [= <-] & Hp & _ & H1 & H2 & H3 & H4). rewrite Hs in Hp. simplify_eq.
    destruct pid; simpl in *. by subst.
  - split; [done|]. intros (pods' & p & [= <-] & Hp & _). rewrite Hs in Hp. done.
  - split; [done|]. intros (pods' & p & [= <-] & Hp & _). rewrite Hp in Hs. simpl in Hs. lia.
Qed.

(** Every read of a bounded transfer ends by the overall limit, and by the idle
    limit if there is one; without limits there is no deadline. *)
Lemma deadline_bounds (now : Time) (w : dataWindow) :
  0 < now → 0 ≤ dw_end w →
  (deadline now w = 0 ↔ dw_idle w ≤ 0 ∧ dw_end w = 0) ∧
  (dw_end w ≠ 0 → deadline now w ≤ dw_end w) ∧ (0 < dw_idle w → deadline now w ≤ now + dw_idle w).
Proof.
  intros Hn He. unfold deadline. destruct (Z.ltb_spec 0 (dw_idle w)); repeat case_bool_decide; simpl;
    destruct (Z.ltb_spec (dw_end w) (now + dw_idle w)); destruct (Z.ltb_spec (dw_end w) 0); simpl; lia.
Qed.

(** ** The LOGIN exchange *)

(** Both forms of the exchange end in one check of the username and password
    the client sent, and nothing after it is accepted. *)
Lemma login_exchange (username password extra : gostring) :
  let start := {| l_step := 0; l_username := [] |} in
  let '(l1, c1) := Next start [] in
  let '(l2, c2) := Next l1 username in
  let '(l3, a) := Next l2 password in
  c1 = Challenge (lit "Username:") ∧ c2 = Challenge (lit "Password:") ∧ a = Authenticate username password ∧
  snd (Next l3 extra) = UnexpectedResponse ∧
  (username ≠ [] → let '(l1, c1) := Next start username in
                   c1 = Challenge (lit "Password:") ∧ snd (Next l1 password) = Authenticate username password).
Proof.
  simpl. split_and!; [done..|]. intros Hu. unfold Next. simpl. destruct username; [done|]. done.
Qed.

(** What the audit stream gets of a client's username: nothing, or a string of
    lower-case letters, digits, hyphens and dots of bounded length. *)
Lemma auditUsername_safe (u : gostring) :
  auditUsername u = [] ∨ auditUsername u = u ∧ (length u ≤ 317)%nat ∧ Forall (λ c, auditUsernameByte c = true) u.
Proof.
  unfold auditUsername. destruct (Nat.ltb_spec 317 (length u)); [by left|].
  destruct (ParseUsername u); [|by left]. destruct (forallb auditUsernameByte u) eqn:Hf; [right|by left].
  split_and!; [done..|]. apply Forall_forall. by apply forallb_elem.
Qed.

(** ** The verifier as the session's interface *)

Record VerifierEnv := { ve_get : reader; ve_now : Time; ve_slot : bool }.

#[export] Instance verifier {C} `{MetaConditions, Hashes, LRU C} : CredentialVerifier VerifierEnv C := {|
  cv_Lookup e username := Lookup (ve_get e) username;
  cv_Check e mc password c := Check (ve_now e) (ve_slot e) mc password c;
  cv_StillValid e r := StillValid (ve_get e) (ve_now e) r |}.

(** The informer cache answers with objects of the namespace it is asked for. *)
Definition sane_reader (e : VerifierEnv) : Prop :=
  ∀ ns name mc, ve_get e ns name = Ok mc → mc_Namespace mc = ns.

#[export] Instance verifier_laws {C} `{MetaConditionsLaws, Hashes, LRU C} :
  CredentialVerifierLaws VerifierEnv C sane_reader.
Proof.
  constructor. simpl. intros e username mc password c c' r Hsane Hl Hc.
  destruct (fresh_login_confirmed (ve_get e) (ve_now e) (ve_slot e) username password c r) as (previous & Hv & _).
  - unfold Verify. by rewrite Hl, Hc.
  - exact Hsane.
  - eauto.
Qed.

Section interface.
Context `{AddressParser, UnicodeTables, LabelMatcher, K8sNames, UUIDs, X509, Limiter L}.
Context `{MailReader, MIMEReader, CredentialVerifierLaws E V sane}.

(** Against any verifier that keeps its promise: a client whose credential
    login was just accepted can submit.  MAIL with any plain address, in the same
    environment, is accepted, and the session acts as the credential's
    ServiceAccount. *)
Theorem login_then_mail (o : Options) (env : CallEnv E) (username password from : gostring) (m : machine L V) :
  session_reachable o m → sane (ce_verifier env) → plain_address from → from ≠ [] →
  snd (exec o env (CmdLogin username password) m) = None →
  let m1 := fst (exec o env (CmdLogin username password) m) in
  let '(m2, e) := exec o env (CmdMail from) m1 in
  e = None ∧ s_from (m_session m2) = from ∧
  ∃ mc r v id, cv_Lookup (ce_verifier env) username = Ok mc ∧
    cv_Check (ce_verifier env) mc password (w_verifier (m_world m)) = (v, Ok r) ∧
    s_identity (m_session m2) = Some id ∧ identity_of_cred id r.
Proof.
  intros Hok%session_reachable_ok Hsane Hfrom Hne. cbn [exec].
  destruct (auth_gate o Login m) eqn:Hg; [done|]. apply gate_open in Hg.
  pose proof (login_cases o env username password (m_session m) (m_world m)) as Hl.
  destruct (credentialLogin _ _ _ _ _ _) as [[[s1 w1] e] d]. destruct Hl as [_ Hl].
  unfold after_auth. simpl. intros He. destruct e as [e|]; [done|].
  destruct Hl as (mc & r & v & Hl & Hc & -> & ->).
  destruct (cv_fresh _ _ _ _ _ _ _ Hsane Hl Hc) as [previous Hv].
  destruct (session_unauthenticated m Hok Hg) as [_ Hrev].
  unfold Mail, checkCredential. simpl. rewrite Hrev, Hv. simpl. unfold mailFrom.
  rewrite bool_decide_false by done. rewrite !Hfrom. simpl.
  split_and!; [done..|]. exists mc, r, v. eexists. split; [done|]. split; [done|]. split; [reflexivity|]. done.
Qed.

End interface.

(** ** The relayed bytes *)

Section relayed.
Context `{AddressParser, UnicodeTables, LabelMatcher, K8sNames, UUIDs, X509, Limiter L}.
Context `{MailReader, MIMEReader, CredentialVerifier E V}.

Definition proto_of (authMethod : gostring) (tls : bool) : gostring :=
  lit "ESMTP" ++ (if tls then lit "S" else [])
  ++ (if (authMethod == AuthOAuthBearer) || (authMethod == AuthSMTPCredential) then lit "A" else []).

(** The two lines of the trace field. *)
Definition received_lines (date remoteIP msgID authMethod : gostring) (tls : bool) : list gostring :=
  [(lit "Received: from [" ++ remoteIP ++ lit "] by sigillum with " ++ proto_of authMethod tls ++ lit " id " ++ msgID
      ++ lit ";") ++ crlf; ([TAB] ++ date) ++ crlf].

Definition origination_domain (from : gostring) : gostring :=
  match LastIndexByte from "@" with
  | Some at_ => if (at_ <? length from - 1)%nat then drop (at_ + 1) from else lit "sigillum.local"
  | None => lit "sigillum.local"
  end.

(** The origination fields that are added, a line each. *)
Definition added_lines (date : gostring) (h : MIMEHeader) (msgID from : gostring) : list gostring :=
  (if Get h (lit "Date") == [] then [(lit "Date: " ++ date) ++ crlf] else [])
  ++ (if Get h (lit "Message-ID") == []
      then [(lit "Message-ID: <" ++ msgID ++ lit "@" ++ origination_domain from ++ lit ">") ++ crlf] else []).

Lemma received_concat (date remoteIP msgID authMethod : gostring) (tls : bool) :
  receivedHeader date remoteIP msgID authMethod tls = concat (received_lines date remoteIP msgID authMethod tls).
Proof. unfold receivedHeader, received_lines, proto_of. cbn [concat]. by rewrite app_nil_r, <- !app_assoc. Qed.

Lemma added_concat (date : gostring) (h : MIMEHeader) (msgID from : gostring) :
  missingOriginationHeaders date h msgID from = concat (added_lines date h msgID from).
Proof.
  unfold missingOriginationHeaders, added_lines. rewrite concat_app. f_equal; case_match; cbn [concat];
    by rewrite ?app_nil_r, <- ?app_assoc.
Qed.

Definition no_LF (s : gostring) : Prop := LF ∉ s.

Lemma no_LF_app (a b : gostring) : no_LF a → no_LF b → no_LF (a ++ b).
Proof. unfold no_LF. rewrite elem_of_app. tauto. Qed.

(** A literal is free of line feeds if a computation says so. *)
Lemma no_LF_lit (s : gostring) : elem LF s = false → no_LF s.
Proof. unfold no_LF. rewrite <- elem_spec. congruence. Qed.

Lemma no_LF_suffix (n : nat) (s : gostring) : no_LF s → no_LF (drop n s).
Proof. unfold no_LF. intros Hs Hin. apply Hs. rewrite <- (take_drop n s). by apply elem_of_app; right. Qed.

(** A header line: text without line feeds that starts with some other byte
    than a carriage return, then CRLF. *)
Lemma text_line (t : gostring) :
  match t with [] => False | c :: _ => c ≠ CR end → no_LF t → complete (t ++ crlf) ∧ blank (t ++ crlf) = false.
Proof.
  destruct t as [|c s]; [done|]. intros Hc Hs. change crlf with ([CR] ++ [LF]). rewrite app_assoc.
  apply (header_line c (s ++ [CR])); [done|]. apply (no_LF_app (c :: s) [CR]); [done|by apply no_LF_lit].
Qed.

Create HintDb no_LF.
#[local] Hint Resolve no_LF_app : no_LF.
#[local] Hint Extern 5 (no_LF _) => apply no_LF_lit; reflexivity : no_LF.

Lemma received_ok (date remoteIP msgID authMethod : gostring) (tls : bool) :
  no_LF date → no_LF remoteIP → no_LF msgID →
  Forall (λ l, complete l ∧ blank l = false) (received_lines date remoteIP msgID authMethod tls).
Proof.
  intros Hd Hr Hm. assert (no_LF (proto_of authMethod tls)) as Hp
    by (unfold proto_of; repeat apply no_LF_app; repeat case_match; apply no_LF_lit; reflexivity).
  unfold received_lines. repeat apply Forall_cons_2; [..|by apply Forall_nil_2].
  all: apply text_line; [done|eauto 10 with no_LF].
Qed.

Lemma domain_ok (from : gostring) : no_LF from → no_LF (origination_domain from).
Proof. intros Hf. unfold origination_domain. repeat case_match; try (apply no_LF_lit; reflexivity). by apply no_LF_suffix. Qed.

Lemma added_ok (date : gostring) (h : MIMEHeader) (msgID from : gostring) :
  no_LF date → no_LF msgID → no_LF from →
  Forall (λ l, complete l ∧ blank l = false) (added_lines date h msgID from) ∧
  Forall (λ l, continuation l = false) (added_lines date h msgID from).
Proof.
  intros Hd Hm Hf%domain_ok. unfold added_lines. rewrite !Forall_app.
  split; split; case_match; repeat (apply Forall_cons_2 || apply Forall_nil_2); try done.
  all: apply text_line; [done|eauto 10 with no_LF].
Qed.

Lemma mailbox_no_LF (a : gostring) : ValidateMailbox a = Ok () → no_LF a.
Proof.
  intros (local & domain & -> & Hl & Hd)%ValidateMailbox_parts. apply dot_atom_spec in Hl as (_ & _ & Hl).
  apply no_LF_app; [by intros Hin%Hl|]. intros [Hc|Hin]%elem_of_cons; [done|].
  destruct (ValidateDomain_byte _ _ Hd Hin) as [Hx|[Hx|Hx]]; by vm_compute in Hx.
Qed.

Lemma kept_started (data body : gostring) (hs : list gostring) :
  header_of data hs body → continuation data = false →
  Forall (λ f, starts_continued f = false) (fields (without_bcc hs)).
Proof.
  intros (-> & Hhs & _) Hc. rewrite fields_without_bcc. apply Forall_kept, fields_started.
  destruct hs as [|l hs]; [done|]. apply Forall_cons in Hhs as [[(m & _ & ->) _] _]. by destruct m.
Qed.


End relayed.

(** ** A session, command by command *)

Module SessionExample.
#[local] Existing Instances plain_parser ascii_tables matchLabelsOnly simple_names no_uuids any_certificate from_only
  list_conditions toy_hashes list_lru.

(** No multipart bodies, no transfer encoding. *)
Definition no_mime : MIMEReader := {|
  ParseMediaType := λ _, None; RawParts := λ _ _, None;
  DecodedLen := λ _ body, Some (Z.of_nat (length body), Z.of_nat (length body)) |}.
#[local] Existing Instance no_mime.

Definition opts : Options := {|
  o_Credentials := true; o_AllowInsecureCredentialAuth := false; o_AuthFailures := true; o_Tokens := true; o_Pods := false |}.

Definition call (get : reader) : CallEnv VerifierEnv := {|
  ce_env := example_env good_driver; ce_now := 100 * Second; ce_id := lit "id-1"; ce_date := lit "Mon, 02 Jan 2006";
  ce_verifier := {| ve_get := get; ve_now := 50; ve_slot := true |}; ce_turn := TurnGranted;
  ce_token := λ _, Err TokenRejected; ce_pods := λ _, None; ce_tenantSlot := true; ce_slot := true; ce_maxLine := 1000 |}.

Definition deleted : reader := λ _ _, Err GetNotFound.

Definition start : machine MemoryLimiter (list (gostring * Time)) :=
  Build_machine (NewSession (lit "10.0.0.1") true) (Build_world example_gateway []) false.
Definition logged_in := fst (exec opts (call example_reader) (CmdLogin (lit "app.team") (lit "new")) start).
Definition revoked := fst (exec opts (call deleted) (CmdMail (lit "app@corp.example")) logged_in).
Definition message : DataRead :=
  DataComplete (lit "From: app@corp.example" ++ crlf ++ lit "Bcc: x@corp.example" ++ crlf ++ crlf ++ lit "hi").

Lemma start_reachable : session_reachable opts start.
Proof. apply session_new. Qed.

Lemma logged_in_reachable : session_reachable opts logged_in.
Proof. apply session_exec, start_reachable. Qed.

Lemma revoked_reachable : session_reachable opts revoked.
Proof. apply session_exec, logged_in_reachable. Qed.

Lemma session_invariant_witness : session_ok revoked.
Proof. apply (session_invariant opts). apply revoked_reachable. Defined.

Lemma data_sends_as_caller_witness :
  let '(s', w', e) := Data (call example_reader) message (m_session logged_in) (m_world logged_in) in
  (no_send (w_gateway (m_world logged_in)) (w_gateway w') ∧ e ≠ None) ∨
  ∃ data, message = DataComplete data ∧
    sent_by (call example_reader) (m_session logged_in) (m_world logged_in) data w' e.
Proof. apply (data_sends_as_caller opts). apply logged_in_reachable. Defined.

Lemma revoked_is_final_witness :
  s_revoked (m_session revoked) = true ∧
  let l := [(call example_reader, CmdMail (lit "app@corp.example")); (call example_reader, CmdData message)] in
  let '(m', es) := exec_all opts l revoked in
  s_revoked (m_session m') = true ∧ gw_sent (w_gateway (m_world m')) = gw_sent (w_gateway (m_world revoked)) ∧
  Forall2 (λ c e, match snd c with CmdRcpt _ | CmdReset => True | _ => e ≠ None end) l es.
Proof.
  split; [vm_compute; reflexivity|]. apply (revoked_is_final opts); [apply revoked_reachable|vm_compute; reflexivity].
Defined.

Lemma data_one_audit_record_witness :
  let '(s', w', e) := Data (call example_reader) message (m_session logged_in) (m_world logged_in) in
  ∃ ev, gw_audit (w_gateway w') = gw_audit (w_gateway (m_world logged_in)) ++ [ev] ∧
    ev_MessageID ev = ce_id (call example_reader) ∧ (ev_Decision ev = DecisionAccept ↔ e = None).
Proof.
  apply (data_one_audit_record opts); [apply logged_in_reachable|]. eexists. vm_compute. reflexivity.
Defined.

Lemma login_then_mail_witness :
  let '(m2, e) := exec opts (call example_reader) (CmdMail (lit "app@corp.example")) logged_in in
  e = None ∧ s_from (m_session m2) = lit "app@corp.example" ∧
  ∃ mc r v id, cv_Lookup (ce_verifier (call example_reader)) (lit "app.team") = Ok mc ∧
    cv_Check (ce_verifier (call example_reader)) mc (lit "new") (w_verifier (m_world start)) = (v, Ok r) ∧
    s_identity (m_session m2) = Some id ∧ identity_of_cred id r.
Proof.
  apply (@login_then_mail _ _ _ _ _ _ _ _ _ _ _ _ _ sane_reader verifier_laws opts (call example_reader) (lit "app.team") (lit "new") (lit "app@corp.example") start).
  - apply start_reachable.
  - intros ns name mc. simpl. unfold example_reader. destruct (_ && _) eqn:E; [|done]. intros [= <-].
    apply andb_true_iff in E as [->%bool_decide_eq_true _]. reflexivity.
  - vm_compute. reflexivity.
  - discriminate.
  - vm_compute. reflexivity.
Defined.


Definition example_pod (name : gostring) (running : bool) : Pod := {|
  pod_Namespace := lit "team"; pod_Name := name; pod_ServiceAccountName := []; pod_Labels := ∅; pod_HostNetwork := false;
  pod_PodIP := lit "10.0.0.1"; pod_PodIPs := []; pod_Running := running; pod_Deleted := false |}.

Definition example_index : gostring → option (list Pod) := λ ip,
  Some (if ip == lit "10.0.0.1" then [example_pod (lit "old") false; example_pod (lit "new") true] else []).

Lemma resolve_ip_exact_witness :
  ∃ pid, ResolveIP example_index (lit "10.0.0.1") = Ok pid ∧ pi_ServiceAccount pid = lit "default".
Proof.
  eexists {| pi_Namespace := lit "team"; pi_Name := lit "new"; pi_ServiceAccount := lit "default"; pi_Labels := ∅ |}.
  split; [|reflexivity]. apply (resolve_ip_exact example_index).
  - intros k pods p [= <-]. case_bool_decide as Hk; [|by intros ?%not_elem_of_nil]. rewrite Hk.
    intros [->|[->|[]%not_elem_of_nil]%elem_of_cons]%elem_of_cons; vm_compute; left.
  - exists [example_pod (lit "old") false; example_pod (lit "new") true], (example_pod (lit "new") true).
    split_and!; [reflexivity..| |reflexivity|reflexivity|reflexivity|reflexivity]. by right.
Defined.

End SessionExample.
