(* ===== verification/CredController.v ===== *)
(** * The MailCredential controller (internal/controller/mailcredential_controller.go)

    One [Reconcile] issues or rotates a generated password: it writes the
    password to a Secret and its hash to the object's status, never reading a
    Secret.  The API server's Secrets are the parameter [SecretAPI] (with what
    Kubernetes documents of create and of a JSON patch with test operations);
    what else a run reads, and how its status writes are answered, is its
    environment.  [issued_password_logs_in] connects the controller to the
    verifier of the SMTP front end (Verifier.v). *)

From S2P Require Import Prelude GoStrings Types Credential Verifier Webhook Resolver.

(** ** Answers of the API server *)

Inductive APIError :=
| NotFound | AlreadyExists | Conflict | Invalid | Forbidden | ServerTimeout | APITimeout | TooManyRequests
| ServiceUnavailable | InternalError | UnexpectedServerError | OtherStatus | NoStatus.

#[global] Instance APIError_eq_dec : EqDecision APIError.
Proof. solve_decision. Defined.

Definition transient (e : APIError) : bool :=
  match e with
  | NoStatus => true
  | Conflict | ServerTimeout | APITimeout | TooManyRequests | ServiceUnavailable | InternalError
  | UnexpectedServerError => true
  | _ => false
  end.

(** A Secret, as far as the controller writes it. *)
Record Secret := {
  sec_Labels : gmap gostring gostring; sec_Annotations : gmap gostring gostring;
  sec_Owners : list OwnerReference; sec_Type : gostring; sec_Data : gmap gostring gostring }.

Definition secret_key := (gostring * gostring)%type.

(** Creating a Secret, and the JSON patch that tests the label and the UID
    annotation before it replaces the data. *)
Class SecretAPI (St : Type) := {
  api_secrets : St → gmap secret_key Secret;
  api_create : secret_key → Secret → St → St * option APIError;
  api_patch : secret_key → gostring → gostring → gmap gostring gostring → St → St * option APIError }.

Definition set_data (d : gmap gostring gostring) (s : Secret) : Secret :=
  {| sec_Labels := sec_Labels s; sec_Annotations := sec_Annotations s; sec_Owners := sec_Owners s;
     sec_Type := sec_Type s; sec_Data := d |}.

(** The tests of the patch hold. *)
Definition owned_by (name uid : gostring) (s : Secret) : Prop :=
  sec_Labels s !! CredentialLabel = Some name ∧ sec_Annotations s !! CredentialUIDAnnotation = Some uid.

(** Creation succeeds only where there is no Secret; a patch succeeds only if
    its tests hold, and a refused one (Invalid) changes nothing.  A call that
    fails otherwise may or may not have been applied, but changes no other
    Secret and none whose tests fail. *)
Class SecretAPILaws (St : Type) `{SecretAPI St} := {
  create_ok : ∀ k v s s', api_create k v s = (s', None) →
    api_secrets s !! k = None ∧ api_secrets s' = <[k := v]> (api_secrets s);
  create_failed : ∀ k v s s' e, api_create k v s = (s', Some e) →
    api_secrets s' = api_secrets s ∨
    (e ≠ AlreadyExists ∧ api_secrets s !! k = None ∧ api_secrets s' = <[k := v]> (api_secrets s));
  patch_ok : ∀ k name uid d s s', api_patch k name uid d s = (s', None) →
    ∃ v, api_secrets s !! k = Some v ∧ owned_by name uid v ∧ api_secrets s' = <[k := set_data d v]> (api_secrets s);
  patch_failed : ∀ k name uid d s s' e, api_patch k name uid d s = (s', Some e) →
    api_secrets s' = api_secrets s ∨
    (e ≠ Invalid ∧ ∃ v, api_secrets s !! k = Some v ∧ owned_by name uid v ∧
       api_secrets s' = <[k := set_data d v]> (api_secrets s)) }.

(** [meta.RemoveStatusCondition] *)
Class RemoveCondition := { RemoveStatusCondition : list Condition → gostring → list Condition }.
Class RemoveConditionLaws `{RemoveCondition} := {
  remove_condition : ∀ cs t, RemoveStatusCondition cs t = List.filter (λ c, c_Type c != t) cs }.

(** The wording of errors that end up in a condition. *)
Class ErrorTexts := {
  phc_text : PHCError → gostring;
  rotation_text : list RotationError → gostring;
  api_text : APIError → gostring }.

#[global] Instance CredentialHash_eq_dec : EqDecision CredentialHash.
Proof. solve_decision. Defined.
#[global] Instance PreviousCredentialHash_eq_dec : EqDecision PreviousCredentialHash.
Proof. solve_decision. Defined.
#[global] Instance MailCredentialStatus_eq_dec : EqDecision MailCredentialStatus.
Proof. solve_decision. Defined.

(** ** Rotation *)

(** Why a password must be written, if it must. *)
Definition rotationDue (mc : MailCredential) (now : Time) (interval : Duration) : option gostring :=
  let st := mc_Status mc in
  match mcst_Current st with
  | None => Some (lit "initial")
  | Some cur =>
      if mcst_SecretName st != mcs_SecretName (mc_Spec mc) then Some (lit "secretName changed")
      else
        let v := default [] (om_Annotations (mc_Meta mc) !! RotateAnnotation) in
        if (v != []) && (v != mcst_LastRotateRequest st) then Some (lit "rotation requested")
        else if (0 <? interval) && (ch_CreatedAt cur + interval <=? now) then Some (lit "rotation interval elapsed")
        else None
  end.

Definition minPositive (a b : Duration) : Duration :=
  if a <=? 0 then b else if (b <=? 0) || (a <? b) then a else b.

Definition nextCredentialEvent (st : MailCredentialStatus) (now : Time) (interval : Duration) : Duration :=
  let next := match mcst_Previous st with
              | Some p => minPositive 0 (time_sub (ph_ValidUntil p) now + Second)
              | None => 0
              end in
  match mcst_Current st with
  | Some cur => if 0 <? interval then minPositive next (time_sub (ch_CreatedAt cur + interval) now + Second) else next
  | None => next
  end.

Definition secretConflictRequeue : Duration := Minute.
Definition guardMissingRequeue : Duration := 5 * Minute.

(** ** Updating fields of the status *)

Definition set_identity_fields (mc : MailCredential) (st : MailCredentialStatus) : MailCredentialStatus :=
  {| mcst_Username := Username (mc_Name mc) (mc_Namespace mc); mcst_SecretName := mcst_SecretName st;
     mcst_ServiceAccountName := mcst_ServiceAccountName st; mcst_Current := mcst_Current st;
     mcst_Previous := mcst_Previous st; mcst_LastRotateRequest := mcst_LastRotateRequest st;
     mcst_Conditions := mcst_Conditions st; mcst_ObservedGeneration := om_Generation (mc_Meta mc) |}.

Definition set_passwords (secretName : gostring) (cur : option CredentialHash) (prev : option PreviousCredentialHash)
    (st : MailCredentialStatus) : MailCredentialStatus :=
  {| mcst_Username := mcst_Username st; mcst_SecretName := secretName;
     mcst_ServiceAccountName := mcst_ServiceAccountName st; mcst_Current := cur; mcst_Previous := prev;
     mcst_LastRotateRequest := mcst_LastRotateRequest st; mcst_Conditions := mcst_Conditions st;
     mcst_ObservedGeneration := mcst_ObservedGeneration st |}.

Definition set_rotate_request (v : gostring) (st : MailCredentialStatus) : MailCredentialStatus :=
  {| mcst_Username := mcst_Username st; mcst_SecretName := mcst_SecretName st;
     mcst_ServiceAccountName := mcst_ServiceAccountName st; mcst_Current := mcst_Current st;
     mcst_Previous := mcst_Previous st; mcst_LastRotateRequest := v; mcst_Conditions := mcst_Conditions st;
     mcst_ObservedGeneration := mcst_ObservedGeneration st |}.

Definition set_account (sa : gostring) (st : MailCredentialStatus) : MailCredentialStatus :=
  {| mcst_Username := mcst_Username st; mcst_SecretName := mcst_SecretName st;
     mcst_ServiceAccountName := sa; mcst_Current := mcst_Current st;
     mcst_Previous := mcst_Previous st; mcst_LastRotateRequest := mcst_LastRotateRequest st;
     mcst_Conditions := mcst_Conditions st; mcst_ObservedGeneration := mcst_ObservedGeneration st |}.

Definition set_conditions (cs : list Condition) (st : MailCredentialStatus) : MailCredentialStatus :=
  {| mcst_Username := mcst_Username st; mcst_SecretName := mcst_SecretName st;
     mcst_ServiceAccountName := mcst_ServiceAccountName st; mcst_Current := mcst_Current st;
     mcst_Previous := mcst_Previous st; mcst_LastRotateRequest := mcst_LastRotateRequest st;
     mcst_Conditions := cs; mcst_ObservedGeneration := mcst_ObservedGeneration st |}.

Definition with_status (st : MailCredentialStatus) (mc : MailCredential) : MailCredential :=
  {| mc_Meta := mc_Meta mc; mc_Spec := mc_Spec mc; mc_Status := st |}.

(** What the API server keeps of a status: a [metav1.Time] is written as RFC 3339
    text, in whole seconds. *)
Definition whole_seconds (t : Time) : Time := t / Second * Second.

Definition stored_condition (c : Condition) : Condition := with_transition c (whole_seconds (c_LastTransitionTime c)).

Definition stored (st : MailCredentialStatus) : MailCredentialStatus :=
  {| mcst_Username := mcst_Username st; mcst_SecretName := mcst_SecretName st;
     mcst_ServiceAccountName := mcst_ServiceAccountName st;
     mcst_Current := (λ c, {| ch_Hash := ch_Hash c; ch_CreatedAt := whole_seconds (ch_CreatedAt c) |}) <$> mcst_Current st;
     mcst_Previous := (λ p, {| ph_Hash := ph_Hash p; ph_ValidUntil := whole_seconds (ph_ValidUntil p) |}) <$> mcst_Previous st;
     mcst_LastRotateRequest := mcst_LastRotateRequest st; mcst_Conditions := stored_condition <$> mcst_Conditions st;
     mcst_ObservedGeneration := mcst_ObservedGeneration st |}.

(** ** A run *)

Record Reconciler := {
  rc_Exclusions : Exclusions; rc_GeneratedEnabled : bool; rc_SMTPHost : gostring; rc_SMTPPort : Z }.

Inductive SALookup := SAFound | SANotFound | SAFailed (e : APIError).

(** One attempt of the retry loop: the fresh object, the answer to the status
    write, and whether the context had ended. *)
Record StatusAttempt := {
  sa_get : res APIError MailCredential; sa_update : option APIError; sa_cancelled : bool }.

Record ReconcileEnv := {
  en_now : Time;
  en_cached : res APIError MailCredential;       (* the informer cache *)
  en_fresh : res APIError MailCredential;        (* the API server *)
  en_account : SALookup;
  en_guard : bool * gostring;                    (* the guard's verdict before a write *)
  en_guard_end : bool * gostring;                (* and when the conditions are set *)
  en_password : option gostring;                 (* the generated password; None: no randomness *)
  en_update : option APIError;                   (* the first status write *)
  en_retry : nat → StatusAttempt }.

(** The outcome of the checks: still open, or finished with a condition. *)
Record Verdict := { vd_Ready : ConditionStatus; vd_Reason : gostring; vd_Message : gostring }.

Record Outcome (St : Type) := {
  oc_Secrets : St;
  oc_Written : option MailCredentialStatus;      (* the status that reached the API server *)
  oc_Requeue : Duration;
  oc_Error : option APIError;
  oc_Issued : option gostring }.                 (* the password put into the Secret *)
Arguments oc_Secrets {St} _. Arguments oc_Written {St} _. Arguments oc_Requeue {St} _.
Arguments oc_Error {St} _. Arguments oc_Issued {St} _. Arguments Build_Outcome {St} _ _ _ _ _.

Section reconcile.
Context `{SecretAPI St, RemoveCondition, ErrorTexts, K8sNames, Hashes, FloatNanos}.

Definition credentialData (r : Reconciler) (username password : gostring) : gmap gostring gostring :=
  <[CredentialSecretUsernameKey := username]> (<[CredentialSecretPasswordKey := password]>
  (<[CredentialSecretHostKey := rc_SMTPHost r]> {[CredentialSecretPortKey := Itoa (rc_SMTPPort r)]})).

Definition credentialSecret (r : Reconciler) (mc : MailCredential) (username password : gostring) : Secret :=
  {| sec_Labels := {[CredentialLabel := mc_Name mc]};
     sec_Annotations := {[CredentialUIDAnnotation := om_UID (mc_Meta mc)]};
     sec_Owners := [{| or_APIVersion := GroupVersion; or_Kind := lit "MailCredential"; or_Name := mc_Name mc; or_UID := om_UID (mc_Meta mc);
                       or_Controller := true |}];
     sec_Type := lit "Opaque"; sec_Data := credentialData r username password |}.

Definition secretKey (mc : MailCredential) : secret_key := (mc_Namespace mc, mcs_SecretName (mc_Spec mc)).

(** The Secrets after it, whether the name is taken, and the error. *)
Definition writeSecret (r : Reconciler) (mc : MailCredential) (username password : gostring) (s : St)
    : St * bool * option APIError :=
  let '(s, err) := api_create (secretKey mc) (credentialSecret r mc username password) s in
  if err != Some AlreadyExists then (s, false, err)
  else
    let '(s, err) := api_patch (secretKey mc) (mc_Name mc) (om_UID (mc_Meta mc)) (credentialData r username password) s in
    (s, err == Some Invalid, err).

Definition rotationSettings (rot : option CredentialRotation) := ParseRotation rot.

Definition rotationLooksDue (mc : MailCredential) (now : Time) : bool :=
  if negb (Generated mc) then false
  else
    let interval := match rotationSettings (mcs_Rotation (mc_Spec mc)) with Ok (i, _) => i | Err _ => 0 end in
    rotationDue mc now interval != None.

Definition failed (reason msg : gostring) : Verdict :=
  {| vd_Ready := ConditionFalse; vd_Reason := reason; vd_Message := msg |}.

(** The checks of the spec before the ServiceAccount is looked up: the status,
    the verdict if there is one, the interval and the grace period. *)
Definition checkSpec (r : Reconciler) (mc : MailCredential) (st : MailCredentialStatus)
    : MailCredentialStatus * option Verdict * Duration * Duration :=
  if Excluded (rc_Exclusions r) (mc_Namespace mc) then
    (st, Some (failed ReasonNamespaceExcluded (lit "namespace " ++ mc_Namespace mc ++ lit " may not hold mail credentials")), 0, 0)
  else if negb (Generated mc) then
    let st := set_passwords [] None None st in
    match ParseArgon2id (mcs_PasswordHash (mc_Spec mc)) with
    | Err e => (st, Some (failed ReasonInvalidConfiguration (lit "spec.passwordHash: " ++ phc_text e)), 0, 0)
    | Ok _ =>
        if (mcs_SecretName (mc_Spec mc) != []) || bool_decide (is_Some (mcs_Rotation (mc_Spec mc))) then
          (st, Some (failed ReasonInvalidConfiguration "spec.passwordHash cannot be combined with spec.secretName or spec.rotation"), 0, 0)
        else (st, None, 0, 0)
    end
  else
    let st' := match mcst_Current st with
               | Some cur => if negb (IsGeneratedHash (ch_Hash cur)) then set_passwords (mcst_SecretName st) None None st else st
               | None => st
               end in
    if mcs_SecretName (mc_Spec mc) == [] then
      (st', Some (failed ReasonInvalidConfiguration "set spec.secretName (generated mode) or spec.passwordHash (bring your own hash)"), 0, 0)
    else if GeneratedNameError (mc_Name mc) != [] then
      (st', Some (failed ReasonInvalidConfiguration (GeneratedNameError (mc_Name mc))), 0, 0)
    else match rotationSettings (mcs_Rotation (mc_Spec mc)) with
         | Err e => (st', Some (failed ReasonInvalidConfiguration (rotation_text e)), 0, 0)
         | Ok (interval, grace) => (st', None, interval, grace)
         end.

(** Bring your own hash: the hash is accepted into the status. *)
Definition acceptHash (mc : MailCredential) (now : Time) (accepted : option CredentialHash) (st : MailCredentialStatus)
    : MailCredentialStatus :=
  let hash := mcs_PasswordHash (mc_Spec mc) in
  let created := match accepted with
                 | Some a => if ch_Hash a == hash then ch_CreatedAt a else now
                 | None => now
                 end in
  set_passwords (mcst_SecretName st) (Some {| ch_Hash := hash; ch_CreatedAt := created |}) (mcst_Previous st) st.

(** The status after a new password was written. *)
Definition issued (mc : MailCredential) (now : Time) (grace : Duration) (password : gostring) (st : MailCredentialStatus)
    : MailCredentialStatus :=
  let prev := match mcst_Current st with
              | Some cur => if 0 <? grace then Some {| ph_Hash := ch_Hash cur; ph_ValidUntil := now + grace |} else None
              | None => None
              end in
  set_rotate_request (default [] (om_Annotations (mc_Meta mc) !! RotateAnnotation))
    (set_passwords (mcs_SecretName (mc_Spec mc)) (Some {| ch_Hash := HashGenerated password; ch_CreatedAt := now |}) prev st).

Definition dropExpired (now : Time) (st : MailCredentialStatus) : MailCredentialStatus :=
  match mcst_Previous st with
  | Some p => if ph_ValidUntil p <=? now then set_passwords (mcst_SecretName st) (mcst_Current st) None st else st
  | None => st
  end.

Definition readyMessage (st : MailCredentialStatus) : gostring :=
  lit "credential ready; password in Secret " ++ mcst_SecretName st.

(** A failed rotation keeps a credential whose password is still in place. *)
Definition keepOrFail (st : MailCredentialStatus) (reason msg : gostring) : Verdict :=
  if bool_decide (is_Some (mcst_Current st)) && (mcst_SecretName st != []) then
    {| vd_Ready := ConditionTrue; vd_Reason := ReasonReady;
       vd_Message := lit "password in Secret " ++ mcst_SecretName st ++ lit " still valid, but rotation failed: " ++ msg |}
  else failed reason msg.

Definition conflictText (mc : MailCredential) : gostring :=
  lit "Secret " ++ mc_Namespace mc ++ lit "/" ++ mcs_SecretName (mc_Spec mc)
  ++ lit " exists and is not owned by this MailCredential (only a Secret with the label " ++ CredentialLabel ++ lit "="
  ++ mc_Name mc ++ lit " and the annotation " ++ CredentialUIDAnnotation ++ lit "=" ++ om_UID (mc_Meta mc)
  ++ lit " is updated); set spec.secretName to an unused name, or delete that Secret if nothing else uses it".

(** Generated mode: status, verdict, requeue, error, Secrets, password written;
    [None]: no password could be generated. *)
Definition generatedStep (r : Reconciler) (env : ReconcileEnv) (mc : MailCredential) (interval grace : Duration)
    (st : MailCredentialStatus) (s : St)
    : option (MailCredentialStatus * Verdict * Duration * option APIError * St * option gostring) :=
  let now := en_now env in
  let st := dropExpired now st in
  let ready st := {| vd_Ready := ConditionTrue; vd_Reason := ReasonReady; vd_Message := readyMessage st |} in
  let out st v requeue err s p :=
    Some (st, v, minPositive requeue (nextCredentialEvent st now interval), err, s, p) in
  if negb (rc_GeneratedEnabled r) then
    out st (failed ReasonGeneratedModeDisabled
              "generated credentials are disabled (chart credentials.enabled=false); use spec.passwordHash") 0 None s None
  else match rotationDue (with_status st mc) now interval with
       | None => out st (ready st) 0 None s None
       | Some _ =>
           if negb (fst (en_guard env)) then
             out st (keepOrFail st ReasonGuardMissing (snd (en_guard env))) guardMissingRequeue None s None
           else match en_password env with
                | None => None
                | Some password =>
                    match writeSecret r mc (mcst_Username st) password s with
                    | (s, true, _) => out st (keepOrFail st ReasonSecretConflict (conflictText mc)) secretConflictRequeue None s None
                    | (s, false, Some e) => out st (keepOrFail st ReasonSecretWriteFailed (api_text e)) 0 (Some e) s None
                    | (s, false, None) => let st := issued mc now grace password st in out st (ready st) 0 None s (Some password)
                    end
                end
       end.

(** The conditions of the new status. *)
Definition conditionsFor (r : Reconciler) (env : ReconcileEnv) (mc : MailCredential) (v : Verdict) (cs : list Condition)
    : list Condition :=
  let cs :=
    if Generated mc && rc_GeneratedEnabled r then
      setCondition cs
        (if fst (en_guard_end env)
         then {| c_Type := ConditionSecretsManaged; c_Status := ConditionTrue; c_LastTransitionTime := en_now env;
                 c_ObservedGeneration := om_Generation (mc_Meta mc); c_Reason := ReasonReady;
                 c_Message := "credential Secret guard verified" |}
         else {| c_Type := ConditionSecretsManaged; c_Status := ConditionFalse; c_LastTransitionTime := en_now env;
                 c_ObservedGeneration := om_Generation (mc_Meta mc); c_Reason := ReasonGuardMissing;
                 c_Message := snd (en_guard_end env) |})
    else RemoveStatusCondition cs ConditionSecretsManaged in
  setCondition cs {| c_Type := ConditionReady; c_Status := vd_Ready v; c_LastTransitionTime := en_now env;
                     c_ObservedGeneration := om_Generation (mc_Meta mc); c_Reason := vd_Reason v;
                     c_Message := vd_Message v |}.

Definition finalStatus (r : Reconciler) (env : ReconcileEnv) (mc : MailCredential) (v : Verdict) (st : MailCredentialStatus)
    : MailCredentialStatus :=
  let st := set_conditions (conditionsFor r env mc v (mcst_Conditions st)) st in
  if vd_Ready v == ConditionTrue then set_account (mcs_ServiceAccountName (mc_Spec mc)) st else st.

(** The retry loop of [updateStatus]: whether the status was written, and the
    last error. *)
Definition statusRetrySteps : nat := 6.

Fixpoint retryStatus (steps : nat) (attempt : nat → StatusAttempt) (mc : MailCredential) : bool * option APIError :=
  match steps with
  | O => (false, None)
  | S steps =>
      let a := attempt steps in
      let again e := if negb (sa_cancelled a) && transient e && (0 <? steps)%nat then retryStatus steps attempt mc
                     else (false, Some e) in
      match sa_get a with
      | Err NotFound => (false, None)
      | Err e => again e
      | Ok latest =>
          if om_UID (mc_Meta latest) != om_UID (mc_Meta mc) then (false, None)
          else match sa_update a with
               | None => (true, None)
               | Some e => again e
               end
      end
  end.

Definition updateStatus (env : ReconcileEnv) (mc : MailCredential) (secretWritten : bool) : bool * option APIError :=
  match en_update env with
  | None => (true, None)
  | Some e => if negb secretWritten then (false, Some e)
              else retryStatus statusRetrySteps (en_retry env) mc
  end.

(** The end of a run: the status is written if it changed or must be. *)
Definition finish (r : Reconciler) (env : ReconcileEnv) (mc : MailCredential) (v : Verdict) (st : MailCredentialStatus)
    (requeue : Duration) (err : option APIError) (s : St) (issued : option gostring) : Outcome St :=
  let st := finalStatus r env mc v st in
  if (mc_Status mc != st) || bool_decide (is_Some issued) then
    match updateStatus env mc (bool_decide (is_Some issued)) with
    | (written, Some e) => Build_Outcome s (if written then Some st else None) 0 (Some e) issued
    | (written, None) =>
        Build_Outcome s (if written then Some st else None)
          (match err with Some _ => 0 | None => requeue end) err issued
    end
  else Build_Outcome s None (match err with Some _ => 0 | None => requeue end) err issued.

(** The run on the object that was read. *)
Definition reconcileObject (r : Reconciler) (env : ReconcileEnv) (mc : MailCredential) (s : St) : Outcome St :=
  let st := set_identity_fields mc (mc_Status mc) in
  let '(st, v, interval, grace) := checkSpec r mc st in
  match v with
  | Some v => finish r env mc v st 0 None s None
  | None =>
      match en_account env with
      | SAFailed e => Build_Outcome s None 0 (Some e) None
      | SANotFound =>
          finish r env mc (failed ReasonServiceAccountNotFound
            (lit "ServiceAccount " ++ mc_Namespace mc ++ lit "/" ++ mcs_ServiceAccountName (mc_Spec mc) ++ lit " not found"))
            st 0 None s None
      | SAFound =>
          if negb (Generated mc) then
            finish r env mc {| vd_Ready := ConditionTrue; vd_Reason := ReasonBringYourOwnHash;
                               vd_Message := "credential ready; password verified against spec.passwordHash" |}
              (acceptHash mc (en_now env) (mcst_Current (mc_Status mc)) st) 0 None s None
          else match generatedStep r env mc interval grace st s with
               | None => Build_Outcome s None 0 (Some NoStatus) None
               | Some (st, v, requeue, err, s, issued) => finish r env mc v st requeue err s issued
               end
      end
  end.

Definition Reconcile (r : Reconciler) (env : ReconcileEnv) (s : St) : Outcome St :=
  match en_cached env with
  | Err NotFound => Build_Outcome s None 0 None None
  | Err e => Build_Outcome s None 0 (Some e) None
  | Ok mc =>
      if rotationLooksDue mc (en_now env) then
        match en_fresh env with
        | Err NotFound => Build_Outcome s None 0 None None
        | Err e => Build_Outcome s None 0 (Some e) None
        | Ok fresh => reconcileObject r env fresh s
        end
      else reconcileObject r env mc s
  end.

End reconcile.

(** ** Facts *)

(** The object a run works on: the cached one, or a fresh read when a password
    looks due. *)
Definition subject `{FloatNanos} (env : ReconcileEnv) : option MailCredential :=
  match en_cached env with
  | Ok mc => if rotationLooksDue mc (en_now env)
             then match en_fresh env with Ok fresh => Some fresh | Err _ => None end
             else Some mc
  | Err _ => None
  end.

Section facts.
Context `{SecretAPILaws St, RemoveCondition, ErrorTexts, K8sNames, Hashes, FloatNanos}.

Lemma owned_set_data (name uid : gostring) (d : gmap gostring gostring) (v : Secret) :
  owned_by name uid (set_data d v) ↔ owned_by name uid v.
Proof. done. Qed.

Lemma credentialSecret_owned (r : Reconciler) (mc : MailCredential) (u p : gostring) :
  owned_by (mc_Name mc) (om_UID (mc_Meta mc)) (credentialSecret r mc u p).
Proof. split; apply lookup_singleton_eq. Qed.

(** What [writeSecret] can do to the Secrets. *)
Lemma writeSecret_spec (r : Reconciler) (mc : MailCredential) (u p : gostring) (s s' : St) (conflict : bool)
    (err : option APIError) :
  writeSecret r mc u p s = (s', conflict, err) →
  (∀ k v, api_secrets s !! k = Some v → k ≠ secretKey mc ∨ ¬ owned_by (mc_Name mc) (om_UID (mc_Meta mc)) v →
     api_secrets s' !! k = Some v) ∧
  (err = None → conflict = false ∧ ∃ v, api_secrets s' !! secretKey mc = Some v ∧
     owned_by (mc_Name mc) (om_UID (mc_Meta mc)) v ∧ sec_Data v = credentialData r u p).
Proof.
  unfold writeSecret. destruct (api_create _ _ s) as [s1 e1] eqn:Hc.
  assert (∀ v, api_secrets s !! secretKey mc = None → ∀ k w, api_secrets s !! k = Some w →
    <[secretKey mc := v]> (api_secrets s) !! k = Some w) as Hnew.
  { intros v Hn k w Hk. rewrite lookup_insert_ne; [done|]. intros <-. congruence. }
  case_bool_decide as He; cbn [negb].
  - subst e1. apply create_failed in Hc as [Hc|[Hc _]]; [|done].
    destruct (api_patch _ _ _ _ s1) as [s2 e2] eqn:Hp. intros [= <- <- <-]. rewrite <- Hc.
    assert (∀ k v w, api_secrets s1 !! secretKey mc = Some w → owned_by (mc_Name mc) (om_UID (mc_Meta mc)) w →
      api_secrets s1 !! k = Some v → k ≠ secretKey mc ∨ ¬ owned_by (mc_Name mc) (om_UID (mc_Meta mc)) v →
      <[secretKey mc := set_data (credentialData r u p) w]> (api_secrets s1) !! k = Some v) as Hold.
    { intros k v w Hw Hown Hk [Hne|Hno]; (rewrite lookup_insert_ne; [done|]); [done|]. intros <-. congruence. }
    destruct e2 as [e2|].
    + split; [|done]. apply patch_failed in Hp as [Hp|(_ & w & Hw & Hown & Hp)]; rewrite Hp; eauto.
    + apply patch_ok in Hp as (w & Hw & Hown & Hp). rewrite Hp. split; [eauto|].
      intros _. split; [done|]. exists (set_data (credentialData r u p) w). by rewrite lookup_insert_eq.
  - intros [= <- <- <-]. destruct e1 as [e1|].
    + split; [|done]. apply create_failed in Hc as [Hc|(_ & Hn & Hc)]; rewrite Hc; eauto.
    + apply create_ok in Hc as [Hn Hc]. rewrite Hc. split; [eauto|].
      intros _. split; [done|]. eexists. rewrite lookup_insert_eq. split; [done|]. split; [apply credentialSecret_owned|done].
Qed.

Lemma finish_secrets (r : Reconciler) (env : ReconcileEnv) (mc : MailCredential) (v : Verdict) (st : MailCredentialStatus)
    (requeue : Duration) (err : option APIError) (s : St) (p : option gostring) :
  oc_Secrets (finish r env mc v st requeue err s p) = s ∧ oc_Issued (finish r env mc v st requeue err s p) = p.
Proof. unfold finish. destruct (_ || _); [|done]. by destruct (updateStatus _ _ _) as [[] []]. Qed.

(** A run that issued a password: what it decided on and what it wrote. *)
Record issue (r : Reconciler) (env : ReconcileEnv) (mc : MailCredential) (s : St) (p : gostring) (o : Outcome St)
    (interval grace : Duration) (st0 : MailCredentialStatus) : Prop := {
  is_subject : subject env = Some mc;
  is_generated : Generated mc = true;
  is_spec : checkSpec r mc (set_identity_fields mc (mc_Status mc)) = (st0, None, interval, grace);
  is_account : en_account env = SAFound;
  is_enabled : rc_GeneratedEnabled r = true;
  is_secret : writeSecret r mc (mcst_Username st0) p s = (oc_Secrets o, false, None);
  is_finish : let st1 := issued mc (en_now env) grace p (dropExpired (en_now env) st0) in
    o = finish r env mc {| vd_Ready := ConditionTrue; vd_Reason := ReasonReady; vd_Message := readyMessage st1 |} st1
          (minPositive 0 (nextCredentialEvent st1 (en_now env) interval)) None (oc_Secrets o) (Some p) }.

Lemma dropExpired_username (now : Time) (st : MailCredentialStatus) :
  mcst_Username (dropExpired now st) = mcst_Username st.
Proof. unfold dropExpired. by repeat case_match. Qed.

Lemma finish_issued (r : Reconciler) (env : ReconcileEnv) (mc : MailCredential) (v : Verdict) (st : MailCredentialStatus)
    (requeue : Duration) (err : option APIError) (s : St) :
  oc_Issued (finish r env mc v st requeue err s None) = None.
Proof. apply finish_secrets. Qed.

Lemma reconcileObject_issue (r : Reconciler) (env : ReconcileEnv) (mc : MailCredential) (s : St) (p : gostring) :
  subject env = Some mc → oc_Issued (reconcileObject r env mc s) = Some p →
  ∃ interval grace st0, issue r env mc s p (reconcileObject r env mc s) interval grace st0.
Proof.
  intros Hsub. unfold reconcileObject.
  destruct (checkSpec r mc (set_identity_fields mc (mc_Status mc))) as [[[st0 v] interval] grace] eqn:Hspec.
  destruct v as [v|]; [by rewrite finish_issued|].
  destruct (en_account env) eqn:Hacc; [|by rewrite finish_issued|done].
  destruct (negb (Generated mc)) eqn:Hg; [by rewrite finish_issued|]. apply negb_false_iff in Hg.
  unfold generatedStep. destruct (negb (rc_GeneratedEnabled r)) eqn:He; [by rewrite finish_issued|].
  apply negb_false_iff in He.
  destruct (rotationDue _ _ _); [|by rewrite finish_issued].
  destruct (negb (fst (en_guard env))); [by rewrite finish_issued|].
  destruct (en_password env) as [password|]; [|done].
  destruct (writeSecret r mc _ password s) as [[s' conflict] err] eqn:Hw. rewrite dropExpired_username in Hw.
  destruct conflict; [by rewrite finish_issued|]. destruct err as [e|]; [by rewrite finish_issued|].
  match goal with |- oc_Issued ?o = _ → _ => set (out := o) end.
  assert (oc_Secrets out = s' ∧ oc_Issued out = Some password) as [Hs Hi] by apply finish_secrets.
  rewrite Hi. intros [= <-]. exists interval, grace, st0.
  constructor; try done; rewrite Hs; done.
Qed.

Lemma Reconcile_issue (r : Reconciler) (env : ReconcileEnv) (s : St) (p : gostring) :
  oc_Issued (Reconcile r env s) = Some p →
  ∃ mc interval grace st0, issue r env mc s p (Reconcile r env s) interval grace st0.
Proof.
  unfold Reconcile. destruct (en_cached env) as [mc|[]] eqn:Hc; try done.
  assert (∀ m, subject env = Some m → oc_Issued (reconcileObject r env m s) = Some p →
    ∃ mc interval grace st0, issue r env mc s p (reconcileObject r env m s) interval grace st0) as Hgo.
  { intros m Hm Hi. destruct (reconcileObject_issue r env m s p Hm Hi) as (i & g & st0 & Hiss). eauto 10. }
  unfold subject in Hgo. rewrite Hc in Hgo.
  destruct (rotationLooksDue mc (en_now env)); [|by eauto].
  destruct (en_fresh env) as [fresh|[]]; try done. by eauto.
Qed.

(** What a run does to Secrets it does not own. *)
Lemma reconcileObject_foreign (r : Reconciler) (env : ReconcileEnv) (mc : MailCredential) (s : St) (k : secret_key) (v : Secret) :
  api_secrets s !! k = Some v → k ≠ secretKey mc ∨ ¬ owned_by (mc_Name mc) (om_UID (mc_Meta mc)) v →
  api_secrets (oc_Secrets (reconcileObject r env mc s)) !! k = Some v.
Proof.
  intros Hk Hno. unfold reconcileObject.
  assert (∀ r env mc v st q err s p, oc_Secrets (finish r env mc v st q err s p) = s) as Hf by (intros; apply finish_secrets).
  destruct (checkSpec r mc _) as [[[st0 vd] interval] grace].
  destruct vd as [vd|]; [by rewrite Hf|]. destruct (en_account env); [|by rewrite Hf|done].
  destruct (negb (Generated mc)); [by rewrite Hf|].
  destruct (generatedStep r env mc interval grace st0 s) as [[[[[[st vd] q] err] s1] p]|] eqn:Hg; [|done].
  rewrite Hf. unfold generatedStep in Hg.
  destruct (negb (rc_GeneratedEnabled r)); [by simplify_eq|]. destruct (rotationDue _ _ _); [|by simplify_eq].
  destruct (negb (fst (en_guard env))); [by simplify_eq|]. destruct (en_password env) as [password|]; [|done].
  destruct (writeSecret r mc _ password s) as [[s2 conflict] err2] eqn:Hw.
  apply writeSecret_spec in Hw as [Hw _]. specialize (Hw k v Hk Hno).
  destruct conflict; [by simplify_eq|]. by destruct err2; simplify_eq.
Qed.

End facts.

(** ** Conditions *)

Lemma setCondition_status (cs : list Condition) (new x : Condition) :
  NoDup (c_Type <$> cs) → x ∈ setCondition cs new → c_Type x = c_Type new → c_Status x = c_Status new.
Proof.
  induction cs as [|y cs IH]; simpl; intros Hnd Hx Ht.
  - by apply list_elem_of_singleton in Hx as ->.
  - apply NoDup_cons in Hnd as [Hy Hnd]. case_bool_decide as Hty.
    + apply elem_of_cons in Hx as [->|Hx]; [by case_bool_decide|].
      destruct Hy. rewrite Hty, <- Ht. by apply list_elem_of_fmap_2.
    + apply elem_of_cons in Hx as [->|Hx]; [done|]. by apply IH.
Qed.

Lemma setCondition_present (cs : list Condition) (new : Condition) :
  ∃ x, x ∈ setCondition cs new ∧ c_Type x = c_Type new.
Proof.
  induction cs as [|y cs (x & Hx & Ht)]; simpl; [exists new; split; [left|done]|].
  case_bool_decide as Hty; [|exists x; split; [by right|done]].
  eexists. split; [left|]. by case_bool_decide.
Qed.

Lemma setCondition_NoDup (cs : list Condition) (new : Condition) :
  NoDup (c_Type <$> cs) → NoDup (c_Type <$> setCondition cs new).
Proof.
  intros Hnd. rewrite setCondition_types. case_bool_decide as Hin; [done|].
  apply NoDup_app. split; [done|]. split; [|apply NoDup_singleton]. by intros t Ht ->%list_elem_of_singleton.
Qed.

Lemma find_set_condition `{MetaConditionsLaws} (cs : list Condition) (new : Condition) :
  NoDup (c_Type <$> cs) →
  ∃ c, FindStatusCondition (stored_condition <$> setCondition cs new) (c_Type new) = Some c ∧ c_Status c = c_Status new.
Proof.
  intros Hnd. destruct (FindStatusCondition (stored_condition <$> setCondition cs new) (c_Type new)) as [c|] eqn:Hf.
  - exists c. split; [done|]. apply find_condition_some in Hf as [(x & -> & Hin)%list_elem_of_fmap Ht].
    by apply (setCondition_status cs new x).
  - destruct (setCondition_present cs new) as (x & Hx & Ht).
    exfalso. eapply (find_condition_none _ _ Hf (stored_condition x)); [by apply list_elem_of_fmap_2|done].
Qed.

(** The condition [c] is in place, with some transition time. *)
Definition holds (cs : list Condition) (c : Condition) : Prop :=
  ∃ x, List.find (λ x, c_Type x == c_Type c) cs = Some x ∧ with_transition c (c_LastTransitionTime x) = x.

(** Setting a condition that is in place changes nothing. *)
Lemma setCondition_holds (cs : list Condition) (c : Condition) : holds cs c → setCondition cs c = cs.
Proof.
  induction cs as [|y cs IH]; intros (x & Hf & Hx); [done|]. simpl in *. case_bool_decide as Ht.
  - injection Hf as ->. rewrite bool_decide_true by by rewrite <- Hx. by rewrite Hx.
  - rewrite IH; [done|]. by exists x.
Qed.

Lemma holds_set (cs : list Condition) (a b : Condition) :
  with_transition a 0 = with_transition b 0 → holds (setCondition cs a) b.
Proof.
  intros Hab. pose proof (set_condition_correct cs a) as (_ & Hf & _).
  assert (c_Type a = c_Type b) as Ht by apply (f_equal c_Type Hab). rewrite Ht in Hf.
  eexists. split; [exact Hf|]. simpl. unfold with_transition in *. congruence.
Qed.

Lemma holds_other (cs : list Condition) (c d : Condition) :
  c_Type c ≠ c_Type d → holds cs c → holds (setCondition cs d) c.
Proof.
  intros Hne (x & Hf & Hx). pose proof (set_condition_correct cs d) as (_ & _ & Ho).
  exists x. by rewrite Ho.
Qed.

Lemma holds_stored (cs : list Condition) (c : Condition) : holds cs c → holds (stored_condition <$> cs) c.
Proof.
  intros (x & Hf & Hx). exists (stored_condition x). split.
  - clear Hx. induction cs as [|y cs IH]; [done|]. simpl in *. case_bool_decide; [by injection Hf as ->|by apply IH].
  - rewrite <- Hx. by destruct c.
Qed.

(** ** The status of an issuing run *)

Section issuing.
Context `{SecretAPILaws St, RemoveConditionLaws, ErrorTexts, K8sNames, HashesLaws, FloatNanos, MetaConditionsLaws, LRU C}.

Lemma finish_written (r : Reconciler) (env : ReconcileEnv) (mc : MailCredential) (v : Verdict) (st st' : MailCredentialStatus)
    (q : Duration) (err : option APIError) (s : St) (p : option gostring) :
  oc_Written (finish r env mc v st q err s p) = Some st' → st' = finalStatus r env mc v st.
Proof. unfold finish. destruct (_ || _); [|done]. by destruct (updateStatus _ _ _) as [[] []]; intros [= <-]. Qed.

Lemma checkSpec_generated (r : Reconciler) (mc : MailCredential) (st st0 : MailCredentialStatus) (interval grace : Duration) :
  Generated mc = true → checkSpec r mc st = (st0, None, interval, grace) →
  Excluded (rc_Exclusions r) (mc_Namespace mc) = false ∧ mcs_SecretName (mc_Spec mc) ≠ [] ∧
  GeneratedNameError (mc_Name mc) = [] ∧ rotationSettings (mcs_Rotation (mc_Spec mc)) = Ok (interval, grace) ∧
  st0 = match mcst_Current st with
        | Some cur => if IsGeneratedHash (ch_Hash cur) then st else set_passwords (mcst_SecretName st) None None st
        | None => st
        end.
Proof.
  intros Hg. unfold checkSpec. rewrite Hg. destruct (Excluded _ _); [done|]. cbn [negb].
  destruct (bool_decide_reflect (mcs_SecretName (mc_Spec mc) = [])); [done|].
  destruct (bool_decide_reflect (GeneratedNameError (mc_Name mc) = [])); [|done]. cbn [negb].
  destruct (rotationSettings _) as [[i g]|]; [|done]. intros [= <- <- <-].
  split_and!; try done. destruct (mcst_Current st) as [cur|]; [|done]. by destruct (IsGeneratedHash (ch_Hash cur)).
Qed.

(** The parts of the final status that the conditions do not touch. *)
Lemma finalStatus_fields (r : Reconciler) (env : ReconcileEnv) (mc : MailCredential) (v : Verdict) (st : MailCredentialStatus) :
  let f := finalStatus r env mc v st in
  mcst_Username f = mcst_Username st ∧ mcst_SecretName f = mcst_SecretName st ∧ mcst_Current f = mcst_Current st ∧
  mcst_Previous f = mcst_Previous st ∧ mcst_LastRotateRequest f = mcst_LastRotateRequest st ∧
  mcst_ObservedGeneration f = mcst_ObservedGeneration st ∧
  mcst_Conditions f = conditionsFor r env mc v (mcst_Conditions st) ∧
  mcst_ServiceAccountName f = if vd_Ready v == ConditionTrue then mcs_ServiceAccountName (mc_Spec mc) else mcst_ServiceAccountName st.
Proof. unfold finalStatus. by case_match. Qed.

Lemma conditions_ready (r : Reconciler) (env : ReconcileEnv) (mc : MailCredential) (v : Verdict) (cs : list Condition) :
  NoDup (c_Type <$> cs) →
  ∃ c, FindStatusCondition (stored_condition <$> conditionsFor r env mc v cs) ConditionReady = Some c ∧ c_Status c = vd_Ready v.
Proof.
  intros Hnd. unfold conditionsFor. match goal with |- context [setCondition ?l ?c] => apply (find_set_condition l c) end.
  destruct (Generated mc && rc_GeneratedEnabled r); [by apply setCondition_NoDup|].
  rewrite remove_condition. clear -Hnd. induction cs as [|c cs IH]; [constructor|].
  apply NoDup_cons in Hnd as [Hc Hnd]. simpl. destruct (negb _); [|by apply IH].
  apply NoDup_cons. split; [|by apply IH]. intros (x & Hx & Hin)%list_elem_of_fmap.
  apply Hc. rewrite Hx. apply list_elem_of_fmap_2. apply list_elem_of_In in Hin. apply List.filter_In in Hin as [Hin _].
  by apply list_elem_of_In.
Qed.

Lemma issue_status (r : Reconciler) (env : ReconcileEnv) (mc : MailCredential) (s : St) (p : gostring) (o : Outcome St)
    (interval grace : Duration) (st0 st : MailCredentialStatus) :
  issue r env mc s p o interval grace st0 → oc_Written o = Some st →
  let st1 := issued mc (en_now env) grace p (dropExpired (en_now env) st0) in
  st = finalStatus r env mc {| vd_Ready := ConditionTrue; vd_Reason := ReasonReady; vd_Message := readyMessage st1 |} st1.
Proof. intros [_ _ _ _ _ _ Hf] Hw. cbv zeta in Hf. rewrite Hf in Hw. by apply finish_written in Hw. Qed.

Lemma issue_base (r : Reconciler) (env : ReconcileEnv) (mc : MailCredential) (s : St) (p : gostring) (o : Outcome St)
    (interval grace : Duration) (st0 : MailCredentialStatus) :
  issue r env mc s p o interval grace st0 →
  mcst_Username st0 = Username (mc_Name mc) (mc_Namespace mc) ∧ mcst_Conditions st0 = mcst_Conditions (mc_Status mc) ∧
  mcst_Current st0 = match mcst_Current (mc_Status mc) with
                     | Some cur => if IsGeneratedHash (ch_Hash cur) then Some cur else None
                     | None => None
                     end.
Proof.
  intros [_ Hg Hs _ _ _ _]. apply checkSpec_generated in Hs as (_ & _ & _ & _ & ->); [|done]. simpl.
  destruct (mcst_Current (mc_Status mc)) as [cur|] eqn:Hc; [|done]. by destruct (IsGeneratedHash (ch_Hash cur)).
Qed.

Lemma dropExpired_same (now : Time) (st : MailCredentialStatus) :
  mcst_Conditions (dropExpired now st) = mcst_Conditions st ∧ mcst_Current (dropExpired now st) = mcst_Current st.
Proof. unfold dropExpired. by repeat case_match. Qed.

Lemma issue_usable (r : Reconciler) (env : ReconcileEnv) (mc : MailCredential) (s : St) (p : gostring) (o : Outcome St)
    (interval grace : Duration) (st0 st : MailCredentialStatus) :
  issue r env mc s p o interval grace st0 → oc_Written o = Some st → NoDup (c_Type <$> mcst_Conditions (mc_Status mc)) →
  Usable (with_status (stored st) mc) = true ∧ mcst_Username st = Username (mc_Name mc) (mc_Namespace mc) ∧
  mcst_Current st = Some {| ch_Hash := HashGenerated p; ch_CreatedAt := en_now env |} ∧
  mcst_Previous st = match mcst_Current st0 with
                     | Some cur => if 0 <? grace then Some {| ph_Hash := ch_Hash cur; ph_ValidUntil := en_now env + grace |} else None
                     | None => None
                     end.
Proof.
  intros Hi Hw Hnd. pose proof (issue_status _ _ _ _ _ _ _ _ _ _ Hi Hw) as Hst. cbv zeta in Hst.
  destruct (issue_base _ _ _ _ _ _ _ _ _ Hi) as (Hu & Hcs & _).
  destruct (dropExpired_same (en_now env) st0) as [Hdc Hdcur].
  match type of Hst with st = finalStatus r env mc ?v ?st1 =>
    pose proof (finalStatus_fields r env mc v st1) as Hff; rewrite <- Hst in Hff;
    destruct (conditions_ready r env mc v (mcst_Conditions st1)) as (c & Hc & Hcst) end.
  { simpl. by rewrite Hdc, Hcs. }
  destruct Hff as (F1 & F2 & F3 & F4 & F5 & F6 & F7 & F8). split_and!.
  - unfold Usable. simpl. rewrite F7, Hc, Hcst. simpl. rewrite F8. simpl. rewrite !bool_decide_true by done. simpl.
    unfold Generated. simpl. pose proof (is_generated _ _ _ _ _ _ _ _ _ Hi) as Hg. unfold Generated in Hg. by rewrite Hg.
  - rewrite F1. simpl. by rewrite dropExpired_username.
  - by rewrite F3.
  - rewrite F4. simpl. by rewrite Hdcur.
Qed.

(** ** Properties *)

(** C22. A password the controller issued works, and works as promised: when a run
    has put a password into a Secret and its status has been stored, the
    credential's Secret (marked as this credential's) holds the username and that
    password, and the SMTP front end accepts exactly this login, at any later
    time, as the ServiceAccount of the spec, until the object changes. *)
Theorem issued_password_logs_in (r : Reconciler) (env : ReconcileEnv) (s : St) (p : gostring) (st : MailCredentialStatus)
    (mc : MailCredential) (get : reader) (t : Time) (slot : bool) (c : C) :
  oc_Issued (Reconcile r env s) = Some p → oc_Written (Reconcile r env s) = Some st → subject env = Some mc →
  NoDup (c_Type <$> mcst_Conditions (mc_Status mc)) → p ≠ [] →
  mc_Name mc ≠ [] → mc_Namespace mc ≠ [] → c_period ∉ mc_Namespace mc →
  get (mc_Namespace mc) (mc_Name mc) = Ok (with_status (stored st) mc) →
  (∃ v, api_secrets (oc_Secrets (Reconcile r env s)) !! secretKey mc = Some v ∧
     owned_by (mc_Name mc) (om_UID (mc_Meta mc)) v ∧
     sec_Data v !! CredentialSecretUsernameKey = Some (Username (mc_Name mc) (mc_Namespace mc)) ∧
     sec_Data v !! CredentialSecretPasswordKey = Some p) ∧
  ∃ res, snd (Verify get t slot (Username (mc_Name mc) (mc_Namespace mc)) p c) = Ok res ∧
    r_Namespace res = mc_Namespace mc ∧ r_ServiceAccount res = mcs_ServiceAccountName (mc_Spec mc) ∧ r_Previous res = false.
Proof.
  intros Hi Hw Hsub Hnd Hp Hn1 Hn2 Hn3 Hget.
  apply Reconcile_issue in Hi as (mc' & interval & grace & st0 & Hi).
  pose proof (is_subject _ _ _ _ _ _ _ _ _ Hi) as Hsub'. rewrite Hsub in Hsub'. injection Hsub' as <-.
  destruct (issue_usable _ _ _ _ _ _ _ _ _ _ Hi Hw Hnd) as (Hus & Hun & Hcur & _).
  destruct (issue_base _ _ _ _ _ _ _ _ _ Hi) as (Hu & _).
  pose proof (is_secret _ _ _ _ _ _ _ _ _ Hi) as Hsec. apply writeSecret_spec in Hsec as [_ Hsec].
  destruct (Hsec eq_refl) as (_ & v & Hv & Hown & Hd). split.
  { exists v. rewrite Hd, Hu. split_and!; [done..|apply lookup_insert_eq|].
    unfold credentialData. rewrite lookup_insert_ne by (vm_compute; done). apply lookup_insert_eq. }
  assert (ParseUsername (Username (mc_Name mc) (mc_Namespace mc)) = Some (mc_Namespace mc, mc_Name mc)) as Hparse
    by by apply ParseUsername_iff.
  unfold Verify, Lookup. rewrite Hparse, Hget, Hus. simpl. rewrite Hun, bool_decide_true by done. simpl.
  unfold Check. rewrite bool_decide_false by done.
  assert (Generated (with_status (stored st) mc) = true) as -> by apply (is_generated _ _ _ _ _ _ _ _ _ Hi).
  simpl. rewrite Hcur. simpl. rewrite VerifyGenerated_hash, bool_decide_true by done. simpl. eexists. by split_and!.
Qed.

(** C23. Rotation keeps its word about the old password: after a run replaced the
    generated password of a credential, a password that matched the old hash (and
    not the new one) is accepted exactly while the grace period lasts, and then as
    the previous one; with no grace period it is refused at once. *)
Theorem rotated_password_grace (r : Reconciler) (env : ReconcileEnv) (s : St) (p old : gostring) (st : MailCredentialStatus)
    (mc : MailCredential) (cur : CredentialHash) (interval grace : Duration) (t : Time) (slot : bool) (c : C) :
  oc_Issued (Reconcile r env s) = Some p → oc_Written (Reconcile r env s) = Some st → subject env = Some mc →
  NoDup (c_Type <$> mcst_Conditions (mc_Status mc)) → old ≠ [] →
  rotationSettings (mcs_Rotation (mc_Spec mc)) = Ok (interval, grace) →
  mcst_Current (mc_Status mc) = Some cur → VerifyGenerated (ch_Hash cur) old = true → Sum256 p ≠ Sum256 old →
  snd (Check t slot (with_status (stored st) mc) old c) =
    if (0 <? grace) && (t <? whole_seconds (en_now env + grace))
    then Ok (result_of (with_status (stored st) mc) (ch_Hash cur) true)
    else Err ErrInvalid.
Proof.
  intros Hi Hw Hsub Hnd Hold Hrot Hc Hv Hne.
  apply Reconcile_issue in Hi as (mc' & interval' & grace' & st0 & Hi).
  pose proof (is_subject _ _ _ _ _ _ _ _ _ Hi) as Hsub'. rewrite Hsub in Hsub'. injection Hsub' as <-.
  pose proof (is_generated _ _ _ _ _ _ _ _ _ Hi) as Hg.
  destruct (checkSpec_generated _ _ _ _ _ _ Hg (is_spec _ _ _ _ _ _ _ _ _ Hi)) as (_ & _ & _ & Hrot' & _).
  rewrite Hrot in Hrot'. injection Hrot' as <- <-.
  destruct (issue_usable _ _ _ _ _ _ _ _ _ _ Hi Hw Hnd) as (_ & _ & Hcur & Hprev).
  destruct (issue_base _ _ _ _ _ _ _ _ _ Hi) as (_ & _ & Hb).
  rewrite Hc, (VerifyGenerated_prefix _ _ Hv) in Hb. rewrite Hb in Hprev.
  unfold Check. rewrite bool_decide_false by done.
  assert (Generated (with_status (stored st) mc) = true) as -> by exact Hg. simpl. rewrite Hcur, Hprev. simpl.
  rewrite VerifyGenerated_hash, bool_decide_false by done.
  destruct (0 <? grace); simpl; [|done]. rewrite Hv, andb_true_r. by destruct (t <? whole_seconds (en_now env + grace)).
Qed.

(** C24. The controller never overwrites a Secret that is not its own: whatever a
    run does, however its calls fail, every Secret under another name, and one
    under the credential's name that does not carry the credential's label and
    UID, is as it was. *)
Theorem foreign_secrets_untouched (r : Reconciler) (env : ReconcileEnv) (s : St) (k : secret_key) (v : Secret) :
  api_secrets s !! k = Some v →
  (∀ mc, subject env = Some mc → k ≠ secretKey mc ∨ ¬ owned_by (mc_Name mc) (om_UID (mc_Meta mc)) v) →
  api_secrets (oc_Secrets (Reconcile r env s)) !! k = Some v.
Proof.
  intros Hk Hno. unfold Reconcile. unfold subject in Hno. destruct (en_cached env) as [mc|[]]; try done.
  destruct (rotationLooksDue mc (en_now env)); [|by apply reconcileObject_foreign, Hno].
  destruct (en_fresh env) as [fresh|[]]; try done. by apply reconcileObject_foreign, Hno.
Qed.

(** ** Nothing is lost, and the controller comes to rest *)

Definition object_gone (mc : MailCredential) (a : StatusAttempt) : Prop :=
  sa_get a = Err NotFound ∨ ∃ latest, sa_get a = Ok latest ∧ om_UID (mc_Meta latest) ≠ om_UID (mc_Meta mc).

Definition attempt_failed (a : StatusAttempt) (e : APIError) : Prop :=
  (sa_get a = Err e ∧ e ≠ NotFound) ∨ (is_ok (sa_get a) = true ∧ sa_update a = Some e).

(** Why the retry loop ended without the status being written. *)
Definition gave_up (steps : nat) (attempt : nat → StatusAttempt) (mc : MailCredential) (res : option APIError) : Prop :=
  match res with
  | None => ∃ i, (i < steps)%nat ∧ object_gone mc (attempt i)
  | Some e => (∃ i, (i < steps)%nat ∧ attempt_failed (attempt i) e ∧ (transient e = false ∨ sa_cancelled (attempt i) = true)) ∨
              (∀ i, (i < steps)%nat → ∃ e, attempt_failed (attempt i) e)
  end.

Lemma gave_up_more (steps : nat) (attempt : nat → StatusAttempt) (mc : MailCredential) (res : option APIError) (e0 : APIError) :
  attempt_failed (attempt steps) e0 → gave_up steps attempt mc res → gave_up (S steps) attempt mc res.
Proof.
  intros Hf. destruct res as [e|]; simpl.
  - intros [(i & Hi & Hc)|Hall]; [left; exists i; split; [lia|done]|right].
    intros i Hi. destruct (decide (i = steps)) as [->|]; [eauto|]. apply Hall. lia.
  - intros (i & Hi & Hg). exists i. split; [lia|done].
Qed.

Lemma retryStatus_spec (steps : nat) (attempt : nat → StatusAttempt) (mc : MailCredential) (res : option APIError) :
  (0 < steps)%nat → retryStatus steps attempt mc = (false, res) → gave_up steps attempt mc res.
Proof.
  revert res. induction steps as [|steps IH]; intros res Hpos; [lia|]. cbn [retryStatus].
  set (a := attempt steps).
  assert (∀ e, attempt_failed a e →
    (if negb (sa_cancelled a) && transient e && (0 <? steps)%nat then retryStatus steps attempt mc else (false, Some e)) = (false, res) →
    gave_up (S steps) attempt mc res) as Hagain.
  { intros e He. destruct (sa_cancelled a) eqn:Hc; [intros [= <-]; left; exists steps; split; [lia|auto]|].
    destruct (transient e) eqn:Ht; [|intros [= <-]; left; exists steps; split; [lia|auto]]. cbn [negb andb].
    destruct (Nat.ltb_spec 0 steps) as [Hs|Hs].
    - intros Hr. eapply gave_up_more; [exact He|]. by apply IH.
    - intros [= <-]. right. intros i Hi. exists e. by replace i with steps by lia. }
  destruct (sa_get a) as [latest|e] eqn:Hg.
  - destruct (bool_decide_reflect (om_UID (mc_Meta latest) = om_UID (mc_Meta mc))) as [Hu|Hu]; cbn [negb].
    + destruct (sa_update a) as [e|] eqn:Hup; [|done]. apply Hagain. right. by rewrite Hg.
    + intros [= <-]. exists steps. split; [lia|]. right. eauto.
  - assert (e ≠ NotFound → attempt_failed a e) as Hf by (intros; by left).
    destruct e; try (apply Hagain, Hf; done). intros [= <-]. exists steps. split; [lia|]. by left.
Qed.

Lemma finish_recorded (r : Reconciler) (env : ReconcileEnv) (mc : MailCredential) (v : Verdict) (st : MailCredentialStatus)
    (q : Duration) (s : St) (p : gostring) :
  let o := finish r env mc v st q None s (Some p) in
  is_Some (oc_Written o) ∨ (is_Some (en_update env) ∧ gave_up statusRetrySteps (en_retry env) mc (oc_Error o)).
Proof.
  unfold finish, updateStatus. rewrite (bool_decide_true (is_Some (Some p))) by by eexists. rewrite orb_true_r. cbn [negb].
  destruct (en_update env) as [e|] eqn:Hu; [|left; by eexists]. cbn [oc_Written].
  destruct (retryStatus statusRetrySteps (en_retry env) mc) as [[] res] eqn:Hr.
  - left. destruct res; by eexists.
  - right. split; [by eexists|]. apply retryStatus_spec in Hr; [|unfold statusRetrySteps; lia]. by destruct res.
Qed.

(** The hash of an issued password is not dropped lightly: after the Secret
    was written the run stores the status, or the object is gone or recreated, or
    it reports an error, and then only because a write failed for good, the
    context ended, or all six attempts failed. *)
Theorem issued_hash_recorded (r : Reconciler) (env : ReconcileEnv) (s : St) (p : gostring) :
  oc_Issued (Reconcile r env s) = Some p →
  is_Some (oc_Written (Reconcile r env s)) ∨
  ∃ mc, subject env = Some mc ∧ is_Some (en_update env) ∧
    gave_up statusRetrySteps (en_retry env) mc (oc_Error (Reconcile r env s)).
Proof.
  intros (mc & interval & grace & st0 & Hi)%Reconcile_issue. pose proof (is_finish _ _ _ _ _ _ _ _ _ Hi) as Hf.
  pose proof (is_subject _ _ _ _ _ _ _ _ _ Hi) as Hsub. clear Hi. generalize dependent (Reconcile r env s).
  intros o Hf. cbv zeta in Hf. rewrite Hf.
  match goal with |- context [finish r env mc ?v ?st ?q None ?s' (Some p)] =>
    destruct (finish_recorded r env mc v st q s' p) as [Hw|[Hu Hg]] end; [by left|right; eauto].
Qed.

Lemma conditionsFor_again (r : Reconciler) (env env2 : ReconcileEnv) (mc mc2 : MailCredential) (v : Verdict) (cs : list Condition) :
  Generated mc = true → mc_Spec mc2 = mc_Spec mc → mc_Meta mc2 = mc_Meta mc → rc_GeneratedEnabled r = true →
  en_guard_end env2 = en_guard_end env →
  let cs' := stored_condition <$> conditionsFor r env mc v cs in conditionsFor r env2 mc2 v cs' = cs'.
Proof.
  intros Hg Hspec Hmeta He Hgd. assert (Generated mc2 = true) as Hg2 by (unfold Generated in *; by rewrite Hspec).
  unfold conditionsFor. rewrite Hg, Hg2, He, Hgd, Hmeta. cbn [andb]. rewrite (setCondition_holds (stored_condition <$> _)) at 1.
  - apply setCondition_holds, holds_stored, holds_set. reflexivity.
  - apply holds_stored. destruct (fst (en_guard_end env)); (apply holds_other; [vm_compute; discriminate|]);
      apply holds_set; reflexivity.
Qed.

Lemma status_eta (a b : MailCredentialStatus) :
  mcst_Username a = mcst_Username b → mcst_SecretName a = mcst_SecretName b →
  mcst_ServiceAccountName a = mcst_ServiceAccountName b → mcst_Current a = mcst_Current b →
  mcst_Previous a = mcst_Previous b → mcst_LastRotateRequest a = mcst_LastRotateRequest b →
  mcst_Conditions a = mcst_Conditions b → mcst_ObservedGeneration a = mcst_ObservedGeneration b → a = b.
Proof. destruct a, b; simpl. congruence. Qed.

(** The checks of a generated credential whose hash is a generated one. *)
Lemma checkSpec_again (r : Reconciler) (mc : MailCredential) (st st0 : MailCredentialStatus) (interval grace : Duration)
    (st' : MailCredentialStatus) (cur : CredentialHash) (mc' : MailCredential) :
  Generated mc = true → checkSpec r mc st = (st0, None, interval, grace) →
  mc_Spec mc' = mc_Spec mc → mc_Meta mc' = mc_Meta mc →
  mcst_Current st' = Some cur → IsGeneratedHash (ch_Hash cur) = true →
  checkSpec r mc' st' = (st', None, interval, grace).
Proof.
  intros Hg Hs Hspec Hmeta Hc Hh. apply checkSpec_generated in Hs as (Hx & Hn & Hne & Hr & _); [|done].
  unfold checkSpec, Generated, mc_Name, mc_Namespace in *. rewrite Hspec, Hmeta, Hx, Hg, Hc, Hh. cbn [negb].
  rewrite bool_decide_false by done. rewrite Hne, Hr. done.
Qed.

Lemma HashGenerated_is (p : gostring) : IsGeneratedHash (HashGenerated p) = true.
Proof. unfold IsGeneratedHash, HashGenerated. apply HasPrefix_spec. eauto. Qed.

Definition readyVerdict (st : MailCredentialStatus) : Verdict :=
  {| vd_Ready := ConditionTrue; vd_Reason := ReasonReady; vd_Message := readyMessage st |}.

Lemma dropExpired_generation (now : Time) (st : MailCredentialStatus) :
  mcst_ObservedGeneration (dropExpired now st) = mcst_ObservedGeneration st.
Proof. unfold dropExpired. by repeat case_match. Qed.

(** The other fields of the status an issuing run stores. *)
Lemma issue_fields (r : Reconciler) (env : ReconcileEnv) (mc : MailCredential) (s : St) (p : gostring) (o : Outcome St)
    (interval grace : Duration) (st0 st : MailCredentialStatus) :
  issue r env mc s p o interval grace st0 → oc_Written o = Some st →
  mcst_SecretName st = mcs_SecretName (mc_Spec mc) ∧
  mcst_LastRotateRequest st = default [] (om_Annotations (mc_Meta mc) !! RotateAnnotation) ∧
  mcst_ObservedGeneration st = om_Generation (mc_Meta mc) ∧
  mcst_ServiceAccountName st = mcs_ServiceAccountName (mc_Spec mc) ∧
  ∃ cs, mcst_Conditions st = conditionsFor r env mc (readyVerdict st) cs.
Proof.
  intros Hi Hw. pose proof (issue_status _ _ _ _ _ _ _ _ _ _ Hi Hw) as Hst. cbv zeta in Hst.
  match type of Hst with st = finalStatus r env mc ?v ?st1 =>
    pose proof (finalStatus_fields r env mc v st1) as Hff; rewrite <- Hst in Hff end.
  destruct Hff as (_ & F2 & _ & _ & F5 & F6 & F7 & F8). split_and!; [by rewrite F2|by rewrite F5| |by rewrite F8|].
  - rewrite F6. cbn [issued set_rotate_request set_passwords mcst_ObservedGeneration]. rewrite dropExpired_generation.
    destruct (checkSpec_generated _ _ _ _ _ _ (is_generated _ _ _ _ _ _ _ _ _ Hi) (is_spec _ _ _ _ _ _ _ _ _ Hi))
      as (_ & _ & _ & _ & ->). by repeat (case_match; simpl).
  - eexists. rewrite F7. unfold readyVerdict, readyMessage. by rewrite F2.
Qed.

(** A status that an issuing run stored, against the environment of a later run. *)
Record settled (r : Reconciler) (mc : MailCredential) (env : ReconcileEnv) (interval grace : Duration)
    (st : MailCredentialStatus) : Prop := {
  sd_generated : Generated mc = true;
  sd_enabled : rc_GeneratedEnabled r = true;
  sd_spec : ∃ st0 st1, checkSpec r mc st0 = (st1, None, interval, grace);
  sd_current : ∃ cur, mcst_Current st = Some cur ∧ IsGeneratedHash (ch_Hash cur) = true ∧
    (0 < interval → en_now env < ch_CreatedAt cur + interval);
  sd_previous : ∀ prev, mcst_Previous st = Some prev → en_now env < ph_ValidUntil prev;
  sd_username : mcst_Username st = Username (mc_Name mc) (mc_Namespace mc);
  sd_secret : mcst_SecretName st = mcs_SecretName (mc_Spec mc);
  sd_rotate : mcst_LastRotateRequest st = default [] (om_Annotations (mc_Meta mc) !! RotateAnnotation);
  sd_generation : mcst_ObservedGeneration st = om_Generation (mc_Meta mc);
  sd_account : mcst_ServiceAccountName st = mcs_ServiceAccountName (mc_Spec mc);
  sd_conditions : conditionsFor r env (with_status st mc) (readyVerdict st) (mcst_Conditions st) = mcst_Conditions st }.

Lemma settled_not_due (r : Reconciler) (mc : MailCredential) (env : ReconcileEnv) (interval grace : Duration)
    (st : MailCredentialStatus) :
  settled r mc env interval grace st → rotationDue (with_status st mc) (en_now env) interval = None.
Proof.
  intros [_ _ _ (cur & Hc & _ & Hint) _ _ Hs Hrq _ _ _]. unfold rotationDue. cbn [mc_Status mc_Spec mc_Meta with_status].
  rewrite Hc, Hs, Hrq. set (v := default [] _).
  rewrite (bool_decide_true (mcs_SecretName _ = _)), (bool_decide_true (v = v)) by reflexivity. cbn [negb]. rewrite andb_false_r.
  destruct (Z.ltb_spec 0 interval); [|reflexivity]. cbn [andb].
  destruct (Z.leb_spec (ch_CreatedAt cur + interval) (en_now env)); [lia|reflexivity].
Qed.

Lemma settled_final (r : Reconciler) (mc : MailCredential) (env : ReconcileEnv) (interval grace : Duration)
    (st : MailCredentialStatus) :
  settled r mc env interval grace st → finalStatus r env (with_status st mc) (readyVerdict st) st = st.
Proof.
  intros Hd. pose proof (finalStatus_fields r env (with_status st mc) (readyVerdict st) st) as (F1 & F2 & F3 & F4 & F5 & F6 & F7 & F8).
  apply status_eta; try assumption.
  - rewrite F8. symmetry. apply (sd_account _ _ _ _ _ _ Hd).
  - rewrite F7. apply (sd_conditions _ _ _ _ _ _ Hd).
Qed.

Lemma settled_run (r : Reconciler) (mc : MailCredential) (env : ReconcileEnv) (interval grace : Duration)
    (st : MailCredentialStatus) (s : St) :
  settled r mc env interval grace st → en_account env = SAFound →
  reconcileObject r env (with_status st mc) s =
    Build_Outcome s None (minPositive 0 (nextCredentialEvent st (en_now env) interval)) None None.
Proof.
  intros Hd Hacc. pose proof (settled_not_due _ _ _ _ _ _ Hd) as Hdue. pose proof (settled_final _ _ _ _ _ _ Hd) as Hfin.
  destruct Hd as [Hg He (st0 & st1 & Hspec) (cur & Hc & Hh & _) Hprev Hu _ _ Hgen _ _].
  unfold reconcileObject. cbn [mc_Status with_status].
  assert (set_identity_fields (with_status st mc) st = st) as ->.
  { unfold set_identity_fields. cbn [mc_Meta mc_Name mc_Namespace with_status]. destruct st; cbn in *. by rewrite Hu, Hgen. }
  rewrite (checkSpec_again r mc _ _ _ _ st cur (with_status st mc) Hg Hspec eq_refl eq_refl Hc Hh), Hacc.
  change (Generated (with_status st mc)) with (Generated mc). rewrite Hg. cbn [negb]. unfold generatedStep.
  assert (dropExpired (en_now env) st = st) as ->.
  { unfold dropExpired. destruct (mcst_Previous st) as [prev|]; [|reflexivity].
    destruct (Z.leb_spec (ph_ValidUntil prev) (en_now env)); [|reflexivity]. specialize (Hprev prev eq_refl). lia. }
  rewrite He. cbn [negb]. cbv zeta. change (with_status st (with_status st mc)) with (with_status st mc). rewrite Hdue.
  unfold finish. fold (readyVerdict st). rewrite Hfin. cbn [mc_Status with_status].
  rewrite bool_decide_true by reflexivity. reflexivity.
Qed.

(** C26. The controller comes to rest: after a run that issued a password and
    stored the status, a further run on the stored object, with the ServiceAccount
    still there and the guard's verdict unchanged, writes neither a Secret nor the
    status and reports no error, at any time before the next rotation is due and
    the previous password expires.  Its requeue time is the next of these events. *)
Theorem reconcile_comes_to_rest (r : Reconciler) (env env2 : ReconcileEnv) (s s2 : St) (p : gostring)
    (st : MailCredentialStatus) (mc : MailCredential) (interval grace : Duration) :
  oc_Issued (Reconcile r env s) = Some p → oc_Written (Reconcile r env s) = Some st → subject env = Some mc →
  NoDup (c_Type <$> mcst_Conditions (mc_Status mc)) →
  rotationSettings (mcs_Rotation (mc_Spec mc)) = Ok (interval, grace) →
  en_cached env2 = Ok (with_status (stored st) mc) → en_account env2 = SAFound → en_guard_end env2 = en_guard_end env →
  (0 < interval → en_now env2 < whole_seconds (en_now env) + interval) →
  (∀ prev, mcst_Previous (stored st) = Some prev → en_now env2 < ph_ValidUntil prev) →
  Reconcile r env2 s2 =
    Build_Outcome s2 None (minPositive 0 (nextCredentialEvent (stored st) (en_now env2) interval)) None None.
Proof.
  intros Hi Hw Hsub Hnd Hrot Hcache Hacc Hguard Hint Hprev.
  apply Reconcile_issue in Hi as (mc' & interval' & grace' & st0 & Hi).
  pose proof (is_subject _ _ _ _ _ _ _ _ _ Hi) as Hsub'. rewrite Hsub in Hsub'. injection Hsub' as <-.
  pose proof (is_generated _ _ _ _ _ _ _ _ _ Hi) as Hg. pose proof (is_spec _ _ _ _ _ _ _ _ _ Hi) as Hspec.
  destruct (checkSpec_generated _ _ _ _ _ _ Hg Hspec) as (_ & _ & _ & Hrot' & _).
  rewrite Hrot in Hrot'. injection Hrot' as <- <-.
  destruct (issue_usable _ _ _ _ _ _ _ _ _ _ Hi Hw Hnd) as (_ & Hun & Hcur & _).
  destruct (issue_fields _ _ _ _ _ _ _ _ _ _ Hi Hw) as (Hs & Hrq & Hgen & Hsa & cs & Hcs).
  pose proof (is_enabled _ _ _ _ _ _ _ _ _ Hi) as He.
  assert (settled r mc env2 interval grace (stored st)) as Hd.
  { assert (∃ cur, mcst_Current (stored st) = Some cur ∧ IsGeneratedHash (ch_Hash cur) = true ∧
      (0 < interval → en_now env2 < ch_CreatedAt cur + interval)).
    { cbn [stored mcst_Current]. rewrite Hcur. eexists. split; [reflexivity|]. split; [apply HashGenerated_is|exact Hint]. }
    constructor; try assumption; [by eauto|].
    cbn [stored mcst_Conditions]. rewrite Hcs. by apply conditionsFor_again. }
  unfold Reconcile. rewrite Hcache. unfold rotationLooksDue.
  change (Generated (with_status (stored st) mc)) with (Generated mc).
  rewrite Hg. cbn [negb mc_Spec with_status]. rewrite Hrot, (settled_not_due _ _ _ _ _ _ Hd).
  rewrite bool_decide_true by reflexivity. by apply (settled_run _ _ _ _ grace).
Qed.

End issuing.

(** ** Witnesses *)

Module CredExample.
(** An API server whose calls do what was asked and always answer. *)
Definition secret_map : SecretAPI (gmap secret_key Secret) := {|
  api_secrets := λ s, s;
  api_create := λ k v s, match s !! k with Some _ => (s, Some AlreadyExists) | None => (<[k := v]> s, None) end;
  api_patch := λ k name uid d s,
    match s !! k with
    | None => (s, Some NotFound)
    | Some v => if (sec_Labels v !! CredentialLabel == Some name) && (sec_Annotations v !! CredentialUIDAnnotation == Some uid)
                then (<[k := set_data d v]> s, None) else (s, Some Invalid)
    end |}.

#[local] Instance secret_map_laws : @SecretAPILaws _ secret_map.
Proof.
  split; simpl.
  - intros k v s s'. by destruct (s !! k) eqn:E; intros [= <-].
  - intros k v s s' e. destruct (s !! k) eqn:E; intros [= <- <-]; by left.
  - intros k name uid d s s'. destruct (s !! k) as [v|] eqn:E; [|done]. destruct (_ && _) eqn:Hb; intros [= <-].
    apply andb_true_iff in Hb as [Hl%bool_decide_eq_true Ha%bool_decide_eq_true]. by exists v.
  - intros k name uid d s s' e. destruct (s !! k) as [v|]; [destruct (_ && _)|]; intros [= <- <-]; by left.
Defined.

Definition filter_condition : RemoveCondition := {| RemoveStatusCondition := λ cs t, List.filter (λ c, c_Type c != t) cs |}.
#[local] Instance filter_condition_laws : @RemoveConditionLaws filter_condition.
Proof. by split. Defined.

Definition short_texts : ErrorTexts := {|
  phc_text := λ _, lit "not an argon2id hash"; rotation_text := λ _, lit "invalid rotation"; api_text := λ _, lit "write failed" |}.

#[local] Existing Instances secret_map filter_condition short_texts simple_names toy_hashes exact_fractions list_conditions list_lru.

Definition Day : Duration := 24 * Hour.

(** A credential whose password ("old") is 91 days old, with rotation every 90 days
    and an hour of grace, and its Secret beside one of somebody else. *)
Definition aged : MailCredential := {|
  mc_Meta := meta_of "team" "app";
  mc_Spec := {| mcs_ServiceAccountName := "app-sa"; mcs_SecretName := "app-mail";
                mcs_Rotation := Some {| rot_Interval := "90d"; rot_GracePeriod := "1h" |}; mcs_PasswordHash := [] |};
  mc_Status := {| mcst_Username := "app.team"; mcst_SecretName := "app-mail"; mcst_ServiceAccountName := "app-sa";
    mcst_Current := Some {| ch_Hash := HashGenerated "old"; ch_CreatedAt := 0 |}; mcst_Previous := None;
    mcst_LastRotateRequest := []; mcst_Conditions := []; mcst_ObservedGeneration := 1 |} |}.

Definition reconciler : Reconciler :=
  {| rc_Exclusions := ParseExclusions "kube-*" "sigillum"; rc_GeneratedEnabled := true; rc_SMTPHost := "sigillum-smtp"; rc_SMTPPort := 587 |}.

Definition env_of (now : Time) (mc : MailCredential) (update : option APIError) : ReconcileEnv := {|
  en_now := now; en_cached := Ok mc; en_fresh := Ok mc; en_account := SAFound; en_guard := (true, []);
  en_guard_end := (true, []); en_password := Some (lit "fresh"); en_update := update;
  en_retry := λ _, {| sa_get := Ok mc; sa_update := Some Conflict; sa_cancelled := false |} |}.

Definition app_secret : Secret := credentialSecret reconciler aged "app.team" "old".
Definition other_secret : Secret :=
  {| sec_Labels := ∅; sec_Annotations := ∅; sec_Owners := []; sec_Type := "Opaque"; sec_Data := ∅ |}.
Definition secrets : gmap secret_key Secret :=
  <[secretKey aged := app_secret]> {[(lit "team", lit "other") := other_secret]}.

Definition env : ReconcileEnv := env_of (91 * Day) aged None.
Definition run : Outcome (gmap secret_key Secret) := Reconcile reconciler env secrets.
Definition rotated : MailCredentialStatus := default (mc_Status aged) (oc_Written run).

Lemma run_issued : oc_Issued run = Some (lit "fresh").
Proof. vm_compute. reflexivity. Qed.

Lemma run_written : oc_Written run = Some rotated.
Proof. match goal with |- ?a = ?b => exact (eq_refl b <: a = b) end. Qed.

Lemma aged_conditions : NoDup (c_Type <$> mcst_Conditions (mc_Status aged)).
Proof. apply NoDup_nil_2. Qed.

Definition later_reader : reader := λ ns name,
  if (ns == lit "team") && (name == lit "app") then Ok (with_status (stored rotated) aged) else Err GetNotFound.

Lemma issued_password_logs_in_witness :
  (∃ v, api_secrets (oc_Secrets run) !! secretKey aged = Some v ∧ owned_by (mc_Name aged) (om_UID (mc_Meta aged)) v ∧
     sec_Data v !! CredentialSecretUsernameKey = Some (Username (mc_Name aged) (mc_Namespace aged)) ∧
     sec_Data v !! CredentialSecretPasswordKey = Some (lit "fresh")) ∧
  ∃ res, snd (Verify later_reader (92 * Day) true (Username (mc_Name aged) (mc_Namespace aged)) "fresh" []) = Ok res ∧
    r_Namespace res = mc_Namespace aged ∧ r_ServiceAccount res = mcs_ServiceAccountName (mc_Spec aged) ∧ r_Previous res = false.
Proof.
  apply (issued_password_logs_in reconciler env secrets "fresh" rotated aged later_reader).
  - exact run_issued.
  - exact run_written.
  - reflexivity.
  - exact aged_conditions.
  - discriminate.
  - discriminate.
  - discriminate.
  - intros Hin%elem_spec. vm_compute in Hin. discriminate.
  - reflexivity.
Defined.

Lemma rotated_password_grace_witness :
  snd (Check (91 * Day + Minute) true (with_status (stored rotated) aged) "old" []) =
    if (0 <? Hour) && (91 * Day + Minute <? whole_seconds (91 * Day + Hour))
    then Ok (result_of (with_status (stored rotated) aged) (HashGenerated "old") true)
    else Err ErrInvalid.
Proof.
  apply (rotated_password_grace reconciler env secrets "fresh" "old" rotated aged
    {| ch_Hash := HashGenerated "old"; ch_CreatedAt := 0 |} (90 * Day) Hour).
  - exact run_issued.
  - exact run_written.
  - reflexivity.
  - exact aged_conditions.
  - discriminate.
  - vm_compute. reflexivity.
  - reflexivity.
  - vm_compute. reflexivity.
  - vm_compute. discriminate.
Defined.

Lemma foreign_secrets_untouched_witness :
  api_secrets (oc_Secrets run) !! (lit "team", lit "other") = Some other_secret.
Proof.
  apply (foreign_secrets_untouched reconciler env secrets (lit "team", lit "other") other_secret).
  - unfold secrets. simpl. rewrite lookup_insert_ne by (vm_compute; discriminate). apply lookup_singleton_eq.
  - intros mc Hmc. left. injection Hmc as <-. vm_compute. discriminate.
Defined.

(** Every attempt to store the status meets a conflict. *)
Lemma issued_hash_recorded_witness :
  let env := env_of (91 * Day) aged (Some Conflict) in
  is_Some (oc_Written (Reconcile reconciler env secrets)) ∨
  ∃ mc, subject env = Some mc ∧ is_Some (en_update env) ∧
    gave_up statusRetrySteps (en_retry env) mc (oc_Error (Reconcile reconciler env secrets)).
Proof.
  apply (issued_hash_recorded reconciler (env_of (91 * Day) aged (Some Conflict)) secrets "fresh"). vm_compute. reflexivity.
Defined.

Lemma reconcile_comes_to_rest_witness :
  let later := env_of (91 * Day + Minute) (with_status (stored rotated) aged) None in
  Reconcile reconciler later secrets =
    Build_Outcome secrets None (minPositive 0 (nextCredentialEvent (stored rotated) (en_now later) (90 * Day))) None None.
Proof.
  apply (reconcile_comes_to_rest reconciler env _ secrets secrets "fresh" rotated aged (90 * Day) Hour).
  - exact run_issued.
  - exact run_written.
  - reflexivity.
  - exact aged_conditions.
  - vm_compute. reflexivity.
  - reflexivity.
  - reflexivity.
  - reflexivity.
  - intros _. vm_compute. reflexivity.
  - intros prev. vm_compute. intros [= <-]. reflexivity.
Defined.
End CredExample.
