(* ===== verification/MimeText.v ===== *)
(** * Text encodings of the MIME builder ([internal/driver/smtp/mime.go])

    The encoders below the message assembler: quoted-printable bodies, base64
    attachments with their line breaks, header folding, encoded-words and the
    Content-Disposition value.  Each is proved against a reference decoder written
    from the RFC it names, and its line lengths are bounded. *)

From S2P Require Import Prelude GoStrings Types Address Driver Credential.

(** ** Lines *)

(** [strings.Split(s, crlf)] *)
Fixpoint SplitCRLF (s : gostring) : list gostring :=
  match s with
  | [] => [[]]
  | c :: t =>
      let keep := match SplitCRLF t with [] => [[c]] | p :: ps => (c :: p) :: ps end in
      match t with
      | d :: t' => if Ascii.eqb c CR && Ascii.eqb d LF then [] :: SplitCRLF t' else keep
      | [] => keep
      end
  end.

Definition longest (l : list gostring) : nat := foldl (λ n t, if (n <? length t)%nat then length t else n) 0%nat l.
Definition longestLine (s : gostring) : nat := longest (SplitCRLF s).
Definition longestToken (s : gostring) : nat := longest (Split s SP).

Definition foldHeaderMax : nat := 78.
Definition maxHeaderLine : nat := 998.
Definition maxFoldableToken : nat := maxHeaderLine - length (lit "Content-Transfer-Encoding: ").

(** ** Quoted-printable *)

(** [fmt.Sprintf("=%02X", c)] and [upperhex[c>>4]], [upperhex[c&0x0f]] *)
Definition upperhex (n : Z) : ascii := if n <? 10 then zb (48 + n) else zb (55 + n).
Definition hex_pair (c : ascii) : gostring := [upperhex (bz c / 16); upperhex (bz c `mod` 16)].

Definition qp_max : nat := 76.

Definition qp_escaped (c : ascii) : bool := Ascii.eqb c c_eq || (bz c <? 32) || (126 <? bz c).
Definition qp_encoded (c : ascii) : gostring := if qp_escaped c then c_eq :: hex_pair c else [c].

(** The loop of [writeQuotedPrintable], with the column it has reached. *)
Fixpoint qp_loop (s : gostring) (col : nat) : gostring :=
  match s with
  | [] => []
  | c :: s =>
      if Ascii.eqb c LF then crlf ++ qp_loop s 0
      else if Ascii.eqb c CR then qp_loop s col
      else
        let encoded := qp_encoded c in
        if (qp_max - 1 <? col + length encoded)%nat
        then c_eq :: crlf ++ encoded ++ qp_loop s (0 + length encoded)
        else encoded ++ qp_loop s (col + length encoded)
  end.

Definition writeQuotedPrintable (s : gostring) : gostring := qp_loop s 0.

(** ** Base64 attachments *)

(** [base64.StdEncoding.EncodeToString] *)
Definition std_Encode (s : gostring) : gostring :=
  b64_Encode c_plus c_slash s ++ replicate (match (length s `mod` 3)%nat with 1 => 2 | 2 => 1 | _ => 0 end)%nat c_eq.

(** [base64.NewEncoder]: what one [Write] of everything and [Close] hand to the
    underlying writer: 1024 characters for each 768 bytes, the rest of the whole
    groups, and the last incomplete group. *)
Fixpoint encoder_writes (fuel : nat) (p : gostring) : list gostring :=
  match fuel with
  | O => []
  | S fuel =>
      if (3 <=? length p)%nat then
        let nn := if (length p <? 768)%nat then (length p - length p `mod` 3)%nat else 768%nat in
        std_Encode (take nn p) :: encoder_writes fuel (drop nn p)
      else match p with [] => [] | _ => [std_Encode p] end
  end.

Record lineBreakWriter := { lb_every : nat; lb_col : nat }.

(** The loop of [lineBreakWriter.Write]: what it writes, and the column after it. *)
Fixpoint lb_loop (fuel : nat) (l : lineBreakWriter) (p : gostring) : gostring * nat :=
  match fuel with
  | O => ([], lb_col l)
  | S fuel =>
      match p with
      | [] => ([], lb_col l)
      | _ =>
          let room := (lb_every l - lb_col l)%nat in
          let '(brk, col, room) := if (room <=? 0)%nat then (crlf, 0%nat, lb_every l) else ([], lb_col l, room) in
          let n := if (room <? length p)%nat then room else length p in
          let '(out, col) := lb_loop fuel {| lb_every := lb_every l; lb_col := (col + n)%nat |} (drop n p) in
          (brk ++ take n p ++ out, col)
      end
  end.

(** The receiver is a value: the column of this call is not kept for the next. *)
Definition lineBreakWriter_Write (l : lineBreakWriter) (p : gostring) : gostring := fst (lb_loop (S (length p)) l p).

(** The encoded content of an attachment, as [writeAttachment] writes it. *)
Definition attachmentBody (content : gostring) : gostring :=
  concat (lineBreakWriter_Write {| lb_every := 76; lb_col := 0 |} <$> encoder_writes (S (length content)) content).

(** ** Folding *)

(** The loop of [foldHeaderLine] over the tokens after the first. *)
Fixpoint fold_loop (cur : gostring) (toks : list gostring) : gostring :=
  match toks with
  | [] => cur ++ crlf
  | tok :: toks =>
      if (foldHeaderMax <? length cur + 1 + length tok)%nat
      then cur ++ crlf ++ fold_loop (SP :: tok) toks
      else fold_loop (cur ++ SP :: tok) toks
  end.

Definition c_colon : ascii := ":".

Definition foldHeaderLine (key value : gostring) : gostring :=
  match Split value SP with
  | [] => key ++ [c_colon] ++ crlf
  | tok :: toks => fold_loop (key ++ [c_colon] ++ SP :: tok) toks
  end.

(** ** Encoded-words *)

Definition maxChunk : nat := 45.

(** The inner loop of [forceEncodedWords]: the length of the next chunk. *)
Fixpoint chunk_len (fuel : nat) (s : gostring) (n : nat) : nat :=
  match fuel with
  | O => n
  | S fuel =>
      if (n <? length s)%nat then
        let size := snd (DecodeRune (drop n s)) in
        if (maxChunk <? n + size)%nat && (0 <? n)%nat then n else chunk_len fuel s (n + size)
      else n
  end.

Definition encodedWord (s : gostring) : gostring := lit "=?utf-8?b?" ++ std_Encode s ++ lit "?=".

Fixpoint encoded_words (fuel : nat) (s : gostring) : list gostring :=
  match fuel, s with
  | S fuel, _ :: _ =>
      let n := chunk_len (S (length s)) s 0 in
      encodedWord (take n s) :: encoded_words fuel (drop n s)
  | _, _ => []
  end.

Definition forceEncodedWords (s : gostring) : gostring := Join (encoded_words (length s) s) " ".

(** ** Content-Disposition *)

Definition isASCII (s : gostring) : bool := forallb (λ c, (bz c <=? 126) && (32 <=? bz c)) s.

(** Ranging over a string visits its runes. *)
Definition asciiFilenameFallback (s : gostring) : gostring :=
  (λ r, if (32 <=? r) && (r <=? 126) then zb r else "_"%char) <$> runes s.

Definition attr_char (c : ascii) : bool := is_lower c || is_upper c || is_digit c || elem c "!#$&+-.^_`|~".

Definition rfc5987Encode (s : gostring) : gostring :=
  concat ((λ c, if attr_char c then [c] else "%"%char :: hex_pair c) <$> s).

Definition c_quote : ascii := "034".
Definition c_backslash : ascii := "\".

(** [strings.ReplaceAll] of the backslash, then of the double quote. *)
Definition escape_byte (x : ascii) (s : gostring) : gostring :=
  concat ((λ c, if Ascii.eqb c x then [c_backslash; c] else [c]) <$> s).

Definition contentDispositionValue (disp filename : gostring) : gostring :=
  let escaped := escape_byte c_quote (escape_byte c_backslash (asciiFilenameFallback filename)) in
  let v := disp ++ lit "; filename=" ++ [c_quote] ++ escaped ++ [c_quote] in
  if negb (isASCII filename) then v ++ lit "; filename*=UTF-8''" ++ rfc5987Encode filename else v.

(** ** Lines: facts *)

Definition prepend (l : gostring) (ls : list gostring) : list gostring :=
  match ls with [] => [l] | p :: ps => (l ++ p) :: ps end.

Lemma SplitCRLF_nonempty (s : gostring) : SplitCRLF s ≠ [].
Proof.
  destruct s as [|c [|d s]]; [done|done|]. cbn [SplitCRLF]. destruct (_ && _); [done|]. by repeat case_match.
Qed.

Lemma SplitCRLF_cons (c : ascii) (s : gostring) : c ≠ CR → SplitCRLF (c :: s) = prepend [c] (SplitCRLF s).
Proof.
  intros Hc. cbn [SplitCRLF]. destruct s as [|d s]; [done|].
  destruct (Ascii.eqb_spec c CR); [done|]. cbn [andb]. by destruct (SplitCRLF (d :: s)).
Qed.

Lemma prepend_app (a b : gostring) (ls : list gostring) : prepend a (prepend b ls) = prepend (a ++ b) ls.
Proof. destruct ls; simpl; [done|]. by rewrite <- (assoc_L (++)). Qed.

Lemma SplitCRLF_app (l s : gostring) : CR ∉ l → SplitCRLF (l ++ s) = prepend l (SplitCRLF s).
Proof.
  induction l as [|c l IH]; intros Hl; simpl app.
  - pose proof (SplitCRLF_nonempty s). by destruct (SplitCRLF s).
  - apply not_elem_of_cons in Hl as [Hc Hl]. rewrite SplitCRLF_cons by done. rewrite IH by done. apply (prepend_app [c]).
Qed.

Lemma SplitCRLF_crlf (s : gostring) : SplitCRLF (crlf ++ s) = [] :: SplitCRLF s.
Proof. done. Qed.

(** A line and its end. *)
Lemma SplitCRLF_line (l s : gostring) : CR ∉ l → SplitCRLF (l ++ crlf ++ s) = l :: SplitCRLF s.
Proof. intros Hl. rewrite SplitCRLF_app by done. rewrite SplitCRLF_crlf. simpl. by rewrite (right_id_L [] (++)). Qed.

Lemma SplitCRLF_no_cr (l : gostring) : CR ∉ l → SplitCRLF l = [l].
Proof. intros Hl. rewrite <- (right_id_L [] (++) l) at 1. rewrite SplitCRLF_app by done. simpl. by rewrite (right_id_L [] (++)). Qed.

Lemma longest_le (l : list gostring) (n : nat) : (longest l ≤ n)%nat ↔ Forall (λ t, (length t ≤ n)%nat) l.
Proof.
  unfold longest. assert (∀ m, (foldl (λ n t, if (n <? length t)%nat then length t else n) m l ≤ n)%nat ↔
    (m ≤ n)%nat ∧ Forall (λ t, (length t ≤ n)%nat) l) as H.
  { induction l as [|t l IH]; intros m; simpl; [rewrite Forall_nil; tauto|]. rewrite IH, Forall_cons.
    destruct (Nat.ltb_spec m (length t)); intuition lia. }
  rewrite H. split; [by intros [_ ?]|intros; split; [lia|done]].
Qed.

(** The lines that follow a text at column [col]: the first shares its line. *)
Definition fits (n col : nat) (ls : list gostring) : Prop :=
  match ls with [] => True | h :: t => (col + length h ≤ n)%nat ∧ Forall (λ l, (length l ≤ n)%nat) t end.

Lemma fits_longest (n : nat) (s : gostring) : fits n 0 (SplitCRLF s) ↔ (longestLine s ≤ n)%nat.
Proof.
  unfold longestLine. rewrite longest_le. pose proof (SplitCRLF_nonempty s). destruct (SplitCRLF s) as [|h t]; [done|].
  by rewrite Forall_cons.
Qed.

Lemma fits_prepend (n col : nat) (l : gostring) (ls : list gostring) :
  ls ≠ [] → fits n col (prepend l ls) ↔ fits n (col + length l) ls.
Proof. destruct ls as [|h t]; [done|]. intros _. simpl. rewrite length_app. by rewrite Nat.add_assoc. Qed.

Lemma fits_crlf (n col : nat) (s : gostring) : fits n col (SplitCRLF (crlf ++ s)) ↔ (col ≤ n)%nat ∧ fits n 0 (SplitCRLF s).
Proof.
  rewrite SplitCRLF_crlf. cbn [fits length]. rewrite Nat.add_0_r. pose proof (SplitCRLF_nonempty s).
  destruct (SplitCRLF s) as [|h t]; [done|]. cbn [fits]. by rewrite Forall_cons.
Qed.

(** ** Quoted-printable: the text comes back, lines stay short *)

(** RFC 2045 6.7: soft line breaks vanish, "=XY" is a byte, the rest is literal. *)
Fixpoint qp_decode (s : gostring) : option gostring :=
  match s with
  | [] => Some []
  | c :: t =>
      if Ascii.eqb c c_eq then
        match t with
        | a :: b :: u =>
            if Ascii.eqb a CR && Ascii.eqb b LF then qp_decode u
            else x ← hex_value a; y ← hex_value b; r ← qp_decode u; Some (zb (16 * x + y) :: r)
        | _ => None
        end
      else r ← qp_decode t; Some (c :: r)
  end.

(** The text as a mail body: lines end in CRLF, stray carriage returns are dropped. *)
Fixpoint canonical_text (s : gostring) : gostring :=
  match s with
  | [] => []
  | c :: s => if Ascii.eqb c LF then crlf ++ canonical_text s
              else if Ascii.eqb c CR then canonical_text s else c :: canonical_text s
  end.

Lemma hex_pair_value (c : ascii) :
  hex_value (upperhex (bz c / 16)) = Some (bz c / 16) ∧ hex_value (upperhex (bz c `mod` 16)) = Some (bz c `mod` 16).
Proof. destruct c as [[] [] [] [] [] [] [] []]; split; vm_compute; reflexivity. Qed.

Lemma hex_pair_bytes (c x : ascii) : x ∈ hex_pair c → x ≠ CR ∧ x ≠ LF ∧ x ≠ c_eq.
Proof.
  intros Hx. unfold hex_pair in Hx. rewrite !elem_of_cons, elem_of_nil in Hx.
  destruct Hx as [->|[->|[]]]; destruct c as [[] [] [] [] [] [] [] []]; vm_compute; split_and!; discriminate.
Qed.

Lemma qp_encoded_no_cr (c : ascii) : CR ∉ qp_encoded c.
Proof.
  unfold qp_encoded. destruct (qp_escaped c) eqn:He.
  - rewrite elem_of_cons. intros [H|H]; [done|]. by apply hex_pair_bytes in H as [? _].
  - intros H%list_elem_of_singleton. by subst c.
Qed.

Lemma qp_decode_encoded (c : ascii) (s : gostring) : qp_decode (qp_encoded c ++ s) = (λ r, c :: r) <$> qp_decode s.
Proof.
  unfold qp_encoded. destruct (qp_escaped c) eqn:He.
  - cbn [app qp_decode hex_pair]. rewrite (proj2 (Ascii.eqb_eq c_eq c_eq)) by done.
    destruct (Ascii.eqb_spec (upperhex (bz c / 16)) CR) as [E|_].
    { exfalso. destruct (hex_pair_bytes c (upperhex (bz c / 16))) as [? _]; [left|done]. }
    cbn [andb]. destruct (hex_pair_value c) as [-> ->]. simpl.
    destruct (qp_decode s); simpl; [|done]. do 2 f_equal.
    rewrite <- (zb_bz c) at 3. f_equal. pose proof (Z.div_mod (bz c) 16). lia.
  - unfold qp_escaped in He. cbn [app qp_decode]. destruct (Ascii.eqb c c_eq); [done|]. by destruct (qp_decode s).
Qed.

Lemma qp_loop_decode (s : gostring) (col : nat) : qp_decode (qp_loop s col) = Some (canonical_text s).
Proof.
  revert col. induction s as [|c s IH]; intros col; [done|]. cbn [qp_loop canonical_text].
  destruct (Ascii.eqb c LF); [|destruct (Ascii.eqb c CR); [by apply IH|]].
  - cbn [app crlf]. cbn [qp_decode]. change (Ascii.eqb CR c_eq) with false. change (Ascii.eqb LF c_eq) with false.
    cbn [mbind option_bind]. by rewrite IH.
  - destruct (_ <? _)%nat.
    + cbn [app crlf qp_decode]. rewrite qp_decode_encoded, IH. done.
    + by rewrite qp_decode_encoded, IH.
Qed.

Lemma qp_encoded_length (c : ascii) : (1 ≤ length (qp_encoded c) ≤ 3)%nat.
Proof. unfold qp_encoded. destruct (qp_escaped c); simpl; lia. Qed.

Lemma qp_loop_fits (s : gostring) (col : nat) : (col ≤ 75)%nat → fits 76 col (SplitCRLF (qp_loop s col)).
Proof.
  revert col. induction s as [|c s IH]; intros col Hcol; [split; [simpl; lia|constructor]|]. cbn [qp_loop].
  destruct (Ascii.eqb c LF); [rewrite fits_crlf; split; [lia|apply IH; lia]|].
  destruct (Ascii.eqb c CR); [by apply IH|]. pose proof (qp_encoded_length c).
  assert (∀ k, (k + length (qp_encoded c) ≤ 75)%nat →
    fits 76 k (SplitCRLF (qp_encoded c ++ qp_loop s (k + length (qp_encoded c))))) as Hgo.
  { intros k Hk. rewrite SplitCRLF_app by apply qp_encoded_no_cr. rewrite fits_prepend by apply SplitCRLF_nonempty. by apply IH. }
  unfold qp_max. destruct (Nat.ltb_spec (76 - 1) (col + length (qp_encoded c))).
  - rewrite SplitCRLF_cons by done. rewrite fits_prepend by apply SplitCRLF_nonempty.
    rewrite fits_crlf. simpl length. split; [lia|]. apply (Hgo 0%nat). lia.
  - apply Hgo. lia.
Qed.

(** ** Base64 attachments: the content comes back, lines are bounded *)

Definition is_break (c : ascii) : bool := Ascii.eqb c CR || Ascii.eqb c LF.
Definition without_breaks (s : gostring) : gostring := List.filter (λ c, negb (is_break c)) s.

Lemma std_digit (n : Z) : 0 ≤ n < 64 →
  let c := b64_digit c_plus c_slash n in is_break c = false ∧ c ≠ c_eq ∧ (32 < bz c ≤ 126).
Proof.
  intros Hn. assert (forallb (λ n, let c := b64_digit c_plus c_slash n in
    negb (is_break c) && negb (Ascii.eqb c c_eq) && (32 <? bz c) && (bz c <=? 126)) (seqZ 0 64) = true) as Hall
    by (vm_compute; reflexivity).
  rewrite forallb_forall in Hall. specialize (Hall n). rewrite <- list_elem_of_In, elem_of_seqZ in Hall.
  specialize (Hall ltac:(lia)). rewrite !andb_true_iff, !negb_true_iff in Hall. destruct Hall as [[[H1 H2] H3] H4].
  split; [done|]. split; [|lia]. by apply Ascii.eqb_neq.
Qed.

Lemma b64_chars (s : gostring) (c : ascii) : c ∈ b64_Encode c_plus c_slash s →
  is_break c = false ∧ c ≠ c_eq ∧ (32 < bz c ≤ 126).
Proof.
  rewrite b64_Encode_values. intros (n & -> & Hn)%list_elem_of_fmap. apply std_digit.
  pose proof (b64_values_range c_plus c_slash s) as Hr. rewrite Forall_forall in Hr. by apply Hr.
Qed.

Lemma std_Encode_chars (s : gostring) (c : ascii) : c ∈ std_Encode s → is_break c = false ∧ (32 < bz c ≤ 126).
Proof.
  unfold std_Encode. rewrite elem_of_app. intros [Hc|Hc].
  - apply b64_chars in Hc. tauto.
  - apply elem_of_replicate in Hc as [-> _]. split; [reflexivity|]. vm_compute. split; [reflexivity|discriminate].
Qed.

Lemma std_Encode_no_cr (s : gostring) : CR ∉ std_Encode s.
Proof. intros H%std_Encode_chars. destruct H as [H _]. vm_compute in H. discriminate. Qed.

Lemma three_more (n : nat) : (S (S (S n)) `mod` 3 = n `mod` 3 ∧ S (S (S n)) / 3 = S (n / 3))%nat.
Proof.
  replace (S (S (S n))) with (n + 1 * 3)%nat by lia. rewrite Nat.Div0.mod_add, Nat.div_add by lia. split; [reflexivity|lia].
Qed.

Lemma b64_Encode_app (a b : gostring) : (length a `mod` 3 = 0)%nat →
  b64_Encode c_plus c_slash (a ++ b) = b64_Encode c_plus c_slash a ++ b64_Encode c_plus c_slash b.
Proof.
  induction a as [|x|x y|x y z a IH] using three_at_a_time; intros Hm; [done|done|done|].
  cbn [app b64_Encode]. rewrite IH; [done|]. by rewrite <- (proj1 (three_more _)).
Qed.

Lemma b64_length (s : gostring) : (length s `mod` 3 = 0)%nat →
  length (b64_Encode c_plus c_slash s) = (4 * (length s / 3))%nat.
Proof.
  induction s as [|x|x y|x y z s IH] using three_at_a_time; intros Hm; [done|done|done|].
  cbn [b64_Encode length] in *. rewrite (proj1 (three_more _)) in Hm. rewrite (proj2 (three_more _)), IH by done. lia.
Qed.

Lemma std_Encode_whole (a : gostring) : (length a `mod` 3 = 0)%nat → std_Encode a = b64_Encode c_plus c_slash a.
Proof. intros H. unfold std_Encode. rewrite H. apply (right_id_L [] (++)). Qed.

Lemma std_Encode_app (a b : gostring) : (length a `mod` 3 = 0)%nat → std_Encode (a ++ b) = std_Encode a ++ std_Encode b.
Proof.
  intros Ha. rewrite (std_Encode_whole a) by done. unfold std_Encode. rewrite b64_Encode_app by done.
  rewrite length_app, Nat.Div0.add_mod, Ha, Nat.add_0_l, Nat.Div0.mod_mod. by rewrite (assoc_L (++)).
Qed.

Lemma std_Encode_short (p : gostring) : (0 < length p < 3)%nat → length (std_Encode p) = 4%nat.
Proof. destruct p as [|a [|b [|c p]]]; simpl; intros; try lia; done. Qed.

(** The column after [p] was written from writer column [c] and line column [k]. *)
Definition end_col (c k len : nat) : nat :=
  if (len <=? 76 - c)%nat then (k + len)%nat else S ((c + len - 1) `mod` 76).

Lemma end_col_step (c k len n : nat) : (c < 76)%nat → (0 < len)%nat → n = Nat.min (76 - c) len →
  end_col (c + n) (k + n) (len - n) = end_col c k len.
Proof.
  intros Hc Hl ->. unfold end_col. destruct (Nat.leb_spec len (76 - c)).
  - rewrite Nat.min_r by lia. rewrite Nat.sub_diag. simpl. lia.
  - rewrite Nat.min_l by lia. destruct (Nat.leb_spec (len - (76 - c)) (76 - (c + (76 - c)))); [lia|].
    do 2 f_equal. lia.
Qed.

Lemma end_col_break (k len : nat) : (0 < len)%nat →
  end_col 76 k len = end_col 0 0 len.
Proof.
  intros Hl. unfold end_col. change (76 - 76)%nat with 0%nat. destruct (Nat.leb_spec len 0); [lia|].
  replace (76 + len - 1)%nat with (len - 1 + 1 * 76)%nat by lia. rewrite Nat.Div0.mod_add.
  destruct (Nat.leb_spec len (76 - 0)); [|done]. rewrite Nat.mod_small by lia. lia.
Qed.

Lemma fits_app (n k : nat) (l s : gostring) :
  CR ∉ l → fits n (k + length l) (SplitCRLF s) → fits n k (SplitCRLF (l ++ s)).
Proof. intros Hl. rewrite SplitCRLF_app by done. by rewrite fits_prepend by apply SplitCRLF_nonempty. Qed.

(** One call of the writer, started at its own column [c] on a line that is at [k]. *)
Lemma lb_loop_fits (fuel c k n : nat) (p s : gostring) :
  (length p < fuel)%nat → (c ≤ 76)%nat → CR ∉ p → (76 ≤ n)%nat → (k + Nat.min (76 - c) (length p) ≤ n)%nat →
  fits n (end_col c k (length p)) (SplitCRLF s) →
  fits n k (SplitCRLF (fst (lb_loop fuel {| lb_every := 76; lb_col := c |} p) ++ s)).
Proof.
  revert c k p. induction fuel as [|fuel IH]; intros c k p Hf Hc Hp Hn Hk Hs; [lia|]. destruct p as [|x p'].
  { unfold end_col in Hs. simpl in Hs. by rewrite Nat.add_0_r in Hs. }
  cbn [lb_loop lb_every lb_col]. set (p := x :: p') in *. assert (0 < length p)%nat as Hlen by (simpl; lia).
  assert (∀ c k, (c < 76)%nat → (k + Nat.min (76 - c) (length p) ≤ n)%nat → fits n (end_col c k (length p)) (SplitCRLF s) →
    let m := if (76 - c <? length p)%nat then (76 - c)%nat else length p in
    fits n k (SplitCRLF (take m p ++ fst (lb_loop fuel {| lb_every := 76; lb_col := (c + m)%nat |} (drop m p)) ++ s))) as Hgo.
  { intros c' k' Hc' Hk' Hs' m. assert (m = Nat.min (76 - c') (length p)) as Hm by (unfold m; destruct (Nat.ltb_spec (76 - c') (length p)); lia).
    apply fits_app; [intros Hin; apply Hp; rewrite <- (take_drop m p); by apply elem_of_app; left|].
    rewrite length_take, Nat.min_l by lia. apply IH; rewrite ?length_drop; try lia.
    - intros Hin. apply Hp. rewrite <- (take_drop m p). by apply elem_of_app; right.
    - by rewrite (end_col_step c' k' (length p) m). }
  destruct (Nat.leb_spec (76 - c) 0) as [Hr|Hr].
  - assert (c = 76)%nat as -> by lia. specialize (Hgo 0%nat 0%nat). rewrite Nat.sub_0_r in Hgo. cbv zeta in Hgo.
    rewrite (end_col_break k (length p) Hlen) in Hs. specialize (Hgo ltac:(lia) ltac:(lia) Hs).
    cbv beta iota zeta. destruct (lb_loop fuel _ _) as [out col]. cbn [fst] in *. rewrite <- !app_assoc.
    rewrite fits_crlf. split; [lia|exact Hgo].
  - specialize (Hgo c k ltac:(lia) Hk Hs). cbv zeta in Hgo. cbv beta iota zeta.
    destruct (lb_loop fuel _ _) as [out col]. cbn [app fst] in *. rewrite <- !app_assoc. exact Hgo.
Qed.

Lemma Write_fits (k n : nat) (p s : gostring) :
  CR ∉ p → (76 ≤ n)%nat → (k + Nat.min 76 (length p) ≤ n)%nat → fits n (end_col 0 k (length p)) (SplitCRLF s) →
  fits n k (SplitCRLF (lineBreakWriter_Write {| lb_every := 76; lb_col := 0 |} p ++ s)).
Proof. intros. apply lb_loop_fits; try done; lia. Qed.

Notation breaks := (lineBreakWriter_Write {| lb_every := 76; lb_col := 0 |}).

Lemma encoder_tail_fits (fuel k : nat) (p : gostring) : (length p < 3)%nat → (k ≤ 112)%nat →
  fits 116 k (SplitCRLF (concat (breaks <$> encoder_writes fuel p))).
Proof.
  intros Hp Hk. assert (∀ k, (k ≤ 116)%nat → fits 116 k (SplitCRLF [])) as Hnil by (intros k' ?; split; [simpl; lia|constructor]).
  destruct fuel as [|fuel]; [apply Hnil; lia|]. cbn [encoder_writes].
  destruct (Nat.leb_spec 3 (length p)); [lia|]. destruct p as [|x p']; [apply Hnil; lia|].
  set (p := x :: p') in *. cbn [fmap list_fmap concat]. pose proof (std_Encode_short p) as H4.
  assert (length (std_Encode p) = 4%nat) as Hl by (apply H4; simpl in *; lia).
  apply Write_fits; [apply std_Encode_no_cr|lia|rewrite Hl; simpl; lia|]. apply Hnil. rewrite Hl. cbn. lia.
Qed.

Lemma whole_groups (n : nat) : ((n - n `mod` 3) `mod` 3 = 0)%nat.
Proof.
  rewrite (Nat.div_mod_eq n 3) at 1. replace (3 * (n / 3) + n `mod` 3 - n `mod` 3)%nat with ((n / 3) * 3)%nat by lia.
  apply Nat.Div0.mod_mul.
Qed.

(** The size of the next write: whole groups, at most 768 bytes. *)
Definition next_write (p : gostring) : nat := if (length p <? 768)%nat then (length p - length p `mod` 3)%nat else 768%nat.

Lemma next_write_spec (p : gostring) : (3 ≤ length p)%nat →
  (next_write p `mod` 3 = 0 ∧ 0 < next_write p ≤ length p ∧ length (take (next_write p) p) = next_write p ∧
   next_write p ≤ 768)%nat ∧ (next_write p = 768 ∨ length p - next_write p < 3)%nat.
Proof.
  intros Hp. unfold next_write. pose proof (Nat.mod_upper_bound (length p) 3). pose proof (whole_groups (length p)).
  rewrite length_take. destruct (Nat.ltb_spec (length p) 768); (split; [split_and!|]); try lia; done.
Qed.

Lemma encoder_fits (fuel k : nat) (p : gostring) : (k ≤ 36)%nat →
  fits 116 k (SplitCRLF (concat (breaks <$> encoder_writes fuel p))).
Proof.
  revert k p. induction fuel as [|fuel IH]; intros k p Hk; [split; [simpl; lia|constructor]|].
  destruct (Nat.ltb_spec (length p) 3) as [Hp|Hp]; [apply encoder_tail_fits; lia|].
  cbn [encoder_writes]. destruct (Nat.leb_spec 3 (length p)); [|lia]. fold (next_write p).
  destruct (next_write_spec p Hp) as [(Hm & Hb & Ht & Hmax) Hcase]. cbn [fmap list_fmap concat].
  assert (length (std_Encode (take (next_write p) p)) = 4 * (next_write p / 3))%nat as Hl.
  { rewrite std_Encode_whole, b64_length by (by rewrite Ht). by rewrite Ht. }
  apply Write_fits; [apply std_Encode_no_cr|lia|lia|]. rewrite Hl. destruct Hcase as [->|Hshort].
  - apply IH. vm_compute. lia.
  - apply encoder_tail_fits; [by rewrite length_drop|]. unfold end_col.
    destruct (Nat.leb_spec (4 * (next_write p / 3)) (76 - 0)); [lia|].
    pose proof (Nat.mod_upper_bound (0 + 4 * (next_write p / 3) - 1) 76). lia.
Qed.

Lemma without_breaks_app (a b : gostring) : without_breaks (a ++ b) = without_breaks a ++ without_breaks b.
Proof. apply List.filter_app. Qed.

Lemma lb_loop_content (fuel c : nat) (p : gostring) : (length p < fuel)%nat →
  without_breaks (fst (lb_loop fuel {| lb_every := 76; lb_col := c |} p)) = without_breaks p.
Proof.
  revert c p. induction fuel as [|fuel IH]; intros c p Hf; [lia|]. destruct p as [|x p']; [done|].
  cbn [lb_loop lb_every lb_col]. set (p := x :: p') in *. assert (0 < length p)%nat as Hlen by (simpl; lia).
  assert (∀ c n, (0 < n)%nat → without_breaks (take n p ++ fst (lb_loop fuel {| lb_every := 76; lb_col := c |} (drop n p))) =
    without_breaks p) as Hgo.
  { intros c' n Hn. rewrite without_breaks_app, IH by (rewrite length_drop; lia).
    by rewrite <- without_breaks_app, take_drop. }
  destruct (Nat.leb_spec (76 - c) 0) as [Hr|Hr]; cbv beta iota zeta;
    match goal with |- context [lb_loop fuel ?l (drop ?n p)] =>
      assert (0 < n)%nat as Hn by (destruct (_ <? length p)%nat; lia); specialize (Hgo (lb_col l) n Hn) end;
    cbn [lb_col] in Hgo; destruct (lb_loop fuel _ _); cbn [fst app] in *; exact Hgo.
Qed.

Lemma encoder_content (fuel : nat) (p : gostring) : (length p < fuel)%nat →
  without_breaks (concat (breaks <$> encoder_writes fuel p)) = std_Encode p.
Proof.
  assert (∀ q, without_breaks (breaks (std_Encode q)) = std_Encode q) as Hw.
  { intros q. unfold lineBreakWriter_Write. rewrite lb_loop_content by lia. unfold without_breaks.
    pose proof (std_Encode_chars q) as Hq. induction (std_Encode q) as [|c l IH]; [done|]. simpl.
    destruct (Hq c) as [-> _]; [left|]. simpl. rewrite IH; [done|]. intros x Hx. apply Hq. by right. }
  revert p. induction fuel as [|fuel IH]; intros p Hf; [lia|]. cbn [encoder_writes].
  destruct (Nat.leb_spec 3 (length p)) as [Hp|Hp].
  - fold (next_write p). destruct (next_write_spec p Hp) as [(Hm & Hb & Ht & _) _]. cbn [fmap list_fmap concat].
    rewrite without_breaks_app, Hw, IH by (rewrite length_drop; lia).
    rewrite <- std_Encode_app by (by rewrite Ht). by rewrite take_drop.
  - destruct p as [|x p]; [done|]. cbn [fmap list_fmap concat]. by rewrite (right_id_L [] (++)), Hw.
Qed.

Lemma drop_byte_replicate (c : ascii) (n : nat) (s : gostring) : drop_byte c (replicate n c ++ s) = drop_byte c s.
Proof. induction n as [|n IH]; simpl; [done|]. by rewrite (proj2 (Ascii.eqb_eq c c)). Qed.

Lemma drop_byte_none (c : ascii) (s : gostring) : c ∉ s → drop_byte c s = s.
Proof.
  destruct s as [|x s]; [done|]. intros [Hx _]%not_elem_of_cons. simpl. by destruct (Ascii.eqb_spec x c).
Qed.

Lemma TrimRight_padding (s : gostring) (c : ascii) (n : nat) : c ∉ s → TrimRight (s ++ replicate n c) c = s.
Proof.
  intros Hs. unfold TrimRight. rewrite reverse_app, reverse_replicate, drop_byte_replicate, drop_byte_none;
    [apply reverse_involutive|by rewrite elem_of_reverse].
Qed.

Lemma std_round_trip (s : gostring) : decodeB64 (std_Encode s) = Some s.
Proof.
  unfold decodeB64, std_Encode. rewrite TrimRight_padding by (intros H%b64_chars; tauto).
  by apply b64_round_trip.
Qed.

(** ** Properties of the body encoders *)

(** A quoted-printable body is the text: decoding it by RFC 2045 gives the text
    with its line ends as CRLF and stray carriage returns dropped, and no line of
    it is longer than 76 characters, for every text. *)
Theorem quoted_printable_round_trip (s : gostring) :
  qp_decode (writeQuotedPrintable s) = Some (canonical_text s) ∧ (longestLine (writeQuotedPrintable s) ≤ 76)%nat.
Proof. split; [apply qp_loop_decode|]. apply fits_longest, qp_loop_fits. lia. Qed.

(** An attachment arrives as it was: without its line breaks the body decodes to
    the content, byte for byte.  The lines are bounded, but not by the 76 columns
    of the writer: it forgets its column between calls, and the encoder calls it
    several times. *)
Theorem attachment_round_trip (content : gostring) :
  decodeB64 (without_breaks (attachmentBody content)) = Some content ∧ (longestLine (attachmentBody content) ≤ 116)%nat.
Proof.
  split.
  - unfold attachmentBody. rewrite encoder_content by lia. apply std_round_trip.
  - apply fits_longest, encoder_fits. lia.
Qed.

(** The bound is met: 826 bytes give a line of 116 characters, 58 bytes one of 80. *)
Theorem attachment_lines_too_long :
  longestLine (attachmentBody (replicate 826 "a"%char)) = 116%nat ∧ longestLine (attachmentBody (replicate 58 "a"%char)) = 80%nat.
Proof. split; vm_compute; reflexivity. Qed.

(** RFC 2045 6.7 (3): white space at the end of a line is deleted before decoding. *)
Definition trim_lines (s : gostring) : gostring := Join ((λ l, TrimRight l SP) <$> SplitCRLF s) crlf.

(** A space at the end of a line is written as it is, so such a decoder loses it. *)
Theorem qp_trailing_space_lost :
  let s := lit "total: " ++ [LF] ++ lit "5" in
  writeQuotedPrintable s = canonical_text s ∧ qp_decode (trim_lines (writeQuotedPrintable s)) ≠ Some (canonical_text s).
Proof. split; vm_compute; [reflexivity|discriminate]. Qed.

(** ** Folding *)

Definition starts_wsp (s : gostring) : bool := match s with c :: _ => Ascii.eqb c SP || Ascii.eqb c TAB | [] => false end.

(** RFC 5322 2.2.3: a CRLF before white space is removed. *)
Fixpoint Unfold (s : gostring) : gostring :=
  match s with
  | [] => []
  | c :: t => match t with
              | d :: u => if Ascii.eqb c CR && Ascii.eqb d LF && starts_wsp u then Unfold u else c :: Unfold t
              | [] => [c]
              end
  end.

Lemma Unfold_cons (c : ascii) (s : gostring) : c ≠ CR → Unfold (c :: s) = c :: Unfold s.
Proof. intros Hc. destruct s as [|d s]; [done|]. cbn [Unfold]. by destruct (Ascii.eqb_spec c CR). Qed.

Lemma Unfold_app (l s : gostring) : CR ∉ l → Unfold (l ++ s) = l ++ Unfold s.
Proof.
  induction l as [|c l IH]; [done|]. intros [Hc Hl]%not_elem_of_cons. simpl app. rewrite Unfold_cons by done. by rewrite IH.
Qed.

Lemma Unfold_break (s : gostring) : starts_wsp s = false → Unfold (crlf ++ s) = crlf ++ Unfold s.
Proof.
  intros Hs. cbn [crlf app]. change (Unfold (CR :: LF :: s)) with (if starts_wsp s then Unfold s else CR :: Unfold (LF :: s)).
  rewrite Hs. by rewrite Unfold_cons.
Qed.

Lemma Unfold_fold (s : gostring) : Unfold (crlf ++ SP :: s) = SP :: Unfold s.
Proof. change (Unfold (crlf ++ SP :: s)) with (Unfold (SP :: s)). by apply Unfold_cons. Qed.

Lemma fold_loop_unfold (cur : gostring) (toks : list gostring) (rest : gostring) :
  CR ∉ cur → Forall (λ t, CR ∉ t) toks → starts_wsp rest = false →
  Unfold (fold_loop cur toks ++ rest) = cur ++ concat (cons SP <$> toks) ++ crlf ++ Unfold rest.
Proof.
  revert cur. induction toks as [|tok toks IH]; intros cur Hcur Ht Hr; cbn [fold_loop].
  - rewrite <- app_assoc, Unfold_app, Unfold_break by done. done.
  - apply Forall_cons in Ht as [Ht Hts]. cbn [fmap list_fmap concat].
    assert (∀ c l, c ≠ CR → CR ∉ l → CR ∉ c :: l) as Hcons by (intros; rewrite not_elem_of_cons; auto).
    destruct (_ <? _)%nat.
    + rewrite <- !app_assoc, Unfold_app by done. f_equal.
      assert (Unfold (crlf ++ fold_loop (SP :: tok) toks ++ rest) = Unfold (fold_loop (SP :: tok) toks ++ rest)) as ->.
      { assert (∃ u, fold_loop (SP :: tok) toks = SP :: u) as [u ->]; [|by cbn [app]; rewrite Unfold_fold, Unfold_cons].
        clear. generalize tok. induction toks as [|t ts IH]; intros w; cbn [fold_loop]; [by eexists|].
        destruct (_ <? _)%nat; [by eexists|]. apply IH. }
      rewrite IH by auto. cbn [app]. by rewrite ?app_assoc.
    + rewrite IH; [|rewrite not_elem_of_app; auto|done|done]. by rewrite <- !app_assoc.
Qed.

Lemma Split_tokens (s : gostring) (c : ascii) :
  match Split s c with [] => False | t :: ts => s = t ++ concat (cons c <$> ts) end.
Proof.
  induction s as [|x s IH]; cbn [Split]; [done|]. pose proof (Split_nonempty s c).
  destruct (Split s c) as [|t ts]; [done|]. destruct (Ascii.eqb_spec x c) as [->|].
  - cbn [fmap list_fmap concat app]. by rewrite IH.
  - by rewrite IH.
Qed.

Lemma Split_no_cr (s : gostring) (c x : ascii) : x ∉ s → Forall (λ t, x ∉ t) (Split s c).
Proof. intros Hx. pose proof (Split_elem s c) as Hs. eapply Forall_impl; [exact Hs|]. intros t [_ Ht] Hin. by apply Hx, Ht. Qed.

Lemma foldHeaderLine_unfold (key value rest : gostring) :
  CR ∉ key → CR ∉ value → starts_wsp rest = false →
  Unfold (foldHeaderLine key value ++ rest) = key ++ lit ": " ++ value ++ crlf ++ Unfold rest.
Proof.
  intros Hk Hv Hr. unfold foldHeaderLine. pose proof (Split_tokens value SP) as Hs. pose proof (Split_no_cr value SP CR Hv) as Hc.
  destruct (Split value SP) as [|t ts]; [done|]. apply Forall_cons in Hc as [Hc Hcs].
  rewrite fold_loop_unfold; [|rewrite !not_elem_of_app, !not_elem_of_cons; split_and!; try done; apply not_elem_of_nil|done|done].
  rewrite Hs. by rewrite <- !app_assoc.
Qed.

Lemma fold_loop_lines (n : nat) (cur : gostring) (toks : list gostring) (rest : gostring) :
  CR ∉ cur → Forall (λ t, CR ∉ t) toks → (foldHeaderMax ≤ n)%nat → (length cur ≤ n)%nat →
  Forall (λ t, (S (length t) ≤ n)%nat) toks →
  Forall (λ l, (length l ≤ n)%nat) (SplitCRLF rest) →
  Forall (λ l, (length l ≤ n)%nat) (SplitCRLF (fold_loop cur toks ++ rest)).
Proof.
  revert cur. induction toks as [|tok toks IH]; intros cur Hcur Ht Hn Hl Hts Hr; cbn [fold_loop].
  - rewrite <- app_assoc, SplitCRLF_line by done. by constructor.
  - apply Forall_cons in Ht as [Ht Htt]. apply Forall_cons in Hts as [Hs Hss].
    destruct (Nat.ltb_spec foldHeaderMax (length cur + 1 + length tok)).
    + rewrite <- !app_assoc, SplitCRLF_line by done. constructor; [done|]. apply IH; try done. by rewrite not_elem_of_cons.
    + apply IH; try done; [rewrite not_elem_of_app, not_elem_of_cons; auto|]. rewrite length_app. simpl. lia.
Qed.

Lemma foldHeaderLine_lines (n : nat) (key value rest : gostring) :
  CR ∉ key → CR ∉ value → (foldHeaderMax ≤ n)%nat → (length key + 2 + longestToken value ≤ n)%nat →
  Forall (λ l, (length l ≤ n)%nat) (SplitCRLF rest) →
  Forall (λ l, (length l ≤ n)%nat) (SplitCRLF (foldHeaderLine key value ++ rest)).
Proof.
  intros Hk Hv Hn Hl Hr. unfold foldHeaderLine, longestToken in *. pose proof (Split_no_cr value SP CR Hv) as Hc.
  pose proof (proj1 (longest_le (Split value SP) _) (le_n _)) as Hlen. set (m := longest _) in *. clearbody m.
  pose proof (Split_nonempty value SP). destruct (Split value SP) as [|t ts]; [done|].
  apply Forall_cons in Hc as [Hc Hcs]. apply Forall_cons in Hlen as [Hlen Hlens]. apply fold_loop_lines; try done.
  - rewrite !not_elem_of_app, !not_elem_of_cons. split_and!; try done. apply not_elem_of_nil.
  - rewrite !length_app. simpl. lia.
  - eapply Forall_impl; [exact Hlens|]. simpl. lia.
Qed.

(** Folding is undone by unfolding and keeps lines short: for a name and value
    without carriage returns, removing the folds gives back "name: value", so a
    value can neither end its field nor start another, and no line is longer than
    78 characters unless one word of the value forces it. *)
Theorem folding_round_trip (key value : gostring) :
  CR ∉ key → CR ∉ value →
  Unfold (foldHeaderLine key value) = key ++ lit ": " ++ value ++ crlf ∧
  (longestLine (foldHeaderLine key value) ≤ Nat.max 78 (length key + 2 + longestToken value))%nat.
Proof.
  intros Hk Hv. split.
  - rewrite <- (right_id_L [] (++) (foldHeaderLine key value)). rewrite foldHeaderLine_unfold by done. done.
  - apply longest_le. rewrite <- (right_id_L [] (++) (foldHeaderLine key value)).
    apply foldHeaderLine_lines; try done; [unfold foldHeaderMax; lia|lia|]. repeat constructor. simpl. lia.
Qed.

(** ** Encoded-words *)

Lemma DecodeRune_small (s : gostring) : (snd (DecodeRune s) ≤ 4)%nat.
Proof. unfold DecodeRune. repeat case_match; simpl; lia. Qed.

(** A rune is decoded from its own bytes. *)
Lemma DecodeRune_take (s : gostring) (m : nat) :
  s ≠ [] → (snd (DecodeRune s) ≤ m)%nat → DecodeRune (take m s) = DecodeRune s.
Proof.
  intros Hs Hm. destruct m as [|m]; [pose proof (DecodeRune_width s Hs); lia|].
  destruct s as [|a [|b [|c [|d s]]]]; [done|..]; destruct m as [|[|[|m]]]; cbn [take] in *; try done;
    unfold DecodeRune in *; repeat case_match; simpl in *; try done; lia.
Qed.

Lemma chunk_len_spec (fuel : nat) (s : gostring) (n : nat) :
  (n ≤ length s)%nat → (n ≤ maxChunk)%nat → (length s - n < fuel)%nat →
  let m := chunk_len fuel s n in
  (n ≤ m ≤ length s ∧ m ≤ maxChunk ∧ (n < length s → n = 0 → 0 < m))%nat ∧
  runes (drop n (take m s)) ++ runes (drop m s) = runes (drop n s).
Proof.
  revert n. induction fuel as [|fuel IH]; intros n Hn Hc Hf; [lia|]. cbn [chunk_len].
  assert (∀ m, m = n → runes (drop n (take m s)) ++ runes (drop m s) = runes (drop n s)) as Hsame.
  { intros m ->. by rewrite drop_ge by (rewrite length_take; lia). }
  destruct (Nat.ltb_spec n (length s)) as [Hl|Hl]; [|split; [split_and!; lia|by apply Hsame]].
  assert (drop n s ≠ []) as Hne by (intros E; apply (f_equal length) in E; rewrite length_drop in E; simpl in E; lia).
  pose proof (DecodeRune_width (drop n s) Hne) as Hw. rewrite length_drop in Hw. pose proof (DecodeRune_small (drop n s)) as H4.
  set (size := snd (DecodeRune (drop n s))) in *. unfold maxChunk in *.
  destruct ((45 <? n + size)%nat && (0 <? n)%nat) eqn:Hb; [apply andb_true_iff in Hb as [_ Hb%Nat.ltb_lt]; split; [split_and!; lia|by apply Hsame]|].
  assert (n + size ≤ 45)%nat as H45.
  { apply andb_false_iff in Hb as [H%Nat.ltb_ge|H%Nat.ltb_ge]; lia. }
  destruct (IH (n + size)%nat) as [(H1 & H2 & _) Hr]; [lia..|]. cbv zeta in *. set (m := chunk_len fuel s (n + size)) in *.
  split; [split_and!; lia|]. rewrite (runes_cons (drop n s)) by done. fold size. rewrite drop_drop. rewrite <- Hr.
  assert (drop n (take m s) = take (m - n) (drop n s)) as Hu by by rewrite skipn_firstn_comm.
  assert (drop n (take m s) ≠ []) as Hune.
  { intros E. apply (f_equal length) in E. rewrite length_drop, length_take in E. simpl in E. lia. }
  rewrite (runes_cons (drop n (take m s))) by done. rewrite drop_drop.
  assert (DecodeRune (drop n (take m s)) = DecodeRune (drop n s)) as Hd.
  { rewrite Hu. apply DecodeRune_take; [done|]. fold size. lia. }
  by rewrite Hd.
Qed.

Lemma encoded_words_spec (fuel : nat) (s : gostring) : (length s ≤ fuel)%nat →
  ∃ parts, encoded_words fuel s = encodedWord <$> parts ∧ concat parts = s ∧
    Forall (λ p, (0 < length p ≤ maxChunk)%nat) parts ∧ concat (runes <$> parts) = runes s.
Proof.
  revert s. induction fuel as [|fuel IH]; intros s Hf; destruct s as [|c s']; [by exists []|simpl in Hf; lia|by exists []|].
  set (s := c :: s') in *. assert (0 < length s)%nat as Hlen by (simpl; lia).
  destruct (chunk_len_spec (S (length s)) s 0) as [(H1 & H2 & H3) Hr]; [lia|unfold maxChunk; lia..|].
  change (encoded_words (S fuel) s) with (encodedWord (take (chunk_len (S (length s)) s 0) s) ::
    encoded_words fuel (drop (chunk_len (S (length s)) s 0) s)).
  set (m := chunk_len (S (length s)) s 0) in *. clearbody m.
  destruct (IH (drop m s)) as (parts & Hp & Hs & Hc & Hru); [rewrite length_drop; lia|].
  exists (take m s :: parts). rewrite Hp. split; [done|]. cbn [concat fmap list_fmap]. rewrite Hs, Hru, take_drop.
  split; [done|]. split; [constructor; [rewrite length_take; lia|done]|]. by rewrite !drop_0 in Hr.
Qed.

Lemma std_length (s : gostring) : length (std_Encode s) = (4 * ((length s + 2) / 3))%nat.
Proof.
  induction s as [|x|x y|x y z s IH] using three_at_a_time; [done|done|done|].
  change (x :: y :: z :: s) with ([x; y; z] ++ s). rewrite std_Encode_app, length_app, IH by done.
  rewrite length_app. simpl length. replace (3 + length s + 2)%nat with (S (S (S (length s + 2)))) by lia.
  rewrite (proj2 (three_more _)). lia.
Qed.

Lemma encodedWord_chars (s : gostring) (c : ascii) : c ∈ encodedWord s → 32 < bz c ≤ 126.
Proof.
  unfold encodedWord. rewrite !elem_of_app. intros [Hc|[Hc|Hc]]; [|by apply std_Encode_chars in Hc as [_ ?]|];
    apply elem_spec in Hc; (assert (∀ l, forallb (λ x, (32 <? bz x) && (bz x <=? 126)) l = true → elem c l = true →
      32 < bz c ≤ 126) as Hall; [|by eapply Hall; [|exact Hc]; reflexivity]);
    intros l Hl Hin%elem_spec; rewrite forallb_forall in Hl; apply list_elem_of_In, Hl in Hin; lia.
Qed.

(** RFC 2047: the text of a B encoded-word in UTF-8. *)
Definition decode_word (w : gostring) : option gostring :=
  if HasPrefix w "=?utf-8?b?" && HasSuffix w "?=" then decodeB64 (drop 10 (take (length w - 2) w)) else None.

Lemma decode_encodedWord (s : gostring) : decode_word (encodedWord s) = Some s.
Proof.
  unfold decode_word. assert (HasPrefix (encodedWord s) "=?utf-8?b?" = true) as -> by (apply HasPrefix_spec; by eexists).
  assert (HasSuffix (encodedWord s) "?=" = true) as -> by (apply HasSuffix_spec; exists (lit "=?utf-8?b?" ++ std_Encode s); by rewrite <- app_assoc).
  cbn [andb]. unfold encodedWord. rewrite app_assoc, length_app. simpl (length (lit "?=")).
  rewrite Nat.add_sub, take_app_length. rewrite drop_app_length' by done. apply std_round_trip.
Qed.

(** Splitting a long word into encoded-words loses nothing: the words decode to
    consecutive pieces of the text, cut between characters, no word is longer than
    the 75 characters RFC 2047 allows, and spaces separate them, where the header
    may be folded. *)
Theorem encoded_words_round_trip (s : gostring) :
  s ≠ [] →
  ∃ parts, mapM decode_word (Split (forceEncodedWords s) SP) = Some parts ∧ concat parts = s ∧
    concat (runes <$> parts) = runes s ∧ (longestToken (forceEncodedWords s) ≤ 72)%nat.
Proof.
  intros Hs. unfold longestToken, forceEncodedWords.
  destruct (encoded_words_spec (length s) s ltac:(lia)) as (parts & -> & Hc & Hl & Hr).
  exists parts. rewrite (Split_Join _ SP).
  - split_and!; [|done|done|].
    + apply mapM_Some. apply Forall2_fmap_l. apply Forall_Forall2_diag, Forall_true. intros. apply decode_encodedWord.
    + apply longest_le, Forall_fmap. eapply Forall_impl; [exact Hl|]. intros p Hp. simpl. unfold encodedWord, maxChunk in *.
      rewrite !length_app, std_length. simpl (length (lit _)).
      assert ((length p + 2) / 3 ≤ 47 / 3)%nat by (apply Nat.Div0.div_le_mono; lia). simpl in *. lia.
  - intros E%fmap_nil_inv. subst parts. simpl in Hc. by subst s.
  - apply Forall_fmap, Forall_true. intros p Hin%encodedWord_chars. vm_compute in Hin. by destruct Hin.
Qed.

(** ** Content-Disposition *)

(** RFC 5322 3.2.4: the content of a quoted-string after its opening quote, and what
    follows the closing one. *)
Fixpoint unquote (s : gostring) : option (gostring * gostring) :=
  match s with
  | [] => None
  | c :: t =>
      if Ascii.eqb c c_quote then Some ([], t)
      else if Ascii.eqb c c_backslash then
        match t with
        | [] => None
        | d :: u => '(a, b) ← unquote u; Some (d :: a, b)
        end
      else '(a, b) ← unquote t; Some (c :: a, b)
  end.

(** RFC 5987: percent-decoding. *)
Fixpoint percent_decode (s : gostring) : option gostring :=
  match s with
  | [] => Some []
  | c :: t =>
      if Ascii.eqb c "%" then
        match t with
        | a :: b :: u => x ← hex_value a; y ← hex_value b; r ← percent_decode u; Some (zb (16 * x + y) :: r)
        | _ => None
        end
      else r ← percent_decode t; Some (c :: r)
  end.

(** Both quoting passes at once. *)
Definition quoted_byte (c : ascii) : gostring :=
  if Ascii.eqb c c_quote || Ascii.eqb c c_backslash then [c_backslash; c] else [c].

Lemma escape_app (x : ascii) (a b : gostring) : escape_byte x (a ++ b) = escape_byte x a ++ escape_byte x b.
Proof. unfold escape_byte. by rewrite fmap_app, concat_app. Qed.

Lemma escape_twice (s : gostring) :
  escape_byte c_quote (escape_byte c_backslash s) = concat (quoted_byte <$> s).
Proof.
  induction s as [|c s IH]; [done|]. change (c :: s) with ([c] ++ s). rewrite !escape_app, IH, fmap_app, concat_app. f_equal.
  unfold quoted_byte, escape_byte. cbn [fmap list_fmap concat app].
  destruct (Ascii.eqb_spec c c_backslash) as [->|]; [done|]. cbn [fmap list_fmap concat app].
  by destruct (Ascii.eqb_spec c c_quote).
Qed.

Lemma unquote_quoted (s rest : gostring) : unquote (concat (quoted_byte <$> s) ++ c_quote :: rest) = Some (s, rest).
Proof.
  induction s as [|c s IH]; [done|]. cbn [fmap list_fmap concat]. rewrite <- app_assoc. unfold quoted_byte at 1.
  destruct (Ascii.eqb c c_quote) eqn:Hq; cbn [orb].
  - cbn [app unquote]. change (Ascii.eqb c_backslash c_quote) with false. change (Ascii.eqb c_backslash c_backslash) with true.
    by rewrite IH.
  - destruct (Ascii.eqb c c_backslash) eqn:Hb; cbn [app unquote].
    + change (Ascii.eqb c_backslash c_quote) with false. change (Ascii.eqb c_backslash c_backslash) with true. by rewrite IH.
    + rewrite Hq, Hb. by rewrite IH.
Qed.

Lemma attr_char_plain (c : ascii) : attr_char c = true → c ≠ "%"%char ∧ 32 < bz c ≤ 126.
Proof. destruct c as [[] [] [] [] [] [] [] []]; vm_compute; intros H; try discriminate; split_and!; (discriminate || reflexivity). Qed.

Lemma percent_round_trip (s : gostring) : percent_decode (rfc5987Encode s) = Some s.
Proof.
  unfold rfc5987Encode. induction s as [|c s IH]; [done|]. cbn [fmap list_fmap concat]. destruct (attr_char c) eqn:Hc.
  - apply attr_char_plain in Hc as [Hc _]. cbn [app percent_decode]. destruct (Ascii.eqb_spec c "%"); [done|]. by rewrite IH.
  - cbn [app hex_pair percent_decode]. change (Ascii.eqb "%" "%") with true. destruct (hex_pair_value c) as [-> ->].
    rewrite IH. cbn. do 2 f_equal. rewrite <- (zb_bz c) at 3. f_equal. pose proof (Z.div_mod (bz c) 16). lia.
Qed.

Lemma elem_of_concat (c : ascii) (ls : list gostring) : c ∈ concat ls ↔ ∃ l, c ∈ l ∧ l ∈ ls.
Proof. rewrite list_elem_of_In, in_concat. setoid_rewrite <- list_elem_of_In. naive_solver. Qed.

Lemma isASCII_spec (s : gostring) : isASCII s = true ↔ ∀ c, c ∈ s → 32 ≤ bz c ≤ 126.
Proof.
  unfold isASCII. rewrite forallb_forall. setoid_rewrite <- list_elem_of_In. split; intros H c Hc; specialize (H c Hc); lia.
Qed.

Lemma fallback_ascii (s : gostring) : isASCII s = true → asciiFilenameFallback s = s.
Proof.
  rewrite isASCII_spec. intros Hs. unfold asciiFilenameFallback. rewrite runes_ascii.
  - induction s as [|c s IH]; [done|]. cbn [fmap list_fmap]. pose proof (Hs c ltac:(left)).
    destruct (Z.leb_spec 32 (bz c)), (Z.leb_spec (bz c) 126); try lia. cbn [andb]. rewrite zb_bz. f_equal.
    apply IH. intros x Hx. apply Hs. by right.
  - unfold all_ascii. apply forallb_forall. intros c Hc. apply list_elem_of_In, Hs in Hc. unfold is_ascii. lia.
Qed.

Lemma fallback_printable (s : gostring) : isASCII (asciiFilenameFallback s) = true.
Proof.
  apply isASCII_spec. intros c (r & -> & _)%list_elem_of_fmap. destruct (_ && _) eqn:Hr; [|by vm_compute; split; discriminate].
  rewrite bz_zb; lia.
Qed.

Lemma isASCII_app (a b : gostring) : isASCII (a ++ b) = isASCII a && isASCII b.
Proof. apply forallb_app. Qed.

Lemma quoted_ascii (s : gostring) : isASCII s = true → isASCII (concat (quoted_byte <$> s)) = true.
Proof.
  rewrite !isASCII_spec. intros Hs c (l & Hc & Hl)%elem_of_concat. apply list_elem_of_fmap in Hl as (x & -> & Hx).
  unfold quoted_byte in Hc. specialize (Hs x Hx). destruct (_ || _).
  - apply elem_of_cons in Hc as [->|Hc]; [by vm_compute; split; discriminate|]. by apply list_elem_of_singleton in Hc as ->.
  - by apply list_elem_of_singleton in Hc as ->.
Qed.

Lemma rfc5987_ascii (s : gostring) : isASCII (rfc5987Encode s) = true.
Proof.
  apply isASCII_spec. intros c (l & Hc & Hl)%elem_of_concat. apply list_elem_of_fmap in Hl as (x & -> & _).
  destruct (attr_char x) eqn:Hx.
  - apply list_elem_of_singleton in Hc as ->. apply attr_char_plain in Hx as [_ ?]. lia.
  - clear -Hc. unfold hex_pair in Hc. rewrite !elem_of_cons, elem_of_nil in Hc.
    destruct Hc as [->|[->|[->|[]]]]; [by vm_compute; split; discriminate|..];
      destruct x as [[] [] [] [] [] [] [] []]; vm_compute; split; discriminate.
Qed.

Lemma contentDisposition_ascii (disp filename : gostring) :
  isASCII disp = true → isASCII (contentDispositionValue disp filename) = true.
Proof.
  intros Hd. unfold contentDispositionValue. rewrite escape_twice.
  destruct (negb (isASCII filename)); rewrite !isASCII_app, Hd, (quoted_ascii _ (fallback_printable filename)), ?rfc5987_ascii;
    reflexivity.
Qed.

(** The name of an attachment survives the header and cannot escape from it: the
    quoted name reads back as its printable-ASCII form (the name itself when it is
    printable ASCII), what follows it is nothing or the extended form, which
    percent-decodes to the exact name, and the whole value is printable ASCII. *)
Theorem content_disposition_round_trip (disp filename : gostring) :
  isASCII disp = true →
  let v := contentDispositionValue disp filename in
  isASCII v = true ∧
  ∃ quoted rest, v = disp ++ lit "; filename=" ++ [c_quote] ++ quoted ∧
    unquote quoted = Some (asciiFilenameFallback filename, rest) ∧
    if isASCII filename then rest = [] ∧ asciiFilenameFallback filename = filename
    else ∃ ext, rest = lit "; filename*=UTF-8''" ++ ext ∧ percent_decode ext = Some filename.
Proof.
  intros Hd v. split; [by apply contentDisposition_ascii|]. unfold v, contentDispositionValue. rewrite escape_twice.
  destruct (isASCII filename) eqn:Hf; cbn [negb].
  - eexists _, []. split; [reflexivity|]. split; [apply unquote_quoted|]. split; [done|by apply fallback_ascii].
  - eexists _, _. split; [rewrite <- !app_assoc; reflexivity|]. cbn [app]. split; [apply unquote_quoted|].
    eexists. split; [reflexivity|]. apply percent_round_trip.
Qed.

(** ** Witnesses *)

Lemma folding_round_trip_witness :
  Unfold (foldHeaderLine "Subject" "a long subject that does not fit on a single line of seventy-eight characters at all") =
    lit "Subject" ++ lit ": " ++ lit "a long subject that does not fit on a single line of seventy-eight characters at all" ++ crlf ∧
  (longestLine (foldHeaderLine "Subject" "a long subject that does not fit on a single line of seventy-eight characters at all") ≤
   Nat.max 78 (length (lit "Subject") + 2 +
     longestToken "a long subject that does not fit on a single line of seventy-eight characters at all"))%nat.
Proof. apply folding_round_trip; intros H%elem_spec; vm_compute in H; discriminate. Defined.

Lemma encoded_words_round_trip_witness :
  ∃ parts, mapM decode_word (Split (forceEncodedWords (replicate 100 "x"%char)) SP) = Some parts ∧
    concat parts = replicate 100 "x"%char ∧ concat (runes <$> parts) = runes (replicate 100 "x"%char) ∧
    (longestToken (forceEncodedWords (replicate 100 "x"%char)) ≤ 72)%nat.
Proof. apply encoded_words_round_trip. discriminate. Defined.

Lemma content_disposition_round_trip_witness :
  let v := contentDispositionValue "inline" [c_quote; c_backslash; zb 195; zb 164] in
  isASCII v = true ∧
  ∃ quoted rest, v = lit "inline" ++ lit "; filename=" ++ [c_quote] ++ quoted ∧
    unquote quoted = Some (asciiFilenameFallback [c_quote; c_backslash; zb 195; zb 164], rest) ∧
    if isASCII [c_quote; c_backslash; zb 195; zb 164]
    then rest = [] ∧ asciiFilenameFallback [c_quote; c_backslash; zb 195; zb 164] = [c_quote; c_backslash; zb 195; zb 164]
    else ∃ ext, rest = lit "; filename*=UTF-8''" ++ ext ∧ percent_decode ext = Some [c_quote; c_backslash; zb 195; zb 164].
Proof. apply (content_disposition_round_trip "inline" [c_quote; c_backslash; zb 195; zb 164]). reflexivity. Defined.
