(* ===== verification/MimeMessage.v ===== *)
(** * The MIME builder ([internal/driver/smtp/mime.go])

    From a driver message to the text handed to the relay: addresses with display
    names, the header with the callers' own fields, the multipart structure and
    the parts.  The encoders are those of MimeText.v; random bytes, the date and
    the order in which Go ranges over the caller's header map are inputs. *)

From S2P Require Import Prelude GoStrings Types Address Driver Credential MailParse MimeText.

(** ** What the builder uses of the standard library *)

Definition c_lt : ascii := "<".
Definition c_gt : ascii := ">".

(** [mime.WordEncoder]: text that needs no encoding is left alone. *)
Definition needsEncoding (s : gostring) : bool :=
  existsb (λ r, ((r <? 32) || (126 <? r)) && negb (r =? 9)) (runes s).

(** [mime.BEncoding.Encode("utf-8", s)]: words of at most 45 bytes, whole runes. *)
Definition BEncoding_Encode (s : gostring) : gostring :=
  if needsEncoding s then Join (encoded_words (length s) s) " " else s.

Definition q_plain (c : ascii) : bool :=
  (32 <=? bz c) && (bz c <=? 126) && negb (Ascii.eqb c "=" || Ascii.eqb c "?" || Ascii.eqb c "_").

Definition q_byte (c : ascii) : gostring :=
  if Ascii.eqb c SP then "_" else if q_plain c then [c] else "="%char :: hex_pair c.

Definition maxContentLen : nat := 63.

Fixpoint q_loop (fuel : nat) (s : gostring) (currentLen : nat) : gostring :=
  match fuel, s with
  | S fuel, c :: _ =>
      let '(runeLen, encLen) := if q_plain c then (1, 1)%nat
                                else (snd (DecodeRune s), 3 * snd (DecodeRune s))%nat in
      let '(split, currentLen) := if (maxContentLen <? currentLen + encLen)%nat
                                  then (lit "?= =?utf-8?q?", 0%nat) else ([], currentLen) in
      split ++ concat (q_byte <$> take runeLen s) ++ q_loop fuel (drop runeLen s) (currentLen + encLen)
  | _, _ => []
  end.

(** [mime.QEncoding.Encode("utf-8", s)] *)
Definition QEncoding_Encode (s : gostring) : gostring :=
  if needsEncoding s then lit "=?utf-8?q?" ++ q_loop (length s) s 0 ++ lit "?=" else s.

(** [net/mail]: [isVchar], [isQtext], [isAtext], [quoteString] and [Address.String]. *)
Definition isVchar (r : Z) : bool := ((33 <=? r) && (r <=? 126)) || (128 <=? r).
Definition isWSP (r : Z) : bool := (r =? 32) || (r =? 9).
Definition isQtext (r : Z) : bool := negb ((r =? bz c_backslash) || (r =? bz c_quote)) && isVchar r.
Definition isAtext (r : Z) : bool :=
  isVchar r && negb ((r =? bz ".") || bool_decide (r ∈ bz <$> (lit "()<>[]:;@," ++ [c_backslash; c_quote]))).

Definition quoteString (s : gostring) : gostring :=
  [c_quote] ++ concat ((λ r, if isQtext r || isWSP r then EncodeRune r
                             else if isVchar r then c_backslash :: EncodeRune r else []) <$> runes s) ++ [c_quote].

(** Whether the local part needs quotes; every byte of a multi-byte rune is atext. *)
Fixpoint quoteLocal (prev : option ascii) (local : gostring) : bool :=
  match local with
  | [] => false
  | c :: rest =>
      let lone_dot := Ascii.eqb c c_dot && match prev with Some p => negb (Ascii.eqb p c_dot) | None => false end
                      && match rest with d :: _ => negb (Ascii.eqb d c_dot) | [] => false end in
      if isAtext (bz c) || lone_dot then quoteLocal (Some c) rest else true
  end.

Definition allPrintable (name : gostring) : bool := forallb (λ r, (isVchar r || isWSP r) && (r <? 128)) (runes name).

Definition Address_String (a : Address) : gostring :=
  let '(local, domain) := match LastIndexByte (a_Address a) c_at with
                          | None => (a_Address a, [])
                          | Some i => (take i (a_Address a), drop (i + 1) (a_Address a))
                          end in
  let local := if quoteLocal None local then quoteString local else local in
  let s := [c_lt] ++ local ++ [c_at] ++ domain ++ [c_gt] in
  if a_Name a == [] then s
  else if allPrintable (a_Name a) then quoteString (a_Name a) ++ [SP] ++ s
  else if ContainsAny (a_Name a) ([c_quote] ++ lit "#$%&'(),.:;<>@[]^`{|}~") then BEncoding_Encode (a_Name a) ++ [SP] ++ s
  else QEncoding_Encode (a_Name a) ++ [SP] ++ s.

(** [textproto]: token bytes, canonical keys, [Set]. *)
Definition token_byte (c : ascii) : bool := is_alnum c || elem c "!#$%&'*+-.^_`|~".
Definition CanonicalMIMEHeaderKey (k : gostring) : gostring := if forallb token_byte k then CanonicalKey k else k.
Definition Set_ (k v : gostring) (h : MIMEHeader) : MIMEHeader := <[CanonicalMIMEHeaderKey k := [v]]> h.

(** [sort.Strings] of the keys of a header. *)
Definition sorted_keys (h : MIMEHeader) : list gostring := SliceStable str_ltb (map_to_list h).*1.

(** [multipart.Writer] *)
Record Writer := { mw_boundary : gostring; mw_started : bool; mw_out : gostring }.

Definition NewWriter (boundary : gostring) : Writer := {| mw_boundary := boundary; mw_started := false; mw_out := [] |}.

Definition part_header (h : MIMEHeader) : gostring :=
  concat ((λ k, concat ((λ v, k ++ lit ": " ++ v ++ crlf) <$> values h k)) <$> sorted_keys h).

(** [CreatePart], and what is then written to the part. *)
Definition CreatePart (h : MIMEHeader) (content : gostring) (w : Writer) : Writer :=
  {| mw_boundary := mw_boundary w; mw_started := true;
     mw_out := mw_out w ++ (if mw_started w then crlf else []) ++ lit "--" ++ mw_boundary w ++ crlf
               ++ part_header h ++ crlf ++ content |}.

Definition Close (w : Writer) : gostring := mw_out w ++ crlf ++ lit "--" ++ mw_boundary w ++ lit "--" ++ crlf.

(** [mime.ParseMediaType] and [mime.FormatMediaType] *)
Class MediaTypes := {
  ParseMedia : gostring → option (gostring * gmap gostring gostring);
  FormatMediaType : gostring → gmap gostring gostring → gostring }.
(** The latter's result is a media type in the syntax of RFC 2045, or empty. *)
Class MediaTypesLaws `{MediaTypes} := { format_printable : ∀ t ps, isASCII (FormatMediaType t ps) = true }.

(** ** Addresses *)

Definition formatAddress (a : Address) : gostring :=
  let angle := lit " <" ++ a_Address a ++ [c_gt] in
  if a_Name a == [] then a_Address a
  else if existsb (λ c, ((bz c <? 32) && negb (Ascii.eqb c TAB)) || (126 <? bz c)) (a_Name a)
  then BEncoding_Encode (a_Name a) ++ angle
  else
    let s := Address_String a in
    if (maxFoldableToken <? longestToken s)%nat then forceEncodedWords (a_Name a) ++ angle else s.

Definition formatAddressList (addrs : list Address) : gostring := Join (formatAddress <$> addrs) ", ".

Definition extractAddrs (addrs : list Address) : list gostring := a_Address <$> addrs.

(** ** Boundaries and identifiers, from random bytes *)

Definition generateBoundary (random : gostring) : gostring := lit "sigillum-" ++ b64_Encode c_minus c_under random.

Definition generateMessageID (random domain : gostring) : gostring :=
  let domain := if domain == [] then lit "sigillum.local" else domain in
  [c_lt] ++ b64_Encode c_minus c_under random ++ [c_at] ++ domain ++ [c_gt].

(** ** Caller's headers *)

Inductive AssembleError :=
| FromRequired | RecipientRequired | EmptyHeaderKey | BadHeaderKey (k : gostring) | HeaderInjection (k : gostring)
| FilenameInjection | BadContentType (ct : gostring) | BadContentID (e : ContentIDError) | Unfoldable (k : gostring).

Definition containsInjectionChars (s : gostring) : bool := ContainsAny s [CR; LF; NUL].

Definition validateHeaderKey (k : gostring) : option AssembleError :=
  if k == [] then Some EmptyHeaderKey
  else if existsb (λ c, (c <? 33) || (126 <? c) || (c =? bz c_colon)) (runes k) then Some (BadHeaderKey k)
  else None.

Definition reservedHeaders : list gostring :=
  [lit "from"; lit "to"; lit "cc"; lit "bcc"; lit "subject"; lit "date"; lit "message-id"; lit "mime-version";
   lit "content-type"; lit "content-transfer-encoding"].

Section assemble.
Context `{UnicodeTables, MediaTypes}.

Definition isReservedHeader (k : gostring) : bool := bool_decide (ToLower k ∈ reservedHeaders).

(** The loop over the caller's headers, in the order of this run. *)
Fixpoint setHeaders (l : list (gostring * gostring)) (h : MIMEHeader) : res AssembleError MIMEHeader :=
  match l with
  | [] => Ok h
  | (k, v) :: l =>
      if isReservedHeader k then setHeaders l h
      else match validateHeaderKey k with
           | Some e => Err e
           | None => if containsInjectionChars v then Err (HeaderInjection k) else setHeaders l (Set_ k v h)
           end
  end.

(** ** Parts *)

Definition sanitizeContentType (ct : gostring) : res AssembleError gostring :=
  if TrimSpace ct == [] then Ok (lit "application/octet-stream")
  else match ParseMedia ct with
       | None => Err (BadContentType ct)
       | Some (mt, params) =>
           let cs := default [] (params !! lit "charset") in
           let kept := if HasPrefix mt "text/" && (cs != []) then {[lit "charset" := cs]} else ∅ in
           let out := FormatMediaType mt kept in
           if out == [] then Err (BadContentType ct) else Ok out
       end.

(** The header and the content of an attachment's part. *)
Definition writeAttachment (a : Attachment) : res AssembleError (MIMEHeader * gostring) :=
  let! ct := sanitizeContentType (at_ContentType a) in
  let ph := Set_ "Content-Type" ct ∅ in
  let disp := if EqualFold (at_Disposition a) "inline" then lit "inline" else lit "attachment" in
  let! ph := if at_Filename a != [] then
               if containsInjectionChars (at_Filename a) then Err FilenameInjection
               else Ok (Set_ "Content-Disposition" (contentDispositionValue disp (at_Filename a)) ph)
             else Ok (Set_ "Content-Disposition" disp ph) in
  let! ph := if at_ContentID a != [] then
               match ValidateContentID (at_ContentID a) with
               | Err e => Err (BadContentID e)
               | Ok _ => Ok (Set_ "Content-ID" ([c_lt] ++ at_ContentID a ++ [c_gt]) ph)
               end
             else Ok ph in
  Ok (Set_ "Content-Transfer-Encoding" "base64" ph, attachmentBody (at_Content a)).

Definition textHeader (ct : gostring) : MIMEHeader :=
  Set_ "Content-Transfer-Encoding" "quoted-printable" (Set_ "Content-Type" ct ∅).

Definition text_plain : gostring := "text/plain; charset=utf-8".
Definition text_html : gostring := "text/html; charset=utf-8".

Fixpoint writeAttachments (l : list Attachment) (w : Writer) : res AssembleError Writer :=
  match l with
  | [] => Ok w
  | a :: l => let! p := writeAttachment a in writeAttachments l (CreatePart (fst p) (snd p) w)
  end.

(** The 16 random bytes of each boundary a run may draw. *)
Record Boundaries := { rb_mixed : gostring; rb_alternative : gostring; rb_related : gostring }.

Definition boundary_param (ct boundary : gostring) : gostring := ct ++ lit "; boundary=" ++ [c_quote] ++ boundary ++ [c_quote].

Definition buildRelated (rb : Boundaries) (html : gostring) (inline : list Attachment)
    : res AssembleError (gostring * MIMEHeader) :=
  let boundary := generateBoundary (rb_related rb) in
  let! w := writeAttachments inline (CreatePart (textHeader text_html) (writeQuotedPrintable html) (NewWriter boundary)) in
  Ok (Close w, {[lit "Content-Type" := [boundary_param (lit "multipart/related; type=" ++ [c_quote] ++ lit "text/html" ++ [c_quote]) boundary]]}).

Definition hasText (b : Body) : bool := TrimSpace (b_Text b) != [].
Definition hasHTML (b : Body) : bool := TrimSpace (b_HTML b) != [].

Definition buildAlternative (rb : Boundaries) (b : Body) (related : list Attachment)
    : res AssembleError (gostring * MIMEHeader) :=
  let boundary := generateBoundary (rb_alternative rb) in
  let w := NewWriter boundary in
  let w := if hasText b then CreatePart (textHeader text_plain) (writeQuotedPrintable (b_Text b)) w else w in
  let! w := if hasHTML b then
              if (0 <? length related)%nat then
                let! r := buildRelated rb (b_HTML b) related in Ok (CreatePart (snd r) (fst r) w)
              else Ok (CreatePart (textHeader text_html) (writeQuotedPrintable (b_HTML b)) w)
            else Ok w in
  Ok (Close w, {[lit "Content-Type" := [boundary_param "multipart/alternative" boundary]]}).

(** [for k, vs := range partHeader { for _, v := range vs { hdr.Set(k, v) } }]; the
    header has one entry. *)
Definition merge_header (ph h : MIMEHeader) : MIMEHeader :=
  foldl (λ h '(k, vs), foldl (λ h v, Set_ k v h) h vs) h (map_to_list ph).

(** The header and the body of a message without attachments of its own. *)
Definition writeAlternative (rb : Boundaries) (b : Body) (related : list Attachment) (h : MIMEHeader)
    : res AssembleError (MIMEHeader * gostring) :=
  let multi r := let! r := r in Ok (merge_header (snd r) h, fst r) in
  let single ct text := Ok (Set_ "Content-Transfer-Encoding" "quoted-printable" (Set_ "Content-Type" ct h),
                            writeQuotedPrintable text) in
  if hasText b && hasHTML b then multi (buildAlternative rb b related)
  else if hasHTML b && (0 <? length related)%nat then multi (buildRelated rb (b_HTML b) related)
  else if hasHTML b then single text_html (b_HTML b)
  else single text_plain (b_Text b).

(** ** The message *)

(** What a run draws and reads besides the message: the date, random bytes, and the
    order in which the caller's headers are visited. *)
Record Assembly := {
  as_date : gostring; as_id : gostring; as_boundaries : Boundaries; as_order : list (gostring * gostring) }.

(** An inline attachment with a content ID goes with the HTML that refers to it. *)
Definition is_related (msg : Message) (a : Attachment) : bool :=
  hasHTML (m_Body msg) && (at_ContentID a != []) && EqualFold (at_Disposition a) "inline".

Definition subjectField (subject : gostring) : gostring :=
  let s := QEncoding_Encode subject in
  if (maxFoldableToken <? longestToken s)%nat then forceEncodedWords subject else s.

Definition when_set (c : bool) (k v : gostring) (h : MIMEHeader) : MIMEHeader := if c then Set_ k v h else h.

(** The fields the builder writes itself. *)
Definition ownFields (env : Assembly) (msg : Message) (messageID : gostring) : MIMEHeader :=
  Set_ "MIME-Version" "1.0"
    (when_set (m_Subject msg != []) "Subject" (subjectField (m_Subject msg))
    (when_set (0 <? length (m_Cc msg))%nat "Cc" (formatAddressList (m_Cc msg))
    (when_set (0 <? length (m_To msg))%nat "To" (formatAddressList (m_To msg))
    (Set_ "From" (formatAddress (m_From msg))
    (Set_ "Message-ID" messageID
    (Set_ "Date" (as_date env) ∅)))))).

(** The content type and the body. *)
Definition assembleBody (env : Assembly) (msg : Message) (h : MIMEHeader) : res AssembleError (MIMEHeader * gostring) :=
  let related := List.filter (is_related msg) (m_Attachments msg) in
  let regular := List.filter (λ a, negb (is_related msg a)) (m_Attachments msg) in
  let hasAtt := (0 <? length regular)%nat in
  let body := m_Body msg in
  if negb hasAtt && negb (hasText body) && negb (hasHTML body) then
    Ok (Set_ "Content-Transfer-Encoding" "7bit" (Set_ "Content-Type" text_plain h), [])
  else if negb hasAtt then writeAlternative (as_boundaries env) body related h
  else
    let boundary := generateBoundary (rb_mixed (as_boundaries env)) in
    let h := Set_ "Content-Type" (boundary_param "multipart/mixed" boundary) h in
    let w := NewWriter boundary in
    let! w := if hasText body || hasHTML body then
                let! alt := buildAlternative (as_boundaries env) body related in Ok (CreatePart (snd alt) (fst alt) w)
              else Ok w in
    let! w := writeAttachments regular w in
    Ok (h, Close w).

(** The header lines in the order of their names, or the field that does not fit. *)
Fixpoint writeFields (l : list (gostring * gostring)) : res AssembleError gostring :=
  match l with
  | [] => Ok []
  | (k, v) :: l =>
      let line := foldHeaderLine k v in
      if (maxHeaderLine <? longestLine line)%nat then Err (Unfoldable k)
      else let! rest := writeFields l in Ok (line ++ rest)
  end.

Definition fields_of (h : MIMEHeader) : list (gostring * gostring) :=
  concat ((λ k, (λ v, (k, v)) <$> values h k) <$> sorted_keys h).

(** The text of the message and its Message-ID. *)
Definition AssembleMessage (env : Assembly) (msg : Message) (heloDomain : gostring)
    : res AssembleError (gostring * gostring) :=
  if a_Address (m_From msg) == [] then Err FromRequired
  else if (length (m_To msg) + length (m_Cc msg) + length (m_Bcc msg) =? 0)%nat then Err RecipientRequired
  else
    let messageID := if m_MessageID msg == [] then generateMessageID (as_id env) heloDomain else m_MessageID msg in
    let! h := setHeaders (as_order env) (ownFields env msg messageID) in
    let! hb := assembleBody env msg h in
    let! header := writeFields (fields_of (fst hb)) in
    Ok (header ++ crlf ++ snd hb, messageID).

End assemble.

(** ** Runes and bytes *)

Lemma DecodeRune_low (s : gostring) (c : ascii) : fst (DecodeRune (c :: s)) < 128 → bz c < 128.
Proof.
  unfold DecodeRune, cont_byte, between, RuneError. destruct (Z.ltb_spec (bz c) 128); [done|].
  intros Hr. exfalso. revert Hr. repeat case_match; simpl; rewrite ?andb_true_iff in *; lia.
Qed.

Lemma DecodeRune_bytes (s : gostring) (c : ascii) :
  (2 ≤ snd (DecodeRune s))%nat → c ∈ take (snd (DecodeRune s)) s → 128 ≤ bz c.
Proof.
  destruct s as [|a [|b [|d [|e s]]]]; unfold DecodeRune, cont_byte, between;
    repeat case_match; simpl; intros Hn Hin; try lia; rewrite ?andb_true_iff in *;
    rewrite ?elem_of_cons, ?elem_of_nil in Hin; naive_solver lia.
Qed.

(** ASCII bytes of a string are runes of it. *)
Lemma ascii_rune (c : ascii) (s : gostring) : is_ascii c = true → c ∈ s → bz c ∈ runes s.
Proof.
  intros Hc. remember (length s) as n eqn:Hn. revert s Hn. induction (lt_wf n) as [n _ IH]. intros s -> Hin.
  destruct s as [|a s']; [by apply not_elem_of_nil in Hin|]. set (s := a :: s') in *.
  pose proof (DecodeRune_width s ltac:(done)) as Hw. rewrite runes_cons by done.
  rewrite <- (take_drop (snd (DecodeRune s)) s) in Hin. apply elem_of_app in Hin as [Hin|Hin].
  - destruct (decide (2 ≤ snd (DecodeRune s))%nat) as [H2|H2].
    + apply DecodeRune_bytes in Hin; [|done]. unfold is_ascii in Hc. lia.
    + replace (snd (DecodeRune s)) with 1%nat in Hin by lia. apply list_elem_of_singleton in Hin as ->.
      unfold s. rewrite DecodeRune_ascii by done. left.
  - right. eapply IH; [|done|done]. rewrite length_drop. lia.
Qed.

Lemma low_runes_ascii (s : gostring) : (∀ r, r ∈ runes s → r < 128) → all_ascii s = true.
Proof.
  intros Hs. remember (length s) as n eqn:Hn. revert s Hn Hs. induction (lt_wf n) as [n _ IH]. intros s -> Hs.
  destruct s as [|a s']; [done|]. rewrite runes_cons in Hs by done.
  assert (is_ascii a = true) as Ha by (unfold is_ascii; pose proof (DecodeRune_low s' a (Hs _ ltac:(left))); lia).
  rewrite DecodeRune_ascii in Hs by done. cbn [snd drop] in Hs. cbn [all_ascii forallb]. rewrite Ha. cbn [andb].
  eapply (IH (length s')); [simpl; lia|done|]. intros r Hr. apply Hs. by right.
Qed.

Lemma EncodeRune_high (r : Z) (c : ascii) : 128 ≤ r → c ∈ EncodeRune r → 128 ≤ bz c.
Proof.
  intros Hr. unfold EncodeRune, RuneError.
  assert (∀ z x, 128 ≤ z < 256 → x = zb z → 128 ≤ bz x) as Hz by (intros z x ? ->; rewrite bz_zb; lia).
  assert (∀ z, 0 ≤ z `mod` 64 < 64) as Hm by (intros; apply Z.mod_pos_bound; lia).
  destruct ((0 <=? r) && (r <? 128)) eqn:E1; [lia|].
  destruct ((128 <=? r) && (r <? 2048)) eqn:E2; [|destruct ((r <? 0) || (1114111 <? r) || ((55296 <=? r) && (r <=? 57343))) eqn:E3;
    [|destruct (Z.ltb_spec r 65536)]]; rewrite !elem_of_cons, elem_of_nil.
  - assert (2 ≤ r / 64 < 32) by (split; [apply Z.div_le_lower_bound|apply Z.div_lt_upper_bound]; lia).
    intros [E|[E|[]]]; (eapply Hz; [|exact E]); [lia|]. specialize (Hm r). lia.
  - intros [E|[E|[E|[]]]]; (eapply Hz; [|exact E]); vm_compute; split; (discriminate || reflexivity).
  - assert (0 ≤ r / 4096 < 16) by (split; [apply Z.div_le_lower_bound|apply Z.div_lt_upper_bound]; lia).
    intros [E|[E|[E|[]]]]; (eapply Hz; [|exact E]); [lia|specialize (Hm (r / 64)); lia|specialize (Hm r); lia].
  - assert (0 ≤ r / 262144 < 5) by (split; [apply Z.div_le_lower_bound|apply Z.div_lt_upper_bound]; lia).
    intros [E|[E|[E|[E|[]]]]]; (eapply Hz; [|exact E]);
      [lia|specialize (Hm (r / 4096)); lia|specialize (Hm (r / 64)); lia|specialize (Hm r); lia].
Qed.

Lemma EncodeRune_ascii (c : ascii) : is_ascii c = true → EncodeRune (bz c) = [c].
Proof.
  intros Hc. unfold EncodeRune, is_ascii in *. pose proof (bz_range c).
  destruct (Z.leb_spec 0 (bz c)); [|lia]. rewrite Hc. cbn [andb]. by rewrite zb_bz.
Qed.

(** ** Values without line breaks *)

Definition clean (v : gostring) : Prop := CR ∉ v ∧ LF ∉ v.

Lemma clean_app (a b : gostring) : clean a → clean b → clean (a ++ b).
Proof. unfold clean. rewrite !not_elem_of_app. tauto. Qed.

Lemma clean_cons (c : ascii) (a : gostring) : c ≠ CR → c ≠ LF → clean a → clean (c :: a).
Proof. unfold clean. rewrite !not_elem_of_cons. intuition congruence. Qed.

Lemma clean_nil : clean [].
Proof. split; apply not_elem_of_nil. Qed.

(** A string of which every byte is above the control characters. *)
Lemma clean_bytes (v : gostring) : (∀ c, c ∈ v → 32 ≤ bz c) → clean v.
Proof. intros Hv. split; intros H%Hv; vm_compute in H; by apply H. Qed.

Lemma clean_lit (v : gostring) : forallb (λ c, 32 <=? bz c) v = true → clean v.
Proof. rewrite forallb_forall. intros Hv. apply clean_bytes. intros c Hc%list_elem_of_In. specialize (Hv c Hc). lia. Qed.

Lemma clean_concat (ls : list gostring) : Forall clean ls → clean (concat ls).
Proof. induction 1; simpl; [apply clean_nil|by apply clean_app]. Qed.

Lemma clean_Join (ls : list gostring) (sep : gostring) : clean sep → Forall clean ls → clean (Join ls sep).
Proof.
  intros Hsep [|x l Hx Hl]; [apply clean_nil|]. simpl. apply clean_app; [done|].
  induction Hl; simpl; [apply clean_nil|]. by repeat apply clean_app.
Qed.

#[local] Hint Resolve clean_app clean_nil : clean.
#[local] Hint Extern 5 (clean (_ :: _)) => apply clean_cons; [by vm_compute|by vm_compute|] : clean.
#[local] Hint Extern 6 (clean (lit _)) => apply clean_lit; vm_compute; reflexivity : clean.

Lemma clean_runes (v : gostring) : (∀ r, r ∈ runes v → r ≠ 10 ∧ r ≠ 13) → clean v.
Proof.
  intros Hv. split; intros Hin; apply ascii_rune in Hin; try done; apply Hv in Hin; vm_compute in Hin; tauto.
Qed.

Lemma hex_pair_high (c x : ascii) : x ∈ hex_pair c → 32 ≤ bz x.
Proof.
  unfold hex_pair. rewrite !elem_of_cons, elem_of_nil. intros [->|[->|[]]];
    destruct c as [[] [] [] [] [] [] [] []]; vm_compute; discriminate.
Qed.

Lemma encoded_words_clean (fuel : nat) (s : gostring) : clean (Join (encoded_words fuel s) " ").
Proof.
  apply clean_Join; [auto with clean|]. revert s. induction fuel as [|fuel IH]; intros s; [constructor|].
  destruct s as [|c s]; [constructor|]. cbn [encoded_words]. constructor; [|apply IH].
  apply clean_bytes. intros x Hx%encodedWord_chars. lia.
Qed.

Lemma q_loop_high (fuel : nat) (s : gostring) (n : nat) (c : ascii) : c ∈ q_loop fuel s n → 32 ≤ bz c.
Proof.
  assert (∀ x, c ∈ q_byte x → 32 ≤ bz c) as Hq.
  { intros x. unfold q_byte. destruct (Ascii.eqb x SP); [|destruct (q_plain x) eqn:Hp].
    - intros ->%list_elem_of_singleton. by vm_compute.
    - intros ->%list_elem_of_singleton. unfold q_plain in Hp. rewrite !andb_true_iff in Hp. lia.
    - intros [->|H%hex_pair_high]%elem_of_cons; [by vm_compute|done]. }
  revert s n. induction fuel as [|fuel IH]; intros s n; [by intros ?%not_elem_of_nil|].
  destruct s as [|x s]; [by intros ?%not_elem_of_nil|]. cbn [q_loop].
  destruct (if q_plain x then _ else _) as [rl el]. destruct (maxContentLen <? n + el)%nat; rewrite !elem_of_app;
    (intros [Hc|[Hc|Hc]]; [|apply elem_of_concat in Hc as (l & Hc & (y & -> & _)%list_elem_of_fmap); by eapply Hq|by eapply IH]).
  - apply elem_spec in Hc. destruct c as [[] [] [] [] [] [] [] []]; vm_compute in Hc |- *; congruence.
  - by apply not_elem_of_nil in Hc.
Qed.

Lemma unencoded_clean (s : gostring) : needsEncoding s = false → clean s.
Proof.
  intros Hs. apply clean_runes. intros r Hr. unfold needsEncoding in Hs.
  assert (∀ r, r ∈ runes s → ((r <? 32) || (126 <? r)) && negb (r =? 9) = false) as H.
  { intros x Hx. destruct (_ && _) eqn:E; [|done]. rewrite <- Hs. symmetry. apply existsb_exists. exists x.
    split; [by apply list_elem_of_In|done]. }
  specialize (H r Hr). split; intros ->; by vm_compute in H.
Qed.

Lemma subject_clean (s : gostring) : clean (subjectField s).
Proof.
  unfold subjectField, forceEncodedWords, QEncoding_Encode. destruct (_ <? _)%nat; [apply encoded_words_clean|].
  destruct (needsEncoding s) eqn:Hn; [|by apply unencoded_clean].
  apply clean_app; [auto with clean|]. apply clean_app; [|auto with clean]. apply clean_bytes, q_loop_high.
Qed.

Lemma quoteString_clean (s : gostring) : clean (quoteString s).
Proof.
  assert (clean [c_quote]) as Hq by auto with clean.
  unfold quoteString. apply clean_app; [done|]. apply clean_app; [|done]. apply clean_concat, Forall_fmap, Forall_true.
  intros r. simpl. assert (isVchar r = true ∨ isWSP r = true → clean (EncodeRune r)) as He.
  { intros Hr. destruct (Z.leb_spec 128 r); [apply clean_bytes; intros c Hc%EncodeRune_high; lia|].
    unfold isVchar, isWSP in Hr. rewrite orb_true_iff, andb_true_iff, orb_true_iff in Hr.
    assert (32 ≤ r ∨ r = 9) as Hc by lia. assert (0 ≤ r < 128) as Hrange by lia.
    replace (EncodeRune r) with [zb r]; [|unfold EncodeRune; destruct (Z.leb_spec 0 r), (Z.ltb_spec r 128); try lia; done].
    destruct Hc as [Hc| ->]; [|auto with clean].
    apply clean_bytes. intros x ->%list_elem_of_singleton. rewrite bz_zb; lia. }
  destruct (isQtext r || isWSP r) eqn:E.
  - apply He. unfold isQtext in E. rewrite orb_true_iff, andb_true_iff in E. tauto.
  - destruct (isVchar r); [|apply clean_nil]. apply (clean_app [c_backslash]); auto with clean.
Qed.

Lemma clean_sub (v w : gostring) : (∀ c, c ∈ w → c ∈ v) → clean v → clean w.
Proof. intros Hs [H1 H2]. split; intros Hin; [apply H1|apply H2]; by apply Hs. Qed.

Lemma elem_of_take_in (n : nat) (v : gostring) (c : ascii) : c ∈ take n v → c ∈ v.
Proof. intros H. rewrite <- (take_drop n v). apply elem_of_app. by left. Qed.

Lemma elem_of_drop_in (n : nat) (v : gostring) (c : ascii) : c ∈ drop n v → c ∈ v.
Proof. intros H. rewrite <- (take_drop n v). apply elem_of_app. by right. Qed.

Lemma Address_String_clean (a : Address) : clean (a_Address a) → clean (Address_String a).
Proof.
  intros Ha. unfold Address_String.
  assert (∀ local domain : gostring, clean local → clean domain →
    clean ([c_lt] ++ (if quoteLocal None local then quoteString local else local) ++ [c_at] ++ domain ++ [c_gt])) as Hang.
  { intros l d Hl Hd. pose proof (quoteString_clean l). destruct (quoteLocal None l); auto 10 with clean. }
  assert (clean (BEncoding_Encode (a_Name a))) as HB.
  { unfold BEncoding_Encode. destruct (needsEncoding _) eqn:E; [apply encoded_words_clean|by apply unencoded_clean]. }
  assert (clean (QEncoding_Encode (a_Name a))) as HQ.
  { unfold QEncoding_Encode. destruct (needsEncoding _) eqn:E; [|by apply unencoded_clean].
    pose proof (clean_bytes _ (q_loop_high (length (a_Name a)) (a_Name a) 0)). auto 10 with clean. }
  pose proof (quoteString_clean (a_Name a)) as HN.
  assert (∃ local domain, match LastIndexByte (a_Address a) c_at with
      | None => (a_Address a, []) | Some i => (take i (a_Address a), drop (i + 1) (a_Address a)) end = (local, domain) ∧
    clean local ∧ clean domain) as (local & domain & -> & Hl & Hd).
  { destruct (LastIndexByte _ _) as [i|]; eexists _, _; (split; [reflexivity|]); [|by split; [|apply clean_nil]].
    split; (eapply clean_sub; [|exact Ha]); intros c; [apply elem_of_take_in|apply elem_of_drop_in]. }
  specialize (Hang local domain Hl Hd). repeat case_match; auto 10 with clean.
Qed.

Lemma formatAddress_clean (a : Address) : clean (a_Address a) → clean (formatAddress a).
Proof.
  intros Ha. unfold formatAddress, forceEncodedWords. pose proof (Address_String_clean a Ha).
  pose proof (encoded_words_clean (length (a_Name a)) (a_Name a)).
  assert (clean (BEncoding_Encode (a_Name a))) as HB.
  { unfold BEncoding_Encode. destruct (needsEncoding _) eqn:E; [done|by apply unencoded_clean]. }
  repeat case_match; auto 10 with clean.
Qed.

Lemma formatAddressList_clean (l : list Address) : Forall (λ a, clean (a_Address a)) l → clean (formatAddressList l).
Proof.
  intros Hl. apply clean_Join; [auto with clean|]. apply Forall_fmap. eapply Forall_impl; [exact Hl|]. apply formatAddress_clean.
Qed.

Lemma boundary_clean (random : gostring) : clean (generateBoundary random).
Proof.
  apply clean_app; [auto with clean|]. apply clean_bytes. rewrite b64_Encode_values.
  intros c (n & -> & Hn)%list_elem_of_fmap. pose proof (b64_values_range c_minus c_under random) as Hr.
  rewrite Forall_forall in Hr. apply Hr in Hn.
  assert (forallb (λ n, 32 <=? bz (b64_digit c_minus c_under n)) (seqZ 0 64) = true) as Hall by (vm_compute; reflexivity).
  rewrite forallb_forall in Hall. specialize (Hall n). rewrite <- list_elem_of_In, elem_of_seqZ in Hall.
  specialize (Hall ltac:(lia)). lia.
Qed.

Lemma boundary_param_clean (ct random : gostring) : clean ct → clean (boundary_param ct (generateBoundary random)).
Proof. intros Hct. pose proof (boundary_clean random). unfold boundary_param. auto 10 with clean. Qed.

(** ** Headers that are written as they are meant *)

Definition good_key (k : gostring) : Prop := k ≠ [] ∧ ∀ c, c ∈ k → 33 ≤ bz c ≤ 126 ∧ c ≠ c_colon.

Definition header_ok (h : MIMEHeader) : Prop := ∀ k vs, h !! k = Some vs → good_key k ∧ ∃ v, vs = [v] ∧ clean v.

Lemma canonical_byte (b : bool) (c : ascii) :
  33 ≤ bz c ≤ 126 → c ≠ c_colon →
  let d := if b then upper_byte c else lower_byte c in (33 ≤ bz d ≤ 126 ∧ d ≠ c_colon) ∧ lower_byte d = lower_byte c.
Proof.
  intros H1 H2. assert (forallb (λ z, let c := zb z in let u := upper_byte c in let l := lower_byte c in
    Ascii.eqb c c_colon || (forallb (λ d, (33 <=? bz d) && (bz d <=? 126) && negb (Ascii.eqb d c_colon) &&
      Ascii.eqb (lower_byte d) (lower_byte c)) [u; l])) (seqZ 33 94) = true) as Hall by (vm_compute; reflexivity).
  rewrite forallb_forall in Hall. specialize (Hall (bz c)). rewrite <- list_elem_of_In, elem_of_seqZ in Hall.
  specialize (Hall ltac:(lia)). cbv zeta in Hall. rewrite zb_bz in Hall. destruct (Ascii.eqb_spec c c_colon); [done|].
  cbn [orb forallb] in Hall. rewrite !andb_true_iff, !negb_true_iff, !Ascii.eqb_neq, !Ascii.eqb_eq in Hall.
  destruct b; simpl; split_and!; try tauto; lia.
Qed.

Lemma canonical_good (b : bool) (k : gostring) :
  (∀ c, c ∈ k → 33 ≤ bz c ≤ 126 ∧ c ≠ c_colon) →
  (∀ c, c ∈ canonical b k → 33 ≤ bz c ≤ 126 ∧ c ≠ c_colon) ∧ lower_byte <$> canonical b k = lower_byte <$> k.
Proof.
  revert b. induction k as [|c k IH]; intros b Hk; [split; [by intros c ?%not_elem_of_nil|done]|].
  destruct (Hk c ltac:(left)) as [H1 H2]. destruct (canonical_byte b c H1 H2) as [Hd Hl].
  destruct (IH (Ascii.eqb c "-")) as [Hr Hlr]; [intros x Hx; apply Hk; by right|].
  cbn [canonical]. split; [intros x [->|Hx]%elem_of_cons; [done|by apply Hr]|]. cbn [fmap list_fmap]. by rewrite Hl, Hlr.
Qed.

Lemma good_key_ascii (k : gostring) : good_key k → all_ascii k = true.
Proof.
  intros [_ Hk]. unfold all_ascii. apply forallb_forall. intros c Hc%list_elem_of_In. apply Hk in Hc. unfold is_ascii. lia.
Qed.

Lemma CanonicalKey_good (k : gostring) : good_key k → good_key (CanonicalMIMEHeaderKey k).
Proof.
  intros [Hne Hk]. unfold CanonicalMIMEHeaderKey. destruct (forallb token_byte k); [|done].
  split; [by destruct k|]. by apply canonical_good.
Qed.

Lemma CanonicalKey_lower `{UnicodeTables} (k : gostring) : good_key k → ToLower (CanonicalMIMEHeaderKey k) = ToLower k.
Proof.
  intros Hk. pose proof (CanonicalKey_good k Hk) as Hc. rewrite !ToLower_ascii by by apply good_key_ascii.
  unfold CanonicalMIMEHeaderKey. destruct (forallb token_byte k); [|done]. by apply canonical_good, Hk.
Qed.

Lemma validateHeaderKey_good (k : gostring) : validateHeaderKey k = None → good_key k.
Proof.
  unfold validateHeaderKey. case_bool_decide as Hne; [done|]. destruct (existsb _ _) eqn:He; [done|]. intros _.
  assert (∀ r, r ∈ runes k → 33 ≤ r ≤ 126 ∧ r ≠ bz c_colon) as Hr.
  { intros r Hr. destruct ((r <? 33) || (126 <? r) || (r =? bz c_colon)) eqn:E.
    - assert (existsb (λ c, (c <? 33) || (126 <? c) || (c =? bz c_colon)) (runes k) = true); [|congruence].
      apply existsb_exists. exists r. split; [by apply list_elem_of_In|done].
    - rewrite !orb_false_iff in E. lia. }
  assert (all_ascii k = true) as Hk by (apply low_runes_ascii; intros r Hin%Hr; lia).
  split; [done|]. intros c Hc. rewrite runes_ascii in Hr by done.
  destruct (Hr (bz c)) as [H1 H2]; [by apply list_elem_of_fmap_2|]. split; [done|]. by intros ->.
Qed.

Lemma lookup_Set (k v : gostring) (h : MIMEHeader) (k' : gostring) :
  Set_ k v h !! k' = if decide (CanonicalMIMEHeaderKey k = k') then Some [v] else h !! k'.
Proof. unfold Set_. destruct (decide _) as [<-|]; [apply lookup_insert_eq|by apply lookup_insert_ne]. Qed.

Lemma Set_ok (k v : gostring) (h : MIMEHeader) : good_key k → clean v → header_ok h → header_ok (Set_ k v h).
Proof.
  intros Hk Hv Hh k' vs. rewrite lookup_Set. destruct (decide _) as [<-|]; [intros [= <-]|apply Hh].
  split; [by apply CanonicalKey_good|eauto].
Qed.

Lemma good_lit (k : gostring) : bool_decide (k ≠ []) && forallb (λ c, (33 <=? bz c) && (bz c <=? 126) && negb (Ascii.eqb c c_colon)) k = true →
  good_key k.
Proof.
  rewrite andb_true_iff, bool_decide_eq_true. intros [Hne Hk]. split; [done|]. intros c Hc%list_elem_of_In.
  rewrite forallb_forall in Hk. apply Hk in Hc. rewrite !andb_true_iff, negb_true_iff, Ascii.eqb_neq in Hc. split; [lia|tauto].
Qed.

#[local] Hint Extern 5 (good_key _) => apply good_lit; vm_compute; reflexivity : clean.
#[local] Hint Resolve Set_ok : clean.

(** ** Writing the fields *)

Lemma fold_loop_split (cur : gostring) (toks : list gostring) :
  cur ≠ [] → CR ∉ cur → Forall (λ t, CR ∉ t) toks →
  ∃ ls, Forall (λ l, l ≠ []) ls ∧ ∀ rest, SplitCRLF (fold_loop cur toks ++ rest) = ls ++ SplitCRLF rest.
Proof.
  revert cur. induction toks as [|tok toks IH]; intros cur Hne Hc Ht; cbn [fold_loop].
  - exists [cur]. split; [by apply Forall_singleton|]. intros rest. rewrite <- app_assoc. by apply SplitCRLF_line.
  - apply Forall_cons in Ht as [Ht Hts]. destruct (_ <? _)%nat.
    + destruct (IH (SP :: tok)) as (ls & Hl & Hls); [done|by rewrite not_elem_of_cons|done|]. exists (cur :: ls).
      split; [by constructor|]. intros rest. rewrite <- !app_assoc, SplitCRLF_line by done. by rewrite Hls.
    + apply IH; [by destruct cur|rewrite not_elem_of_app, not_elem_of_cons; auto|done].
Qed.

Lemma foldHeaderLine_split (k v : gostring) : CR ∉ k → CR ∉ v →
  ∃ ls, Forall (λ l, l ≠ []) ls ∧ ∀ rest, SplitCRLF (foldHeaderLine k v ++ rest) = ls ++ SplitCRLF rest.
Proof.
  intros Hk Hv. unfold foldHeaderLine. pose proof (Split_no_cr v SP CR Hv) as Hc. pose proof (Split_nonempty v SP).
  destruct (Split v SP) as [|t ts]; [done|]. apply Forall_cons in Hc as [Hc Hcs]. apply fold_loop_split; [by destruct k| |done].
  rewrite !not_elem_of_app, !not_elem_of_cons. split_and!; try done. apply not_elem_of_nil.
Qed.

Definition plain_field (f : gostring * gostring) : gostring := fst f ++ lit ": " ++ snd f ++ crlf.

Lemma good_key_no_cr (k : gostring) : good_key k → CR ∉ k.
Proof. intros [_ Hk] Hc. apply Hk in Hc as [Hc _]. vm_compute in Hc. by destruct Hc. Qed.

Lemma fold_loop_start (c : ascii) (cur : gostring) (toks : list gostring) : ∃ u, fold_loop (c :: cur) toks = c :: u.
Proof.
  revert cur. induction toks as [|t ts IH]; intros cur; cbn [fold_loop]; [by eexists|].
  destruct (_ <? _)%nat; [by eexists|]. apply IH.
Qed.

(** The first byte of a field is no white space. *)
Lemma foldHeaderLine_start (k v rest : gostring) : good_key k → starts_wsp (foldHeaderLine k v ++ rest) = false.
Proof.
  intros [Hne Hk]. destruct k as [|c k]; [done|]. destruct (Hk c ltac:(left)) as [Hc _].
  assert (∃ u, foldHeaderLine (c :: k) v = c :: u) as [u ->].
  { unfold foldHeaderLine. destruct (Split v SP) as [|t ts]; [by eexists|]. apply fold_loop_start. }
  simpl. apply orb_false_iff. split; apply Ascii.eqb_neq; intros ->; vm_compute in Hc; by destruct Hc.
Qed.

Lemma writeFields_spec (l : list (gostring * gostring)) (header : gostring) :
  Forall (λ f, good_key (fst f) ∧ clean (snd f)) l → writeFields l = Ok header →
  Unfold header = concat (plain_field <$> l) ∧ starts_wsp header = false ∧
  Forall (λ ln, (length ln ≤ maxHeaderLine)%nat) (SplitCRLF header).
Proof.
  intros Hl. revert header. induction Hl as [|[k v] l [Hk [Hv _]] Hl IH]; intros header.
  - intros [= <-]. split_and!; [done|done|]. constructor; [unfold maxHeaderLine; simpl; lia|constructor].
  - cbn [writeFields]. destruct (Nat.ltb_spec maxHeaderLine (longestLine (foldHeaderLine k v))) as [|Hlong]; [done|].
    intros (rest & Hrest & [= <-])%res_bind_Ok. destruct (IH rest Hrest) as (Hu & Hs & Hlines).
    pose proof (good_key_no_cr k Hk) as Hkc. split_and!.
    + rewrite foldHeaderLine_unfold by done. cbn [fmap list_fmap concat plain_field fst snd]. rewrite Hu.
      unfold plain_field. cbn [fst snd]. by rewrite <- !app_assoc.
    + by apply foldHeaderLine_start.
    + destruct (foldHeaderLine_split k v Hkc Hv) as (ls & _ & Hls). rewrite Hls. apply Forall_app. split; [|done].
      apply longest_le in Hlong. specialize (Hls []). rewrite app_nil_r in Hls. rewrite Hls in Hlong.
      by apply Forall_app in Hlong as [? _].
Qed.

Lemma fields_of_ok (h : MIMEHeader) : header_ok h → Forall (λ f, good_key (fst f) ∧ clean (snd f)) (fields_of h).
Proof.
  intros Hh. apply Forall_concat, Forall_fmap, Forall_forall. intros k _. simpl. unfold values.
  destruct (h !! k) as [vs|] eqn:Hk; [|constructor]. destruct (Hh k vs Hk) as [Hg (v & -> & Hv)]. by apply Forall_singleton.
Qed.

(** ** The caller's headers *)

Section callers.
Context `{UnicodeTables}.

Lemma setHeaders_spec (l : list (gostring * gostring)) (h h' : MIMEHeader) :
  header_ok h → setHeaders l h = Ok h' →
  header_ok h' ∧
  ∀ k, h' !! k = h !! k ∨
    ∃ k' v, (k', v) ∈ l ∧ isReservedHeader k' = false ∧ k = CanonicalMIMEHeaderKey k' ∧ good_key k' ∧ h' !! k = Some [v].
Proof.
  revert h. induction l as [|[k v] l IH]; intros h Hh; cbn [setHeaders]; [intros [= <-]; eauto|].
  destruct (isReservedHeader k) eqn:Hr.
  - intros Hs. destruct (IH h Hh Hs) as [Hok Hrest]. split; [done|]. intros x. destruct (Hrest x) as [|(k' & w & Hin & Hx)]; [by left|].
    right. exists k', w. split; [by right|done].
  - destruct (validateHeaderKey k) eqn:Hvk; [done|]. apply validateHeaderKey_good in Hvk.
    destruct (containsInjectionChars v) eqn:Hi; [done|]. intros Hs.
    assert (clean v) as Hv.
    { pose proof (proj1 (ContainsAny_false _ _) Hi) as Hc. split; intros Hin; apply Hc in Hin; apply Hin;
        rewrite !elem_of_cons; tauto. }
    destruct (IH (Set_ k v h) (Set_ok k v h Hvk Hv Hh) Hs) as [Hok Hrest]. split; [done|]. intros x.
    destruct (Hrest x) as [Hx|(k' & w & Hin & Hx)]; [|right; exists k', w; split; [by right|done]].
    rewrite lookup_Set in Hx. destruct (decide _) as [<-|]; [|by left]. right. exists k, v. split; [left|done].
Qed.

(** A field the builder manages keeps its value. *)
Lemma setHeaders_managed (l : list (gostring * gostring)) (h h' : MIMEHeader) (k : gostring) :
  header_ok h → setHeaders l h = Ok h' → ToLower k ∈ reservedHeaders → h' !! k = h !! k.
Proof.
  intros Hh Hs Hk. destruct (setHeaders_spec l h h' Hh Hs) as [_ Hrest].
  destruct (Hrest k) as [|(k' & v & _ & Hr & -> & Hg & _)]; [done|]. exfalso.
  unfold isReservedHeader in Hr. apply bool_decide_eq_false in Hr. apply Hr. by rewrite <- CanonicalKey_lower.
Qed.
End callers.

(** ** The header of a message *)

Definition managedFields : list gostring :=
  [lit "From"; lit "To"; lit "Cc"; lit "Bcc"; lit "Subject"; lit "Date"; lit "Message-Id"; lit "Mime-Version";
   lit "Content-Type"; lit "Content-Transfer-Encoding"].

Lemma managed_reserved `{UnicodeTables} (k : gostring) : k ∈ managedFields → ToLower k ∈ reservedHeaders.
Proof.
  intros Hk. assert (all_ascii k = true ∧ (lower_byte <$> k) ∈ reservedHeaders) as [Ha Hr].
  { repeat (apply elem_of_cons in Hk as [->|Hk]; [split; [reflexivity|]; apply (bool_decide_unpack _); vm_compute; exact I|]).
    by apply not_elem_of_nil in Hk. }
  by rewrite ToLower_ascii.
Qed.

(** What a field set last, or not at all, looks up to. *)
Lemma when_set_ok (c : bool) (k v : gostring) (h : MIMEHeader) : good_key k → clean v → header_ok h → header_ok (when_set c k v h).
Proof. intros. unfold when_set. destruct c; [by apply Set_ok|done]. Qed.

Ltac look := repeat first
  [ rewrite lookup_Set | rewrite decide_True by (vm_compute; reflexivity) | rewrite decide_False by (vm_compute; discriminate) ].

Definition opt_field (c : bool) (v : gostring) : option (list gostring) := if c then Some [v] else None.

Lemma ownFields_spec (env : Assembly) (msg : Message) (id : gostring) :
  let h := ownFields env msg id in
  h !! lit "From" = Some [formatAddress (m_From msg)] ∧ h !! lit "Message-Id" = Some [id] ∧
  h !! lit "To" = opt_field (0 <? length (m_To msg))%nat (formatAddressList (m_To msg)) ∧
  h !! lit "Cc" = opt_field (0 <? length (m_Cc msg))%nat (formatAddressList (m_Cc msg)) ∧
  h !! lit "Subject" = opt_field (m_Subject msg != []) (subjectField (m_Subject msg)) ∧
  h !! lit "Bcc" = None ∧ ∀ k, k ∉ managedFields → h !! k = None.
Proof.
  unfold ownFields, when_set, opt_field. split_and!.
  1-6: destruct (m_Subject msg != []), (0 <? length (m_Cc msg))%nat, (0 <? length (m_To msg))%nat; look; done.
  intros k Hk. unfold managedFields in Hk. rewrite !not_elem_of_cons in Hk.
  assert (∀ n v (h : MIMEHeader), k ≠ CanonicalMIMEHeaderKey n → h !! k = None → Set_ n v h !! k = None) as Hset.
  { intros n v h Hne Hh. rewrite lookup_Set, decide_False; [done|]. congruence. }
  destruct (m_Subject msg != []), (0 <? length (m_Cc msg))%nat, (0 <? length (m_To msg))%nat;
    repeat (apply Hset; [intros E; vm_compute in E; tauto|]); apply lookup_empty.
Qed.

Lemma ownFields_ok (env : Assembly) (msg : Message) (id : gostring) :
  clean (as_date env) → clean id → Forall (λ a, clean (a_Address a)) (m_From msg :: m_To msg ++ m_Cc msg) →
  header_ok (ownFields env msg id).
Proof.
  intros Hd Hid [Hf [Ht Hc]%Forall_app]%Forall_cons. unfold ownFields.
  pose proof (formatAddress_clean _ Hf). pose proof (formatAddressList_clean _ Ht). pose proof (formatAddressList_clean _ Hc).
  pose proof (subject_clean (m_Subject msg)).
  assert (header_ok ∅) as He by (intros k vs Hk; assert ((∅ : MIMEHeader) !! k = None) by apply lookup_empty; congruence).
  repeat first [apply Set_ok; [auto with clean|auto with clean|] | apply when_set_ok; [auto with clean|auto with clean|] | done].
Qed.

Lemma merge_singleton (k v : gostring) (h : MIMEHeader) : merge_header {[k := [v]]} h = Set_ k v h.
Proof.
  assert (map_to_list ({[k := [v]]} : MIMEHeader) = [(k, [v])]) as E by apply map_to_list_singleton.
  unfold merge_header. by rewrite E.
Qed.

Lemma text_clean : clean text_plain ∧ clean text_html.
Proof. split; apply clean_lit; vm_compute; reflexivity. Qed.

Section header.
Context `{UnicodeTables, MediaTypes}.

Lemma buildRelated_header (rb : Boundaries) (html body : gostring) (l : list Attachment) (ph : MIMEHeader) :
  buildRelated rb html l = Ok (body, ph) → ∃ ct, ph = {[lit "Content-Type" := [ct]]} ∧ clean ct.
Proof.
  unfold buildRelated. intros (w & _ & [= _ <-])%res_bind_Ok. eexists. split; [reflexivity|].
  apply boundary_param_clean. apply clean_lit. vm_compute. reflexivity.
Qed.

Lemma buildAlternative_header (rb : Boundaries) (b : Body) (l : list Attachment) (body : gostring) (ph : MIMEHeader) :
  buildAlternative rb b l = Ok (body, ph) → ∃ ct, ph = {[lit "Content-Type" := [ct]]} ∧ clean ct.
Proof.
  unfold buildAlternative. intros (w & _ & [= _ <-])%res_bind_Ok. eexists. split; [reflexivity|].
  apply boundary_param_clean, clean_lit. vm_compute. reflexivity.
Qed.

(** The content type and transfer encoding are all the body adds to the header. *)
Lemma assembleBody_header (env : Assembly) (msg : Message) (h h' : MIMEHeader) (body : gostring) :
  assembleBody env msg h = Ok (h', body) →
  ∃ ct, clean ct ∧ (h' = Set_ "Content-Type" ct h ∨
    ∃ cte, clean cte ∧ h' = Set_ "Content-Transfer-Encoding" cte (Set_ "Content-Type" ct h)).
Proof.
  unfold assembleBody. destruct text_clean as [Hp Hh].
  destruct (negb (0 <? _)%nat && _ && _); [intros [= <- _]; exists text_plain; split; [done|]; right; eexists; split; [|reflexivity];
    apply clean_lit; vm_compute; reflexivity|].
  destruct (negb (0 <? _)%nat).
  - unfold writeAlternative.
    assert (∀ r : res AssembleError (gostring * MIMEHeader),
      (∀ b ph, r = Ok (b, ph) → ∃ ct, ph = {[lit "Content-Type" := [ct]]} ∧ clean ct) →
      (let! r := r in Ok (merge_header (snd r) h, fst r)) = Ok (h', body) → ∃ ct, clean ct ∧ h' = Set_ "Content-Type" ct h) as Hm.
    { intros r Hr ([b ph] & -> & [= <- <-])%res_bind_Ok. destruct (Hr b ph eq_refl) as (ct & -> & Hc).
      exists ct. split; [done|]. apply (merge_singleton "Content-Type"). }
    destruct (hasText _ && hasHTML _).
    { intros (ct & ? & ?)%Hm; [eauto|]. intros. by eapply buildAlternative_header. }
    destruct (hasHTML _ && _).
    { intros (ct & ? & ?)%Hm; [eauto|]. intros. by eapply buildRelated_header. }
    destruct (hasHTML _); intros [= <- _]; [exists text_html|exists text_plain]; (split; [done|]); right; eexists;
      (split; [|reflexivity]); apply clean_lit; vm_compute; reflexivity.
  - intros (w & _ & (w' & _ & [= <- _])%res_bind_Ok)%res_bind_Ok. eexists. split; [|left; reflexivity].
    apply boundary_param_clean, clean_lit. vm_compute. reflexivity.
Qed.

End header.
