(* ===== verification/MimeParts.v ===== *)
(** * What a reader finds in an assembled message

    Reference readers of RFC 2046 (multipart bodies) and RFC 5322 (mailboxes with a
    display name), and the theorems that they find what [mime.go] was given: the
    attachments of a mixed body, and the name and address of a mailbox. *)

From S2P Require Import Prelude GoStrings Types Address Driver Credential MailParse MimeText MimeMessage.

(** ** Lines *)

Lemma SplitCRLF_step (c d : ascii) (t : gostring) :
  SplitCRLF (c :: d :: t) =
  if Ascii.eqb c CR && Ascii.eqb d LF then [] :: SplitCRLF t else prepend [c] (SplitCRLF (d :: t)).
Proof.
  change (SplitCRLF (c :: d :: t)) with (if Ascii.eqb c CR && Ascii.eqb d LF then [] :: SplitCRLF t
    else match SplitCRLF (d :: t) with [] => [[c]] | p :: ps => (c :: p) :: ps end).
  destruct (_ && _); [done|]. by destruct (SplitCRLF (d :: t)).
Qed.

Lemma SplitCRLF_lines (a b : gostring) : SplitCRLF (a ++ crlf ++ b) = SplitCRLF a ++ SplitCRLF b.
Proof.
  remember (length a) as n eqn:Hn. revert a Hn. induction (lt_wf n) as [n _ IH]. intros a ->.
  destruct a as [|c [|d a]]; [done| |].
  - cbn [app crlf]. rewrite SplitCRLF_step. change (Ascii.eqb CR LF) with false. rewrite andb_false_r. done.
  - pose proof (IH (length (d :: a)) ltac:(simpl; lia) (d :: a) eq_refl) as H1.
    pose proof (IH (length a) ltac:(simpl; lia) a eq_refl) as H2.
    cbn [app] in *. rewrite !SplitCRLF_step.
    destruct (Ascii.eqb c CR && Ascii.eqb d LF); [by rewrite H2|]. rewrite H1.
    pose proof (SplitCRLF_nonempty (d :: a)). by destruct (SplitCRLF (d :: a)).
Qed.

Lemma Join_prepend (l : gostring) (ls : list gostring) : ls ≠ [] → Join (prepend l ls) crlf = l ++ Join ls crlf.
Proof. destruct ls as [|p ps]; [done|]. intros _. simpl. by rewrite app_assoc. Qed.

Lemma Join_lines (s : gostring) : Join (SplitCRLF s) crlf = s.
Proof.
  remember (length s) as n eqn:Hn. revert s Hn. induction (lt_wf n) as [n _ IH]. intros s ->.
  destruct s as [|c [|d u]]; [done|done|]. rewrite SplitCRLF_step.
  pose proof (IH (length (d :: u)) ltac:(simpl; lia) (d :: u) eq_refl) as H1.
  pose proof (IH (length u) ltac:(simpl; lia) u eq_refl) as H2.
  destruct (Ascii.eqb_spec c CR) as [->|], (Ascii.eqb_spec d LF) as [->|]; cbn [andb].
  1: rewrite Join_cons by apply SplitCRLF_nonempty; by rewrite H2.
  all: rewrite Join_prepend by apply SplitCRLF_nonempty; by rewrite H1.
Qed.

(** ** Multipart bodies *)

(** RFC 2046 5.1.1: a line that starts with "--" and the boundary delimits parts; with
    "--" after it, it ends the last. *)
Definition is_delimiter (b l : gostring) : bool := HasPrefix l (lit "--" ++ b).
Definition is_close (b l : gostring) : bool := HasPrefix l (lit "--" ++ b ++ lit "--").

(** The lines of the parts; [cur] are those of the part being read, in reverse. *)
Fixpoint parts_from (b : gostring) (ls : list gostring) (cur : list gostring) : list (list gostring) :=
  match ls with
  | [] => [reverse cur]
  | l :: ls => if is_close b l then [reverse cur]
               else if is_delimiter b l then reverse cur :: parts_from b ls []
               else parts_from b ls (l :: cur)
  end.

Fixpoint skip_preamble (b : gostring) (ls : list gostring) : list (list gostring) :=
  match ls with
  | [] => []
  | l :: ls => if is_delimiter b l then (if is_close b l then [] else parts_from b ls []) else skip_preamble b ls
  end.

Definition read_multipart (b body : gostring) : list (list gostring) := skip_preamble b (SplitCRLF body).

(** A part: its header lines, and after the first empty line its content. *)
Fixpoint read_part (ls : list gostring) : option (list gostring * gostring) :=
  match ls with
  | [] => None
  | [] :: ls => Some ([], Join ls crlf)
  | l :: ls => '(h, c) ← read_part ls; Some (l :: h, c)
  end.

(** The text of a part as the writer writes it. *)
Definition raw_part (p : MIMEHeader * gostring) : gostring := part_header (fst p) ++ crlf ++ snd p.

Definition no_delimiter (b s : gostring) : Prop := Forall (λ l, is_delimiter b l = false) (SplitCRLF s).

Lemma close_is_delimiter (b l : gostring) : is_close b l = true → is_delimiter b l = true.
Proof. unfold is_close, is_delimiter. rewrite !HasPrefix_spec. intros [t ->]. exists (lit "--" ++ t). by rewrite <- !app_assoc. Qed.

Lemma parts_from_lines (b : gostring) (ls rest cur : list gostring) :
  Forall (λ l, is_delimiter b l = false) ls →
  parts_from b (ls ++ rest) cur = parts_from b rest (reverse ls ++ cur).
Proof.
  intros Hl. revert cur. induction Hl as [|l ls Hd Hl IH]; intros cur; [done|]. cbn [app parts_from].
  destruct (is_close b l) eqn:Hc; [apply close_is_delimiter in Hc; congruence|]. rewrite Hd, IH, reverse_cons.
  by rewrite <- app_assoc.
Qed.

(** A delimiter line as the writer writes it: not a closing one, since the boundary
    ends the line. *)
Lemma delimiter_line (b : gostring) : is_delimiter b (lit "--" ++ b) = true ∧ is_close b (lit "--" ++ b) = false.
Proof.
  unfold is_delimiter, is_close. split; [apply HasPrefix_spec; exists []; by rewrite app_nil_r|].
  apply not_true_iff_false. rewrite HasPrefix_spec. intros [t Ht]. apply (f_equal length) in Ht.
  rewrite !length_app in Ht. simpl in Ht. lia.
Qed.

Definition write_parts (b : gostring) (ps : list (MIMEHeader * gostring)) : Writer :=
  foldl (λ w p, CreatePart (fst p) (snd p) w) (NewWriter b) ps.

(** The text of the parts after the first delimiter. *)
Lemma write_parts_out (b : gostring) (p : MIMEHeader * gostring) (ps : list (MIMEHeader * gostring)) :
  mw_out (write_parts b (p :: ps)) =
    lit "--" ++ b ++ crlf ++ raw_part p ++ concat ((λ q, crlf ++ lit "--" ++ b ++ crlf ++ raw_part q) <$> ps).
Proof.
  unfold write_parts. cbn [foldl]. set (w := CreatePart (fst p) (snd p) (NewWriter b)).
  assert (∀ ps w, mw_started w = true →
    mw_out (foldl (λ w p, CreatePart (fst p) (snd p) w) w ps) =
      mw_out w ++ concat ((λ q, crlf ++ lit "--" ++ mw_boundary w ++ crlf ++ raw_part q) <$> ps)) as Hgo.
  { clear. induction ps as [|q ps IH]; intros w Hw; cbn [foldl]; [by rewrite app_nil_r|]. rewrite IH by done.
    cbn [CreatePart mw_out mw_boundary]. rewrite Hw. cbn [fmap list_fmap concat]. unfold raw_part. by rewrite <- !app_assoc. }
  rewrite Hgo by done. unfold w, raw_part. cbn [CreatePart mw_out mw_boundary NewWriter mw_started]. by rewrite <- !app_assoc.
Qed.

Lemma parts_from_parts (b : gostring) (ps : list (MIMEHeader * gostring)) (cur : list gostring) :
  CR ∉ b → Forall (λ p, no_delimiter b (raw_part p)) ps →
  parts_from b (concat ((λ q, (lit "--" ++ b) :: SplitCRLF (raw_part q)) <$> ps) ++ [lit "--" ++ b ++ lit "--"; []]) cur =
    reverse cur :: ((λ q, SplitCRLF (raw_part q)) <$> ps).
Proof.
  intros Hb Hps. revert cur. destruct (delimiter_line b) as [Hd Hc].
  induction Hps as [|p ps Hp Hps IH]; intros cur; cbn [fmap list_fmap concat app parts_from].
  - assert (is_close b (lit "--" ++ b ++ lit "--") = true) as ->; [|done].
    apply HasPrefix_spec. exists []. by rewrite app_nil_r.
  - rewrite Hc, Hd. rewrite <- app_assoc, parts_from_lines by done. rewrite app_nil_r, IH. by rewrite reverse_involutive.
Qed.

Lemma no_cr_app (a b : gostring) : CR ∉ a → CR ∉ b → CR ∉ a ++ b.
Proof. rewrite not_elem_of_app. tauto. Qed.

(** The parts of a closed writer are read back, if no part holds a delimiter. *)
Lemma multipart_read (b : gostring) (p : MIMEHeader * gostring) (ps : list (MIMEHeader * gostring)) :
  CR ∉ b → Forall (λ q, no_delimiter b (raw_part q)) (p :: ps) →
  mw_boundary (write_parts b (p :: ps)) = b →
  read_multipart b (Close (write_parts b (p :: ps))) = (λ q, SplitCRLF (raw_part q)) <$> (p :: ps).
Proof.
  intros Hb [Hp Hps]%Forall_cons Hbound. unfold read_multipart, Close. rewrite Hbound, write_parts_out.
  assert (CR ∉ lit "--") as Hdash by (intros H%elem_spec; vm_compute in H; discriminate).
  assert (∀ s, SplitCRLF (lit "--" ++ b ++ crlf ++ s) = (lit "--" ++ b) :: SplitCRLF s) as Hline.
  { intros s. rewrite app_assoc. apply SplitCRLF_line. by apply no_cr_app. }
  assert (∀ qs s, SplitCRLF (concat ((λ q, crlf ++ lit "--" ++ b ++ crlf ++ raw_part q) <$> qs) ++ crlf ++ s) =
    [] :: concat ((λ q, (lit "--" ++ b) :: SplitCRLF (raw_part q)) <$> qs) ++ SplitCRLF s) as Hrest.
  { intros qs s. induction qs as [|q qs IH]; [done|]. cbn [fmap list_fmap concat]. rewrite <- !app_assoc, SplitCRLF_crlf, Hline.
    f_equal. cbn [app]. f_equal. destruct qs as [|q' qs].
    - cbn [fmap list_fmap concat app] in *. by rewrite SplitCRLF_lines.
    - cbn [fmap list_fmap concat] in *. rewrite <- !app_assoc in *. rewrite SplitCRLF_lines.
      rewrite SplitCRLF_crlf in IH. apply (f_equal (@tail _)) in IH. cbn [tail] in IH. rewrite IH. done. }
  rewrite <- !app_assoc, Hline. cbn [skip_preamble]. destruct (delimiter_line b) as [-> ->].
  assert (SplitCRLF (raw_part p ++ concat ((λ q, crlf ++ lit "--" ++ b ++ crlf ++ raw_part q) <$> ps) ++ crlf ++ lit "--" ++ b ++ lit "--" ++ crlf) =
    SplitCRLF (raw_part p) ++ concat ((λ q, (lit "--" ++ b) :: SplitCRLF (raw_part q)) <$> ps) ++ [lit "--" ++ b ++ lit "--"; []]) as ->.
  { assert (SplitCRLF (lit "--" ++ b ++ lit "--" ++ crlf) = [lit "--" ++ b ++ lit "--"; []]) as Hend.
    { rewrite (app_assoc b), (app_assoc (lit "--")). rewrite <- (app_nil_r crlf). rewrite SplitCRLF_line; [done|].
      by repeat apply no_cr_app. }
    destruct ps as [|q ps]; [cbn [fmap list_fmap concat app]; by rewrite SplitCRLF_lines, Hend|].
    pose proof (Hrest (q :: ps) (lit "--" ++ b ++ lit "--" ++ crlf)) as Hq. cbn [fmap list_fmap concat] in Hq |- *.
    rewrite <- !app_assoc in Hq |- *. rewrite SplitCRLF_lines. rewrite SplitCRLF_crlf in Hq. apply (f_equal (@tail _)) in Hq. cbn [tail] in Hq.
    rewrite Hq, Hend. done. }
  rewrite parts_from_lines by done. rewrite app_nil_r, parts_from_parts by done. by rewrite reverse_involutive.
Qed.

(** ** Reading a part and a message *)

Definition field_line (f : gostring * gostring) : gostring := fst f ++ lit ": " ++ snd f.

Lemma part_header_fields (h : MIMEHeader) : part_header h = concat (plain_field <$> fields_of h).
Proof.
  unfold part_header, fields_of. induction (sorted_keys h) as [|k ks IH]; [done|]. cbn [fmap list_fmap concat].
  rewrite IH, fmap_app, concat_app. f_equal. by rewrite <- list_fmap_compose.
Qed.

Lemma read_part_lines (ls : list gostring) (c : gostring) :
  Forall (λ l, l ≠ []) ls → read_part (ls ++ [] :: SplitCRLF c) = Some (ls, c).
Proof.
  induction 1 as [|l ls Hl Hls IH]; cbn [app read_part]; [by rewrite Join_lines|]. destruct l; [done|]. by rewrite IH.
Qed.

Lemma field_lines_split (fs : list (gostring * gostring)) (rest : gostring) :
  Forall (λ f, good_key (fst f) ∧ clean (snd f)) fs →
  SplitCRLF (concat (plain_field <$> fs) ++ rest) = (field_line <$> fs) ++ SplitCRLF rest ∧
  Forall (λ l, l ≠ []) (field_line <$> fs).
Proof.
  induction 1 as [|[k v] fs [Hk [Hv _]] Hfs [IH1 IH2]]; [done|]. cbn [fmap list_fmap concat].
  unfold plain_field at 1. cbn [fst snd] in *. split.
  - rewrite <- !app_assoc. rewrite (app_assoc (lit ": ")), (app_assoc k). rewrite SplitCRLF_line; [by rewrite IH1|].
    pose proof (good_key_no_cr k Hk). apply no_cr_app; [done|]. apply no_cr_app; [|done].
    intros Hx%elem_spec. vm_compute in Hx. discriminate.
  - constructor; [|done]. unfold field_line. destruct Hk as [Hk _]. by destruct k.
Qed.

Lemma read_raw_part (h : MIMEHeader) (c : gostring) : header_ok h →
  SplitCRLF (raw_part (h, c)) = (field_line <$> fields_of h) ++ [] :: SplitCRLF c ∧
  read_part (SplitCRLF (raw_part (h, c))) = Some (field_line <$> fields_of h, c).
Proof.
  intros Hh. unfold raw_part. cbn [fst snd]. rewrite part_header_fields.
  destruct (field_lines_split (fields_of h) (crlf ++ c) (fields_of_ok h Hh)) as [-> Hne]. rewrite SplitCRLF_crlf.
  split; [done|]. by apply read_part_lines.
Qed.

(** A written header is read to its end. *)
Lemma writeFields_read (l : list (gostring * gostring)) (header body : gostring) :
  Forall (λ f, good_key (fst f) ∧ clean (snd f)) l → writeFields l = Ok header →
  ∃ ls, read_part (SplitCRLF (header ++ crlf ++ body)) = Some (ls, body).
Proof.
  intros Hl Hw. assert (∃ ls, Forall (λ l, l ≠ []) ls ∧ ∀ rest, SplitCRLF (header ++ rest) = ls ++ SplitCRLF rest)
    as (ls & Hne & Hs); [|exists ls; rewrite Hs, SplitCRLF_crlf; by apply read_part_lines].
  revert header Hw. induction Hl as [|[k v] l [Hk [Hv _]] Hl IH]; intros header; cbn [writeFields].
  - intros [= <-]. by exists [].
  - destruct (_ <? _)%nat; [done|]. intros (rest & Hrest & [= <-])%res_bind_Ok. destruct (IH rest Hrest) as (ls & Hne & Hs).
    destruct (foldHeaderLine_split k v (good_key_no_cr k Hk) Hv) as (ls' & Hne' & Hs'). exists (ls' ++ ls).
    split; [by apply Forall_app|]. intros r. by rewrite <- app_assoc, Hs', Hs, app_assoc.
Qed.

(** ** Attachments *)

Lemma SplitCRLF_elem (s l : gostring) (c : ascii) : l ∈ SplitCRLF s → c ∈ l → c ∈ s.
Proof.
  remember (length s) as n eqn:Hn. revert s l Hn. induction (lt_wf n) as [n _ IH]. intros s l ->.
  destruct s as [|x [|y s]]; [by intros ->%list_elem_of_singleton|by intros ->%list_elem_of_singleton|].
  rewrite SplitCRLF_step. destruct (_ && _).
  - intros [->|Hl]%elem_of_cons Hc; [by apply not_elem_of_nil in Hc|]. right; right. eapply IH; [|done|done|done]. simpl; lia.
  - pose proof (IH (length (y :: s)) ltac:(simpl; lia) (y :: s)) as Hrec.
    destruct (SplitCRLF (y :: s)) as [|p ps]; cbn [prepend]; [intros ->%list_elem_of_singleton Hc; apply list_elem_of_singleton in Hc as ->; left|].
    intros [->|Hl]%elem_of_cons Hc.
    + apply elem_of_cons in Hc as [->|Hc]; [left|]. right. eapply Hrec; [done|left|done].
    + right. eapply Hrec; [done|by right|done].
Qed.

Lemma b64_no_dash (s : gostring) : "-"%char ∉ attachmentBody s.
Proof.
  intros Hin. assert ("-"%char ∈ std_Encode s) as Hs.
  { rewrite <- (encoder_content (S (length s)) s) by lia. apply list_elem_of_In, List.filter_In.
    split; [by apply list_elem_of_In|reflexivity]. }
  unfold std_Encode in Hs. apply elem_of_app in Hs as [Hs|[Hs _]%elem_of_replicate]; [|by vm_compute in Hs].
  rewrite b64_Encode_values in Hs. apply list_elem_of_fmap in Hs as (n & E & Hn).
  pose proof (b64_values_range c_plus c_slash s) as Hr. rewrite Forall_forall in Hr. apply Hr in Hn.
  assert (forallb (λ n, negb (Ascii.eqb "-" (b64_digit c_plus c_slash n))) (seqZ 0 64) = true) as Hall by (vm_compute; reflexivity).
  rewrite forallb_forall in Hall. specialize (Hall n). rewrite <- list_elem_of_In, elem_of_seqZ in Hall.
  specialize (Hall ltac:(lia)). apply negb_true_iff, Ascii.eqb_neq in Hall. done.
Qed.

Lemma not_delimiter (b l : gostring) : head l ≠ Some "-"%char → is_delimiter b l = false.
Proof.
  intros Hl. apply not_true_iff_false. unfold is_delimiter. rewrite HasPrefix_spec. intros [t ->]. done.
Qed.

Lemma isASCII_clean (s : gostring) : isASCII s = true → clean s.
Proof. rewrite isASCII_spec. intros Hs. apply clean_bytes. intros c Hc%Hs. lia. Qed.

Lemma content_id_clean (id : gostring) : ValidateContentID id = Ok () → clean id.
Proof.
  unfold ValidateContentID. destruct (_ || _); [done|]. destruct (Cut id c_at_sign) as [[l r]|] eqn:Hc; [|done].
  apply Cut_Some in Hc as [-> _]. destruct (isDotAtom l) eqn:Hl; [|done]. destruct (isDotAtom r) eqn:Hr; [|done]. intros _.
  assert (∀ s, isDotAtom s = true → clean s) as Hd.
  { intros s. unfold isDotAtom. destruct (_ || _); [done|]. rewrite forallb_forall. intros Hs. apply clean_bytes.
    intros c Hc%list_elem_of_In%Hs. destruct c as [[] [] [] [] [] [] [] []]; vm_compute in Hc |- *; congruence. }
  apply clean_app; [by apply Hd|]. apply clean_cons; [by vm_compute|by vm_compute|by apply Hd].
Qed.

(** The field of a header is one of its lines. *)
Lemma field_in (h : MIMEHeader) (k v : gostring) : h !! k = Some [v] → field_line (k, v) ∈ field_line <$> fields_of h.
Proof.
  intros Hk. apply list_elem_of_fmap_2. unfold fields_of. apply list_elem_of_In, in_concat.
  exists ((λ v, (k, v)) <$> values h k). split; apply list_elem_of_In.
  - apply list_elem_of_fmap. exists k. split; [done|]. unfold sorted_keys. rewrite SliceStable_perm.
    apply list_elem_of_fmap. exists (k, [v]). split; [done|]. by apply elem_of_map_to_list.
  - unfold values. rewrite Hk. left.
Qed.

Section attachments.
Context `{UnicodeTables, MediaTypesLaws}.

Definition disposition (a : Attachment) : gostring := if EqualFold (at_Disposition a) "inline" then lit "inline" else lit "attachment".

(** The header of an attachment's part. *)
Definition c_part (h : MIMEHeader) : Prop := header_ok h ∧ ∀ k vs, h !! k = Some vs → head k = Some "C"%char.

Lemma c_part_Set (k v : gostring) (h : MIMEHeader) :
  good_key k → head (CanonicalMIMEHeaderKey k) = Some "C"%char → clean v → c_part h → c_part (Set_ k v h).
Proof.
  intros Hk Hc Hv [Hh Hs]. split; [by apply Set_ok|]. intros k' vs. rewrite lookup_Set. destruct (decide _) as [<-|]; [done|apply Hs].
Qed.

Lemma writeAttachment_spec (a : Attachment) (h : MIMEHeader) (c : gostring) :
  writeAttachment a = Ok (h, c) →
  c = attachmentBody (at_Content a) ∧ c_part h ∧ h !! lit "Content-Transfer-Encoding" = Some [lit "base64"] ∧
  h !! lit "Content-Disposition" =
    Some [if at_Filename a == [] then disposition a else contentDispositionValue (disposition a) (at_Filename a)].
Proof.
  unfold writeAttachment. intros (ct & Hct & (h1 & Hh1 & (h2 & Hh2 & [= <- <-])%res_bind_Ok)%res_bind_Ok)%res_bind_Ok.
  fold (disposition a) in Hh1. assert (isASCII (disposition a) = true) as Hd by (unfold disposition; destruct (EqualFold _ _); reflexivity).
  assert (clean ct) as Hc.
  { clear -Hct H1. unfold sanitizeContentType in Hct. case_bool_decide; [injection Hct as <-; apply clean_lit; vm_compute; reflexivity|].
    destruct (ParseMedia _) as [[mt ps]|]; [|done]. case_bool_decide; [done|]. injection Hct as <-.
    apply isASCII_clean, format_printable. }
  assert (c_part ∅) as Hnil by (split; intros k vs Hk; assert ((∅ : MIMEHeader) !! k = None) by apply lookup_empty; congruence).
  assert (∀ k, bool_decide (k ≠ []) && forallb (λ c, (33 <=? bz c) && (bz c <=? 126) && negb (Ascii.eqb c c_colon)) k = true →
    good_key k) as Hgood by apply good_lit.
  assert (c_part (Set_ "Content-Type" ct ∅)) as Hp1 by (apply c_part_Set; try done; apply Hgood; vm_compute; reflexivity).
  assert (c_part h1 ∧ h1 !! lit "Content-Disposition" =
    Some [if at_Filename a == [] then disposition a else contentDispositionValue (disposition a) (at_Filename a)]) as [Hp2 Hdisp].
  { clear Hh2. destruct (bool_decide_reflect (at_Filename a = [])); cbn [negb] in Hh1; [injection Hh1 as <-|destruct (containsInjectionChars _); [done|]; injection Hh1 as <-];
      (split; [apply c_part_Set; [apply Hgood; vm_compute; reflexivity|vm_compute; reflexivity| |done]|look; reflexivity]).
    - by apply isASCII_clean.
    - by apply isASCII_clean, contentDisposition_ascii. }
  assert (c_part h2 ∧ h2 !! lit "Content-Disposition" = h1 !! lit "Content-Disposition") as [Hp3 Hd2].
  { clear Hdisp. destruct (bool_decide_reflect (at_ContentID a = [])); cbn [negb] in Hh2; [by injection Hh2 as <-|]. destruct (ValidateContentID _) as [[]|] eqn:Hv; [|done].
    injection Hh2 as <-. split; [|look; reflexivity]. apply content_id_clean in Hv.
    apply c_part_Set; [apply Hgood; vm_compute; reflexivity|vm_compute; reflexivity| |done].
    apply clean_cons; [by vm_compute|by vm_compute|]. apply clean_app; [done|].
    apply clean_cons; [by vm_compute|by vm_compute|apply clean_nil]. }
  split; [done|]. split.
  - apply c_part_Set; [apply Hgood; vm_compute; reflexivity|vm_compute; reflexivity|apply clean_lit; vm_compute; reflexivity|done].
  - look. split; [done|]. by rewrite Hd2.
Qed.

Lemma attachment_no_delimiter (b : gostring) (a : Attachment) (h : MIMEHeader) (c : gostring) :
  writeAttachment a = Ok (h, c) → no_delimiter b (raw_part (h, c)).
Proof.
  intros (-> & [Hh Hs] & _)%writeAttachment_spec. unfold no_delimiter. rewrite (proj1 (read_raw_part h _ Hh)).
  apply Forall_app. split; [|constructor; [by apply not_delimiter|]].
  - apply Forall_fmap, Forall_forall. intros [k v] Hin. apply not_delimiter.
    assert (head k = Some "C"%char) as Hk; [|by destruct k; simplify_eq/=].
    apply list_elem_of_In, in_concat in Hin as (l & Hl & Hin). apply list_elem_of_In in Hl, Hin.
    apply list_elem_of_fmap in Hl as (k' & -> & _). apply list_elem_of_fmap in Hin as (v' & [= <- <-] & Hv). unfold values in Hv.
    destruct (h !! k) as [vs|] eqn:E; [by eapply Hs|by apply not_elem_of_nil in Hv].
  - apply Forall_forall. intros l Hl. apply not_delimiter. destruct l as [|x l]; [done|]. intros [= ->].
    apply (b64_no_dash (at_Content a)). eapply SplitCRLF_elem; [exact Hl|left].
Qed.

Lemma writeAttachments_spec (l : list Attachment) (w w' : Writer) :
  writeAttachments l w = Ok w' →
  ∃ ps, w' = foldl (λ w p, CreatePart (fst p) (snd p) w) w ps ∧ Forall2 (λ a p, writeAttachment a = Ok p) l ps.
Proof.
  revert w. induction l as [|a l IH]; intros w; cbn [writeAttachments]; [intros [= <-]; by exists []|].
  intros (p & Hp & Hl)%res_bind_Ok. destruct (IH _ Hl) as (ps & -> & Hps). exists (p :: ps). by split; [|constructor].
Qed.

Lemma write_parts_boundary (b : gostring) (ps : list (MIMEHeader * gostring)) : mw_boundary (write_parts b ps) = b.
Proof.
  unfold write_parts. assert (∀ w, mw_boundary (foldl (λ w p, CreatePart (fst p) (snd p) w) w ps) = mw_boundary w) as H'.
  { induction ps as [|p ps IH]; intros w; [done|]. cbn [foldl]. by rewrite IH. }
  apply H'.
Qed.

Lemma AssembleMessage_parts (env : Assembly) (msg : Message) (helo out id : gostring) :
  AssembleMessage env msg helo = Ok (out, id) →
  ∃ h h' header body, setHeaders (as_order env) (ownFields env msg id) = Ok h ∧
    assembleBody env msg h = Ok (h', body) ∧ writeFields (fields_of h') = Ok header ∧ out = header ++ crlf ++ body ∧
    id = if m_MessageID msg == [] then generateMessageID (as_id env) helo else m_MessageID msg.
Proof.
  unfold AssembleMessage. destruct (a_Address _ == []); [done|]. destruct (_ =? 0)%nat; [done|].
  intros (h & Hh & ([h' body] & Hb & (header & Hw & [= <- <-])%res_bind_Ok)%res_bind_Ok)%res_bind_Ok.
  exists h, h', header, body. done.
Qed.

Definition regular (msg : Message) : list Attachment := List.filter (λ a, negb (is_related msg a)) (m_Attachments msg).
Definition related (msg : Message) : list Attachment := List.filter (is_related msg) (m_Attachments msg).

(** The parts of a mixed body: the alternatives, if there is text, and the
    attachments. *)
Lemma assembleBody_mixed (env : Assembly) (msg : Message) (h h' : MIMEHeader) (body : gostring) :
  assembleBody env msg h = Ok (h', body) → regular msg ≠ [] →
  ∃ alt ps, body = Close (write_parts (generateBoundary (rb_mixed (as_boundaries env))) (alt ++ ps)) ∧
    Forall2 (λ a p, writeAttachment a = Ok p) (regular msg) ps ∧
    h' = Set_ "Content-Type" (boundary_param "multipart/mixed" (generateBoundary (rb_mixed (as_boundaries env)))) h ∧
    if hasText (m_Body msg) || hasHTML (m_Body msg)
    then ∃ b ph, buildAlternative (as_boundaries env) (m_Body msg) (related msg) = Ok (b, ph) ∧ alt = [(ph, b)]
    else alt = [].
Proof.
  unfold assembleBody. fold (regular msg) (related msg). intros Hb Hreg.
  assert ((0 <? length (regular msg))%nat = true) as Hlen by (apply Nat.ltb_lt; destruct (regular msg); [done|simpl; lia]).
  rewrite Hlen in Hb. cbn [negb andb] in Hb. destruct (hasText _ || hasHTML _).
  - apply res_bind_Ok in Hb as (w & ([b ph] & Halt & [= <-])%res_bind_Ok & (w' & Hw & [= <- <-])%res_bind_Ok).
    apply writeAttachments_spec in Hw as (ps & -> & Hps). exists [(ph, b)], ps. split_and!; try done. by exists b, ph.
  - apply res_bind_Ok in Hb as (w & [= <-] & (w' & Hw & [= <- <-])%res_bind_Ok).
    apply writeAttachments_spec in Hw as (ps & -> & Hps). by exists [], ps.
Qed.

End attachments.

(** ** Display names *)

(** The address of " <address>" at the end of a mailbox. *)
Definition read_angle (s : gostring) : option gostring :=
  match s with
  | c :: d :: t => if Ascii.eqb c SP && Ascii.eqb d c_lt then
                     match Cut t c_gt with Some (a, []) => Some a | _ => None end
                   else None
  | _ => None
  end.

(** RFC 5322 3.4 and RFC 2047: an address alone, or a quoted name or encoded-words
    before an address in angle brackets; the name as it is shown, and the address. *)
Definition read_mailbox (s : gostring) : option (gostring * gostring) :=
  match s with
  | c :: t =>
      if Ascii.eqb c c_quote then
        '(name, rest) ← unquote t; a ← read_angle rest; Some (name, a)
      else match reverse (Split s SP) with
           | [] | [_] => Some ([], s)
           | angle :: words =>
               match mapM decode_word (reverse words), read_angle (SP :: angle) with
               | Some names, Some a => Some (concat names, a)
               | _, _ => None
               end
           end
  | [] => None
  end.

(** An address as the gateway admits it. *)
Lemma mailbox_bytes (a : gostring) : ValidateMailbox a = Ok () →
  ∃ local domain, a = local ++ c_at :: domain ∧ c_at ∉ domain ∧ dot_atom local ∧
    ∀ c, c ∈ a → c ≠ SP ∧ c ≠ c_gt ∧ c ≠ c_quote.
Proof.
  rewrite ValidateMailbox_parts. intros (local & domain & -> & Hl & Hd). exists local, domain.
  assert (∀ c, c ∈ domain → c ≠ c_at ∧ c ≠ SP ∧ c ≠ c_gt ∧ c ≠ c_quote) as Hdom.
  { intros c Hc. destruct (ValidateDomain_byte _ _ Hd Hc) as [Hx|[->| ->]];
      [destruct c as [[] [] [] [] [] [] [] []]; vm_compute in Hx |- *|vm_compute..]; split_and!; congruence. }
  split; [done|]. split; [by intros [? _]%Hdom|]. split; [done|]. intros c [Hc|[->|Hc]%elem_of_cons]%elem_of_app.
  - apply dot_atom_spec in Hl as (_ & _ & Hb). apply Hb in Hc.
    destruct c as [[] [] [] [] [] [] [] []]; vm_compute in Hc |- *; split_and!; congruence.
  - vm_compute. split_and!; congruence.
  - apply Hdom in Hc. tauto.
Qed.

Lemma local_atext (c : ascii) : localPartByte c = true → c ≠ c_dot → isAtext (bz c) = true.
Proof. destruct c as [[] [] [] [] [] [] [] []]; vm_compute; congruence. Qed.

Lemma quoteLocal_dot_atom (local : gostring) (prev : option ascii) :
  (∀ c, c ∈ local → localPartByte c = true) → (∀ t, local = c_dot :: t → ∃ p, prev = Some p ∧ p ≠ c_dot) →
  (∀ t, local ≠ t ++ [c_dot]) → (∀ t u, local ≠ t ++ c_dot :: c_dot :: u) → quoteLocal prev local = false.
Proof.
  revert prev. induction local as [|c local IH]; intros prev Hb Hs He Hd; [done|]. cbn [quoteLocal].
  assert (quoteLocal (Some c) local = false) as Hrec.
  { apply IH.
    - intros x Hx. apply Hb. by right.
    - intros t ->. exists c. split; [done|]. intros ->. by apply (Hd [] t).
    - intros t ->. by apply (He (c :: t)).
    - intros t u ->. by apply (Hd (c :: t) u). }
  destruct (Ascii.eqb_spec c c_dot) as [->|Hc].
  - destruct (Hs local eq_refl) as (p & -> & Hp). destruct (Ascii.eqb_spec p c_dot); [done|].
    destruct local as [|d local]; [by destruct (He [])|]. destruct (Ascii.eqb_spec d c_dot) as [->|]; [by destruct (Hd [] local)|].
    cbn [negb andb]. by rewrite orb_true_r.
  - by rewrite local_atext; [|apply Hb; left|done].
Qed.

Lemma mailbox_unquoted (local : gostring) : dot_atom local → quoteLocal None local = false.
Proof.
  intros (Hne & Hd & Hb)%dot_atom_spec. rewrite !orb_false_iff in Hd. destruct Hd as [[Hp Hs] Hc].
  apply not_true_iff_false in Hp, Hs, Hc. rewrite HasPrefix_spec in Hp. rewrite HasSuffix_spec in Hs. rewrite Contains_spec in Hc.
  apply quoteLocal_dot_atom; [done|..].
  - intros t ->. destruct Hp. by exists t.
  - intros t ->. destruct Hs. by exists t.
  - intros t u ->. destruct Hc. by exists t, u.
Qed.

Lemma read_angle_mailbox (a : gostring) : c_gt ∉ a → read_angle (lit " <" ++ a ++ [c_gt]) = Some a.
Proof.
  intros Ha. change (read_angle (lit " <" ++ a ++ [c_gt])) with
    (match Cut (a ++ [c_gt]) c_gt with Some (x, []) => Some x | _ => None end).
  assert (Cut (a ++ [c_gt]) c_gt = Some (a, [])) as ->; [|done]. by apply Cut_Some.
Qed.

(** A name of printable characters is quoted, byte by byte. *)
Lemma quoteString_printable (s : gostring) :
  (∀ c, c ∈ s → 32 ≤ bz c ≤ 126 ∨ c = TAB) → quoteString s = [c_quote] ++ concat (quoted_byte <$> s) ++ [c_quote] ∧ allPrintable s = true.
Proof.
  intros Hs. assert (all_ascii s = true) as Ha.
  { apply forallb_forall. intros c Hc%list_elem_of_In. unfold is_ascii. destruct (Hs c Hc) as [?| ->]; [lia|done]. }
  unfold quoteString, allPrintable. rewrite runes_ascii by done. split.
  - do 2 f_equal. rewrite <- list_fmap_compose. f_equal. apply list_fmap_ext. intros i c Hi. apply list_elem_of_lookup_2 in Hi.
    simpl. rewrite EncodeRune_ascii by (by eapply all_ascii_elem). destruct (Hs c Hi) as [Hc| ->]; [|done]. clear -Hc.
    destruct c as [[] [] [] [] [] [] [] []]; vm_compute in Hc; destruct Hc as [H1 H2]; try (by destruct H1); try (by destruct H2);
      vm_compute; reflexivity.
  - apply forallb_forall. intros r Hr. apply list_elem_of_In, list_elem_of_fmap in Hr as (c & -> & Hc).
    destruct (Hs c Hc) as [Hc'| ->]; [|done]. unfold isVchar, isWSP.
    rewrite andb_true_iff, !orb_true_iff, andb_true_iff. lia.
Qed.

Lemma read_encoded (name a : gostring) : name ≠ [] → (∀ c, c ∈ a → c ≠ SP ∧ c ≠ c_gt ∧ c ≠ c_quote) →
  read_mailbox (Join (encoded_words (length name) name) " " ++ lit " <" ++ a ++ [c_gt]) = Some (name, a).
Proof.
  intros Hne Ha. destruct (encoded_words_spec (length name) name ltac:(lia)) as (parts & -> & Hcat & _ & _).
  assert (parts ≠ []) as Hp by (intros ->; by subst name).
  set (angle := c_lt :: a ++ [c_gt]). change (lit " <" ++ a ++ [c_gt]) with (lit " " ++ angle).
  assert (Join (encodedWord <$> parts) " " ++ lit " " ++ angle = Join ((encodedWord <$> parts) ++ [angle]) " ") as ->.
  { destruct parts as [|p ps]; [done|]. unfold Join. cbn [fmap list_fmap app]. rewrite <- app_assoc. f_equal. clear.
    induction ps as [|q ps IH]; cbn [fmap list_fmap foldr app]; [by rewrite app_nil_r|].
    rewrite <- IH. by rewrite <- !app_assoc. }
  assert (∀ p, SP ∉ encodedWord p) as Hw by (intros p Hin%encodedWord_chars; vm_compute in Hin; by destruct Hin).
  assert (SP ∉ angle) as Hang.
  { unfold angle. rewrite not_elem_of_cons, not_elem_of_app, not_elem_of_cons. split_and!; try done; [by intros [? _]%Ha|apply not_elem_of_nil]. }
  assert (Split (Join ((encodedWord <$> parts) ++ [angle]) " ") SP = (encodedWord <$> parts) ++ [angle]) as Hsplit.
  { apply (Split_Join _ SP); [by destruct parts|]. apply Forall_app. split; [|by apply Forall_singleton].
    apply Forall_fmap, Forall_true. intros. apply Hw. }
  assert (read_angle (SP :: angle) = Some a) as Hra by (apply (read_angle_mailbox a); by intros [_ [? _]]%Ha).
  assert (mapM decode_word (encodedWord <$> parts) = Some parts) as Hdec.
  { apply mapM_Some. apply Forall2_fmap_l. apply Forall_Forall2_diag, Forall_true. intros. apply decode_encodedWord. }
  destruct (Join ((encodedWord <$> parts) ++ [angle]) " ") as [|c t] eqn:E.
  { destruct parts as [|p ps]; [done|]. simpl in E. discriminate. }
  assert (c = "="%char) as -> by (destruct parts as [|p ps]; [done|]; simpl in E; by injection E as <-).
  cbn [read_mailbox]. change (Ascii.eqb "=" c_quote) with false. cbv iota. rewrite Hsplit.
  rewrite reverse_app, reverse_singleton. cbn [app]. destruct (reverse (encodedWord <$> parts)) as [|w ws] eqn:Hr.
  { apply (f_equal reverse) in Hr. rewrite reverse_involutive in Hr. by destruct parts. }
  assert (reverse (w :: ws) = encodedWord <$> parts) as Hrev by (rewrite <- Hr; apply reverse_involutive).
  cbv beta iota. rewrite Hrev.
  match goal with |- match ?m with _ => _ end = _ => change m with (mapM decode_word (encodedWord <$> parts)) end.
  rewrite Hdec, Hra. by rewrite Hcat.
Qed.

Lemma plain_bytes (s : gostring) : needsEncoding s = false → ∀ c, c ∈ s → 32 ≤ bz c ≤ 126 ∨ c = TAB.
Proof.
  intros Hn. assert (∀ r, r ∈ runes s → 32 ≤ r ≤ 126 ∨ r = 9) as Hr.
  { intros r Hr. destruct (((r <? 32) || (126 <? r)) && negb (r =? 9)) eqn:E.
    - exfalso. apply not_true_iff_false in Hn. apply Hn, existsb_exists. exists r. split; [by apply list_elem_of_In|done].
    - rewrite andb_false_iff, orb_false_iff, negb_false_iff in E. lia. }
  assert (all_ascii s = true) as Ha by (apply low_runes_ascii; intros r Hin%Hr; lia).
  intros c Hc. rewrite runes_ascii in Hr by done. destruct (Hr (bz c)) as [|E]; [by apply list_elem_of_fmap_2|by left|right].
  by apply bz_inj.
Qed.

(** A display name shows as itself and never as another address: for an address
    the gateway admits, a reader of the formatted mailbox finds exactly the given
    name and the given address, whatever bytes the name holds (quotes, angle
    brackets, line breaks, a second address). *)
Theorem display_name_round_trip (a : Address) :
  ValidateMailbox (a_Address a) = Ok () → read_mailbox (formatAddress a) = Some (a_Name a, a_Address a).
Proof.
  intros Hv. apply mailbox_bytes in Hv as (local & domain & Ha & Hat & Hdot & Hbytes). destruct a as [name addr].
  cbn [a_Address a_Name] in *. unfold formatAddress. cbn [a_Address a_Name].
  destruct (bool_decide_reflect (name = [])) as [->|Hne].
  { assert (SP ∉ addr) as Hsp by (by intros [? _]%Hbytes). destruct addr as [|c t] eqn:E; [by destruct local|].
    cbn [read_mailbox]. destruct (Ascii.eqb_spec c c_quote) as [->|_]; [by destruct (Hbytes c_quote) as (_ & _ & ?); [left|]|].
    by rewrite (Split_notin (c :: t) SP Hsp). }
  destruct (existsb _ name) eqn:He.
  - unfold BEncoding_Encode. destruct (needsEncoding name) eqn:Hn; [by apply read_encoded|]. exfalso.
    pose proof (plain_bytes name Hn) as Hp. apply existsb_exists in He as (c & Hc%list_elem_of_In & Hb).
    destruct (Hp c Hc) as [Hr| ->]; [|by vm_compute in Hb].
    rewrite orb_true_iff, andb_true_iff in Hb. lia.
  - destruct (_ <? _)%nat; [by apply read_encoded|].
    assert (∀ c, c ∈ name → 32 ≤ bz c ≤ 126 ∨ c = TAB) as Hp.
    { intros c Hc. destruct (Ascii.eqb_spec c TAB) as [->|]; [by right|left].
      destruct ((bz c <? 32) && negb (Ascii.eqb c TAB) || (126 <? bz c)) eqn:E.
      - exfalso. apply not_true_iff_false in He. apply He, existsb_exists. exists c. split; [by apply list_elem_of_In|done].
      - rewrite orb_false_iff, andb_false_iff in E. destruct (Ascii.eqb_spec c TAB); [done|]. cbn [negb] in E. lia. }
    destruct (quoteString_printable name Hp) as [Hq Hap]. unfold Address_String. cbn [a_Address a_Name].
    rewrite Ha, LastIndexByte_app by done. rewrite take_app_length, mailbox_unquoted by done.
    rewrite bool_decide_eq_false_2 by done. rewrite Hap, Hq, <- !app_assoc. cbn [app read_mailbox].
    change (Ascii.eqb c_quote c_quote) with true. cbv iota. rewrite unquote_quoted. cbn [mbind option_bind].
    assert (drop (length local + 1) (local ++ c_at :: domain) = domain) as ->.
    { rewrite <- drop_drop, drop_app_length. done. }
    change (SP :: c_lt :: local ++ c_at :: domain ++ [c_gt]) with (lit " <" ++ local ++ (c_at :: domain) ++ [c_gt]).
    rewrite (app_assoc local). rewrite read_angle_mailbox; [done|]. rewrite <- Ha. by intros (_ & ? & _)%Hbytes.
Qed.

(** ** Witnesses *)

Module MimeExample.
Definition plain_media : MediaTypes := {|
  ParseMedia := λ ct, Some (ct, ∅); FormatMediaType := λ t _, if isASCII t then t else [] |}.
#[local] Instance plain_media_laws : @MediaTypesLaws plain_media.
Proof. split. intros t ps. simpl. by destruct (isASCII t) eqn:E. Defined.
#[local] Existing Instances ascii_tables plain_media.

Definition attachment : Attachment := {|
  at_Filename := "report.pdf"; at_ContentType := "application/pdf"; at_Disposition := "attachment"; at_ContentID := [];
  at_Content := "%PDF" |}.

Definition headers : list (gostring * gostring) := [(lit "x-ticket", lit "4711"); (lit "BCC", lit "spy@evil.example")].

Definition msg (body : Body) : Message := {|
  m_MessageID := []; m_From := {| a_Name := "Billing"; a_Address := "billing@corp.example" |};
  m_To := [{| a_Name := []; a_Address := "ops@corp.example" |}]; m_Cc := [];
  m_Bcc := [{| a_Name := []; a_Address := "audit@corp.example" |}]; m_Subject := "Your report"; m_Body := body;
  m_Attachments := [attachment]; m_Headers := list_to_map headers |}.

Definition env : Assembly := {|
  as_date := "Mon, 02 Jan 2006 15:04:05 +0000"; as_id := "0123456789ab";
  as_boundaries := {| rb_mixed := "0123456789abcdef"; rb_alternative := "fedcba9876543210"; rb_related := "abcdef9876543210" |};
  as_order := headers |}.

Definition mail : Message := msg {| b_Text := "see attachment"; b_HTML := [] |}.
Definition result : gostring * gostring :=
  match AssembleMessage env mail "mx.corp.example" with Ok r => r | Err _ => ([], []) end.

Lemma assembled : AssembleMessage env mail "mx.corp.example" = Ok (fst result, snd result).
Proof. match goal with |- ?a = ?b => exact (eq_refl b <: a = b) end. Qed.

Lemma addresses_clean : Forall (λ a, clean (a_Address a)) (m_From mail :: m_To mail ++ m_Cc mail).
Proof. repeat (apply Forall_cons_2; [apply clean_lit; vm_compute; reflexivity|]). apply Forall_nil_2. Qed.


Lemma no_delimiter_check (b s : gostring) : forallb (λ l, negb (is_delimiter b l)) (SplitCRLF s) = true → no_delimiter b s.
Proof.
  rewrite forallb_forall. intros Hs. apply Forall_forall. intros l Hl%list_elem_of_In. by apply negb_true_iff, Hs.
Qed.

Definition alternative : gostring * MIMEHeader :=
  match buildAlternative (as_boundaries env) (m_Body mail) (related mail) with Ok r => r | Err _ => ([], ∅) end.


Lemma display_name_round_trip_witness :
  read_mailbox (formatAddress {| a_Name := lit "ceo@corp.example" ++ [c_quote; c_gt; LF]; a_Address := "x@evil.example" |}) =
    Some (lit "ceo@corp.example" ++ [c_quote; c_gt; LF], lit "x@evil.example").
Proof. apply (display_name_round_trip {| a_Name := lit "ceo@corp.example" ++ [c_quote; c_gt; LF]; a_Address := "x@evil.example" |}). vm_compute. reflexivity. Defined.
End MimeExample.
