(* ===== verification/SmtpDriver.v ===== *)
(** * The SMTP driver ([internal/driver/smtp/smtp.go])

    One delivery tries the endpoints in turn: connection, EHLO, STARTTLS, AUTH, and
    then the message itself.  A relay is what it answers to each step; a run is the
    list of what was sent, to which endpoint, and whether it was encrypted.  The
    SASL exchange of net/smtp is modelled with the mechanisms the driver offers. *)

From S2P Require Import Prelude GoStrings Types Address Driver Credential MailParse Resolver MimeText MimeMessage.

(** ** Errors *)

(** A step fails with a reply of the relay ([textproto.Error]) or without one. *)
Inductive RelayError := Reply (code : Z) (msg : gostring) | NoReply (msg : gostring).

(** [deliveryError], [configError], or the bare error. *)
Inductive SendError := Bare (e : RelayError) | Delivery (e : RelayError) | ConfigError (msg : gostring).

(** [errors.As] for a [*textproto.Error]. *)
Definition reply_of (e : SendError) : option (Z * gostring) :=
  match e with
  | Bare (Reply code msg) | Delivery (Reply code msg) => Some (code, msg)
  | _ => None
  end.

(** The regular expression [retryDelay]: the number and the unit it captures. *)
Class RetryDelay := { FindRetryDelay : gostring → option (gostring * gostring) }.
Class RetryDelayLaws `{RetryDelay} := {
  retry_digits : ∀ s n unit, FindRetryDelay s = Some (n, unit) → (1 ≤ length n ≤ 6)%nat ∧ forallb is_digit n = true }.

(** [hmac] with MD5, in hexadecimal. *)
Class HMACMD5 := { hmac_md5_hex : gostring → gostring → gostring }.

(** ** What is sent *)

Inductive what :=
| Dial | Hello | StartTLS
| AuthStart (mech : gostring) (initial : option gostring) | AuthNext (mech resp : gostring) | AuthAbort
| MailFrom (a : gostring) | RcptTo (a : gostring) | DataCommand | Content (body : gostring) | Quit.

Record wire := { w_ep : SMTPEndpoint; w_enc : bool; w_what : what }.

(** Answers to AUTH: 334 with a challenge, 235, another code, a challenge that is not
    base64, and no answer. *)
Inductive AuthAnswer :=
| Challenge (msg : gostring) | Accepted | Refused (code : Z) (msg : gostring) | Garbled | Lost (msg : gostring).

(** What a relay answers, step by step; [None] is success. *)
Record Relay := {
  rl_dial : option RelayError; rl_deadline : option RelayError; rl_banner : option RelayError;
  rl_hello : option RelayError;
  rl_extension : gostring → option gostring;      (* before STARTTLS *)
  rl_extension_tls : gostring → option gostring;  (* after it *)
  rl_starttls : option RelayError;
  rl_auth : list AuthAnswer;
  rl_deadline2 : option RelayError; rl_cancelled : option RelayError;
  rl_mail : option RelayError; rl_rcpt : nat → option RelayError; rl_data : option RelayError;
  rl_write : option RelayError; rl_close : option RelayError }.

(** Steps in sequence, up to the first error. *)
Definition steps := (list wire * option SendError)%type.
Definition andThen (a : steps) (b : steps) : steps :=
  match a with
  | (t, Some e) => (t, Some e)
  | (t, None) => (t ++ fst b, snd b)
  end.
Notation "a '>>>' b" := (andThen a b) (at level 64, right associativity).

Definition send (ep : SMTPEndpoint) (enc : bool) (w : what) (e : option SendError) : steps :=
  ([{| w_ep := ep; w_enc := enc; w_what := w |}], e).
Definition check (e : option SendError) : steps := ([], e).

(** ** Authentication *)

Inductive Auth := PlainAuth (user pass host : gostring) | loginAuth (user pass host : gostring) | CRAMMD5Auth (user pass : gostring).

Definition mech_name (a : Auth) : gostring :=
  match a with PlainAuth _ _ _ => "PLAIN" | loginAuth _ _ _ => "LOGIN" | CRAMMD5Auth _ _ => "CRAM-MD5" end.

Definition isLocalhost (name : gostring) : bool :=
  (name == lit "localhost") || (name == lit "127.0.0.1") || (name == lit "::1").

(** [Start]: the initial response, or an error. *)
Definition Auth_Start (a : Auth) (serverName : gostring) (tls : bool) : res gostring (option gostring) :=
  match a with
  | PlainAuth user pass host =>
      if negb tls && negb (isLocalhost serverName) then Err (lit "unencrypted connection")
      else if serverName != host then Err (lit "wrong host name")
      else Ok (Some ([NUL] ++ user ++ [NUL] ++ pass))
  | loginAuth _ _ _ => if negb tls && negb (isLocalhost serverName) then Err (lit "unencrypted connection") else Ok None
  | CRAMMD5Auth _ _ => Ok None
  end.

Section driver.
Context `{RetryDelay, HMACMD5, UnicodeTables}.

(** [Next]: the response to a challenge ([more]), none when the server is done. *)
Definition Auth_Next (a : Auth) (fromServer : gostring) (more : bool) : res gostring (option gostring) :=
  if negb more then Ok None
  else match a with
       | PlainAuth _ _ _ => Err (lit "unexpected server challenge")
       | loginAuth user pass _ =>
           if fromServer == lit "Username:" then Ok (Some user)
           else if fromServer == lit "Password:" then Ok (Some pass)
           else Err (lit "unexpected server challenge: " ++ fromServer)
       | CRAMMD5Auth user pass => Ok (Some (user ++ [SP] ++ hmac_md5_hex pass fromServer))
       end.

(** The loop of [smtp.Client.Auth]; the relay's answers end with the connection. *)
Fixpoint auth_loop (ep : SMTPEndpoint) (enc : bool) (a : Auth) (answers : list AuthAnswer) : steps :=
  match answers with
  | [] => check (Some (Bare (NoReply "EOF")))
  | ans :: answers =>
      match ans with
      | Lost m => check (Some (Bare (NoReply m)))
      | Refused code m => send ep enc AuthAbort (Some (Bare (Reply code m)))
      | Garbled => send ep enc AuthAbort (Some (Bare (NoReply "illegal base64 data")))
      | _ =>
          let '(msg, more) := match ans with Challenge m => (m, true) | _ => ([], false) end in
          match Auth_Next a msg more with
          | Err m => send ep enc AuthAbort (Some (Bare (NoReply m)))
          | Ok None => check None
          | Ok (Some resp) => send ep enc (AuthNext (mech_name a) resp) None >>> auth_loop ep enc a answers
          end
      end
  end.

Definition Client_Auth (ep : SMTPEndpoint) (enc : bool) (a : Auth) (answers : list AuthAnswer) : steps :=
  match Auth_Start a (ep_Host ep) enc with
  | Err m => check (Some (Bare (NoReply m)))
  | Ok initial => send ep enc (AuthStart (mech_name a) initial) None >>> auth_loop ep enc a answers
  end.

Definition buildAuth (mech username password host : gostring) : res gostring Auth :=
  if mech == lit "PLAIN" then Ok (PlainAuth username password host)
  else if mech == lit "LOGIN" then Ok (loginAuth username password host)
  else if mech == lit "CRAM-MD5" then Ok (CRAMMD5Auth username password)
  else Err (lit "unsupported auth type " ++ mech).

(** ** One endpoint *)

Definition bare (e : option RelayError) : option SendError := Bare <$> e.
Definition delivery (e : option RelayError) : option SendError := Delivery <$> e.

Definition driverHelo : gostring := "sigillum".
Definition helo (cfg : SMTPConfig) : gostring := if sc_Helo cfg != [] then sc_Helo cfg else driverHelo.

Definition defaultSendTimeout : Duration := 60 * Second.
Definition connectTimeout (cfg : SMTPConfig) : Duration := if 0 <? sc_Timeout cfg then sc_Timeout cfg * Second else 10 * Second.

(** The deadlines of [sendVia]: for the message, and for dial and handshake. *)
Definition deadlines (cfg : SMTPConfig) (now : Time) (ctxDeadline : option Time) : Time * Time :=
  let sendDeadline := match ctxDeadline with Some dl => dl | None => now + defaultSendTimeout end in
  let handshakeDeadline := now + connectTimeout cfg in
  (sendDeadline, if sendDeadline <? handshakeDeadline then sendDeadline else handshakeDeadline).

(** EHLO, and STARTTLS where the endpoint asks for it; [enc] is the encryption of the
    connection afterwards. *)
Definition startTLS (ep : SMTPEndpoint) (r : Relay) (enc : bool) : steps * bool :=
  if ep_TLS ep == SMTPTLSStartTLS then
    match rl_extension r "STARTTLS" with
    | None => (check (Some (Bare (NoReply "server does not advertise STARTTLS"))), enc)
    | Some _ => (send ep enc StartTLS (bare (rl_starttls r)), if rl_starttls r then enc else true)
    end
  else (check None, enc).

Definition wantsAuth (cfg : SMTPConfig) : bool := (sc_AuthType cfg != []) && (sc_AuthType cfg != SMTPAuthNone).

Definition authenticate (cfg : SMTPConfig) (ep : SMTPEndpoint) (r : Relay) (enc : bool) : steps :=
  if negb (wantsAuth cfg) then check None
  else if ep_TLS ep == SMTPTLSNone then
    check (Some (ConfigError (lit "authType " ++ sc_AuthType cfg ++ lit " requires TLS; endpoint " ++ ep_Host ep
      ++ lit " uses tls: none, which would send the relay password in cleartext")))
  else match buildAuth (sc_AuthType cfg) (sc_Username cfg) (sc_Password cfg) (ep_Host ep) with
       | Err m => check (Some (Bare (NoReply m)))
       | Ok auth => Client_Auth ep enc auth (rl_auth r)
       end.

(** [validateLine] of net/smtp: [Mail] and [Rcpt] refuse an address with a CR or LF
    before anything is sent. *)
Definition validateLine (line : gostring) : bool := negb (existsb (λ c, (c == LF) || (c == CR)) line).
Definition sendLine (ep : SMTPEndpoint) (enc : bool) (w : gostring → what) (a : gostring) (e : option RelayError) : steps :=
  if validateLine a then send ep enc (w a) (delivery e)
  else check (delivery (Some (NoReply "smtp: A line must not contain CR or LF"))).

(** The [i]-th RCPT and those after it. *)
Fixpoint rcptAll (ep : SMTPEndpoint) (enc : bool) (r : Relay) (i : nat) (rcpts : list gostring) : steps :=
  match rcpts with
  | [] => check None
  | a :: rcpts => sendLine ep enc RcptTo a (rl_rcpt r i) >>> rcptAll ep enc r (S i) rcpts
  end.

Definition transaction (ep : SMTPEndpoint) (enc : bool) (r : Relay) (from : gostring) (rcpts : list gostring) (body : gostring) : steps :=
  sendLine ep enc MailFrom from (rl_mail r) >>>
  rcptAll ep enc r 0 rcpts >>>
  send ep enc DataCommand (delivery (rl_data r)) >>>
  send ep enc (Content body) (delivery (rl_write r)) >>>
  check (delivery (rl_close r)).

(** What [crypto/tls] is asked for: certificates are checked against [tc_RootCAs] (the
    system's roots without them) for [tc_ServerName] unless [tc_InsecureSkipVerify]. *)
Record TLSConfig := {
  tc_ServerName : gostring; tc_RootCAs : option gostring; tc_InsecureSkipVerify : bool; tc_MinVersion : Z }.
Definition VersionTLS12 : Z := 0x0303.

Definition tlsConfig (cfg : SMTPConfig) (ep : SMTPEndpoint) : TLSConfig := {|
  tc_ServerName := ep_Host ep; tc_RootCAs := sc_RootCAs cfg; tc_InsecureSkipVerify := ep_InsecureSkipVerify ep;
  tc_MinVersion := VersionTLS12 |}.

(** [dial]: the address, and the TLS the connection starts with. *)
Definition dial (cfg : SMTPConfig) (ep : SMTPEndpoint) : gostring * option TLSConfig :=
  (JoinHostPort (ep_Host ep) (Itoa (ep_Port ep)), if ep_TLS ep == SMTPTLSImplicit then Some (tlsConfig cfg ep) else None).

(** [sendVia]; QUIT follows once there is a client, whatever happened. *)
Definition sendVia (cfg : SMTPConfig) (ep : SMTPEndpoint) (r : Relay) (from : gostring) (rcpts : list gostring) (body : gostring)
    : steps :=
  let enc := ep_TLS ep == SMTPTLSImplicit in
  send ep enc Dial (bare (rl_dial r)) >>>
  check (bare (rl_deadline r)) >>>
  check (bare (rl_banner r)) >>>
  let '(tls, enc') := startTLS ep r enc in
  let '(t, e) := send ep enc Hello (bare (rl_hello r)) >>>
                 tls >>>
                 authenticate cfg ep r enc' >>>
                 check (bare (rl_deadline2 r)) >>>
                 check (bare (rl_cancelled r)) >>>
                 transaction ep enc' r from rcpts body in
  (t ++ [{| w_ep := ep; w_enc := enc'; w_what := Quit |}], e).

(** ** Classification *)

Definition isTooManyRecipients (msg : gostring) : bool :=
  let m := TrimSpace msg in HasPrefix m "4.5.3" || Contains (ToLower m) "too many recipient".

Definition isTransient (e : SendError) : bool :=
  match e with
  | ConfigError _ => false
  | Bare _ => true
  | Delivery _ =>
      match reply_of e with
      | Some (code, msg) => if (code =? 452) && isTooManyRecipients msg then false else code <? 500
      | None => true
      end
  end.

(** [strconv.Atoi] of a short run of digits. *)
Definition Atoi (s : gostring) : Z := foldl (λ n c, n * 10 + (bz c - 48)) 0 s.

Definition retryHint (e : option SendError) : Duration :=
  match e ≫= reply_of with
  | Some (code, msg) =>
      if (code =? 421) || (code =? 451) then
        match FindRetryDelay msg with
        | None => 0
        | Some (n, unit) => if HasPrefix (ToLower unit) "m" then Atoi n * Minute else Atoi n * Second
        end
      else 0
  | None => 0
  end.

(** ** A delivery *)

(** The text of an error does not matter here. *)
Definition opaque : error := EOpaque "".

(** The loop of [sendBody]: what was sent, the last error, whether every error was
    transient, and whether an endpoint accepted the message; [relay i] is how the
    [i]-th endpoint behaves. *)
Fixpoint try_endpoints (cfg : SMTPConfig) (relay : nat → Relay) (i : nat) (eps : list SMTPEndpoint) (from : gostring)
    (rcpts : list gostring) (body : gostring) (lastErr : option SendError) (transient : bool)
    : list wire * option SendError * bool * bool :=
  match eps with
  | [] => ([], lastErr, transient, false)
  | ep :: eps =>
      let '(t, err) := sendVia cfg ep (relay i) from rcpts body in
      match err with
      | None => (t, lastErr, transient, true)
      | Some e =>
          let transient := if isTransient e then transient else false in
          match e with
          | Delivery _ => (t, Some e, transient, false)
          | _ => let '(t', lastErr, transient, ok) := try_endpoints cfg relay (S i) eps from rcpts body (Some e) transient in
                 (t ++ t', lastErr, transient, ok)
          end
      end
  end.

Definition sendBody (cfg : SMTPConfig) (relay : nat → Relay) (now : Time) (from : gostring) (rcpts : list gostring)
    (body msgID : gostring) : list wire * res error SendResult :=
  let '(t, lastErr, transient, ok) := try_endpoints cfg relay 0 (sc_Endpoints cfg) from rcpts body None true in
  (t, if ok then Ok {| sr_UpstreamID := msgID; sr_AcceptedAt := now |}
      else if transient then
        match WithRetryAfter (Some (EWrap "upstream transient error" (ESentinel ErrUpstreamTransient))) (retryHint lastErr) with
        | Some e => Err e
        | None => Err opaque
        end
      else Err (EWrap "upstream permanent error" (ESentinel ErrUpstreamPermanent))).

Definition SendRaw (cfg : SMTPConfig) (relay : nat → Relay) (now : Time) (envelopeFrom : gostring)
    (recipients : list gostring) (raw : gostring) : list wire * res error SendResult :=
  if (length recipients =? 0)%nat then ([], Err (EWrap "at least one recipient required" (ESentinel ErrUpstreamPermanent)))
  else sendBody cfg relay now envelopeFrom recipients raw [].

Definition Send `{MediaTypes} (cfg : SMTPConfig) (env : Assembly) (relay : nat → Relay) (now : Time) (msg : Message)
    : list wire * res error SendResult :=
  match AssembleMessage env msg (helo cfg) with
  | Err _ => ([], Err (EWrap "message" (ESentinel ErrUpstreamPermanent)))
  | Ok (body, msgID) =>
      sendBody cfg relay now (a_Address (m_From msg)) (extractAddrs (m_To msg ++ m_Cc msg ++ m_Bcc msg)) body msgID
  end.

(** ** Health checks *)

(** [strings.Fields]: [cur] is the word being read. *)
Fixpoint Fields_loop (fuel : nat) (s cur : gostring) : list gostring :=
  let flush := match cur with [] => [] | _ => [cur] end in
  match fuel, s with
  | S fuel, a :: t =>
      if space1 a then flush ++ Fields_loop fuel t []
      else match t with
           | b :: u =>
               if space2 a b then flush ++ Fields_loop fuel u []
               else match u with
                    | c :: v => if space3 a b c then flush ++ Fields_loop fuel v [] else Fields_loop fuel t (cur ++ [a])
                    | [] => Fields_loop fuel t (cur ++ [a])
                    end
           | [] => Fields_loop fuel t (cur ++ [a])
           end
  | _, _ => flush
  end.
Definition Fields (s : gostring) : list gostring := Fields_loop (S (length s)) s [].

Definition authMechOffered (advertised mechanism : gostring) : bool := existsb (λ m, EqualFold m mechanism) (Fields advertised).

(** The reasons a probe fails; their wording is the relay's or fixed. *)
Inductive ProbeFailure := ProbeError (e : RelayError) | NoSTARTTLS | NoMechanism (mechs : gostring).

Definition probe_step (e : option RelayError) (k : option ProbeFailure) : option ProbeFailure :=
  match e with Some e => Some (ProbeError e) | None => k end.

(** [None] is a ready endpoint.  AUTH is looked up, never tried. *)
Definition probeEndpoint (cfg : SMTPConfig) (ep : SMTPEndpoint) (r : Relay) : option ProbeFailure :=
  probe_step (rl_dial r) (probe_step (rl_banner r) (probe_step (rl_hello r)
  (let mechanisms ext :=
     if wantsAuth cfg then
       match ext (lit "AUTH") with
       | None => Some (NoMechanism [])
       | Some mechs => if authMechOffered mechs (sc_AuthType cfg) then None else Some (NoMechanism mechs)
       end
     else None in
   if ep_TLS ep == SMTPTLSStartTLS then
     match rl_extension r (lit "STARTTLS") with
     | None => Some NoSTARTTLS
     | Some _ => probe_step (rl_starttls r) (mechanisms (rl_extension_tls r))
     end
   else mechanisms (rl_extension r)))).

Definition probe_text := ProbeFailure → gostring.

Definition healthOf (text : probe_text) (cfg : SMTPConfig) (ep : SMTPEndpoint) (r : Relay) : EndpointHealth :=
  match probeEndpoint cfg ep r with
  | None => {| eh_Host := ep_Host ep; eh_Port := ep_Port ep; eh_Ready := true; eh_Message := [] |}
  | Some f => {| eh_Host := ep_Host ep; eh_Port := ep_Port ep; eh_Ready := false; eh_Message := text f |}
  end.

(** [endpointKey] of this package. *)
Definition smtp_endpointKey (host : gostring) (port : Z) : gostring := host ++ lit ":" ++ Itoa port.

(** [HealthCheck]: the results, and the driver's record of them. *)
Definition HealthCheck (text : probe_text) (cfg : SMTPConfig) (relay : nat → Relay) (health : gmap gostring EndpointHealth)
    : gmap gostring EndpointHealth * list EndpointHealth :=
  let out := imap (λ i ep, healthOf text cfg ep (relay i)) (sc_Endpoints cfg) in
  (foldl (λ m h, <[smtp_endpointKey (eh_Host h) (eh_Port h) := h]> m) health out, out).

(** The factory registered for the type. *)
Definition NewDriver (cfg : Config) : res gostring SMTPConfig :=
  match cfg_SMTP cfg with
  | None => Err (lit "smtp: missing SMTPConfig")
  | Some sc => if (length (sc_Endpoints sc) =? 0)%nat then Err (lit "smtp: at least one endpoint required") else Ok sc
  end.
End driver.

(** ** Traces *)

Section facts.
Context `{RetryDelay, HMACMD5, UnicodeTables}.

(** Everything sent in [a] satisfies [P]. *)
Definition sends (P : wire → Prop) (a : steps) : Prop := Forall P (fst a).

Lemma sends_then (P : wire → Prop) (a b : steps) : sends P a → (snd a = None → sends P b) → sends P (a >>> b).
Proof.
  unfold sends, andThen. destruct a as [t [e|]]; simpl; [done|]. intros Ha Hb. apply Forall_app. split; [done|by apply Hb].
Qed.

Lemma sends_send (P : wire → Prop) (ep : SMTPEndpoint) (enc : bool) (w : what) (e : option SendError) :
  P {| w_ep := ep; w_enc := enc; w_what := w |} → sends P (send ep enc w e).
Proof. intros. by apply Forall_singleton. Qed.

Lemma sends_check (P : wire → Prop) (e : option SendError) : sends P (check e).
Proof. constructor. Qed.

(** What STARTTLS and implicit TLS protect: all but setting up the connection. *)
Definition set_up (w : what) : bool := match w with Dial | Hello | StartTLS | Quit => true | _ => false end.
(** A password in readable form. *)
Definition password (w : what) : bool :=
  match w with AuthStart _ (Some _) => true | AuthNext m _ => m == lit "LOGIN" | _ => false end.
Definition authenticates (w : what) : bool := match w with AuthStart _ _ | AuthNext _ _ => true | _ => false end.

(** An address in a command ends no line early. *)
Definition one_line (w : what) : bool := match w with MailFrom a | RcptTo a => validateLine a | _ => true end.

Record protected (w : wire) : Prop := {
  pr_tls : ep_TLS (w_ep w) = SMTPTLSStartTLS ∨ ep_TLS (w_ep w) = SMTPTLSImplicit → set_up (w_what w) = false → w_enc w = true;
  pr_password : password (w_what w) = true → w_enc w = true ∨ isLocalhost (ep_Host (w_ep w)) = true;
  pr_none : ep_TLS (w_ep w) = SMTPTLSNone → authenticates (w_what w) = false;
  pr_line : one_line (w_what w) = true }.

(** The connection is as encrypted as the endpoint asks for. *)
Definition secured (ep : SMTPEndpoint) (enc : bool) : Prop :=
  ep_TLS ep = SMTPTLSStartTLS ∨ ep_TLS ep = SMTPTLSImplicit → enc = true.

Lemma auth_loop_protected (ep : SMTPEndpoint) (enc : bool) (a : Auth) (initial : option gostring) (answers : list AuthAnswer) :
  secured ep enc → ep_TLS ep ≠ SMTPTLSNone → Auth_Start a (ep_Host ep) enc = Ok initial →
  sends protected (auth_loop ep enc a answers).
Proof.
  intros Hs Hn Ha. induction answers as [|ans answers IH]; cbn [auth_loop]; [apply sends_check|].
  assert (∀ e, sends protected (send ep enc AuthAbort e)) as Habort
    by (intros e; apply sends_send; constructor; simpl; [by auto|done|done|done]).
  assert (∀ msg more, sends protected (match Auth_Next a msg more with
    | Err m => send ep enc AuthAbort (Some (Bare (NoReply m))) | Ok None => check None
    | Ok (Some resp) => send ep enc (AuthNext (mech_name a) resp) None >>> auth_loop ep enc a answers end)) as Hgo.
  { intros msg more. destruct (Auth_Next a msg more) as [[resp|]|]; [|apply sends_check|done].
    apply sends_then; [|done]. apply sends_send. constructor; simpl; [by auto| |done|done].
    intros Hp%bool_decide_eq_true. destruct a; simpl in *; try discriminate.
    destruct (negb enc && negb (isLocalhost (ep_Host ep))) eqn:E; [done|].
    apply andb_false_iff in E as [?%negb_false_iff|?%negb_false_iff]; auto. }
  destruct ans; [apply Hgo|apply Hgo|apply Habort|apply Habort|apply sends_check].
Qed.

Lemma authenticate_protected (cfg : SMTPConfig) (ep : SMTPEndpoint) (r : Relay) (enc : bool) :
  secured ep enc → sends protected (authenticate cfg ep r enc).
Proof.
  intros Hs. unfold authenticate. destruct (negb (wantsAuth cfg)); [apply sends_check|].
  destruct (bool_decide_reflect (ep_TLS ep = SMTPTLSNone)) as [|Hn]; [apply sends_check|].
  destruct (buildAuth _ _ _ _) as [a|]; [|apply sends_check]. unfold Client_Auth.
  destruct (Auth_Start a (ep_Host ep) enc) as [initial|] eqn:Ha; [|apply sends_check].
  apply sends_then; [|intros _; by eapply auth_loop_protected]. apply sends_send. constructor; simpl; [by auto| |done|done].
  destruct initial as [i|]; [intros _|done]. destruct a; simpl in Ha; try done.
  - destruct (negb enc && negb (isLocalhost (ep_Host ep))) eqn:E; [done|].
    apply andb_false_iff in E as [?%negb_false_iff|?%negb_false_iff]; auto.
  - by destruct (_ && _).
Qed.

Lemma transaction_protected (ep : SMTPEndpoint) (enc : bool) (r : Relay) (from : gostring) (rcpts : list gostring) (body : gostring) :
  secured ep enc → sends protected (transaction ep enc r from rcpts body).
Proof.
  intros Hs.
  assert (∀ w e, password w = false → authenticates w = false → one_line w = true → sends protected (send ep enc w e)) as Hw.
  { intros w e Hp Ha Hl. apply sends_send. constructor; simpl; [by auto|congruence|done|done]. }
  assert (∀ w a e, w = MailFrom ∨ w = RcptTo → sends protected (sendLine ep enc w a e)) as Hline.
  { intros w a e Hor. unfold sendLine. destruct (validateLine a) eqn:E; [|apply sends_check].
    by destruct Hor as [-> | ->]; apply Hw. }
  assert (∀ i, sends protected (rcptAll ep enc r i rcpts)) as Hr.
  { induction rcpts as [|a rcpts IH]; intros i; cbn [rcptAll]; [apply sends_check|]. apply sends_then; [apply Hline|]; auto. }
  unfold transaction. apply sends_then; [apply Hline; by left|intros _]. apply sends_then; [apply Hr|intros _].
  do 2 (apply sends_then; [by apply Hw|intros _]). apply sends_check.
Qed.

Lemma sendVia_protected (cfg : SMTPConfig) (ep : SMTPEndpoint) (r : Relay) (from : gostring) (rcpts : list gostring) (body : gostring) :
  sends protected (sendVia cfg ep r from rcpts body).
Proof.
  unfold sendVia. set (enc := ep_TLS ep == SMTPTLSImplicit).
  assert (∀ enc w e, set_up w = true → password w = false → authenticates w = false → one_line w = true →
    sends protected (send ep enc w e)) as Hw.
  { intros enc' w e Hu Hp Ha Hl. apply sends_send. constructor; simpl; congruence. }
  apply sends_then; [by apply Hw|intros _]. do 2 (apply sends_then; [apply sends_check|intros _]).
  destruct (startTLS ep r enc) as [tls enc'] eqn:Htls.
  assert (sends protected tls ∧ (snd tls = None → secured ep enc')) as [Ht Hsec].
  { unfold startTLS in Htls. destruct (bool_decide_reflect (ep_TLS ep = SMTPTLSStartTLS)) as [Hst|Hst].
    - destruct (rl_extension r _); [|injection Htls as <- <-; split; [apply sends_check|done]].
      injection Htls as <- <-. split; [by apply Hw|]. simpl. unfold bare. destruct (rl_starttls r); [done|]. by intros _ _.
    - injection Htls as <- <-. split; [apply sends_check|]. intros _ [?|Himp]; [done|]. by apply bool_decide_eq_true. }
  match goal with |- context [let '(t, e) := ?a in _] => assert (sends protected a) as Ha end.
  { apply sends_then; [by apply Hw|intros _]. apply sends_then; [done|intros Hn]. specialize (Hsec Hn).
    apply sends_then; [by apply authenticate_protected|intros _]. do 2 (apply sends_then; [apply sends_check|intros _]).
    by apply transaction_protected. }
  destruct (_ >>> _) as [t e]. apply Forall_app. split; [done|]. apply Forall_singleton. by constructor.
Qed.

(** ** Deliveries *)

Definition is_delivery (w : wire) : bool :=
  match w_what w with MailFrom _ | RcptTo _ | DataCommand | Content _ => true | _ => false end.
Definition delivery_part (t : list wire) : list wire := List.filter is_delivery t.

(** A whole mail transaction on one connection. *)
Definition whole (ep : SMTPEndpoint) (enc : bool) (from : gostring) (rcpts : list gostring) (body : gostring) : list wire :=
  (λ w, {| w_ep := ep; w_enc := enc; w_what := w |}) <$> ([MailFrom from] ++ (RcptTo <$> rcpts) ++ [DataCommand; Content body]).

(** What a run did to the message: it offered a prefix of a transaction, the whole
    one if it succeeded, and nothing at all if it failed before. *)
Definition offers (full : list wire) (a : steps) : Prop :=
  delivery_part (fst a) `prefix_of` full ∧ (snd a = None → delivery_part (fst a) = full) ∧
  ∀ e, snd a = Some e → (∃ r, e = Delivery r) ∨ delivery_part (fst a) = [].

(** Steps before the transaction. *)
Definition before (a : steps) : Prop :=
  delivery_part (fst a) = [] ∧ ∀ e r, snd a = Some e → e ≠ Delivery r.

Lemma delivery_part_app (t u : list wire) : delivery_part (t ++ u) = delivery_part t ++ delivery_part u.
Proof. apply List.filter_app. Qed.

Lemma before_then (a b : steps) : before a → (snd a = None → before b) → before (a >>> b).
Proof.
  intros [Ha He] Hb. unfold andThen, before. destruct a as [t [e|]]; simpl in *; [by split|].
  destruct (Hb eq_refl) as [Hb1 Hb2]. by rewrite delivery_part_app, Ha.
Qed.

Lemma offers_then (full : list wire) (a b : steps) : before a → offers full b → offers full (a >>> b).
Proof.
  intros [Ha He] Hb. unfold andThen, offers. destruct a as [t [e|]]; simpl in *.
  - rewrite Ha. split; [apply prefix_nil|]. split; [done|]. auto.
  - rewrite delivery_part_app, Ha. exact Hb.
Qed.

Lemma before_check (e : option RelayError) : before (check (bare e)).
Proof. split; [done|]. destruct e; intros x y; simpl; [|done]. by intros [= <-]. Qed.

Lemma before_send (ep : SMTPEndpoint) (enc : bool) (w : what) (e : option RelayError) :
  is_delivery {| w_ep := ep; w_enc := enc; w_what := w |} = false → before (send ep enc w (bare e)).
Proof. intros Hw. split; [simpl; by rewrite Hw|]. destruct e; intros x y; simpl; [|done]. by intros [= <-]. Qed.

Lemma auth_before (ep : SMTPEndpoint) (enc : bool) (cfg : SMTPConfig) (r : Relay) : before (authenticate cfg ep r enc).
Proof.
  assert (∀ e, before (check (Some (Bare e)))) as Hc by (intros e; apply (before_check (Some e))).
  assert (∀ w e, is_delivery {| w_ep := ep; w_enc := enc; w_what := w |} = false → before (send ep enc w (Some (Bare e)))) as Hs
    by (intros w e Hw; by apply (before_send _ _ _ (Some e))).
  assert (∀ w, is_delivery {| w_ep := ep; w_enc := enc; w_what := w |} = false → before (send ep enc w None)) as Hn
    by (intros w Hw; by apply (before_send _ _ _ None)).
  unfold authenticate. destruct (negb (wantsAuth cfg)); [apply (before_check None)|].
  destruct (ep_TLS ep == SMTPTLSNone); [split; [done|]; by intros x y [= <-]|]. destruct (buildAuth _ _ _ _) as [a|]; [|apply Hc].
  unfold Client_Auth. destruct (Auth_Start _ _ _) as [i|]; [|apply Hc]. apply before_then; [by apply Hn|intros _].
  generalize (rl_auth r) as answers. induction answers as [|ans answers IH]; cbn [auth_loop]; [apply Hc|].
  assert (∀ msg more, before (match Auth_Next a msg more with
    | Err m => send ep enc AuthAbort (Some (Bare (NoReply m))) | Ok None => check None
    | Ok (Some resp) => send ep enc (AuthNext (mech_name a) resp) None >>> auth_loop ep enc a answers end)) as Hgo.
  { intros msg more. destruct (Auth_Next a msg more) as [[resp|]|]; [|apply (before_check None)|by apply Hs].
    apply before_then; [by apply Hn|done]. }
  destruct ans; [apply Hgo|apply Hgo|by apply Hs|by apply Hs|apply Hc].
Qed.

(** Within the transaction every error is a delivery error. *)
Definition offering (full : list wire) (a : steps) : Prop :=
  delivery_part (fst a) `prefix_of` full ∧ (snd a = None → delivery_part (fst a) = full) ∧
  ∀ e, snd a = Some e → ∃ r, e = Delivery r.

Lemma offering_step (full : list wire) (ep : SMTPEndpoint) (enc : bool) (w : what) (e : option RelayError) (b : steps) :
  is_delivery {| w_ep := ep; w_enc := enc; w_what := w |} = true → offering full b →
  offering ({| w_ep := ep; w_enc := enc; w_what := w |} :: full) (send ep enc w (delivery e) >>> b).
Proof.
  intros Hw (Hp & Hn & He). unfold offering, send, andThen, delivery. destruct e as [e|]; simpl; rewrite Hw.
  - split; [by exists full|]. split; [done|]. intros ? [= <-]. eauto.
  - split; [by apply prefix_cons|]. split; [intros E; by rewrite Hn|done].
Qed.

Lemma offering_line (full : list wire) (ep : SMTPEndpoint) (enc : bool) (w : gostring → what) (a : gostring)
    (e : option RelayError) (b : steps) :
  is_delivery {| w_ep := ep; w_enc := enc; w_what := w a |} = true → offering full b →
  offering ({| w_ep := ep; w_enc := enc; w_what := w a |} :: full) (sendLine ep enc w a e >>> b).
Proof.
  intros Hw Hb. unfold sendLine. destruct (validateLine a); [by apply offering_step|].
  split; [apply prefix_nil|]. split; [done|]. intros x [= <-]. eauto.
Qed.

Lemma andThen_assoc (a b c : steps) : ((a >>> b) >>> c) = (a >>> (b >>> c)).
Proof.
  unfold andThen. destruct a as [t [e|]]; [done|]. destruct b as [u [f|]]; simpl; [done|]. by rewrite (assoc_L (++)).
Qed.

Lemma transaction_offers (ep : SMTPEndpoint) (enc : bool) (r : Relay) (from : gostring) (rcpts : list gostring) (body : gostring) :
  offers (whole ep enc from rcpts body) (transaction ep enc r from rcpts body).
Proof.
  assert (offering (whole ep enc from rcpts body) (transaction ep enc r from rcpts body)) as (Hp & Hn & He).
  { unfold whole, transaction. cbn [app fmap list_fmap]. apply offering_line; [done|]. generalize 0%nat as i.
    induction rcpts as [|a rcpts IH]; intros i; cbn [rcptAll app fmap list_fmap].
    - unfold check at 1. cbn [andThen fst snd app]. apply offering_step; [done|]. apply offering_step; [done|].
      split; [done|]. split; [done|]. simpl. unfold delivery. destruct (rl_close r); [|done]. intros ? [= <-]. eauto.
    - rewrite andThen_assoc. apply offering_line; [done|]. apply IH. }
  split; [done|]. split; [done|]. eauto.
Qed.

Lemma sendVia_offers (cfg : SMTPConfig) (ep : SMTPEndpoint) (r : Relay) (from : gostring) (rcpts : list gostring) (body : gostring) :
  ∃ enc, offers (whole ep enc from rcpts body) (sendVia cfg ep r from rcpts body).
Proof.
  unfold sendVia. set (enc := ep_TLS ep == SMTPTLSImplicit). destruct (startTLS ep r enc) as [tls enc'] eqn:Htls. exists enc'.
  apply offers_then; [by apply before_send|]. do 2 (apply offers_then; [apply before_check|]).
  assert (before tls) as Hb.
  { unfold startTLS in Htls. destruct (ep_TLS ep == SMTPTLSStartTLS); [|injection Htls as <- <-; apply (before_check None)].
    destruct (rl_extension r _); injection Htls as <- <-; [by apply before_send|]. by apply (before_check (Some _)). }
  match goal with |- offers ?f (let '(t, e) := ?a in _) => assert (offers f a) as Ha end.
  { apply offers_then; [by apply before_send|]. apply offers_then; [done|]. apply offers_then; [apply auth_before|].
    do 2 (apply offers_then; [apply before_check|]). apply transaction_offers. }
  destruct (_ >>> _) as [t e]. unfold offers in *. cbn [fst snd] in *. rewrite delivery_part_app. simpl. by rewrite app_nil_r.
Qed.

(** The errors of the endpoints tried, in order. *)
Fixpoint failures (cfg : SMTPConfig) (relay : nat → Relay) (i : nat) (eps : list SMTPEndpoint) (from : gostring)
    (rcpts : list gostring) (body : gostring) : list SendError :=
  match eps with
  | [] => []
  | ep :: eps =>
      match snd (sendVia cfg ep (relay i) from rcpts body) with
      | None => []
      | Some (Delivery r) => [Delivery r]
      | Some e => e :: failures cfg relay (S i) eps from rcpts body
      end
  end.

Lemma try_endpoints_spec (cfg : SMTPConfig) (relay : nat → Relay) (eps : list SMTPEndpoint) (from : gostring) (rcpts : list gostring)
    (body : gostring) (i : nat) (lastErr : option SendError) (transient : bool) :
  let '(t, last', tr, ok) := try_endpoints cfg relay i eps from rcpts body lastErr transient in
  sends protected (t, None) ∧
  (delivery_part t = [] ∨ ∃ ep enc, ep ∈ eps ∧ delivery_part t `prefix_of` whole ep enc from rcpts body) ∧
  (ok = true → ∃ ep enc, ep ∈ eps ∧ delivery_part t = whole ep enc from rcpts body) ∧
  let fs := failures cfg relay i eps from rcpts body in
  tr = transient && forallb isTransient fs ∧ last' = match last fs with Some e => Some e | None => lastErr end.
Proof.
  revert i lastErr transient. induction eps as [|ep eps IH]; intros i lastErr transient; cbn [try_endpoints failures].
  { split; [constructor|]. split; [by left|]. split; [done|]. by rewrite andb_true_r. }
  pose proof (sendVia_protected cfg ep (relay i) from rcpts body) as Hprot.
  destruct (sendVia_offers cfg ep (relay i) from rcpts body) as (enc & Hpre & Hfull & Herr).
  destruct (sendVia cfg ep (relay i) from rcpts body) as [t [e|]]; cbn [fst snd] in *.
  - assert ((∃ r, e = Delivery r) ∨ ((∀ r, e ≠ Delivery r) ∧ delivery_part t = [])) as Hcase.
    { destruct (Herr e eq_refl) as [?|Hnil]; [by left|]. destruct e; [right|left; eauto|right]; done. }
    destruct Hcase as [[r ->]|[Hnd Hnil]].
    + split; [exact Hprot|]. split; [right; exists ep, enc; split; [left|done]|]. split; [done|].
      split; [|done]. unfold forallb. rewrite andb_true_r. by destruct (isTransient (Delivery r)), transient.
    + specialize (IH (S i) (Some e) (if isTransient e then transient else false)).
      assert (match e with Delivery r => [Delivery r] | _ => e :: failures cfg relay (S i) eps from rcpts body end
        = e :: failures cfg relay (S i) eps from rcpts body) as -> by (destruct e as [|r|]; [done|by destruct (Hnd r)|done]).
      assert (∀ (X Y : list wire * option SendError * bool * bool), match e with Delivery _ => X | _ => Y end = Y) as Hm
        by (intros; destruct e as [|r|]; [done|by destruct (Hnd r)|done]). rewrite Hm. clear Hm.
      destruct (try_endpoints cfg relay (S i) eps from rcpts body (Some e) _) as [[[t' last'] tr] ok].
      destruct IH as (IHp & IHo & IHok & IHtr & IHl). rewrite delivery_part_app, Hnil. cbn [app].
      split; [apply Forall_app; by split|]. split; [|split; [|split]].
      * destruct IHo as [?|(ep' & enc' & ? & ?)]; [by left|right; exists ep', enc'; split; [by right|done]].
      * intros Hok. destruct (IHok Hok) as (ep' & enc' & ? & ?). exists ep', enc'. split; [by right|done].
      * rewrite IHtr. cbn [forallb]. destruct (isTransient e), transient; done.
      * rewrite IHl, last_cons. by destruct (last _).
  - split; [exact Hprot|]. split; [right; exists ep, enc; split; [left|done]|].
    split; [intros _; exists ep, enc; split; [left|by apply Hfull]|]. by rewrite andb_true_r.
Qed.

Lemma sendBody_spec (cfg : SMTPConfig) (relay : nat → Relay) (now : Time) (from : gostring) (rcpts : list gostring)
    (body msgID : gostring) :
  let '(t, r) := sendBody cfg relay now from rcpts body msgID in
  Forall protected t ∧
  (delivery_part t = [] ∨ ∃ ep enc, ep ∈ sc_Endpoints cfg ∧ delivery_part t `prefix_of` whole ep enc from rcpts body) ∧
  (∀ res, r = Ok res → sr_UpstreamID res = msgID ∧
    ∃ ep enc, ep ∈ sc_Endpoints cfg ∧ delivery_part t = whole ep enc from rcpts body) ∧
  ∀ e, r = Err e →
    let fs := failures cfg relay 0 (sc_Endpoints cfg) from rcpts body in
    if forallb isTransient fs
    then Some e = WithRetryAfter (Some (EWrap "upstream transient error" (ESentinel ErrUpstreamTransient))) (retryHint (last fs))
    else e = EWrap "upstream permanent error" (ESentinel ErrUpstreamPermanent).
Proof.
  unfold sendBody. pose proof (try_endpoints_spec cfg relay (sc_Endpoints cfg) from rcpts body 0 None true) as Hs.
  destruct (try_endpoints _ _ _ _ _ _ _ _ _) as [[[t last'] tr] ok]. destruct Hs as (Hp & Hd & Hok & Htr & Hl).
  split; [exact Hp|]. split; [done|]. split.
  - intros res Hr. destruct ok; [|by destruct tr; [destruct (WithRetryAfter _ _)|]]. injection Hr as <-. auto.
  - intros e Hr. destruct ok; [done|]. cbv zeta. simpl in Htr. rewrite <- Htr.
    assert (last' = last (failures cfg relay 0 (sc_Endpoints cfg) from rcpts body)) as <- by (rewrite Hl; by destruct (last _)).
    destruct tr; [|by injection Hr as <-]. destruct (WithRetryAfter _ _) eqn:E; [by injection Hr as <-|].
    simpl in E. by destruct (_ <=? _).
Qed.

(** [retryHint] stays within [time.Duration]. *)
Lemma Atoi_bounds (s : gostring) : forallb is_digit s = true → 0 ≤ Atoi s < 10 ^ Z.of_nat (length s).
Proof.
  unfold Atoi. induction s as [|c s IH] using rev_ind; [simpl; lia|]. rewrite forallb_app, andb_true_iff. intros [Hs Hc].
  specialize (IH Hs). rewrite foldl_snoc, length_app, Nat2Z.inj_add, Z.pow_add_r by lia.
  assert (0 ≤ bz c - 48 ≤ 9) by (simpl in Hc; rewrite andb_true_r in Hc; unfold is_digit, in_range in Hc;
    rewrite andb_true_iff, !Z.leb_le in Hc; change (bz "0") with 48 in Hc; change (bz "9") with 57 in Hc; lia).
  change (10 ^ Z.of_nat (length [c])) with 10. lia.
Qed.

Lemma retryHint_bounds `{!RetryDelayLaws} (e : option SendError) : 0 ≤ retryHint e ≤ 999999 * Minute ∧ 999999 * Minute < 2 ^ 63.
Proof.
  unfold retryHint, Minute, Second. split; [|lia]. destruct (e ≫= reply_of) as [[code msg]|]; [|lia].
  destruct (_ || _); [|lia]. destruct (FindRetryDelay msg) as [[n unit]|] eqn:E; [|lia].
  apply retry_digits in E as [Hlen Hd]. apply Atoi_bounds in Hd.
  assert (10 ^ Z.of_nat (length n) ≤ 10 ^ 6) by (apply Z.pow_le_mono_r; lia). destruct (HasPrefix _ _); lia.
Qed.

(** C29. Everything a delivery sends is protected as the endpoint asks for: with STARTTLS
    or implicit TLS nothing but the set-up of the connection goes out before the
    encryption; the relay's password is only readable on an encrypted connection or to
    the local host; an endpoint with [tls: none] is never sent any AUTH; and no address
    can start a command line of its own.  This holds whatever the relays answer. *)
Theorem tls_enforced `{MediaTypes} (cfg : SMTPConfig) (env : Assembly) (relay : nat → Relay) (now : Time) (msg : Message)
    (envelopeFrom : gostring) (recipients : list gostring) (raw : gostring) :
  Forall protected (fst (Send cfg env relay now msg)) ∧
  Forall protected (fst (SendRaw cfg relay now envelopeFrom recipients raw)).
Proof.
  assert (∀ from rcpts body id, Forall protected (fst (sendBody cfg relay now from rcpts body id))) as Hb.
  { intros from rcpts body id. pose proof (sendBody_spec cfg relay now from rcpts body id) as Hs.
    destruct (sendBody _ _ _ _ _ _ _) as [t r]. apply Hs. }
  unfold Send, SendRaw. split.
  - destruct (AssembleMessage _ _ _) as [[body id]|]; [apply Hb|constructor].
  - destruct (_ =? _)%nat; [constructor|apply Hb].
Qed.

(** A message is offered to at most one relay, and at most once: what one [Send] puts
    on the wire of a mail transaction (MAIL, RCPT, DATA, content), over all endpoints, is
    a prefix of a single transaction.  When [Send] succeeds it is the whole one: the
    assembled message, for every address of To, Cc and Bcc, at one endpoint. *)
Theorem at_most_one_delivery `{MediaTypes} (cfg : SMTPConfig) (env : Assembly) (relay : nat → Relay) (now : Time)
    (msg : Message) :
  let from := a_Address (m_From msg) in
  let rcpts := extractAddrs (m_To msg ++ m_Cc msg ++ m_Bcc msg) in
  let '(t, r) := Send cfg env relay now msg in
  (delivery_part t = [] ∨ ∃ ep enc body, ep ∈ sc_Endpoints cfg ∧ delivery_part t `prefix_of` whole ep enc from rcpts body) ∧
  ∀ res, r = Ok res → ∃ ep enc body, ep ∈ sc_Endpoints cfg ∧ AssembleMessage env msg (helo cfg) = Ok (body, sr_UpstreamID res) ∧
    delivery_part t = whole ep enc from rcpts body.
Proof.
  cbv zeta. unfold Send. destruct (AssembleMessage _ _ _) as [[body id]|]; [|split; [by left|done]].
  pose proof (sendBody_spec cfg relay now (a_Address (m_From msg)) (extractAddrs (m_To msg ++ m_Cc msg ++ m_Bcc msg)) body id) as Hs.
  destruct (sendBody _ _ _ _ _ _ _) as [t r]. destruct Hs as (_ & Hd & Hok & _). split.
  - destruct Hd as [?|(ep & enc & ? & ?)]; eauto 10.
  - intros res Hr. destruct (Hok res Hr) as (<- & ep & enc & ? & ?). eauto 10.
Qed.

(** C30. What the caller may do about a failure.  The error is permanent exactly when one of
    the endpoints tried failed for good: its configuration asks for AUTH without TLS, or
    the relay answered the transaction with a 5xx, or with a 452 that means too many
    recipients.  In every other case - no connection, a failed handshake, STARTTLS or
    AUTH, a 4xx - it is transient, with the delay the last relay asked for, at most
    ten minutes. *)
Theorem send_error_class (cfg : SMTPConfig) (relay : nat → Relay) (now : Time) (from : gostring) (rcpts : list gostring)
    (body msgID : gostring) (e : error) :
  snd (sendBody cfg relay now from rcpts body msgID) = Err e →
  let fs := failures cfg relay 0 (sc_Endpoints cfg) from rcpts body in
  (Is e ErrUpstreamPermanent = true ↔ ∃ f, f ∈ fs ∧ ((∃ m, f = ConfigError m) ∨ ∃ code m, f = Delivery (Reply code m) ∧
    (500 ≤ code ∨ code = 452 ∧ isTooManyRecipients m = true))) ∧
  Is e ErrUpstreamTransient = negb (Is e ErrUpstreamPermanent) ∧
  RetryAfter (Some e) = (if Is e ErrUpstreamPermanent then 0 else Z.min (Z.max 0 (retryHint (last fs))) MaxRetryAfter) ∧
  0 ≤ RetryAfter (Some e) ≤ MaxRetryAfter.
Proof.
  intros Hr fs. pose proof (sendBody_spec cfg relay now from rcpts body msgID) as Hs.
  destruct (sendBody _ _ _ _ _ _ _) as [t r]. destruct Hs as (_ & _ & _ & He). specialize (He e Hr). cbv zeta in He. fold fs in He.
  assert ((∃ f, f ∈ fs ∧ ((∃ m, f = ConfigError m) ∨ ∃ code m, f = Delivery (Reply code m) ∧
    (500 ≤ code ∨ code = 452 ∧ isTooManyRecipients m = true))) ↔ forallb isTransient fs = false) as Hperm.
  { rewrite <- not_true_iff_false, forallb_forall. setoid_rewrite <- list_elem_of_In. split.
    - intros (f & Hf & Hcase) Hall. specialize (Hall f Hf). destruct Hcase as [[m ->]|(code & m & -> & Hc)]; [done|]. simpl in Hall.
      destruct (_ && _) eqn:E; [done|]. apply Z.ltb_lt in Hall. destruct Hc as [?|[-> Hm]]; [lia|]. by rewrite Hm in E.
    - intros Hno. destruct (decide (Exists (λ f, isTransient f = false) fs)) as [Hex|Hn].
      + apply Exists_exists in Hex as (f & Hf & Ht). exists f. split; [done|]. destruct f as [|[code m|]|m]; try done; [|by left; exists m].
        right. exists code, m. split; [done|]. simpl in Ht.
        destruct (isTooManyRecipients m), (Z.eqb_spec code 452); simpl in Ht; [right; by split|..]; left; by apply Z.ltb_ge.
      + destruct Hno. intros f Hf. destruct (isTransient f) eqn:E; [done|]. destruct Hn. apply Exists_exists. eauto. }
  rewrite Hperm. clear Hperm. destruct (forallb isTransient fs).
  - simpl in He. assert (Is e ErrUpstreamPermanent = false ∧ Is e ErrUpstreamTransient = true) as [-> ->].
    { destruct (_ <=? 0) in He; injection He as ->; done. }
    split; [done|]. split; [done|]. unfold MaxRetryAfter, Minute in *.
    destruct (Z.leb_spec (retryHint (last fs)) 0); injection He as ->; simpl; lia.
  - subst e. split; [done|]. split; [done|]. split; [done|]. simpl. unfold MaxRetryAfter, Minute. lia.
Qed.

(** Probes agree with deliveries: a relay the probe found out of reach, or without the
    STARTTLS it should have, is not offered a message while it behaves that way. *)
Theorem unready_endpoint_takes_nothing (cfg : SMTPConfig) (ep : SMTPEndpoint) (r : Relay) (from : gostring)
    (rcpts : list gostring) (body : gostring) (f : ProbeFailure) :
  probeEndpoint cfg ep r = Some f → (∀ mechs, f ≠ NoMechanism mechs) →
  delivery_part (fst (sendVia cfg ep r from rcpts body)) = [] ∧ snd (sendVia cfg ep r from rcpts body) ≠ None.
Proof.
  unfold probeEndpoint, sendVia, startTLS, probe_step, send, check. intros Hp Hm.
  destruct (rl_dial r); [done|]. destruct (rl_deadline r); [done|]. destruct (rl_banner r); [done|].
  assert (∀ ext, (if wantsAuth cfg then match ext (lit "AUTH") with None => Some (NoMechanism [])
    | Some mechs => if authMechOffered mechs (sc_AuthType cfg) then None else Some (NoMechanism mechs) end else None) ≠ Some f) as Hno.
  { intros ext Hf. destruct (wantsAuth cfg); [|done]. destruct (ext _) as [mechs|]; [destruct (authMechOffered _ _); [done|]|];
    injection Hf as <-; by eapply Hm. }
  destruct (rl_hello r) as [e|].
  { destruct (ep_TLS ep == SMTPTLSStartTLS); [destruct (rl_extension r _)|]; done. }
  destruct (ep_TLS ep == SMTPTLSStartTLS); [|by destruct (Hno (rl_extension r))].
  destruct (rl_extension r (lit "STARTTLS")); [|done]. destruct (rl_starttls r); [done|]. by destruct (Hno (rl_extension_tls r)).
Qed.
End facts.

Module DriverExample.
Definition hints : RetryDelay := {| FindRetryDelay := λ m, if Contains m "try again in 30 seconds" then Some (lit "30", lit "seconds") else None |}.
Definition no_hmac : HMACMD5 := {| hmac_md5_hex := λ _ _, [] |}.
#[local] Existing Instances ascii_tables hints no_hmac.
#[local] Instance hints_laws : RetryDelayLaws.
Proof. split. intros s n unit. simpl. destruct (Contains _ _); [|done]. intros [= <- <-]. split; [simpl; lia|done]. Defined.

Definition endpoint (host tls : gostring) : SMTPEndpoint :=
  {| ep_Host := host; ep_Port := 587; ep_TLS := tls; ep_InsecureSkipVerify := false |}.
Definition cfg : SMTPConfig := {|
  sc_Endpoints := [endpoint "a.relay.example" "starttls"; endpoint "b.relay.example" "starttls"]; sc_AuthType := "LOGIN";
  sc_Username := "mailer"; sc_Password := "s3cret"; sc_Timeout := 0; sc_Helo := []; sc_RootCAs := None |}.

(** A relay that does what it is asked, but for the n-th recipient. *)
Definition willing (bad : nat → option RelayError) : Relay := {|
  rl_dial := None; rl_deadline := None; rl_banner := None; rl_hello := None;
  rl_extension := λ e, if e == lit "STARTTLS" then Some [] else None;
  rl_extension_tls := λ e, if e == lit "AUTH" then Some (lit "PLAIN LOGIN") else None;
  rl_starttls := None; rl_auth := [Challenge "Username:"; Challenge "Password:"; Accepted];
  rl_deadline2 := None; rl_cancelled := None; rl_mail := None; rl_rcpt := bad; rl_data := None; rl_write := None; rl_close := None |}.
Definition down : Relay := {|
  rl_dial := Some (NoReply "connection refused"); rl_deadline := None; rl_banner := None; rl_hello := None;
  rl_extension := λ _, None; rl_extension_tls := λ _, None; rl_starttls := None; rl_auth := [];
  rl_deadline2 := None; rl_cancelled := None; rl_mail := None; rl_rcpt := λ _, None; rl_data := None; rl_write := None;
  rl_close := None |}.
Definition relays (bad : nat → option RelayError) (i : nat) : Relay := if (i =? 0)%nat then down else willing bad.
Definition busy (i : nat) : option RelayError := if (i =? 1)%nat then Some (Reply 451 "try again in 30 seconds") else None.

Definition b_sends (enc : bool) (w : what) : wire := {| w_ep := endpoint "b.relay.example" "starttls"; w_enc := enc; w_what := w |}.

(** The second relay takes over from the first, over TLS and with a login. *)
Example failover :
  SendRaw cfg (relays (λ _, None)) 0 "a@corp.example" [lit "x@y.example"] "hi" =
  ([{| w_ep := endpoint "a.relay.example" "starttls"; w_enc := false; w_what := Dial |};
    b_sends false Dial; b_sends false Hello; b_sends false StartTLS; b_sends true (AuthStart "LOGIN" None);
    b_sends true (AuthNext "LOGIN" "mailer"); b_sends true (AuthNext "LOGIN" "s3cret"); b_sends true (MailFrom "a@corp.example");
    b_sends true (RcptTo "x@y.example"); b_sends true DataCommand; b_sends true (Content "hi"); b_sends true Quit],
   Ok {| sr_UpstreamID := []; sr_AcceptedAt := 0 |}).
Proof. reflexivity. Qed.

Example probes : HealthCheck (λ _, lit "down") cfg (relays busy) ∅ =
  (list_to_map [(lit "a.relay.example:587", {| eh_Host := "a.relay.example"; eh_Port := 587; eh_Ready := false; eh_Message := "down" |});
                (lit "b.relay.example:587", {| eh_Host := "b.relay.example"; eh_Port := 587; eh_Ready := true; eh_Message := [] |})],
   [{| eh_Host := "a.relay.example"; eh_Port := 587; eh_Ready := false; eh_Message := "down" |};
    {| eh_Host := "b.relay.example"; eh_Port := 587; eh_Ready := true; eh_Message := [] |}]).
Proof. match goal with |- ?a = ?b => exact (eq_refl b <: a = b) end. Qed.

Definition failed : error :=
  ERetryAfter (EWrap "upstream transient error" (ESentinel ErrUpstreamTransient)) (30 * Second).

Lemma send_error_class_witness :
  let fs := failures cfg (relays busy) 0 (sc_Endpoints cfg) "a@corp.example" [lit "x@y.example"; lit "z@y.example"] "hi" in
  (Is failed ErrUpstreamPermanent = true ↔ ∃ f, f ∈ fs ∧ ((∃ m, f = ConfigError m) ∨ ∃ code m, f = Delivery (Reply code m) ∧
    (500 ≤ code ∨ code = 452 ∧ isTooManyRecipients m = true))) ∧
  Is failed ErrUpstreamTransient = negb (Is failed ErrUpstreamPermanent) ∧
  RetryAfter (Some failed) = (if Is failed ErrUpstreamPermanent then 0 else Z.min (Z.max 0 (retryHint (last fs))) MaxRetryAfter) ∧
  0 ≤ RetryAfter (Some failed) ≤ MaxRetryAfter.
Proof.
  apply (send_error_class cfg (relays busy) 0 "a@corp.example" [lit "x@y.example"; lit "z@y.example"] "hi" []). reflexivity.
Defined.

Lemma unready_endpoint_takes_nothing_witness :
  delivery_part (fst (sendVia cfg (endpoint "a.relay.example" "starttls") down "a@corp.example" [lit "x@y.example"] "hi")) = [] ∧
  snd (sendVia cfg (endpoint "a.relay.example" "starttls") down "a@corp.example" [lit "x@y.example"] "hi") ≠ None.
Proof. eapply unready_endpoint_takes_nothing; [reflexivity|]. intros mechs. discriminate. Defined.
End DriverExample.
