(* ===== verification/OAuth.v ===== *)
(** * OAuth tokens for backends ([internal/oauth])

    Token requests (client credentials and refresh tokens), how their answers are
    read, and the cache that shares one token between all senders.  What the token
    endpoint answers is an argument; [encoding/json], HTTP dates and URL parsing are
    parameters.  Callers and the one background fetch of a cache interleave: each
    locked section of cache.go is a step. *)

From S2P Require Import Prelude GoStrings.

(** ** Tokens and errors *)

Record Token := { tk_AccessToken : gostring; tk_Expiry : Time }.
Definition noToken : Token := {| tk_AccessToken := []; tk_Expiry := 0 |}.

Record OAuthError := {
  oe_Status : Z; oe_Code : gostring; oe_Description : gostring; oe_Permanent : bool; oe_RetryAfter : Duration;
  oe_Err : option gostring }.

(** An [*Error], or another error (a cancelled context). *)
Inductive FetchError := TokenError (e : OAuthError) | OtherError (msg : gostring).

Definition IsPermanent (e : FetchError) : bool := match e with TokenError e => oe_Permanent e | OtherError _ => false end.
Definition retryAfterOf (e : FetchError) : Duration := match e with TokenError e => oe_RetryAfter e | OtherError _ => 0 end.

(** ** Reading an answer *)

Definition DefaultLifetime : Duration := 5 * Minute.
Definition maxLifetime : Duration := 24 * Hour.
Definition maxRetryAfter : Duration := 10 * Minute.
Definition maxResponseBytes : Z := 1048576.
Definition maxRefreshTokenBytes : Z := 16384.
Definition maxCodeLen : Z := 64.
Definition maxDescLen : Z := 300.

(** The builder of [printable] holds [out]. *)
Fixpoint printable_loop (rs : list Z) (out : gostring) (n : Z) : gostring :=
  match rs with
  | [] => out
  | r :: rs => if n <=? Z.of_nat (length out) then out ++ lit "..."
               else printable_loop rs (out ++ [if (32 <=? r) && (r <? 127) then zb r else "?"%char]) n
  end.
Definition printable (s : gostring) (n : Z) : gostring := printable_loop (runes s) [] n.

Definition isVisibleASCII (s : gostring) (max : Z) : bool :=
  if (s == []) || (max <? Z.of_nat (length s)) then false else forallb (λ c, (33 <=? bz c) && (bz c <=? 126)) s.

Definition b64tokenByte (c : ascii) : bool := is_lower c || is_upper c || is_digit c || elem c "-._~+/".
Definition isB64Token (s : gostring) : bool :=
  let body := TrimRight s "="%char in
  if body == [] then false else forallb b64tokenByte body.

(** [http.ParseTime]; [url.Parse] with scheme https and a host; the members of an
    answer, where [expires_in] is its JSON text. *)
Record TokenFields := {
  tf_AccessToken : gostring; tf_TokenType : gostring; tf_ExpiresIn : option gostring; tf_RefreshToken : gostring }.
Class TokenEndpoint := {
  ParseHTTPTime : gostring → option Time;
  httpsURL : gostring → bool;
  ErrorFields : gostring → gostring * gostring;
  AnswerFields : gostring → option TokenFields }.

Definition c_dquote : ascii := "034".
(** [strings.Trim] with the double quote. *)
Definition TrimQuotes (s : gostring) : gostring := TrimRight (drop_byte c_dquote s) c_dquote.

(** [expiresIn.UnmarshalJSON] on a zero value. *)
Definition expiresIn (b : gostring) : option Z :=
  let s := TrimQuotes b in
  if (s == lit "null") || (s == []) then Some 0 else ParseInt64 s.

Section endpoint.
Context `{UnicodeTables, TokenEndpoint}.

(** The multiplication wraps at 64 bits. *)
Definition ParseRetryAfter (v : gostring) (now : Time) : Duration :=
  let d := match ParseInt64 (TrimSpace v) with
           | Some n => wrap 64 (n * Second)
           | None => match ParseHTTPTime v with Some t => time_sub t now | None => 0 end
           end in
  Z.min (Z.max d 0) maxRetryAfter.

Definition plainError (status : Z) (description : gostring) : OAuthError :=
  {| oe_Status := status; oe_Code := []; oe_Description := description; oe_Permanent := false; oe_RetryAfter := 0; oe_Err := None |}.

Definition StatusOK : Z := 200.
Definition StatusRequestTimeout : Z := 408.
Definition StatusTooManyRequests : Z := 429.

(** The error of an answer other than 200. *)
Definition refusedAnswer (status : Z) (retryAfter body : gostring) (now : Time) : OAuthError :=
  let '(code, description) := ErrorFields body in
  let again := (status =? StatusTooManyRequests) || (status =? StatusRequestTimeout) || (500 <=? status)
               || (code == lit "temporarily_unavailable") || (code == lit "server_error") in
  {| oe_Status := status; oe_Code := printable code maxCodeLen; oe_Description := printable description maxDescLen;
     oe_Permanent := negb again; oe_RetryAfter := if again then ParseRetryAfter retryAfter now else 0; oe_Err := None |}.

(** The token's lifetime, from [expires_in]. *)
Definition lifetimeOf (n : Z) : Duration :=
  if n <=? 0 then DefaultLifetime else if maxLifetime / Second <? n then maxLifetime else wrap 64 (n * Second).

(** A token and the refresh token beside it. *)
Definition parseResponse (status : Z) (retryAfter body : gostring) (now : Time) : res OAuthError (Token * gostring) :=
  if maxResponseBytes <? Z.of_nat (length body) then Err (plainError status "response larger than 1 MiB")
  else if negb (status =? StatusOK) then Err (refusedAnswer status retryAfter body now)
  else
    match AnswerFields body with
    | None => Err (plainError status "malformed token response")
    | Some r =>
        match match tf_ExpiresIn r with None => Some 0 | Some b => expiresIn b end with
        | None => Err (plainError status "malformed token response")
        | Some secs =>
            if negb (EqualFold (tf_TokenType r) (lit "bearer")) then
              Err (plainError status (lit "token_type " ++ printable (tf_TokenType r) maxCodeLen ++ lit " is not Bearer"))
            else if negb (isB64Token (tf_AccessToken r)) then
              Err (plainError status "access_token is missing or not a valid bearer token")
            else if (tf_RefreshToken r != []) && negb (isVisibleASCII (tf_RefreshToken r) maxRefreshTokenBytes) then
              Err (plainError status "refresh_token is not printable ASCII or too long")
            else Ok ({| tk_AccessToken := tf_AccessToken r; tk_Expiry := now + lifetimeOf secs |}, tf_RefreshToken r)
        end
    end.

(** ** Requests *)

(** What comes back: no answer, an answer whose body cannot be read, or an answer. *)
Inductive Answered := NoAnswer (err : gostring) | Unreadable (status : Z) (err : gostring) | Answer (status : Z) (retryAfter body : gostring).

(** [post] to the token URL at time [start]; redirects are not followed. *)
Definition post (tokenURL : gostring) (form : gmap gostring gostring)
    (do : gostring → gmap gostring gostring → Answered) (start : Time) : res OAuthError (Token * gostring) :=
  if negb (httpsURL tokenURL) then
    Err {| oe_Status := 0; oe_Code := []; oe_Description := "the token URL must be an https URL"; oe_Permanent := true;
           oe_RetryAfter := 0; oe_Err := None |}
  else
    match do tokenURL form with
    | NoAnswer err => Err {| oe_Status := 0; oe_Code := []; oe_Description := []; oe_Permanent := false; oe_RetryAfter := 0; oe_Err := Some err |}
    | Unreadable status err =>
        Err {| oe_Status := status; oe_Code := []; oe_Description := []; oe_Permanent := false; oe_RetryAfter := 0; oe_Err := Some err |}
    | Answer status retryAfter body => parseResponse status retryAfter (take (Z.to_nat (maxResponseBytes + 1)) body) start
    end.

Record ClientCredentials := {
  cc_TokenURL : gostring; cc_ClientID : gostring; cc_ClientSecret : gostring; cc_Scopes : list gostring }.

Definition withScope (scopes : list gostring) (form : gmap gostring gostring) : gmap gostring gostring :=
  if (0 <? length scopes)%nat then <[lit "scope" := Join scopes (lit " ")]> form else form.

Definition ClientCredentials_Token (c : ClientCredentials) (do : gostring → gmap gostring gostring → Answered) (start : Time)
    : res OAuthError Token :=
  let form := withScope (cc_Scopes c)
    (<[lit "grant_type" := lit "client_credentials"]> (<[lit "client_id" := cc_ClientID c]> {[lit "client_secret" := cc_ClientSecret c]})) in
  let! r := post (cc_TokenURL c) form do start in Ok (fst r).

(** [RefreshToken] has the same fields; an empty secret is a public client. *)
Definition Refresh (r : ClientCredentials) (refreshToken : gostring) (do : gostring → gmap gostring gostring → Answered) (start : Time)
    : res OAuthError (Token * gostring) :=
  let form := <[lit "grant_type" := lit "refresh_token"]> (<[lit "refresh_token" := refreshToken]> {[lit "client_id" := cc_ClientID r]}) in
  let form := if cc_ClientSecret r != [] then <[lit "client_secret" := cc_ClientSecret r]> form else form in
  let! t := post (cc_TokenURL r) (withScope (cc_Scopes r) form) do start in
  Ok (fst t, if snd t == [] then refreshToken else snd t).

(** [dns1123] is [validation.IsDNS1123Subdomain]. *)
Definition MicrosoftTokenURL (dns1123 : gostring → bool) (tenant : gostring) : res OAuthError gostring :=
  if negb (dns1123 tenant) then
    Err {| oe_Status := 0; oe_Code := []; oe_Description := lit "tenant " ++ printable tenant maxCodeLen
             ++ lit " must be a tenant ID or a domain name in lower case"; oe_Permanent := true; oe_RetryAfter := 0; oe_Err := None |}
  else Ok (lit "https://login.microsoftonline.com/" ++ tenant ++ lit "/oauth2/v2.0/token").
End endpoint.

(** ** The cache *)

Definition refreshMargin : Duration := 5 * Minute.
Definition minValidity : Duration := 30 * Second.
Definition failureBackoff : Duration := 10 * Second.
Definition fetchTimeout : Duration := 30 * Second.

(** [oc_inflight] is the fetch that runs; [oc_next] numbers the next one. *)
Record Cache := {
  oc_tok : Token; oc_refreshAt : Time; oc_inflight : option nat; oc_failErr : option FetchError; oc_failUntil : Time; oc_next : nat }.

Definition NewCache : Cache :=
  {| oc_tok := noToken; oc_refreshAt := 0; oc_inflight := None; oc_failErr := None; oc_failUntil := 0; oc_next := 0 |}.

Definition usable (now : Time) (c : Cache) : bool :=
  (tk_AccessToken (oc_tok c) != []) && (now + minValidity <? tk_Expiry (oc_tok c)).

(** What a caller of [Token] gets: a token, the remembered error ([nil] if there is
    none), or the result of the fetch it waits for. *)
Inductive Handed := Gets (t : Token) | Fails (e : option FetchError) | WaitsFor (f : nat).

(** The locked section of [Token]; the middle component is the fetch it starts. *)
Definition Token_ (now : Time) (c : Cache) : Cache * option nat * Handed :=
  if usable now c && (now <? oc_refreshAt c) then (c, None, Gets (oc_tok c))
  else if now <? oc_failUntil c then (c, None, if usable now c then Gets (oc_tok c) else Fails (oc_failErr c))
  else match oc_inflight c with
       | Some f => (c, None, if usable now c then Gets (oc_tok c) else WaitsFor f)
       | None =>
           ({| oc_tok := oc_tok c; oc_refreshAt := oc_refreshAt c; oc_inflight := Some (oc_next c); oc_failErr := oc_failErr c;
               oc_failUntil := oc_failUntil c; oc_next := S (oc_next c) |},
            Some (oc_next c), if usable now c then Gets (oc_tok c) else WaitsFor (oc_next c))
       end.

(** What a caller that waits for a fetch returns: its result, or the error of its own
    context if that ends first. *)
Definition awaitFetch (cancelled : option gostring) (result : res FetchError Token) : res FetchError Token :=
  match cancelled with Some e => Err (OtherError e) | None => result end.

Definition Invalidate (tok : Token) (c : Cache) : Cache :=
  if (tk_AccessToken tok != []) && (tk_AccessToken tok == tk_AccessToken (oc_tok c))
  then {| oc_tok := noToken; oc_refreshAt := 0; oc_inflight := oc_inflight c; oc_failErr := oc_failErr c;
          oc_failUntil := oc_failUntil c; oc_next := oc_next c |}
  else c.

(** The locked section of [run], when the fetch ended with [result]. *)
Definition run (now : Time) (result : res FetchError Token) (c : Cache) : Cache :=
  match result with
  | Ok tok =>
      {| oc_tok := tok; oc_refreshAt := tk_Expiry tok - Z.min refreshMargin (time_sub (tk_Expiry tok) now `quot` 2);
         oc_inflight := None; oc_failErr := None; oc_failUntil := 0; oc_next := oc_next c |}
  | Err e =>
      {| oc_tok := oc_tok c; oc_refreshAt := oc_refreshAt c; oc_inflight := None; oc_failErr := Some e;
         oc_failUntil := now + Z.max failureBackoff (retryAfterOf e); oc_next := oc_next c |}
  end.

(** ** Facts about answers *)

Section answers.
Context `{UnicodeTables, TokenEndpoint}.

Lemma printable_loop_safe (rs : list Z) (out : gostring) (n : Z) :
  0 ≤ n → Forall (λ c, 32 ≤ bz c < 127) out → Z.of_nat (length out) ≤ n →
  Forall (λ c, 32 ≤ bz c < 127) (printable_loop rs out n) ∧ Z.of_nat (length (printable_loop rs out n)) ≤ n + 3.
Proof.
  intros Hn. revert out. induction rs as [|r rs IH]; intros out Hout Hlen; cbn [printable_loop]; [split; [done|lia]|].
  destruct (Z.leb_spec n (Z.of_nat (length out))).
  - split; [apply Forall_app; split; [done|]; repeat constructor; vm_compute; done|]. rewrite length_app. simpl. lia.
  - apply IH; [|rewrite length_app; simpl; lia]. apply Forall_app. split; [done|]. apply Forall_singleton.
    destruct (Z.leb_spec 32 r), (Z.ltb_spec r 127); simpl; try (vm_compute; done). rewrite bz_zb by lia. lia.
Qed.

Lemma isB64Token_bytes (s : gostring) : isB64Token s = true → s ≠ [] ∧ Forall (λ c, 32 < bz c < 127) s.
Proof.
  unfold isB64Token. cbv zeta. case_bool_decide as Hne; [done|]. intros Hb. split; [by intros ->|].
  assert (∃ n, s = TrimRight s "="%char ++ replicate n "="%char) as (n & Hs).
  { unfold TrimRight. assert (∀ t, ∃ n, t = replicate n "="%char ++ drop_byte "="%char t) as Ht.
    { induction t as [|c t (n & IH)]; [by exists 0%nat|]. simpl. destruct (Ascii.eqb_spec c "="%char) as [->|]; [|by exists 0%nat].
      exists (S n). simpl. by f_equal. }
    destruct (Ht (reverse s)) as (n & Hn). exists n. rewrite <- (reverse_involutive s) at 1. rewrite Hn at 1.
    by rewrite reverse_app, reverse_replicate. }
  rewrite Hs. apply Forall_app. split.
  - apply Forall_forall. intros c Hc. rewrite forallb_forall in Hb. specialize (Hb c (proj1 (list_elem_of_In _ _) Hc)).
    assert (b64tokenByte c = true → (32 <? bz c) && (bz c <? 127) = true) as Hall by (by_byte c). apply Hall in Hb. to_prop. lia.
  - apply Forall_replicate. vm_compute. done.
Qed.

Lemma lifetimeOf_bounds (n : Z) : 0 < lifetimeOf n ≤ maxLifetime.
Proof.
  unfold lifetimeOf, DefaultLifetime, maxLifetime, Minute, Hour, Second.
  destruct (Z.leb_spec n 0); [lia|]. change (24 * 3600000000000 / 1000000000) with 86400.
  destruct (Z.ltb_spec 86400 n); [lia|]. rewrite wrap_id by lia. lia.
Qed.

(** A token that is accepted can be put into an Authorization header - it is a
    b64token, without blanks or control bytes - and expires within a day, but not at
    once; the refresh token beside it, if any, is visible ASCII. *)
Theorem token_answer_sound (status : Z) (retryAfter body : gostring) (now : Time) (tok : Token) (refresh : gostring) :
  parseResponse status retryAfter body now = Ok (tok, refresh) →
  status = StatusOK ∧ isB64Token (tk_AccessToken tok) = true ∧ Forall (λ c, 32 < bz c < 127) (tk_AccessToken tok) ∧
  now < tk_Expiry tok ≤ now + maxLifetime ∧
  (refresh = [] ∨ Forall (λ c, 32 < bz c < 127) refresh ∧ Z.of_nat (length refresh) ≤ maxRefreshTokenBytes).
Proof.
  unfold parseResponse. destruct (_ <? _); [done|]. destruct (Z.eqb_spec status StatusOK) as [->|]; [|done]. cbn [negb].
  destruct (AnswerFields body) as [r|]; [|done]. destruct (match tf_ExpiresIn r with None => _ | Some _ => _ end) as [secs|]; [|done].
  destruct (EqualFold _ _); [|done]. cbn [negb]. destruct (isB64Token (tf_AccessToken r)) eqn:Eb; [|done]. cbn [negb].
  destruct (_ && _) eqn:Er; [done|]. intros [= <- <-]. cbn [tk_AccessToken tk_Expiry]. pose proof (lifetimeOf_bounds secs).
  split; [done|]. split; [done|]. split; [by apply isB64Token_bytes|]. split; [lia|].
  destruct (bool_decide_reflect (tf_RefreshToken r = [])) as [|Hne]; [by left|right]. cbn [negb andb] in Er. apply negb_false_iff in Er.
  unfold isVisibleASCII in Er. rewrite bool_decide_false in Er by done. cbn [orb] in Er.
  destruct (Z.ltb_spec maxRefreshTokenBytes (Z.of_nat (length (tf_RefreshToken r)))); [done|]. split; [|done].
  apply Forall_forall. intros c Hc. rewrite forallb_forall in Er. specialize (Er c (proj1 (list_elem_of_In _ _) Hc)). to_prop. lia.
Qed.

(** A delay beyond what 64 bits of nanoseconds hold wraps to a negative one, and the
    cap turns it into none at all. *)
Theorem long_retry_after_lost (now : Time) : ParseRetryAfter (lit "9223372037") now = 0.
Proof. reflexivity. Qed.
End answers.

(** ** Facts about the cache *)

(** What happens to a cache: a caller's locked section, the end of the fetch, an
    upstream that rejected a token. *)
Inductive event := Called (now : Time) | Fetched (now : Time) (r : res FetchError Token) | Invalidated (tok : Token).

(** The fetches, as the token endpoint sees them. *)
Inductive entry := Started (now : Time) | Ended (now : Time) (r : res FetchError Token).

Definition ev_step (e : event) (c : Cache) : option (Cache * list entry) :=
  match e with
  | Called now => let '(c', st, _) := Token_ now c in Some (c', match st with Some _ => [Started now] | None => [] end)
  | Fetched now r => match oc_inflight c with None => None | Some _ => Some (run now r c, [Ended now r]) end
  | Invalidated tok => Some (Invalidate tok c, [])
  end.

(** The caches of all sequences of events, with their fetches, the latest first. *)
Inductive history : Cache → list entry → Prop :=
| history_new : history NewCache []
| history_step c h e c' l : history c h → ev_step e c = Some (c', l) → history c' (l ++ h).

(** What may come after a fetch that started, or one that ended. *)
Definition follows (newer older : entry) : Prop :=
  match newer, older with
  | Ended _ _, Started _ => True
  | Started _, Ended _ (Ok _) => True
  | Started t', Ended t (Err e) => t + Z.max failureBackoff (retryAfterOf e) ≤ t'
  | _, _ => False
  end.

Fixpoint spaced (h : list entry) : Prop :=
  match h with
  | [] => True
  | n :: h' => match h' with [] => ∃ t, n = Started t | o :: _ => follows n o end ∧ spaced h'
  end.

Lemma Token_started (now : Time) (c c' : Cache) (f : nat) (a : Handed) :
  Token_ now c = (c', Some f, a) → oc_inflight c = None ∧ oc_failUntil c ≤ now ∧ is_Some (oc_inflight c') ∧
  oc_failUntil c' = oc_failUntil c ∧ oc_tok c' = oc_tok c.
Proof.
  unfold Token_. destruct (_ && _); [done|]. destruct (Z.ltb_spec now (oc_failUntil c)); [done|].
  destruct (oc_inflight c); [done|]. intros [= <- <- <-]. simpl. split_and!; try done; lia.
Qed.

Lemma Token_same (now : Time) (c c' : Cache) (a : Handed) : Token_ now c = (c', None, a) → c' = c.
Proof. unfold Token_. repeat case_match; congruence. Qed.

(** The cache agrees with the fetches so far. *)
Definition agrees (c : Cache) (h : list entry) : Prop :=
  spaced h ∧
  (tk_AccessToken (oc_tok c) ≠ [] → ∃ t, Ended t (Ok (oc_tok c)) ∈ h) ∧
  match h with
  | [] => oc_inflight c = None
  | Started _ :: _ => is_Some (oc_inflight c)
  | Ended t (Err e) :: _ => oc_inflight c = None ∧ oc_failUntil c = t + Z.max failureBackoff (retryAfterOf e)
  | Ended _ (Ok _) :: _ => oc_inflight c = None
  end.

Lemma history_agrees (c : Cache) (h : list entry) : history c h → agrees c h.
Proof.
  induction 1 as [|c h e c' l _ (Hsp & Htok & Hst) Hstep]; [by split_and!|]. destruct e as [now|now r|tok]; cbn [ev_step] in Hstep.
  - destruct (Token_ now c) as [[c1 [f|]] a] eqn:Et; injection Hstep as <- <-; cbn [app].
    + apply Token_started in Et as (Hin & Hfail & Hin' & Hf' & Ht'). split_and!; [|rewrite Ht'; intros (t & ?)%Htok; exists t; by right|done].
      destruct h as [|[t|t [r|e]] h]; cbn [spaced] in *; [split; [by exists now|done]|by rewrite Hin in Hst; destruct Hst| |]; split; try done.
      simpl. destruct Hst as [_ Hst]. lia.
    + apply Token_same in Et as ->. done.
  - destruct (oc_inflight c) as [f|] eqn:Ei; [|done]. injection Hstep as <- <-. cbn [app].
    destruct h as [|[t|t [r'|e]] h]; [done| |done|by destruct Hst].
    split_and!; [by split| |by destruct r].
    destruct r as [tok|e]; cbn [run oc_tok]; [intros _; exists now; left|]. intros (t' & ?)%Htok. exists t'. by right.
  - injection Hstep as <- <-. cbn [app]. unfold Invalidate. destruct (_ && _); [|by split_and!]. by split_and!.
Qed.

(** C34. The token endpoint is not overrun: over any interleaving of callers, fetches and
    invalidations there is one fetch at a time, and after one that failed the next starts
    no sooner than the back-off, or the delay the endpoint asked for, has passed.  And a
    token handed out from the cache is one that a fetch brought, and good for another
    half minute. *)
Theorem token_fetches (c : Cache) (h : list entry) :
  history c h →
  spaced h ∧
  (∀ now c' f a, Token_ now c = (c', Some f, a) → spaced (Started now :: h)) ∧
  (∀ now c' st tok, Token_ now c = (c', st, Gets tok) →
    tk_AccessToken tok ≠ [] ∧ now + minValidity < tk_Expiry tok ∧ ∃ t, Ended t (Ok tok) ∈ h).
Proof.
  intros Hh. pose proof (history_agrees c h Hh) as (Hsp & Htok & _). split; [done|]. split.
  - intros now c' f a Et. assert (history c' ([Started now] ++ h)) as Hh'.
    { apply (history_step c h (Called now)); [exact Hh|]. cbn [ev_step]. by rewrite Et. }
    by apply history_agrees in Hh' as [? _].
  - intros now c' st tok Et. assert (usable now c = true ∧ tok = oc_tok c) as [Hu ->].
    { unfold Token_ in Et. destruct (usable now c); simpl in Et; repeat case_match; by simplify_eq. }
    unfold usable in Hu. to_prop. destruct Hu as [Hne Hlt]. split; [done|]. split; [done|]. by apply Htok.
Qed.

(** Callers do not notice that the token endpoint is down while their token lasts:
    after any calls and failed fetches, a token that is good for another half minute is
    handed out at once. *)
Theorem outage_masked (c : Cache) (es : list event) (c' : Cache) (now : Time) :
  foldl (λ c e, match c with Some c => fst <$> ev_step e c | None => None end) (Some c) es = Some c' →
  Forall (λ e, match e with Called _ | Fetched _ (Err _) => True | _ => False end) es →
  usable now c = true → snd (Token_ now c') = Gets (oc_tok c).
Proof.
  intros Hrun Hes Hu. assert (oc_tok c' = oc_tok c) as Ht.
  { revert c Hrun Hu. induction Hes as [|e es He _ IH]; intros c Hrun Hu; cbn [foldl] in Hrun; [by injection Hrun as <-|].
    destruct (ev_step e c) as [[c1 l]|] eqn:Es; cbn [fmap option_fmap option_map fst] in Hrun.
    2: { exfalso. clear -Hrun. induction es; simpl in *; [done|auto]. }
    assert (oc_tok c1 = oc_tok c) as E1.
    { destruct e as [t|t [|e]|]; cbn [ev_step] in Es; [|done| |done].
      - destruct (Token_ t c) as [[c2 [f|]] a] eqn:Et; injection Es as <- <-; [by apply Token_started in Et as (_ & _ & _ & _ & ?)|].
        by apply Token_same in Et as ->.
      - destruct (oc_inflight c); [|done]. by injection Es as <- <-. }
    rewrite <- E1. apply IH; [done|]. unfold usable in *. by rewrite E1. }
  assert (usable now c' = true) as Hu' by (unfold usable in *; by rewrite Ht). rewrite <- Ht.
  unfold Token_. rewrite Hu'. cbn [andb]. repeat case_match; done.
Qed.

(** Unlike what the comment of [Token] says, a caller that waited for a fetch gets its
    token whatever its lifetime: here one that is good for a second. *)
Definition brief : Token := {| tk_AccessToken := "t"; tk_Expiry := 101 * Second |}.
Theorem fetched_token_brief :
  snd (Token_ (100 * Second) NewCache) = WaitsFor 0 ∧ awaitFetch None (Ok brief) = Ok brief ∧
  tk_Expiry brief < 100 * Second + minValidity.
Proof. by split_and!. Qed.

Module OAuthExample.
Definition one_answer : TokenEndpoint := {|
  ParseHTTPTime _ := None; httpsURL u := HasPrefix u (lit "https://"); ErrorFields _ := ([], []);
  AnswerFields _ := Some {| tf_AccessToken := "eyJ0.a-b="; tf_TokenType := "Bearer"; tf_ExpiresIn := Some ([c_dquote] ++ lit "3600" ++ [c_dquote]);
                            tf_RefreshToken := "r1" |} |}.
#[local] Existing Instances ascii_tables one_answer.
Definition tok (t : Time) : Token := {| tk_AccessToken := "eyJ0.a-b="; tk_Expiry := t + Hour |}.

Lemma token_answer_sound_witness :
  200 = StatusOK ∧ isB64Token (tk_AccessToken (tok 0)) = true ∧ Forall (λ c, 32 < bz c < 127) (tk_AccessToken (tok 0)) ∧
  0 < tk_Expiry (tok 0) ≤ 0 + maxLifetime ∧
  (lit "r1" = [] ∨ Forall (λ c, 32 < bz c < 127) (lit "r1") ∧ Z.of_nat (length (lit "r1")) ≤ maxRefreshTokenBytes).
Proof. apply (token_answer_sound 200 [] "{}" 0 (tok 0) "r1"). vm_compute. reflexivity. Defined.

Definition denied : FetchError := TokenError (plainError 429 []).
(** A fetch fails, and the next one succeeds. *)
Definition asked : Cache := fst (fst (Token_ Second NewCache)).
Definition failed : Cache := run Second (Err denied) asked.
Definition again : Cache := fst (fst (Token_ (11 * Second) failed)).
Definition cache : Cache := run (12 * Second) (Ok (tok 0)) again.
Definition fetches : list entry := [Ended (12 * Second) (Ok (tok 0)); Started (11 * Second); Ended Second (Err denied); Started Second].

Lemma cache_history : history cache fetches.
Proof.
  refine (history_step again (drop 1 fetches) (Fetched (12 * Second) (Ok (tok 0))) cache (take 1 fetches) _ eq_refl).
  refine (history_step failed (drop 2 fetches) (Called (11 * Second)) again (take 1 (drop 1 fetches)) _ eq_refl).
  refine (history_step asked (drop 3 fetches) (Fetched Second (Err denied)) failed (take 1 (drop 2 fetches)) _ eq_refl).
  exact (history_step NewCache [] (Called Second) asked (take 1 (drop 3 fetches)) history_new eq_refl).
Qed.

Lemma token_fetches_witness :
  spaced fetches ∧ snd (Token_ Minute cache) = Gets (tok 0) ∧ ∃ t, Ended t (Ok (tok 0)) ∈ fetches.
Proof.
  destruct (token_fetches cache fetches cache_history) as (Hs & _ & Hg). split; [exact Hs|]. split; [reflexivity|].
  apply (Hg Minute cache None (tok 0)). reflexivity.
Defined.

Lemma outage_masked_witness :
  snd (Token_ (59 * Minute) (run (58 * Minute) (Err denied) (fst (fst (Token_ (57 * Minute) cache))))) = Gets (tok 0).
Proof.
  apply (outage_masked cache [Called (57 * Minute); Fetched (58 * Minute) (Err denied)]); [reflexivity|by repeat constructor|reflexivity].
Defined.
End OAuthExample.
