(* ===== verification/Graph.v ===== *)
(** * The Microsoft Graph driver ([internal/driver/graph])

    Graph has no envelope: it delivers to the To, Cc and Bcc of the message.  [prepare]
    makes these equal to the recipients the policy checked; the message then goes out
    with a bearer token (OAuth.v), at most twice.  Graph's answers and the tokens are
    arguments; [net/mail] is [MailReader], with the laws about header fields the driver
    relies on. *)

From S2P Require Import Prelude GoStrings Types Address Driver Credential MailParse MimeText MimeMessage OAuth.

(** ** Recipients *)

Definition permanent (m : gostring) : error := EWrap m (ESentinel ErrUpstreamPermanent).
Definition notInEnvelope : error := EWrap2 [] (ESentinel ErrUpstreamPermanent) (ESentinel ErrRecipientNotInEnvelope).

Section prepare.
Context `{AddressParser, UnicodeTables, MailReader}.

(** A bare addr-spec. *)
Definition bareAddress (r : gostring) : bool := bool_decide (ParseAddress r = Some ([], r)).

(** The addresses of the To or the Cc field, which must be in the envelope. *)
Definition listField (h : MIMEHeader) (inEnvelope : list gostring) (field : gostring) : res error (list gostring) :=
  match AddressList h field with
  | Err HeaderNotPresent => Ok []
  | Err _ => Err (permanent (lit "cannot parse the " ++ field ++ lit " field"))
  | Ok addrs =>
      let keys := (λ a, ToLower (snd a)) <$> addrs in
      if forallb (λ k, bool_decide (k ∈ inEnvelope)) keys then Ok keys else Err notInEnvelope
  end.

(** The recipients that are in none of the fields, each once. *)
Fixpoint blindCopies (envelope listed : list gostring) : list gostring :=
  match envelope with
  | [] => []
  | r :: envelope =>
      let key := ToLower r in
      if bool_decide (key ∈ listed) then blindCopies envelope listed else r :: blindCopies envelope (key :: listed)
  end.

(** The message to send and its From address. *)
Definition prepare (raw : gostring) (envelope : list gostring) : res error (gostring * gostring) :=
  match ReadMessage raw with
  | Err _ => Err (permanent "cannot parse the message header")
  | Ok (h, _) =>
      if (0 <? length (values h (lit "Bcc")))%nat || (0 <? length (values h (lit "Resent-Bcc")))%nat
      then Err (permanent "the message still carries a Bcc field")
      else
        match AddressList h (lit "From") with
        | Ok [from] =>
            if negb (forallb bareAddress envelope) then Err (permanent "invalid envelope recipient")
            else
              let inEnvelope := ToLower <$> envelope in
              let! to := listField h inEnvelope (lit "To") in
              let! cc := listField h inEnvelope (lit "Cc") in
              match blindCopies envelope (to ++ cc) with
              | [] => Ok (raw, snd from)
              | blind => Ok (lit "Bcc: " ++ Join blind (lit "," ++ crlf ++ lit " ") ++ crlf ++ raw, snd from)
              end
        | _ => Err (permanent "the message needs exactly one From address")
        end
  end.
End prepare.

(** ** Requests *)

Definition Scope : gostring := "https://graph.microsoft.com/.default".
Definition BaseURL : gostring := "https://graph.microsoft.com/v1.0".
Definition MaxRequestBytes : Z := 4194304.
Definition maxErrorBody : Z := 65536.

(** [base64.StdEncoding.EncodedLen] *)
Definition EncodedLen (n : Z) : Z := (n + 2) / 3 * 4.

(** [url.PathEscape] *)
Definition pathByte (c : ascii) : bool := is_alnum c || elem c "-_.~$&+:=@".
Definition PathEscape (s : gostring) : gostring := s ≫= λ c, if pathByte c then [c] else lit "%" ++ hex_pair c.

(** What comes back from Graph: no request could be made, no answer, or an answer with
    its request-id, Retry-After and body. *)
Inductive GraphAnswer := NoRequest | NoResponse | GraphStatus (code : Z) (requestID retryAfter body : gostring).

(** The members of Graph's error documents. *)
Class GraphErrors := { GraphErrorFields : gostring → option (gostring * gostring) }.

(** One POST: the mailbox's endpoint, the token, and the body. *)
Record Posted := { po_endpoint : gostring; po_token : gostring; po_body : gostring }.

Record GraphDriver := { gd_key : gostring; gd_baseURL : gostring; gd_host : gostring }.

Section driver.
Context `{AddressParser, UnicodeTables, MailReader, TokenEndpoint, GraphErrors}.

Definition errorDetail (body : gostring) : gostring :=
  match GraphErrorFields (take (Z.to_nat maxErrorBody) body) with
  | Some (code, message) => if code == [] then [] else lit ": " ++ printable code 64 ++ lit ": " ++ printable message 300
  | None => []
  end.

(** The status is 0 where there is none. *)
Definition graphPost (a : GraphAnswer) (now : Time) : Z * res error SendResult :=
  match a with
  | NoRequest => (0, Err (permanent "request"))
  | NoResponse => (0, Err (EWrap "microsoft graph" (ESentinel ErrUpstreamTransient)))
  | GraphStatus code requestID retryAfter body =>
      (code,
       if code =? 202 then Ok {| sr_UpstreamID := requestID; sr_AcceptedAt := now |}
       else
         let detail := lit "microsoft graph" ++ errorDetail body in
         if (code =? StatusTooManyRequests) || (code =? StatusRequestTimeout) || (500 <=? code) then
           let err := EWrap detail (ESentinel ErrUpstreamTransient) in
           if (code =? StatusTooManyRequests) || (code =? 503)
           then match WithRetryAfter (Some err) (ParseRetryAfter retryAfter now) with Some e => Err e | None => Err err end
           else Err err
         else Err (permanent detail))
  end.

Definition tokenError (e : FetchError) : error :=
  EWrap2 "microsoft graph token" (ESentinel (if IsPermanent e then ErrUpstreamPermanent else ErrUpstreamTransient)) (EOpaque []).

(** The loop of [SendRaw]: what was posted, the tokens dropped, and the result;
    [token i] and [answer i] are those of the [i]-th attempt.  Only the first attempt
    is repeated. *)
Definition sendAttempts (endpoint encoded : gostring) (token : nat → res FetchError Token) (answer : nat → GraphAnswer) (now : Time)
    : list Posted * list Token * res error SendResult :=
  match token 0%nat with
  | Err e => ([], [], Err (tokenError e))
  | Ok tok =>
      let sent := {| po_endpoint := endpoint; po_token := tk_AccessToken tok; po_body := encoded |} in
      let '(status, r) := graphPost (answer 0%nat) now in
      if status =? 401 then
        match token 1%nat with
        | Err e => ([sent], [tok], Err (tokenError e))
        | Ok tok2 =>
            ([sent; {| po_endpoint := endpoint; po_token := tk_AccessToken tok2; po_body := encoded |}], [tok],
             snd (graphPost (answer 1%nat) now))
        end
      else ([sent], [], r)
  end.

Definition GraphSendRaw (d : GraphDriver) (token : nat → res FetchError Token) (answer : nat → GraphAnswer) (now : Time)
    (recipients : list gostring) (raw : gostring) : list Posted * list Token * res error SendResult :=
  match prepare raw recipients with
  | Err e => ([], [], Err e)
  | Ok (body, from) =>
      if MaxRequestBytes <? EncodedLen (Z.of_nat (length body)) then ([], [], Err (permanent "the message is too large"))
      else sendAttempts (gd_baseURL d ++ lit "/users/" ++ PathEscape from ++ lit "/sendMail") (std_Encode body) token answer now
  end.

Definition GraphSend `{MediaTypes} (d : GraphDriver) (env : Assembly) (token : nat → res FetchError Token) (answer : nat → GraphAnswer)
    (now : Time) (msg : Message) : list Posted * list Token * res error SendResult :=
  match AssembleMessage env msg (lit "sigillum") with
  | Err _ => ([], [], Err (permanent "message"))
  | Ok (raw, _) => GraphSendRaw d token answer now (extractAddrs (m_To msg) ++ extractAddrs (m_Cc msg) ++ extractAddrs (m_Bcc msg)) raw
  end.

(** [HealthCheck]: a token can be had; [text] is the error's text. *)
Definition GraphHealthCheck (d : GraphDriver) (text : FetchError → gostring) (token : res FetchError Token) : list EndpointHealth :=
  [match token with
   | Ok _ => {| eh_Host := gd_host d; eh_Port := 443; eh_Ready := true; eh_Message := [] |}
   | Err e => {| eh_Host := gd_host d; eh_Port := 443; eh_Ready := false; eh_Message := text e |}
   end].

(** [newDriver] with the production environment: the driver and the source of its
    tokens. *)
Definition newGraphDriver (dns1123 : gostring → bool) (host : gostring) (cfg : Config) : res gostring (GraphDriver * ClientCredentials) :=
  match cfg_Graph cfg with
  | None => Err (lit "graph driver: missing microsoftGraph configuration")
  | Some g =>
      if (gc_ClientID g == []) || (gc_ClientSecret g == []) then Err (lit "graph driver: client ID and client secret are required")
      else match MicrosoftTokenURL dns1123 (gc_TenantID g) with
           | Err e => Err (lit "graph driver: " ++ oe_Description e)
           | Ok url => Ok ({| gd_key := cfg_BackendKey cfg; gd_baseURL := BaseURL; gd_host := host |},
                           {| cc_TokenURL := url; cc_ClientID := gc_ClientID g; cc_ClientSecret := gc_ClientSecret g;
                              cc_Scopes := [Scope] |})
           end
  end.
End driver.

(** ** Shared token caches *)

Definition maxCaches : nat := 256.

Definition cacheKeyOf `{Hashes} (src : ClientCredentials) : gostring :=
  hex_Encode (Sum256 (Join [cc_TokenURL src; cc_ClientID src; cc_ClientSecret src; Join (cc_Scopes src) (lit " ")] [NUL])).

(** The caches by key, and the one of [src]. *)
Definition sharedCache `{Hashes} (src : ClientCredentials) (caches : gmap gostring Cache) : gmap gostring Cache * Cache :=
  let key := cacheKeyOf src in
  match caches !! key with
  | Some c => (caches, c)
  | None =>
      let caches := if (maxCaches <=? size caches)%nat then ∅ else caches in
      (<[key := NewCache]> caches, NewCache)
  end.

(** ** Facts *)

(** What the driver relies on of [net/mail]: a Bcc field written in front of a message
    without one is read back, unfolded; a list of bare addresses is read as these; and
    the empty text is no address. *)
Class MailReaderLaws `{AddressParser, MailReader} := {
  read_bcc : ∀ raw h b rs, ReadMessage raw = Ok (h, b) → values h (lit "Bcc") = [] → rs ≠ [] → forallb bareAddress rs = true →
    ReadMessage (lit "Bcc: " ++ Join rs (lit "," ++ crlf ++ lit " ") ++ crlf ++ raw) = Ok (<[lit "Bcc" := [Join rs (lit ", ")]]> h, b);
  read_bare : ∀ rs, rs ≠ [] → forallb bareAddress rs = true → ParseAddressList (Join rs (lit ", ")) = Ok (pair [] <$> rs);
  no_address : ParseAddress [] = None }.

Section facts.
Context `{MailReaderLaws, UnicodeTables, TokenEndpoint, GraphErrors}.

(** The addresses of a field, in lower case. *)
Definition field_keys (h : MIMEHeader) (k : gostring) : list gostring :=
  match AddressList h k with Ok l => (λ a, ToLower (snd a)) <$> l | Err _ => [] end.

(** To whom Graph delivers a message. *)
Definition graph_recipients (text : gostring) : list gostring :=
  match ReadMessage text with
  | Ok (h, _) => field_keys h (lit "To") ++ field_keys h (lit "Cc") ++ field_keys h (lit "Bcc")
  | Err _ => []
  end.

Lemma blindCopies_spec (envelope listed : list gostring) :
  (∀ k, k ∈ (ToLower <$> blindCopies envelope listed) ++ listed ↔ k ∈ (ToLower <$> envelope) ++ listed) ∧
  ∀ r, r ∈ blindCopies envelope listed → r ∈ envelope.
Proof.
  revert listed. induction envelope as [|r envelope IH]; intros listed; cbn [blindCopies fmap list_fmap app]; [by split|].
  destruct (bool_decide_reflect (ToLower r ∈ listed)) as [Hl|Hl].
  - destruct (IH listed) as [IH1 IH2]. split; [|intros x Hx; right; by apply IH2].
    intros k. rewrite IH1, elem_of_cons. split; [by right|]. intros [->|?]; [apply elem_of_app; by right|done].
  - destruct (IH (ToLower r :: listed)) as [IH1 IH2]. split.
    + intros k. cbn [fmap list_fmap app]. specialize (IH1 k). rewrite !elem_of_app, !elem_of_cons in *. rewrite !elem_of_app in *. tauto.
    + intros x [->|Hx]%elem_of_cons; [by left|]. right. by apply IH2.
Qed.

Lemma listField_ok (h : MIMEHeader) (env : list gostring) (k : gostring) (l : list gostring) :
  listField h env k = Ok l → l = field_keys h k ∧ ∀ x, x ∈ l → x ∈ env.
Proof.
  unfold listField, field_keys. destruct (AddressList h k) as [addrs|[]]; try done; [|intros [= <-]; split; [done|by intros ? ?%elem_of_nil]].
  cbv zeta. destruct (forallb _ _) eqn:E; [|done]. intros [= <-]. split; [done|]. intros x Hx. rewrite forallb_forall in E.
  by apply list_elem_of_In, E, bool_decide_eq_true in Hx.
Qed.

Lemma Get_insert_other (h : MIMEHeader) (k k' : gostring) (vs : list gostring) :
  CanonicalKey k ≠ k' → Get (<[k' := vs]> h) k = Get h k.
Proof. intros Hk. unfold Get. by assert (<[k' := vs]> h !! CanonicalKey k = h !! CanonicalKey k) as -> by (by apply lookup_insert_ne). Qed.

Lemma field_keys_insert (h : MIMEHeader) (k k' : gostring) (vs : list gostring) :
  CanonicalKey k ≠ k' → field_keys (<[k' := vs]> h) k = field_keys h k.
Proof. intros Hk. unfold field_keys, AddressList. by rewrite Get_insert_other. Qed.

(** Graph delivers exactly to the recipients the policy checked. *)
Lemma prepare_exact (raw body from : gostring) (envelope : list gostring) :
  prepare raw envelope = Ok (body, from) → ∀ k, k ∈ graph_recipients body ↔ k ∈ ToLower <$> envelope.
Proof.
  unfold prepare. destruct (ReadMessage raw) as [[h b]|] eqn:Er; [|done].
  destruct (_ || _) eqn:Eb; [done|]. apply orb_false_iff in Eb as [Eb _]. destruct (AddressList h (lit "From")) as [[|f [|]]|]; try done.
  destruct (forallb bareAddress envelope) eqn:Ebare; [|done]. cbn [negb].
  intros (to & [Hto Hto']%listField_ok & Hp)%res_bind_Ok. apply res_bind_Ok in Hp as (cc & [Hcc Hcc']%listField_ok & Hp).
  destruct (values h (lit "Bcc")) as [|? ?] eqn:Ebcc; [|done].
  assert (field_keys h (lit "Bcc") = []) as Hnone.
  { unfold field_keys, AddressList, Get. unfold values in Ebcc. change (CanonicalKey (lit "Bcc")) with (lit "Bcc").
    destruct (h !! lit "Bcc") as [[|? ?]|]; done. }
  destruct (blindCopies_spec envelope (to ++ cc)) as [Hblind Hsub].
  assert (∀ k, k ∈ (ToLower <$> envelope) ++ (to ++ cc) ↔ k ∈ ToLower <$> envelope) as Henv.
  { intros k. rewrite !elem_of_app. split; [|by left]. intros [?|[?|?]]; auto. }
  destruct (blindCopies envelope (to ++ cc)) as [|r blind] eqn:Ebl.
  - injection Hp as <- <-. intros k. unfold graph_recipients. rewrite Er, <- Hto, <- Hcc, Hnone, app_nil_r, <- Henv, <- Hblind. done.
  - injection Hp as <- <-. intros k. set (rs := r :: blind) in *.
    assert (forallb bareAddress rs = true) as Hrs.
    { rewrite forallb_forall in *. intros x Hx%list_elem_of_In. apply Ebare. by apply list_elem_of_In, Hsub. }
    unfold graph_recipients. rewrite (read_bcc raw h b rs) by done.
    rewrite (field_keys_insert h (lit "To")), (field_keys_insert h (lit "Cc")) by (vm_compute; discriminate). rewrite <- Hto, <- Hcc.
    assert (field_keys (<[lit "Bcc" := [Join rs (lit ", ")]]> h) (lit "Bcc") = ToLower <$> rs) as ->.
    { unfold field_keys, AddressList, Get. change (CanonicalKey (lit "Bcc")) with (lit "Bcc").
      assert (<[lit "Bcc" := [Join rs (lit ", ")]]> h !! lit "Bcc" = Some [Join rs (lit ", ")]) as -> by apply lookup_insert_eq.
      rewrite bool_decide_false; [rewrite read_bare by done; by rewrite <- list_fmap_compose|]. unfold rs, Join. intros [-> _]%app_eq_nil.
      simpl in Hrs. apply andb_true_iff in Hrs as [Hr _]. unfold bareAddress in Hr. rewrite no_address in Hr. by apply bool_decide_eq_true in Hr. }
    rewrite <- Henv, <- Hblind, !elem_of_app. tauto.
Qed.

Lemma std_Encode_length (s : gostring) : Z.of_nat (length (std_Encode s)) = EncodedLen (Z.of_nat (length s)).
Proof.
  unfold EncodedLen. induction s as [|x|x y|x y z s IH] using three_at_a_time; [done..|].
  change (x :: y :: z :: s) with ([x; y; z] ++ s). rewrite std_Encode_app, !length_app, !Nat2Z.inj_add, IH by done.
  change (Z.of_nat (length (std_Encode [x; y; z]))) with 4. change (Z.of_nat (length [x; y; z])) with 3.
  replace (3 + Z.of_nat (length s) + 2) with (Z.of_nat (length s) + 2 + 1 * 3) by lia. rewrite Z.div_add by lia. lia.
Qed.

(** A mailbox name cannot leave its path segment. *)
Lemma PathEscape_segment (s : gostring) : Forall (λ c, pathByte c = true ∨ c = "%"%char) (PathEscape s).
Proof.
  unfold PathEscape. induction s as [|c s IH]; cbn [mbind list_bind]; [constructor|]. apply Forall_app. split; [|done].
  destruct (pathByte c) eqn:E; [by repeat constructor|]. constructor; [by right|].
  assert (forallb pathByte (hex_pair c) = true) as Hh by (clear; by_byte c). rewrite forallb_forall in Hh.
  apply Forall_forall. intros x Hx%list_elem_of_In%Hh. by left.
Qed.

(** Errors of the driver tell permanent from transient. *)
Definition classified (e : error) : Prop := built e ∧ Is e ErrUpstreamTransient = negb (Is e ErrUpstreamPermanent).

Lemma permanent_classified (m : gostring) : classified (permanent m).
Proof. split; [repeat constructor|done]. Qed.

Lemma prepare_classified (raw : gostring) (envelope : list gostring) (e : error) : prepare raw envelope = Err e → classified e.
Proof.
  pose proof permanent_classified as Hperm.
  unfold prepare. intros Ep. repeat case_match; simplify_eq; try apply Hperm.
  apply res_bind_Err in Ep as [Ep|(? & _ & Ep)]; [|apply res_bind_Err in Ep as [Ep|(? & _ & Ep)]; [|by repeat case_match]].
  all: unfold listField in Ep; repeat case_match; simplify_eq; try apply Hperm; split; [repeat constructor|done].
Qed.

Lemma graphPost_ok (a : GraphAnswer) (now : Time) :
  (∀ e, snd (graphPost a now) = Err e → classified e) ∧
  (∀ r, snd (graphPost a now) = Ok r → fst (graphPost a now) = 202).
Proof.
  destruct a as [| |code id retry body]; cbn [graphPost fst snd].
  - split; [|done]. intros e [= <-]. split; [repeat constructor|done].
  - split; [|done]. intros e [= <-]. split; [repeat constructor|done].
  - destruct (Z.eqb_spec code 202) as [->|]; [done|]. cbv zeta. split; [|intros r; repeat case_match; done].
    set (err := EWrap _ (ESentinel ErrUpstreamTransient)). assert (built err) as Hb by (repeat constructor).
    destruct (_ || _); [|intros e [= <-]; split; [repeat constructor|done]]. destruct (_ || _); [|intros e [= <-]; by split].
    intros e. destruct (WithRetryAfter _ _) as [e'|] eqn:Ew; intros [= <-]; [|by split].
    split; [by eapply built_retry|]. by rewrite !(WithRetryAfter_Is _ _ _ _ Ew).
Qed.

Lemma GraphSendRaw_spec (d : GraphDriver) (token : nat → res FetchError Token) (answer : nat → GraphAnswer) (now : Time)
    (recipients : list gostring) (raw : gostring) (posted : list Posted) (dropped : list Token) (r : res error SendResult) :
  GraphSendRaw d token answer now recipients raw = (posted, dropped, r) →
  (∀ p, p ∈ posted → ∃ body from, decodeB64 (po_body p) = Some body ∧ Z.of_nat (length (po_body p)) ≤ MaxRequestBytes ∧
    po_endpoint p = gd_baseURL d ++ lit "/users/" ++ PathEscape from ++ lit "/sendMail" ∧
    (∀ k, k ∈ graph_recipients body ↔ k ∈ ToLower <$> recipients) ∧
    ∀ q, q ∈ posted → po_body q = po_body p ∧ po_endpoint q = po_endpoint p) ∧
  (length posted ≤ 2)%nat ∧ (length posted = 2%nat → fst (graphPost (answer 0%nat) now) = 401) ∧
  (∀ x, r = Ok x → posted ≠ [] ∧ fst (graphPost (answer (length posted - 1)%nat) now) = 202) ∧
  (∀ e, r = Err e → classified e).
Proof.
  pose proof permanent_classified as Hperm.
  assert (∀ e, classified (tokenError e)) as Htok by (intros e; split; [repeat constructor|by unfold tokenError; destruct (IsPermanent e)]).
  unfold GraphSendRaw. destruct (prepare raw recipients) as [[body from]|e] eqn:Ep.
  2: { intros [= <- <- <-]. split; [by intros p ?%elem_of_nil|]. split; [simpl; lia|]. split; [done|]. split; [done|].
       intros e' [= <-]. by eapply prepare_classified. }
  destruct (Z.ltb_spec MaxRequestBytes (EncodedLen (Z.of_nat (length body)))) as [|Hlen].
  { intros [= <- <- <-]. split; [by intros p ?%elem_of_nil|]. split; [simpl; lia|]. split; [done|]. split; [done|]. by intros e [= <-]. }
  pose proof (prepare_exact _ _ _ _ Ep) as Hex. set (endpoint := gd_baseURL d ++ _).
  assert (∀ ps : list Posted, Forall (λ p, po_endpoint p = endpoint ∧ po_body p = std_Encode body) ps →
    ∀ p, p ∈ ps → ∃ body from, decodeB64 (po_body p) = Some body ∧ Z.of_nat (length (po_body p)) ≤ MaxRequestBytes ∧
    po_endpoint p = gd_baseURL d ++ lit "/users/" ++ PathEscape from ++ lit "/sendMail" ∧
    (∀ k, k ∈ graph_recipients body ↔ k ∈ ToLower <$> recipients) ∧
    ∀ q, q ∈ ps → po_body q = po_body p ∧ po_endpoint q = po_endpoint p) as Hps.
  { intros ps Hall p Hp. rewrite Forall_forall in Hall. destruct (Hall p Hp) as [-> ->]. exists body, from.
    rewrite std_round_trip, std_Encode_length. split_and!; try done. intros q Hq. by destruct (Hall q Hq) as [-> ->]. }
  unfold sendAttempts. destruct (token 0%nat) as [tok|e].
  2: { intros [= <- <- <-]. split; [by intros p ?%elem_of_nil|]. split; [simpl; lia|]. split; [done|]. split; [done|]. by intros e' [= <-]. }
  destruct (graphPost_ok (answer 0%nat) now) as [Herr0 Hok0]. destruct (graphPost (answer 0%nat) now) as [status r0] eqn:E0. simpl in Herr0, Hok0.
  destruct (Z.eqb_spec status 401) as [->|Hne].
  - destruct (token 1%nat) as [tok2|e]; intros [= <- <- <-].
    + split; [apply Hps; by repeat constructor|]. split; [simpl; lia|]. split; [done|].
      destruct (graphPost_ok (answer 1%nat) now) as [Herr1 Hok1]. split; [intros x Hx; split; [done|by eapply Hok1]|done].
    + split; [apply Hps; by repeat constructor|]. split; [simpl; lia|]. split; [done|]. split; [done|]. by intros e' [= <-].
  - intros [= <- <- <-]. split; [apply Hps; by repeat constructor|]. split; [simpl; lia|]. split; [done|].
    split; [intros x Hx; split; [done|]; simpl; rewrite E0; by eapply Hok0|done].
Qed.

End facts.

(** ** A small reader of messages *)

Module GraphExample.
(** Addresses without blanks, commas or line ends; a message is an optional Bcc field,
    folded, in front of a text from one sender to one recipient. *)
Definition plainByte (c : ascii) : bool := negb (Ascii.eqb c SP || Ascii.eqb c "," || Ascii.eqb c CR).
Definition plain_addresses : AddressParser := {|
  ParseAddress s := if (s != []) && forallb plainByte s then Some ([], s) else None;
  DecodeHeader _ s := Some s |}.

Fixpoint fieldValue (s : gostring) : gostring * gostring :=
  match s with
  | [] => ([], [])
  | c :: t =>
      if Ascii.eqb c CR then
        match t with
        | _ :: ((d :: u) as rest) => if Ascii.eqb d SP then let '(v, r) := fieldValue u in (SP :: v, r) else ([], rest)
        | _ => ([], [])
        end
      else let '(v, r) := fieldValue t in (c :: v, r)
  end.

Definition base : MIMEHeader := {[lit "From" := [lit "app@corp.example"]; lit "To" := [lit "bob@corp.example"]]}.
Definition small_reader : MailReader := {|
  ReadMessage raw :=
    match raw with
    | [] => Err []
    | c :: _ =>
        if Ascii.eqb c SP then Err []
        else if HasPrefix raw (lit "Bcc: ") then let '(v, rest) := fieldValue (drop 5 raw) in Ok (<[lit "Bcc" := [v]]> base, rest)
        else Ok (base, raw)
    end;
  ParseAddressList v := Ok (pair [] <$> Split (List.filter (λ c, negb (Ascii.eqb c SP)) v) ","%char) |}.
#[local] Existing Instances plain_addresses small_reader ascii_tables.

Lemma bare_plain (r : gostring) : bareAddress r = true → r ≠ [] ∧ forallb plainByte r = true.
Proof.
  unfold bareAddress. simpl. intros Hb%bool_decide_eq_true. destruct (_ && _) eqn:E; [|done].
  apply andb_true_iff in E as [E1 E2]. by apply negb_true_iff, bool_decide_eq_false in E1.
Qed.

Lemma fieldValue_plain (r s : gostring) : forallb plainByte r = true →
  fieldValue (r ++ s) = (r ++ fst (fieldValue s), snd (fieldValue s)).
Proof.
  induction r as [|c r IH]; simpl; [by destruct (fieldValue s)|]. intros [Hc Hr]%andb_true_iff.
  unfold plainByte in Hc. apply negb_true_iff, orb_false_iff in Hc as [_ Hc]. by rewrite Hc, IH.
Qed.

Lemma fieldValue_join (rs : list gostring) (raw : gostring) :
  rs ≠ [] → forallb bareAddress rs = true → match raw with c :: _ => Ascii.eqb c SP = false | [] => False end →
  fieldValue (Join rs (lit "," ++ crlf ++ lit " ") ++ crlf ++ raw) = (Join rs (lit ", "), raw).
Proof.
  intros Hne Hrs Hraw. induction rs as [|r rs IH]; [done|]. simpl in Hrs. apply andb_true_iff in Hrs as [[_ Hr]%bare_plain Hrs].
  destruct rs as [|r2 rs].
  - simpl. rewrite !app_nil_r, fieldValue_plain by done. destruct raw as [|c raw]; [done|]. simpl. by rewrite Hraw, app_nil_r.
  - rewrite !(Join_cons r (r2 :: rs)) by done. rewrite <- !(assoc_L (++)), fieldValue_plain by done.
    assert (∀ t, fieldValue (lit "," ++ crlf ++ lit " " ++ t) = (lit ", " ++ fst (fieldValue t), snd (fieldValue t))) as Hfold
      by (intros t; cbn; by destruct (fieldValue t)).
    rewrite Hfold, IH by done. done.
Qed.

Lemma read_plain (rs : list gostring) : rs ≠ [] → forallb bareAddress rs = true →
  ParseAddressList (Join rs (lit ", ")) = Ok (pair [] <$> rs).
Proof.
  intros Hne Hrs. cbn [ParseAddressList small_reader]. do 2 f_equal.
  assert (List.filter (λ c, negb (Ascii.eqb c SP)) (Join rs (lit ", ")) = Join rs (lit ",")) as ->.
  { assert (∀ r, forallb plainByte r = true → List.filter (λ c, negb (Ascii.eqb c SP)) r = r) as Hf.
    { induction r as [|c r IH]; [done|]. simpl. intros [Hc Hr]%andb_true_iff. unfold plainByte in Hc.
      apply negb_true_iff, orb_false_iff in Hc as [[Hc _]%orb_false_iff _]. by rewrite Hc, IH. }
    induction rs as [|r rs IH]; [done|]. simpl in Hrs. apply andb_true_iff in Hrs as [[_ Hr]%bare_plain Hrs].
    destruct rs as [|r2 rs]; [simpl; rewrite !app_nil_r; by apply Hf|].
    rewrite !(Join_cons r (r2 :: rs)), !List.filter_app, Hf, IH by done. done. }
  apply Split_Join; [done|]. apply Forall_forall. intros r Hr Hin. rewrite forallb_forall in Hrs.
  apply list_elem_of_In, Hrs, bare_plain in Hr as [_ Hr]. rewrite forallb_forall in Hr.
  apply list_elem_of_In, Hr in Hin. vm_compute in Hin. done.
Qed.

Lemma values_insert (h : MIMEHeader) (k v : gostring) : values (<[k := [v]]> h) k = [v].
Proof. unfold values. transitivity (default [] (Some [v])); [f_equal; apply lookup_insert_eq|done]. Qed.

#[local] Instance small_reader_laws : MailReaderLaws.
Proof.
  split; [|exact read_plain|reflexivity]. intros raw h b rs. cbn [ReadMessage small_reader]. destruct raw as [|c raw]; [done|].
  destruct (Ascii.eqb c SP) eqn:Esp; [done|]. intros Hr Hbcc Hne Hrs.
  destruct (HasPrefix (c :: raw) (lit "Bcc: ")) eqn:Ep.
  { destruct (fieldValue _) as [v rest]. injection Hr as <- <-. rewrite values_insert in Hbcc. done. }
  injection Hr as <- <-.
  assert (HasPrefix (lit "Bcc: " ++ Join rs (lit "," ++ crlf ++ lit " ") ++ crlf ++ c :: raw) (lit "Bcc: ") = true) as Hp by (apply HasPrefix_spec; eauto).
  set (text := lit "Bcc: " ++ _) in *. change text with ("B"%char :: tail text). cbn [Ascii.eqb].
  change ("B"%char :: tail text) with text. rewrite Hp. unfold text. change 5%nat with (length (lit "Bcc: ")). rewrite drop_app_length.
  by rewrite fieldValue_join.
Qed.
Definition no_fields : GraphErrors := {| GraphErrorFields _ := None |}.
#[local] Existing Instances OAuthExample.one_answer no_fields.

Definition graph : GraphDriver := {| gd_key := "team/relay"; gd_baseURL := BaseURL; gd_host := "graph.microsoft.com" |}.
(** The first token is refused, the second request accepted. *)
Definition token (i : nat) : res FetchError Token := Ok {| tk_AccessToken := if (i =? 0)%nat then "old" else "new"; tk_Expiry := Hour |}.
Definition answers (i : nat) : GraphAnswer := if (i =? 0)%nat then GraphStatus 401 [] [] [] else GraphStatus 202 "id-7" [] [].
Definition rcpts : list gostring := [lit "Bob@corp.example"; lit "audit@corp.example"].
Definition endpoint : gostring := "https://graph.microsoft.com/v1.0/users/app@corp.example/sendMail".
Definition body : gostring := lit "Bcc: audit@corp.example" ++ crlf ++ lit "hello".
Definition sent (t : gostring) : Posted := {| po_endpoint := endpoint; po_token := t; po_body := std_Encode body |}.

End GraphExample.
