(* ===== verification/TokenReview.v ===== *)
(** * Bearer tokens of the HTTP API ([internal/apiserver/auth/tokenreview.go])

    A token is reviewed by the Kubernetes API server and the answer remembered for
    a while.  The API server's answer is an argument of each call; the LRU cache is
    [LRUMap], SHA-256 [Hashes], and the parts of [encoding/json] and [strconv] that
    read a JWT's expiry and a quoted audience are [TokenText]. *)

From S2P Require Import Prelude GoStrings Credential Slots LoginThrottle.

(** ** Data *)

Record Subject := {
  sj_Namespace : gostring; sj_ServiceAccount : gostring; sj_UID : gostring;
  sj_Audiences : list gostring; sj_Groups : list gostring }.

(** [te_subject = None] is a refused token. *)
Record cacheEntry := { te_subject : option Subject; te_reason : gostring; te_expires : Time }.

(** [authv1.TokenReviewStatus]. *)
Record TokenReviewStatus := {
  trs_Authenticated : bool; trs_Error : gostring; trs_Audiences : list gostring;
  trs_Username : gostring; trs_UID : gostring; trs_Groups : list gostring }.

Inductive AuthError :=
| EmptyToken | ErrUnavailable (e : gostring) | Rejected (reason : gostring) | NotServiceAccount (username : gostring).

Record Authenticator (C : Type) := { au_audiences : list gostring; au_cache : option C; au_ttl : Duration }.
Arguments au_audiences {C} _. Arguments au_cache {C} _. Arguments au_ttl {C} _.

(** [exp_claim]: the [exp] member of a JSON object read as a float, whether it is
    positive, and its conversion to [int64]. *)
Class TokenText := {
  exp_claim : gostring → option (bool * Z);
  Unquote : gostring → option gostring }.

(** ** Reading tokens and answers *)

(** [time.Unix(0, 0)], counted from the zero [time.Time]. *)
Definition unixEpoch : Time := 62135596800 * Second.

Definition tokenExpiry `{TokenText} (token : gostring) : option Time :=
  match Split token "."%char with
  | [_; payload; _] =>
      match b64_Decode c_minus c_under (TrimRight payload c_eq) with
      | None => None
      | Some claims =>
          match exp_claim claims with
          | Some (true, secs) => Some (unixEpoch + secs * Second)
          | _ => None
          end
      end
  | _ => None
  end.

Definition hashToken `{Hashes} (t : gostring) : gostring := hex_Encode (Sum256 t).

Definition serviceAccountPrefix : gostring := "system:serviceaccount:".

(** [Some (namespace, name)]. *)
Definition parseServiceAccountUsername (u : gostring) : option (gostring * gostring) :=
  if negb (HasPrefix u serviceAccountPrefix) then None
  else match Cut (TrimPrefix u serviceAccountPrefix) ":"%char with
       | Some (ns, name) => if (ns == []) || (name == []) then None else Some (ns, name)
       | None => None
       end.

Definition audienceMatches (audiences got : list gostring) : bool :=
  existsb (λ g, existsb (λ want, g == want) audiences) got.

Definition audienceMessage (audiences got : list gostring) : gostring :=
  let want := default [] (head audiences) in
  let have := if (0 <? length got)%nat then lit "token audience is " ++ Join got (lit ", ") else lit "token has no audience" in
  have ++ lit ", expected " ++ Join audiences (lit " or ") ++ lit " (create the token with --audience " ++ want
  ++ lit ", or a projected token with audience: " ++ want ++ lit ")".

(** The text between the first [token audiences \[] that is followed by a bracket
    and the rest of the message ([kubeAudienceError]). *)
Definition audiencesOpen : gostring := "token audiences [".
Definition audiencesClose : gostring := " is invalid for the target audiences".
Fixpoint kubeAudienceError (msg : gostring) : option gostring :=
  match (if HasPrefix msg audiencesOpen then Cut (drop (length audiencesOpen) msg) "]"%char else None) with
  | Some (list_, rest) => if HasPrefix rest audiencesClose then Some list_
                          else match msg with [] => None | _ :: msg => kubeAudienceError msg end
  | None => match msg with [] => None | _ :: msg => kubeAudienceError msg end
  end.

Definition c_quote : ascii := "034".
Definition c_backslash : ascii := "\".

(** The rest of a quoted string, closing quote included; an escaped line end stops it. *)
Fixpoint quoted_tail (s : gostring) : option gostring :=
  match s with
  | [] => None
  | c :: t =>
      if Ascii.eqb c c_quote then Some [c]
      else if Ascii.eqb c c_backslash then
        match t with
        | d :: t => if Ascii.eqb d LF then None else r ← quoted_tail t; Some (c :: d :: r)
        | [] => None
        end
      else r ← quoted_tail t; Some (c :: r)
  end.

(** [quotedString.FindAllString], with fuel for each byte. *)
Fixpoint quotedStrings (fuel : nat) (s : gostring) : list gostring :=
  match fuel, s with
  | S fuel, c :: t =>
      if Ascii.eqb c c_quote then
        match quoted_tail t with
        | Some q => (c :: q) :: quotedStrings fuel (drop (length q) t)
        | None => quotedStrings fuel t
        end
      else quotedStrings fuel t
  | _, _ => []
  end.

Definition rejectedAudiences `{TokenText} (msg : gostring) : option (list gostring) :=
  list_ ← kubeAudienceError msg; Some (omap Unquote (quotedStrings (length list_) list_)).

(** ** The authenticator *)

Section authenticator.
Context `{Hashes, TokenText, LRUMap cacheEntry C}.

Definition NewAuthenticator (audiences : list gostring) (cacheSize : Z) (ttl : Duration) : res gostring (Authenticator C) :=
  match List.filter (λ aud, aud != []) (TrimSpace <$> audiences) with
  | [] => Err (lit "at least one token audience is required")
  | auds => Ok {| au_audiences := auds; au_cache := if 0 <? cacheSize then Some lm_empty else None; au_ttl := ttl |}
  end.

Definition set_cache (a : Authenticator C) (c : C) : Authenticator C :=
  {| au_audiences := au_audiences a; au_cache := Some c; au_ttl := au_ttl a |}.

(** [a.cache.Add], if there is a cache. *)
Definition remember (a : Authenticator C) (key : gostring) (e : cacheEntry) : Authenticator C :=
  match au_cache a with None => a | Some c => set_cache a (lm_Add key e c) end.

(** One call: the token, the clock when the cache is read, when the answer is there
    and when it is stored, and what the API server answers. *)
Record call := {
  ca_token : gostring; ca_now : Time; ca_answered : Time; ca_stored : Time;
  ca_review : gostring → list gostring → res gostring TokenReviewStatus }.

Definition reject (a : Authenticator C) (c : call) (key reason : gostring) : Authenticator C * res AuthError Subject :=
  (remember a key {| te_subject := None; te_reason := reason; te_expires := ca_answered c + au_ttl a |}, Err (Rejected reason)).

(** What an answer of the API server means. *)
Definition judge (audiences : list gostring) (st : TokenReviewStatus) : res AuthError Subject :=
  if negb (trs_Authenticated st) then
    let msg := if trs_Error st == [] then lit "token rejected by kube-apiserver" else trs_Error st in
    Err (Rejected match rejectedAudiences msg with Some got => audienceMessage audiences got | None => msg end)
  else if negb (audienceMatches audiences (trs_Audiences st)) then Err (Rejected (audienceMessage audiences (trs_Audiences st)))
  else match parseServiceAccountUsername (trs_Username st) with
       | None => Err (NotServiceAccount (trs_Username st))
       | Some (ns, sa) =>
           Ok {| sj_Namespace := ns; sj_ServiceAccount := sa; sj_UID := trs_UID st;
                 sj_Audiences := trs_Audiences st; sj_Groups := trs_Groups st |}
       end.

(** How long an accepted token is remembered. *)
Definition accept_until (ttl : Duration) (token : gostring) (answered : Time) : Time :=
  match tokenExpiry token with
  | Some exp => if exp <? answered + ttl then exp else answered + ttl
  | None => answered + ttl
  end.

(** The part of [Authenticate] after the cache; the second component says whether
    the API server was asked. *)
Definition askReview (a : Authenticator C) (c : call) (token key : gostring) : Authenticator C * bool * res AuthError Subject :=
  match ca_review c token (au_audiences a) with
  | Err e => (a, true, Err (ErrUnavailable e))
  | Ok st =>
      match judge (au_audiences a) st with
      | Err (Rejected reason) => let '(a, r) := reject a c key reason in (a, true, r)
      | Err e => (a, true, Err e)
      | Ok subj =>
          let expires := accept_until (au_ttl a) token (ca_answered c) in
          (if ca_stored c <? expires
           then remember a key {| te_subject := Some subj; te_reason := []; te_expires := expires |} else a,
           true, Ok subj)
      end
  end.

Definition lookupToken (a : Authenticator C) (key : gostring) : Authenticator C * option cacheEntry :=
  match au_cache a with
  | None => (a, None)
  | Some m => let '(e, m) := lm_Get key m in (set_cache a m, e)
  end.

Definition Authenticate (a : Authenticator C) (c : call) : Authenticator C * bool * res AuthError Subject :=
  let token := TrimSpace (ca_token c) in
  if token == [] then (a, false, Err EmptyToken)
  else
    let key := hashToken token in
    let '(a, hit) := lookupToken a key in
    match hit with
    | Some e => if ca_now c <? te_expires e
                then (a, false, match te_subject e with None => Err (Rejected (te_reason e)) | Some s => Ok s end)
                else askReview a c token key
    | None => askReview a c token key
    end.
End authenticator.

(** ** Facts *)

Section facts.
Context `{Hashes, TokenText, LRUMapLaws cacheEntry C cap}.

Definition answer (e : cacheEntry) : res AuthError Subject :=
  match te_subject e with None => Err (Rejected (te_reason e)) | Some s => Ok s end.

(** [e] is what the API server answered in the call [c], and expires in time. *)
Record told (auds : list gostring) (ttl : Duration) (key : gostring) (e : cacheEntry) (c : call) : Prop := {
  td_token : TrimSpace (ca_token c) ≠ [];
  td_key : hashToken (TrimSpace (ca_token c)) = key;
  td_answer : ∃ st, ca_review c (TrimSpace (ca_token c)) auds = Ok st ∧ judge auds st = answer e;
  td_ttl : te_expires e ≤ ca_answered c + ttl;
  td_expiry : is_Some (te_subject e) → ∀ exp, tokenExpiry (TrimSpace (ca_token c)) = Some exp → te_expires e ≤ exp }.

(** Every remembered answer was given in one of the calls [cs]. *)
Definition remembers (cs : list call) (a : Authenticator C) : Prop :=
  ∀ m k e, au_cache a = Some m → lm_content m !! k = Some e → ∃ c, c ∈ cs ∧ told (au_audiences a) (au_ttl a) k e c.

Lemma remembers_add (cs : list call) (a : Authenticator C) (c : call) (k : gostring) (e : cacheEntry) :
  remembers cs a → told (au_audiences a) (au_ttl a) k e c → remembers (c :: cs) (remember a k e).
Proof.
  intros Ha Hc m k' e'. unfold remember. destruct (au_cache a) as [m0|] eqn:E; [|congruence]. simpl. intros [= <-] Hk.
  pose proof (lookup_weaken _ _ _ _ Hk (lm_Add_sub k e m0)) as [[<- <-]|[_ Hold]]%lookup_insert_Some.
  - exists c. split; [left|done].
  - destruct (Ha m0 k' e' E Hold) as (c' & ? & ?). exists c'. split; [by right|done].
Qed.

Lemma remembers_more (cs : list call) (a : Authenticator C) (c : call) : remembers cs a → remembers (c :: cs) a.
Proof. intros Ha m k e Hm Hk. destruct (Ha m k e Hm Hk) as (c' & ? & ?). exists c'. split; [by right|done]. Qed.

Lemma accept_until_le (ttl : Duration) (token : gostring) (answered : Time) :
  accept_until ttl token answered ≤ answered + ttl ∧
  ∀ exp, tokenExpiry token = Some exp → accept_until ttl token answered ≤ exp.
Proof.
  unfold accept_until. destruct (tokenExpiry token) as [exp|]; [|split; [lia|done]].
  destruct (Z.ltb_spec exp (answered + ttl)); split; try lia; intros ? [= <-]; lia.
Qed.

(** Where the answer of a call came from. *)
Inductive source (cs : list call) (a : Authenticator C) (c : call) : bool → res AuthError Subject → Prop :=
| from_nowhere : TrimSpace (ca_token c) = [] → source cs a c false (Err EmptyToken)
| from_failure e : TrimSpace (ca_token c) ≠ [] → ca_review c (TrimSpace (ca_token c)) (au_audiences a) = Err e →
    source cs a c true (Err (ErrUnavailable e))
| from_review st : TrimSpace (ca_token c) ≠ [] → ca_review c (TrimSpace (ca_token c)) (au_audiences a) = Ok st →
    source cs a c true (judge (au_audiences a) st)
| from_cache c' e : TrimSpace (ca_token c) ≠ [] → c' ∈ cs →
    told (au_audiences a) (au_ttl a) (hashToken (TrimSpace (ca_token c))) e c' →
    ca_now c < te_expires e → source cs a c false (answer e).

(** [b] is [a] with another cache, all of whose answers come from [cs]. *)
Definition carries (cs : list call) (a b : Authenticator C) : Prop :=
  au_audiences b = au_audiences a ∧ au_ttl b = au_ttl a ∧ remembers cs b.

Lemma lookupToken_spec (cs : list call) (a : Authenticator C) (key : gostring) :
  remembers cs a →
  carries cs a (fst (lookupToken a key)) ∧
  ∀ e, snd (lookupToken a key) = Some e → ∃ c, c ∈ cs ∧ told (au_audiences a) (au_ttl a) key e c.
Proof.
  intros Ha. unfold lookupToken. destruct (au_cache a) as [m|] eqn:E; [|by repeat split].
  pose proof (lm_Get_content key m) as Hg. pose proof (lm_Get_same key m) as Hs. destruct (lm_Get key m) as [e m']. simpl in *.
  split; [split; [done|split; [done|]]|].
  - intros m1 k e1 [= <-]. rewrite Hs. by apply Ha.
  - intros e1 ->. symmetry in Hg. by apply (Ha m).
Qed.

Lemma remember_carries (cs : list call) (a b : Authenticator C) (c : call) (e : cacheEntry) (st : TokenReviewStatus) :
  TrimSpace (ca_token c) ≠ [] → carries cs a b →
  ca_review c (TrimSpace (ca_token c)) (au_audiences a) = Ok st → judge (au_audiences a) st = answer e →
  te_expires e ≤ ca_answered c + au_ttl a →
  (is_Some (te_subject e) → ∀ exp, tokenExpiry (TrimSpace (ca_token c)) = Some exp → te_expires e ≤ exp) →
  carries (c :: cs) a (remember b (hashToken (TrimSpace (ca_token c))) e).
Proof.
  intros Ht (Haud & Httl & Hb) Hr Hj Hu1 Hu2. unfold carries. rewrite <- Haud, <- Httl.
  split; [|split]; [unfold remember; by destruct (au_cache b)..|]. apply remembers_add; [done|].
  rewrite Haud, Httl. split; eauto.
Qed.

Lemma askReview_spec (cs : list call) (a b : Authenticator C) (c : call) :
  TrimSpace (ca_token c) ≠ [] → carries cs a b →
  let '(a', asked, r) := askReview b c (TrimSpace (ca_token c)) (hashToken (TrimSpace (ca_token c))) in
  carries (c :: cs) a a' ∧ source cs a c asked r.
Proof.
  intros Ht Hb. assert (carries (c :: cs) a b) as Hmore by (destruct Hb as (? & ? & ?); split_and!; auto using remembers_more).
  unfold askReview. assert (au_audiences b = au_audiences a ∧ au_ttl b = au_ttl a) as [-> ->] by (destruct Hb; naive_solver).
  destruct (ca_review c _ _) as [st|e] eqn:Er; [|split; [done|by eapply from_failure]].
  pose proof (from_review cs a c st Ht Er) as Hsrc.
  destruct (judge (au_audiences a) st) as [subj|[|e|reason|u]] eqn:Ej; try (split; [exact Hmore|exact Hsrc]).
  - destruct (accept_until_le (au_ttl a) (TrimSpace (ca_token c)) (ca_answered c)) as [Hu1 Hu2].
    destruct (ca_stored c <? _); split; try done. eapply remember_carries; eauto.
  - split; [|done]. eapply remember_carries; [done|done|done|done| |by intros [? ?]].
    simpl. destruct Hb as (_ & -> & _). lia.
Qed.

Lemma Authenticate_spec (cs : list call) (a : Authenticator C) (c : call) :
  remembers cs a →
  let '(a', asked, r) := Authenticate a c in carries (c :: cs) a a' ∧ source cs a c asked r.
Proof.
  intros Ha. unfold Authenticate. destruct (bool_decide_reflect (TrimSpace (ca_token c) = [])) as [Ht|Ht].
  { split; [|by constructor]. split_and!; auto using remembers_more. }
  set (key := hashToken (TrimSpace (ca_token c))). pose proof (lookupToken_spec cs a key Ha) as [Hb Hhit].
  destruct (lookupToken a key) as [b hit]. simpl in *. pose proof (askReview_spec cs a b c Ht Hb) as Hask. fold key in Hask.
  destruct hit as [e|]; [|exact Hask]. destruct (Z.ltb_spec (ca_now c) (te_expires e)); [|exact Hask].
  split; [destruct Hb as (? & ? & ?); split_and!; auto using remembers_more|].
  destruct (Hhit e eq_refl) as (c' & ? & ?). by eapply from_cache.
Qed.

(** ** Runs *)

(** The authenticator after the calls [cs]. *)
Definition after_calls (cs : list call) (a : Authenticator C) : Authenticator C :=
  foldl (λ a c, fst (fst (Authenticate a c))) a cs.

Lemma after_calls_carries (cs : list call) (a : Authenticator C) (seen : list call) :
  remembers seen a → carries (reverse cs ++ seen) a (after_calls cs a).
Proof.
  revert a seen. induction cs as [|c cs IH]; intros a seen Ha; [by repeat split|]. simpl. rewrite reverse_cons, <- (assoc_L (++)).
  pose proof (Authenticate_spec seen a c Ha) as Hs. destruct (Authenticate a c) as [[a' asked] r]. simpl.
  destruct Hs as [(Haud & Httl & Ha') _]. destruct (IH a' (c :: seen) Ha') as (? & ? & ?). split_and!; [simpl; congruence..|done].
Qed.

Lemma new_remembers (audiences : list gostring) (size : Z) (ttl : Duration) (a : Authenticator C) :
  NewAuthenticator audiences size ttl = Ok a →
  remembers [] a ∧ au_ttl a = ttl ∧ au_audiences a ≠ [] ∧ ∀ x, x ∈ au_audiences a → x ≠ [] ∧ x ∈ TrimSpace <$> audiences.
Proof.
  unfold NewAuthenticator. destruct (List.filter _ _) as [|x l] eqn:E; [done|]. intros [= <-].
  split; [|split; [done|split; [done|]]].
  - intros m k e. simpl. destruct (0 <? size); intros [= <-]. by rewrite lm_empty_content, lookup_empty.
  - simpl. rewrite <- E. intros y [Hy Hn]%list_elem_of_In%List.filter_In. apply negb_true_iff, bool_decide_eq_false in Hn.
    split; [done|]. by apply list_elem_of_In.
Qed.

(** The caller in an accepted token: [u] names a ServiceAccount. *)
Lemma parseServiceAccountUsername_iff (u ns sa : gostring) :
  parseServiceAccountUsername u = Some (ns, sa) ↔
  u = serviceAccountPrefix ++ ns ++ lit ":" ++ sa ∧ ns ≠ [] ∧ sa ≠ [] ∧ ":"%char ∉ ns.
Proof.
  unfold parseServiceAccountUsername. split.
  - destruct (HasPrefix u serviceAccountPrefix) eqn:E; [|done]. pose proof (proj1 (HasPrefix_spec _ _) E) as [t ->]. cbn [negb].
    unfold TrimPrefix. rewrite E, drop_app_length.
    destruct (Cut t ":") as [[x y]|] eqn:Ec; [|done]. apply Cut_Some in Ec as [-> Hx].
    destruct (bool_decide_reflect (x = [])), (bool_decide_reflect (y = [])); simpl; try done. intros [= <- <-]. done.
  - intros (-> & Hns & Hsa & Hc). unfold TrimPrefix.
    assert (HasPrefix (serviceAccountPrefix ++ ns ++ lit ":" ++ sa) serviceAccountPrefix = true) as -> by (apply HasPrefix_spec; eauto).
    cbn [negb]. rewrite drop_app_length.
    assert (Cut (ns ++ lit ":" ++ sa) ":" = Some (ns, sa)) as -> by (by apply Cut_Some).
    by rewrite !bool_decide_false.
Qed.

Lemma judge_Ok (auds : list gostring) (st : TokenReviewStatus) (subj : Subject) :
  judge auds st = Ok subj →
  trs_Authenticated st = true ∧ (∃ aud, aud ∈ trs_Audiences st ∧ aud ∈ auds) ∧
  parseServiceAccountUsername (trs_Username st) = Some (sj_Namespace subj, sj_ServiceAccount subj).
Proof.
  unfold judge. destruct (trs_Authenticated st); [|done]. cbn [negb]. destruct (audienceMatches _ _) eqn:Em; [|done].
  cbn [negb]. destruct (parseServiceAccountUsername _) as [[ns sa]|]; [|done]. intros [= <-]. split; [done|]. split; [|done].
  apply existsb_exists in Em as (aud & Hin & (want & Hw & ->%bool_decide_eq_true)%existsb_exists).
  exists want. by rewrite !list_elem_of_In.
Qed.

(** The API server vouched for [subj] when [c] asked, after the calls [cs]. *)
Definition vouched (audiences : list gostring) (ttl : Duration) (a : Authenticator C) (cs : list call) (c : call) (subj : Subject) : Prop :=
  ∃ c' st aud,
    (c' = c ∨ c' ∈ cs ∧ ca_now c < ca_answered c' + ttl ∧
      ∀ exp, tokenExpiry (TrimSpace (ca_token c')) = Some exp → ca_now c < exp) ∧
    hashToken (TrimSpace (ca_token c')) = hashToken (TrimSpace (ca_token c)) ∧
    ca_review c' (TrimSpace (ca_token c')) (au_audiences a) = Ok st ∧ trs_Authenticated st = true ∧
    aud ∈ trs_Audiences st ∧ aud ∈ TrimSpace <$> audiences ∧ aud ≠ [] ∧
    trs_Username st = serviceAccountPrefix ++ sj_Namespace subj ++ lit ":" ++ sj_ServiceAccount subj ∧
    sj_Namespace subj ≠ [] ∧ sj_ServiceAccount subj ≠ [] ∧ ":"%char ∉ sj_Namespace subj.

Lemma Authenticate_vouched (audiences : list gostring) (size : Z) (ttl : Duration) (a : Authenticator C)
    (cs : list call) (c : call) (subj : Subject) :
  NewAuthenticator audiences size ttl = Ok a → snd (Authenticate (after_calls cs a) c) = Ok subj →
  vouched audiences ttl a cs c subj.
Proof.
  intros (Ha & Httl & _ & Haud)%new_remembers Hr. destruct (after_calls_carries cs a [] Ha) as (Hb1 & Hb2 & Hb).
  pose proof (Authenticate_spec _ _ c Hb) as Hs. destruct (Authenticate (after_calls cs a) c) as [[a' asked] r].
  destruct Hs as [_ Hs]. simpl in Hr. subst r.
  assert (∃ c' st, judge (au_audiences a) st = Ok subj ∧ ca_review c' (TrimSpace (ca_token c')) (au_audiences a) = Ok st ∧
    (c' = c ∨ c' ∈ cs ∧ ca_now c < ca_answered c' + ttl ∧
      ∀ exp, tokenExpiry (TrimSpace (ca_token c')) = Some exp → ca_now c < exp) ∧
    hashToken (TrimSpace (ca_token c')) = hashToken (TrimSpace (ca_token c))) as (c' & st & Hj & Hrev & Hc' & Hkey).
  { inversion Hs as [| |st Ht Hrev Hask Hj|c' e Ht Hin [Ht' Hkey (st & Hrev & Hj) Hu1 Hu2] Hlt Hask He]; subst; rewrite ?Hb1, ?Hb2 in *.
    - exists c, st. auto.
    - rewrite app_nil_r, elem_of_reverse in Hin. exists c', st. split; [congruence|]. split; [done|]. split; [|done]. right.
      split; [done|]. split; [lia|]. intros exp Hexp. assert (is_Some (te_subject e)) as Hsome
        by (unfold answer in He; destruct (te_subject e); [by eexists|discriminate]). specialize (Hu2 Hsome exp Hexp). lia. }
  apply judge_Ok in Hj as (Hauth & (aud & Hin & Hours) & Hu). apply parseServiceAccountUsername_iff in Hu as (? & ? & ? & ?).
  destruct (Haud _ Hours). exists c', st, aud. split_and!; done.
Qed.

(** C31. Whoever is let in was let in by the API server: an accepted token - over any
    history of calls - has the same SHA-256 as one the API server authenticated for one
    of the configured audiences, in this call or in one less than the cache's lifetime
    ago and before the token's own expiry; and the caller's namespace and name are the
    ones of the ServiceAccount the API server named. *)
Theorem accepted_token_reviewed (audiences : list gostring) (size : Z) (ttl : Duration) (a : Authenticator C)
    (cs : list call) (c : call) (subj : Subject) :
  NewAuthenticator audiences size ttl = Ok a → snd (Authenticate (after_calls cs a) c) = Ok subj →
  ∃ c' st aud,
    (c' = c ∨ c' ∈ cs ∧ ca_now c < ca_answered c' + ttl ∧
      ∀ exp, tokenExpiry (TrimSpace (ca_token c')) = Some exp → ca_now c < exp) ∧
    hashToken (TrimSpace (ca_token c')) = hashToken (TrimSpace (ca_token c)) ∧
    ca_review c' (TrimSpace (ca_token c')) (au_audiences a) = Ok st ∧ trs_Authenticated st = true ∧
    aud ∈ trs_Audiences st ∧ aud ∈ TrimSpace <$> audiences ∧ aud ≠ [] ∧
    trs_Username st = serviceAccountPrefix ++ sj_Namespace subj ++ lit ":" ++ sj_ServiceAccount subj ∧
    sj_Namespace subj ≠ [] ∧ sj_ServiceAccount subj ≠ [] ∧ ":"%char ∉ sj_Namespace subj.
Proof. apply Authenticate_vouched. Qed.

(** An answer is asked for once: while the cache has room, the same token gets the
    same answer until the lifetime is over - for an accepted one also not past its own
    expiry - without another review. *)
Theorem answer_asked_once (a a' : Authenticator C) (m : C) (c c2 : call) (r : res AuthError Subject) :
  au_cache a = Some m → (size (lm_content m) < cap)%nat →
  Authenticate a c = (a', true, r) → TrimSpace (ca_token c2) = TrimSpace (ca_token c) →
  ca_stored c ≤ ca_now c2 →
  ca_now c2 < match r with Ok _ => accept_until (au_ttl a) (TrimSpace (ca_token c)) (ca_answered c) | Err _ => ca_answered c + au_ttl a end →
  match r with Ok _ | Err (Rejected _) => True | _ => False end →
  snd (fst (Authenticate a' c2)) = false ∧ snd (Authenticate a' c2) = r.
Proof.
  intros Hm Hroom Hr Htok Hord Hexp Hkind.
  assert (∃ m' e, au_cache a' = Some (lm_Add (hashToken (TrimSpace (ca_token c))) e m') ∧ lm_content m' = lm_content m ∧
    answer e = r ∧ ca_now c2 < te_expires e ∧ TrimSpace (ca_token c) ≠ []) as (m' & e & Ha' & Hm' & He & Hlt & Ht).
  { revert Hr. unfold Authenticate, lookupToken. rewrite Hm. destruct (bool_decide_reflect (TrimSpace (ca_token c) = [])) as [|Ht]; [done|].
    set (k := hashToken (TrimSpace (ca_token c))). pose proof (lm_Get_same k m) as Hs. destruct (lm_Get k m) as [hit m']. simpl in Hs.
    assert (askReview (set_cache a m') c (TrimSpace (ca_token c)) k = (a', true, r) → ∃ m' e, au_cache a' = Some (lm_Add k e m') ∧
      lm_content m' = lm_content m ∧ answer e = r ∧ ca_now c2 < te_expires e ∧ TrimSpace (ca_token c) ≠ []) as Hask.
    { unfold askReview, set_cache. cbn [au_audiences au_ttl]. destruct (ca_review c _ _) as [st|]; [|intros [= _ <-]; done].
      destruct (judge _ st) as [subj|[|x|reason|u]]; try (intros [= _ <-]; done).
      - intros [= Ea <-]. rewrite (proj2 (Z.ltb_lt _ _)) in Ea by (simpl in Hexp; lia). subst a'. simpl.
        exists m', {| te_subject := Some subj; te_reason := []; te_expires := accept_until (au_ttl a) (TrimSpace (ca_token c)) (ca_answered c) |}. done.
      - intros [= <- <-]. simpl.
        exists m', {| te_subject := None; te_reason := reason; te_expires := ca_answered c + au_ttl a |}. done. }
    destruct hit as [x|]; [destruct (_ <? _); [done|]|]; exact Hask. }
  unfold Authenticate, lookupToken. rewrite Htok, bool_decide_false, Ha' by done.
  set (k := hashToken (TrimSpace (ca_token c))) in *. pose proof (lm_Get_content k (lm_Add k e m')) as Hg.
  rewrite lm_Add_content, lookup_insert_eq in Hg by (right; by rewrite Hm'). destruct (lm_Get k _) as [hit m2]. simpl in Hg. subst hit.
  rewrite (proj2 (Z.ltb_lt _ _)) by done. split; [done|exact He].
Qed.
End facts.

Module TokenExample.
Definition no_expiry : TokenText := {| exp_claim := λ _, None; Unquote := Some |}.
#[local] Existing Instances toy_hashes no_expiry map_cache.
#[local] Hint Extern 0 (LRUMapLaws _ _ _) => exact (map_cache_laws 4096) : typeclass_instances.

Definition status (username : gostring) : TokenReviewStatus := {|
  trs_Authenticated := true; trs_Error := []; trs_Audiences := [lit "sigillum"]; trs_Username := username; trs_UID := "u1"; trs_Groups := [] |}.
(** The API server knows one token, and is out of reach from the fourth minute on. *)
Definition at_time (t : Time) (token : gostring) : call := {|
  ca_token := token; ca_now := t; ca_answered := t; ca_stored := t;
  ca_review := λ tok _, if 4 * Minute <=? t then Err (lit "timeout")
                        else Ok (if tok == lit "good" then status "system:serviceaccount:team:app"
                                 else {| trs_Authenticated := false; trs_Error := []; trs_Audiences := []; trs_Username := []; trs_UID := [];
                                         trs_Groups := [] |}) |}.
Definition a : Authenticator (gmap gostring cacheEntry) :=
  {| au_audiences := [lit "sigillum"]; au_cache := Some lm_empty; au_ttl := 5 * Minute |}.
Definition app : Subject := {|
  sj_Namespace := "team"; sj_ServiceAccount := "app"; sj_UID := "u1"; sj_Audiences := [lit "sigillum"]; sj_Groups := [] |}.

Lemma accepted_token_reviewed_witness :
  ∃ c' st aud,
    (c' = at_time (4 * Minute) "good" ∨ c' ∈ [at_time 0 "good"] ∧ ca_now (at_time (4 * Minute) "good") < ca_answered c' + 5 * Minute ∧
      ∀ exp, tokenExpiry (TrimSpace (ca_token c')) = Some exp → ca_now (at_time (4 * Minute) "good") < exp) ∧
    hashToken (TrimSpace (ca_token c')) = hashToken (TrimSpace (ca_token (at_time (4 * Minute) "good"))) ∧
    ca_review c' (TrimSpace (ca_token c')) (au_audiences a) = Ok st ∧ trs_Authenticated st = true ∧
    aud ∈ trs_Audiences st ∧ aud ∈ TrimSpace <$> [lit " sigillum "] ∧ aud ≠ [] ∧
    trs_Username st = serviceAccountPrefix ++ sj_Namespace app ++ lit ":" ++ sj_ServiceAccount app ∧
    sj_Namespace app ≠ [] ∧ sj_ServiceAccount app ≠ [] ∧ ":"%char ∉ sj_Namespace app.
Proof.
  apply (accepted_token_reviewed [lit " sigillum "] 16 (5 * Minute) a [at_time 0 "good"]); [reflexivity|].
  match goal with |- ?a = ?b => exact (eq_refl b <: a = b) end.
Defined.

Lemma answer_asked_once_witness :
  let a' := fst (fst (Authenticate a (at_time 0 "bad"))) in
  snd (fst (Authenticate a' (at_time Minute "bad"))) = false ∧
  snd (Authenticate a' (at_time Minute "bad")) = Err (Rejected "token rejected by kube-apiserver").
Proof.
  cbv zeta. eapply (answer_asked_once a _ lm_empty (at_time 0 "bad")); [reflexivity|simpl; rewrite map_size_empty; lia| |reflexivity|done|done|done].
  match goal with |- ?a = ?b => exact (eq_refl b <: a = b) end.
Defined.
End TokenExample.
