(* ===== verification/HttpRequest.v ===== *)
(** * Requests of the HTTP API ([internal/apiserver/messages.go])

    The message a client posts, as JSON or as multipart/form-data: how it is decoded,
    and what is checked before the send pipeline sees it.  [encoding/json] and
    [mime/multipart] are parameters; the order in which Go ranges over a map is the
    parameter [MapOrder]. *)

From S2P Require Import Prelude GoStrings Types Address Driver Credential MailParse MimeText MimeMessage.

(** ** Data *)

Record requestBodyContent := { rbc_Text : gostring; rbc_HTML : gostring }.

Record requestAttachment := {
  ra_Filename : gostring; ra_ContentType : gostring; ra_Disposition : gostring; ra_ContentID : gostring;
  ra_ContentBase64 : gostring }.

Record requestBody := {
  rb_From : gostring; rb_To : list gostring; rb_Cc : list gostring; rb_Bcc : list gostring; rb_Subject : gostring;
  rb_Body : requestBodyContent; rb_Attachments : list requestAttachment; rb_Headers : gmap gostring gostring;
  rb_ContentIDs : gmap gostring gostring }.

Definition emptyRequest : requestBody := {|
  rb_From := []; rb_To := []; rb_Cc := []; rb_Bcc := []; rb_Subject := []; rb_Body := {| rbc_Text := []; rbc_HTML := [] |};
  rb_Attachments := []; rb_Headers := ∅; rb_ContentIDs := ∅ |}.

(** ** encoding/json *)

(** The kinds of Go types the code tells apart. *)
Inductive Kind := KString | KSlice | KMap | KStruct | KOther (name : gostring).

Record UnmarshalTypeError := { ute_Field : gostring; ute_Kind : Kind; ute_Value : gostring }.

Inductive JSONError := JSONEOF | JSONTypeError (te : UnmarshalTypeError) | JSONOther (msg : gostring).

(** [Decoder.Decode] of a text into a map of raw members ([None] is [null]; of the
    members only the names are used) and, without unknown fields, into the request;
    and whether only blanks follow the first value. *)
Class JSONDecoder := {
  DecodeTop : gostring → res JSONError (option (gset gostring));
  DecodeRequest : gostring → res JSONError requestBody;
  DecodedAll : gostring → bool }.

(** The order of a [range] over a map. *)
Class MapOrder := { RangeOrder : gmap gostring gostring → list (gostring * gostring) }.
Class MapOrderLaws `{MapOrder} := { RangeOrder_perm : ∀ m, RangeOrder m ≡ₚ map_to_list m }.

(** ** Errors *)

Inductive PayloadError :=
| Message_ (msg : gostring)
| errBodyTooLarge
| UnknownField (k : gostring) (hint : option gostring)
| TypeMismatch (path want got : gostring)
| AddressUnparsable (s : gostring) | AddressListUnparsable (err : gostring)
| AddressRefused (e : MailboxError) | AddressText (e : HeaderError)
| ContentIDRefused (e : ContentIDError)
| InPart (where_ : gostring) (e : PayloadError).

(** ** Decoding *)

(** The JSON names of [requestBody]'s fields, lower-cased. *)
Definition requestFields : list gostring :=
  [lit "from"; lit "to"; lit "cc"; lit "bcc"; lit "subject"; lit "body"; lit "attachments"; lit "headers"; lit "contentids"].

Definition misplacedFields (k : gostring) : option gostring :=
  let quoted name := lit "headers[" ++ [c_quote] ++ lit name ++ [c_quote] ++ lit "]" in
  if k == lit "text" then Some (lit "body.text")
  else if k == lit "html" then Some (lit "body.html")
  else if (k == lit "replyto") || (k == lit "reply_to") then Some (quoted "Reply-To"%string)
  else if k == lit "sender" then Some (quoted "Sender"%string)
  else None.

Definition fieldTypes (k : gostring) : option gostring :=
  if bool_decide (k ∈ [lit "to"; lit "cc"; lit "bcc"]) then Some (lit "an array of addresses (strings)")
  else if bool_decide (k ∈ [lit "to[]"; lit "cc[]"; lit "bcc[]"]) then Some (lit "an address (string)")
  else if k == lit "body" then Some (lit "an object with text and/or html")
  else if k == lit "attachments" then Some (lit "an array of attachment objects")
  else if k == lit "headers" then Some (lit "an object of header names to string values")
  else None.

(** The path of a type error as the client sees it, and as a key of [fieldTypes]. *)
Fixpoint type_path (first : bool) (segs : list gostring) (path key : gostring) : gostring * gostring :=
  match segs with
  | [] => (path, key)
  | seg :: segs =>
      if bool_decide (is_Some (ParseInt64 seg)) && negb first && (key != lit "headers")
      then type_path false segs (path ++ lit "[" ++ seg ++ lit "]") (key ++ lit "[]")
      else let dot := if first then [] else lit "." in
           type_path false segs (path ++ dot ++ seg) (key ++ dot ++ seg)
  end.

Definition jsonTypeError (te : UnmarshalTypeError) : PayloadError :=
  if ute_Field te == [] then Message_ "the payload must be a JSON object"
  else
    let '(path, key) := type_path true (Split (ute_Field te) "."%char) [] [] in
    let want := match fieldTypes key with
                | Some w => w
                | None => match ute_Kind te with
                          | KString => lit "a string"
                          | KSlice => lit "an array"
                          | KMap | KStruct => lit "an object"
                          | KOther name => lit "a " ++ name
                          end
                end in
    let got := if (ute_Value te == lit "array") || (ute_Value te == lit "object") then lit "an " ++ ute_Value te
               else if negb (HasPrefix (ute_Value te) (lit "number ")) then lit "a " ++ ute_Value te
               else ute_Value te in
    TypeMismatch path want got.

Section request.
Context `{JSONDecoder, UnicodeTables, MapOrder, AddressParser, MailReader, MediaTypes}.

Definition decodeOneJSON {A} (decode : gostring → res JSONError A) (data : gostring) : res PayloadError A :=
  match decode data with
  | Err JSONEOF => Err (Message_ "empty JSON payload")
  | Err (JSONTypeError te) => Err (jsonTypeError te)
  | Err (JSONOther msg) => Err (Message_ msg)
  | Ok v => if DecodedAll data then Ok v else Err (Message_ "unexpected data after the JSON object")
  end.

(** The first key, in order, that names no field. *)
Definition unknownField (keys : list gostring) : option gostring :=
  List.find (λ k, negb (bool_decide (ToLower k ∈ requestFields))) keys.

Definition decodeRequestJSON (data : gostring) : res PayloadError requestBody :=
  let! top := decodeOneJSON DecodeTop data in
  match top with
  | None => Err (Message_ "the payload must be a JSON object")
  | Some names =>
      match unknownField (SliceStable str_ltb (elements names)) with
      | Some k => Err (UnknownField k (misplacedFields (ToLower k)))
      | None => decodeOneJSON DecodeRequest data
      end
  end.

(** [base64.StdEncoding.DecodeString]: groups of four, padded, line breaks skipped. *)
Definition Std_Decode (s : gostring) : option gostring :=
  let t := List.filter (λ c, negb (Ascii.eqb c CR || Ascii.eqb c LF)) s in
  let v := TrimRight t c_eq in
  if (length t `mod` 4 =? 0)%nat && (length t - length v <=? 2)%nat then b64_Decode c_plus c_slash v else None.

Definition decodeAttachment (a : requestAttachment) : res PayloadError Attachment :=
  match Std_Decode (ra_ContentBase64 a) with
  | None => Err (InPart (ra_Filename a) (Message_ "illegal base64 data"))
  | Some raw => Ok {| at_Filename := ra_Filename a; at_ContentType := ra_ContentType a; at_Disposition := ra_Disposition a;
                      at_ContentID := ra_ContentID a; at_Content := raw |}
  end.
Definition decodeAttachments (l : list requestAttachment) : res PayloadError (list Attachment) := res_mapM decodeAttachment l.

(** ** Checks *)

Definition injectionChars : gostring := [CR; LF; NUL].

(** U+202A to 202E, U+2066 to 2069, U+200E and U+200F. *)
Definition bidiOrFormatControl (r : Z) : bool :=
  ((8234 <=? r) && (r <=? 8238)) || ((8294 <=? r) && (r <=? 8297)) || (r =? 8206) || (r =? 8207).
Definition firstBidiOrFormatControl (s : gostring) : Z := default 0 (List.find bidiOrFormatControl (runes s)).

Definition validateAttachmentMeta (a : requestAttachment) : res PayloadError unit :=
  if ContainsAny (ra_Filename a) injectionChars then Err (Message_ "filename contains CR, LF, or NUL")
  else if negb (firstBidiOrFormatControl (ra_Filename a) =? 0) then Err (Message_ "filename contains a Unicode control")
  else if ContainsAny (ra_ContentType a) injectionChars then Err (Message_ "contentType contains CR, LF, or NUL")
  else if (TrimSpace (ra_ContentType a) != []) && bool_decide (ParseMedia (ra_ContentType a) = None)
  then Err (Message_ "contentType is not a valid media type")
  else if (ra_Disposition a != []) && negb (EqualFold (ra_Disposition a) (lit "attachment"))
          && negb (EqualFold (ra_Disposition a) (lit "inline"))
  then Err (Message_ "disposition must be attachment or inline")
  else if ra_ContentID a != [] then
    if negb (EqualFold (ra_Disposition a) (lit "inline")) then Err (Message_ "contentId needs disposition inline")
    else match ValidateContentID (ra_ContentID a) with Err e => Err (ContentIDRefused e) | Ok _ => Ok () end
  else Ok ().

(** The first attachment refused, with its index. *)
Fixpoint checkAttachments (i : nat) (l : list requestAttachment) : res (nat * PayloadError) unit :=
  match l with
  | [] => Ok ()
  | a :: l => match validateAttachmentMeta a with Err e => Err (i, e) | Ok _ => checkAttachments (S i) l end
  end.

Fixpoint uniqueContentIDs (seen : list gostring) (atts : list Attachment) : res PayloadError unit :=
  match atts with
  | [] => Ok ()
  | a :: atts =>
      if at_ContentID a == [] then uniqueContentIDs seen atts
      else let k := ToLower (at_ContentID a) in
           if bool_decide (k ∈ seen) then Err (Message_ "content ID is used by more than one attachment")
           else uniqueContentIDs (k :: seen) atts
  end.

Fixpoint validateHeaders (seen : list gostring) (h : list (gostring * gostring)) : res PayloadError unit :=
  match h with
  | [] => Ok ()
  | (k, v) :: h =>
      if ContainsAny k injectionChars then Err (Message_ "header key contains CR, LF, or NUL")
      else if ContainsAny v injectionChars then Err (Message_ "header value contains CR, LF, or NUL")
      else if (maxHeaderLine <? length k + 2 + length v)%nat then Err (Message_ "header line exceeds 998 characters")
      else let ck := CanonicalMIMEHeaderKey k in
           if bool_decide (ck ∈ seen) then Err (Message_ "header given more than once")
           else if HasPrefix ck (lit "Resent-") then Err (Message_ "header is not allowed")
           else validateHeaders (ck :: seen) h
  end.
Definition validateRequestHeaders (h : gmap gostring gostring) : res PayloadError unit := validateHeaders [] (RangeOrder h).

Definition parseAddress (s : gostring) : res PayloadError Address :=
  match ParseAddress (TrimSpace s) with
  | None => Err (AddressUnparsable s)
  | Some (name, addr) =>
      match ValidateMailbox addr with
      | Err e => Err (AddressRefused e)
      | Ok _ => Ok {| a_Name := name; a_Address := addr |}
      end
  end.
Definition parseAddressList (l : list gostring) : res PayloadError (list Address) := res_mapM parseAddress l.

(** The text of an address field must not suggest more addresses than it has. *)
Definition addressText (v : gostring) (n : Z) : res PayloadError unit :=
  match ValidateAddressHeader v n with Err e => Err (AddressText e) | Ok _ => Ok () end.

Definition senderHeader (v : gostring) : res PayloadError gostring :=
  let! a := parseAddress v in let! _ := addressText v 1 in Ok (a_Address a).

Definition replyToHeader (v : gostring) : res PayloadError (list gostring) :=
  match ParseAddressList v with
  | Err e => Err (AddressListUnparsable e)
  | Ok list_ =>
      let! _ := addressText v (Z.of_nat (length list_)) in
      res_mapM (λ a, match ValidateMailbox (snd a) with Err e => Err (AddressRefused e) | Ok _ => Ok (snd a) end) list_
  end.

(** The loop: the addresses found so far. *)
Fixpoint addressHeaderLoop (h : list (gostring * gostring)) (sender : gostring) (replyTo : list gostring)
    : res PayloadError (gostring * list gostring) :=
  match h with
  | [] => Ok (sender, replyTo)
  | (k, v) :: h =>
      if CanonicalMIMEHeaderKey k == lit "Sender" then
        match senderHeader v with
        | Err e => Err (InPart (lit "Sender") e)
        | Ok a => addressHeaderLoop h a replyTo
        end
      else if CanonicalMIMEHeaderKey k == lit "Reply-To" then
        match replyToHeader v with
        | Err e => Err (InPart (lit "Reply-To") e)
        | Ok l => addressHeaderLoop h sender (replyTo ++ l)
        end
      else addressHeaderLoop h sender replyTo
  end.
Definition addressHeaders_ (h : gmap gostring gostring) : res PayloadError (gostring * list gostring) :=
  addressHeaderLoop (RangeOrder h) [] [].

Definition hasContent (body : requestBodyContent) (atts : list Attachment) : bool :=
  (TrimSpace (rbc_Text body) != []) || (TrimSpace (rbc_HTML body) != [])
  || existsb (λ a, (0 <? length (at_Content a))%nat) atts.

Definition len (s : gostring) : Z := Z.of_nat (length s).

Definition estimateSize (req : requestBody) (atts : list Attachment) : Z :=
  len (rb_Subject req)
  + foldr (λ kv n, len (fst kv) + len (snd kv) + n) 0 (RangeOrder (rb_Headers req))
  + len (rbc_Text (rb_Body req)) + len (rbc_HTML (rb_Body req))
  + foldr (λ a n, len (at_Content a) + n) 0 atts.

(** ** Multipart requests *)

(** One part: form name, file name, the two header fields used, and its content
    or the error of reading it. *)
Record Part := {
  pt_FormName : gostring; pt_FileName : gostring; pt_ContentType : gostring; pt_ContentID : gostring;
  pt_Content : res gostring gostring }.

(** The indices of the parts named [n]. *)
Definition named (n : gostring) (formNames : list gostring) : list nat :=
  (imap (λ i fn, (i, fn)) formNames) ≫= λ '(i, fn), if fn == n then [i] else [].

Definition set_content_id (id : gostring) (a : Attachment) : Attachment := {|
  at_Filename := at_Filename a; at_ContentType := at_ContentType a; at_Disposition := "inline"; at_ContentID := id;
  at_Content := at_Content a |}.

Fixpoint applyContentIDs (ids : list (gostring * gostring)) (atts : list Attachment) (formNames : list gostring)
    : res PayloadError (list Attachment) :=
  match ids with
  | [] => Ok atts
  | (n, id) :: ids =>
      match named n formNames with
      | [] => Err (Message_ (lit "contentIds: no file part is named " ++ n))
      | [idx] =>
          match atts !! idx with
          | None => Err (Message_ "index out of range")
          | Some a =>
              if at_ContentID a != [] then Err (Message_ (lit "contentIds: part " ++ n ++ lit " already has a Content-ID header"))
              else match ValidateContentID id with
                   | Err e => Err (InPart (lit "contentIds") (ContentIDRefused e))
                   | Ok _ => applyContentIDs ids (<[idx := set_content_id id a]> atts) formNames
                   end
          end
      | _ => Err (Message_ (lit "contentIds: more than one file part is named " ++ n))
      end
  end.

(** The entries of a map in the order of its sorted keys. *)
Definition byKey (m : gmap gostring gostring) : list (gostring * gostring) :=
  SliceStable (λ x y, str_ltb (fst x) (fst y)) (map_to_list m).

(** What the loop over the parts has gathered. *)
Record Gathered := {
  ga_req : requestBody; ga_atts : list Attachment; ga_names : list gostring; ga_total : Z; ga_seenData : bool }.

Definition partMeta (p : Part) (filename : gostring) : requestAttachment :=
  let ct := if pt_ContentType p == [] then lit "application/octet-stream" else pt_ContentType p in
  let '(cid, disposition) := if pt_ContentID p != []
                             then (TrimSuffix (TrimPrefix (pt_ContentID p) (lit "<")) (lit ">"), lit "inline") else ([], []) in
  {| ra_Filename := filename; ra_ContentType := ct; ra_Disposition := disposition; ra_ContentID := cid; ra_ContentBase64 := [] |}.

(** A part that is not the data part. *)
Definition filePart (p : Part) (content : gostring) (total : Z) (g : Gathered) : res PayloadError Gathered :=
  let lower := ToLower (pt_FormName p) in
  let! filename :=
    if pt_FileName p == [] then
      match misplacedFields lower with
      | Some want => Err (UnknownField (pt_FormName p) (Some want))
      | None => if bool_decide (lower ∈ requestFields) then Err (UnknownField (pt_FormName p) None) else Ok (pt_FormName p)
      end
    else Ok (pt_FileName p) in
  let att := partMeta p filename in
  match validateAttachmentMeta att with
  | Err e => Err (InPart (pt_FormName p) e)
  | Ok _ =>
      Ok {| ga_req := ga_req g;
            ga_atts := ga_atts g ++ [{| at_Filename := filename; at_ContentType := ra_ContentType att;
                                        at_Disposition := ra_Disposition att; at_ContentID := ra_ContentID att; at_Content := content |}];
            ga_names := ga_names g ++ [pt_FormName p]; ga_total := total; ga_seenData := ga_seenData g |}
  end.

(** The loop over the parts, which end with EOF or an error. *)
Fixpoint gather (maxBytes : Z) (parts : list Part) (err : option gostring) (g : Gathered) : res PayloadError Gathered :=
  match parts with
  | [] => match err with Some e => Err (InPart (lit "multipart part") (Message_ e)) | None => Ok g end
  | p :: parts =>
      match pt_Content p with
      | Err e => Err (InPart (pt_FormName p) (Message_ e))
      | Ok whole =>
          let content := take (Z.to_nat (maxBytes - ga_total g + 1)) whole in
          let total := ga_total g + len content in
          if maxBytes <? total then Err errBodyTooLarge
          else
            let! g :=
              if pt_FormName p == lit "data" then
                if ga_seenData g then Err (Message_ "more than one data part")
                else match decodeRequestJSON content with
                     | Err e => Err (InPart (lit "data part") e)
                     | Ok req => Ok {| ga_req := req; ga_atts := ga_atts g; ga_names := ga_names g; ga_total := total;
                                       ga_seenData := true |}
                     end
              else filePart p content total g in
            gather maxBytes parts err g
      end
  end.

(** The parts of a body, if it can be read as multipart, and how they end. *)
Definition parseMultipartMessage (reader : res gostring (list Part * option gostring)) (maxBytes : Z)
    : res PayloadError (requestBody * list Attachment) :=
  match reader with
  | Err e => Err (InPart (lit "multipart") (Message_ e))
  | Ok (parts, err) =>
      let! g := gather maxBytes parts err
        {| ga_req := emptyRequest; ga_atts := []; ga_names := []; ga_total := 0; ga_seenData := false |} in
      match applyContentIDs (byKey (rb_ContentIDs (ga_req g))) (ga_atts g) (ga_names g) with
      | Err e => Err (InPart (lit "data part") e)
      | Ok atts =>
          match checkAttachments 0 (rb_Attachments (ga_req g)) with
          | Err (_, e) => Err (InPart (lit "data part") e)
          | Ok _ =>
              match decodeAttachments (rb_Attachments (ga_req g)) with
              | Err e => Err (InPart (lit "data part") e)
              | Ok inline => Ok (ga_req g, inline ++ atts)
              end
          end
      end
  end.
End request.

(** ** Facts *)

Section facts.
Context `{JSONDecoder, UnicodeTables, MapOrderLaws, AddressParser, MailReader, MediaTypes}.

(** A base64 attachment decodes to what the client encoded. *)
Lemma std_Encode_groups (s : gostring) : (length (std_Encode s) `mod` 4 = 0)%nat.
Proof.
  induction s as [|x|x y|x y z s IH] using three_at_a_time; [done..|].
  change (x :: y :: z :: s) with ([x; y; z] ++ s). rewrite std_Encode_app, length_app by done.
  change (length (std_Encode [x; y; z])) with (1 * 4)%nat. rewrite Nat.add_comm, Nat.Div0.mod_add. exact IH.
Qed.

Lemma Std_round_trip (s : gostring) : Std_Decode (std_Encode s) = Some s.
Proof.
  unfold Std_Decode.
  assert (List.filter (λ c, negb (Ascii.eqb c CR || Ascii.eqb c LF)) (std_Encode s) = std_Encode s) as ->.
  { assert (Forall (λ c, is_break c = false) (std_Encode s)) as Hb
      by (apply Forall_forall; intros c Hc; by apply std_Encode_chars in Hc as [? _]).
    induction Hb as [|c t Hc _ IH]; [done|]. simpl. unfold is_break in Hc. by rewrite Hc, IH. }
  rewrite std_Encode_groups. assert (TrimRight (std_Encode s) c_eq = b64_Encode c_plus c_slash s) as Ht.
  { unfold std_Encode. apply TrimRight_padding. intros Hc%b64_chars. tauto. }
  pose proof (std_round_trip s) as Hd. unfold decodeB64 in Hd. cbv zeta. rewrite Hd, Ht.
  assert (length (std_Encode s) - length (b64_Encode c_plus c_slash s) <= 2)%nat as Hle.
  { unfold std_Encode. rewrite length_app, length_replicate. repeat case_match; lia. }
  apply Nat.leb_le in Hle. by rewrite Hle.
Qed.

(** An attachment whose metadata can be written into a MIME part. *)
Record att_ok (a : Attachment) : Prop := {
  ao_filename : ContainsAny (at_Filename a) injectionChars = false;
  ao_controls : forallb (λ r, negb (bidiOrFormatControl r)) (runes (at_Filename a)) = true;
  ao_type : ContainsAny (at_ContentType a) injectionChars = false;
  ao_parses : TrimSpace (at_ContentType a) ≠ [] → is_Some (ParseMedia (at_ContentType a));
  ao_id : at_ContentID a = [] ∨ ValidateContentID (at_ContentID a) = Ok () ∧ EqualFold (at_Disposition a) (lit "inline") = true }.

Lemma firstBidi_zero (s : gostring) :
  firstBidiOrFormatControl s = 0 → forallb (λ r, negb (bidiOrFormatControl r)) (runes s) = true.
Proof.
  unfold firstBidiOrFormatControl. destruct (List.find _ _) as [r|] eqn:E; simpl.
  - apply List.find_some in E as [_ E]. intros ->. done.
  - intros _. apply forallb_forall. intros r Hr. by rewrite (List.find_none _ _ E r Hr).
Qed.

Lemma validateAttachmentMeta_ok (a : requestAttachment) (content : gostring) :
  validateAttachmentMeta a = Ok () →
  att_ok {| at_Filename := ra_Filename a; at_ContentType := ra_ContentType a; at_Disposition := ra_Disposition a;
            at_ContentID := ra_ContentID a; at_Content := content |}.
Proof.
  unfold validateAttachmentMeta. destruct (ContainsAny (ra_Filename a) _) eqn:E1; [done|].
  destruct (negb (_ =? 0)) eqn:E2; [done|]. destruct (ContainsAny (ra_ContentType a) _) eqn:E3; [done|].
  destruct (_ && bool_decide (ParseMedia _ = None)) eqn:E4; [done|]. destruct (_ && _ && _) eqn:E5; [done|]. intros Hid.
  split; cbn [at_Filename at_ContentType at_Disposition at_ContentID]; [done| |done| |].
  - apply firstBidi_zero, Z.eqb_eq. by apply negb_false_iff.
  - intros Ht. rewrite bool_decide_false in E4 by done. simpl in E4. apply bool_decide_eq_false, not_eq_None_Some in E4. done.
  - destruct (bool_decide_reflect (ra_ContentID a = [])) as [|Hne]; [by left|right]. cbn [negb] in Hid.
    destruct (EqualFold (ra_Disposition a) (lit "inline")); [|done]. cbn [negb] in Hid.
    destruct (ValidateContentID (ra_ContentID a)) as [[]|]; done.
Qed.

Lemma checkAttachments_ok (i : nat) (l : list requestAttachment) :
  checkAttachments i l = Ok () → Forall (λ a, validateAttachmentMeta a = Ok ()) l.
Proof.
  revert i. induction l as [|a l IH]; intros i; simpl; [constructor|].
  destruct (validateAttachmentMeta a) as [[]|] eqn:E; [|done]. intros Hl. constructor; [done|by eapply IH].
Qed.

Lemma decodeAttachments_ok (i : nat) (l : list requestAttachment) (atts : list Attachment) :
  checkAttachments i l = Ok () → decodeAttachments l = Ok atts → Forall att_ok atts.
Proof.
  intros Hc%checkAttachments_ok Hd%res_mapM_Ok. induction Hd as [|a b l atts Hab Hd IH]; [constructor|].
  inversion_clear Hc. constructor; [|by apply IH]. unfold decodeAttachment in Hab.
  destruct (Std_Decode _); [|done]. injection Hab as <-. by apply validateAttachmentMeta_ok.
Qed.

(** The content IDs given, in lower case. *)
Definition contentIDs (atts : list Attachment) : list gostring :=
  atts ≫= λ a, match at_ContentID a with [] => [] | id => [ToLower id] end.

Lemma uniqueContentIDs_ok (atts : list Attachment) (seen : list gostring) :
  uniqueContentIDs seen atts = Ok () → NoDup (contentIDs atts) ∧ ∀ k, k ∈ contentIDs atts → k ∉ seen.
Proof.
  revert seen. induction atts as [|a atts IH]; intros seen; cbn [uniqueContentIDs contentIDs mbind list_bind];
    [split; [constructor|by intros ? ?%elem_of_nil]|].
  destruct (at_ContentID a) as [|x id]; [rewrite bool_decide_true by done; apply IH|]. rewrite bool_decide_false by done.
  cbv zeta. case_bool_decide as Hs; [done|]. intros (Hn & Hd)%IH. split.
  - constructor; [|done]. intros Hin%Hd. apply Hin. left.
  - intros k [->|Hk]%elem_of_cons; [done|]. intros Hks. apply (Hd k Hk). by right.
Qed.

(** The custom header fields after their checks. *)
Record fields_ok (h : list (gostring * gostring)) : Prop := {
  fo_clean : ∀ k v, (k, v) ∈ h → ContainsAny k injectionChars = false ∧ ContainsAny v injectionChars = false ∧
    (length k + 2 + length v ≤ maxHeaderLine)%nat ∧ HasPrefix (CanonicalMIMEHeaderKey k) (lit "Resent-") = false;
  fo_unique : NoDup (CanonicalMIMEHeaderKey <$> h.*1) }.

Lemma validateHeaders_ok (h : list (gostring * gostring)) (seen : list gostring) :
  validateHeaders seen h = Ok () → fields_ok h ∧ ∀ k, k ∈ CanonicalMIMEHeaderKey <$> h.*1 → k ∉ seen.
Proof.
  revert seen. induction h as [|[k v] h IH]; intros seen; cbn [validateHeaders fmap list_fmap fst].
  { intros _. split; [split; [by intros ? ? ?%elem_of_nil|constructor]|by intros ? ?%elem_of_nil]. }
  destruct (ContainsAny k _) eqn:E1; [done|]. destruct (ContainsAny v _) eqn:E2; [done|].
  destruct (maxHeaderLine <? _)%nat eqn:E3; [done|]. cbv zeta. case_bool_decide as Hs; [done|].
  destruct (HasPrefix _ _) eqn:E4; [done|]. intros ([Hc Hu] & Hd)%IH. apply Nat.ltb_ge in E3. split.
  - split; [|constructor; [|done]; intros Hin%Hd; apply Hin; left].
    intros k' v' [[= -> ->]|Hin]%elem_of_cons; [done|by apply Hc].
  - intros k' [->|Hk]%elem_of_cons; [done|]. intros Hks. apply (Hd k' Hk). by right.
Qed.

(** ** Multipart requests *)

Definition part_bytes (p : Part) : gostring := match pt_Content p with Ok w => w | Err _ => [] end.
Definition is_data (p : Part) : bool := pt_FormName p == lit "data".
Definition files (parts : list Part) : list Part := List.filter (λ p, negb (is_data p)) parts.

(** The attachment a file part becomes. *)
Definition part_attachment (p : Part) : Attachment :=
  let m := partMeta p (if pt_FileName p == [] then pt_FormName p else pt_FileName p) in
  {| at_Filename := ra_Filename m; at_ContentType := ra_ContentType m; at_Disposition := ra_Disposition m;
     at_ContentID := ra_ContentID m; at_Content := part_bytes p |}.

(** A form field without a file name is not named like a field of the message. *)
Definition no_stray_field (p : Part) : Prop :=
  pt_FileName p = [] → ToLower (pt_FormName p) ∉ requestFields ∧ misplacedFields (ToLower (pt_FormName p)) = None.

Definition total_bytes (parts : list Part) : Z := foldr (λ p n, len (part_bytes p) + n) 0 parts.

(** The request of the data part, if there is one: there are never two. *)
Definition data_of (g : Gathered) (parts : list Part) (req : requestBody) : Prop :=
  match List.filter is_data parts with
  | [] => req = ga_req g
  | [p] => ga_seenData g = false ∧ decodeRequestJSON (part_bytes p) = Ok req
  | _ => False
  end.

Lemma part_attachment_content (p : Part) (content : gostring) : pt_Content p = Ok content → part_bytes p = content.
Proof. unfold part_bytes. by intros ->. Qed.

Lemma filePart_ok (p : Part) (total : Z) (g g' : Gathered) :
  filePart p (part_bytes p) total g = Ok g' →
  g' = {| ga_req := ga_req g; ga_atts := ga_atts g ++ [part_attachment p]; ga_names := ga_names g ++ [pt_FormName p];
          ga_total := total; ga_seenData := ga_seenData g |} ∧ att_ok (part_attachment p) ∧ no_stray_field p.
Proof.
  unfold filePart. intros (filename & Hf & Hm)%res_bind_Ok.
  assert (filename = (if pt_FileName p == [] then pt_FormName p else pt_FileName p) ∧ no_stray_field p) as [-> Hs].
  { unfold no_stray_field. destruct (bool_decide_reflect (pt_FileName p = [])) as [Hn|Hn]; [|injection Hf as <-; by split].
    destruct (misplacedFields _) as [w|]; [done|]. case_bool_decide; [done|]. injection Hf as <-. by split. }
  cbv zeta in Hm. destruct (validateAttachmentMeta _) as [[]|] eqn:E; [|done].
  apply (validateAttachmentMeta_ok _ (part_bytes p)) in E. injection Hm as <-. split; [|by split].
  unfold part_attachment, partMeta in *. by destruct (pt_ContentID p != []).
Qed.

Lemma gather_ok (maxBytes : Z) (parts : list Part) (g g' : Gathered) :
  gather maxBytes parts None g = Ok g' → ga_total g ≤ maxBytes →
  ga_atts g' = ga_atts g ++ (part_attachment <$> files parts) ∧ ga_names g' = ga_names g ++ (pt_FormName <$> files parts) ∧
  ga_total g' = ga_total g + total_bytes parts ∧ ga_total g' ≤ maxBytes ∧
  Forall (λ p, att_ok (part_attachment p) ∧ no_stray_field p) (files parts) ∧ data_of g parts (ga_req g').
Proof.
  revert g. induction parts as [|p parts IH]; intros g; cbn [gather files List.filter total_bytes foldr fmap list_fmap].
  { intros [= <-] Hle. rewrite !app_nil_r, Z.add_0_r. by repeat split. }
  destruct (pt_Content p) as [whole|] eqn:Ec; [|done]. cbv zeta. intros Hg Hle.
  apply part_attachment_content in Ec as Hb. destruct (Z.ltb_spec maxBytes (ga_total g + len (take (Z.to_nat (maxBytes - ga_total g + 1)) whole)))
    as [|Htot]; [done|].
  assert (take (Z.to_nat (maxBytes - ga_total g + 1)) whole = whole) as Ht.
  { apply take_ge. unfold len in Htot. rewrite length_take in Htot. lia. }
  rewrite Ht, <- Hb in *. clear Ht. apply res_bind_Ok in Hg as (g1 & H1' & Hg). fold (files parts) in *. fold (total_bytes parts).
  unfold data_of in *. cbn [List.filter]. change (pt_FormName p == lit "data") with (is_data p) in H1'.
  destruct (is_data p) eqn:Hd; cbn [negb] in *.
  - destruct (ga_seenData g) eqn:Hseen; [done|]. destruct (decodeRequestJSON _) as [req|] eqn:Ej; [|done]. injection H1' as <-.
    apply IH in Hg as (-> & -> & -> & ? & ? & Hdata); [|done]. cbn [ga_atts ga_names ga_total ga_req ga_seenData] in *.
    split_and!; [done|done|lia|done|done|].
    destruct (List.filter is_data parts) as [|q [|q' l]]; [subst; by split|by destruct Hdata|done].
  - apply filePart_ok in H1' as (-> & Hok & Hstray).
    apply IH in Hg as (-> & -> & -> & ? & ? & Hdata); [|done]. cbn [ga_atts ga_names ga_total ga_req ga_seenData] in *.
    cbn [fmap list_fmap]. rewrite <- !(assoc_L (++)). split_and!; [done|done|lia|done|by constructor|done].
Qed.

(** The parts named in contentIds. *)
Lemma named_spec (n : gostring) (names : list gostring) (i : nat) : i ∈ named n names ↔ names !! i = Some n.
Proof.
  unfold named. rewrite list_elem_of_bind. setoid_rewrite elem_of_lookup_imap. split.
  - intros ([i' fn] & Hi & j & y & [= -> ->] & Hj). case_bool_decide; [|by apply elem_of_nil in Hi].
    apply list_elem_of_singleton in Hi as ->. by subst.
  - intros Hi. exists (i, n). split; [rewrite bool_decide_true by done; by left|]. eauto.
Qed.

Definition give_id (ids : gmap gostring gostring) (n : gostring) (a : Attachment) : Attachment :=
  match ids !! n with Some id => set_content_id id a | None => a end.

Lemma EqualFold_inline : EqualFold (lit "inline") (lit "inline") = true.
Proof. by apply EqualFold_ascii. Qed.

Lemma set_content_id_ok (id : gostring) (a : Attachment) : att_ok a → ValidateContentID id = Ok () → att_ok (set_content_id id a).
Proof. intros [] Hid. split; try done. right. split; [done|]. apply EqualFold_inline. Qed.

Lemma applyContentIDs_ok (ids : list (gostring * gostring)) (atts atts' : list Attachment) (names : list gostring) :
  applyContentIDs ids atts names = Ok atts' → length names = length atts → NoDup (ids.*1) →
  atts' = zip_with (give_id (list_to_map ids)) names atts ∧ (Forall att_ok atts → Forall att_ok atts') ∧
  ∀ n id, (n, id) ∈ ids → ∃ i, named n names = [i] ∧ at_ContentID <$> atts !! i = Some [].
Proof.
  revert atts. induction ids as [|[n id] ids IH]; intros atts; cbn [applyContentIDs fmap list_fmap fst list_to_map foldr].
  { intros [= <-] Hl _. split_and!; [|done|by intros ? ? ?%elem_of_nil]. apply list_eq. intros i. rewrite lookup_zip_with.
    destruct (atts !! i) as [a|] eqn:E; [|by destruct (names !! i)]. apply lookup_lt_Some in E as Hi. rewrite <- Hl in Hi.
    apply lookup_lt_is_Some in Hi as [n ->]. simpl. unfold give_id. by rewrite lookup_empty. }
  destruct (named n names) as [|idx [|? ?]] eqn:En; try done. destruct (atts !! idx) as [a|] eqn:Ea; [|done].
  destruct (bool_decide_reflect (at_ContentID a = [])) as [Hnone|]; [|done]. cbn [negb].
  destruct (ValidateContentID id) as [[]|] eqn:Ev; [|done]. intros Hgo Hl [Hn Hnd]%NoDup_cons.
  apply IH in Hgo as (-> & Hok & Hall); [|by rewrite length_insert|done].
  assert (names !! idx = Some n) as Hidx by (apply named_spec; rewrite En; by left).
  split_and!.
  - apply list_eq. intros i. rewrite !lookup_zip_with. destruct (names !! i) as [n'|] eqn:Ei; [|done]. simpl.
    destruct (decide (i = idx)) as [->|Hi].
    + rewrite list_lookup_insert_eq, Ea by (by eapply lookup_lt_Some). simpl. unfold give_id.
      simplify_eq. rewrite lookup_insert_eq.
      assert (list_to_map ids !! n = (None : option gostring)) as -> by (by apply not_elem_of_list_to_map_1). done.
    + rewrite list_lookup_insert_ne by done. destruct (atts !! i) as [b|]; [|done]. simpl. unfold give_id.
      assert (n ≠ n') as Hne. { intros <-. assert (i ∈ named n names) as Hin by (by apply named_spec).
        rewrite En in Hin. apply list_elem_of_singleton in Hin. done. }
      by rewrite lookup_insert_ne.
  - intros Hatts. apply Hok. apply Forall_insert; [done|]. apply set_content_id_ok; [|done].
    by eapply Forall_lookup_1.
  - intros n' id' [[= -> ->]|Hin]%elem_of_cons; [exists idx; by rewrite Ea; simpl; rewrite Hnone|].
    destruct (Hall n' id' Hin) as (i & Hi & Hid). exists i. split; [done|].
    destruct (decide (i = idx)) as [->|]; [|by rewrite list_lookup_insert_ne in Hid].
    exfalso. assert (names !! idx = Some n') by (apply named_spec; rewrite Hi; by left). simplify_eq.
    apply Hn. apply list_elem_of_fmap. by exists (n, id').
Qed.

Lemma byKey_perm (m : gmap gostring gostring) : byKey m ≡ₚ map_to_list m.
Proof. apply SliceStable_perm. Qed.

Lemma byKey_map (m : gmap gostring gostring) : NoDup (byKey m).*1 ∧ list_to_map (byKey m) = m.
Proof.
  pose proof (byKey_perm m) as Hp. assert (NoDup (byKey m).*1) as Hn by (rewrite Hp; apply NoDup_fst_map_to_list). split; [done|].
  rewrite (list_to_map_proper _ _ Hn Hp). apply list_to_map_to_list.
Qed.

Lemma zip_with_map {A B C D} (f : B → C → D) (g : A → B) (h : A → C) (l : list A) :
  zip_with f (g <$> l) (h <$> l) = (λ x, f (g x) (h x)) <$> l.
Proof. induction l as [|x l IH]; [done|]. simpl. by f_equal. Qed.

Lemma parseMultipart_ok (parts : list Part) (err : option gostring) (maxBytes : Z) (req : requestBody) (atts : list Attachment) :
  0 ≤ maxBytes → parseMultipartMessage (Ok (parts, err)) maxBytes = Ok (req, atts) →
  total_bytes parts ≤ maxBytes ∧
  match List.filter is_data parts with
  | [] => req = emptyRequest
  | [p] => decodeRequestJSON (part_bytes p) = Ok req
  | _ => False
  end ∧
  (∃ inline, decodeAttachments (rb_Attachments req) = Ok inline ∧
    atts = inline ++ ((λ p, give_id (rb_ContentIDs req) (pt_FormName p) (part_attachment p)) <$> files parts)) ∧
  (∀ n id, rb_ContentIDs req !! n = Some id → ∃ i, named n (pt_FormName <$> files parts) = [i]) ∧
  Forall att_ok atts ∧ Forall no_stray_field (files parts).
Proof.
  intros Hmax. unfold parseMultipartMessage. destruct err as [e|].
  { intros (g & Hg & _)%res_bind_Ok. exfalso. revert Hg. generalize {| ga_req := emptyRequest; ga_atts := []; ga_names := [];
      ga_total := 0; ga_seenData := false |} as g0. induction parts as [|p parts IH]; intros g0; cbn [gather]; [done|].
    destruct (pt_Content p); [|done]. cbv zeta. destruct (_ <? _); [done|]. intros (g1 & _ & Hg1)%res_bind_Ok. by eapply IH. }
  intros (g & Hg & Hrest)%res_bind_Ok. apply gather_ok in Hg as (Hatts & Hnames & Htot & Hle & Hfiles & Hdata); [|done].
  cbn [ga_atts ga_names ga_total app] in *. rewrite Hatts, Hnames in Hrest.
  destruct (byKey_map (rb_ContentIDs (ga_req g))) as [Hnd Hmap].
  destruct (applyContentIDs _ _ _) as [atts1|] eqn:Ha; [|done].
  apply applyContentIDs_ok in Ha as (-> & Hok & Hids); [|by rewrite !length_fmap|done]. rewrite Hmap, zip_with_map in Hrest, Hok.
  destruct (checkAttachments 0 _) as [[]|[? ?]] eqn:Hc; [|done]. destruct (decodeAttachments _) as [inline|] eqn:Hd; [|done].
  injection Hrest as <- <-. split; [lia|]. split.
  { unfold data_of in Hdata. destruct (List.filter is_data parts) as [|p [|? ?]]; [done|apply Hdata|done]. }
  split; [by exists inline|]. split; [|split].
  - intros n id Hn. destruct (Hids n id) as (i & Hi & _); [|by exists i]. rewrite byKey_perm. by apply elem_of_map_to_list.
  - apply Forall_app. split; [by eapply decodeAttachments_ok|]. apply Hok. apply Forall_fmap.
    eapply Forall_impl; [exact Hfiles|]. by intros p [? _].
  - eapply Forall_impl; [exact Hfiles|]. by intros p [_ ?].
Qed.

Lemma parseMultipart_atts (parts : list Part) (err : option gostring) (maxBytes : Z) (req : requestBody) (atts : list Attachment) :
  0 ≤ maxBytes → parseMultipartMessage (Ok (parts, err)) maxBytes = Ok (req, atts) → Forall att_ok atts.
Proof. intros Hmax Hp%parseMultipart_ok; [|done]. tauto. Qed.

(** A multipart request is its data part and its files.  When it is accepted there was
    at most one data part, and the message's attachments are those of its JSON followed
    by every other part, in order: the bytes of the part, under its file name or else
    its form name, with the content ID that the part's header or the data part's
    contentIds give it.  Every entry of contentIds names exactly one part, the parts
    together are within the limit, the metadata of all attachments is fit for a header,
    and no form field that was meant for the message went out as a file. *)
Theorem multipart_message (parts : list Part) (err : option gostring) (maxBytes : Z) (req : requestBody) (atts : list Attachment) :
  0 ≤ maxBytes → parseMultipartMessage (Ok (parts, err)) maxBytes = Ok (req, atts) →
  total_bytes parts ≤ maxBytes ∧
  match List.filter is_data parts with
  | [] => req = emptyRequest
  | [p] => decodeRequestJSON (part_bytes p) = Ok req
  | _ => False
  end ∧
  (∃ inline, decodeAttachments (rb_Attachments req) = Ok inline ∧
    atts = inline ++ ((λ p, give_id (rb_ContentIDs req) (pt_FormName p) (part_attachment p)) <$> files parts)) ∧
  (∀ n id, rb_ContentIDs req !! n = Some id → ∃ i, named n (pt_FormName <$> files parts) = [i]) ∧
  Forall att_ok atts ∧ Forall no_stray_field (files parts).
Proof. apply parseMultipart_ok. Qed.

(** ** Sender and Reply-To *)

Definition field_named (k : gostring) (h : list (gostring * gostring)) : option gostring :=
  snd <$> List.find (λ kv, CanonicalMIMEHeaderKey (fst kv) == k) h.

Lemma field_named_None (k : gostring) (h : list (gostring * gostring)) :
  k ∉ (CanonicalMIMEHeaderKey <$> h.*1) → field_named k h = None.
Proof.
  unfold field_named. induction h as [|[x v] h IH]; [done|]. cbn [fmap list_fmap fst List.find].
  intros [Hx Hh]%not_elem_of_cons. rewrite bool_decide_false by done. by apply IH.
Qed.

Lemma addressHeaderLoop_ok (h : list (gostring * gostring)) (s0 s : gostring) (r0 r : list gostring) :
  NoDup (CanonicalMIMEHeaderKey <$> h.*1) → addressHeaderLoop h s0 r0 = Ok (s, r) →
  match field_named (lit "Sender") h with Some v => senderHeader v = Ok s | None => s = s0 end ∧
  match field_named (lit "Reply-To") h with Some v => ∃ l, replyToHeader v = Ok l ∧ r = r0 ++ l | None => r = r0 end.
Proof.
  revert s0 r0. induction h as [|[k v] h IH]; intros s0 r0; cbn [addressHeaderLoop fmap list_fmap fst]; [by intros _ [= <- <-]|].
  intros [Hk Hn]%NoDup_cons. unfold field_named. cbn [List.find fst]. fold (field_named (lit "Sender") h) (field_named (lit "Reply-To") h).
  destruct (bool_decide_reflect (CanonicalMIMEHeaderKey k = lit "Sender")) as [Es|Es].
  - rewrite Es in *. rewrite (bool_decide_false (lit "Sender" = lit "Reply-To")) by done.
    destruct (senderHeader v) as [a|] eqn:Ev; [|done]. intros [Hs Hr]%IH; [|done]. rewrite (field_named_None (lit "Sender")) in Hs by done.
    subst. split; [done|exact Hr].
  - destruct (bool_decide_reflect (CanonicalMIMEHeaderKey k = lit "Reply-To")) as [Er|Er].
    + rewrite Er in *. destruct (replyToHeader v) as [l|] eqn:Ev; [|done]. intros [Hs Hr]%IH; [|done].
      rewrite (field_named_None (lit "Reply-To")) in Hr by done. subst. split; [exact Hs|]. exists l. done.
    + by apply IH.
Qed.
End facts.

Module RequestExample.
(** One JSON text, and what it says. *)
Definition request (ids : gmap gostring gostring) : requestBody := {|
  rb_From := "app@corp.example"; rb_To := [lit "bob@corp.example"]; rb_Cc := []; rb_Bcc := []; rb_Subject := "hi";
  rb_Body := {| rbc_Text := "see logo"; rbc_HTML := [] |}; rb_Attachments := []; rb_Headers := ∅; rb_ContentIDs := ids |}.
Definition logo : gmap gostring gostring := {[lit "logo" := lit "logo@corp.example"]}.

Definition two_texts : JSONDecoder := {|
  DecodeTop s := if s == [] then Err JSONEOF else Ok (Some {[lit "from"; lit "to"; lit "contentIds"]});
  DecodeRequest s := Ok (request (if s == lit "{logo}" then logo else ∅));
  DecodedAll _ := true |}.
Definition some_order : MapOrder := {| RangeOrder := map_to_list |}.
#[export] Instance some_order_laws : @MapOrderLaws some_order.
Proof. by split. Defined.
Definition any_type : MediaTypes := {| ParseMedia ct := Some (ct, ∅); FormatMediaType t _ := t |}.
#[local] Existing Instances ascii_tables two_texts some_order identity_decoder from_only any_type.

Definition data : Part := {|
  pt_FormName := "data"; pt_FileName := []; pt_ContentType := "application/json"; pt_ContentID := []; pt_Content := Ok (lit "{logo}") |}.
Definition file : Part := {|
  pt_FormName := "logo"; pt_FileName := "logo.png"; pt_ContentType := "image/png"; pt_ContentID := []; pt_Content := Ok (lit "PNG") |}.
Definition attached : Attachment := {|
  at_Filename := "logo.png"; at_ContentType := "image/png"; at_Disposition := "inline"; at_ContentID := "logo@corp.example";
  at_Content := "PNG" |}.

Lemma multipart_message_witness :
  total_bytes [data; file] ≤ 100 ∧
  decodeRequestJSON (part_bytes data) = Ok (request logo) ∧
  (∃ inline, decodeAttachments (rb_Attachments (request logo)) = Ok inline ∧
    [attached] = inline ++ ((λ p, give_id (rb_ContentIDs (request logo)) (pt_FormName p) (part_attachment p)) <$> files [data; file])) ∧
  (∀ n id, rb_ContentIDs (request logo) !! n = Some id → ∃ i, named n (pt_FormName <$> files [data; file]) = [i]) ∧
  Forall att_ok [attached] ∧ Forall no_stray_field (files [data; file]).
Proof.
  apply (multipart_message [data; file] None 100); [lia|]. match goal with |- ?a = ?b => exact (eq_refl b <: a = b) end.
Defined.
End RequestExample.
