(* ===== verification/HttpApi.v ===== *)
(** * The HTTP API ([internal/apiserver]: messages.go, server.go, bodybudget.go, problem.go, health.go)

    One POST /v1/messages: the bearer token is reviewed, room for the body reserved,
    the request decoded and checked (HttpRequest.v), and the message given to the send
    pipeline (Gateway.v); the outcome becomes a status code.  A response is its status,
    its Retry-After and its body; whether the body budget had room is an argument of the
    handler, and the budget itself is modelled at the end. *)

From S2P Require Import Prelude GoStrings Types Address Engine RateLimit Credential Driver Webhook Resolver Gateway MailParse MimeText MimeMessage LoginThrottle TokenReview HttpRequest.

(** ** Problem documents *)

Definition TypeBase : gostring := "https://sigillum.dev/errors/".
Definition TypeInvalidPayload : gostring := "invalid-payload".
Definition TypeInvalidToken : gostring := "invalid-token".
Definition TypeNoPolicyMatched : gostring := "no-policy-matched".
Definition TypeSenderNotAllowed : gostring := "sender-not-allowed".
Definition TypeRecipientBlocked : gostring := "recipient-not-allowed".
Definition TypeMessageTooLarge : gostring := "message-too-large".
Definition TypeTooManyRecipients : gostring := "too-many-recipients".
Definition TypeRateLimited : gostring := "rate-limited".
Definition TypeUpstreamError : gostring := "upstream-error".
Definition TypeUpstreamRejected : gostring := "upstream-rejected".
Definition TypeBackendNotReady : gostring := "backend-not-ready".
Definition TypePolicyInvalid : gostring := "policy-invalid".
Definition TypeShuttingDown : gostring := "shutting-down".
Definition TypeUnavailable : gostring := "unavailable".
Definition TypeUnsupportedMedia : gostring := "unsupported-media-type".

(** Where the detail of a problem comes from. *)
Inductive Detail := DText (s : gostring) | DPayload (e : PayloadError) | DSend (d : DetailText) | DAuth (e : AuthError).

Record Problem := {
  p_Type : gostring; p_Title : gostring; p_Status : Z; p_Detail : Detail; p_Policy : gostring; p_MessageID : gostring }.

Definition problem_New (slug : gostring) (status : Z) (title : gostring) (detail : Detail) : Problem :=
  {| p_Type := TypeBase ++ slug; p_Title := title; p_Status := status; p_Detail := detail; p_Policy := []; p_MessageID := [] |}.

Definition with_id (id : gostring) (p : Problem) : Problem :=
  {| p_Type := p_Type p; p_Title := p_Title p; p_Status := p_Status p; p_Detail := p_Detail p; p_Policy := p_Policy p;
     p_MessageID := id |}.

Record responseBody := { rp_MessageID : gostring; rp_PolicyMatched : gostring; rp_AcceptedAt : Time }.

Inductive ResponseBody := AcceptedBody (b : responseBody) | ProblemBody (p : Problem).

(** [rs_RetryAfter]: the Retry-After header, in seconds. *)
Record Response := { rs_Status : Z; rs_RetryAfter : option Z; rs_Body : ResponseBody }.

Definition Write (retry : option Z) (p : Problem) : Response :=
  {| rs_Status := p_Status p; rs_RetryAfter := retry; rs_Body := ProblemBody p |}.

(** ** From the pipeline's outcome to a response *)

Definition send_problem (slug : gostring) (status : Z) (title msgID : gostring) (res : SendOutcome) : Problem :=
  {| p_Type := TypeBase ++ slug; p_Title := title; p_Status := status; p_Detail := DSend (so_Detail res);
     p_Policy := so_Policy res; p_MessageID := msgID |}.

(** [math.Ceil(d.Seconds())] *)
Definition ceilSeconds (d : Duration) : Z := - (- d / Second).

Definition writeUpstreamError (msgID : gostring) (res : SendOutcome) : Response :=
  Write (if 0 <? so_RetryAfter res then Some (ceilSeconds (so_RetryAfter res)) else None)
    (send_problem TypeUpstreamError 502 "Upstream backend error" msgID res).

Definition writePolicyDeny (msgID : gostring) (res : SendOutcome) : Response :=
  let p slug status title := Write None (send_problem slug status title msgID res) in
  match so_DenyReason res with
  | Some DenyNoPolicy => p TypeNoPolicyMatched 403 (lit "No matching policy")
  | Some DenySenderNotAllowed =>
      p TypeSenderNotAllowed 403 (if so_Backend res != [] then lit "Sender address not allowed by backend"
                                  else lit "Sender address not allowed by policy")
  | Some DenyRecipientBlocked => p TypeRecipientBlocked 403 (lit "Recipient address not allowed by policy")
  | Some DenyMessageTooLarge => p TypeMessageTooLarge 413 (lit "Message exceeds policy size limit")
  | Some DenyTooManyRecipient => p TypeTooManyRecipients 403 (lit "Too many recipients for policy")
  | None => p TypeNoPolicyMatched 403 (lit "Request denied")
  end.

Definition writeResult (msgID : gostring) (res : SendOutcome) : Response :=
  match so_Status res with
  | StatusAccepted =>
      {| rs_Status := 202; rs_RetryAfter := None;
         rs_Body := AcceptedBody {| rp_MessageID := msgID; rp_PolicyMatched := so_Policy res; rp_AcceptedAt := so_AcceptedAt res |} |}
  | StatusDenied => writePolicyDeny msgID res
  | StatusRateLimited =>
      Write (Some (so_RetryAfter res `quot` Second)) (send_problem TypeRateLimited 429 "Rate limit exceeded" msgID res)
  | StatusUnavailable => Write (Some 5) (send_problem TypeUnavailable 503 "Service temporarily unavailable" msgID res)
  | StatusBackendNotReady => Write None (send_problem TypeBackendNotReady 503 "Backend not ready" msgID res)
  | StatusPolicyInvalid => Write None (send_problem TypePolicyInvalid 503 "Policy is invalid" msgID res)
  | StatusUpstreamError =>
      if negb (so_Permanent res) then writeUpstreamError msgID res
      else Write None (send_problem TypeUpstreamRejected 422 "Upstream backend rejected the message" msgID res)
  end.

(** ** The handler *)

(** [MediaTypeOf]: the media type [mime.ParseMediaType] returns, also beside an error
    about its parameters. *)
Class MediaTypeOf := { mediaTypeOf : gostring → gostring }.

(** What the handler reads of a request.  The body can be read as such, or with a
    multipart reader. *)
Record HTTPRequest := {
  hr_Authorization : gostring; hr_ContentType : gostring; hr_ContentLength : Z;
  hr_Body : res gostring gostring; hr_Multipart : res gostring (list Part * option gostring) }.

Record subject := { su_Namespace : gostring; su_ServiceAccount : gostring }.

Definition maxBody : Z := 32 * 1024 * 1024.

Definition TransportREST : gostring := "rest".

Section handler.
Context `{JSONDecoder, UnicodeTables, MapOrder, AddressParser, MailReader, MediaTypes, MediaTypeOf}.
Context `{LabelMatcher, K8sNames, UUIDs, X509, Limiter L}.

Definition restEvent (msgID : gostring) (who : option subject) (from : gostring) (to : list gostring) : Event := {|
  ev_MessageID := msgID;
  ev_Namespace := match who with Some s => su_Namespace s | None => [] end;
  ev_ServiceAccount := match who with Some s => su_ServiceAccount s | None => [] end;
  ev_AuthMethod := match who with Some _ => AuthOAuthBearer | None => [] end;
  ev_Credential := []; ev_CredentialPrevious := false; ev_Cluster := []; ev_Transport := TransportREST;
  ev_From := from; ev_To := to; ev_Policy := []; ev_Backend := []; ev_Decision := DecisionReject; ev_Reason := [] |}.

(** A refusal: its problem and what the event knows of the addresses. *)
Record Refusal := { rf_Problem : Problem; rf_From : gostring; rf_To : list gostring }.

Definition invalid (title : gostring) (d : Detail) : Problem := problem_New TypeInvalidPayload 400 title d.
Definition tooLarge : Problem :=
  problem_New TypeMessageTooLarge 413 "Request body exceeds 32MiB ceiling" (DText "use a smaller message or split attachments").

(** Reading and decoding the body. *)
Definition readRequest (mediaType : gostring) (r : HTTPRequest) : res Problem (requestBody * list Attachment) :=
  if mediaType == lit "multipart/form-data" then
    match parseMultipartMessage (hr_Multipart r) maxBody with
    | Err errBodyTooLarge => Err tooLarge
    | Err e => Err (invalid "Failed to parse multipart body" (DPayload e))
    | Ok r => Ok r
    end
  else
    match hr_Body r with
    | Err e => Err (invalid "Failed to read request body" (DText e))
    | Ok whole =>
        let body := take (Z.to_nat (maxBody + 1)) whole in
        if maxBody <? len body then Err tooLarge
        else match decodeRequestJSON body with
             | Err e => Err (invalid "Malformed JSON payload" (DPayload e))
             | Ok req =>
                 match checkAttachments 0 (rb_Attachments req) with
                 | Err (_, e) => Err (invalid "Invalid attachment" (DPayload e))
                 | Ok _ =>
                     if (0 <? size (rb_ContentIDs req))%nat
                     then Err (invalid "Malformed JSON payload" (DText "contentIds names multipart file parts; in a JSON request, set contentId on the attachment"))
                     else match decodeAttachments (rb_Attachments req) with
                          | Err e => Err (invalid "Invalid attachment" (DPayload e))
                          | Ok atts => Ok (req, atts)
                          end
                 end
             end
    end.

Definition refusal {A} (from : gostring) (to : list gostring) (p : Problem) : res Refusal A :=
  Err {| rf_Problem := p; rf_From := from; rf_To := to |}.
Definition refuse {E A} (from : gostring) (to : list gostring) (problem : E → Problem) (x : res E A) : res Refusal A :=
  match x with Ok a => Ok a | Err e => refusal from to (problem e) end.

(** From the decoded body to the request of the pipeline. *)
Definition checkRequest (msgID : gostring) (who : subject) (req : requestBody) (atts : list Attachment) : res Refusal Request :=
  let! _ := refuse [] [] (λ e, invalid "Invalid attachment" (DPayload e)) (uniqueContentIDs [] atts) in
  let raw := rb_From req in
  let bad title e := invalid title (DPayload e) in
  let! from := refuse raw [] (bad (lit "Invalid 'from' address"))
                 (let! a := parseAddress (rb_From req) in let! _ := addressText (rb_From req) 1 in Ok a) in
  let! to := refuse raw [] (bad (lit "Invalid 'to' address")) (parseAddressList (rb_To req)) in
  let! cc := refuse raw [] (bad (lit "Invalid 'cc' address")) (parseAddressList (rb_Cc req)) in
  let! bcc := refuse raw [] (bad (lit "Invalid 'bcc' address")) (parseAddressList (rb_Bcc req)) in
  let msg := {| m_MessageID := lit "<" ++ msgID ++ lit "@sigillum.local>"; m_From := from; m_To := to; m_Cc := cc; m_Bcc := bcc;
                m_Subject := rb_Subject req; m_Body := {| b_Text := rbc_Text (rb_Body req); b_HTML := rbc_HTML (rb_Body req) |};
                m_Attachments := atts; m_Headers := rb_Headers req |} in
  let known := a_Address from in
  let rcpts := Recipients msg in
  if (length rcpts =? 0)%nat then refusal known rcpts (invalid "At least one recipient required" (DText "provide one of to, cc or bcc"))
  else
    let! _ := refuse known rcpts (bad (lit "Invalid header")) (validateRequestHeaders (rb_Headers req)) in
    let! hdr := refuse known rcpts (bad (lit "Invalid header")) (addressHeaders_ (rb_Headers req)) in
    if negb (hasContent (rb_Body req) atts)
    then refusal known rcpts (invalid "Message has no content" (DText "set body.text or body.html, or add a non-empty attachment"))
    else Ok {| rq_Identity := {| id_Namespace := su_Namespace who; id_ServiceAccount := su_ServiceAccount who;
                                 id_AuthMethod := AuthOAuthBearer; id_PodLabels := ∅; id_Credential := [];
                                 id_CredentialPrevious := false |};
               rq_Transport := TransportREST; rq_MessageID := msgID; rq_Message := msg; rq_Raw := None; rq_EnvelopeFrom := [];
               rq_Sender := fst hdr; rq_ReplyTo := snd hdr; rq_SizeBytes := estimateSize req atts |}.

(** [rejectPayload]. *)
Definition rejectPayload (msgID : gostring) (who : subject) (rf : Refusal) (g : Gateway L) : Gateway L * Response :=
  let p := with_id msgID (rf_Problem rf) in
  let reason := if p_Type p == TypeBase ++ TypeMessageTooLarge then lit "message_too_large" else lit "invalid_payload" in
  (Reject (restEvent msgID (Some who) (rf_From rf) (rf_To rf)) reason g, Write None p).

(** [handleSendMessage]; [room] is what the body budget answers. *)
Definition handleSendMessage (env : Env) (now : Time) (shutting : bool) (who : option subject) (msgID : gostring) (room : bool)
    (r : HTTPRequest) (g : Gateway L) : Gateway L * Response :=
  if shutting then
    (Reject (restEvent msgID who [] []) "shutting_down" g,
     Write None (problem_New TypeShuttingDown 503 "Service draining"
       (DText "the api-server is terminating; retry on a different replica")))
  else
    match who with
    | None => (Reject (restEvent msgID None [] []) "missing_token" g,
               Write None (problem_New TypeInvalidToken 401 "Authentication required" (DText "missing or invalid Bearer token")))
    | Some who =>
        let reject p := rejectPayload msgID who {| rf_Problem := p; rf_From := []; rf_To := [] |} g in
        let mediaType := mediaTypeOf (hr_ContentType r) in
        if (mediaType != lit "application/json") && (mediaType != lit "multipart/form-data") then
          let detail := lit "send Content-Type: application/json, or multipart/form-data with attachments" in
          reject (problem_New TypeUnsupportedMedia 415 "Unsupported Content-Type"
            (DText (if hr_ContentType r == [] then lit "the Content-Type header is missing; " ++ detail else detail)))
        else if negb room then
          (Reject (restEvent msgID (Some who) [] []) "busy" g,
           Write (Some 5) (with_id msgID (problem_New TypeUnavailable 503 "Too many large requests in progress"
             (DText "the api-server is already holding its limit of request bodies; retry later"))))
        else
          match readRequest mediaType r with
          | Err p => reject p
          | Ok (req, atts) =>
              match checkRequest msgID who req atts with
              | Err rf => rejectPayload msgID who rf g
              | Ok rq => let '(g, o) := Send env now rq g in (g, writeResult msgID o)
              end
          end
    end.

(** ** Authentication *)

Definition bearerToken (h : gostring) : gostring :=
  let prefix := lit "Bearer " in
  if (length h <=? length prefix)%nat || negb (EqualFold (take (length prefix) h) prefix) then []
  else TrimSpace (drop (length prefix) h).

Context `{Hashes, TokenText, LRUMap cacheEntry C}.

(** What the API server and the clock contribute to one review. *)
Record ReviewEnv := {
  rv_now : Time; rv_answered : Time; rv_stored : Time; rv_review : gostring → list gostring → res gostring TokenReviewStatus }.

Definition callOf (v : ReviewEnv) (token : gostring) : call :=
  {| ca_token := token; ca_now := rv_now v; ca_answered := rv_answered v; ca_stored := rv_stored v; ca_review := rv_review v |}.

(** [authMiddleware] around a handler; [answer] puts a response among the handler's answers. *)
Definition authMiddleware {A : Type} (answer : Response → A) (next : option subject → Gateway L → Gateway L * A) (v : ReviewEnv)
    (msgID : gostring) (r : HTTPRequest) (a : Authenticator C) (g : Gateway L) : Authenticator C * (Gateway L * A) :=
  let token := bearerToken (hr_Authorization r) in
  if token == [] then
    (a, (Reject (restEvent msgID None [] []) "missing_token" g,
         answer (Write None (problem_New TypeInvalidToken 401 "Missing Bearer token" (DText "set Authorization: Bearer <token>")))))
  else
    let '(a, _, res) := Authenticate a (callOf v token) in
    (a, match res with
        | Err (ErrUnavailable _) =>
            (Reject (restEvent msgID None [] []) "auth_unavailable" g,
             answer (Write (Some 5) (problem_New TypeUnavailable 503 "Service temporarily unavailable"
               (DText "the token could not be reviewed, try again later"))))
        | Err e =>
            (Reject (restEvent msgID None [] []) "invalid_token" g,
             answer (Write None (problem_New TypeInvalidToken 401 "Invalid token" (DAuth e))))
        | Ok subj => next (Some {| su_Namespace := sj_Namespace subj; su_ServiceAccount := sj_ServiceAccount subj |}) g
        end).

(** POST /v1/messages. *)
Definition postMessages (env : Env) (now : Time) (shutting : bool) (v : ReviewEnv) (authID msgID : gostring) (room : bool)
    (r : HTTPRequest) (a : Authenticator C) (g : Gateway L) : Authenticator C * (Gateway L * Response) :=
  authMiddleware (λ resp, resp) (λ who g, handleSendMessage env now shutting who msgID room r g) v authID r a g.
End handler.

(** ** Health *)

Definition handleHealthz : Z := 200.
Definition handleReadyz (draining shutting cacheSynced : bool) : Z :=
  if draining || shutting then 503 else if negb cacheSynced then 503 else 200.

(** ** Facts about requests *)

Section facts.
Context `{JSONDecoder, UnicodeTables, MapOrderLaws, AddressParser, MailReader, MediaTypes, MediaTypeOf}.

Lemma field_named_Some (n k v : gostring) (h : list (gostring * gostring)) :
  NoDup (CanonicalMIMEHeaderKey <$> h.*1) → (k, v) ∈ h → CanonicalMIMEHeaderKey k = n → field_named n h = Some v.
Proof.
  intros Hn Hin Hk. unfold field_named. induction h as [|[x w] h IH]; [by apply elem_of_nil in Hin|].
  cbn [fmap list_fmap fst List.find] in *. apply NoDup_cons in Hn as [Hx Hn]. apply elem_of_cons in Hin as [[= <- <-]|Hin].
  - by rewrite bool_decide_true.
  - rewrite bool_decide_false; [by apply IH|]. intros E. apply Hx. rewrite E, <- Hk. apply list_elem_of_fmap_2.
    by apply (list_elem_of_fmap_2 fst) in Hin.
Qed.

(** The bytes the caller controls. *)
Definition message_size (m : Message) : Z :=
  len (m_Subject m) + foldr (λ kv n, len (fst kv) + len (snd kv) + n) 0 (map_to_list (m_Headers m))
  + len (b_Text (m_Body m)) + len (b_HTML (m_Body m)) + foldr (λ a n, len (at_Content a) + n) 0 (m_Attachments m).

(** A request as the pipeline relies on it. *)
Record checked (rq : Request) : Prop := {
  ck_raw : rq_Raw rq = None ∧ rq_EnvelopeFrom rq = [];
  ck_addresses : Recipients (rq_Message rq) ≠ [] ∧
    Forall (λ a, ValidateMailbox a = Ok ()) (a_Address (m_From (rq_Message rq)) :: Recipients (rq_Message rq));
  ck_fields : fields_ok (map_to_list (m_Headers (rq_Message rq)));
  ck_sender : (∀ k v, m_Headers (rq_Message rq) !! k = Some v → CanonicalMIMEHeaderKey k = lit "Sender" →
    senderHeader v = Ok (rq_Sender rq));
  ck_replyTo : (∀ k v, m_Headers (rq_Message rq) !! k = Some v → CanonicalMIMEHeaderKey k = lit "Reply-To" →
    replyToHeader v = Ok (rq_ReplyTo rq));
  ck_attachments : Forall att_ok (m_Attachments (rq_Message rq)) ∧ NoDup (contentIDs (m_Attachments (rq_Message rq)));
  ck_size : rq_SizeBytes rq = message_size (rq_Message rq) }.

Lemma parseAddress_ok (s : gostring) (a : Address) : parseAddress s = Ok a → ValidateMailbox (a_Address a) = Ok ().
Proof.
  unfold parseAddress. destruct (ParseAddress _) as [[name addr]|]; [|done].
  destruct (ValidateMailbox addr) as [[]|] eqn:E; [|done]. by intros [= <-].
Qed.

Lemma parseAddressList_ok (l : list gostring) (as_ : list Address) :
  parseAddressList l = Ok as_ → Forall (λ a, ValidateMailbox a = Ok ()) (a_Address <$> as_).
Proof.
  intros Hl%res_mapM_Ok. induction Hl as [|s a l as_ Ha _ IH]; [constructor|]. constructor; [by eapply parseAddress_ok|done].
Qed.

Lemma refuse_Ok {E A} (from : gostring) (to : list gostring) (f : E → Problem) (x : res E A) (a : A) :
  refuse from to f x = Ok a → x = Ok a.
Proof. unfold refuse, refusal. by destruct x; intros [= <-]. Qed.

Lemma fields_ok_perm (h h' : list (gostring * gostring)) : h ≡ₚ h' → fields_ok h → fields_ok h'.
Proof. intros Hp [Hc Hu]. split; [intros k v; rewrite <- Hp; apply Hc|]. by rewrite <- Hp. Qed.

Lemma header_bytes_perm (h h' : list (gostring * gostring)) : h ≡ₚ h' →
  foldr (λ kv n, len (fst kv) + len (snd kv) + n) 0 h = foldr (λ kv n, len (fst kv) + len (snd kv) + n) 0 h'.
Proof. induction 1; simpl; lia. Qed.

Lemma checkRequest_ok (msgID : gostring) (who : subject) (req : requestBody) (atts : list Attachment) (rq : Request) :
  Forall att_ok atts → checkRequest msgID who req atts = Ok rq →
  checked rq ∧ rq_MessageID rq = msgID ∧ rq_Transport rq = TransportREST ∧
  rq_Identity rq = {| id_Namespace := su_Namespace who; id_ServiceAccount := su_ServiceAccount who; id_AuthMethod := AuthOAuthBearer;
                      id_PodLabels := ∅; id_Credential := []; id_CredentialPrevious := false |} ∧
  m_Attachments (rq_Message rq) = atts ∧ m_Headers (rq_Message rq) = rb_Headers req.
Proof.
  intros Hatts. unfold checkRequest. intros ([] & Hids%refuse_Ok%uniqueContentIDs_ok & Hrq)%res_bind_Ok.
  apply res_bind_Ok in Hrq as (from & Hfrom%refuse_Ok & Hrq). apply res_bind_Ok in Hfrom as (a & Ha & (? & _ & [= ->])%res_bind_Ok).
  apply res_bind_Ok in Hrq as (to & Hto%refuse_Ok & Hrq). apply res_bind_Ok in Hrq as (cc & Hcc%refuse_Ok & Hrq).
  apply res_bind_Ok in Hrq as (bcc & Hbcc%refuse_Ok & Hrq). cbv zeta in Hrq.
  set (msg := {| m_MessageID := _ |}) in Hrq. destruct (Nat.eqb_spec (length (Recipients msg)) 0) as [|Hlen]; [done|].
  apply res_bind_Ok in Hrq as ([] & Hh%refuse_Ok & Hrq). apply res_bind_Ok in Hrq as ([s rt] & Hhdr%refuse_Ok & Hrq).
  destruct (hasContent _ _); [|done]. injection Hrq as <-. unfold validateRequestHeaders in Hh.
  apply validateHeaders_ok in Hh as [Hf _]. unfold addressHeaders_ in Hhdr.
  pose proof (fo_unique _ Hf) as Hu. apply addressHeaderLoop_ok in Hhdr as [Hs Hr]; [|done].
  pose proof (RangeOrder_perm (rb_Headers req)) as Hperm.
  assert (∀ n k v, rb_Headers req !! k = Some v → CanonicalMIMEHeaderKey k = n → field_named n (RangeOrder (rb_Headers req)) = Some v) as Hnamed.
  { intros n k v Hk. apply field_named_Some; [done|]. rewrite Hperm. by apply elem_of_map_to_list. }
  split; [|by repeat split]. split; cbn [rq_Raw rq_EnvelopeFrom rq_Message rq_Sender rq_ReplyTo rq_SizeBytes fst snd].
  - done.
  - split; [by destruct (Recipients msg)|]. constructor; [by eapply parseAddress_ok|].
    unfold Recipients. rewrite !Forall_app. split_and!; by eapply parseAddressList_ok.
  - by eapply fields_ok_perm.
  - intros k v Hk Hc. by rewrite (Hnamed _ k v Hk Hc) in Hs.
  - intros k v Hk Hc. rewrite (Hnamed _ k v Hk Hc) in Hr. by destruct Hr as (l & ? & ->).
  - split; [done|apply Hids].
  - unfold estimateSize, message_size. cbn. by rewrite (header_bytes_perm _ _ Hperm).
Qed.

Lemma readRequest_ok (mediaType : gostring) (r : HTTPRequest) (req : requestBody) (atts : list Attachment) :
  readRequest mediaType r = Ok (req, atts) → Forall att_ok atts.
Proof.
  unfold readRequest. destruct (mediaType == _).
  - destruct (parseMultipartMessage _ _) as [[q l]|e] eqn:E; [intros [= <- <-]|by destruct e].
    destruct (hr_Multipart r) as [[parts err]|]; [|done]. apply parseMultipart_atts in E; [done|]. unfold maxBody. lia.
  - destruct (hr_Body r) as [whole|]; [|done]. cbv zeta. destruct (_ <? _); [done|]. destruct (decodeRequestJSON _) as [q|]; [|done].
    destruct (checkAttachments 0 _) as [[]|[? ?]] eqn:Ec; [|done]. destruct (0 <? _)%nat; [done|].
    destruct (decodeAttachments _) as [l|] eqn:Ed; [|done]. intros [= <- <-]. by eapply decodeAttachments_ok.
Qed.
End facts.

(** ** Facts about the handler *)

Section handler_facts.
Context `{JSONDecoder, UnicodeTables, MapOrderLaws, AddressParser, MailReader, MediaTypes, MediaTypeOf}.
Context `{LabelMatcher, K8sNames, UUIDs, X509, Limiter L}.

Definition identity_of (who : subject) : Identity := {|
  id_Namespace := su_Namespace who; id_ServiceAccount := su_ServiceAccount who; id_AuthMethod := AuthOAuthBearer;
  id_PodLabels := ∅; id_Credential := []; id_CredentialPrevious := false |}.

(** How a request ends: refused, with one audit record and no other effect, or sent
    through the pipeline. *)
Inductive ends (env : Env) (now : Time) (who : option subject) (msgID : gostring) (g : Gateway L) : Gateway L → Response → Prop :=
| ends_refused from to reason resp :
    400 ≤ rs_Status resp < 600 → ends env now who msgID g (Reject (restEvent msgID who from to) reason g) resp
| ends_sent s rq :
    who = Some s → rq_Identity rq = identity_of s → rq_MessageID rq = msgID → rq_Transport rq = TransportREST → checked rq →
    ends env now who msgID g (fst (Send env now rq g)) (writeResult msgID (snd (Send env now rq g))).

Ltac refused := apply ends_refused; simpl; lia.

Lemma checkRequest_status (msgID : gostring) (who : subject) (req : requestBody) (atts : list Attachment) (rf : Refusal) :
  checkRequest msgID who req atts = Err rf → p_Status (rf_Problem rf) = 400.
Proof.
  assert (∀ A (x : res PayloadError A) from to title, refuse from to (λ e, invalid title (DPayload e)) x = Err rf →
    p_Status (rf_Problem rf) = 400) as Hrf by (intros A [a|e] from to title; [done|by intros [= <-]]).
  unfold checkRequest. intros [E|(? & _ & Hrq)]%res_bind_Err; [by eapply Hrf|].
  do 4 (apply res_bind_Err in Hrq as [E|(? & _ & Hrq)]; [by eapply Hrf|]). cbv zeta in Hrq.
  destruct (_ =? 0)%nat; [by injection Hrq as <-|].
  do 2 (apply res_bind_Err in Hrq as [E|(? & _ & Hrq)]; [by eapply Hrf|]).
  destruct (negb _); [by injection Hrq as <-|done].
Qed.

Lemma readRequest_status (mediaType : gostring) (r : HTTPRequest) (p : Problem) :
  readRequest mediaType r = Err p → p_Status p = 400 ∨ p_Status p = 413.
Proof. unfold readRequest. repeat case_match; try done; intros [= <-]; auto. Qed.

Lemma handleSendMessage_ends (env : Env) (now : Time) (shutting : bool) (who : option subject) (msgID : gostring) (room : bool)
    (r : HTTPRequest) (g : Gateway L) :
  let '(g', resp) := handleSendMessage env now shutting who msgID room r g in ends env now who msgID g g' resp.
Proof.
  unfold handleSendMessage. destruct shutting; [refused|]. destruct who as [who|]; [|refused]. cbv zeta.
  assert (∀ rf, 400 ≤ p_Status (rf_Problem rf) < 600 → let '(g', resp) := rejectPayload msgID who rf g in
    ends env now (Some who) msgID g g' resp) as Hrej by (intros rf Hs; by apply ends_refused).
  destruct (_ && _); [apply Hrej; simpl; lia|]. destruct (negb room); [refused|].
  destruct (readRequest _ r) as [[req atts]|p] eqn:Er; [|apply Hrej; apply readRequest_status in Er; simpl; lia].
  destruct (checkRequest msgID who req atts) as [rq|rf] eqn:Ec; [|apply Hrej; apply checkRequest_status in Ec; lia].
  apply readRequest_ok in Er. apply checkRequest_ok in Ec as (Hck & Hid & Htr & Hident & _ & _); [|done].
  pose proof (ends_sent env now (Some who) msgID g who rq eq_refl Hident Hid Htr Hck) as Hsent. by destruct (Send env now rq g).
Qed.

(** Whether a retry can succeed. *)
Definition retryable (o : SendOutcome) : bool :=
  match so_Status o with
  | StatusRateLimited | StatusUnavailable | StatusBackendNotReady | StatusPolicyInvalid => true
  | StatusUpstreamError => negb (so_Permanent o)
  | StatusAccepted | StatusDenied => false
  end.

Lemma writeResult_status (msgID : gostring) (o : SendOutcome) :
  let s := rs_Status (writeResult msgID o) in
  (s = 202 ↔ so_Status o = StatusAccepted) ∧
  (retryable o = true ↔ s = 429 ∨ 500 ≤ s) ∧ (so_Status o ≠ StatusAccepted → 400 ≤ s < 600).
Proof.
  unfold writeResult, writePolicyDeny, writeUpstreamError, retryable, Write, send_problem.
  destruct (so_Status o); simpl; try (destruct (so_DenyReason o) as [[]|]); try (destruct (so_Permanent o)); simpl;
    split_and!; (split || idtac); intros; try done; try lia; naive_solver lia.
Qed.

(** ** The whole of POST /v1/messages *)

Context `{Hashes, TokenText, LRUMap cacheEntry C}.

(** The caller the token review of a request answers with. *)
Definition caller (a : Authenticator C) (v : ReviewEnv) (r : HTTPRequest) : option subject :=
  let token := bearerToken (hr_Authorization r) in
  if token == [] then None
  else match snd (Authenticate a (callOf v token)) with
       | Ok subj => Some {| su_Namespace := sj_Namespace subj; su_ServiceAccount := sj_ServiceAccount subj |}
       | Err _ => None
       end.

Lemma postMessages_ends (env : Env) (now : Time) (shutting : bool) (v : ReviewEnv) (authID msgID : gostring) (room : bool)
    (r : HTTPRequest) (a : Authenticator C) (g : Gateway L) :
  let '(_, (g', resp)) := postMessages env now shutting v authID msgID room r a g in
  ends env now (caller a v r) (match caller a v r with Some _ => msgID | None => authID end) g g' resp.
Proof.
  unfold postMessages, authMiddleware, caller. cbv zeta. destruct (bearerToken _ == []); [refused|].
  destruct (Authenticate a _) as [[a' asked] res]. cbn [snd].
  destruct res as [subj|[|e|reason|u]]; try refused.
  pose proof (handleSendMessage_ends env now shutting (Some {| su_Namespace := sj_Namespace subj; su_ServiceAccount := sj_ServiceAccount subj |})
    msgID room r g) as He. by destruct (handleSendMessage _ _ _ _ _ _ _ _).
Qed.

(** Whatever a client posts, nothing happens to the gateway but one record, or one
    [Send] as the ServiceAccount the token review named, of a request that is checked:
    valid sender and recipient addresses, at least one recipient; header fields without
    control bytes, each field once, none of them Resent-; the Sender and Reply-To the
    policy will judge are those in the header; attachments fit for a header, with
    distinct content IDs; and the size counts every byte the client controls. *)
Theorem rest_sends_as_caller (env : Env) (now : Time) (shutting : bool) (v : ReviewEnv) (authID msgID : gostring) (room : bool)
    (r : HTTPRequest) (a a' : Authenticator C) (g g' : Gateway L) (resp : Response) :
  postMessages env now shutting v authID msgID room r a g = (a', (g', resp)) →
  (∃ e, g' = record e g ∧ ev_Decision e = DecisionReject ∧ 400 ≤ rs_Status resp < 600) ∨
  ∃ who rq, caller a v r = Some who ∧ rq_Identity rq = identity_of who ∧ rq_MessageID rq = msgID ∧ checked rq ∧
    g' = fst (Send env now rq g) ∧ resp = writeResult msgID (snd (Send env now rq g)).
Proof.
  intros Hp. pose proof (postMessages_ends env now shutting v authID msgID room r a g) as He. rewrite Hp in He.
  destruct He as [from to reason resp' Hs|who rq Hw Hid Hmsg Htr Hck].
  - left. eexists. split; [reflexivity|]. by split.
  - right. exists who, rq. rewrite Hw in *. done.
Qed.

(** C8. Every request leaves exactly one audit record: it says accept exactly when the
    client is answered 202, and it names the ServiceAccount of the token, or nobody. *)
Theorem rest_one_audit_record (env : Env) (now : Time) (shutting : bool) (v : ReviewEnv) (authID msgID : gostring) (room : bool)
    (r : HTTPRequest) (a a' : Authenticator C) (g g' : Gateway L) (resp : Response) :
  postMessages env now shutting v authID msgID room r a g = (a', (g', resp)) →
  ∃ e, gw_audit g' = gw_audit g ++ [e] ∧ (ev_Decision e = DecisionAccept ↔ rs_Status resp = 202) ∧
    ev_MessageID e = (match caller a v r with Some _ => msgID | None => authID end) ∧
    ev_Namespace e = (match caller a v r with Some who => su_Namespace who | None => [] end) ∧
    ev_ServiceAccount e = (match caller a v r with Some who => su_ServiceAccount who | None => [] end).
Proof.
  intros Hp. pose proof (postMessages_ends env now shutting v authID msgID room r a g) as He. rewrite Hp in He.
  destruct He as [from to reason resp' Hs|who rq Hw Hid Hmsg Htr Hck].
  - eexists. split; [reflexivity|]. cbn. split; [split; [done|lia]|]. by destruct (caller a v r).
  - rewrite Hw in *. destruct (Send_audited env now rq g) as (e & He & Hm & Hns & Hsa & _ & _ & Hdec). exists e.
    rewrite Hid in Hns, Hsa. split; [done|]. split; [|split; [congruence|by split]].
    rewrite Hdec. symmetry. apply (writeResult_status msgID).
Qed.

(** What the client may do next.  A 202 means accepted.  The answer is 429 or 5xx
    exactly when sending the same message again can succeed, and any other 4xx when it
    cannot; and the Retry-After, where there is one, is at least a second, within ten
    minutes of an upstream failure, and not a second longer than the upstream asked. *)
Theorem rest_answer_class `{!LimiterLaws L} (env : Env) (now : Time) (rq : Request) (g : Gateway L) (msgID : gostring) :
  (∀ cfg d r e, env_NewDriver env cfg = Ok d → callDriver d r = Err e → built e) →
  let o := snd (Send env now rq g) in
  let resp := writeResult msgID o in
  (rs_Status resp = 202 ↔ so_Status o = StatusAccepted) ∧
  (retryable o = true ↔ rs_Status resp = 429 ∨ 500 ≤ rs_Status resp) ∧
  (so_Status o ≠ StatusAccepted → 400 ≤ rs_Status resp < 600) ∧
  ∀ s, rs_RetryAfter resp = Some s → 1 ≤ s ∧
    (so_Status o = StatusUpstreamError → s ≤ 600 ∧ so_RetryAfter o ≤ s * Second < so_RetryAfter o + Second).
Proof.
  intros Hdrv o resp. destruct (writeResult_status msgID o) as (H1' & H2' & H3'). split; [done|]. split; [done|]. split; [done|].
  pose proof (send_retry_after env now rq g Hdrv) as Hr. fold o in Hr. cbv zeta in Hr.
  unfold resp, writeResult. destruct (so_Status o) eqn:Es; try (intros s; simpl; done).
  - intros s. unfold writePolicyDeny. destruct (so_DenyReason o) as [[]|]; done.
  - intros s [= <-]. split; [|done]. unfold Second in *. apply (Z.quot_le_lower_bound _ _ 1); lia.
  - unfold writeUpstreamError, ceilSeconds, MaxRetryAfter, Minute, Second in *. destruct (so_Permanent o); [intros s; simpl; done|].
    intros s. simpl. destruct (Z.ltb_spec 0 (so_RetryAfter o)); [|done]. intros [= <-].
    pose proof (Z.div_mod (- so_RetryAfter o) 1000000000 ltac:(lia)). pose proof (Z.mod_pos_bound (- so_RetryAfter o) 1000000000 ltac:(lia)).
    split; [nia|]. intros _. split; nia.
  - intros s [= <-]. split; [lia|done].
Qed.

End handler_facts.

Module ApiExample.
Import RequestExample.
Definition json_only : MediaTypeOf := {| mediaTypeOf ct := ct |}.
#[local] Existing Instances ascii_tables two_texts some_order plain_parser from_only any_type json_only matchLabelsOnly simple_names
  no_uuids any_certificate memoryLimiter memoryLimiter_laws toy_hashes TokenExample.no_expiry map_cache.

Definition post : HTTPRequest := {|
  hr_Authorization := "Bearer good"; hr_ContentType := "application/json"; hr_ContentLength := 2; hr_Body := Ok (lit "{}");
  hr_Multipart := Err [] |}.
Definition reviews : ReviewEnv :=
  let c := TokenExample.at_time 0 [] in
  {| rv_now := 0; rv_answered := 0; rv_stored := 0; rv_review := ca_review c |}.
Definition team_app : subject := {| su_Namespace := "team"; su_ServiceAccount := "app" |}.

Definition posted :=
  postMessages (example_env good_driver) (100 * Second) false reviews "auth-1" "id-1" true post TokenExample.a example_gateway.

Example posted_accepted : rs_Status (snd (snd posted)) = 202 ∧ caller TokenExample.a reviews post = Some team_app.
Proof.
  split; match goal with |- ?a = ?b => exact (eq_refl b <: a = b) end.
Qed.

Lemma rest_sends_as_caller_witness :
  (∃ e, fst (snd posted) = record e example_gateway ∧ ev_Decision e = DecisionReject ∧ 400 ≤ rs_Status (snd (snd posted)) < 600) ∨
  ∃ who rq, caller TokenExample.a reviews post = Some who ∧ rq_Identity rq = identity_of who ∧ rq_MessageID rq = lit "id-1" ∧ checked rq ∧
    fst (snd posted) = fst (Send (example_env good_driver) (100 * Second) rq example_gateway) ∧
    snd (snd posted) = writeResult "id-1" (snd (Send (example_env good_driver) (100 * Second) rq example_gateway)).
Proof.
  apply (rest_sends_as_caller (example_env good_driver) (100 * Second) false reviews "auth-1" "id-1" true post TokenExample.a (fst posted)).
  fold posted. destruct posted as [a' [g' resp]]. reflexivity.
Defined.

Lemma rest_one_audit_record_witness :
  ∃ e, gw_audit (fst (snd posted)) = [] ++ [e] ∧ (ev_Decision e = DecisionAccept ↔ rs_Status (snd (snd posted)) = 202) ∧
    ev_MessageID e = (match caller TokenExample.a reviews post with Some _ => lit "id-1" | None => lit "auth-1" end) ∧
    ev_Namespace e = (match caller TokenExample.a reviews post with Some who => su_Namespace who | None => [] end) ∧
    ev_ServiceAccount e = (match caller TokenExample.a reviews post with Some who => su_ServiceAccount who | None => [] end).
Proof.
  apply (rest_one_audit_record (example_env good_driver) (100 * Second) false reviews "auth-1" "id-1" true post TokenExample.a (fst posted)
    example_gateway). fold posted. destruct posted as [a' [g' resp]]. reflexivity.
Defined.

Lemma rest_answer_class_witness :
  let o := snd (Send (example_env busy_driver) (100 * Second) example_request example_gateway) in
  let resp := writeResult "id-1" o in
  (rs_Status resp = 202 ↔ so_Status o = StatusAccepted) ∧
  (retryable o = true ↔ rs_Status resp = 429 ∨ 500 ≤ rs_Status resp) ∧
  (so_Status o ≠ StatusAccepted → 400 ≤ rs_Status resp < 600) ∧
  ∀ s, rs_RetryAfter resp = Some s → 1 ≤ s ∧
    (so_Status o = StatusUpstreamError → s ≤ 600 ∧ so_RetryAfter o ≤ s * Second < so_RetryAfter o + Second).
Proof.
  apply (rest_answer_class (example_env busy_driver) (100 * Second) example_request example_gateway "id-1").
  intros cfg d r e [= <-]. unfold callDriver. destruct (rq_Raw r); intros [= <-].
  - repeat constructor.
  - eapply (built_retry (ESentinel ErrUpstreamTransient) (30 * Second)); [constructor|reflexivity].
Defined.
End ApiExample.
