(* ===== verification/BodyBudget.v ===== *)
(** * The budget for request bodies ([internal/apiserver/bodybudget.go])

    Requests reserve room for their body before they read it, and give it back when
    they are answered.  The weighted semaphore of golang.org/x/sync is the parameter
    [Weighted]; requests come, read and go in any order. *)

From S2P Require Import Prelude.

(** ** golang.org/x/sync/semaphore *)

(** [sem_take n s = Some s']: an [Acquire] of [n] that succeeds at this moment. *)
Class Weighted (W : Type) := { sem_new : Z → W; sem_take : Z → W → option W; sem_release : Z → W → W }.

(** Documented behaviour, with [sem_held] the weight held: it never exceeds the size the
    semaphore was made with, and an acquisition that fits succeeds. *)
Class WeightedLaws (W : Type) `{Weighted W} := {
  sem_held : W → Z; sem_size : W → Z;
  sem_new_spec : ∀ n, sem_held (sem_new n) = 0 ∧ sem_size (sem_new n) = n;
  sem_take_spec : ∀ n s s', sem_take n s = Some s' →
    sem_held s' = sem_held s + n ∧ sem_size s' = sem_size s ∧ sem_held s' ≤ sem_size s';
  sem_take_fits : ∀ n s, sem_held s + n ≤ sem_size s → is_Some (sem_take n s);
  sem_release_spec : ∀ n s, n ≤ sem_held s → sem_held (sem_release n s) = sem_held s - n ∧ sem_size (sem_release n s) = sem_size s }.

(** ** The budget *)

Definition bodyWait : Duration := 10 * Second.

Record bodyBudget (W : Type) := { bb_sem : W; bb_size : Z }.
Arguments bb_sem {W} _. Arguments bb_size {W} _. Arguments Build_bodyBudget {W} _ _.

(** The ceiling of the handler, and the byte beyond it that it reads to notice. *)
Definition bodyCeiling : Z := 32 * 1024 * 1024.

Section budget.
Context `{Weighted W}.

(** [None]: no bound. *)
Definition newBodyBudget (size : Z) : option (bodyBudget W) :=
  if size <=? 0 then None else Some {| bb_sem := sem_new size; bb_size := size |}.

(** What a request with this Content-Length (negative: unknown) reserves. *)
Definition reservation (b : bodyBudget W) (contentLength : Z) : Z :=
  if (contentLength <? 0) || (bb_size b <? contentLength) then bb_size b else contentLength.

(** [reserve] at a moment: the budget after it and what is to be given back. *)
Definition reserve (b : bodyBudget W) (contentLength : Z) : option (bodyBudget W * Z) :=
  let n := reservation b contentLength in
  if n =? 0 then Some (b, 0)
  else match sem_take n (bb_sem b) with
       | None => None
       | Some s => Some ({| bb_sem := s; bb_size := bb_size b |}, n)
       end.

(** The returned function. *)
Definition release (b : bodyBudget W) (n : Z) : bodyBudget W :=
  if n =? 0 then b else {| bb_sem := sem_release n (bb_sem b); bb_size := bb_size b |}.

(** ** Requests in progress *)

(** A request that has its room: its Content-Length, its reservation, and the bytes
    of the body it holds. *)
Record inflight := { if_length : Z; if_room : Z; if_bytes : Z }.

Record server := { sv_budget : bodyBudget W; sv_requests : list inflight }.

(** A body is no longer than its Content-Length (net/http), and no more of it is read
    than a byte beyond the ceiling. *)
Definition readable (contentLength bytes : Z) : Prop :=
  0 ≤ bytes ≤ bodyCeiling + 1 ∧ (0 ≤ contentLength → bytes ≤ contentLength).

Inductive sstep : server → server → Prop :=
| step_reserve b b' reqs len n : reserve b len = Some (b', n) →
    sstep {| sv_budget := b; sv_requests := reqs |}
          {| sv_budget := b'; sv_requests := {| if_length := len; if_room := n; if_bytes := 0 |} :: reqs |}
| step_read b l r q bytes : readable (if_length q) bytes →
    sstep {| sv_budget := b; sv_requests := l ++ q :: r |}
          {| sv_budget := b; sv_requests := l ++ {| if_length := if_length q; if_room := if_room q; if_bytes := bytes |} :: r |}
| step_done b l r q :
    sstep {| sv_budget := b; sv_requests := l ++ q :: r |} {| sv_budget := release b (if_room q); sv_requests := l ++ r |}.

Inductive served (size : Z) : server → Prop :=
| served_new b : newBodyBudget size = Some b → served size {| sv_budget := b; sv_requests := [] |}
| served_step s s' : served size s → sstep s s' → served size s'.
End budget.

(** ** Facts *)

Section facts.
Context `{WeightedLaws W}.

Definition total (f : inflight → Z) (l : list inflight) : Z := foldr (λ q n, f q + n) 0 l.

Lemma total_app (f : inflight → Z) (l r : list inflight) : total f (l ++ r) = total f l + total f r.
Proof. induction l as [|q l IH]; simpl; [done|lia]. Qed.

(** Its bytes fit its room, or its room is the whole budget. *)
Definition roomy (size : Z) (q : inflight) : Prop :=
  0 ≤ if_room q ∧ 0 ≤ if_bytes q ≤ bodyCeiling + 1 ∧
  (if_room q = size ∨ 0 ≤ if_length q ≤ if_room q ∧ if_bytes q ≤ if_room q).

Definition budget_inv (size : Z) (s : server) : Prop :=
  bb_size (sv_budget s) = size ∧ sem_size (bb_sem (sv_budget s)) = size ∧
  sem_held (bb_sem (sv_budget s)) = total if_room (sv_requests s) ∧ total if_room (sv_requests s) ≤ size ∧
  Forall (roomy size) (sv_requests s).

Lemma reservation_spec (b : bodyBudget W) (len : Z) : 0 < bb_size b →
  0 ≤ reservation b len ∧ (reservation b len = bb_size b ∨ 0 ≤ len ∧ reservation b len = len).
Proof.
  unfold reservation. intros Hb. destruct (Z.ltb_spec len 0), (Z.ltb_spec (bb_size b) len); simpl; lia.
Qed.

Lemma budget_inv_step (size : Z) (s s' : server) : 0 < size → budget_inv size s → sstep s s' → budget_inv size s'.
Proof.
  intros Hsize (Hb & Hs & Hh & Hle & Hall) Hstep. inversion Hstep as [b b' reqs len n Hr|b l r q bytes Hread|b l r q]; subst; simpl in *.
  - destruct (reservation_spec b len Hsize) as [Hn0 Hn]. unfold reserve in Hr. cbv zeta in Hr.
    assert (∀ sem', sem_size sem' = bb_size b → sem_held sem' = reservation b len + total if_room reqs →
      sem_held sem' ≤ bb_size b → budget_inv (bb_size b) {| sv_budget := {| bb_sem := sem'; bb_size := bb_size b |};
        sv_requests := {| if_length := len; if_room := reservation b len; if_bytes := 0 |} :: reqs |}) as Hgoal.
    { intros sem' E1 E2 E3. split_and!; simpl; try done; try lia. constructor; [|done].
      split_and!; simpl; unfold bodyCeiling; try lia. }
    destruct (Z.eqb_spec (reservation b len) 0) as [E|E].
    + injection Hr as <- <-. rewrite E in Hgoal. destruct b as [sem sz]. simpl in *. apply Hgoal; lia.
    + destruct (sem_take _ _) as [sem'|] eqn:Et; [|done]. injection Hr as <- <-.
      apply sem_take_spec in Et as (Et1 & Et2 & Et3). apply Hgoal; lia.
  - apply Forall_app in Hall as [Hl [Hq Hrr]%Forall_cons]. rewrite total_app in *. simpl in *.
    split_and!; simpl; rewrite ?total_app; simpl; try done. apply Forall_app. split; [done|]. constructor; [|done].
    destruct Hq as (? & ? & Hor), Hread as [? Hlen]. split_and!; simpl; lia.
  - apply Forall_app in Hall as [Hl [Hq Hrr]%Forall_cons]. rewrite total_app in *. simpl in *.
    assert (0 ≤ total if_room l ∧ 0 ≤ total if_room r) as [Hl0 Hr0].
    { assert (∀ k, Forall (roomy (bb_size b)) k → 0 ≤ total if_room k) as Hk; [|by split; apply Hk].
      induction 1 as [|x k [Hx _] _ IH]; simpl; lia. }
    pose proof (proj1 Hq) as Hq0. unfold release. destruct (Z.eqb_spec (if_room q) 0) as [E|E].
    + split_and!; simpl; rewrite ?total_app; try done; try lia. by apply Forall_app.
    + destruct (sem_release_spec (if_room q) (bb_sem b)) as [Hr1 Hr2]; [lia|].
      split_and!; simpl; rewrite ?total_app; try done; try lia. by apply Forall_app.
Qed.

Lemma served_inv (size : Z) (s : server) : served size s → 0 < size ∧ budget_inv size s.
Proof.
  induction 1 as [b Hb|s s' _ [Hsize IH] Hstep].
  - unfold newBodyBudget in Hb. destruct (Z.leb_spec size 0); [done|]. injection Hb as <-. split; [lia|].
    destruct (sem_new_spec size) as [E1 E2]. unfold budget_inv. simpl. split_and!; try done; lia.
  - split; [done|]. by eapply budget_inv_step.
Qed.

Lemma roomy_total (size : Z) (l : list inflight) : 0 < size → Forall (roomy size) l →
  0 ≤ total if_room l ∧
  (total if_bytes l ≤ total if_room l ∨ size ≤ total if_room l ∧ total if_bytes l ≤ bodyCeiling + 1 + total if_room l - size ∨
   2 * size ≤ total if_room l).
Proof.
  intros Hsize. induction 1 as [|q l (Hr & Hb & Hor) _ [IH0 IH]]; simpl; [lia|]. destruct Hor as [->|[_ ?]]; lia.
Qed.

End facts.

(** ** A counting semaphore *)

Definition counting : Weighted (Z * Z) := {|
  sem_new n := (0, n);
  sem_take n s := if fst s + n <=? snd s then Some (fst s + n, snd s) else None;
  sem_release n s := (fst s - n, snd s) |}.
#[export] Instance counting_laws : @WeightedLaws (Z * Z) counting.
Proof.
  refine {| sem_held := λ s : Z * Z, fst s; sem_size := λ s : Z * Z, snd s |}; simpl.
  - done.
  - intros n [h m] s'. simpl. destruct (Z.leb_spec (h + n) m); [|done]. intros [= <-]. simpl. lia.
  - intros n [h m]. simpl. intros Hle%Z.leb_le. by rewrite Hle.
  - done.
Defined.

Module BudgetExample.
Definition full : @server (Z * Z) := {|
  sv_budget := {| bb_sem := (10, 10); bb_size := 10 |}; sv_requests := [{| if_length := -1; if_room := 10; if_bytes := 500 |}] |}.

Lemma full_served : served (H:=counting) 10 full.
Proof.
  eapply served_step; [eapply served_step; [by eapply served_new|]|].
  - by eapply (step_reserve (H:=counting) _ _ [] (-1)).
  - by apply (step_read (H:=counting) _ [] [] {| if_length := -1; if_room := 10; if_bytes := 0 |}).
Qed.

End BudgetExample.
