(* ===== verification/BackendController.v ===== *)
(** * The controllers of backends and policies ([internal/controller]: probe.go,
      mailbackend_controller.go, clustermailbackend_controller.go,
      mailpolicy_controller.go, metrics.go)

    A run reads one object, computes its conditions and gauges, and writes the
    status back.  The gateway (Gateway.v) acts on the conditions written here.  What
    a run reads from the cluster, the clock and the drivers it opens are arguments. *)

From S2P Require Import Prelude GoStrings Types Address Credential Verifier Driver Webhook Resolver RateLimit Engine Gateway CredController SmtpDriver.

(** ** Texts *)

(** The wording of the errors a condition quotes, and [fmt]'s [%q]. *)
Class StatusTexts := {
  fields_text : list FieldError → gostring;
  resolve_text : ResolveError → gostring;
  read_text : APIError → gostring;
  Quote : gostring → gostring }.

(** ** [probe.go] *)

Definition maxConditionMessage : nat := 4096.

(** [utf8.RuneStart]. *)
Definition RuneStart (c : ascii) : bool := negb (cont_byte c).

(** The loop that moves the cut back to the start of a rune. *)
Fixpoint rune_cut (msg : gostring) (cut : nat) : nat :=
  match cut with
  | O => O
  | S n => match msg !! cut with
           | Some c => if RuneStart c then cut else rune_cut msg n
           | None => cut
           end
  end.

Definition truncated (msg : gostring) : gostring :=
  if (maxConditionMessage <? length msg)%nat then take (rune_cut msg maxConditionMessage) msg ++ lit " … (truncated)" else msg.

Definition errorReadyCondition (now : Time) (generation : Z) (reason msg : gostring) : Condition :=
  {| c_Type := ConditionReady; c_Status := ConditionFalse; c_ObservedGeneration := generation;
     c_LastTransitionTime := now; c_Reason := reason; c_Message := truncated msg |}.

Definition readyConditionFor (now : Time) (generation : Z) (anyReady : bool) (message : gostring) : Condition :=
  {| c_Type := ConditionReady; c_Status := if anyReady then ConditionTrue else ConditionFalse;
     c_ObservedGeneration := generation; c_LastTransitionTime := now;
     c_Reason := if anyReady then ReasonAtLeastOneEndpointReady else ReasonAllEndpointsDown; c_Message := message |}.

(** A driver as a probe uses it: the results of its [HealthCheck], its [Capabilities]. *)
Record Probed := { pd_HealthCheck : list EndpointHealth; pd_Capabilities : list gostring }.

Definition endpointStatus (r : EndpointHealth) : EndpointStatus :=
  {| es_Host := eh_Host r; es_Port := eh_Port r; es_Ready := eh_Ready r; es_Message := eh_Message r |}.

Definition probeBackend (drivers : registry (D := Probed)) (cfg : Config)
    : res gostring (list EndpointStatus * list gostring) :=
  let! d := New drivers cfg in
  Ok (endpointStatus <$> pd_HealthCheck d, pd_Capabilities d).

(** ** [mailbackend_controller.go] *)

Definition ready_count (eps : list EndpointStatus) : nat := length (List.filter es_Ready eps).

Definition summarizeEndpoints (eps : list EndpointStatus) : gostring :=
  let ready := ready_count eps in
  if (ready =? 0)%nat then lit "no endpoints ready"
  else if (ready =? length eps)%nat then lit "all endpoints ready"
  else lit "some endpoints ready".

(** The clock at the points a run reads it: for the condition and for the probe. *)
Record Clock := { ck_condition : Time; ck_probe : Time }.

Definition probeInterval (spec : BackendSpec) : Duration :=
  match bs_HealthCheck spec with
  | Some h => if 0 <? hc_IntervalSeconds h then hc_IntervalSeconds h * Second else 60 * Second
  | None => 60 * Second
  end.

Definition probeEnabled (spec : BackendSpec) : bool :=
  match bs_HealthCheck spec with Some h => hc_Enabled h | None => true end.

Section backend.
Context `{X509, StatusTexts}.

(** [errors.As] a [*kubecache.SecretNamespaceError]. *)
Definition resolveReason (e : ResolveError) : gostring :=
  match e with SecretUnreadable (SecretNamespaceError _ _) => ReasonSecretNamespaceNotAllowed | _ => ReasonInvalidConfiguration end.

(** The status after the run, and the requeue interval (0: none). *)
Definition reconcileBackend (get : secret_reader) (drivers : registry (D := Probed)) (ck : Clock) (key : gostring)
    (spec : BackendSpec) (status : BackendStatus) (generation : Z) (secretFallbackNs : gostring)
    (invalid : res (list FieldError) unit) : BackendStatus * Duration :=
  let now := ck_condition ck in
  let set c := setCondition (bst_Conditions status) c in
  match invalid with
  | Err errs =>
      ({| bst_Capabilities := []; bst_EndpointStatus := [];
          bst_Conditions := set (errorReadyCondition now generation ReasonInvalidConfiguration (fields_text errs));
          bst_LastProbeTime := None; bst_ObservedGeneration := generation |}, 0)
  | Ok _ =>
      match ResolveBackendConfig get key spec secretFallbackNs with
      | Err e =>
          ({| bst_Capabilities := bst_Capabilities status; bst_EndpointStatus := bst_EndpointStatus status;
              bst_Conditions := set (errorReadyCondition now generation (resolveReason e) (resolve_text e));
              bst_LastProbeTime := bst_LastProbeTime status; bst_ObservedGeneration := generation |}, probeInterval spec)
      | Ok cfg =>
          if negb (probeEnabled spec) then
            ({| bst_Capabilities := bst_Capabilities status; bst_EndpointStatus := [];
                bst_Conditions := set {| c_Type := ConditionReady; c_Status := ConditionTrue;
                                         c_ObservedGeneration := generation; c_LastTransitionTime := now;
                                         c_Reason := ReasonReady; c_Message := lit "health checks disabled; assuming ready" |};
                bst_LastProbeTime := None; bst_ObservedGeneration := generation |}, probeInterval spec)
          else match probeBackend drivers cfg with
               | Err msg =>
                   ({| bst_Capabilities := bst_Capabilities status; bst_EndpointStatus := bst_EndpointStatus status;
                       bst_Conditions := set (errorReadyCondition now generation ReasonProbeError msg);
                       bst_LastProbeTime := Some (ck_probe ck); bst_ObservedGeneration := generation |}, probeInterval spec)
               | Ok (endpoints, caps) =>
                   ({| bst_Capabilities := caps; bst_EndpointStatus := endpoints;
                       bst_Conditions := set (readyConditionFor now generation (existsb es_Ready endpoints) (summarizeEndpoints endpoints));
                       bst_LastProbeTime := Some (ck_probe ck); bst_ObservedGeneration := generation |}, probeInterval spec)
               end
      end
  end.
End backend.

(** ** [metrics.go] *)

(** The series of each gauge, by their label values. *)
Record Gauges := {
  g_backendReady : gmap (gostring * gostring) Z;              (* backend, type *)
  g_endpointsReady : gmap gostring Z; g_endpoints : gmap gostring Z;
  g_policyReady : gmap (gostring * gostring * gostring) Z;    (* namespace, policy, reason *)
  g_credentialReady : gmap (gostring * gostring) Z }.

Definition boolGauge (b : bool) : Z := if b then 1 else 0.

(** [DeletePartialMatch] on the label [backend]. *)
Definition drop_backend (key : gostring) (m : gmap (gostring * gostring) Z) : gmap (gostring * gostring) Z :=
  filter (λ kv, kv.1.1 ≠ key) m.
Definition drop_policy (namespace name : gostring) (m : gmap (gostring * gostring * gostring) Z)
    : gmap (gostring * gostring * gostring) Z :=
  filter (λ kv, kv.1.1 ≠ (namespace, name)) m.

Section metrics.
Context `{MetaConditions}.

(** [meta.IsStatusConditionTrue]. *)
Definition IsStatusConditionTrue (conds : list Condition) (t : gostring) : bool :=
  match FindStatusCondition conds t with Some c => c_Status c == ConditionTrue | None => false end.

Definition recordBackendMetrics (key typ : gostring) (status : BackendStatus) (g : Gauges) : Gauges := {|
  g_backendReady := <[(key, typ) := boolGauge (IsStatusConditionTrue (bst_Conditions status) ConditionReady)]>
                      (drop_backend key (g_backendReady g));
  g_endpointsReady := <[key := Z.of_nat (ready_count (bst_EndpointStatus status))]> (g_endpointsReady g);
  g_endpoints := <[key := Z.of_nat (length (bst_EndpointStatus status))]> (g_endpoints g);
  g_policyReady := g_policyReady g; g_credentialReady := g_credentialReady g |}.

Definition forgetBackendMetrics (key : gostring) (g : Gauges) : Gauges := {|
  g_backendReady := drop_backend key (g_backendReady g);
  g_endpointsReady := delete key (g_endpointsReady g); g_endpoints := delete key (g_endpoints g);
  g_policyReady := g_policyReady g; g_credentialReady := g_credentialReady g |}.

Definition set_policyReady (m : gmap (gostring * gostring * gostring) Z) (g : Gauges) : Gauges := {|
  g_backendReady := g_backendReady g; g_endpointsReady := g_endpointsReady g; g_endpoints := g_endpoints g;
  g_policyReady := m; g_credentialReady := g_credentialReady g |}.

Definition recordPolicyMetrics (namespace name : gostring) (conds : list Condition) (g : Gauges) : Gauges :=
  let '(reason, ready) := match FindStatusCondition conds ConditionReady with
                          | Some c => (c_Reason c, c_Status c == ConditionTrue)
                          | None => ([], false)
                          end in
  set_policyReady (<[(namespace, name, reason) := boolGauge ready]> (drop_policy namespace name (g_policyReady g))) g.

Definition forgetPolicyMetrics (namespace name : gostring) (g : Gauges) : Gauges :=
  set_policyReady (drop_policy namespace name (g_policyReady g)) g.

Definition set_credentialReady (m : gmap (gostring * gostring) Z) (g : Gauges) : Gauges := {|
  g_backendReady := g_backendReady g; g_endpointsReady := g_endpointsReady g; g_endpoints := g_endpoints g;
  g_policyReady := g_policyReady g; g_credentialReady := m |}.

Definition recordCredentialMetrics (namespace name : gostring) (ready : bool) (g : Gauges) : Gauges :=
  set_credentialReady (<[(namespace, name) := boolGauge ready]> (g_credentialReady g)) g.
Definition forgetCredentialMetrics (namespace name : gostring) (g : Gauges) : Gauges :=
  set_credentialReady (delete (namespace, name) (g_credentialReady g)) g.
End metrics.

(** ** The handlers *)

(** What a run leaves: the gauges, the status it wrote (if the write succeeded),
    the requeue interval and the error. *)
Record Run (S : Type) := { rn_Gauges : Gauges; rn_Written : option S; rn_Requeue : Duration; rn_Error : option APIError }.
Arguments rn_Gauges {S} _. Arguments rn_Written {S} _. Arguments rn_Requeue {S} _. Arguments rn_Error {S} _.
Arguments Build_Run {S} _ _ _ _.

(** [client.IgnoreNotFound]. *)
Definition IgnoreNotFound (e : APIError) : option APIError := if e == NotFound then None else Some e.

(** The object could not be read. *)
Definition unread {S} (e : APIError) (forget : Gauges → Gauges) (g : Gauges) : Run S :=
  Build_Run (if e == NotFound then forget g else g) None 0 (IgnoreNotFound e).

(** [Status().Update], answered by [update]. *)
Definition written {S} (status : S) (requeue : Duration) (update : option APIError) (g : Gauges) : Run S :=
  match update with
  | Some e => Build_Run g None 0 (Some e)
  | None => Build_Run g (Some status) requeue None
  end.

Record Cluster := {
  cl_Secrets : secret_reader;
  cl_Drivers : registry (D := Probed);
  cl_MailBackend : gostring → gostring → res APIError MailBackend;
  cl_ClusterMailBackend : gostring → res APIError ClusterMailBackend;
  cl_MailPolicy : gostring → gostring → res APIError MailPolicy }.

Section handlers.
Context `{X509, StatusTexts, MetaConditions, AddressParser, UnicodeTables, LabelMatcher, K8sNames, UUIDs}.

Definition MailBackend_Reconcile (c : Cluster) (ck : Clock) (update : option APIError) (namespace name : gostring) (g : Gauges)
    : Run BackendStatus :=
  let key := namespace ++ lit "/" ++ name in
  match cl_MailBackend c namespace name with
  | Err e => unread e (forgetBackendMetrics key) g
  | Ok mb =>
      let '(status, requeue) :=
        reconcileBackend (cl_Secrets c) (cl_Drivers c) ck key (mb_Spec mb) (mb_Status mb) (om_Generation (mb_Meta mb))
          (om_Namespace (mb_Meta mb)) (ValidateBackend (IsImplemented (cl_Drivers c)) (ObjMailBackend mb)) in
      written status requeue update (recordBackendMetrics key (bs_Type (mb_Spec mb)) status g)
  end.

Definition ClusterMailBackend_Reconcile (c : Cluster) (ck : Clock) (update : option APIError) (name : gostring) (g : Gauges)
    : Run BackendStatus :=
  let key := lit "/" ++ name in
  match cl_ClusterMailBackend c name with
  | Err e => unread e (forgetBackendMetrics key) g
  | Ok cmb =>
      let '(status, requeue) :=
        reconcileBackend (cl_Secrets c) (cl_Drivers c) ck key (cmb_Spec cmb) (cmb_Status cmb) (om_Generation (cmb_Meta cmb))
          [] (ValidateBackend (IsImplemented (cl_Drivers c)) (ObjClusterMailBackend cmb)) in
      written status requeue update (recordBackendMetrics key (bs_Type (cmb_Spec cmb)) status g)
  end.

(** *** [mailpolicy_controller.go] *)

Definition backendReady (conds : list Condition) : bool :=
  match List.find (λ c, c_Type c == ConditionReady) conds with
  | Some c => c_Status c == ConditionTrue
  | None => false
  end.

Definition policyReady (now : Time) (gen : Z) : Condition :=
  {| c_Type := ConditionReady; c_Status := ConditionTrue; c_ObservedGeneration := gen; c_LastTransitionTime := now;
     c_Reason := ReasonReady; c_Message := lit "policy is ready and backend is reachable" |}.

Definition evaluate (c : Cluster) (now : Time) (mp : MailPolicy) : Condition :=
  let gen := om_Generation (mp_Meta mp) in
  let fail := errorReadyCondition now gen in
  let name := br_Name (mps_BackendRef (mp_Spec mp)) in
  let kind := br_Kind (mps_BackendRef (mp_Spec mp)) in
  match ValidateMailPolicy mp with
  | Err errs => fail ReasonInvalidConfiguration (fields_text errs)
  | Ok _ =>
      if (kind == KindClusterMailBackend) || (kind == []) then
        match cl_ClusterMailBackend c name with
        | Err e => fail ReasonBackendNotFound
                     (if e == NotFound then lit "ClusterMailBackend " ++ Quote name ++ lit " not found" else read_text e)
        | Ok cmb => if negb (backendReady (bst_Conditions (cmb_Status cmb)))
                    then fail ReasonBackendNotReady (lit "ClusterMailBackend " ++ Quote (om_Name (cmb_Meta cmb)) ++ lit " is not Ready")
                    else policyReady now gen
        end
      else if kind == KindMailBackend then
        match cl_MailBackend c (mp_Namespace mp) name with
        | Err e => fail ReasonBackendNotFound
                     (if e == NotFound then lit "MailBackend " ++ mp_Namespace mp ++ lit "/" ++ name ++ lit " not found" else read_text e)
        | Ok nb => if negb (backendReady (bst_Conditions (mb_Status nb)))
                   then fail ReasonBackendNotReady
                          (lit "MailBackend " ++ om_Namespace (mb_Meta nb) ++ lit "/" ++ om_Name (mb_Meta nb) ++ lit " is not Ready")
                   else policyReady now gen
        end
      else fail ReasonInvalidConfiguration (lit "unsupported backendRef.kind " ++ Quote kind)
  end.

Definition legacyCondition (now : Time) (mp : MailPolicy) : Condition :=
  let on := match mps_LegacyAuth (mp_Spec mp) with Some l => PodIPFallback l | None => false end in
  {| c_Type := ConditionUsingLegacyAuth; c_Status := if on then ConditionTrue else ConditionFalse;
     c_ObservedGeneration := om_Generation (mp_Meta mp); c_LastTransitionTime := now;
     c_Reason := if on then lit "PodIPFallbackEnabled" else lit "Disabled";
     c_Message := if on then lit "spec.legacyAuth.podIPFallback is enabled" else lit "no legacy auth modes enabled" |}.

(** [ready] and [legacy] are the times the two conditions are built. *)
Definition MailPolicy_Reconcile (c : Cluster) (ready legacy : Time) (update : option APIError) (namespace name : gostring) (g : Gauges)
    : Run MailPolicyStatus :=
  match cl_MailPolicy c namespace name with
  | Err e => unread e (forgetPolicyMetrics namespace name) g
  | Ok mp =>
      let conds := setCondition (setCondition (mpst_Conditions (mp_Status mp)) (evaluate c ready mp)) (legacyCondition legacy mp) in
      written {| mpst_Conditions := conds; mpst_MatchedSubjects := mpst_MatchedSubjects (mp_Status mp);
                 mpst_ObservedGeneration := om_Generation (mp_Meta mp) |} 0 update
        (recordPolicyMetrics (mp_Namespace mp) (mp_Name mp) conds g)
  end.
End handlers.

(** ** Messages fit, and end between runes *)

Lemma cont_mod (z : Z) : RuneStart (zb (128 + z `mod` 64)) = false.
Proof.
  unfold RuneStart, cont_byte. pose proof (Z.mod_pos_bound z 64).
  rewrite bz_zb by lia. rewrite !(proj2 (Z.leb_le _ _)) by lia. done.
Qed.

Lemma start_byte (z : Z) : 0 ≤ z < 128 ∨ 192 ≤ z < 256 → RuneStart (zb z) = true.
Proof.
  intros Hz. unfold RuneStart, cont_byte. rewrite bz_zb by lia. destruct Hz.
  - by rewrite (proj2 (Z.leb_gt 128 z)) by lia.
  - rewrite (proj2 (Z.leb_gt z 191)) by lia. by rewrite andb_false_r.
Qed.

Lemma div_range (r b hi : Z) : 0 < b → 0 ≤ r < b * hi → 0 ≤ r / b < hi.
Proof. intros. split; [apply Z.div_pos; lia|apply Z.div_lt_upper_bound; lia]. Qed.

Lemma EncodeRune_start (r : Z) :
  ∃ c t, EncodeRune r = c :: t ∧ RuneStart c = true ∧ (length t ≤ 3)%nat ∧ ∀ x, x ∈ t → RuneStart x = false.
Proof.
  assert (∀ t : gostring, (∀ x, x ∈ t → ∃ z, x = zb (128 + z `mod` 64)) → ∀ x, x ∈ t → RuneStart x = false) as Ht.
  { intros t Ht x Hx. destruct (Ht x Hx) as [z ->]. apply cont_mod. }
  unfold EncodeRune. repeat case_match; (do 2 eexists); (split; [done|]); to_prop;
    (split; [apply start_byte|split; [simpl; lia|apply Ht; set_solver]]).
  - lia.
  - right. pose proof (div_range r 64 32). lia.
  - right. pose proof (div_range RuneError 4096 16). unfold RuneError in *. lia.
  - right. pose proof (div_range r 4096 16). lia.
  - right. pose proof (div_range r 262144 5). lia.
Qed.

(** A cut before the first byte of a rune is a cut between runes. *)
Lemma take_runes (rs : list Z) (n : nat) (c : ascii) :
  (rs ≫= EncodeRune) !! n = Some c → RuneStart c = true → ∃ k, take n (rs ≫= EncodeRune) = take k rs ≫= EncodeRune.
Proof.
  revert n. induction rs as [|r rs IH]; intros n; [done|]. rewrite bind_cons. intros Hn Hc.
  destruct (EncodeRune_start r) as (a & t & Hr & _ & _ & Ht). destruct n as [|n]; [by exists 0%nat|].
  assert (length (EncodeRune r) = S (length t)) as Hl by by rewrite Hr.
  destruct (decide (n < length t)%nat) as [Hlt|Hge].
  - rewrite Hr in Hn. rewrite lookup_app_l in Hn by (simpl; lia). simpl in Hn.
    apply list_elem_of_lookup_2, Ht in Hn. congruence.
  - rewrite lookup_app_r in Hn by lia. destruct (IH _ Hn Hc) as [k Hk]. exists (S k).
    rewrite firstn_cons, bind_cons, take_app, Hk. f_equal. apply take_ge. lia.
Qed.

(** Among four consecutive bytes one starts a rune. *)
Lemma near_start (rs : list Z) (n : nat) : (n < length (rs ≫= EncodeRune))%nat →
  ∃ m c, (m ≤ n ≤ m + 3)%nat ∧ (rs ≫= EncodeRune) !! m = Some c ∧ RuneStart c = true.
Proof.
  revert n. induction rs as [|r rs IH]; intros n; [simpl; lia|]. rewrite bind_cons, length_app. intros Hn.
  destruct (EncodeRune_start r) as (a & t & Hr & Ha & Ht & _).
  assert (length (EncodeRune r) = S (length t)) as Hl by by rewrite Hr.
  destruct (decide (n < S (length t))%nat) as [Hlt|Hge].
  - exists 0%nat, a. rewrite Hr. simpl. split; [lia|done].
  - destruct (IH (n - S (length t))%nat ltac:(lia)) as (m & c & ? & Hm & Hc).
    exists (S (length t) + m)%nat, c. split; [lia|]. split; [|done].
    rewrite lookup_app_r by lia. by replace (S (length t) + m - length (EncodeRune r))%nat with m by lia.
Qed.

(** The loop stops at the last rune start up to [n]. *)
Lemma rune_cut_spec (msg : gostring) (n m : nat) (c : ascii) : (n < length msg)%nat → (m ≤ n)%nat →
  msg !! m = Some c → RuneStart c = true →
  (m ≤ rune_cut msg n ≤ n)%nat ∧ ∃ d, msg !! rune_cut msg n = Some d ∧ RuneStart d = true.
Proof.
  intros Hn Hm Hc Hs. induction n as [|n IH].
  - replace m with 0%nat in * by lia. split; [simpl; lia|by exists c].
  - assert (∃ d, msg !! S n = Some d) as [d Hd] by by apply lookup_lt_is_Some_2. cbn [rune_cut].
    rewrite Hd. destruct (RuneStart d) eqn:E.
    + split; [lia|by exists d].
    + assert (m ≠ S n) by congruence. destruct IH as [? ?]; [lia|lia|]. split; [lia|done].
Qed.

(** A condition's message is bounded, whatever the error said: a long one loses its
    end, at most three bytes more than the limit asks for, and what is kept of a
    well-formed UTF-8 text is well-formed. *)
Theorem condition_message_fits (now : Time) (gen : Z) (reason msg : gostring) (rs : list Z) :
  msg = rs ≫= EncodeRune →
  let m := c_Message (errorReadyCondition now gen reason msg) in
  (length m ≤ 4112)%nat ∧ (∃ rs', m = rs' ≫= EncodeRune) ∧
  ((length msg ≤ 4096)%nat → m = msg) ∧
  ((4096 < length msg)%nat → ∃ n, (4093 ≤ n ≤ 4096)%nat ∧ m = take n msg ++ lit " … (truncated)").
Proof.
  intros Hmsg. cbn [c_Message errorReadyCondition]. unfold truncated, maxConditionMessage.
  destruct (4096 <? length msg)%nat eqn:E.
  - apply Nat.ltb_lt in E. destruct (near_start rs 4096) as (m & c & Hm & Hc & Hs); [by rewrite <- Hmsg|].
    rewrite <- Hmsg in Hc. destruct (rune_cut_spec msg 4096 m c E) as [Hcut (d & Hd & Hds)]; [lia|done|done|].
    set (n := rune_cut msg 4096) in *. rewrite Hmsg in Hd. destruct (take_runes rs n d Hd Hds) as [k Hk].
    rewrite <- Hmsg in Hk. split_and!.
    + rewrite length_app, length_take. change (length (lit " … (truncated)")) with 16%nat. lia.
    + exists (take k rs ++ [32; 8230; 32; 40; 116; 114; 117; 110; 99; 97; 116; 101; 100; 41]). by rewrite bind_app, Hk.
    + lia.
    + intros _. exists n. split; [lia|done].
  - apply Nat.ltb_ge in E. split_and!; [lia|by exists rs|done|lia].
Qed.

(** ** When a backend is Ready *)

Lemma set_ready (conds : list Condition) (c : Condition) :
  c_Type c = ConditionReady → backendReady (setCondition conds c) = (c_Status c == ConditionTrue).
Proof.
  intros Hc. unfold backendReady. pose proof (set_condition_correct conds c) as (_ & Hf & _). rewrite Hc in Hf.
  by rewrite Hf.
Qed.

Lemma set_other (conds : list Condition) (c : Condition) :
  c_Type c ≠ ConditionReady → backendReady (setCondition conds c) = backendReady conds.
Proof.
  intros Hc. unfold backendReady. pose proof (set_condition_correct conds c) as (_ & _ & Ho). by rewrite Ho.
Qed.

(** An endpoint answered, or nobody asks. *)
Definition answers (drivers : registry (D := Probed)) (spec : BackendSpec) (cfg : Config) : Prop :=
  probeEnabled spec = true → ∃ d h, New drivers cfg = Ok d ∧ h ∈ pd_HealthCheck d ∧ eh_Ready h = true.

Section ready.
Context `{X509, StatusTexts}.

Lemma reconcile_ready (get : secret_reader) (drivers : registry (D := Probed)) (ck : Clock) (key : gostring)
    (spec : BackendSpec) (status : BackendStatus) (gen : Z) (ns : gostring) (invalid : res (list FieldError) unit) :
  backendReady (bst_Conditions (fst (reconcileBackend get drivers ck key spec status gen ns invalid))) = true ↔
  invalid = Ok () ∧ ∃ cfg, ResolveBackendConfig get key spec ns = Ok cfg ∧ answers drivers spec cfg.
Proof.
  unfold reconcileBackend, answers. destruct invalid as [[]|errs];
    [|cbn [fst bst_Conditions]; rewrite set_ready by done; by split; [|intros [??]]].
  destruct (ResolveBackendConfig get key spec ns) as [cfg|e];
    [|cbn [fst bst_Conditions]; rewrite set_ready by done; by split; [|intros (? & ? & ? & _)]].
  destruct (probeEnabled spec) eqn:Hp; cbn [negb];
    [|cbn [fst bst_Conditions]; rewrite set_ready by done; split; [|done]; intros _; split; [done|]; by exists cfg].
  unfold probeBackend. destruct (New drivers cfg) as [d|msg] eqn:Hd; cbn [res_bind].
  - cbn [fst bst_Conditions]. rewrite set_ready by done. cbn [readyConditionFor c_Status].
    destruct (existsb es_Ready (endpointStatus <$> pd_HealthCheck d)) eqn:He.
    + apply existsb_exists in He as (x & (h & -> & Hh)%list_elem_of_In%list_elem_of_fmap & Hr). split; [|done].
      intros _. split; [done|]. exists cfg. split; [done|]. intros _. by exists d, h.
    + split; [done|]. intros (_ & cfg' & E & Ha). injection E as <-. destruct (Ha eq_refl) as (d' & h & E & Hh & Hr).
      rewrite Hd in E. injection E as <-.
      rewrite <- not_true_iff_false, existsb_exists in He. destruct He. exists (endpointStatus h). split; [|done].
      apply list_elem_of_In. by apply list_elem_of_fmap_2.
  - cbn [fst bst_Conditions]. rewrite set_ready by done. split; [done|].
    intros (_ & cfg' & E & Ha). injection E as <-. destruct (Ha eq_refl) as (? & ? & E & _). by rewrite Hd in E.
Qed.
End ready.

(** ** A Ready policy is one the gateway can send with *)

(** The gateway and the controller see the same objects. *)
Record same_view (env : Env) (c : Cluster) : Prop := {
  sv_MailBackend : ∀ ns name, env_MailBackend env ns name = match cl_MailBackend c ns name with Ok b => Some b | Err _ => None end;
  sv_ClusterMailBackend : ∀ name,
    env_ClusterMailBackend env name = match cl_ClusterMailBackend c name with Ok b => Some b | Err _ => None end;
  sv_Implemented : env_Implemented env = IsImplemented (cl_Drivers c) }.

Section usable.
Context `{X509, StatusTexts, MetaConditions, AddressParser, UnicodeTables, LabelMatcher, K8sNames, UUIDs}.

(** The status is one a run wrote for this spec, whatever the rest of the cluster
    was like at the time. *)
Definition reconciled (implemented : gostring → bool) (b : MailBackend) : Prop :=
  ∃ c ck ns name g b0, cl_MailBackend c ns name = Ok b0 ∧ mb_Spec b0 = mb_Spec b ∧ om_Namespace (mb_Meta b0) = om_Namespace (mb_Meta b) ∧
    IsImplemented (cl_Drivers c) = implemented ∧ rn_Written (MailBackend_Reconcile c ck None ns name g) = Some (mb_Status b).

Definition reconciled_cluster (implemented : gostring → bool) (b : ClusterMailBackend) : Prop :=
  ∃ c ck name g b0, cl_ClusterMailBackend c name = Ok b0 ∧ cmb_Spec b0 = cmb_Spec b ∧
    IsImplemented (cl_Drivers c) = implemented ∧ rn_Written (ClusterMailBackend_Reconcile c ck None name g) = Some (cmb_Status b).

Lemma reconciled_valid (implemented : gostring → bool) (b : MailBackend) :
  reconciled implemented b → backendReady (bst_Conditions (mb_Status b)) = true →
  ValidateBackend implemented (ObjMailBackend b) = Ok ().
Proof.
  intros (c & ck & ns & name & g & b0 & Hb & Hspec & Hns & Himp & Hw) Hr. unfold MailBackend_Reconcile in Hw. rewrite Hb in Hw.
  destruct (reconcileBackend _ _ _ _ _ _ _ _ _) as [st q] eqn:E. injection Hw as Hw. rewrite <- Hw in Hr. apply (f_equal fst) in E. cbn [fst] in E. subst st.
  apply reconcile_ready in Hr as [Hv _]. unfold ValidateBackend in *. by rewrite <- Hspec, <- Hns, <- Himp.
Qed.

Lemma reconciled_cluster_valid (implemented : gostring → bool) (b : ClusterMailBackend) :
  reconciled_cluster implemented b → backendReady (bst_Conditions (cmb_Status b)) = true →
  ValidateBackend implemented (ObjClusterMailBackend b) = Ok ().
Proof.
  intros (c & ck & name & g & b0 & Hb & Hspec & Himp & Hw) Hr. unfold ClusterMailBackend_Reconcile in Hw. rewrite Hb in Hw.
  destruct (reconcileBackend _ _ _ _ _ _ _ _ _) as [st q] eqn:E. injection Hw as Hw. rewrite <- Hw in Hr. apply (f_equal fst) in E. cbn [fst] in E. subst st.
  apply reconcile_ready in Hr as [Hv _]. unfold ValidateBackend in *. by rewrite <- Hspec, <- Himp.
Qed.

End usable.

(** ** Gauges follow the status *)

Lemma found_is_ready `{MetaConditionsLaws} (conds : list Condition) : NoDup (c_Type <$> conds) →
  IsStatusConditionTrue conds ConditionReady = backendReady conds.
Proof.
  intros Hnd. unfold IsStatusConditionTrue, backendReady.
  destruct (FindStatusCondition conds ConditionReady) as [c|] eqn:Hf.
  - apply find_condition_some in Hf as [Hin Hc]. assert (List.find (λ x, c_Type x == ConditionReady) conds = Some c) as ->; [|done].
    induction conds as [|x conds IH]; [by apply not_elem_of_nil in Hin|]. cbn [List.find]. csimpl in Hnd. apply NoDup_cons in Hnd as [Hx Hnd].
    apply elem_of_cons in Hin as [<-|Hin]; [by rewrite bool_decide_eq_true_2|].
    rewrite bool_decide_eq_false_2; [by apply IH|]. intros Hr. apply Hx. rewrite Hr, <- Hc. by apply list_elem_of_fmap_2.
  - destruct (List.find _ conds) as [c|] eqn:E; [|done]. apply find_some in E as [Hin Hc]. apply bool_decide_eq_true in Hc.
    by destruct (find_condition_none _ _ Hf c (proj2 (list_elem_of_In _ _) Hin)).
Qed.

(** After a run that found the backend it has one readiness series, of its current
    type, saying what its Ready condition says; every other backend keeps its own. *)
Theorem backend_gauge_exact
    `{X509, StatusTexts, MetaConditionsLaws, AddressParser, UnicodeTables, LabelMatcher, K8sNames, UUIDs}
    (c : Cluster) (ck : Clock) (ns name : gostring) (b : MailBackend) (g : Gauges) (st : BackendStatus) :
  cl_MailBackend c ns name = Ok b → NoDup (c_Type <$> bst_Conditions (mb_Status b)) →
  rn_Written (MailBackend_Reconcile c ck None ns name g) = Some st →
  ∀ backend typ v,
    g_backendReady (rn_Gauges (MailBackend_Reconcile c ck None ns name g)) !! (backend, typ) = Some v ↔
    if bool_decide (backend = ns ++ lit "/" ++ name)
    then typ = bs_Type (mb_Spec b) ∧ v = boolGauge (backendReady (bst_Conditions st))
    else g_backendReady g !! (backend, typ) = Some v.
Proof.
  intros Hb Hnd. unfold MailBackend_Reconcile. rewrite Hb. destruct (reconcileBackend _ _ _ _ _ _ _ _ _) as [st' q] eqn:E.
  cbn [written rn_Written rn_Gauges recordBackendMetrics g_backendReady]. intros [= ->] backend typ v.
  rewrite found_is_ready.
  - case_bool_decide as Hk.
    + subst. destruct (decide (typ = bs_Type (mb_Spec b))) as [->|Ht].
      * rewrite lookup_insert_eq. naive_solver.
      * rewrite lookup_insert_ne by congruence. unfold drop_backend. rewrite map_lookup_filter_Some. naive_solver.
    + rewrite lookup_insert_ne by congruence. unfold drop_backend. rewrite map_lookup_filter_Some. naive_solver.
  - apply (f_equal fst) in E. cbn [fst] in E. subst st. unfold reconcileBackend.
    repeat case_match; cbn [fst bst_Conditions]; by apply setCondition_NoDup.
Qed.

(** ** Endpoints whose probe passed are tried first *)

(** Endpoints paired with whether their probe passed, and the statuses of those. *)
Lemma prefer_passed (l : list (SMTPEndpoint * bool)) (f : SMTPEndpoint * bool → EndpointStatus) :
  NoDup ((λ p, endpointKey (ep_Host p.1) (ep_Port p.1)) <$> l) →
  (∀ p, p ∈ l → es_Host (f p) = ep_Host p.1 ∧ es_Port (f p) = ep_Port p.1 ∧ es_Ready (f p) = p.2) →
  preferReadyEndpoints l.*1 (f <$> l) = (List.filter snd l).*1 ++ (List.filter (λ p, negb p.2) l).*1.
Proof.
  intros Hnd Hf. unfold preferReadyEndpoints.
  set (unready := _ <$> List.filter _ (f <$> l)).
  assert (∀ k, k ∈ unready ↔ ∃ p, p ∈ l ∧ p.2 = false ∧ k = endpointKey (ep_Host p.1) (ep_Port p.1)) as Hu.
  { intros k. unfold unready. rewrite list_elem_of_fmap. split.
    - intros (st & -> & Hst). apply list_elem_of_In, filter_In in Hst as [Hst Hr].
      apply list_elem_of_In, list_elem_of_fmap in Hst as (p & -> & Hp). destruct (Hf p Hp) as (-> & -> & Hpr).
      exists p. split; [done|]. split; [|done]. rewrite Hpr in Hr. by destruct p.2.
    - intros (p & Hp & Hr & ->). destruct (Hf p Hp) as (Hh & Hpo & Hpr). exists (f p). rewrite Hh, Hpo. split; [done|].
      apply list_elem_of_In, filter_In. split; [apply list_elem_of_In; by apply list_elem_of_fmap_2|]. by rewrite Hpr, Hr. }
  assert (∀ p, p ∈ l → bool_decide (endpointKey (ep_Host p.1) (ep_Port p.1) ∈ unready) = negb p.2) as Hd.
  { intros p Hp. destruct p.2 eqn:Hr; cbn [negb].
    - apply bool_decide_eq_false_2. rewrite Hu. intros (q & Hq & Hqr & Hk).
      assert (p = q) as ->; [|congruence]. apply list_elem_of_lookup in Hp as [i Hi], Hq as [j Hj].
      assert (i = j) as ->; [|congruence]. eapply NoDup_lookup; [exact Hnd|by rewrite list_lookup_fmap, Hi|].
      rewrite list_lookup_fmap, Hj. cbn. by rewrite Hk.
    - apply bool_decide_eq_true_2. rewrite Hu. by exists p. }
  clearbody unready.
  assert (List.filter (λ ep, negb (bool_decide (endpointKey (ep_Host ep) (ep_Port ep) ∈ unready))) l.*1 = (List.filter snd l).*1 ∧
          List.filter (λ ep, bool_decide (endpointKey (ep_Host ep) (ep_Port ep) ∈ unready)) l.*1 = (List.filter (λ p, negb p.2) l).*1)
    as [Ha Hb].
  { clear Hnd Hf Hu. induction l as [|p l IH]; [done|].
    destruct IH as [IH1 IH2]; [intros q Hq; apply Hd; by right|]. csimpl. rewrite (Hd p) by left. rewrite IH1, IH2.
    destruct p as [ep []]; done. }
  destruct (length unready =? 0)%nat eqn:E; [|by rewrite Ha, Hb].
  apply Nat.eqb_eq, length_zero_iff_nil in E. rewrite <- Ha, <- Hb, E.
  clear. generalize l.*1. intros k. induction k as [|ep k IH]; [done|].
  cbn [List.filter]. rewrite (bool_decide_eq_false_2 (_ ∈ [])) by apply not_elem_of_nil. cbn [negb app]. by rewrite <- IH.
Qed.

(** The messages of the statuses do not matter. *)
Definition bare (s : EndpointStatus) : EndpointStatus :=
  {| es_Host := es_Host s; es_Port := es_Port s; es_Ready := es_Ready s; es_Message := [] |}.

Lemma prefer_bare (eps : list SMTPEndpoint) (ss : list EndpointStatus) :
  preferReadyEndpoints eps ss = preferReadyEndpoints eps (bare <$> ss).
Proof.
  unfold preferReadyEndpoints.
  assert ((λ st, endpointKey (es_Host st) (es_Port st)) <$> List.filter (λ st, negb (es_Ready st)) (bare <$> ss) =
          (λ st, endpointKey (es_Host st) (es_Port st)) <$> List.filter (λ st, negb (es_Ready st)) ss) as ->; [|done].
  induction ss as [|s ss IH]; [done|]. csimpl. destruct (es_Ready s); csimpl; by rewrite IH.
Qed.

Section probed.
Context `{X509, StatusTexts, UnicodeTables}.

(** The SMTP driver as a probe finds it; the relay behind the i-th endpoint is
    [relay i]. *)
Definition smtpProber (text : probe_text) (relay : nat → Relay) : Factory (D := Probed) := λ cfg,
  let! sc := NewDriver cfg in
  Ok {| pd_HealthCheck := snd (HealthCheck text sc relay ∅); pd_Capabilities := [CapabilitySend] |}.

Definition probePasses (sc : SMTPConfig) (ep : SMTPEndpoint) (r : Relay) : bool :=
  match probeEndpoint sc ep r with None => true | Some _ => false end.

(** The endpoints, each with whether its probe passed. *)
Definition outcomes (sc : SMTPConfig) (relay : nat → Relay) : list (SMTPEndpoint * bool) :=
  imap (λ i ep, (ep, probePasses sc ep (relay i))) (sc_Endpoints sc).

Lemma outcomes_endpoints (sc : SMTPConfig) (relay : nat → Relay) : (outcomes sc relay).*1 = sc_Endpoints sc.
Proof.
  unfold outcomes. generalize (sc_Endpoints sc). intros eps. revert relay.
  induction eps as [|ep eps IH]; intros relay; [done|]. csimpl. f_equal. apply (IH (relay ∘ S)).
Qed.

Definition host_port (ep : SMTPEndpoint) : gostring := endpointKey (ep_Host ep) (ep_Port ep).

(** The statuses a probe reports, without their messages. *)
Lemma probe_statuses (text : probe_text) (sc : SMTPConfig) (relay : nat → Relay) :
  bare <$> (endpointStatus <$> snd (HealthCheck text sc relay ∅)) =
  (λ p : SMTPEndpoint * bool, {| es_Host := ep_Host p.1; es_Port := ep_Port p.1; es_Ready := p.2; es_Message := [] |})
    <$> outcomes sc relay.
Proof.
  cbn [snd HealthCheck]. unfold outcomes. rewrite !fmap_imap. apply imap_ext. intros i ep _.
  unfold healthOf, probePasses. cbn. by destruct (probeEndpoint _ _ _).
Qed.

(** What the probe writes is what the gateway reads: after a run over an SMTP backend
    the driver of the next message gets the endpoints that passed first, in the spec's
    order, then the others; the backend is Ready iff one passed. *)
Theorem probed_endpoints_first (text : probe_text) (relay : nat → Relay) (get : secret_reader)
    (drivers : registry (D := Probed)) (ck : Clock) (key ns : gostring) (spec : BackendSpec) (status : BackendStatus)
    (gen : Z) (cfg : Config) (sc : SMTPConfig) :
  drivers !! TypeSMTP = Some (smtpProber text relay) → bs_Type spec = BackendSMTP → probeEnabled spec = true →
  ResolveBackendConfig get key spec ns = Ok cfg → cfg_SMTP cfg = Some sc → NoDup (host_port <$> sc_Endpoints sc) →
  sc_Endpoints sc ≠ [] →
  let st := fst (reconcileBackend get drivers ck key spec status gen ns (Ok ())) in
  let passed := (List.filter snd (outcomes sc relay)).*1 in
  let failed := (List.filter (λ p, negb p.2) (outcomes sc relay)).*1 in
  sc_Endpoints <$> cfg_SMTP (set_endpoints cfg (bst_EndpointStatus st)) = Some (passed ++ failed) ∧
  (backendReady (bst_Conditions st) = true ↔ passed ≠ []).
Proof.
  intros Hd Hty Hp Hcfg Hsc Hnd Hne st passed failed_.
  assert (cfg_Type cfg = TypeSMTP) as Hct.
  { unfold ResolveBackendConfig in Hcfg. rewrite Hty in Hcfg. rewrite bool_decide_eq_true_2 in Hcfg by done.
    destruct (bs_SMTP spec); [|done]. destruct (resolveSMTP _ _ _); [|done]. by injection Hcfg as <-. }
  assert (New drivers cfg = Ok {| pd_HealthCheck := snd (HealthCheck text sc relay ∅); pd_Capabilities := [CapabilitySend] |}) as Hnew.
  { unfold New. rewrite Hct. match goal with |- match ?x with _ => _ end = _ => change x with (drivers !! TypeSMTP) end.
    rewrite Hd. unfold smtpProber, NewDriver. rewrite Hsc. by destruct (sc_Endpoints sc). }
  split.
  - assert (bst_EndpointStatus st = endpointStatus <$> snd (HealthCheck text sc relay ∅)) as ->.
    { unfold st, reconcileBackend. rewrite Hcfg, Hp. cbn [negb]. unfold probeBackend. by rewrite Hnew. }
    unfold set_endpoints. rewrite Hsc. cbn [cfg_SMTP sc_Endpoints fmap option_fmap option_map]. f_equal. unfold passed, failed_. rewrite <- (outcomes_endpoints sc relay).
    rewrite prefer_bare, probe_statuses. apply prefer_passed; [|done].
    change (NoDup ((host_port ∘ fst) <$> outcomes sc relay)). by rewrite list_fmap_compose, outcomes_endpoints.
  - unfold st. rewrite reconcile_ready. unfold answers. split.
    + intros (_ & cfg' & E & Ha). rewrite Hcfg in E. injection E as <-. destruct (Ha Hp) as (d & h & E & Hh & Hr).
      rewrite Hnew in E. injection E as <-. cbn [pd_HealthCheck HealthCheck snd] in Hh.
      apply elem_of_lookup_imap in Hh as (i & ep & -> & Hi). intros Hnil.
      assert (ep ∈ passed) as Hin; [|rewrite Hnil in Hin; by apply not_elem_of_nil in Hin].
      apply list_elem_of_fmap. exists (ep, true). split; [done|]. apply list_elem_of_In, filter_In. split; [|done].
      apply list_elem_of_In, elem_of_lookup_imap. exists i, ep. split; [|done].
      unfold healthOf in Hr. unfold probePasses. by destruct (probeEndpoint _ _ _).
    + intros Hpass. split; [done|]. exists cfg. split; [done|]. intros _.
      unfold passed in Hpass. destruct (List.filter snd (outcomes sc relay)) as [|p l] eqn:E; [done|].
      assert (In p (List.filter snd (outcomes sc relay))) as Hin by (rewrite E; by left).
      apply filter_In in Hin as [Hin Hr]. apply list_elem_of_In, elem_of_lookup_imap in Hin as (i & ep & -> & Hi).
      eexists _, (healthOf text sc ep (relay i)). split; [exact Hnew|].
      split; [cbn [pd_HealthCheck HealthCheck snd]; apply elem_of_lookup_imap; by exists i, ep|].
      cbn [snd] in Hr. unfold probePasses in Hr. unfold healthOf. by destruct (probeEndpoint _ _ _).
Qed.
End probed.

(** ** Witnesses *)

Module ControllerExample.

#[local] Instance certificates : X509 := any_certificate.
#[local] Instance tables : UnicodeTables := ascii_tables.
#[local] Instance parser : AddressParser := plain_parser.
#[local] Instance selectors : LabelMatcher := matchLabelsOnly.
#[local] Instance names : K8sNames := simple_names.
#[local] Instance uuids : UUIDs := no_uuids.
#[local] Instance conditions : MetaConditions := list_conditions.
#[local] Instance texts : StatusTexts := {|
  fields_text := λ _, "invalid"; resolve_text := λ _, "unresolved"; read_text := λ _, "unavailable"; Quote := λ s, s |}.

Definition long : list Z := replicate 4095 97 ++ [8364; 8364].

Lemma condition_message_fits_witness :
  let m := c_Message (errorReadyCondition 0 1 ReasonProbeError (long ≫= EncodeRune)) in
  (length m ≤ 4112)%nat ∧ (∃ rs', m = rs' ≫= EncodeRune) ∧
  ((length (long ≫= EncodeRune) ≤ 4096)%nat → m = long ≫= EncodeRune) ∧
  ((4096 < length (long ≫= EncodeRune))%nat → ∃ n, (4093 ≤ n ≤ 4096)%nat ∧ m = take n (long ≫= EncodeRune) ++ lit " … (truncated)").
Proof. exact (condition_message_fits 0 1 ReasonProbeError (long ≫= EncodeRune) long eq_refl). Defined.

(** A relay that answers the probe. *)
Definition open_relay : Relay := {|
  rl_dial := None; rl_deadline := None; rl_banner := None; rl_hello := None;
  rl_extension := λ e, if e == lit "STARTTLS" then Some [] else None;
  rl_extension_tls := λ e, if e == lit "AUTH" then Some (lit "PLAIN LOGIN") else None;
  rl_starttls := None; rl_auth := []; rl_deadline2 := None; rl_cancelled := None; rl_mail := None; rl_rcpt := λ _, None;
  rl_data := None; rl_write := None; rl_close := None |}.

Definition drivers : registry (D := Probed) := {[ TypeSMTP := smtpProber (λ _, lit "down") (λ _, open_relay) ]}.
Definition clock : Clock := {| ck_condition := Second; ck_probe := Second |}.
Definition no_gauges : Gauges :=
  {| g_backendReady := ∅; g_endpointsReady := ∅; g_endpoints := ∅; g_policyReady := ∅; g_credentialReady := ∅ |}.

Definition cluster_of (b : MailBackend) : Cluster := {|
  cl_Secrets := example_secrets; cl_Drivers := drivers;
  cl_MailBackend := λ ns name, if (ns == lit "team") && (name == lit "relay") then Ok b else Err NotFound;
  cl_ClusterMailBackend := λ _, Err NotFound; cl_MailPolicy := λ _ _, Err NotFound |}.

Definition run := MailBackend_Reconcile (cluster_of example_backend) clock None "team" "relay" no_gauges.

Definition after : BackendStatus := {|
  bst_Capabilities := [CapabilitySend];
  bst_EndpointStatus := [{| es_Host := "mx1"; es_Port := 587; es_Ready := true; es_Message := [] |}];
  bst_Conditions := [readyConditionFor Second 1 true "all endpoints ready"];
  bst_LastProbeTime := Some Second; bst_ObservedGeneration := 1 |}.

Lemma probe_written : rn_Written run = Some after.
Proof. match goal with |- ?a = ?b => exact (eq_refl b <: a = b) end. Qed.

Definition probed_backend : MailBackend := {| mb_Meta := mb_Meta example_backend; mb_Spec := mb_Spec example_backend; mb_Status := after |}.

Definition view : Env := {|
  env_Policies := λ _, []; env_SALabels := λ _ _, None;
  env_MailBackend := λ ns name, if (ns == lit "team") && (name == lit "relay") then Some probed_backend else None;
  env_ClusterMailBackend := λ _, None; env_Secrets := example_secrets; env_Implemented := IsImplemented drivers;
  env_NewDriver := λ _, Ok good_driver |}.


Example policy_is_ready : c_Status (evaluate (cluster_of probed_backend) Second high_policy) = ConditionTrue.
Proof. match goal with |- ?a = ?b => exact (eq_refl b <: a = b) end. Qed.

Lemma backend_gauge_exact_witness :
  g_backendReady (rn_Gauges run) !! (lit "team/relay", BackendSMTP) = Some 1.
Proof.
  apply (backend_gauge_exact (cluster_of example_backend) clock "team" "relay" example_backend no_gauges after).
  - reflexivity.
  - constructor.
  - exact probe_written.
  - split; reflexivity.
Defined.

Definition sc : SMTPConfig := {|
  sc_Endpoints := [{| ep_Host := "mx1"; ep_Port := 587; ep_TLS := SMTPTLSStartTLS; ep_InsecureSkipVerify := false |}];
  sc_AuthType := SMTPAuthPlain; sc_Username := "u"; sc_Password := "p"; sc_Timeout := 10; sc_Helo := []; sc_RootCAs := None |}.

Lemma probed_endpoints_first_witness :
  let st := fst (reconcileBackend example_secrets drivers clock "team/relay" (mb_Spec example_backend)
                   (mb_Status example_backend) 1 "team" (Ok ())) in
  let passed := (List.filter snd (outcomes sc (λ _, open_relay))).*1 in
  let failed := (List.filter (λ p, negb p.2) (outcomes sc (λ _, open_relay))).*1 in
  sc_Endpoints <$> cfg_SMTP (set_endpoints example_config (bst_EndpointStatus st)) = Some (passed ++ failed) ∧
  (backendReady (bst_Conditions st) = true ↔ passed ≠ []).
Proof.
  apply (probed_endpoints_first (λ _, lit "down") (λ _, open_relay) example_secrets drivers clock "team/relay" "team"
           (mb_Spec example_backend) (mb_Status example_backend) 1 example_config sc).
  - reflexivity.
  - reflexivity.
  - reflexivity.
  - vm_compute. reflexivity.
  - reflexivity.
  - apply NoDup_singleton.
  - discriminate.
Defined.
End ControllerExample.
