(* ===== verification/TokenBroker.v ===== *)
(** * Tokens of delegated backends ([internal/controller/oauth_broker.go])

    The controller redeems refresh tokens and keeps the newest one in memory and in
    a Secret; the gateway reads the access token from that Secret.  The API server's
    Secrets are the parameter [TokenSecretAPI] (create, and a JSON patch with test
    operations, as for the Secrets of CredController.v); the provider is given by its
    answers, RFC 3339 times by [RFC3339]. *)

From S2P Require Import Prelude GoStrings Types Credential Resolver CredController OAuth.

(** ** Parameters *)

(** [time.Time.Format] and [time.Parse] with the layout [time.RFC3339], in UTC. *)
Class RFC3339 := { FormatTime : Time → gostring; ParseTime : gostring → option Time }.

(** Year 10000; later years have no RFC 3339 form. *)
Definition year10000 : Time := 3652059 * 24 * Hour.

Class RFC3339Laws `{RFC3339} := {
  parse_format : ∀ t, 0 ≤ t < year10000 → ParseTime (FormatTime t) = Some (whole_seconds t) }.

(** Texts of errors in a condition. *)
Class BrokerTexts := { fetch_text : FetchError → gostring; write_text : APIError → gostring }.

(** ** Names and keys *)

Definition OAuthTokenLabel : gostring := "sigillum.dev/oauth-token".
Definition OAuthTokenUIDAnnotation : gostring := "sigillum.dev/oauth-token-uid".
Definition OAuthSecretRefreshTokenKey : gostring := "refresh_token".
Definition OAuthSecretAccessTokenKey : gostring := "access_token".
Definition OAuthSecretExpiresAtKey : gostring := "expires_at".
Definition OAuthSeedAnnotation : gostring := "sigillum.dev/oauth-seed".
Definition OAuthRefreshAtAnnotation : gostring := "sigillum.dev/oauth-refresh-at".
Definition ReasonAuthorized : gostring := "Authorized".
Definition ReasonAuthorizationRequired : gostring := "AuthorizationRequired".
Definition ReasonTokenRefreshFailed : gostring := "TokenRefreshFailed".

Definition brokerRetry : Duration := 30 * Second.
Definition brokerReauthRetry : Duration := 10 * Minute.

(** [strings.TrimRight(s, ".-")]. *)
Fixpoint drop_dots_dashes (s : gostring) : gostring :=
  match s with
  | c :: t => if Ascii.eqb c "." || Ascii.eqb c "-" then drop_dots_dashes t else s
  | [] => []
  end.
Definition trim_dots_dashes (s : gostring) : gostring := reverse (drop_dots_dashes (reverse s)).

(** ** State *)

Record DelegatedBackend := {
  db_UID : gostring; db_Name : gostring;      (* of the Owner *)
  db_Kind : gostring; db_Key : gostring; db_Namespace : gostring; db_Seed : gostring }.

Record BrokerResult := {
  br_Authorized : bool; br_Reason : gostring; br_Message : gostring; br_RequeueAfter : Duration }.

Record brokerState := {
  bk_seed : gostring; bk_refreshToken : gostring; bk_token : Token; bk_refreshAt : Time; bk_stored : bool }.

(** The states by UID, and the gauge [sigillum_backend_authorized]. *)
Record TokenBroker := { tb_state : gmap gostring brokerState; tb_authorized : gmap gostring Z }.
Definition NewBroker : TokenBroker := {| tb_state := ∅; tb_authorized := ∅ |}.

Definition put_state (uid : gostring) (st : brokerState) (b : TokenBroker) : TokenBroker :=
  {| tb_state := <[uid := st]> (tb_state b); tb_authorized := tb_authorized b |}.
Definition set_authorized (key : gostring) (v : Z) (b : TokenBroker) : TokenBroker :=
  {| tb_state := tb_state b; tb_authorized := <[key := v]> (tb_authorized b) |}.

(** ** The API server *)

Definition token_owned (name uid : gostring) (s : Secret) : Prop :=
  sec_Labels s !! OAuthTokenLabel = Some name ∧ sec_Annotations s !! OAuthTokenUIDAnnotation = Some uid.

(** What the patch changes: two annotations, and all of the data. *)
Record TokenPatch := { tp_seed : gostring; tp_refreshAt : gostring; tp_data : gmap gostring gostring }.
Definition apply_patch (p : TokenPatch) (s : Secret) : Secret :=
  {| sec_Labels := sec_Labels s;
     sec_Annotations := <[OAuthRefreshAtAnnotation := tp_refreshAt p]> (<[OAuthSeedAnnotation := tp_seed p]> (sec_Annotations s));
     sec_Owners := sec_Owners s; sec_Type := sec_Type s; sec_Data := tp_data p |}.

Class TokenSecretAPI (St : Type) := {
  tok_secrets : St → gmap secret_key Secret;
  tok_create : secret_key → Secret → St → St * option APIError;
  tok_patch : secret_key → gostring → gostring → TokenPatch → St → St * option APIError }.

(** As [SecretAPILaws]: a failed call may or may not have been applied. *)
Class TokenSecretAPILaws (St : Type) `{TokenSecretAPI St} := {
  tok_create_ok : ∀ k v s s', tok_create k v s = (s', None) →
    tok_secrets s !! k = None ∧ tok_secrets s' = <[k := v]> (tok_secrets s);
  tok_create_failed : ∀ k v s s' e, tok_create k v s = (s', Some e) →
    tok_secrets s' = tok_secrets s ∨
    (e ≠ AlreadyExists ∧ tok_secrets s !! k = None ∧ tok_secrets s' = <[k := v]> (tok_secrets s));
  tok_patch_ok : ∀ k name uid p s s', tok_patch k name uid p s = (s', None) →
    ∃ v, tok_secrets s !! k = Some v ∧ token_owned name uid v ∧ tok_secrets s' = <[k := apply_patch p v]> (tok_secrets s);
  tok_patch_failed : ∀ k name uid p s s' e, tok_patch k name uid p s = (s', Some e) →
    tok_secrets s' = tok_secrets s ∨
    (e ≠ Invalid ∧ ∃ v, tok_secrets s !! k = Some v ∧ token_owned name uid v ∧
       tok_secrets s' = <[k := apply_patch p v]> (tok_secrets s)) }.

Section broker.
Context `{TokenSecretAPI St, RFC3339, BrokerTexts, Hashes}.

Definition TokenSecretName (kind backend : gostring) : gostring :=
  let prefix := if kind == lit "MailBackend" then lit "sigillum-oauth-mb-" else lit "sigillum-oauth-cmb-" in
  let name := prefix ++ backend in
  if (length name <=? 253)%nat then name
  else trim_dots_dashes (take (253 - 17) name) ++ lit "-" ++ hex_Encode (take 8 (Sum256 name)).

Definition tokenSecretName (d : DelegatedBackend) : gostring := TokenSecretName (db_Kind d) (db_Name d).
Definition token_key (d : DelegatedBackend) : secret_key := (db_Namespace d, tokenSecretName d).

Definition seedHash (rt : gostring) : gostring := if rt == [] then [] else hex_Encode (take 16 (Sum256 rt)).

(** A missing key reads as the empty string. *)
Definition annotation (s : Secret) (k : gostring) : gostring := match sec_Annotations s !! k with Some v => v | None => [] end.
Definition secretData (s : Secret) (k : gostring) : gostring := match sec_Data s !! k with Some v => v | None => [] end.

Definition AccessTokenFromSecret (sec : Secret) : option Token :=
  let tok := secretData sec OAuthSecretAccessTokenKey in
  match ParseTime (secretData sec OAuthSecretExpiresAtKey) with
  | Some exp => if tok == [] then None else Some {| tk_AccessToken := tok; tk_Expiry := exp |}
  | None => None
  end.

(** [load]; [None] is a Secret that could not be read. *)
Definition load (read : option Secret) (d : DelegatedBackend) (seed : gostring) : brokerState :=
  let fresh := {| bk_seed := seed; bk_refreshToken := db_Seed d; bk_token := noToken; bk_refreshAt := 0; bk_stored := false |} in
  match read with
  | None => fresh
  | Some sec =>
      if (annotation sec OAuthTokenUIDAnnotation != db_UID d) || (annotation sec OAuthSeedAnnotation != seed)
         || (secretData sec OAuthSecretRefreshTokenKey == [])
      then fresh
      else
        let rt := secretData sec OAuthSecretRefreshTokenKey in
        match AccessTokenFromSecret sec with
        | None => {| bk_seed := seed; bk_refreshToken := rt; bk_token := noToken; bk_refreshAt := 0; bk_stored := false |}
        | Some tok =>
            match ParseTime (annotation sec OAuthRefreshAtAnnotation) with
            | Some t => {| bk_seed := seed; bk_refreshToken := rt; bk_token := tok; bk_refreshAt := t; bk_stored := true |}
            | None => {| bk_seed := seed; bk_refreshToken := rt; bk_token := tok; bk_refreshAt := 0; bk_stored := false |}
            end
        end
  end.

Definition tokenData (st : brokerState) : gmap gostring gostring :=
  <[OAuthSecretRefreshTokenKey := bk_refreshToken st]> (<[OAuthSecretAccessTokenKey := tk_AccessToken (bk_token st)]>
  {[OAuthSecretExpiresAtKey := FormatTime (tk_Expiry (bk_token st))]}).

Definition tokenSecret (d : DelegatedBackend) (st : brokerState) : Secret :=
  {| sec_Labels := {[OAuthTokenLabel := db_Name d]};
     sec_Annotations := <[OAuthTokenUIDAnnotation := db_UID d]> (<[OAuthSeedAnnotation := bk_seed st]>
       {[OAuthRefreshAtAnnotation := FormatTime (bk_refreshAt st)]});
     sec_Owners := [{| or_APIVersion := GroupVersion; or_Kind := db_Kind d; or_Name := db_Name d; or_UID := db_UID d; or_Controller := true |}];
     sec_Type := lit "Opaque"; sec_Data := tokenData st |}.

Definition tokenPatch (st : brokerState) : TokenPatch :=
  {| tp_seed := bk_seed st; tp_refreshAt := FormatTime (bk_refreshAt st); tp_data := tokenData st |}.

(** The Secrets after it, whether the name is taken, and the error. *)
Definition writeTokens (d : DelegatedBackend) (st : brokerState) (s : St) : St * bool * option APIError :=
  let '(s, err) := tok_create (token_key d) (tokenSecret d st) s in
  if err != Some AlreadyExists then (s, false, err)
  else
    let '(s, err) := tok_patch (token_key d) (db_Name d) (db_UID d) (tokenPatch st) s in
    (s, err == Some Invalid, err).

Definition authorized (requeue : Duration) : BrokerResult :=
  {| br_Authorized := true; br_Reason := ReasonAuthorized; br_Message := []; br_RequeueAfter := requeue |}.

(** The state a call works on. *)
Definition current_state (read : option Secret) (d : DelegatedBackend) (b : TokenBroker) : brokerState :=
  let seed := seedHash (db_Seed d) in
  match tb_state b !! db_UID d with
  | Some st => if bk_seed st == seed then st else load read d seed
  | None => load read d seed
  end.

(** After a refresh. *)
Definition refreshed (now : Time) (tok : Token) (next : gostring) (st : brokerState) : brokerState :=
  {| bk_seed := bk_seed st; bk_refreshToken := next; bk_token := tok;
     bk_refreshAt := now + Z.quot (time_sub (tk_Expiry tok) now) 2; bk_stored := false |}.

Definition set_stored (st : brokerState) : brokerState :=
  {| bk_seed := bk_seed st; bk_refreshToken := bk_refreshToken st; bk_token := bk_token st;
     bk_refreshAt := bk_refreshAt st; bk_stored := true |}.

(** The tokens are written, and the outcome reported. *)
Definition store (now : Time) (d : DelegatedBackend) (st : brokerState) (b : TokenBroker) (s : St)
    : TokenBroker * St * BrokerResult :=
  match writeTokens d st s with
  | (s, conflict, Some err) =>
      (put_state (db_UID d) st b, s,
       {| br_Authorized := true; br_Reason := if (conflict : bool) then ReasonSecretConflict else ReasonSecretWriteFailed;
          br_Message := lit "store tokens in Secret " ++ db_Namespace d ++ lit "/" ++ tokenSecretName d ++ lit ": " ++ write_text err;
          br_RequeueAfter := brokerRetry |})
  | (s, _, None) =>
      (set_authorized (db_Key d) 1 (put_state (db_UID d) (set_stored st) b), s, authorized (time_sub (bk_refreshAt st) now))
  end.

(** The broker, the Secrets, the refresh tokens redeemed (at most one) and the
    result. *)
Definition Ensure (now : Time) (guard : bool * gostring) (read : option Secret)
    (refresh : gostring → res FetchError (Token * gostring)) (d : DelegatedBackend) (b : TokenBroker) (s : St)
    : TokenBroker * St * list gostring * BrokerResult :=
  let st := current_state read d b in
  let b := put_state (db_UID d) st b in
  if bk_refreshToken st == [] then
    (set_authorized (db_Key d) 0 b, s, [],
     {| br_Authorized := false; br_Reason := ReasonAuthorizationRequired;
        br_Message := lit "no refresh token yet: sign in and store the refresh_token in the credentials Secret";
        br_RequeueAfter := brokerReauthRetry |})
  else if bk_stored st && (now <? bk_refreshAt st) then
    (set_authorized (db_Key d) 1 b, s, [], authorized (time_sub (bk_refreshAt st) now))
  else if negb (fst guard) then
    (b, s, [], {| br_Authorized := bk_stored st; br_Reason := ReasonGuardMissing; br_Message := snd guard;
                  br_RequeueAfter := brokerRetry |})
  else if now <? bk_refreshAt st then
    let '(b, s, r) := store now d st b s in (b, s, [], r)
  else
    match refresh (bk_refreshToken st) with
    | Err e =>
        if IsPermanent e then
          (set_authorized (db_Key d) 0 b, s, [bk_refreshToken st],
           {| br_Authorized := false; br_Reason := ReasonAuthorizationRequired;
              br_Message := lit "the provider rejected the refresh token, sign in again: " ++ fetch_text e;
              br_RequeueAfter := brokerReauthRetry |})
        else
          (b, s, [bk_refreshToken st],
           {| br_Authorized := true; br_Reason := ReasonTokenRefreshFailed; br_Message := fetch_text e;
              br_RequeueAfter := brokerRetry |})
    | Ok (tok, next) =>
        let '(b, s, r) := store now d (refreshed now tok next st) b s in (b, s, [bk_refreshToken st], r)
    end.

Definition Forget (uid key : gostring) (b : TokenBroker) : TokenBroker :=
  {| tb_state := delete uid (tb_state b); tb_authorized := delete key (tb_authorized b) |}.
End broker.

(** ** Writing and resuming *)

Section facts.
Context `{TokenSecretAPILaws St, RFC3339, BrokerTexts, Hashes}.

(** The Secret holds the tokens of [st], for the backend [d]. *)
Record holds_tokens (d : DelegatedBackend) (st : brokerState) (v : Secret) : Prop := {
  ht_owned : token_owned (db_Name d) (db_UID d) v;
  ht_seed : sec_Annotations v !! OAuthSeedAnnotation = Some (bk_seed st);
  ht_refreshAt : sec_Annotations v !! OAuthRefreshAtAnnotation = Some (FormatTime (bk_refreshAt st));
  ht_data : sec_Data v = tokenData st }.

Lemma tokenSecret_holds (d : DelegatedBackend) (st : brokerState) : holds_tokens d st (tokenSecret d st).
Proof.
  split; [split; [apply lookup_singleton_eq|apply lookup_insert_eq]| | |done]; cbn [sec_Annotations tokenSecret].
  - rewrite lookup_insert_ne by done. apply lookup_insert_eq.
  - rewrite !lookup_insert_ne by done. apply lookup_singleton_eq.
Qed.

Lemma apply_patch_holds (d : DelegatedBackend) (st : brokerState) (v : Secret) :
  token_owned (db_Name d) (db_UID d) v → holds_tokens d st (apply_patch (tokenPatch st) v).
Proof.
  intros [Hl Ha]. split; [split; [done|]| | |done]; cbn [sec_Annotations apply_patch tokenPatch tp_seed tp_refreshAt].
  - by rewrite !lookup_insert_ne by done.
  - rewrite lookup_insert_ne by done. apply lookup_insert_eq.
  - apply lookup_insert_eq.
Qed.

(** What a write can do: it touches the backend's own Secret only, and none that
    belongs to someone else; when it succeeds the Secret holds the tokens, when it
    fails the Secret holds them or is as before. *)
Lemma writeTokens_spec (d : DelegatedBackend) (st : brokerState) (s s' : St) (conflict : bool) (err : option APIError) :
  writeTokens d st s = (s', conflict, err) →
  (∀ k, k ≠ token_key d → tok_secrets s' !! k = tok_secrets s !! k) ∧
  (∀ v, tok_secrets s !! token_key d = Some v → ¬ token_owned (db_Name d) (db_UID d) v →
     tok_secrets s' !! token_key d = Some v ∧ err ≠ None) ∧
  ((∃ v, tok_secrets s' !! token_key d = Some v ∧ holds_tokens d st v) ∨
   err ≠ None ∧ tok_secrets s' !! token_key d = tok_secrets s !! token_key d).
Proof.
  unfold writeTokens. destruct (tok_create _ _ _) as [s1 e1] eqn:Hc.
  assert (∀ m : gmap secret_key Secret, ∀ v k, k ≠ token_key d → <[token_key d := v]> m !! k = m !! k) as Hother
    by (intros; by rewrite lookup_insert_ne).
  destruct (bool_decide_reflect (e1 = Some AlreadyExists)) as [->|Hne]; cbn [negb].
  - apply tok_create_failed in Hc as [Hs1|[? _]]; [|done].
    destruct (tok_patch _ _ _ _ _) as [s2 e2] eqn:Hp. intros [= -> <- ->].
    assert (tok_secrets s' = tok_secrets s ∧ err ≠ None ∨
            ∃ v, tok_secrets s !! token_key d = Some v ∧ token_owned (db_Name d) (db_UID d) v ∧
                 tok_secrets s' = <[token_key d := apply_patch (tokenPatch st) v]> (tok_secrets s)) as Hcase.
    { destruct err as [e|].
      - apply tok_patch_failed in Hp as [Hs|(_ & v & ? & ? & Hs)]; rewrite Hs1 in *; [left|right]; [done|by exists v].
      - apply tok_patch_ok in Hp as (v & ? & ? & Hs). rewrite Hs1 in *. right. by exists v. }
    destruct Hcase as [[Hs He]|(v & Hv & Hown & Hs)].
    + rewrite Hs. split_and!; [done|by intros|by right].
    + rewrite Hs. split_and!; [by intros; apply Hother| |].
      * intros v' Hv' Hno. rewrite Hv in Hv'. by injection Hv' as <-.
      * left. eexists. split; [apply lookup_insert_eq|]. by apply apply_patch_holds.
  - intros [= -> <- ->]. destruct err as [e|].
    + apply tok_create_failed in Hc as [Hs|(_ & Hk & Hs)]; rewrite Hs.
      * split_and!; [done|by intros|by right].
      * split_and!; [by intros; apply Hother|by intros v; rewrite Hk|].
        left. eexists. split; [apply lookup_insert_eq|apply tokenSecret_holds].
    + apply tok_create_ok in Hc as [Hk Hs]. rewrite Hs. split_and!; [by intros; apply Hother|by intros v; rewrite Hk|].
      left. eexists. split; [apply lookup_insert_eq|apply tokenSecret_holds].
Qed.

(** What is read back from such a Secret. *)
Lemma holds_values (d : DelegatedBackend) (st : brokerState) (v : Secret) : holds_tokens d st v →
  annotation v OAuthTokenUIDAnnotation = db_UID d ∧ annotation v OAuthSeedAnnotation = bk_seed st ∧
  annotation v OAuthRefreshAtAnnotation = FormatTime (bk_refreshAt st) ∧
  secretData v OAuthSecretRefreshTokenKey = bk_refreshToken st ∧
  secretData v OAuthSecretAccessTokenKey = tk_AccessToken (bk_token st) ∧
  secretData v OAuthSecretExpiresAtKey = FormatTime (tk_Expiry (bk_token st)).
Proof.
  intros [[_ Hu] Hs Hr Hd]. unfold annotation, secretData. rewrite Hu, Hs, Hr, Hd. unfold tokenData. split_and!; [done..| | |].
  - by rewrite lookup_insert_eq.
  - rewrite lookup_insert_ne by done. by rewrite lookup_insert_eq.
  - rewrite !lookup_insert_ne by done. by rewrite lookup_singleton_eq.
Qed.

Lemma load_refresh_token (d : DelegatedBackend) (st : brokerState) (v : Secret) : holds_tokens d st v → bk_refreshToken st ≠ [] →
  bk_refreshToken (load (Some v) d (bk_seed st)) = bk_refreshToken st.
Proof.
  intros (Hu & Hs & _ & Hr & _)%holds_values Hne. unfold load. rewrite Hu, Hs, Hr.
  rewrite !bool_decide_eq_true_2 by done. rewrite bool_decide_eq_false_2 by done. cbn [negb orb].
  by repeat case_match.
Qed.

(** What the broker wrote is what a restarted controller resumes from, and what the
    gateway reads: the same tokens, with their times in whole seconds. *)
Theorem stored_tokens_resume `{!RFC3339Laws} (d : DelegatedBackend) (st : brokerState) (s s' : St) (conflict : bool) :
  writeTokens d st s = (s', conflict, None) → bk_refreshToken st ≠ [] → tk_AccessToken (bk_token st) ≠ [] →
  0 ≤ bk_refreshAt st < year10000 → 0 ≤ tk_Expiry (bk_token st) < year10000 →
  let tok := {| tk_AccessToken := tk_AccessToken (bk_token st); tk_Expiry := whole_seconds (tk_Expiry (bk_token st)) |} in
  load (tok_secrets s' !! token_key d) d (bk_seed st) =
    {| bk_seed := bk_seed st; bk_refreshToken := bk_refreshToken st; bk_token := tok;
       bk_refreshAt := whole_seconds (bk_refreshAt st); bk_stored := true |} ∧
  ∃ v, tok_secrets s' !! token_key d = Some v ∧ AccessTokenFromSecret v = Some tok.
Proof.
  intros Hw Hr Ha Hat Hexp tok. apply writeTokens_spec in Hw as (_ & _ & [(v & Hv & Hh)|[? _]]); [|done].
  apply holds_values in Hh as (Hu & Hs & Hrt & Hrf & Hac & Hex).
  assert (AccessTokenFromSecret v = Some tok) as Htok.
  { unfold AccessTokenFromSecret. rewrite Hex, Hac, parse_format by done. by rewrite bool_decide_eq_false_2. }
  split; [|by exists v]. rewrite Hv. unfold load. rewrite Hu, Hs, Hrf, Htok, Hrt, parse_format by done.
  rewrite !bool_decide_eq_true_2 by done. by rewrite bool_decide_eq_false_2.
Qed.

(** ** The chain of refresh tokens is never lost *)

(** How a provider that rotates refresh tokens answers: only the newest one is
    accepted, and it is replaced; a temporary failure changes nothing. *)
Inductive provider (cur : gostring) : gostring → res FetchError (Token * gostring) → gostring → Prop :=
| grants tok next : next ≠ [] → provider cur cur (Ok (tok, next)) next
| unavailable rt e : IsPermanent e = false → provider cur rt (Err e) cur
| rejects rt e : rt ≠ cur → IsPermanent e = true → provider cur rt (Err e) cur.

(** [answer] was given to what a call redeemed, if anything. *)
Definition answered (cur : gostring) (redeemed : list gostring) (answer : res FetchError (Token * gostring)) (cur' : gostring) : Prop :=
  match redeemed with [] => cur' = cur | rt :: _ => provider cur rt answer cur' end.

(** The broker, the cluster's Secrets and the newest refresh token. *)
Record World := { w_broker : TokenBroker; w_secrets : St; w_current : gostring }.

Variable d : DelegatedBackend.
Let seed := seedHash (db_Seed d).

Inductive step : World → World → Prop :=
| step_ensure now guard answer w b s redeemed r cur :
    Ensure now guard (tok_secrets (w_secrets w) !! token_key d) (λ _, answer) d (w_broker w) (w_secrets w) = (b, s, redeemed, r) →
    answered (w_current w) redeemed answer cur →
    step w {| w_broker := b; w_secrets := s; w_current := cur |}
| step_restart w :
    (∀ st, tb_state (w_broker w) !! db_UID d = Some st → bk_stored st = true) →
    step w {| w_broker := NewBroker; w_secrets := w_secrets w; w_current := w_current w |}
| step_elsewhere w b s :
    tb_state b !! db_UID d = tb_state (w_broker w) !! db_UID d →
    tok_secrets s !! token_key d = tok_secrets (w_secrets w) !! token_key d →
    step w {| w_broker := b; w_secrets := s; w_current := w_current w |}.

(** A controller that starts now would resume with the newest token. *)
Definition resumes (w : World) : Prop :=
  bk_refreshToken (load (tok_secrets (w_secrets w) !! token_key d) d seed) = w_current w.

Definition chain_kept (w : World) : Prop :=
  w_current w ≠ [] ∧
  match tb_state (w_broker w) !! db_UID d with
  | Some st => bk_seed st = seed ∧ bk_refreshToken st = w_current w ∧ (bk_stored st = true → resumes w)
  | None => resumes w
  end.

Lemma load_seed (read : option Secret) (sd : gostring) : bk_seed (load read d sd) = sd.
Proof. unfold load. by repeat case_match. Qed.

Lemma current_kept (w : World) : chain_kept w →
  let st := current_state (tok_secrets (w_secrets w) !! token_key d) d (w_broker w) in
  bk_seed st = seed ∧ bk_refreshToken st = w_current w ∧ (bk_stored st = true → resumes w).
Proof.
  intros [_ Hk]. unfold current_state. fold seed. destruct (tb_state _ !! _) as [st|].
  - destruct Hk as (Hs & ? & ?). by rewrite bool_decide_eq_true_2.
  - by rewrite load_seed.
Qed.

(** Storing keeps the chain, whether it succeeds or not. *)
Lemma store_keeps (now : Time) (st : brokerState) (b b' : TokenBroker) (s s' : St) (r : BrokerResult) (cur : gostring) :
  store now d st b s = (b', s', r) → cur ≠ [] → bk_seed st = seed → bk_refreshToken st = cur →
  (bk_stored st = true → bk_refreshToken (load (tok_secrets s !! token_key d) d seed) = cur) →
  chain_kept {| w_broker := b'; w_secrets := s'; w_current := cur |} ∧ br_Reason r ≠ ReasonAuthorizationRequired.
Proof.
  unfold store. destruct (writeTokens d st s) as [[s1 conflict] err] eqn:Hw. intros Hst Hne Hs Hr Hstored.
  apply writeTokens_spec in Hw as (_ & _ & Hw).
  assert ((∃ v, tok_secrets s1 !! token_key d = Some v ∧ holds_tokens d st v) →
          bk_refreshToken (load (tok_secrets s1 !! token_key d) d seed) = cur) as Hload.
  { intros (v & -> & Hh). rewrite <- Hs, load_refresh_token with (st := st); congruence. }
  destruct err as [e|]; injection Hst as <- <- <-.
  - split; [|by destruct conflict]. split; [done|]. cbn [w_broker put_state tb_state]. rewrite lookup_insert_eq.
    split_and!; [done|done|]. intros Hst. unfold resumes. cbn [w_secrets w_current].
    destruct Hw as [Hv|[_ ->]]; [by apply Hload|by apply Hstored].
  - split; [|done]. split; [done|]. cbn [w_broker set_authorized put_state tb_state]. rewrite lookup_insert_eq.
    split_and!; [done|done|]. intros _. unfold resumes. cbn [w_secrets w_current]. destruct Hw as [Hv|[? _]]; [by apply Hload|done].
Qed.

Lemma ensure_keeps (w : World) (now : Time) (guard : bool * gostring) answer (b : TokenBroker) (s : St) redeemed r (cur : gostring) :
  chain_kept w →
  Ensure now guard (tok_secrets (w_secrets w) !! token_key d) (λ _, answer) d (w_broker w) (w_secrets w) = (b, s, redeemed, r) →
  answered (w_current w) redeemed answer cur →
  chain_kept {| w_broker := b; w_secrets := s; w_current := cur |} ∧ br_Reason r ≠ ReasonAuthorizationRequired ∧
  (redeemed = [] ∨ redeemed = [w_current w] ∧ fst guard = true).
Proof.
  intros Hk. pose proof (current_kept w Hk) as Hc. destruct Hk as [Hne _]. unfold Ensure.
  set (st := current_state _ _ _) in *. cbv zeta in Hc |- *. destruct Hc as (Hs & Hr & Hstored).
  rewrite bool_decide_eq_false_2 by by rewrite Hr.
  assert (∀ b', tb_state b' = <[db_UID d := st]> (tb_state (w_broker w)) →
    chain_kept {| w_broker := b'; w_secrets := w_secrets w; w_current := w_current w |}) as Hsame.
  { intros b' Hb'. split; [done|]. cbn [w_broker]. rewrite Hb', lookup_insert_eq. done. }
  destruct (bk_stored st && (now <? bk_refreshAt st)) eqn:E1.
  { intros [= <- <- <- <-] ->. split_and!; [by apply Hsame|done|by left]. }
  destruct (fst guard); cbn [negb].
  2: { intros [= <- <- <- <-] ->. split_and!; [by apply Hsame|done|by left]. }
  destruct (now <? bk_refreshAt st).
  - destruct (store _ _ _ _ _) as [[b1 s1] r1] eqn:Hst. intros [= <- <- <- <-] ->.
    destruct (store_keeps _ _ _ _ _ _ _ _ Hst Hne Hs Hr Hstored). split_and!; [done|done|by left].
  - destruct answer as [[tok next]|e].
    + destruct (store _ _ _ _ _) as [[b1 s1] r1] eqn:Hst. intros [= <- <- <- <-] Ha. cbn in Ha.
      inversion Ha as [? ? Hnext| |]; subst.
      destruct (store_keeps _ _ _ _ _ _ _ cur Hst) as [? ?]; [done|done|done|done|].
      split_and!; [done|done|right; split; [congruence|done]].
    + destruct (IsPermanent e) eqn:He; intros [= <- <- <- <-] Ha; cbn in Ha; inversion Ha; subst; try congruence.
      split_and!; [by apply Hsame|done|right; split; [congruence|done]].
Qed.

Lemma step_keeps (w w' : World) : step w w' → chain_kept w → chain_kept w'.
Proof.
  intros Hstep Hk. destruct Hstep as [now guard answer w b s redeemed r cur He Ha|w Hst|w b s Hb Hs].
  - by eapply ensure_keeps in He as (? & _).
  - destruct Hk as [Hne Hk]. split; [done|]. cbn [w_broker NewBroker tb_state]. rewrite lookup_empty.
    destruct (tb_state (w_broker w) !! db_UID d) as [st|]; [|done]. apply Hk. by apply Hst.
  - destruct Hk as [Hne Hk]. split; [done|]. cbn [w_broker]. rewrite Hb. unfold resumes in *. cbn [w_secrets w_current].
    by rewrite Hs.
Qed.

(** Right after a sign-in: nothing is in memory, and a Secret of the name, if there
    is one, stems from another sign-in. *)
Definition signed_in (s : St) (w : World) : Prop :=
  w = {| w_broker := NewBroker; w_secrets := s; w_current := db_Seed d |} ∧ db_Seed d ≠ [] ∧
  ∀ v, tok_secrets s !! token_key d = Some v → annotation v OAuthSeedAnnotation ≠ seed.

Lemma signed_in_kept (s : St) (w : World) : signed_in s w → chain_kept w.
Proof.
  intros (-> & Hne & Hv). split; [done|]. cbn [w_broker NewBroker tb_state]. rewrite lookup_empty.
  unfold resumes. cbn [w_secrets w_current]. unfold load. destruct (tok_secrets s !! token_key d) as [v|] eqn:E; [|done].
  rewrite (bool_decide_eq_false_2 (annotation v OAuthSeedAnnotation = seed)) by by apply Hv. by rewrite orb_true_r.
Qed.

End facts.

(** ** Backends with long names *)

(** Kubernetes refuses an object with a label value of more than 63 bytes. *)
Class LabelLimit (St : Type) `{TokenSecretAPI St} := {
  label_limit : ∀ k v s l x, sec_Labels v !! l = Some x → (63 < length x)%nat → tok_create k v s = (s, Some Invalid) }.

(** The label of a token Secret is the backend's name, which may be longer: such a
    backend's tokens are never stored, though its refresh token is redeemed, and so
    rotated, all the same. *)
Theorem long_name_never_stored `{LabelLimit St, RFC3339, BrokerTexts, Hashes} (now : Time) (msg : gostring) read refresh
    (d : DelegatedBackend) (b : TokenBroker) (s : St) (tok : Token) (next : gostring) :
  (63 < length (db_Name d))%nat → bk_refreshToken (current_state read d b) ≠ [] → bk_refreshAt (current_state read d b) ≤ now →
  refresh (bk_refreshToken (current_state read d b)) = Ok (tok, next) →
  ∃ b' r, Ensure now (true, msg) read refresh d b s = (b', s, [bk_refreshToken (current_state read d b)], r) ∧
    br_Reason r = ReasonSecretWriteFailed ∧
    from_option bk_stored false (tb_state b' !! db_UID d) = false.
Proof.
  intros Hlen Hne Hat Href. unfold Ensure. rewrite bool_decide_eq_false_2 by done.
  rewrite (proj2 (Z.ltb_ge _ _)) by done. rewrite andb_false_r. cbn [fst negb]. rewrite Href.
  unfold store, writeTokens. rewrite (label_limit (token_key d) _ s OAuthTokenLabel (db_Name d)); [|apply lookup_singleton_eq|done].
  rewrite (bool_decide_eq_false_2 (Some Invalid = _)) by done. cbn [negb].
  do 2 eexists. split; [done|]. split; [done|]. cbn [put_state tb_state]. by rewrite lookup_insert_eq.
Qed.

(** ** Names *)

Lemma drop_dots_dashes_suffix (s : gostring) : ∃ t, s = t ++ drop_dots_dashes s.
Proof.
  induction s as [|c s [t IH]]; [by exists []|]. cbn [drop_dots_dashes]. destruct (_ || _); [|by exists []].
  exists (c :: t). simpl. by f_equal.
Qed.

Lemma trim_dots_dashes_prefix (s : gostring) : trim_dots_dashes s `prefix_of` s.
Proof.
  unfold trim_dots_dashes. destruct (drop_dots_dashes_suffix (reverse s)) as [t Ht].
  exists (reverse t). apply (f_equal reverse) in Ht. by rewrite reverse_involutive, reverse_app in Ht.
Qed.

Lemma length_hex (s : gostring) : length (hex_Encode s) = (2 * length s)%nat.
Proof. unfold hex_Encode. induction s as [|c s IH]; [done|]. csimpl. rewrite IH. lia. Qed.

(** The name of a token Secret fits Kubernetes' limit of 253 bytes, whatever the
    backend's name; a name that fits is kept, so the two kinds of backend and
    different backends never share one. *)
Theorem token_secret_name_fits `{HashesLaws} (kind backend : gostring) :
  (length (TokenSecretName kind backend) ≤ 253)%nat ∧
  ∀ kind' backend',
    (length backend ≤ 234)%nat → (length backend' ≤ 234)%nat → TokenSecretName kind backend = TokenSecretName kind' backend' →
    backend = backend' ∧ (kind = lit "MailBackend" ↔ kind' = lit "MailBackend").
Proof.
  split.
  - unfold TokenSecretName. set (name := _ ++ backend). destruct (length name <=? 253)%nat eqn:E; [by apply Nat.leb_le|].
    pose proof (prefix_length _ _ (trim_dots_dashes_prefix (take (253 - 17) name))) as Hl. rewrite length_take in Hl.
    rewrite !length_app, length_hex, length_take, Sum256_length. change (length (lit "-")) with 1%nat. lia.
  - intros kind' backend' Hb Hb'.
    assert (∀ k b, (length b ≤ 234)%nat → TokenSecretName k b =
      (if k == lit "MailBackend" then lit "sigillum-oauth-mb-" else lit "sigillum-oauth-cmb-") ++ b) as Hn.
    { intros k b Hl. unfold TokenSecretName. rewrite (proj2 (Nat.leb_le _ _)); [done|].
      rewrite length_app. destruct (k == lit "MailBackend"); simpl length; lia. }
    rewrite !Hn by done. do 2 case_bool_decide; cbn; intros [= ->]; naive_solver.
Qed.

(** ** Witnesses *)

Module BrokerExample.

#[local] Instance hashes : Hashes := toy_hashes.
#[local] Instance texts : BrokerTexts := {| fetch_text := λ _, "error"; write_text := λ _, "error" |}.

(** Seconds in unary. *)
#[local] Instance unary : RFC3339 := {|
  FormatTime := λ t, replicate (Z.to_nat (t / Second)) "1"%char;
  ParseTime := λ s, Some (Z.of_nat (length s) * Second) |}.
#[local] Instance unary_laws : RFC3339Laws.
Proof.
  split. intros t Ht. cbn. rewrite length_replicate, Z2Nat.id; [done|]. apply Z.div_pos; [lia|done].
Defined.

Definition owned_token (name uid : gostring) (s : Secret) : bool :=
  (sec_Labels s !! OAuthTokenLabel == Some name) && (sec_Annotations s !! OAuthTokenUIDAnnotation == Some uid).

(** An API server that never fails. *)
#[local] Instance plain_api : TokenSecretAPI (gmap secret_key Secret) := {|
  tok_secrets := λ s, s;
  tok_create := λ k v s, match s !! k with Some _ => (s, Some AlreadyExists) | None => (<[k := v]> s, None) end;
  tok_patch := λ k name uid p s,
    match s !! k with
    | Some v => if owned_token name uid v then (<[k := apply_patch p v]> s, None) else (s, Some Invalid)
    | None => (s, Some NotFound)
    end |}.

#[local] Instance plain_api_laws : TokenSecretAPILaws (gmap secret_key Secret).
Proof.
  split; cbn.
  - intros k v s s'. destruct (s !! k) eqn:E; [done|]. by intros [= <-].
  - intros k v s s' e. destruct (s !! k) eqn:E; [|done]. intros [= <- <-]. by left.
  - intros k name uid p s s'. destruct (s !! k) as [v|] eqn:E; [|done].
    unfold owned_token, token_owned. do 2 case_bool_decide; cbn; try done. intros [= <-]. by exists v.
  - intros k name uid p s s' e. destruct (s !! k) as [v|] eqn:E; [|intros [= <- <-]; by left].
    destruct (owned_token name uid v); [done|]. intros [= <- <-]. by left.
Defined.

Definition desk : DelegatedBackend := {|
  db_UID := "u1"; db_Name := "desk"; db_Kind := "MailBackend"; db_Key := "team/desk"; db_Namespace := "team"; db_Seed := "rt0" |}.

Definition access (t : Time) : Token := {| tk_AccessToken := "at"; tk_Expiry := t |}.

(** The first call redeems the seed and stores the pair. *)
Definition first := Ensure (100 * Second) (true, []) None (λ _, Ok (access (200 * Second), lit "rt1")) desk NewBroker ∅.
Definition signed : World (St := gmap secret_key Secret) := {| w_broker := NewBroker; w_secrets := ∅; w_current := "rt0" |}.
Definition later : World (St := gmap secret_key Secret) := {| w_broker := first.1.1.1; w_secrets := first.1.1.2; w_current := "rt1" |}.
(** A restart, and the next refresh with the token from the Secret. *)
Definition restarted : World (St := gmap secret_key Secret) := {| w_broker := NewBroker; w_secrets := first.1.1.2; w_current := "rt1" |}.
Definition second := Ensure (150 * Second) (true, []) (tok_secrets (w_secrets restarted) !! token_key desk)
  (λ _, Ok (access (300 * Second), lit "rt2")) desk (w_broker restarted) (w_secrets restarted).

Example second_redeems : second.1.2 = [lit "rt1"].
Proof. vm_compute. reflexivity. Qed.

Lemma first_step : step desk signed later.
Proof.
  refine (step_ensure desk (100 * Second) (true, lit "") (Ok (access (200 * Second), lit "rt1")) signed
            first.1.1.1 first.1.1.2 [lit "rt0"] first.2 (lit "rt1") _ _).
  - match goal with |- ?a = ?b => exact (eq_refl b <: a = b) end.
  - by apply grants.
Qed.

Lemma later_stored : from_option bk_stored false (tb_state (w_broker later) !! db_UID desk) = true.
Proof. vm_compute. reflexivity. Qed.

Lemma restart_step : step desk later restarted.
Proof.
  refine (step_restart desk later _). intros st Hst. pose proof later_stored as Hl. by rewrite Hst in Hl.
Qed.


(** An API server that knows the limit. *)
Definition long_label (v : Secret) : bool := existsb (λ kv, (63 <? length kv.2)%nat) (map_to_list (sec_Labels v)).
Definition strict_api : TokenSecretAPI (gmap secret_key Secret) := {|
  tok_secrets := λ s, s;
  tok_create := λ k v s, if long_label v then (s, Some Invalid) else tok_create k v s;
  tok_patch := tok_patch |}.
Definition strict_limit : LabelLimit (gmap secret_key Secret) (H := strict_api).
Proof.
  split. intros k v s l x Hl Hx. cbn [tok_create strict_api]. assert (long_label v = true) as ->; [|done].
  apply existsb_exists. exists (l, x). split; [by apply list_elem_of_In, elem_of_map_to_list|]. by apply Nat.ltb_lt.
Defined.

Definition long_desk : DelegatedBackend := {|
  db_UID := "u1"; db_Name := replicate 64 "d"%char; db_Kind := "MailBackend"; db_Key := "team/d"; db_Namespace := "team";
  db_Seed := "rt0" |}.

Lemma long_name_never_stored_witness :
  ∃ b' r, Ensure (H := strict_api) Second (true, lit "") None (λ _, Ok (access (200 * Second), lit "rt1")) long_desk NewBroker ∅ =
    (b', ∅, [lit "rt0"], r) ∧ br_Reason r = ReasonSecretWriteFailed ∧
    from_option bk_stored false (tb_state b' !! db_UID long_desk) = false.
Proof.
  refine (long_name_never_stored (H := strict_api) (H0 := strict_limit) Second (lit "") None _ long_desk NewBroker ∅
           (access (200 * Second)) (lit "rt1") _ _ _ _).
  - apply Nat.ltb_lt. reflexivity.
  - discriminate.
  - vm_compute. discriminate.
  - reflexivity.
Defined.

Definition held : brokerState := {|
  bk_seed := "s"; bk_refreshToken := "rt1"; bk_token := access (5 * Second + 3); bk_refreshAt := 2 * Second + 1; bk_stored := false |}.

Definition held_secrets : gmap secret_key Secret := (writeTokens desk held ∅).1.1.

Lemma stored_tokens_resume_witness :
  let tok := {| tk_AccessToken := tk_AccessToken (bk_token held); tk_Expiry := whole_seconds (tk_Expiry (bk_token held)) |} in
  load (tok_secrets held_secrets !! token_key desk) desk (bk_seed held) =
    {| bk_seed := bk_seed held; bk_refreshToken := bk_refreshToken held; bk_token := tok;
       bk_refreshAt := whole_seconds (bk_refreshAt held); bk_stored := true |} ∧
  ∃ v, tok_secrets held_secrets !! token_key desk = Some v ∧ AccessTokenFromSecret v = Some tok.
Proof.
  refine (stored_tokens_resume desk held ∅ held_secrets false _ _ _ _ _).
  - match goal with |- ?a = ?b => exact (eq_refl b <: a = b) end.
  - done.
  - done.
  - vm_compute. split; [discriminate|reflexivity].
  - vm_compute. split; [discriminate|reflexivity].
Defined.

Example held_times : whole_seconds (tk_Expiry (bk_token held)) = 5 * Second ∧ whole_seconds (bk_refreshAt held) = 2 * Second.
Proof. split; reflexivity. Qed.
End BrokerExample.
