(* ===== verification/Guard.v ===== *)
(** * The credential Secret guard ([internal/credential/guard.go],
      [internal/controller/credential_guard.go])

    A ValidatingAdmissionPolicy restricts the Secrets the controller may write; the
    controller writes only while the policy in the cluster is the expected one.  The
    policy's expressions are kept as the text the code builds (so that [Verify] can
    compare them) and, next to it, as the predicates they express ([guardAllows]).
    The API server, which enforces a policy, is the parameter [Admission]. *)

From S2P Require Import Prelude GoStrings Types Credential Verifier Webhook Resolver CredController OAuth TokenBroker.

(** ** The admission objects ([k8s.io/api/admissionregistration/v1]) *)

#[global] Instance LabelSelectorRequirement_eq_dec : EqDecision LabelSelectorRequirement.
Proof. solve_decision. Defined.
#[global] Instance LabelSelector_eq_dec : EqDecision LabelSelector.
Proof. solve_decision. Defined.

Record ResourceRule := {
  rr_ResourceNames : list gostring; rr_Operations : list gostring; rr_APIGroups : list gostring;
  rr_APIVersions : list gostring; rr_Resources : list gostring; rr_Scope : option gostring }.

Record MatchResources := {
  ms_NamespaceSelector : option LabelSelector; ms_ObjectSelector : option LabelSelector;
  ms_ResourceRules : list ResourceRule; ms_ExcludeResourceRules : list ResourceRule; ms_MatchPolicy : option gostring }.

#[global] Instance ResourceRule_eq_dec : EqDecision ResourceRule.
Proof. solve_decision. Defined.
#[global] Instance MatchResources_eq_dec : EqDecision MatchResources.
Proof. solve_decision. Defined.

(** A name and an expression: a match condition or a variable. *)
Definition Named := (gostring * gostring)%type.

Record Validation := { vl_Expression : gostring; vl_Message : gostring }.

Record PolicySpec := {
  ps_FailurePolicy : option gostring; ps_ParamKind : option gostring; ps_MatchConstraints : option MatchResources;
  ps_MatchConditions : list Named; ps_Variables : list Named; ps_Validations : list Validation }.

Record BindingSpec := {
  bd_PolicyName : gostring; bd_ParamRef : option gostring; bd_ValidationActions : list gostring;
  bd_MatchResources : option MatchResources }.

#[global] Instance Validation_eq_dec : EqDecision Validation.
Proof. solve_decision. Defined.
#[global] Instance PolicySpec_eq_dec : EqDecision PolicySpec.
Proof. solve_decision. Defined.
#[global] Instance BindingSpec_eq_dec : EqDecision BindingSpec.
Proof. solve_decision. Defined.

Definition FailurePolicyFail : gostring := "Fail".
Definition MatchPolicyEquivalent : gostring := "Equivalent".
Definition AllScopes : gostring := "*".
Definition NamespacedScope : gostring := "Namespaced".
Definition Deny : gostring := "Deny".

(** ** The guard *)

Record Guard := { gd_Name : gostring; gd_ControllerUsername : gostring; gd_Exclusions : Exclusions }.

(** The expression of a label or annotation that may be missing. *)
Definition cel_value (field key : gostring) : gostring :=
  lit "has(object.metadata." ++ field ++ lit ") && '" ++ key ++ lit "' in object.metadata." ++ field ++
  lit " ? object.metadata." ++ field ++ lit "['" ++ key ++ lit "'] : ''".

Definition celCredentialVar : gostring := cel_value "labels" CredentialLabel.
Definition celUIDVar : gostring := cel_value "annotations" CredentialUIDAnnotation.
Definition celOAuthBackendVar : gostring := cel_value "labels" OAuthTokenLabel.
Definition celOAuthUIDVar : gostring := cel_value "annotations" OAuthTokenUIDAnnotation.
Definition celIsCredentialVar : gostring :=
  "variables.credential != '' && variables.uid != '' && variables.oauthBackend == '' && variables.oauthUID == ''".
Definition celIsOAuthVar : gostring :=
  "variables.oauthBackend != '' && variables.oauthUID != '' && variables.credential == '' && variables.uid == ''".

Definition celLabelled : gostring := "variables.isCredential || variables.isOAuth".
Definition celOwned : gostring :=
  lit "has(object.metadata.ownerReferences) && object.metadata.ownerReferences.exists(r," ++
  lit " r.apiVersion.startsWith('sigillum.dev/') && has(r.controller) && r.controller && (variables.isCredential" ++
  lit " ? r.kind == 'MailCredential' && r.name == variables.credential && r.uid == variables.uid" ++
  lit " : (r.kind == 'MailBackend' || r.kind == 'ClusterMailBackend') && r.name == variables.oauthBackend && r.uid == variables.oauthUID))".

(** The old object has the key, with the value of the variable. *)
Definition cel_old (field key var : gostring) : gostring :=
  lit "has(oldObject.metadata." ++ field ++ lit ") && '" ++ key ++ lit "' in oldObject.metadata." ++ field ++ lit " &&" ++
  lit " oldObject.metadata." ++ field ++ lit "['" ++ key ++ lit "'] == variables." ++ var.

Definition celSameOwner : gostring :=
  lit "request.operation != 'UPDATE' || (variables.isCredential ? (" ++
  cel_old "labels" CredentialLabel "credential" ++ lit " && " ++ cel_old "annotations" CredentialUIDAnnotation "uid" ++ lit ") : (" ++
  cel_old "labels" OAuthTokenLabel "oauthBackend" ++ lit " && " ++ cel_old "annotations" OAuthTokenUIDAnnotation "oauthUID" ++ lit "))".
Definition celOpaque : gostring := "has(object.type) && object.type == 'Opaque'".
Definition celDataKeys : gostring :=
  lit "!has(object.data) || object.data.all(k, variables.isCredential" ++
  lit " ? k in ['" ++ CredentialSecretUsernameKey ++ lit "', '" ++ CredentialSecretPasswordKey ++ lit "', '" ++
  CredentialSecretHostKey ++ lit "', '" ++ CredentialSecretPortKey ++ lit "']" ++
  lit " : k in ['" ++ OAuthSecretRefreshTokenKey ++ lit "', '" ++ OAuthSecretAccessTokenKey ++ lit "', '" ++
  OAuthSecretExpiresAtKey ++ lit "'])".
Definition celNamespace : gostring :=
  lit "variables.isOAuth && request.namespace == variables.releaseNamespace ||" ++
  lit " request.namespace != variables.releaseNamespace &&" ++
  lit " !(request.namespace in variables.excludedNames) &&" ++
  lit " !variables.excludedPrefixes.exists(p, request.namespace.startsWith(p))".

(** [json.Marshal] of a string and of a slice of strings. *)
Class CelJSON := { celJSON : gostring → gostring; celJSONs : list gostring → gostring }.

Section policy.
Context `{CelJSON}.

Definition guardRule : ResourceRule := {|
  rr_ResourceNames := []; rr_Operations := [lit "CREATE"; lit "UPDATE"]; rr_APIGroups := [[]]; rr_APIVersions := [lit "v1"];
  rr_Resources := [lit "secrets"]; rr_Scope := None |}.

Definition Policy (g : Guard) : PolicySpec :=
  let '(exact, prefixes) := split (gd_Exclusions g) in
  {| ps_FailurePolicy := Some FailurePolicyFail; ps_ParamKind := None;
     ps_MatchConstraints := Some {| ms_NamespaceSelector := None; ms_ObjectSelector := None; ms_ResourceRules := [guardRule];
                                    ms_ExcludeResourceRules := []; ms_MatchPolicy := None |};
     ps_MatchConditions := [(lit "controller-only", lit "request.userInfo.username == " ++ celJSON (gd_ControllerUsername g))];
     ps_Variables := [
       (lit "releaseNamespace", celJSON (ex_ReleaseNamespace (gd_Exclusions g))); (lit "excludedNames", celJSONs exact);
       (lit "excludedPrefixes", celJSONs prefixes); (lit "credential", celCredentialVar); (lit "uid", celUIDVar);
       (lit "oauthBackend", celOAuthBackendVar); (lit "oauthUID", celOAuthUIDVar); (lit "isCredential", celIsCredentialVar);
       (lit "isOAuth", celIsOAuthVar)];
     ps_Validations := [
       {| vl_Expression := celLabelled; vl_Message :=
            lit "the Sigillum controller may only write Secrets labelled " ++ CredentialLabel ++ lit " and annotated " ++
            CredentialUIDAnnotation ++ lit ", or labelled " ++ OAuthTokenLabel ++ lit " and annotated " ++ OAuthTokenUIDAnnotation |};
       {| vl_Expression := celOwned; vl_Message :=
            lit "the Secret must be controlled by the MailCredential named in its " ++ CredentialLabel ++
            lit " label, or by the backend named in its " ++ OAuthTokenLabel ++ lit " label" |};
       {| vl_Expression := celSameOwner; vl_Message :=
            lit "the Sigillum controller may only update Secrets that already belong to the same MailCredential or backend" |};
       {| vl_Expression := celOpaque; vl_Message := lit "the Sigillum controller may only write Secrets of type Opaque" |};
       {| vl_Expression := celDataKeys; vl_Message :=
            lit "the Sigillum controller may only write the keys " ++ CredentialSecretUsernameKey ++ lit ", " ++
            CredentialSecretPasswordKey ++ lit ", " ++ CredentialSecretHostKey ++ lit " and " ++ CredentialSecretPortKey ++
            lit " (credential Secrets) or " ++ OAuthSecretRefreshTokenKey ++ lit ", " ++ OAuthSecretAccessTokenKey ++ lit " and " ++
            OAuthSecretExpiresAtKey ++ lit " (OAuth token Secrets)" |};
       {| vl_Expression := celNamespace; vl_Message := lit "this namespace is excluded from generated mail credentials" |}] |}.

Definition Binding (g : Guard) : BindingSpec := {|
  bd_PolicyName := gd_Name g; bd_ParamRef := None; bd_ValidationActions := [Deny]; bd_MatchResources := None |}.

Definition emptySelector (s : option LabelSelector) : bool :=
  match s with
  | None => true
  | Some s => (size (MatchLabels s) =? 0)%nat && (length (MatchExpressions s) =? 0)%nat
  end.

Inductive GuardChange :=
| FailurePolicyIs (p : gostring) | UnexpectedParamKind | NoMatchConstraints | MatchNarrowed | MatchPolicyIs (p : gostring)
| ResourceRulesChanged | MatchConditionsChanged | VariablesChanged | ValidationsChanged | ValidationChanged (i : nat)
| PolicyNameIs (p : gostring) | UnexpectedParamRef | NoDeny | BindingNarrowed.

(** The first validation that differs. *)
Fixpoint changedValidation (i : nat) (got want : list Validation) : option nat :=
  match got, want with
  | g :: got, w :: want => if vl_Expression g != vl_Expression w then Some i else changedValidation (S i) got want
  | _, _ => None
  end.

Definition ruleChanged (gr wr : ResourceRule) : bool :=
  (0 <? length (rr_ResourceNames gr))%nat || (rr_Operations gr != rr_Operations wr) || (rr_APIGroups gr != rr_APIGroups wr)
  || (rr_APIVersions gr != rr_APIVersions wr) || (rr_Resources gr != rr_Resources wr)
  || match rr_Scope gr with Some s => (s != AllScopes) && (s != NamespacedScope) | None => false end.

Definition verifyPolicy (g : Guard) (got : PolicySpec) : option GuardChange :=
  let want := Policy g in
  match ps_FailurePolicy got with
  | Some p => if p != FailurePolicyFail then Some (FailurePolicyIs p) else None
  | None => None
  end ∪
  (if bool_decide (is_Some (ps_ParamKind got)) then Some UnexpectedParamKind else None) ∪
  match ps_MatchConstraints got with
  | None => Some NoMatchConstraints
  | Some mc =>
      (if (0 <? length (ms_ExcludeResourceRules mc))%nat || negb (emptySelector (ms_NamespaceSelector mc))
          || negb (emptySelector (ms_ObjectSelector mc)) then Some MatchNarrowed else None) ∪
      match ms_MatchPolicy mc with
      | Some p => if p != MatchPolicyEquivalent then Some (MatchPolicyIs p) else None
      | None => None
      end ∪
      match ms_ResourceRules mc with
      | [gr] => if ruleChanged gr guardRule then Some ResourceRulesChanged else None
      | _ => Some ResourceRulesChanged
      end
  end ∪
  (if ps_MatchConditions got != ps_MatchConditions want then Some MatchConditionsChanged else None) ∪
  (if ps_Variables got != ps_Variables want then Some VariablesChanged else None) ∪
  (if negb (length (ps_Validations got) =? length (ps_Validations want))%nat then Some ValidationsChanged
   else ValidationChanged <$> changedValidation 0 (ps_Validations got) (ps_Validations want)).

Definition verifyBinding (g : Guard) (got : BindingSpec) : option GuardChange :=
  (if bd_PolicyName got != gd_Name g then Some (PolicyNameIs (bd_PolicyName got)) else None) ∪
  (if bool_decide (is_Some (bd_ParamRef got)) then Some UnexpectedParamRef else None) ∪
  (if negb (bool_decide (Deny ∈ bd_ValidationActions got)) then Some NoDeny else None) ∪
  match bd_MatchResources got with
  | Some mr => if (0 <? length (ms_ResourceRules mr))%nat || (0 <? length (ms_ExcludeResourceRules mr))%nat
                  || negb (emptySelector (ms_NamespaceSelector mr)) || negb (emptySelector (ms_ObjectSelector mr))
               then Some BindingNarrowed else None
  | None => None
  end.

(** Why the guard is not in place. *)
Inductive GuardError := PolicyLookup (e : APIError) | BindingLookup (e : APIError) | PolicyChanged (c : GuardChange) | BindingChanged (c : GuardChange).

(** [None]: the guard is in place. *)
Definition Verify (g : Guard) (policy : res APIError PolicySpec) (binding : res APIError BindingSpec) : option GuardError :=
  match policy, binding with
  | Err e, _ => Some (PolicyLookup e)
  | Ok _, Err e => Some (BindingLookup e)
  | Ok p, Ok b => (PolicyChanged <$> verifyPolicy g p) ∪ (BindingChanged <$> verifyBinding g b)
  end.
End policy.

(** ** What the expressions say *)

(** A request the API server admits or denies: the operation, the user, the namespace,
    the Secret as it would be and, for an update, as it is. *)
Record AdmissionRequest := {
  aq_Operation : gostring; aq_User : gostring; aq_Namespace : gostring; aq_Object : Secret; aq_Old : option Secret }.

(** [celCredentialVar] and the like: the value, or the empty string. *)
Definition valueOf (m : gmap gostring gostring) (k : gostring) : gostring := match m !! k with Some v => v | None => [] end.

Record Shape := { sh_credential : gostring; sh_uid : gostring; sh_oauthBackend : gostring; sh_oauthUID : gostring }.

Definition shapeOf (s : Secret) : Shape := {|
  sh_credential := valueOf (sec_Labels s) CredentialLabel; sh_uid := valueOf (sec_Annotations s) CredentialUIDAnnotation;
  sh_oauthBackend := valueOf (sec_Labels s) OAuthTokenLabel; sh_oauthUID := valueOf (sec_Annotations s) OAuthTokenUIDAnnotation |}.

Definition isCredential (v : Shape) : bool :=
  (sh_credential v != []) && (sh_uid v != []) && (sh_oauthBackend v == []) && (sh_oauthUID v == []).
Definition isOAuth (v : Shape) : bool :=
  (sh_oauthBackend v != []) && (sh_oauthUID v != []) && (sh_credential v == []) && (sh_uid v == []).

Definition ownedBy (v : Shape) (r : OwnerReference) : bool :=
  HasPrefix (or_APIVersion r) (lit "sigillum.dev/") && or_Controller r &&
  if isCredential v
  then (or_Kind r == lit "MailCredential") && (or_Name r == sh_credential v) && (or_UID r == sh_uid v)
  else ((or_Kind r == lit "MailBackend") || (or_Kind r == lit "ClusterMailBackend"))
       && (or_Name r == sh_oauthBackend v) && (or_UID r == sh_oauthUID v).

Definition sameOwner (v : Shape) (operation : gostring) (old : option Secret) : bool :=
  (operation != lit "UPDATE") ||
  match old with
  | None => false
  | Some old =>
      if isCredential v
      then (sec_Labels old !! CredentialLabel == Some (sh_credential v)) &&
           (sec_Annotations old !! CredentialUIDAnnotation == Some (sh_uid v))
      else (sec_Labels old !! OAuthTokenLabel == Some (sh_oauthBackend v)) &&
           (sec_Annotations old !! OAuthTokenUIDAnnotation == Some (sh_oauthUID v))
  end.

Definition credentialKeys : list gostring :=
  [CredentialSecretUsernameKey; CredentialSecretPasswordKey; CredentialSecretHostKey; CredentialSecretPortKey].
Definition oauthKeys : list gostring := [OAuthSecretRefreshTokenKey; OAuthSecretAccessTokenKey; OAuthSecretExpiresAtKey].

Definition dataKeys (v : Shape) (data : gmap gostring gostring) : bool :=
  forallb (λ k, bool_decide (k ∈ if isCredential v then credentialKeys else oauthKeys)) (map_to_list data).*1.

Definition namespaceAllowed (e : Exclusions) (v : Shape) (ns : gostring) : bool :=
  let '(exact, prefixes) := split e in
  isOAuth v && (ns == ex_ReleaseNamespace e) ||
  (ns != ex_ReleaseNamespace e) && negb (bool_decide (ns ∈ exact)) && negb (existsb (HasPrefix ns) prefixes).

(** Every validation of the policy holds. *)
Definition guardAllows (g : Guard) (r : AdmissionRequest) : bool :=
  let v := shapeOf (aq_Object r) in
  (isCredential v || isOAuth v) && existsb (ownedBy v) (sec_Owners (aq_Object r)) && sameOwner v (aq_Operation r) (aq_Old r)
  && (sec_Type (aq_Object r) == lit "Opaque") && dataKeys v (sec_Data (aq_Object r))
  && namespaceAllowed (gd_Exclusions g) v (aq_Namespace r).

(** ** A verified guard is the expected one *)

Lemma if_none {A} (b : bool) (x : A) : (if b then Some x else None) = None ↔ b = false.
Proof. by destruct b. Qed.

(** The parts of the objects that bear on a decision, with the defaults Kubernetes
    documents: messages say nothing, no failure policy is Fail, no match policy is
    Equivalent, an empty selector selects everything, Secrets are namespaced, and
    actions beside Deny change nothing about a denial. *)
Definition norm_selector (s : option LabelSelector) : option LabelSelector := if emptySelector s then None else s.

Definition norm_rule (r : ResourceRule) : ResourceRule := {|
  rr_ResourceNames := rr_ResourceNames r; rr_Operations := rr_Operations r; rr_APIGroups := rr_APIGroups r;
  rr_APIVersions := rr_APIVersions r; rr_Resources := rr_Resources r;
  rr_Scope := match rr_Scope r with
              | Some s => if (s == AllScopes) || (s == NamespacedScope) then None else Some s
              | None => None
              end |}.

Definition norm_match (m : MatchResources) : MatchResources := {|
  ms_NamespaceSelector := norm_selector (ms_NamespaceSelector m); ms_ObjectSelector := norm_selector (ms_ObjectSelector m);
  ms_ResourceRules := norm_rule <$> ms_ResourceRules m; ms_ExcludeResourceRules := norm_rule <$> ms_ExcludeResourceRules m;
  ms_MatchPolicy := Some (match ms_MatchPolicy m with Some p => p | None => MatchPolicyEquivalent end) |}.

Definition norm_policy (p : PolicySpec) : PolicySpec := {|
  ps_FailurePolicy := Some (match ps_FailurePolicy p with Some f => f | None => FailurePolicyFail end);
  ps_ParamKind := ps_ParamKind p; ps_MatchConstraints := norm_match <$> ps_MatchConstraints p;
  ps_MatchConditions := ps_MatchConditions p; ps_Variables := ps_Variables p;
  ps_Validations := (λ v, {| vl_Expression := vl_Expression v; vl_Message := [] |}) <$> ps_Validations p |}.

(** Whether a binding selects every request of its policy. *)
Definition selects_all (m : MatchResources) : bool :=
  (length (ms_ResourceRules m) =? 0)%nat && (length (ms_ExcludeResourceRules m) =? 0)%nat
  && emptySelector (ms_NamespaceSelector m) && emptySelector (ms_ObjectSelector m).

Definition norm_binding (b : BindingSpec) : BindingSpec := {|
  bd_PolicyName := bd_PolicyName b; bd_ParamRef := bd_ParamRef b;
  bd_ValidationActions := if bool_decide (Deny ∈ bd_ValidationActions b) then [Deny] else bd_ValidationActions b;
  bd_MatchResources := match bd_MatchResources b with Some m => if selects_all m then None else Some m | None => None end |}.

Section verified.
Context `{CelJSON}.

Lemma changedValidation_none (i : nat) (got want : list Validation) : length got = length want →
  changedValidation i got want = None ↔ vl_Expression <$> got = vl_Expression <$> want.
Proof.
  revert i want. induction got as [|x got IH]; intros i [|y want]; try done. intros [= Hl].
  cbn [changedValidation]. rewrite !fmap_cons. case_bool_decide as E; cbn [negb].
  - rewrite IH by done. rewrite E. split; [by intros ->|intros E'; by injection E'].
  - split; [done|]. intros E'. by injection E'.
Qed.

Lemma expressions_norm (got want : list Validation) :
  (λ v, {| vl_Expression := vl_Expression v; vl_Message := [] |}) <$> got =
  (λ v, {| vl_Expression := vl_Expression v; vl_Message := [] |}) <$> want ↔ vl_Expression <$> got = vl_Expression <$> want.
Proof.
  split.
  - intros E. apply (f_equal (fmap vl_Expression)) in E. by rewrite <- !list_fmap_compose in E.
  - intros E. apply (f_equal (fmap (λ e, {| vl_Expression := e; vl_Message := [] |}))) in E. by rewrite <- !list_fmap_compose in E.
Qed.

Lemma ruleChanged_norm (r : ResourceRule) : ruleChanged r guardRule = false ↔ norm_rule r = norm_rule guardRule.
Proof.
  unfold ruleChanged. rewrite !orb_false_iff, !negb_false_iff, !bool_decide_eq_true. destruct r as [n o g v rs sc]. cbn -[AllScopes NamespacedScope lit].
  split.
  - intros (((((Hn & ->) & ->) & ->) & ->) & Hs). unfold norm_rule. cbn -[AllScopes NamespacedScope lit]. f_equal.
    + by destruct n.
    + destruct sc as [s|]; [|done]. revert Hs. do 2 case_bool_decide; done.
  - intros [= -> -> -> -> -> Hs]. split_and!; try done. destruct sc as [s|]; [|done]. revert Hs. do 2 case_bool_decide; done.
Qed.

Lemma norm_selector_none (s : option LabelSelector) : norm_selector s = None ↔ emptySelector s = true.
Proof. unfold norm_selector. by destruct s as [s|]; [destruct (emptySelector (Some s))|]. Qed.

Lemma verifyPolicy_norm (g : Guard) (p : PolicySpec) : verifyPolicy g p = None ↔ norm_policy p = norm_policy (Policy g).
Proof.
  unfold verifyPolicy. rewrite !union_None, !if_none. unfold norm_policy at 1.
  set (want := Policy g).
  assert (ps_FailurePolicy want = Some FailurePolicyFail ∧ ps_ParamKind want = None ∧
    norm_match <$> ps_MatchConstraints want = Some {| ms_NamespaceSelector := None; ms_ObjectSelector := None;
      ms_ResourceRules := [norm_rule guardRule]; ms_ExcludeResourceRules := []; ms_MatchPolicy := Some MatchPolicyEquivalent |})
    as (Hf & Hpk & Hmc) by (unfold want, Policy; by destruct (split _)).
  unfold norm_policy. rewrite Hf, Hpk, Hmc.
  transitivity (
    (ps_FailurePolicy p = None ∨ ps_FailurePolicy p = Some FailurePolicyFail) ∧ ps_ParamKind p = None ∧
    norm_match <$> ps_MatchConstraints p = Some {| ms_NamespaceSelector := None; ms_ObjectSelector := None;
      ms_ResourceRules := [norm_rule guardRule]; ms_ExcludeResourceRules := []; ms_MatchPolicy := Some MatchPolicyEquivalent |} ∧
    ps_MatchConditions p = ps_MatchConditions want ∧ ps_Variables p = ps_Variables want ∧
    vl_Expression <$> ps_Validations p = vl_Expression <$> ps_Validations want).
  - assert (∀ A B C D E F A' B' C' D' E' F' : Prop, (A ↔ A') → (B ↔ B') → (C ↔ C') → (D ↔ D') → (E ↔ E') → (F ↔ F') →
      ((((((A ∧ B) ∧ C) ∧ D) ∧ E) ∧ F) ↔ (A' ∧ B' ∧ C' ∧ D' ∧ E' ∧ F'))) as Hall by tauto.
    apply Hall; clear Hall.
    + destruct (ps_FailurePolicy p) as [f|]; [|naive_solver]. rewrite if_none, negb_false_iff, bool_decide_eq_true. naive_solver.
    + rewrite bool_decide_eq_false. destruct (ps_ParamKind p); split; [intros []; by eexists|done|done|by intros _ []].
    + destruct (ps_MatchConstraints p) as [mc|]; [|done]. rewrite !union_None, if_none, !orb_false_iff, !negb_false_iff.
      rewrite <- !norm_selector_none. destruct mc as [ns os rs ex mp]. cbn [ms_NamespaceSelector ms_ObjectSelector ms_ResourceRules ms_ExcludeResourceRules ms_MatchPolicy fmap option_fmap option_map].
      unfold norm_match. cbn [ms_NamespaceSelector ms_ObjectSelector ms_ResourceRules ms_ExcludeResourceRules ms_MatchPolicy].
      split.
      * intros ((((Hex & Hns) & Hos) & Hmp) & Hrs). rewrite Hns, Hos. destruct ex; [|done]. destruct rs as [|r [|]]; [done| |done].
        apply if_none, ruleChanged_norm in Hrs. csimpl. rewrite Hrs. destruct mp as [m|]; [|done].
        rewrite if_none, negb_false_iff, bool_decide_eq_true in Hmp. by rewrite Hmp.
      * intros E. injection E as Hns Hos Hrs Hex Hmp. rewrite Hns, Hos. destruct ex; [|done]. destruct rs as [|r [|]]; [done| |done].
        apply (f_equal (λ l, match l with x :: _ => x | [] => r end)) in Hrs. split; [split; [done|]|].
        { destruct mp as [m|]; [|done]. rewrite if_none, negb_false_iff, bool_decide_eq_true. done. }
        { rewrite if_none. apply ruleChanged_norm. exact Hrs. }
    + by rewrite negb_false_iff, bool_decide_eq_true.
    + by rewrite negb_false_iff, bool_decide_eq_true.
    + destruct (length (ps_Validations p) =? length (ps_Validations want))%nat eqn:El; cbn [negb].
      * apply Nat.eqb_eq in El. rewrite fmap_None. by apply changedValidation_none.
      * apply Nat.eqb_neq in El. split; [done|]. intros E. apply (f_equal length) in E. by rewrite !length_fmap in E.
  - rewrite <- expressions_norm. split.
    + intros (Hfp & -> & -> & -> & -> & ->). f_equal. by destruct Hfp as [->| ->].
    + intros [= Hfp -> -> -> -> ->]. split_and!; try done. destruct (ps_FailurePolicy p); naive_solver.
Qed.

Lemma selects_all_spec (m : MatchResources) : selects_all m = negb (
  (0 <? length (ms_ResourceRules m))%nat || (0 <? length (ms_ExcludeResourceRules m))%nat
  || negb (emptySelector (ms_NamespaceSelector m)) || negb (emptySelector (ms_ObjectSelector m))).
Proof.
  unfold selects_all. rewrite !negb_orb, !negb_involutive. by destruct (ms_ResourceRules m), (ms_ExcludeResourceRules m).
Qed.

Lemma verifyBinding_norm (g : Guard) (b : BindingSpec) : verifyBinding g b = None ↔ norm_binding b = norm_binding (Binding g).
Proof.
  unfold verifyBinding. rewrite !union_None, !if_none, negb_false_iff, bool_decide_eq_true, bool_decide_eq_false.
  rewrite negb_false_iff. unfold norm_binding. cbn [Binding bd_PolicyName bd_ParamRef bd_ValidationActions bd_MatchResources].
  destruct b as [n pr acts mr]. cbn [bd_PolicyName bd_ParamRef bd_ValidationActions bd_MatchResources].
  rewrite (bool_decide_eq_true_2 (Deny ∈ [Deny])) by left.
  assert (match mr with
    | Some m => if (0 <? length (ms_ResourceRules m))%nat || (0 <? length (ms_ExcludeResourceRules m))%nat
                   || negb (emptySelector (ms_NamespaceSelector m)) || negb (emptySelector (ms_ObjectSelector m))
                then Some BindingNarrowed else None
    | None => None end = None ↔ match mr with Some m => if selects_all m then None else Some m | None => None end = None) as ->.
  { destruct mr as [m|]; [|done]. rewrite selects_all_spec. by destruct (_ || _). }
  split.
  - intros (((-> & Hpr) & ->) & ->). f_equal. destruct pr; [|done]. by destruct Hpr.
  - intros [= -> -> Ha ->]. split_and!; [done|by intros []| |done]. case_bool_decide as E; [done|].
    rewrite Ha in E. destruct E. left.
Qed.

(** [Verify] accepts a policy and a binding exactly when they are the expected ones up
    to messages and documented defaults: nothing that bears on a decision may differ,
    and nothing else makes the controller stop. *)
Theorem verify_exact (g : Guard) (p : PolicySpec) (b : BindingSpec) :
  Verify g (Ok p) (Ok b) = None ↔
  norm_policy p = norm_policy (Policy g) ∧ norm_binding b = norm_binding (Binding g).
Proof. unfold Verify. rewrite union_None, !fmap_None. by rewrite verifyPolicy_norm, verifyBinding_norm. Qed.
End verified.

(** ** Enforcement *)

(** Whether the API server denies a request, under a policy and its binding. *)
Class Admission := { denies : PolicySpec → BindingSpec → AdmissionRequest → bool }.

(** Decisions depend on the canonical form only, and the expressions mean what they
    say for the controller's creates and updates of Secrets. *)
Class AdmissionLaws (g : Guard) `{Admission, CelJSON} := {
  denies_norm : ∀ p b r, denies p b r = denies (norm_policy p) (norm_binding b) r;
  denies_guard : ∀ r, aq_User r = gd_ControllerUsername g → aq_Operation r ∈ [lit "CREATE"; lit "UPDATE"] →
    denies (Policy g) (Binding g) r = negb (guardAllows g r) }.

Lemma valueOf_ne (m : gmap gostring gostring) (k : gostring) : valueOf m k ≠ [] → m !! k = Some (valueOf m k).
Proof. unfold valueOf. by destruct (m !! k). Qed.

(** A Secret that may hold the tokens or the password of the named owner. *)
Record confined (labelKey uidKey : gostring) (kinds keys : list gostring) (s : Secret) : Prop := {
  cf_label : ∃ name uid, name ≠ [] ∧ uid ≠ [] ∧ sec_Labels s !! labelKey = Some name ∧ sec_Annotations s !! uidKey = Some uid ∧
    ∃ r, r ∈ sec_Owners s ∧ or_Controller r = true ∧ or_Kind r ∈ kinds ∧ or_Name r = name ∧ or_UID r = uid;
  cf_type : sec_Type s = lit "Opaque";
  cf_keys : ∀ k, is_Some (sec_Data s !! k) → k ∈ keys }.

Definition credential_secret := confined CredentialLabel CredentialUIDAnnotation [lit "MailCredential"] credentialKeys.
Definition token_secret := confined OAuthTokenLabel OAuthTokenUIDAnnotation [lit "MailBackend"; lit "ClusterMailBackend"] oauthKeys.

Lemma dataKeys_spec (v : Shape) (data : gmap gostring gostring) : dataKeys v data = true →
  ∀ k, is_Some (data !! k) → k ∈ if isCredential v then credentialKeys else oauthKeys.
Proof.
  unfold dataKeys. rewrite forallb_forall. intros Hall k [x Hx]. assert (In k (map_to_list data).*1) as Hk%Hall; [|by apply bool_decide_eq_true in Hk].
  apply list_elem_of_In, list_elem_of_fmap. exists (k, x). split; [done|]. by apply elem_of_map_to_list.
Qed.

Lemma namespaceAllowed_spec (e : Exclusions) (v : Shape) (ns : gostring) :
  namespaceAllowed e v ns = true ↔
  isOAuth v = true ∧ ns = ex_ReleaseNamespace e ∨ ns ≠ ex_ReleaseNamespace e ∧ Excluded e ns = false.
Proof.
  unfold namespaceAllowed. pose proof (excluded_split e ns) as Hx. destruct (split e) as [exact prefixes]. cbn [fst snd] in Hx.
  rewrite <- (not_true_iff_false (Excluded e ns)), Hx. rewrite orb_true_iff, !andb_true_iff, !negb_true_iff, !bool_decide_eq_true.
  rewrite !bool_decide_eq_false, <- not_true_iff_false, existsb_exists.
  setoid_rewrite <- list_elem_of_In. naive_solver.
Qed.

Lemma isCredential_spec (v : Shape) : isCredential v = true ↔
  sh_credential v ≠ [] ∧ sh_uid v ≠ [] ∧ sh_oauthBackend v = [] ∧ sh_oauthUID v = [].
Proof. unfold isCredential. rewrite !andb_true_iff, !negb_true_iff, !bool_decide_eq_true, !bool_decide_eq_false. tauto. Qed.

Lemma isOAuth_spec (v : Shape) : isOAuth v = true ↔
  sh_oauthBackend v ≠ [] ∧ sh_oauthUID v ≠ [] ∧ sh_credential v = [] ∧ sh_uid v = [].
Proof. unfold isOAuth. rewrite !andb_true_iff, !negb_true_iff, !bool_decide_eq_true, !bool_decide_eq_false. tauto. Qed.

Lemma shapes_exclusive (v : Shape) : isOAuth v = true → isCredential v = false.
Proof. rewrite isOAuth_spec. intros (_ & _ & Hc & _). apply not_true_iff_false. rewrite isCredential_spec. naive_solver. Qed.

(** What an admitted request may look like. *)
Definition admitted_write (g : Guard) (r : AdmissionRequest) : Prop :=
  (credential_secret (aq_Object r) ∧ Excluded (gd_Exclusions g) (aq_Namespace r) = false ∧
   (aq_Operation r = lit "UPDATE" → ∃ old name uid, aq_Old r = Some old ∧ owned_by name uid old ∧ owned_by name uid (aq_Object r))) ∨
  (token_secret (aq_Object r) ∧
   (aq_Namespace r = ex_ReleaseNamespace (gd_Exclusions g) ∨ Excluded (gd_Exclusions g) (aq_Namespace r) = false) ∧
   (aq_Operation r = lit "UPDATE" → ∃ old name uid, aq_Old r = Some old ∧ token_owned name uid old ∧ token_owned name uid (aq_Object r))).

Lemma guardAllows_confined (g : Guard) (r : AdmissionRequest) : guardAllows g r = true → admitted_write g r.
Proof.
  unfold guardAllows. set (v := shapeOf (aq_Object r)). rewrite !andb_true_iff, bool_decide_eq_true, namespaceAllowed_spec.
  intros (((((Hshape & Hown) & Hsame) & Hty) & Hkeys) & Hns).
  apply existsb_exists in Hown as (o & Ho & Hown). apply list_elem_of_In in Ho.
  unfold ownedBy in Hown. rewrite !andb_true_iff in Hown. destruct Hown as [[_ Hctl] Hown].
  pose proof (dataKeys_spec _ _ Hkeys) as Hk. unfold sameOwner in Hsame.
  destruct (isCredential v) eqn:Hc.
  - left. pose proof Hc as (Hn & Hu & _ & _)%isCredential_spec.
    pose proof (valueOf_ne _ _ Hn) as Hln. pose proof (valueOf_ne _ _ Hu) as Hau.
    rewrite !andb_true_iff, !bool_decide_eq_true in Hown. destruct Hown as [[Hkind Hname] Huid]. split_and!.
    + split; [|done|done]. exists (sh_credential v), (sh_uid v). split_and!; try done. exists o. rewrite Hkind. split_and!; try done. left.
    + destruct Hns as [[Hx _]|[_ Hns]]; [|done]. apply shapes_exclusive in Hx. congruence.
    + intros Hop. rewrite Hop in Hsame. rewrite bool_decide_eq_true_2 in Hsame by done. destruct (aq_Old r) as [old|]; [|done].
      cbn in Hsame. rewrite andb_true_iff, !bool_decide_eq_true in Hsame. exists old, (sh_credential v), (sh_uid v). done.
  - right. cbn in Hshape. pose proof Hshape as (Hn & Hu & _ & _)%isOAuth_spec.
    pose proof (valueOf_ne _ _ Hn) as Hln. pose proof (valueOf_ne _ _ Hu) as Hau.
    rewrite !andb_true_iff, orb_true_iff, !bool_decide_eq_true in Hown. destruct Hown as [[Hkind Hname] Huid]. split_and!.
    + split; [|done|done]. exists (sh_oauthBackend v), (sh_oauthUID v). split_and!; try done. exists o. split_and!; try done.
      destruct Hkind as [->| ->]; [left|right; left].
    + naive_solver.
    + intros Hop. rewrite Hop in Hsame. rewrite bool_decide_eq_true_2 in Hsame by done. destruct (aq_Old r) as [old|]; [|done].
      cbn in Hsame. rewrite andb_true_iff, !bool_decide_eq_true in Hsame. exists old, (sh_oauthBackend v), (sh_oauthUID v). done.
Qed.


(** ** The controller's own writes are admitted *)

Definition create_request (g : Guard) (ns : gostring) (s : Secret) : AdmissionRequest :=
  {| aq_Operation := lit "CREATE"; aq_User := gd_ControllerUsername g; aq_Namespace := ns; aq_Object := s; aq_Old := None |}.
Definition update_request (g : Guard) (ns : gostring) (s old : Secret) : AdmissionRequest :=
  {| aq_Operation := lit "UPDATE"; aq_User := gd_ControllerUsername g; aq_Namespace := ns; aq_Object := s; aq_Old := Some old |}.

Lemma dataKeys_intro (v : Shape) (data : gmap gostring gostring) (keys : list gostring) :
  (if isCredential v then credentialKeys else oauthKeys) = keys → (∀ k x, data !! k = Some x → k ∈ keys) → dataKeys v data = true.
Proof.
  intros <- Hk. unfold dataKeys. apply forallb_forall. intros k Hin. apply list_elem_of_In, list_elem_of_fmap in Hin as ([k' x] & -> & Hx).
  apply bool_decide_eq_true_2. apply elem_of_map_to_list in Hx. by eapply Hk.
Qed.

Ltac insert_cases H := repeat (apply lookup_insert_Some in H as [[<- _]|[_ H]]; [set_solver|]); apply lookup_singleton_Some in H as [<- _]; set_solver.

Lemma credentialData_keys (r : Reconciler) (u p k x : gostring) : credentialData r u p !! k = Some x → k ∈ credentialKeys.
Proof. unfold credentialData, credentialKeys. intros Hk. insert_cases Hk. Qed.

Section admitted.
Context `{RFC3339, Hashes}.

Lemma tokenData_keys (st : brokerState) (k x : gostring) : tokenData st !! k = Some x → k ∈ oauthKeys.
Proof. unfold tokenData, oauthKeys. intros Hk. insert_cases Hk. Qed.

Lemma valueOf_some (m : gmap gostring gostring) (k x : gostring) : m !! k = Some x → valueOf m k = x.
Proof. unfold valueOf. by intros ->. Qed.
Lemma valueOf_none (m : gmap gostring gostring) (k : gostring) : m !! k = None → valueOf m k = [].
Proof. unfold valueOf. by intros ->. Qed.

Lemma credentialSecret_shape (r : Reconciler) (mc : MailCredential) (u p : gostring) :
  shapeOf (credentialSecret r mc u p) =
  {| sh_credential := mc_Name mc; sh_uid := om_UID (mc_Meta mc); sh_oauthBackend := []; sh_oauthUID := [] |}.
Proof.
  unfold shapeOf, credentialSecret. cbn [sec_Labels sec_Annotations].
  f_equal; first [by apply valueOf_some, lookup_singleton_eq|by apply valueOf_none, lookup_singleton_ne].
Qed.

Lemma tokenSecret_shape (d : DelegatedBackend) (st : brokerState) :
  shapeOf (tokenSecret d st) = {| sh_credential := []; sh_uid := []; sh_oauthBackend := db_Name d; sh_oauthUID := db_UID d |}.
Proof.
  unfold shapeOf, tokenSecret. cbn [sec_Labels sec_Annotations].
  f_equal; first [by apply valueOf_none, lookup_singleton_ne|by apply valueOf_some, lookup_singleton_eq|by apply valueOf_some, lookup_insert_eq
    |apply valueOf_none; rewrite !lookup_insert_ne by done; by apply lookup_singleton_ne].
Qed.

(** A Secret the guard admitted stays admissible when the controller replaces its data
    (and the annotations that are its own): what a patch keeps was checked before. *)
Lemma update_allowed (g : Guard) (ns : gostring) (old s : Secret) :
  guardAllows g (create_request g ns old) = true →
  shapeOf s = shapeOf old → sec_Owners s = sec_Owners old → sec_Type s = sec_Type old →
  dataKeys (shapeOf old) (sec_Data s) = true →
  guardAllows g (update_request g ns s old) = true.
Proof.
  unfold guardAllows, create_request, update_request. cbn [aq_Object aq_Operation aq_Old aq_Namespace].
  intros Hold Hs Ho Ht Hd. rewrite Hs, Ho, Ht, Hd. rewrite !andb_true_iff in Hold.
  destruct Hold as (((((Hshape & ->) & _) & ->) & _) & ->). rewrite Hshape. cbn [andb].
  rewrite !andb_true_r. unfold sameOwner. rewrite bool_decide_eq_true_2 by done. cbn [negb orb].
  destruct (isCredential (shapeOf old)) eqn:Hc.
  - apply isCredential_spec in Hc as (Hn%valueOf_ne & Hu%valueOf_ne & _). rewrite Hn, Hu. by rewrite !bool_decide_eq_true_2.
  - cbn in Hshape. apply isOAuth_spec in Hshape as (Hn%valueOf_ne & Hu%valueOf_ne & _). rewrite Hn, Hu. by rewrite !bool_decide_eq_true_2.
Qed.

Lemma allowed_shape (g : Guard) (r : AdmissionRequest) : guardAllows g r = true →
  if isCredential (shapeOf (aq_Object r)) then True else isOAuth (shapeOf (aq_Object r)) = true.
Proof. unfold guardAllows. rewrite !andb_true_iff. intros (((((Hs & _) & _) & _) & _) & _). by destruct (isCredential _). Qed.

Lemma patch_shape (p : TokenPatch) (s : Secret) : shapeOf (apply_patch p s) = shapeOf s.
Proof. unfold shapeOf, apply_patch, valueOf. cbn [sec_Labels sec_Annotations]. by rewrite !lookup_insert_ne by done. Qed.

(** C38. The guard never stands in the controller's way: it admits the Secret of a
    credential in a namespace that is not excluded, the token Secret of a backend in
    such a namespace or the release namespace, and every later replacement of their
    data. *)
Theorem controller_writes_admitted (g : Guard) :
  (∀ r mc u p, mc_Name mc ≠ [] → om_UID (mc_Meta mc) ≠ [] → mc_Namespace mc ≠ [] → Excluded (gd_Exclusions g) (mc_Namespace mc) = false →
     guardAllows g (create_request g (mc_Namespace mc) (credentialSecret r mc u p)) = true) ∧
  (∀ d st, db_Name d ≠ [] → db_UID d ≠ [] → db_Namespace d ≠ [] → db_Kind d ∈ [KindMailBackend; KindClusterMailBackend] →
     Excluded (gd_Exclusions g) (db_Namespace d) = false ∨ db_Namespace d = ex_ReleaseNamespace (gd_Exclusions g) →
     guardAllows g (create_request g (db_Namespace d) (tokenSecret d st)) = true) ∧
  (∀ r ns mc u p old, guardAllows g (create_request g ns old) = true → owned_by (mc_Name mc) (om_UID (mc_Meta mc)) old →
     mc_Name mc ≠ [] → om_UID (mc_Meta mc) ≠ [] →
     guardAllows g (update_request g ns (set_data (credentialData r u p) old) old) = true) ∧
  (∀ ns d st old, guardAllows g (create_request g ns old) = true → token_owned (db_Name d) (db_UID d) old →
     db_Name d ≠ [] → db_UID d ≠ [] →
     guardAllows g (update_request g ns (apply_patch (tokenPatch st) old) old) = true).
Proof.
  assert (∀ e ns, ns ≠ [] → Excluded e ns = false → ns ≠ ex_ReleaseNamespace e) as Hrel.
  { intros e ns Hne Hx ->. rewrite <- not_true_iff_false, excluded_split in Hx. by destruct Hx; left. }
  split_and!.
  - intros r mc u p Hn Hu Hns Hx. unfold guardAllows, create_request. cbn [aq_Object aq_Operation aq_Old aq_Namespace].
    rewrite credentialSecret_shape. set (v := Build_Shape _ _ _ _).
    assert (isCredential v = true) as Hc by by apply isCredential_spec.
    rewrite Hc. unfold ownedBy, sameOwner. rewrite Hc. cbn -[namespaceAllowed dataKeys credentialData lit GroupVersion HasPrefix].
    rewrite !bool_decide_eq_true_2 by done. rewrite (dataKeys_intro v _ credentialKeys);
      [|by rewrite Hc|by intros k x; apply credentialData_keys].
    change (HasPrefix GroupVersion (lit "sigillum.dev/")) with true. cbn [andb].
    apply namespaceAllowed_spec. right. split; [by apply Hrel|done].
  - intros d st Hn Hu Hns Hkind Hx. unfold guardAllows, create_request. cbn [aq_Object aq_Operation aq_Old aq_Namespace].
    rewrite tokenSecret_shape. set (v := Build_Shape _ _ _ _).
    assert (isOAuth v = true) as Ho by by apply isOAuth_spec. pose proof (shapes_exclusive v Ho) as Hc.
    rewrite Ho, orb_true_r. unfold ownedBy, sameOwner. rewrite Hc.
    cbn -[namespaceAllowed dataKeys tokenData lit GroupVersion HasPrefix].
    assert ((db_Kind d == lit "MailBackend") || (db_Kind d == lit "ClusterMailBackend") = true) as ->.
    { rewrite !elem_of_cons, elem_of_nil in Hkind. rewrite orb_true_iff, !bool_decide_eq_true. naive_solver. }
    rewrite !bool_decide_eq_true_2 by done. rewrite (dataKeys_intro v _ oauthKeys); [|by rewrite Hc|by intros k x; apply tokenData_keys].
    change (HasPrefix GroupVersion (lit "sigillum.dev/")) with true. cbn [andb].
    apply namespaceAllowed_spec. destruct (decide (db_Namespace d = ex_ReleaseNamespace (gd_Exclusions g))); [by left|].
    right. naive_solver.
  - intros r ns mc u p old Hold [Hl Ha] Hn Hu. apply update_allowed; try done.
    apply (dataKeys_intro _ _ credentialKeys); [|by intros k x; apply credentialData_keys].
    assert (isCredential (shapeOf old) = true) as ->; [|done].
    apply allowed_shape in Hold. cbn [aq_Object create_request] in Hold. destruct (isCredential (shapeOf old)); [done|]. apply isOAuth_spec in Hold as (_ & _ & Hc & _).
    unfold shapeOf in Hc. cbn [sh_credential sh_oauthBackend] in Hc. by rewrite (valueOf_some _ _ _ Hl) in Hc.
  - intros ns d st old Hold [Hl Ha] Hn Hu. apply update_allowed; try done; [apply patch_shape|].
    apply (dataKeys_intro _ _ oauthKeys); [|by intros k x; apply tokenData_keys].
    assert (isCredential (shapeOf old) = false) as ->; [|done]. apply not_true_iff_false. rewrite isCredential_spec.
    intros (_ & _ & Hc & _). unfold shapeOf in Hc. cbn [sh_credential sh_oauthBackend] in Hc. by rewrite (valueOf_some _ _ _ Hl) in Hc.
Qed.
End admitted.

(** ** [controller/credential_guard.go] *)

(** [Error()] of what [Verify] reports. *)
Class GuardTexts := { guard_text : GuardError → gostring }.

(** [gk_pending] is the buffered channel [changed], [gk_gauge] the gauge
    [sigillum_credential_guard_ok]. *)
Record GuardChecker := { gk_checked : bool; gk_err : option GuardError; gk_pending : bool; gk_gauge : option Z }.

Definition NewGuardChecker : GuardChecker := {| gk_checked := false; gk_err := None; gk_pending := false; gk_gauge := None |}.

Definition definitive (e : GuardError) : bool :=
  match e with
  | PolicyChanged _ | BindingChanged _ => true
  | PolicyLookup e | BindingLookup e => (e == NotFound) || (e == Forbidden)
  end.

Definition retryInterval : Duration := 30 * Second.
Definition requeueRetryDelay : Duration := 5 * Second.

Section checker.
Context `{GuardTexts}.

(** [OK]; no checker is a nil one. *)
Definition OK (c : option GuardChecker) : bool * gostring :=
  match c with
  | None => (false, lit "credential Secret guard is not being checked")
  | Some c =>
      if negb (gk_checked c) then (false, lit "credential Secret guard not verified yet")
      else match gk_err c with
           | Some e => (false, lit "credential Secret guard missing or changed, refusing to write Secrets: " ++ guard_text e)
           | None => (true, [])
           end
  end.

Definition signal (c : GuardChecker) : GuardChecker :=
  {| gk_checked := gk_checked c; gk_err := gk_err c; gk_pending := true; gk_gauge := gk_gauge c |}.

(** [Check] with the answer of [Verify]: the checker, and whether the verdict changed. *)
Definition Check_ (err : option GuardError) (c : GuardChecker) : GuardChecker * bool :=
  match err with
  | Some e => if gk_checked c && negb (definitive e) then (c, false)
              else
                let changed := negb (gk_checked c) ||
                  match gk_err c with None => true | Some old => guard_text e != guard_text old end in
                ({| gk_checked := true; gk_err := Some e; gk_pending := changed || gk_pending c; gk_gauge := Some 0 |}, changed)
  | None =>
      let changed := negb (gk_checked c) || bool_decide (is_Some (gk_err c)) in
      ({| gk_checked := true; gk_err := None; gk_pending := changed || gk_pending c; gk_gauge := Some 1 |}, changed)
  end.

(** How long [Start] waits before the next check. *)
Definition waitFor (interval : Duration) (c : GuardChecker) : Duration :=
  if (negb (fst (OK (Some c))) && (retryInterval <? interval)) || (interval <=? 0) then retryInterval else interval.

(** The credentials [requeueAll] sends. *)
Definition requeueAll (list_ : res APIError (list MailCredential)) : res APIError (list MailCredential) :=
  match list_ with Err e => Err e | Ok items => Ok (List.filter Generated items) end.

(** *** Verdicts *)

(** A lookup that could not be completed says nothing, except as the first answer. *)
Definition decisive (err : option GuardError) : bool := match err with None => true | Some e => definitive e end.

Definition checks (errs : list (option GuardError)) : GuardChecker := foldl (λ c e, fst (Check_ e c)) NewGuardChecker errs.

Lemma Check_verdict (err : option GuardError) (c : GuardChecker) :
  gk_checked (fst (Check_ err c)) = true ∧
  gk_err (fst (Check_ err c)) = if negb (gk_checked c) || decisive err then err else gk_err c.
Proof.
  unfold Check_. destruct err as [e|]; [|by destruct (gk_checked c)]. cbn [decisive].
  destruct (gk_checked c) eqn:E, (definitive e); cbn; by rewrite ?E.
Qed.

(** The verdict after any number of checks is the last decisive answer: one failed
    lookup does not take the guard away, and a guard that is missing or changed is
    noticed by the next check that can tell. *)
Theorem guard_verdict (first : option GuardError) (errs : list (option GuardError)) :
  gk_err (checks (first :: errs)) = default first (last (List.filter decisive errs)) ∧
  (fst (OK (Some (checks (first :: errs)))) = true ↔ default first (last (List.filter decisive errs)) = None).
Proof.
  assert (gk_checked (checks (first :: errs)) = true ∧
    gk_err (checks (first :: errs)) = default first (last (List.filter decisive errs))) as [Hc He].
  { unfold checks. cbn [foldl]. destruct (Check_verdict first NewGuardChecker) as [Hc He]. cbn in He.
    assert (∀ c d, gk_checked c = true → gk_err c = d → gk_checked (foldl (λ c e, fst (Check_ e c)) c errs) = true ∧
      gk_err (foldl (λ c e, fst (Check_ e c)) c errs) = default d (last (List.filter decisive errs))) as Hfold; [|by apply Hfold].
    clear. induction errs as [|e errs IH]; intros c d Hc He; [done|]. cbn [foldl List.filter].
    destruct (Check_verdict e c) as [Hc' He']. rewrite Hc in He'. cbn [negb orb] in He'.
    destruct (decisive e) eqn:Hd.
    - destruct (IH _ _ Hc' He') as [? ->]. split; [done|]. rewrite last_cons. by destruct (last _).
    - apply IH; [done|]. congruence. }
  split; [done|]. unfold OK. rewrite Hc, He. cbn [negb]. by destruct (default first _).
Qed.

(** *** Requeues *)

(** The requeuer: waiting for a change, listing the credentials (with the verdict at
    the time it started), or pausing after a failed list. *)
Inductive Requeuer := Idle | Listing (v : bool * gostring) | Pausing.

(** [gs_shown] is the verdict the credentials were last requeued with. *)
Record GuardSystem := { gs_checker : GuardChecker; gs_requeuer : Requeuer; gs_shown : bool * gostring }.

Definition verdict (s : GuardSystem) : bool * gostring := OK (Some (gs_checker s)).

Definition unsignal (c : GuardChecker) : GuardChecker :=
  {| gk_checked := gk_checked c; gk_err := gk_err c; gk_pending := false; gk_gauge := gk_gauge c |}.

Inductive guard_step : GuardSystem → GuardSystem → Prop :=
| step_check err s : guard_step s {| gs_checker := fst (Check_ err (gs_checker s)); gs_requeuer := gs_requeuer s; gs_shown := gs_shown s |}
| step_take s : gs_requeuer s = Idle → gk_pending (gs_checker s) = true →
    guard_step s {| gs_checker := unsignal (gs_checker s); gs_requeuer := Listing (verdict s); gs_shown := gs_shown s |}
| step_requeued s v : gs_requeuer s = Listing v → guard_step s {| gs_checker := gs_checker s; gs_requeuer := Idle; gs_shown := v |}
| step_failed s v : gs_requeuer s = Listing v → guard_step s {| gs_checker := gs_checker s; gs_requeuer := Pausing; gs_shown := gs_shown s |}
| step_rearm s : gs_requeuer s = Pausing → guard_step s {| gs_checker := signal (gs_checker s); gs_requeuer := Idle; gs_shown := gs_shown s |}.

Definition guard_start : GuardSystem := {| gs_checker := NewGuardChecker; gs_requeuer := Idle; gs_shown := OK (Some NewGuardChecker) |}.

Definition requeue_due (s : GuardSystem) : Prop :=
  match gs_requeuer s with
  | Idle => gs_shown s = verdict s ∨ gk_pending (gs_checker s) = true
  | Listing v => v = verdict s ∨ gk_pending (gs_checker s) = true
  | Pausing => True
  end.

Lemma Check_signals (err : option GuardError) (c : GuardChecker) :
  OK (Some (fst (Check_ err c))) = OK (Some c) ∧ gk_pending (fst (Check_ err c)) = gk_pending c ∨ gk_pending (fst (Check_ err c)) = true.
Proof.
  unfold Check_, OK. destruct c as [ch er pe ga]. destruct err as [e|]; cbn [gk_checked gk_err gk_pending].
  - destruct ch; cbn [andb negb orb]; [|by right]. destruct (definitive e); [|by left]. cbn [negb].
    destruct er as [old|]; [|by right]. cbn [fst gk_checked gk_err gk_pending negb].
    case_bool_decide as Ht; cbn; [left|by right]. by rewrite Ht.
  - destruct ch; cbn; [|by right]. destruct er; cbn; [by right|by left].
Qed.

Lemma step_requeue_due (s s' : GuardSystem) : guard_step s s' → requeue_due s → requeue_due s'.
Proof.
  intros Hstep Hd. destruct Hstep as [err s|s Hi Hp|s v Hl|s v Hl|s Hp]; unfold requeue_due, verdict in *;
    cbn [gs_checker gs_requeuer gs_shown].
  - destruct (Check_signals err (gs_checker s)) as [[Hv Hp]|Hp]; destruct (gs_requeuer s); rewrite ?Hv, ?Hp; tauto.
  - by left.
  - by rewrite Hl in Hd.
  - done.
  - by right.
Qed.

(** Whenever the requeuer is at rest and no change is pending, the generated
    credentials were requeued under the current verdict: no change is lost, though
    changes coalesce and lists fail. *)
Theorem verdict_changes_requeued (s : GuardSystem) :
  rtc guard_step guard_start s → gs_requeuer s = Idle → gk_pending (gs_checker s) = false → gs_shown s = verdict s.
Proof.
  intros Hreach Hi Hp. assert (requeue_due s) as Hd.
  { clear Hi Hp. remember guard_start as s0 eqn:E0. assert (requeue_due s0) as Hd by (subst; by left). clear E0.
    induction Hreach as [|x y z Hxy _ IH]; [done|]. apply IH. by eapply step_requeue_due. }
  unfold requeue_due in Hd. rewrite Hi, Hp in Hd. by destruct Hd.
Qed.
End checker.

(** ** Witnesses *)

Module GuardExample.

#[local] Instance quoted : CelJSON := {|
  celJSON := λ s, lit "'" ++ s ++ lit "'"; celJSONs := λ l, lit "[" ++ Join l (lit ", ") ++ lit "]" |}.
#[local] Instance unnamed : GuardTexts := {| guard_text := λ _, "guard" |}.

Definition guard : Guard := {|
  gd_Name := "sigillum-guard"; gd_ControllerUsername := "system:serviceaccount:mail:controller";
  gd_Exclusions := {| ex_Patterns := [lit "default"; lit "kube-*"]; ex_ReleaseNamespace := "mail" |} |}.

(** An API server that evaluates this guard and no other policy. *)
#[local] Instance server : Admission := {|
  denies := λ p b r, bool_decide (norm_policy p = norm_policy (Policy guard) ∧ norm_binding b = norm_binding (Binding guard))
                     && negb (guardAllows guard r) |}.

Lemma norm_policy_idem (p : PolicySpec) : norm_policy (norm_policy p) = norm_policy p.
Proof.
  assert (∀ s, norm_selector (norm_selector s) = norm_selector s) as Hs
    by (intros s; unfold norm_selector; by destruct (emptySelector s) eqn:E; rewrite ?E).
  assert (∀ r, norm_rule (norm_rule r) = norm_rule r) as Hr.
  { intros [? ? ? ? ? [sc|]]; unfold norm_rule; cbn -[AllScopes NamespacedScope]; f_equal.
    destruct (_ || _) eqn:E; [done|]. by rewrite E. }
  unfold norm_policy. cbn [ps_FailurePolicy ps_ParamKind ps_MatchConstraints ps_MatchConditions ps_Variables ps_Validations]. f_equal.
  - destruct (ps_MatchConstraints p) as [m|]; [|done]. cbn. f_equal. unfold norm_match. cbn. rewrite !Hs.
    rewrite <- !list_fmap_compose. f_equal; apply list_fmap_ext; intros; apply Hr.
  - by rewrite <- list_fmap_compose.
Qed.

Lemma norm_binding_idem (b : BindingSpec) : norm_binding (norm_binding b) = norm_binding b.
Proof.
  unfold norm_binding. cbn [bd_PolicyName bd_ParamRef bd_ValidationActions bd_MatchResources]. f_equal.
  - destruct (bool_decide (Deny ∈ bd_ValidationActions b)) eqn:E; [|by rewrite E].
    by rewrite bool_decide_eq_true_2 by left.
  - destruct (bd_MatchResources b) as [m|]; [|done]. destruct (selects_all m) eqn:E; [done|]. by rewrite E.
Qed.

#[local] Instance server_laws : AdmissionLaws guard.
Proof.
  split.
  - intros p b r. cbn. by rewrite norm_policy_idem, norm_binding_idem.
  - intros r _ _. cbn. by rewrite bool_decide_eq_true_2.
Defined.

(** The chart's messages differ, and the API server filled in its defaults. *)
Definition installed : PolicySpec := {|
  ps_FailurePolicy := None; ps_ParamKind := None;
  ps_MatchConstraints := Some {| ms_NamespaceSelector := Some {| MatchLabels := ∅; MatchExpressions := [] |}; ms_ObjectSelector := None;
    ms_ResourceRules := [{| rr_ResourceNames := []; rr_Operations := [lit "CREATE"; lit "UPDATE"]; rr_APIGroups := [[]];
                            rr_APIVersions := [lit "v1"]; rr_Resources := [lit "secrets"]; rr_Scope := Some AllScopes |}];
    ms_ExcludeResourceRules := []; ms_MatchPolicy := Some MatchPolicyEquivalent |};
  ps_MatchConditions := ps_MatchConditions (Policy guard); ps_Variables := ps_Variables (Policy guard);
  ps_Validations := (λ v, {| vl_Expression := vl_Expression v; vl_Message := lit "denied" |}) <$> ps_Validations (Policy guard) |}.

Definition new_secret : Secret := {|
  sec_Labels := {[CredentialLabel := lit "app"]}; sec_Annotations := {[CredentialUIDAnnotation := lit "u1"]};
  sec_Owners := [{| or_APIVersion := GroupVersion; or_Kind := "MailCredential"; or_Name := "app"; or_UID := "u1"; or_Controller := true |}];
  sec_Type := "Opaque"; sec_Data := {[CredentialSecretUsernameKey := lit "app.team"]} |}.


(** A Secret of another kind, or someone else's, is denied. *)
Example token_type_denied : guardAllows guard (create_request guard "team"
  {| sec_Labels := sec_Labels new_secret; sec_Annotations := sec_Annotations new_secret; sec_Owners := sec_Owners new_secret;
     sec_Type := "kubernetes.io/service-account-token"; sec_Data := ∅ |}) = false.
Proof. vm_compute. reflexivity. Qed.
Example release_namespace_denied : guardAllows guard (create_request guard "mail" new_secret) = false.
Proof. vm_compute. reflexivity. Qed.
Example narrowed_binding_reported :
  Verify guard (Ok installed) (Ok {| bd_PolicyName := gd_Name guard; bd_ParamRef := None; bd_ValidationActions := [lit "Warn"];
                                     bd_MatchResources := None |}) = Some (BindingChanged NoDeny).
Proof. vm_compute. reflexivity. Qed.

Definition checked_once : GuardSystem := {|
  gs_checker := fst (Check_ None NewGuardChecker); gs_requeuer := Idle; gs_shown := gs_shown guard_start |}.
Definition settled : GuardSystem := {|
  gs_checker := unsignal (gs_checker checked_once); gs_requeuer := Idle; gs_shown := (true, []) |}.

Lemma verdict_changes_requeued_witness : gs_shown settled = verdict settled.
Proof.
  apply (verdict_changes_requeued settled); [|reflexivity|reflexivity].
  eapply rtc_l; [exact (step_check None guard_start)|].
  eapply rtc_l; [refine (step_take checked_once _ _); reflexivity|].
  eapply rtc_once. exact (step_requeued {| gs_checker := unsignal (gs_checker checked_once);
    gs_requeuer := Listing (verdict checked_once); gs_shown := gs_shown checked_once |} (true, []) eq_refl).
Defined.
End GuardExample.
