(* ===== verification/StartUp.v ===== *)
(** * Checks at start-up and certificate reloads ([internal/crdcheck],
      [internal/tlsreload])

    The schema check keeps a release from running against outdated CRDs, whose
    unknown fields the API server would drop silently; the reloader serves a
    certificate pair that may be renewed at any time.  OpenAPI documents are given
    decoded, files by their contents, and parsing of key pairs is the parameter
    [KeyPairs]. *)

From S2P Require Import Prelude GoStrings Types.

(** ** [crdcheck.go] *)

Record Field := { fd_Kind : gostring; fd_Path : list gostring }.

Definition Required : list Field := [
  {| fd_Kind := "MailPolicy"; fd_Path := [lit "spec"; lit "recipientRestrictions"; lit "allowedRecipients"] |};
  {| fd_Kind := "MailCredential"; fd_Path := [lit "spec"; lit "serviceAccountName"] |};
  {| fd_Kind := "MailPolicy"; fd_Path := [lit "spec"; lit "rateLimits"; lit "messagesPerDay"] |};
  {| fd_Kind := "MailBackend"; fd_Path := [lit "spec"; lit "allowedSenders"] |};
  {| fd_Kind := "ClusterMailBackend"; fd_Path := [lit "spec"; lit "allowedSenders"] |}].

Record GroupVersionKind := { gvk_Group : gostring; gvk_Version : gostring; gvk_Kind : gostring }.

(** A schema: its properties (a nil pointer where the document says null) and the
    kinds it describes. *)
Inductive schema := Schema (properties : list (gostring * option schema)) (gvk : list GroupVersionKind).

Definition Properties (s : schema) : list (gostring * option schema) := match s with Schema p _ => p end.
Definition GVK (s : schema) : list GroupVersionKind := match s with Schema _ k => k end.

(** A map lookup; a missing key reads as nil. *)
Fixpoint property (name : gostring) (props : list (gostring * option schema)) : option schema :=
  match props with
  | [] => None
  | (n, s) :: props => if n == name then s else property name props
  end.

Inductive SchemaError :=
| MismatchError (problems : list gostring)
| ReadError (msg : gostring)
| NilSchema.                       (* a panic: a component that is null *)

Definition groupName : gostring := "sigillum.dev".
Definition versionName : gostring := "v1alpha1".

Definition ours (k : GroupVersionKind) : bool := (gvk_Group k == groupName) && (gvk_Version k == versionName).

(** The kinds of the document; [schemas] is the map in the order of its iteration. *)
Fixpoint kindsOf (schemas : list (gostring * option schema)) (kinds : gmap gostring schema) : option (gmap gostring schema) :=
  match schemas with
  | [] => Some kinds
  | (_, None) :: _ => None
  | (_, Some s) :: schemas =>
      kindsOf schemas (foldl (λ m k, if ours k then <[gvk_Kind k := s]> m else m) kinds (GVK s))
  end.

Fixpoint hasPath (s : schema) (path : list gostring) : bool :=
  match path with
  | [] => true
  | name :: path => match property name (Properties s) with Some s => hasPath s path | None => false end
  end.

Definition problemOf (kinds : gmap gostring schema) (f : Field) : list gostring :=
  match kinds !! fd_Kind f with
  | None => [lit "kind " ++ fd_Kind f ++ lit " is not installed"]
  | Some s => if hasPath s (fd_Path f) then []
              else [lit "the " ++ fd_Kind f ++ lit " CRD has no field " ++ Join (fd_Path f) (lit ".")]
  end.

(** [None]: the document does not decode. *)
Definition verifyDoc (doc : option (list (gostring * option schema))) (fields : list Field) : res SchemaError unit :=
  match doc with
  | None => Err (ReadError "decode OpenAPI v3 schema")
  | Some schemas =>
      match kindsOf schemas ∅ with
      | None => Err NilSchema
      | Some kinds => match fields ≫= problemOf kinds with [] => Ok () | problems => Err (MismatchError problems) end
      end
  end.

(** What the API server serves: nothing readable, no such group version, or its
    schema (readable or not). *)
Inductive Discovery := NoDiscovery | NoGroupVersion | NoSchema | Served (doc : option (list (gostring * option schema))).

Definition VerifySchemas (d : Discovery) (fields : list Field) : res SchemaError unit :=
  match d with
  | NoDiscovery => Err (ReadError "read OpenAPI v3 discovery")
  | NoGroupVersion => Err (MismatchError [lit "no " ++ groupName ++ lit "/" ++ versionName ++ lit " CRDs are installed"])
  | NoSchema => Err (ReadError "read OpenAPI v3 schema")
  | Served doc => verifyDoc doc fields
  end.

Inductive WaitError := Outdated (e : SchemaError) | CouldNotRead (e : SchemaError).

(** One round of [Wait]: what [Verify] answered, whether the context had ended when it
    returned, and whether it ended during the pause. *)
Record Try := { tr_result : res SchemaError unit; tr_ended : bool; tr_endsInPause : bool }.

Definition reported (e : SchemaError) : WaitError := match e with MismatchError _ => Outdated e | _ => CouldNotRead e end.

(** [None]: still waiting after these rounds. *)
Fixpoint waitLoop (tries : list Try) (last : option SchemaError) : option (res WaitError unit) :=
  match tries with
  | [] => None
  | t :: tries =>
      match tr_result t with
      | Ok _ => Some (Ok ())
      | Err e =>
          let last := if negb (tr_ended t) then e else match last with None => e | Some l => l end in
          if tr_ended t || tr_endsInPause t then Some (Err (reported last)) else waitLoop tries (Some last)
      end
  end.
Definition Wait (tries : list Try) : option (res WaitError unit) := waitLoop tries None.

(** ** [tlsreload.go] *)

(** [tls.X509KeyPair] and the parse of its leaf. *)
Class KeyPairs (P : Type) := { X509KeyPair : gostring → gostring → option P }.

Record Reloader (P : Type) := { re_cert : option P; re_certPEM : gostring; re_keyPEM : gostring }.
Arguments re_cert {P} _. Arguments re_certPEM {P} _. Arguments re_keyPEM {P} _. Arguments Build_Reloader {P} _ _ _.

Inductive ReloadError := CertUnreadable | KeyUnreadable | PairInvalid.

(** The two files as a call finds them. *)
Record Files := { fi_cert : option gostring; fi_key : option gostring }.

Section reload.
Context `{KeyPairs P}.

Definition Reload (f : Files) (r : Reloader P) : Reloader P * res ReloadError bool :=
  match fi_cert f with
  | None => (r, Err CertUnreadable)
  | Some certPEM =>
      match fi_key f with
      | None => (r, Err KeyUnreadable)
      | Some keyPEM =>
          if (certPEM == re_certPEM r) && (keyPEM == re_keyPEM r) then (r, Ok false)
          else match X509KeyPair certPEM keyPEM with
               | None => (r, Err PairInvalid)
               | Some p => (Build_Reloader (Some p) certPEM keyPEM, Ok true)
               end
      end
  end.

Definition NewReloader (f : Files) : res ReloadError (Reloader P) :=
  let '(r, res) := Reload f (Build_Reloader None [] []) in
  match res with Err e => Err e | Ok _ => Ok r end.

Definition GetCertificate (r : Reloader P) : option P := re_cert r.

(** [FromEnv]: the reloader of the two variables, none when TLS is not configured. *)
Definition FromEnv (cert key : gostring) (f : Files) : res ReloadError (option (Reloader P)) :=
  if (cert == []) || (key == []) then Ok None
  else match NewReloader f with Err e => Err e | Ok r => Ok (Some r) end.
End reload.

(** ** The schema check is exact *)

(** The property path exists below the schema. *)
Inductive at_path : schema → list gostring → Prop :=
| at_root s : at_path s []
| at_property s name s' path : property name (Properties s) = Some s' → at_path s' path → at_path s (name :: path).

Lemma hasPath_spec (s : schema) (path : list gostring) : hasPath s path = true ↔ at_path s path.
Proof.
  revert s. induction path as [|name path IH]; intros s; simpl; [split; [constructor|done]|].
  destruct (property name (Properties s)) as [s'|] eqn:E.
  - rewrite IH. split; [by econstructor|]. inversion 1; simplify_eq. congruence.
  - split; [done|]. inversion 1; congruence.
Qed.

(** A kind is described by a schema of the document that names it. *)
Definition describes (s : schema) (kind : gostring) : Prop := ∃ k, k ∈ GVK s ∧ ours k = true ∧ gvk_Kind k = kind.

Lemma foldl_kinds (s : schema) (gvks : list GroupVersionKind) (m : gmap gostring schema) (kind : gostring) (s' : schema) :
  foldl (λ m k, if ours k then <[gvk_Kind k := s]> m else m) m gvks !! kind = Some s' →
  m !! kind = Some s' ∨ s' = s ∧ ∃ k, k ∈ gvks ∧ ours k = true ∧ gvk_Kind k = kind.
Proof.
  revert m. induction gvks as [|k gvks IH]; intros m; simpl; [by left|]. intros [Hm|(-> & k' & ? & ?)]%IH.
  - destruct (ours k) eqn:Ho; [|by left]. destruct (decide (gvk_Kind k = kind)) as [Hk|Hk].
    + rewrite Hk, lookup_insert_eq in Hm. injection Hm as <-. right. split; [done|]. exists k. split; [left|done].
    + rewrite lookup_insert_ne in Hm by done. by left.
  - right. split; [done|]. exists k'. split; [by right|done].
Qed.

Lemma kindsOf_sound (schemas : list (gostring * option schema)) (m kinds : gmap gostring schema) (kind : gostring) (s : schema) :
  kindsOf schemas m = Some kinds → kinds !! kind = Some s →
  m !! kind = Some s ∨ describes s kind ∧ ∃ name, (name, Some s) ∈ schemas.
Proof.
  revert m. induction schemas as [|[name [s0|]] schemas IH]; intros m; simpl; [intros [= ->]; by left| |done].
  intros Hk Hs. destruct (IH _ Hk Hs) as [Hm|(Hd & n & Hn)].
  - apply foldl_kinds in Hm as [Hm|(-> & Hd)]; [by left|]. right. split; [done|]. exists name. left.
  - right. split; [done|]. exists n. by right.
Qed.

(** The check passes exactly when every field is in the schema found for its kind, and
    that schema is one the document gives for the kind in this group version. *)
Theorem schema_check_exact (schemas : list (gostring * option schema)) (kinds : gmap gostring schema) (fields : list Field) :
  kindsOf schemas ∅ = Some kinds →
  (verifyDoc (Some schemas) fields = Ok () ↔
   ∀ f, f ∈ fields → ∃ s, kinds !! fd_Kind f = Some s ∧ at_path s (fd_Path f)) ∧
  ∀ kind s, kinds !! kind = Some s → describes s kind ∧ ∃ name, (name, Some s) ∈ schemas.
Proof.
  intros Hk. split.
  - unfold verifyDoc. rewrite Hk. transitivity (fields ≫= problemOf kinds = []).
    { destruct (fields ≫= problemOf kinds); split; done. }
    assert (∀ f, problemOf kinds f = [] ↔ ∃ s, kinds !! fd_Kind f = Some s ∧ at_path s (fd_Path f)) as Hp.
    { intros f. unfold problemOf. destruct (kinds !! fd_Kind f) as [s|]; [|split; [done|by intros (? & ? & _)]].
      setoid_rewrite <- hasPath_spec. destruct (hasPath s (fd_Path f)) eqn:E; split.
      - intros _. by exists s.
      - done.
      - done.
      - intros (s' & [= <-] & ?). congruence. }
    setoid_rewrite <- Hp. clear. induction fields as [|f fields IH]; [split; [by intros _ f ?%not_elem_of_nil|done]|].
    rewrite bind_cons. split.
    + intros [Hf Hfs]%app_nil. intros f' [->|Hin]%elem_of_cons; [done|]. by apply IH.
    + intros Hall. rewrite (Hall f) by left. apply IH. intros f' Hf'. apply Hall. by right.
  - intros kind s Hs. destruct (kindsOf_sound _ _ _ _ _ Hk Hs) as [Hm|Hd]; [by rewrite lookup_empty in Hm|done].
Qed.

(** *** Waiting *)

Definition gives_up (t : Try) : bool := tr_ended t || tr_endsInPause t.
Definition answer_of (t : Try) : option SchemaError := match tr_result t with Err e => Some e | Ok _ => None end.

(** [Wait] ends with success exactly when some round succeeds before the context ends;
    otherwise it reports the last answer the deadline did not cut short (or the first,
    if it cut all), as outdated CRDs only if that answer was a mismatch. *)
Theorem wait_reports (rounds : list Try) (final : Try) (rest : list Try) :
  (∀ t, t ∈ rounds → answer_of t ≠ None ∧ gives_up t = false) →
  match tr_result final with
  | Ok _ => Wait (rounds ++ final :: rest) = Some (Ok ())
  | Err e => gives_up final = true →
      Wait (rounds ++ final :: rest) =
        Some (Err (reported (if negb (tr_ended final) then e else match last rounds ≫= answer_of with Some l => l | None => e end)))
  end.
Proof.
  intros Hrounds. unfold Wait.
  assert (∀ rounds prev, (∀ t, t ∈ rounds → answer_of t ≠ None ∧ gives_up t = false) →
    waitLoop (rounds ++ final :: rest) prev =
    waitLoop (final :: rest) (match last rounds ≫= answer_of with Some l => Some l | None => prev end)) as Hloop.
  { clear. induction rounds as [|t rounds IH]; intros prev Hr; [done|].
    destruct (Hr t ltac:(left)) as [Ha Hg]. unfold gives_up in Hg. unfold answer_of in Ha.
    cbn [app waitLoop]. destruct (tr_result t) as [|e] eqn:E; [done|]. rewrite Hg. apply orb_false_iff in Hg as [Hg _]. rewrite Hg. cbn [negb].
    rewrite IH by (intros t' ?; apply Hr; by right). f_equal. rewrite last_cons.
    destruct (last rounds) as [t'|] eqn:El; cbn.
    - destruct (Hr t') as [Hn _]; [right; by apply last_Some_elem_of|]. by destruct (answer_of t').
    - unfold answer_of. by rewrite E. }
  destruct (tr_result final) as [[]|e] eqn:E.
  - rewrite Hloop by done. cbn [waitLoop]. by rewrite E.
  - intros Hg. rewrite Hloop by done. cbn [waitLoop]. rewrite E. unfold gives_up in Hg. rewrite Hg.
    by destruct (tr_ended final), (last rounds ≫= answer_of).
Qed.

(** ** The served certificate *)

Section served.
Context `{KeyPairs P}.

(** The pair of the files, if they hold one. *)
Definition pair_of (f : Files) : option P :=
  match fi_cert f, fi_key f with Some c, Some k => X509KeyPair c k | _, _ => None end.

Definition reloads (r : Reloader P) (fs : list Files) : Reloader P := foldl (λ r f, fst (Reload f r)) r fs.

(** What is served was parsed from the files remembered. *)
Definition serving (r : Reloader P) (p : P) : Prop := re_cert r = Some p ∧ X509KeyPair (re_certPEM r) (re_keyPEM r) = Some p.

Lemma reload_serving (f : Files) (r : Reloader P) (p : P) : serving r p →
  serving (fst (Reload f r)) (default p (pair_of f)).
Proof.
  intros [Hc Hp]. unfold Reload, pair_of. destruct (fi_cert f) as [c|]; [|done]. destruct (fi_key f) as [k|]; [|done].
  destruct (_ && _) eqn:E.
  - apply andb_true_iff in E as [->%bool_decide_eq_true ->%bool_decide_eq_true]. rewrite Hp. done.
  - destruct (X509KeyPair c k) as [p'|] eqn:Ep; done.
Qed.

(** Once a pair is loaded a certificate is always served: the one of the last check
    that found a readable, matching pair, so a renewal caught half-way changes
    nothing. *)
Theorem last_valid_pair_served (f0 : Files) (fs : list Files) (r : Reloader P) (p0 : P) :
  NewReloader f0 = Ok r → pair_of f0 = Some p0 →
  X509KeyPair [] [] = None →
  GetCertificate (reloads r fs) = Some (default p0 (last (omap pair_of fs))).
Proof.
  intros Hnew Hp Hempty. assert (serving r p0) as Hs.
  { unfold NewReloader, Reload, pair_of in *. destruct (fi_cert f0) as [c|]; [|done]. destruct (fi_key f0) as [k|]; [|done].
    cbn [re_certPEM re_keyPEM] in Hnew. destruct (_ && _) eqn:E.
    - apply andb_true_iff in E as [->%bool_decide_eq_true ->%bool_decide_eq_true]. congruence.
    - rewrite Hp in Hnew. injection Hnew as <-. done. }
  clear Hnew Hp. revert r p0 Hs. induction fs as [|f fs IH]; intros r p0 Hs; [apply Hs|].
  change (reloads r (f :: fs)) with (reloads (fst (Reload f r)) fs). rewrite (IH _ _ (reload_serving f r p0 Hs)). f_equal. cbn.
  destruct (pair_of f) as [p|]; [|done]. rewrite last_cons. by destruct (last (omap pair_of fs)).
Qed.

(** Two empty files are taken for the pair already loaded, so [New] accepts them and
    nothing is served. *)
Theorem empty_pair_accepted :
  ∃ r, NewReloader {| fi_cert := Some []; fi_key := Some [] |} = Ok r ∧ GetCertificate r = None.
Proof. eexists. split; reflexivity. Qed.
End served.

(** ** Witnesses *)

Module StartUpExample.

Definition object (props : list (gostring * option schema)) : option schema := Some (Schema props []).
Definition kind_of (kind : gostring) (spec : list (gostring * option schema)) : gostring * option schema :=
  (kind, Some (Schema [(lit "spec", object spec)] [{| gvk_Group := groupName; gvk_Version := versionName; gvk_Kind := kind |}])).

(** The CRDs of a release without the daily cap. *)
Definition installed : list (gostring * option schema) := [
  kind_of "MailPolicy" [(lit "recipientRestrictions", object [(lit "allowedRecipients", object [])]); (lit "rateLimits", object [])];
  kind_of "MailCredential" [(lit "serviceAccountName", object [])];
  kind_of "MailBackend" [(lit "allowedSenders", object [])]; kind_of "ClusterMailBackend" [(lit "allowedSenders", object [])]].

Example daily_cap_missing :
  VerifySchemas (Served (Some installed)) Required = Err (MismatchError [lit "the MailPolicy CRD has no field spec.rateLimits.messagesPerDay"]).
Proof. vm_compute. reflexivity. Qed.

Definition kinds : gmap gostring schema := default ∅ (kindsOf installed ∅).

Lemma schema_check_exact_witness :
  (verifyDoc (Some installed) Required = Ok () ↔
   ∀ f, f ∈ Required → ∃ s, kinds !! fd_Kind f = Some s ∧ at_path s (fd_Path f)) ∧
  ∀ kind s, kinds !! kind = Some s → describes s kind ∧ ∃ name, (name, Some s) ∈ installed.
Proof. apply (schema_check_exact installed kinds Required). match goal with |- ?a = ?b => exact (eq_refl b <: a = b) end. Defined.

Definition starting : Try := {| tr_result := Err (ReadError "503"); tr_ended := false; tr_endsInPause := false |}.
Definition stale : Try := {| tr_result := Err (MismatchError [lit "kind MailCredential is not installed"]); tr_ended := false; tr_endsInPause := false |}.
Definition cut : Try := {| tr_result := Err (ReadError "deadline exceeded"); tr_ended := true; tr_endsInPause := false |}.

Lemma wait_reports_witness :
  gives_up cut = true →
  Wait ([starting; stale] ++ cut :: []) =
    Some (Err (reported (if negb (tr_ended cut) then ReadError "deadline exceeded"
                         else match last [starting; stale] ≫= answer_of with Some l => l | None => ReadError "deadline exceeded" end))).
Proof.
  exact (wait_reports [starting; stale] cut [] ltac:(by intros t [->|[->|?%not_elem_of_nil]%elem_of_cons]%elem_of_cons)).
Defined.

#[local] Instance matching : KeyPairs gostring := {|
  X509KeyPair := λ c k, if (c == k) && (c != []) then Some c else None |}.
Definition files (c k : string) : Files := {| fi_cert := Some (lit c); fi_key := Some (lit k) |}.

Lemma last_valid_pair_served_witness :
  GetCertificate (reloads (Build_Reloader (Some (lit "one")) (lit "one") (lit "one")) [files "two" "one"; files "two" "two"; files "three" "two"]) =
  Some (default (lit "one") (last (omap pair_of [files "two" "one"; files "two" "two"; files "three" "two"]))).
Proof. apply (last_valid_pair_served (files "one" "one")); reflexivity. Defined.
End StartUpExample.
