(* ===== verification/Router.v ===== *)
(** * Routes of the HTTP API ([internal/apiserver/server.go]: [buildRouter],
      [allowedMethods])

    Which request reaches which handler, and what an unknown path or method is answered.
    The router (go-chi) is the parameter [Chi]: a tree is the list of its routes, and
    finding a handler is what chi documents for static patterns.  A mounted subrouter
    runs its own middleware before it looks for a route. *)

From S2P Require Import Prelude GoStrings Types Address Engine RateLimit Credential Driver Webhook Resolver Gateway MailParse MimeText MimeMessage LoginThrottle TokenReview HttpRequest HttpApi.

(** ** go-chi *)

(** A route: its method ([None]: every method) and pattern. *)
Record Route (H : Type) := { rt_Method : option gostring; rt_Pattern : gostring; rt_Handler : H }.
Arguments rt_Method {H} _. Arguments rt_Pattern {H} _. Arguments rt_Handler {H} _. Arguments Build_Route {H} _ _ _.

(** Patterns without parameters; a trailing star stands for the rest of the path. *)
Definition covers (pattern path : gostring) : bool :=
  match CutSuffix pattern "*" with Some prefix => HasPrefix path prefix | None => path == pattern end.
Definition accepts {H} (r : Route H) (method path : gostring) : bool :=
  match rt_Method r with Some m => m == method | None => true end && covers (rt_Pattern r) path.

Inductive Found (H : Type) := Handled (h : H) | WrongMethod | NoRoute.
Arguments Handled {H} _. Arguments WrongMethod {H}. Arguments NoRoute {H}.

Class Chi := { chi_Find : ∀ {H : Type}, list (Route H) → gostring → gostring → Found H }.

Definition MethodGet : gostring := "GET".
Definition MethodHead : gostring := "HEAD".
Definition MethodPost : gostring := "POST".
Definition MethodPut : gostring := "PUT".
Definition MethodPatch : gostring := "PATCH".
Definition MethodDelete : gostring := "DELETE".
Definition MethodOptions : gostring := "OPTIONS".
Definition knownMethods : list gostring := [MethodGet; MethodHead; MethodPost; MethodPut; MethodPatch; MethodDelete; MethodOptions].

(** A handler that is found is one of the routes that accept the request, and one is
    found if there is one and chi knows the method. *)
Class ChiLaws `{Chi} := {
  chi_sound : ∀ H (rs : list (Route H)) m p h, chi_Find rs m p = Handled h → ∃ r, r ∈ rs ∧ accepts r m p = true ∧ rt_Handler r = h;
  chi_complete : ∀ H (rs : list (Route H)) m p r, r ∈ rs → accepts r m p = true → m ∈ knownMethods → ∃ h, chi_Find rs m p = Handled h }.

(** ** The routes *)

Inductive Endpoint := Healthz | Readyz | Metrics | V1.
Inductive V1Endpoint := SendMessage.

(** [Mount] of "/v1" covers the path itself, with a slash, and everything below. *)
Definition routes : list (Route Endpoint) := [
  Build_Route (Some MethodGet) "/healthz" Healthz; Build_Route (Some MethodGet) "/readyz" Readyz;
  Build_Route None "/metrics" Metrics;
  Build_Route None "/v1" V1; Build_Route None "/v1/" V1; Build_Route None "/v1/*" V1].
Definition v1Routes : list (Route V1Endpoint) := [Build_Route (Some MethodPost) "/messages" SendMessage].

(** What the subrouter sees of a path. *)
Definition v1Path (path : gostring) : gostring :=
  match drop (length (lit "/v1")) path with [] => lit "/" | rest => rest end.

Inductive Answer :=
| Plain (status : Z)                                    (* a probe, or the metrics *)
| Api (r : Response)
| NotAllowed (r : Response) (allow : list gostring).    (* with the Allow header *)

Definition status_of (x : Answer) : Z := match x with Plain s => s | Api r => rs_Status r | NotAllowed r _ => rs_Status r end.

Definition TypeNotFound : gostring := "not-found".
Definition TypeMethodNotAllowed : gostring := "method-not-allowed".

Section router.
Context `{Chi}.

(** [r.Match]: through the subrouter. *)
Definition mux_Match (method path : gostring) : bool :=
  match chi_Find routes method path with
  | Handled V1 => match chi_Find v1Routes method (v1Path path) with Handled _ => true | _ => false end
  | Handled _ => true
  | _ => false
  end.

Definition allowedMethods (path : gostring) : list gostring := List.filter (λ m, mux_Match m path) knownMethods.

Definition notFound : Answer :=
  Api (Write None (problem_New TypeNotFound 404 "Not found" (DText "no such endpoint; mail is sent with POST /v1/messages"))).
Definition methodNotAllowed (method path : gostring) : Answer :=
  let allowed := allowedMethods path in
  NotAllowed (Write None (problem_New TypeMethodNotAllowed 405 "Method not allowed"
    (DText (method ++ lit " is not supported here; use " ++ Join allowed " or ")))) allowed.

Context `{JSONDecoder, UnicodeTables, MapOrder, AddressParser, MailReader, MediaTypes, MediaTypeOf}.
Context `{LabelMatcher, K8sNames, UUIDs, X509, Limiter L, Hashes, TokenText, LRUMap cacheEntry C}.

(** The flags of the server. *)
Record ServerFlags := { sf_cacheSynced : bool; sf_draining : bool; sf_shutting : bool }.

Definition ServeHTTP (env : Env) (now : Time) (f : ServerFlags) (v : ReviewEnv) (authID msgID : gostring) (room : bool)
    (method path : gostring) (r : HTTPRequest) (a : Authenticator C) (g : Gateway L) : Authenticator C * (Gateway L * Answer) :=
  match chi_Find routes method path with
  | Handled Healthz => (a, (g, Plain handleHealthz))
  | Handled Readyz => (a, (g, Plain (handleReadyz (sf_draining f) (sf_shutting f) (sf_cacheSynced f))))
  | Handled Metrics => (a, (g, Plain 200))
  | Handled V1 =>
      authMiddleware Api (λ who g,
        match chi_Find v1Routes method (v1Path path) with
        | Handled SendMessage => let '(g, resp) := handleSendMessage env now (sf_shutting f) who msgID room r g in (g, Api resp)
        | WrongMethod => (g, methodNotAllowed method path)
        | NoRoute => (g, notFound)
        end) v authID r a g
  | WrongMethod => (a, (g, methodNotAllowed method path))
  | NoRoute => (a, (g, notFound))
  end.
End router.

(** ** What is routed where *)

Section facts.
Context `{ChiLaws}.

Definition messagesPath : gostring := "/v1/messages".

(** The requests of an endpoint. *)
Definition meets (e : Endpoint) (m p : gostring) : Prop :=
  match e with
  | Healthz => m = MethodGet ∧ p = lit "/healthz"
  | Readyz => m = MethodGet ∧ p = lit "/readyz"
  | Metrics => p = lit "/metrics"
  | V1 => p = lit "/v1" ∨ ∃ rest, p = lit "/v1/" ++ rest
  end.

Lemma covers_exact (pattern path : gostring) : CutSuffix pattern "*" = None → covers pattern path = true ↔ path = pattern.
Proof. intros E. unfold covers. rewrite E. apply bool_decide_eq_true. Qed.

Lemma covers_below (path : gostring) : covers "/v1/*" path = true ↔ ∃ rest, path = lit "/v1/" ++ rest.
Proof.
  unfold covers. change (CutSuffix (lit "/v1/*") (lit "*")) with (Some (lit "/v1/")). apply HasPrefix_spec.
Qed.

Lemma routes_meet (e : Endpoint) (m p : gostring) :
  (∃ r, r ∈ routes ∧ accepts r m p = true ∧ rt_Handler r = e) ↔ meets e m p.
Proof.
  split.
  - intros (r & Hr & Ha & <-). unfold accepts in Ha. apply andb_true_iff in Ha as [Hm Hp].
    unfold routes in Hr. rewrite !elem_of_cons, elem_of_nil in Hr.
    destruct Hr as [->|[->|[->|[->|[->|[->|[]]]]]]]; cbn [rt_Method rt_Pattern rt_Handler meets] in *;
      try (apply bool_decide_eq_true in Hm; subst m); first [apply covers_below in Hp; by right|apply covers_exact in Hp; [subst p|reflexivity]];
      try done; [by left|right; by exists []].
  - intros He. destruct e; simpl in He.
    + destruct He as [-> ->]. eexists. split; [apply list_elem_of_here|]. by split.
    + destruct He as [-> ->]. exists (Build_Route (Some MethodGet) "/readyz" Readyz). split; [|by split]. do 1 apply list_elem_of_further. apply list_elem_of_here.
    + subst p. exists (Build_Route None "/metrics" Metrics). split; [|by split]. do 2 apply list_elem_of_further. apply list_elem_of_here.
    + destruct He as [->|[rest ->]].
      * exists (Build_Route None "/v1" V1). split; [|by split]. do 3 apply list_elem_of_further. apply list_elem_of_here.
      * exists (Build_Route None "/v1/*" V1). split; [do 5 apply list_elem_of_further; apply list_elem_of_here|].
        split; [|done]. apply andb_true_iff. split; [done|]. apply covers_below. by exists rest.
Qed.

Lemma meets_unique (e e' : Endpoint) (m p : gostring) : meets e m p → meets e' m p → e = e'.
Proof. destruct e, e'; simpl; intros H1 H2; try done; destruct_and?; subst; destruct_or?; destruct_and?; naive_solver. Qed.

(** The endpoint of a request. *)
Lemma find_endpoint (e : Endpoint) (m p : gostring) : m ∈ knownMethods → chi_Find routes m p = Handled e ↔ meets e m p.
Proof.
  intros Hm. split.
  - intros (r & Hr & Ha & He)%chi_sound. apply routes_meet. by exists r.
  - intros He. pose proof He as (r & Hr & Ha & _)%routes_meet. destruct (chi_complete _ _ _ _ _ Hr Ha Hm) as [e' He']. rewrite He'. f_equal.
    apply chi_sound in He' as (r' & Hr' & Ha' & Heq). eapply meets_unique; [|exact He]. apply routes_meet. by exists r'.
Qed.

Lemma messages_meet : meets V1 MethodPost messagesPath.
Proof. right. by exists (lit "messages"). Qed.

Lemma v1_route (m p : gostring) (h : V1Endpoint) : chi_Find v1Routes m p = Handled h → m = MethodPost ∧ p = lit "/messages".
Proof.
  intros (r & Hr & Ha & _)%chi_sound. apply list_elem_of_singleton in Hr as ->. unfold accepts in Ha. apply andb_true_iff in Ha as [Hm Hp].
  cbn [rt_Method rt_Pattern] in *. apply bool_decide_eq_true in Hm as <-. by apply covers_exact in Hp as ->.
Qed.

Lemma v1_found : chi_Find v1Routes MethodPost (lit "/messages") = Handled SendMessage.
Proof.
  destruct (chi_complete _ v1Routes MethodPost (lit "/messages") (Build_Route (Some MethodPost) "/messages" SendMessage)) as [[] Hh]; [..|done].
  - apply list_elem_of_here.
  - done.
  - unfold knownMethods. rewrite !elem_of_cons. tauto.
Qed.

Lemma v1Path_messages (p : gostring) (m : gostring) : meets V1 m p → v1Path p = lit "/messages" → p = messagesPath.
Proof. simpl. intros [->|[rest ->]]; [done|]. unfold v1Path. simpl. by intros [= ->]. Qed.

(** What [Allow] lists for a path. *)
Lemma mux_Match_iff (m p : gostring) : m ∈ knownMethods →
  mux_Match m p = true ↔ m = MethodGet ∧ (p = lit "/healthz" ∨ p = lit "/readyz") ∨ p = lit "/metrics" ∨ m = MethodPost ∧ p = messagesPath.
Proof.
  intros Hm. unfold mux_Match. split.
  - destruct (chi_Find routes m p) as [e| |] eqn:E; [|done..]. apply find_endpoint in E; [|done].
    destruct e; try (simpl in E; naive_solver). destruct (chi_Find v1Routes _ _) as [h| |] eqn:E1; [|done..]. intros _.
    apply v1_route in E1 as [-> Hp]. right. right. split; [done|]. by eapply v1Path_messages.
  - intros Hc. assert (∃ e, meets e m p ∧ (e = V1 → m = MethodPost ∧ p = messagesPath)) as (e & He & Hv).
    { destruct Hc as [[-> [-> | ->]]|[->|[-> ->]]]; [by exists Healthz|by exists Readyz|by exists Metrics|].
      exists V1. split; [|done]. right. by exists (lit "messages"). }
    rewrite (proj2 (find_endpoint e m p Hm) He). destruct e; try done. destruct (Hv eq_refl) as [-> ->].
    change (v1Path messagesPath) with (lit "/messages"). by rewrite v1_found.
Qed.

Lemma allowed_for_mail : allowedMethods messagesPath = [MethodPost].
Proof.
  unfold allowedMethods. assert (∀ m, m ∈ knownMethods → mux_Match m messagesPath = bool_decide (m = MethodPost)) as Hm.
  { intros m Hk. apply eq_true_iff_eq. rewrite mux_Match_iff, bool_decide_eq_true by done. split; [|by auto].
    intros [[_ [?|?]]|[?|[? _]]]; done. }
  transitivity (List.filter (λ m, bool_decide (m = MethodPost)) knownMethods); [|reflexivity].
  apply List.filter_ext_in. intros m Hin. apply Hm. by apply list_elem_of_In.
Qed.
End facts.

Section serving.
Context `{ChiLaws, JSONDecoder, UnicodeTables, MapOrderLaws, AddressParser, MailReader, MediaTypes, MediaTypeOf}.
Context `{LabelMatcher, K8sNames, UUIDs, X509, Limiter L, Hashes, TokenText, LRUMap cacheEntry C}.

(** Mail is sent by POST /v1/messages and by nothing else: that request is handled as
    HttpApi.v describes, and any other leaves the gateway as it is, but for the record
    of a refused token; without an accepted token nothing under /v1 is answered but 401 or
    503, unknown paths and methods included. *)
Theorem only_posts_send (env : Env) (now : Time) (f : ServerFlags) (v : ReviewEnv) (authID msgID : gostring) (room : bool)
    (m p : gostring) (r : HTTPRequest) (a : Authenticator C) (g : Gateway L) :
  m ∈ knownMethods →
  let '(a', (g', x)) := ServeHTTP env now f v authID msgID room m p r a g in
  (m = MethodPost ∧ p = messagesPath →
    ∃ resp, x = Api resp ∧ postMessages env now (sf_shutting f) v authID msgID room r a g = (a', (g', resp))) ∧
  (¬ (m = MethodPost ∧ p = messagesPath) → (g' = g ∨ ∃ e, g' = record e g ∧ ev_Decision e = DecisionReject)) ∧
  (meets V1 m p → caller a v r = None → status_of x = 401 ∨ status_of x = 503).
Proof.
  intros Hm. unfold ServeHTTP. destruct (chi_Find routes m p) as [e| |] eqn:E.
  2,3: split_and!; [intros [-> ->]; exfalso|by left|intros Hv _; exfalso].
  2,4: assert (chi_Find routes MethodPost messagesPath = Handled V1); [|congruence].
  2,3: apply find_endpoint; [done|apply messages_meet].
  2,3: apply (find_endpoint V1 m p Hm) in Hv; congruence.
  apply find_endpoint in E; [|done]. destruct e.
  1-3: split_and!; [intros [-> ->]; by pose proof (meets_unique _ _ _ _ E messages_meet)|by left|intros Hv; by pose proof (meets_unique _ _ _ _ E Hv)].
  unfold postMessages, authMiddleware, caller. cbv zeta. destruct (bearerToken (hr_Authorization r) == []).
  { split_and!; [by eexists|right; by eexists|by left]. }
  destruct (Authenticate a _) as [[a' asked] res]. cbn [snd]. destruct res as [subj|[|err|reason|u]].
  2-5: split_and!; [by eexists|right; by eexists|by auto].
  destruct (chi_Find v1Routes m (v1Path p)) as [[]| |] eqn:E1.
  - apply v1_route in E1 as [-> Hp%(v1Path_messages _ _ E)]. subst p.
    destruct (handleSendMessage _ _ _ _ _ _ _ _) as [g1 resp]. split_and!; [by eexists|by intros []|done].
  - split_and!; [intros [-> ->]|by left|done]. exfalso. change (v1Path messagesPath) with (lit "/messages") in E1. by rewrite v1_found in E1.
  - split_and!; [intros [-> ->]|by left|done]. exfalso. change (v1Path messagesPath) with (lit "/messages") in E1. by rewrite v1_found in E1.
Qed.
End serving.

Module RouterExample.
Import RequestExample ApiExample.

(** The first route that accepts a request. *)
Definition first_match : Chi := {|
  chi_Find H rs m p :=
    match List.find (λ r, accepts r m p) rs with
    | Some r => Handled (rt_Handler r)
    | None => if existsb (λ r, covers (rt_Pattern r) p) rs then WrongMethod else NoRoute
    end |}.
#[export] Instance first_match_laws : @ChiLaws first_match.
Proof.
  split; intros H rs m p; simpl.
  - intros h. destruct (List.find _ rs) as [r|] eqn:E; [|by destruct (existsb _ _)]. intros [= <-].
    apply List.find_some in E as [Hin%list_elem_of_In Ha]. by exists r.
  - intros r Hin%list_elem_of_In Ha _. destruct (List.find _ rs) as [r'|] eqn:E; [by eexists|].
    by rewrite (List.find_none _ _ E r Hin) in Ha.
Qed.

#[local] Existing Instances first_match ascii_tables two_texts some_order plain_parser from_only any_type json_only matchLabelsOnly
  simple_names no_uuids any_certificate memoryLimiter toy_hashes TokenExample.no_expiry map_cache.
Definition up : ServerFlags := {| sf_cacheSynced := true; sf_draining := false; sf_shutting := false |}.
Definition served (m p : gostring) : Answer :=
  snd (snd (ServeHTTP (example_env good_driver) (100 * Second) up reviews "auth-1" "id-1" true m p post TokenExample.a example_gateway)).

Example routed : status_of (served "POST" "/v1/messages") = 202 ∧ status_of (served "POST" "/v1/message") = 404 ∧
  (status_of (served "GET" "/v1/messages"), match served "GET" "/v1/messages" with NotAllowed _ allow => allow | _ => [] end) =
  (405, [MethodPost]).
Proof. split_and!; match goal with |- ?a = ?b => exact (eq_refl b <: a = b) end. Qed.
End RouterExample.
