(* ===== verification/AuditLog.v ===== *)
(** * The audit stream ([internal/audit/audit.go])

    One JSON object per line and record.  Records carry bytes a caller chose (addresses,
    user names), so what matters is that no such byte can end a field or a line.  The
    writer is modelled byte by byte, [encoding/json] included; a reader written from
    RFC 8259 says what a consumer of the stream gets.  The wall clock's text
    ([time.Time.MarshalJSON]) is the parameter [AuditClock]. *)

From S2P Require Import Prelude GoStrings Address Credential Resolver MimeMessage.

(** ** JSON strings ([encoding/json]) *)

Definition c_dquote : ascii := "034".
Definition c_backslash : ascii := "\".

(** The runes of a string with their bytes. *)
Fixpoint pieces_fuel (fuel : nat) (s : gostring) : list (Z * gostring) :=
  match fuel, s with
  | S fuel, _ :: _ => let '(r, n) := DecodeRune s in (r, take n s) :: pieces_fuel fuel (drop n s)
  | _, _ => []
  end.
Definition pieces (s : gostring) : list (Z * gostring) := pieces_fuel (length s) s.

(** An ASCII byte: the ones not in [htmlSafeSet] are escaped. *)
Definition escapeByte (c : ascii) : gostring :=
  if Ascii.eqb c c_dquote || Ascii.eqb c c_backslash then [c_backslash; c]
  else if bz c =? 8 then lit "\b" else if bz c =? 12 then lit "\f" else if bz c =? 10 then lit "\n"
  else if bz c =? 13 then lit "\r" else if bz c =? 9 then lit "\t"
  else if (bz c <? 32) || elem c "<>&" then lit "\u00" ++ [hex_digit (bz c / 16); hex_digit (bz c `mod` 16)]
  else [c].

(** Invalid UTF-8 becomes the replacement character, and the line separators of
    JavaScript are escaped. *)
Definition escapePiece (x : Z * gostring) : gostring :=
  let '(r, p) := x in
  match p with
  | [c] => if is_ascii c then escapeByte c else lit "\ufffd"
  | _ => if r =? 8232 then lit "\u2028" else if r =? 8233 then lit "\u2029" else p
  end.

Definition quoteString (s : gostring) : gostring := [c_dquote] ++ (pieces s ≫= escapePiece) ++ [c_dquote].

(** ** Records as JSON *)

Inductive JValue := JString (s : gostring) | JTrue | JStrings (l : list gostring).

Definition marshalValue (v : JValue) : gostring :=
  match v with
  | JString s => quoteString s
  | JTrue => lit "true"
  | JStrings l => lit "[" ++ Join (quoteString <$> l) "," ++ lit "]"
  end.

Definition marshalMember (m : gostring * JValue) : gostring := quoteString (fst m) ++ lit ":" ++ marshalValue (snd m).
Definition marshalObject (ms : list (gostring * JValue)) : gostring := lit "{" ++ Join (marshalMember <$> ms) "," ++ lit "}".

(** A field with [omitempty]. *)
Definition omitempty (key : string) (v : gostring) : list (gostring * JValue) := if v == [] then [] else [(lit key, JString v)].

Definition decisionText (d : AuditDecision) : gostring := match d with DecisionAccept => "accept" | DecisionReject => "reject" end.

(** The fields of [Event], in order; the stream and the time are set by [Record]. *)
Definition members (stamp : gostring) (e : Event) : list (gostring * JValue) :=
  [(lit "stream", JString "audit"); (lit "timestamp", JString stamp); (lit "message_id", JString (ev_MessageID e))] ++
  omitempty "namespace" (ev_Namespace e) ++ omitempty "service_account" (ev_ServiceAccount e) ++
  omitempty "auth_method" (ev_AuthMethod e) ++ omitempty "credential" (ev_Credential e) ++
  (if ev_CredentialPrevious e then [(lit "credential_previous", JTrue)] else []) ++
  omitempty "cluster" (ev_Cluster e) ++ [(lit "transport", JString (ev_Transport e))] ++
  omitempty "from" (ev_From e) ++ [(lit "to", JStrings (ev_To e))] ++ omitempty "policy" (ev_Policy e) ++
  omitempty "backend" (ev_Backend e) ++ [(lit "decision", JString (decisionText (ev_Decision e)))] ++
  omitempty "reason" (ev_Reason e).

(** ** Loggers *)

(** The text of a time; [None] for a year that has no RFC 3339 form. *)
Class AuditClock := { MarshalTime : Time → option gostring }.

Inductive AuditSink := Stdout | Stderr | AuditFile (path : gostring) | Discard.
Inductive Logger := Sink (k : AuditSink) | clusterLogger (l : Logger) (cluster : gostring).

(** [open]: whether the file can be opened. *)
Definition FromFlag (open : gostring → bool) (v : gostring) : res gostring AuditSink :=
  if (v == []) || (v == lit "stdout") then Ok Stdout
  else if v == lit "stderr" then Ok Stderr
  else if (v == lit "none") || (v == lit "off") then Ok Discard
  else if open v then Ok (AuditFile v) else Err (lit "open audit log").

(** [WithCluster]; Resolver.v has its effect on one event. *)
Definition withCluster (l : Logger) (cluster : gostring) : Logger := if cluster == [] then l else clusterLogger l cluster.

Section loggers.
Context `{AuditClock}.

(** [JSONLogger.Record] on what was written so far; [taken] are the bytes the writer takes
    of a line ([None]: all), its error is dropped. *)
Definition jsonRecord (now : Time) (taken : option nat) (e : Event) (out : gostring) : gostring :=
  match MarshalTime now with
  | None => out
  | Some stamp =>
      let b := marshalObject (members stamp e) ++ [LF] in
      out ++ match taken with None => b | Some n => take n b end
  end.

Fixpoint Record_ (l : Logger) (now : Time) (taken : option nat) (e : Event) (out : gostring) : gostring :=
  match l with
  | Sink Discard => out
  | Sink _ => jsonRecord now taken e out
  | clusterLogger l cluster => Record_ l now taken (set_Cluster cluster e) out
  end.

(** A stream of records, each at its time. *)
Definition recordAll (l : Logger) (es : list (Time * Event)) (out : gostring) : gostring :=
  foldl (λ out x, Record_ l (fst x) None (snd x) out) out es.
End loggers.

(** ** A reader of the stream *)

Definition hex4 (a b c d : ascii) : option Z :=
  match hex_value a, hex_value b, hex_value c, hex_value d with
  | Some x, Some y, Some z, Some w => Some (((x * 16 + y) * 16 + z) * 16 + w)
  | _, _, _, _ => None
  end.

Definition push (s : gostring) (x : option (gostring * gostring)) : option (gostring * gostring) :=
  match x with Some (v, rest) => Some (s ++ v, rest) | None => None end.

(** The rest of a string after its opening quote. *)
Fixpoint readString (s : gostring) : option (gostring * gostring) :=
  match s with
  | [] => None
  | c :: t =>
      if Ascii.eqb c c_dquote then Some ([], t)
      else if bz c <? 32 then None
      else if Ascii.eqb c c_backslash then
        match t with
        | e :: t2 =>
            if Ascii.eqb e "u" then
              match t2 with
              | a :: b :: x :: d :: t3 => match hex4 a b x d with Some r => push (EncodeRune r) (readString t3) | None => None end
              | _ => None
              end
            else if Ascii.eqb e "b" then push [zb 8] (readString t2)
            else if Ascii.eqb e "f" then push [zb 12] (readString t2)
            else if Ascii.eqb e "n" then push [zb 10] (readString t2)
            else if Ascii.eqb e "r" then push [zb 13] (readString t2)
            else if Ascii.eqb e "t" then push [zb 9] (readString t2)
            else if Ascii.eqb e c_dquote || Ascii.eqb e c_backslash || Ascii.eqb e "/" then push [e] (readString t2)
            else None
        | [] => None
        end
      else push [c] (readString t)
  end.

(** A string with its opening quote. *)
Definition readQuoted (s : gostring) : option (gostring * gostring) :=
  match s with c :: t => if Ascii.eqb c c_dquote then readString t else None | [] => None end.

(** Elements up to the closing bracket, after the first. *)
Fixpoint readElements (fuel : nat) (s : gostring) : option (list gostring * gostring) :=
  match fuel, s with
  | S fuel, c :: t =>
      if Ascii.eqb c "]" then Some ([], t)
      else if Ascii.eqb c "," then
        match readQuoted t with
        | Some (v, t) => match readElements fuel t with Some (vs, r) => Some (v :: vs, r) | None => None end
        | None => None
        end
      else None
  | _, _ => None
  end.

Definition readValue (s : gostring) : option (JValue * gostring) :=
  match s with
  | c :: t =>
      if Ascii.eqb c c_dquote then match readString t with Some (v, r) => Some (JString v, r) | None => None end
      else if Ascii.eqb c "[" then
        match t with
        | d :: r => if Ascii.eqb d "]" then Some (JStrings [], r)
                    else match readElements (S (length t)) (","%char :: t) with Some (vs, r) => Some (JStrings vs, r) | None => None end
        | [] => None
        end
      else if HasPrefix s "true" then Some (JTrue, drop 4 s) else None
  | [] => None
  end.

(** Members up to the closing brace, after the first. *)
Fixpoint readMembers (fuel : nat) (s : gostring) : option (list (gostring * JValue) * gostring) :=
  match fuel, s with
  | S fuel, c :: t =>
      if Ascii.eqb c "}" then Some ([], t)
      else if Ascii.eqb c "," then
        match readQuoted t with
        | Some (k, d :: t) =>
            if Ascii.eqb d ":" then
              match readValue t with
              | Some (v, t) => match readMembers fuel t with Some (ms, r) => Some ((k, v) :: ms, r) | None => None end
              | None => None
              end
            else None
        | _ => None
        end
      else None
  | _, _ => None
  end.

Definition readObject (s : gostring) : option (list (gostring * JValue)) :=
  match s with
  | c :: t => if Ascii.eqb c "{" then
                match readMembers (S (length t)) (","%char :: t) with Some (ms, []) => Some ms | _ => None end
              else None
  | [] => None
  end.

(** The field of an object, and a record read from its fields. *)
Definition member (k : string) (ms : list (gostring * JValue)) : option JValue :=
  snd <$> List.find (λ m, fst m == lit k) ms.
Definition text (k : string) (ms : list (gostring * JValue)) : gostring := match member k ms with Some (JString s) => s | _ => [] end.

Definition eventOf (ms : list (gostring * JValue)) : Event := {|
  ev_MessageID := text "message_id" ms; ev_Namespace := text "namespace" ms; ev_ServiceAccount := text "service_account" ms;
  ev_AuthMethod := text "auth_method" ms; ev_Credential := text "credential" ms;
  ev_CredentialPrevious := match member "credential_previous" ms with Some JTrue => true | _ => false end;
  ev_Cluster := text "cluster" ms; ev_Transport := text "transport" ms; ev_From := text "from" ms;
  ev_To := match member "to" ms with Some (JStrings l) => l | _ => [] end;
  ev_Policy := text "policy" ms; ev_Backend := text "backend" ms;
  ev_Decision := if text "decision" ms == lit "accept" then DecisionAccept else DecisionReject; ev_Reason := text "reason" ms |}.

(** The records of a log: one per line, each line ended. *)
Fixpoint readLines (ls : list gostring) : option (list Event) :=
  match ls with
  | [] => None
  | [l] => if l == [] then Some [] else None
  | l :: ls => match readObject l, readLines ls with Some ms, Some es => Some (eventOf ms :: es) | _, _ => None end
  end.
Definition readLog (s : gostring) : option (list Event) := readLines (Split s LF).

(** ** Strings read back *)

(** What a reader gets of a piece, and of a string: the string itself, with invalid UTF-8
    replaced. *)
Definition repair (x : Z * gostring) : gostring :=
  match snd x with [c] => if is_ascii c then [c] else EncodeRune RuneError | p => p end.
Definition toValid (s : gostring) : gostring := pieces s ≫= repair.

(** A piece is one byte, or the bytes of a rune outside ASCII. *)
Definition piece_ok (x : Z * gostring) : Prop :=
  (∃ c, snd x = [c]) ∨
  (2 ≤ length (snd x))%nat ∧ Forall (λ c, 128 ≤ bz c) (snd x) ∧
  (fst x = 8232 → snd x = EncodeRune 8232) ∧ (fst x = 8233 → snd x = EncodeRune 8233).

Lemma separator_bytes (a b c : ascii) (z : Z) :
  (z = 8232 ∨ z = 8233) → between 224 239 a = true → cont_byte b = true → cont_byte c = true →
  (bz a - 224) * 4096 + (bz b - 128) * 64 + (bz c - 128) = z → [a; b; c] = EncodeRune z.
Proof.
  unfold between, cont_byte. rewrite !andb_true_iff, !Z.leb_le. intros Hz Ha Hb Hc Hsum.
  assert (bz a = 226 ∧ bz b = 128 ∧ bz c = z - 8064) as (Ea & Eb & Ec) by lia.
  rewrite <- (zb_bz a), <- (zb_bz b), <- (zb_bz c), Ea, Eb, Ec. by destruct Hz as [-> | ->].
Qed.

Lemma DecodeRune_piece (s : gostring) : s ≠ [] → piece_ok (fst (DecodeRune s), take (snd (DecodeRune s)) s).
Proof.
  intros Hs. pose proof (DecodeRune_width s Hs) as Hw. destruct (decide (2 ≤ snd (DecodeRune s))%nat) as [H2|H2].
  - right. cbn [fst snd]. rewrite length_take. split; [lia|]. split; [apply Forall_forall; intros c; by apply DecodeRune_bytes|].
    assert (∀ z, z = 8232 ∨ z = 8233 → fst (DecodeRune s) = z → take (snd (DecodeRune s)) s = EncodeRune z) as Hz; [|auto].
    intros z Hz. clear Hw. revert H2. destruct s as [|a [|b [|c [|d s]]]]; unfold DecodeRune; repeat case_match; simpl; try lia;
      rewrite ?andb_true_iff in *; intros _ Hsum; try (unfold cont_byte, between in *; rewrite ?andb_true_iff in *; lia).
    all: apply separator_bytes; [done|unfold between; rewrite andb_true_iff; tauto| |tauto|done].
    all: unfold cont_byte, between in *; repeat case_match; rewrite ?andb_true_iff in *; lia.
  - left. cbn [snd]. replace (snd (DecodeRune s)) with 1%nat by lia. destruct s as [|a s]; [done|]. by exists a.
Qed.

Lemma pieces_ok (s : gostring) : Forall piece_ok (pieces s).
Proof.
  unfold pieces. generalize (length s). intros n. revert s. induction n as [|n IH]; intros s; [constructor|].
  destruct s as [|a s]; [constructor|]. cbn [pieces_fuel]. pose proof (DecodeRune_piece (a :: s) ltac:(done)) as Hp.
  destruct (DecodeRune (a :: s)) as [r w]. constructor; [exact Hp|apply IH].
Qed.

(** ASCII text is not changed. *)
Lemma toValid_ascii (s : gostring) : all_ascii s = true → toValid s = s.
Proof.
  unfold toValid, pieces. intros Ha. assert (length s ≤ length s)%nat as Hl by lia. revert Hl. generalize (length s) at 2 3. intros n.
  revert s Ha. induction n as [|n IH]; intros [|a s] Ha Hl; [done|simpl in Hl; lia|done|].
  cbn [all_ascii forallb] in Ha. apply andb_true_iff in Ha as [Ha Hs]. cbn [pieces_fuel]. rewrite DecodeRune_ascii by done.
  cbn [mbind list_bind take drop]. unfold repair at 1. cbn [snd]. rewrite Ha. simpl. f_equal. apply IH; [done|]. simpl in Hl. lia.
Qed.

Lemma readString_high (l t : gostring) : Forall (λ c, 128 ≤ bz c) l → readString (l ++ t) = push l (readString t).
Proof.
  induction 1 as [|c l Hc _ IH]; [cbn [app]; by destruct (readString t) as [[]|]|]. cbn [app readString].
  assert (Ascii.eqb c c_dquote = false ∧ (bz c <? 32) = false ∧ Ascii.eqb c c_backslash = false) as (-> & -> & ->)
    by (clear IH; apply Z.leb_le in Hc; revert Hc; by_byte c).
  rewrite IH. by destruct (readString t) as [[]|].
Qed.

Lemma readString_byte (c : ascii) (t : gostring) : is_ascii c = true → readString (escapeByte c ++ t) = push [c] (readString t).
Proof. intros Hc. destruct c as [[] [] [] [] [] [] [] []]; try done; vm_compute in Hc; done. Qed.

Lemma readString_piece (x : Z * gostring) (t : gostring) : piece_ok x → readString (escapePiece x ++ t) = push (repair x) (readString t).
Proof.
  destruct x as [r p]. unfold piece_ok. cbn [fst snd]. intros [[c ->]|(Hlen & Hhigh & H28 & H29)].
  - unfold repair. cbn [escapePiece snd]. destruct (is_ascii c) eqn:Hc; [by apply readString_byte|]. reflexivity.
  - assert (escapePiece (r, p) = if r =? 8232 then lit "\u2028" else if r =? 8233 then lit "\u2029" else p) as ->
      by (destruct p as [|? [|? ?]]; simpl in *; try lia; done).
    assert (repair (r, p) = p) as -> by (destruct p as [|? [|? ?]]; simpl in *; try lia; done).
    destruct (Z.eqb_spec r 8232) as [->|]; [rewrite H28 by done; reflexivity|].
    destruct (Z.eqb_spec r 8233) as [->|]; [rewrite H29 by done; reflexivity|]. by apply readString_high.
Qed.

Lemma push_app (a b : gostring) (x : option (gostring * gostring)) : push a (push b x) = push (a ++ b) x.
Proof. destruct x as [[v r]|]; simpl; [by rewrite (assoc_L (++))|done]. Qed.

Lemma readQuoted_quote (s t : gostring) : readQuoted (quoteString s ++ t) = Some (toValid s, t).
Proof.
  unfold quoteString, toValid. cbn [app readQuoted]. change (Ascii.eqb c_dquote c_dquote) with true. cbn match. rewrite <- (assoc_L (++)).
  pose proof (pieces_ok s) as Hok. induction Hok as [|x l Hx _ IH]; [done|]. cbn [mbind list_bind]. rewrite <- (assoc_L (++)), readString_piece by done.
  rewrite IH. done.
Qed.

(** ** Objects read back *)

Definition listed (l : list gostring) : gostring := l ≫= λ x, lit "," ++ x.

Lemma listed_Join (l : list gostring) : l ≠ [] → ","%char :: Join l "," = listed l.
Proof. by destruct l. Qed.

Lemma listed_cons (x : gostring) (l : list gostring) : listed (x :: l) = ","%char :: x ++ listed l.
Proof. done. Qed.

Lemma listed_length (l : list gostring) (t : gostring) : (length l + length t ≤ length (listed l ++ t))%nat.
Proof. induction l as [|x l IH]; [simpl; lia|]. rewrite listed_cons. cbn [app length]. rewrite !length_app in *. lia. Qed.

Lemma readElements_listed (l : list gostring) (t : gostring) (fuel : nat) :
  (length l < fuel)%nat → readElements fuel (listed (quoteString <$> l) ++ lit "]" ++ t) = Some (toValid <$> l, t).
Proof.
  revert fuel. induction l as [|x l IH]; intros [|fuel] Hf; try (simpl in Hf; lia); [done|].
  rewrite fmap_cons, listed_cons. cbn [app]. rewrite <- (assoc_L (++)). cbn [readElements].
  change (Ascii.eqb "," "]") with false. change (Ascii.eqb "," ",") with true. cbn match. rewrite readQuoted_quote, IH; [done|]. simpl in Hf. lia.
Qed.

Lemma quote_head (s : gostring) : ∃ t, quoteString s = c_dquote :: t.
Proof. by eexists. Qed.

(** A value as it is read. *)
Definition valid_value (v : JValue) : JValue :=
  match v with JString s => JString (toValid s) | JTrue => JTrue | JStrings l => JStrings (toValid <$> l) end.

Lemma readValue_marshal (v : JValue) (t : gostring) : readValue (marshalValue v ++ t) = Some (valid_value v, t).
Proof.
  destruct v as [s| |l]; cbn [marshalValue valid_value].
  - pose proof (readQuoted_quote s t) as Hq. destruct (quote_head s) as [u Hu]. rewrite Hu in *. cbn [app readQuoted readValue] in *.
    change (Ascii.eqb c_dquote c_dquote) with true in *. cbn match in *. by rewrite Hq.
  - done.
  - rewrite <- !(assoc_L (++)). change (lit "[") with ["["%char]. cbn [app readValue]. change (Ascii.eqb "[" c_dquote) with false.
    change (Ascii.eqb "[" "[") with true. cbn match. destruct l as [|x l]; [reflexivity|].
    pose proof (listed_Join (quoteString <$> x :: l) ltac:(by rewrite fmap_cons)) as Hj.
    set (text := Join (quoteString <$> x :: l) "," ++ lit "]" ++ t).
    assert (∃ u, text = c_dquote :: u) as [u Hu].
    { destruct (quote_head x) as [w Hw]. exists (w ++ listed (quoteString <$> l) ++ lit "]" ++ t).
      change text with ((quoteString x ++ listed (quoteString <$> l)) ++ lit "]" ++ t). by rewrite Hw, <- (assoc_L (++)). }
    rewrite Hu. change (Ascii.eqb c_dquote "]") with false. cbn match. rewrite <- Hu. unfold text.
    change (","%char :: Join (quoteString <$> x :: l) "," ++ lit "]" ++ t) with ((","%char :: Join (quoteString <$> x :: l) ",") ++ lit "]" ++ t).
    rewrite Hj, readElements_listed; [done|]. pose proof (listed_length (quoteString <$> x :: l) (lit "]" ++ t)) as Hl.
    rewrite <- Hj, length_fmap in Hl. simpl in Hl |- *. lia.
Qed.

Lemma readMembers_listed (ms : list (gostring * JValue)) (t : gostring) (fuel : nat) :
  (length ms < fuel)%nat →
  readMembers fuel (listed (marshalMember <$> ms) ++ lit "}" ++ t) = Some (prod_map toValid valid_value <$> ms, t).
Proof.
  revert fuel. induction ms as [|[k v] ms IH]; intros [|fuel] Hf; try (simpl in Hf; lia); [done|].
  rewrite !fmap_cons, listed_cons. cbn [app].
  unfold marshalMember at 1. cbn [fst snd]. rewrite <- !(assoc_L (++)). cbn [readMembers].
  change (Ascii.eqb "," "}") with false. change (Ascii.eqb "," ",") with true. cbn match. rewrite readQuoted_quote.
  change (lit ":") with [":"%char]. cbn [app]. change (Ascii.eqb ":" ":") with true. cbn match.
  rewrite readValue_marshal, IH; [done|]. simpl in Hf. lia.
Qed.

Lemma readObject_marshal (ms : list (gostring * JValue)) :
  ms ≠ [] → readObject (marshalObject ms) = Some (prod_map toValid valid_value <$> ms).
Proof.
  intros Hms. unfold marshalObject. change (lit "{") with ["{"%char]. cbn [app readObject]. change (Ascii.eqb "{" "{") with true. cbn match.
  assert (marshalMember <$> ms ≠ []) as Hne by (by destruct ms).
  pose proof (listed_Join (marshalMember <$> ms) Hne) as Hj. set (l := marshalMember <$> ms) in *.
  change (","%char :: Join l "," ++ lit "}") with ((","%char :: Join l ",") ++ lit "}").
  pose proof (listed_length l (lit "}")) as Hl. rewrite <- Hj in Hl. rewrite Hj. rewrite <- (app_nil_r (lit "}")). unfold l. rewrite readMembers_listed; [done|].
  unfold l in Hl. rewrite length_fmap in Hl. simpl in Hl |- *. rewrite ?length_app in *. simpl in *. lia.
Qed.

(** ** Records read back *)

Lemma member_app (k : string) (a b : list (gostring * JValue)) :
  member k (a ++ b) = match member k a with Some v => Some v | None => member k b end.
Proof. unfold member. induction a as [|[x v] a IH]; [done|]. cbn [app List.find fst]. by destruct (x == lit k). Qed.

Lemma member_one (k k' : string) (v : JValue) : member k [(lit k', v)] = if bool_decide (lit k' = lit k) then Some v else None.
Proof. unfold member. cbn [List.find fst]. by destruct (bool_decide _). Qed.

Lemma member_cons (k k' : string) (v : JValue) (ms : list (gostring * JValue)) :
  member k ((lit k', v) :: ms) = if bool_decide (lit k' = lit k) then Some v else member k ms.
Proof. unfold member. cbn [List.find fst]. by destruct (bool_decide _). Qed.

Lemma member_omitempty (k k' : string) (v : gostring) :
  member k (omitempty k' v) = if bool_decide (lit k' = lit k) && negb (bool_decide (v = [])) then Some (JString v) else None.
Proof. unfold omitempty. destruct (bool_decide (v = [])); [by rewrite andb_false_r|]. rewrite member_one, andb_true_r. done. Qed.

(** Comparisons of field names, by evaluation. *)
Ltac compare_names :=
  repeat match goal with |- context [bool_decide (lit ?a = lit ?b)] =>
    let v := eval vm_compute in (bool_decide (lit a = lit b)) in change (bool_decide (lit a = lit b)) with v end.

Ltac find_member :=
  unfold text, members; rewrite ?member_app, ?member_cons, ?member_omitempty, ?member_one; compare_names;
  cbn [andb negb member List.find fmap option_fmap option_map].

(** The fields written are the fields of the event. *)
Lemma eventOf_members (stamp : gostring) (e : Event) : eventOf (members stamp e) = e.
Proof.
  assert (∀ b : bool, ∀ k, member k (if b then [(lit "credential_previous", JTrue)] else []) =
    if b && bool_decide (lit "credential_previous" = lit k) then Some JTrue else None) as Hprev.
  { intros [] k; [apply member_one|done]. }
  destruct e as [id ns sa am cr cp cl tr fr to po be de re]. unfold eventOf.
  f_equal; find_member; cbn [ev_MessageID ev_Namespace ev_ServiceAccount ev_AuthMethod ev_Credential ev_CredentialPrevious
    ev_Cluster ev_Transport ev_From ev_To ev_Policy ev_Backend ev_Decision ev_Reason];
    rewrite ?Hprev; compare_names; rewrite ?andb_false_r, ?andb_true_r; try done;
    try (match goal with |- context [bool_decide (?v = [])] => destruct (bool_decide_reflect (v = [])) as [->|]; done end).
  - by destruct cp.
  - by destruct de.
Qed.

(** An event as it is read: invalid UTF-8 replaced. *)
Definition validEvent (e : Event) : Event := {|
  ev_MessageID := toValid (ev_MessageID e); ev_Namespace := toValid (ev_Namespace e); ev_ServiceAccount := toValid (ev_ServiceAccount e);
  ev_AuthMethod := toValid (ev_AuthMethod e); ev_Credential := toValid (ev_Credential e);
  ev_CredentialPrevious := ev_CredentialPrevious e; ev_Cluster := toValid (ev_Cluster e); ev_Transport := toValid (ev_Transport e);
  ev_From := toValid (ev_From e); ev_To := toValid <$> ev_To e; ev_Policy := toValid (ev_Policy e);
  ev_Backend := toValid (ev_Backend e); ev_Decision := ev_Decision e; ev_Reason := toValid (ev_Reason e) |}.

Definition ascii_key (m : gostring * JValue) : Prop := all_ascii (fst m) = true.

Lemma members_ascii (stamp : gostring) (e : Event) : Forall ascii_key (members stamp e).
Proof.
  assert (∀ k v, all_ascii (lit k) = true → Forall ascii_key (omitempty k v)) as Ho
    by (intros k v Hk; unfold omitempty; case_bool_decide; by repeat constructor).
  unfold members. rewrite !Forall_app. split_and!; try (by apply Ho); try (by repeat constructor).
  destruct (ev_CredentialPrevious e); by repeat constructor.
Qed.

Lemma member_valid (k : string) (ms : list (gostring * JValue)) :
  Forall ascii_key ms → member k (prod_map toValid valid_value <$> ms) = valid_value <$> member k ms.
Proof.
  unfold member. induction 1 as [|[x v] ms Hx _ IH]; [done|]. rewrite fmap_cons. cbn [List.find fst prod_map].
  rewrite toValid_ascii by exact Hx. destruct (x == lit k); [done|exact IH].
Qed.

Lemma text_valid (k : string) (ms : list (gostring * JValue)) :
  Forall ascii_key ms → text k (prod_map toValid valid_value <$> ms) = toValid (text k ms).
Proof. intros Hms. unfold text. rewrite member_valid by done. by destruct (member k ms) as [[]|]. Qed.

Lemma eventOf_valid (stamp : gostring) (e : Event) :
  eventOf (prod_map toValid valid_value <$> members stamp e) = validEvent e.
Proof.
  pose proof (members_ascii stamp e) as Hk. pose proof (eventOf_members stamp e) as Hm. set (ms := members stamp e) in *.
  unfold eventOf. rewrite !text_valid, !member_valid by done. unfold validEvent. rewrite <- Hm. unfold eventOf.
  f_equal; cbn [ev_CredentialPrevious ev_To ev_Decision].
  - by destruct (member _ ms) as [[]|].
  - by destruct (member _ ms) as [[]|].
  - assert (text "decision" ms = decisionText (ev_Decision e)) as ->.
    { unfold ms. find_member. rewrite ?andb_false_r. destruct (ev_CredentialPrevious e); rewrite ?member_one; by compare_names. }
    rewrite toValid_ascii by (by destruct (ev_Decision e)). done.
Qed.

(** ** Lines *)

Lemma escapeByte_printable (c : ascii) : is_ascii c = true → forallb (λ x, 32 <=? bz x) (escapeByte c) = true.
Proof. by_byte c. Qed.

Lemma quote_printable (s : gostring) : forallb (λ x, 32 <=? bz x) (quoteString s) = true.
Proof.
  unfold quoteString. rewrite !forallb_app. rewrite !andb_true_iff. split; [done|]. split; [|done].
  pose proof (pieces_ok s) as Hok. induction Hok as [|[r p] l Hx _ IH]; [done|]. cbn [mbind list_bind]. rewrite forallb_app, IH, andb_true_r.
  destruct Hx as [[c Hc]|(Hlen & Hhigh & _)]; cbn [fst snd] in *.
  - subst p. cbn [escapePiece]. destruct (is_ascii c) eqn:Ha; [by apply escapeByte_printable|done].
  - assert (forallb (λ x, 32 <=? bz x) p = true) as Hp.
    { apply forallb_forall. intros x Hin%list_elem_of_In. rewrite Forall_forall in Hhigh. apply Hhigh in Hin. apply Z.leb_le. lia. }
    destruct p as [|a [|b p]]; simpl in Hlen; try lia. cbn [escapePiece]. by repeat case_match.
Qed.

Lemma listed_printable (l : list gostring) :
  Forall (λ s, forallb (λ x, 32 <=? bz x) s = true) l → forallb (λ x, 32 <=? bz x) (Join l ",") = true.
Proof.
  intros Hl. destruct l as [|x l]; [done|]. apply Forall_cons in Hl as [Hx Hl]. change (Join (x :: l) ",") with (x ++ listed l).
  rewrite forallb_app, Hx. simpl. induction Hl as [|y l Hy _ IH]; [done|]. rewrite listed_cons. cbn [forallb]. by rewrite forallb_app, Hy, IH.
Qed.

Lemma object_printable (ms : list (gostring * JValue)) : forallb (λ x, 32 <=? bz x) (marshalObject ms) = true.
Proof.
  unfold marshalObject. rewrite !forallb_app, !andb_true_iff. split; [done|]. split; [|done]. apply listed_printable, Forall_fmap, Forall_true.
  intros [k v]. unfold compose, marshalMember. cbn [fst snd]. rewrite !forallb_app, quote_printable. cbn [andb].
  destruct v as [s| |l]; cbn [marshalValue]; [by rewrite quote_printable|done|]. rewrite !forallb_app, !andb_true_iff. split_and!; try done.
  apply listed_printable, Forall_fmap, Forall_true. intros s. apply quote_printable.
Qed.

(** A record is one line. *)
Lemma object_one_line (ms : list (gostring * JValue)) : LF ∉ marshalObject ms.
Proof.
  intros Hin. pose proof (object_printable ms) as Hp. rewrite forallb_forall in Hp. apply list_elem_of_In, Hp in Hin. by vm_compute in Hin.
Qed.

Lemma Split_last (s : gostring) (x c : ascii) : x ≠ c → ∃ ps p, Split (s ++ [x]) c = ps ++ [p] ∧ p ≠ [].
Proof.
  intros Hx. induction s as [|y s IH]; cbn [app Split].
  - rewrite (proj2 (Ascii.eqb_neq x c) Hx). by exists [], [x].
  - destruct IH as (ps & p & -> & Hp). destruct (Ascii.eqb y c); [by exists ([] :: ps), p|].
    destruct ps as [|q ps]; [by exists [], (y :: p)|]. by exists ((y :: q) :: ps), p.
Qed.

(** A log that can be read is empty, or its last line is ended. *)
Lemma readLines_snoc (ls : list gostring) (es : list Event) (l : gostring) (ms : list (gostring * JValue)) :
  readLines ls = Some es → readObject l = Some ms →
  ∃ init, ls = init ++ [[]] ∧ readLines (init ++ [l; []]) = Some (es ++ [eventOf ms]).
Proof.
  intros Hes Hl. revert es Hes. induction ls as [|x ls IH]; intros es; [done|]. destruct ls as [|y ls].
  - cbn [readLines]. case_bool_decide; [|done]. intros [= <-]. subst x. exists []. split; [done|]. cbn. by rewrite Hl.
  - cbn [readLines]. destruct (readObject x) as [mx|] eqn:Ex; [|done]. destruct (match ls with [] => _ | _ => _ end) as [es'|] eqn:Er; [|done].
    intros [= <-]. destruct (IH es') as (init & Hi & Hr); [exact Er|]. exists (x :: init). split; [by rewrite Hi|].
    destruct init as [|z init]; cbn [app readLines] in *; rewrite Ex, Hr; done.
Qed.

Lemma readLog_append (out l : gostring) (es : list Event) (ms : list (gostring * JValue)) :
  readLog out = Some es → readObject l = Some ms → LF ∉ l → readLog (out ++ l ++ [LF]) = Some (es ++ [eventOf ms]).
Proof.
  unfold readLog. intros Hout Hl Hno. destruct (readLines_snoc _ _ _ _ Hout Hl) as (init & Hi & Hr). rewrite <- Hr. f_equal.
  assert (Split (l ++ [LF]) LF = [l; []]) as Hsl by (rewrite Split_app, Split_notin by done; done).
  induction out as [|x out _] using rev_ind.
  - cbn [Split] in Hi. destruct init as [|? [|]]; simplify_eq/=. exact Hsl.
  - destruct (decide (x = LF)) as [->|Hx].
    + rewrite Split_app in Hi. cbn [Split] in Hi. apply app_inj_tail in Hi as [<- _].
      rewrite <- (assoc_L (++)). cbn [app]. rewrite Split_app. by rewrite Hsl.
    + destruct (Split_last out x LF Hx) as (ps & p & Hp & Hne). rewrite Hp in Hi. by apply app_inj_tail in Hi as [_ ->].
Qed.

Section log.
Context `{AuditClock}.

(** What a logger writes for an event. *)
Lemma withCluster_record (k : AuditSink) (cluster : gostring) (now : Time) (taken : option nat) (e : Event) (out : gostring) :
  k ≠ Discard → Record_ (withCluster (Sink k) cluster) now taken e out = jsonRecord now taken (WithCluster cluster e) out.
Proof. intros Hk. unfold withCluster, WithCluster. case_bool_decide; cbn [Record_]; by destruct k. Qed.

(** C9. Records read back.  Whatever bytes callers put into their requests, a log that was
    readable before is readable after any sequence of records: one line each, in order,
    and a reader finds in each line exactly the event that was recorded, with the name of
    the cluster, and with invalid UTF-8 replaced (text in ASCII is read back unchanged,
    by [toValid_ascii]).  No field can end its line, forge another field or another
    record. *)
Theorem audit_log_reads_back (k : AuditSink) (cluster : gostring) (es : list (Time * Event)) (out : gostring) (old : list Event) :
  k ≠ Discard → readLog out = Some old → Forall (λ x, is_Some (MarshalTime (fst x))) es →
  readLog (recordAll (withCluster (Sink k) cluster) es out) = Some (old ++ ((λ x, validEvent (WithCluster cluster (snd x))) <$> es)).
Proof.
  intros Hk. revert out old. induction es as [|[t e] es IH]; intros out old Hout Hes; [by rewrite app_nil_r|].
  apply Forall_cons in Hes as [[stamp Ht] Hes]. cbn [fst] in Ht. cbn [recordAll foldl fst snd]. rewrite withCluster_record by done.
  unfold jsonRecord. rewrite Ht. set (e' := WithCluster cluster e).
  assert (readLog (out ++ marshalObject (members stamp e') ++ [LF]) = Some (old ++ [validEvent e'])) as Hout'.
  { rewrite <- (eventOf_valid stamp e'). apply readLog_append; [done| |apply object_one_line].
    apply readObject_marshal. unfold members. by destruct (omitempty "namespace" (ev_Namespace e')). }
  etransitivity; [apply (IH _ _ Hout' Hes)|]. rewrite fmap_cons. cbn [snd]. fold e'. by rewrite <- (assoc_L (++)).
Qed.
End log.

Module AuditExample.
Definition noon : AuditClock := {| MarshalTime := λ t, if t <? 0 then None else Some (lit "2026-01-02T12:00:00Z") |}.
#[local] Existing Instance noon.

(** A sender that tries to end its field and its line. *)
Definition forged : Event := {|
  ev_MessageID := "id-1"; ev_Namespace := "team"; ev_ServiceAccount := "app"; ev_AuthMethod := "oauth_bearer"; ev_Credential := [];
  ev_CredentialPrevious := false; ev_Cluster := []; ev_Transport := "rest";
  ev_From := lit "x" ++ [c_dquote] ++ lit ",decision:accept}" ++ [LF; zb 255]; ev_To := [lit "<bob@corp.example>"]; ev_Policy := []; ev_Backend := [];
  ev_Decision := DecisionReject; ev_Reason := "no_policy" |}.

Lemma audit_log_reads_back_witness :
  readLog (recordAll (withCluster (Sink Stdout) "prod") [(1, forged); (2, forged)] []) =
  Some ([] ++ ((λ x, validEvent (WithCluster "prod" (snd x))) <$> [(1, forged); (2, forged)])).
Proof. apply (audit_log_reads_back Stdout "prod"); [done|reflexivity|by repeat constructor]. Defined.
End AuditExample.
