(* ===== verification/Telemetry.v ===== *)
(** * Logging and tracing ([internal/telemetry]: logging.go, tracing.go)

    The keys and levels of log lines, how often a broken trace collector is reported, and
    when tracing is on.  Runes outside ASCII are classified by the parameter
    [UnicodeClasses]; the exporter and its resource are given by their answers. *)

From S2P Require Import Prelude GoStrings.

(** ** Attribute keys *)

(** [unicode.IsUpper], [IsLower] and [IsDigit] of runes outside ASCII. *)
Class UnicodeClasses := { unicode_upper : Z → bool; unicode_lowercase : Z → bool; unicode_digit : Z → bool }.

Section keys.
Context `{UnicodeTables, UnicodeClasses}.

Definition IsUpper (r : Z) : bool := if r <? 128 then (65 <=? r) && (r <=? 90) else unicode_upper r.
Definition IsLower (r : Z) : bool := if r <? 128 then (97 <=? r) && (r <=? 122) else unicode_lowercase r.
Definition IsDigit (r : Z) : bool := if r <? 128 then (48 <=? r) && (r <=? 57) else unicode_digit r.

(** The loop over the runes: [prev] is the one before, if there is one. *)
Fixpoint snakeLoop (prev : option Z) (rs : list Z) : gostring :=
  match rs with
  | [] => []
  | c :: rest =>
      (if IsUpper c then
         let lowerBefore := match prev with Some p => IsLower p || IsDigit p | None => false end in
         let acronymEnd := match prev, rest with Some p, n :: _ => IsUpper p && IsLower n | _, _ => false end in
         (if lowerBefore || acronymEnd then lit "_" else []) ++ EncodeRune (rune_lower c)
       else EncodeRune c) ++ snakeLoop (Some c) rest
  end.

Definition snakeCase (s : gostring) : gostring :=
  if negb (existsb IsUpper (runes s)) || ContainsAny s " _-." then s else snakeLoop None (runes s).

(** An attribute: its key and value; a level is a number. *)
Inductive AttrValue := LevelValue (l : Z) | OtherValue (s : gostring).
Record Attr := { at_Key : gostring; at_Value : AttrValue }.
Definition LevelKey : gostring := "level".
Definition LevelInfo : Z := 0.
Definition LevelDebug : Z := -4.
Definition LevelWarn : Z := 4.
Definition LevelError : Z := 8.

Definition replaceAttr (groups : list gostring) (a : Attr) : Attr :=
  if (length groups =? 0)%nat && (at_Key a == LevelKey) then
    match at_Value a with
    | LevelValue l => if l <? LevelInfo then {| at_Key := at_Key a; at_Value := OtherValue "DEBUG" |} else a
    | OtherValue _ => a
    end
  else {| at_Key := snakeCase (at_Key a); at_Value := at_Value a |}.

(** [NewLogger]: the level of SIGILLUM_LOG_LEVEL. *)
Definition levelOf (v : gostring) : Z :=
  let v := ToLower v in
  if v == lit "debug" then LevelDebug else if v == lit "warn" then LevelWarn else if v == lit "error" then LevelError else LevelInfo.
End keys.

(** ** Errors of the exporter *)

Record otelErrorHandler := { oh_every : Duration; oh_last : option Time; oh_suppressed : Z }.
Definition newHandler : otelErrorHandler := {| oh_every := Minute; oh_last := None; oh_suppressed := 0 |}.

(** [Handle] at [now]: a line with the number of errors since the last one, or nothing. *)
Definition Handle (now : Time) (h : otelErrorHandler) : otelErrorHandler * option Z :=
  match oh_last h with
  | Some t => if now - t <? oh_every h
              then ({| oh_every := oh_every h; oh_last := Some t; oh_suppressed := oh_suppressed h + 1 |}, None)
              else ({| oh_every := oh_every h; oh_last := Some now; oh_suppressed := 0 |}, Some (oh_suppressed h))
  | None => ({| oh_every := oh_every h; oh_last := Some now; oh_suppressed := 0 |}, Some (oh_suppressed h))
  end.

(** A series of errors, and the lines logged, with their times. *)
Fixpoint handleAll (ts : list Time) (h : otelErrorHandler) : otelErrorHandler * list (Time * Z) :=
  match ts with
  | [] => (h, [])
  | t :: ts =>
      let '(h, line) := Handle t h in
      let '(h, lines) := handleAll ts h in
      (h, match line with Some n => (t, n) :: lines | None => lines end)
  end.

(** ** Tracing *)

Inductive TracingError := UnsupportedProtocol (p : gostring) | ExporterFailed (msg : gostring) | ResourceFailed (msg : gostring).

(** [InitTracing]: whether tracing is on; [env] is the environment, the others what the
    exporter and the resource answer. *)
Definition InitTracing `{UnicodeTables} (env : string → gostring) (exporter resource : res gostring unit) : res TracingError bool :=
  if EqualFold (env "OTEL_SDK_DISABLED") "true" then Ok false
  else if (env "OTEL_EXPORTER_OTLP_ENDPOINT" == []) && (env "OTEL_EXPORTER_OTLP_TRACES_ENDPOINT" == []) then Ok false
  else
    let proto := env "OTEL_EXPORTER_OTLP_TRACES_PROTOCOL" in
    let proto := if proto == [] then env "OTEL_EXPORTER_OTLP_PROTOCOL" else proto in
    if (proto != []) && (proto != lit "http/protobuf") then Err (UnsupportedProtocol proto)
    else match exporter with
         | Err e => Err (ExporterFailed e)
         | Ok _ => match resource with Err e => Err (ResourceFailed e) | Ok _ => Ok true end
         end.

(** [HTTPMiddleware]: the status and the error mark of the span, from the handler's calls
    of [WriteHeader]. *)
Definition statusRecorder (codes : list Z) : Z := foldl (λ _ c, c) 200 codes.
Definition spanOf (codes : list Z) : Z * bool := (statusRecorder codes, 500 <=? statusRecorder codes).

(** ** Facts *)

Section key_facts.
Context `{UnicodeTables, UnicodeClasses}.

Lemma IsUpper_byte (c : ascii) : is_ascii c = true → IsUpper (bz c) = is_upper c.
Proof. intros Hc. unfold IsUpper, is_ascii in *. rewrite Hc. clear Hc. by_byte c. Qed.

Lemma EncodeRune_byte (c : ascii) : is_ascii c = true → EncodeRune (bz c) = [c].
Proof. by_byte c. Qed.

(** One rune of an ASCII key: itself in lower case, after an underscore or not. *)
Lemma snakeLoop_cons (prev : option Z) (c : ascii) (rs : list Z) : is_ascii c = true →
  ∃ sep, sep ∈ [[]; lit "_"] ∧ snakeLoop prev (bz c :: rs) = sep ++ [lower_byte c] ++ snakeLoop (Some (bz c)) rs.
Proof.
  intros Hc. cbn [snakeLoop]. rewrite IsUpper_byte by done. destruct (is_upper c) eqn:Hu.
  - rewrite rune_lower_byte by done. destruct (_ || _); [exists (lit "_")|exists []]; (split; [set_solver|by rewrite <- (assoc_L (++))]).
  - rewrite EncodeRune_byte by done. exists []. split; [set_solver|]. unfold lower_byte. by rewrite Hu.
Qed.

Definition dropUnderscores (s : gostring) : gostring := List.filter (λ c, negb (Ascii.eqb c "_")) s.

Lemma snakeLoop_spec (s : gostring) (prev : option Z) : all_ascii s = true → "_"%char ∉ s →
  dropUnderscores (snakeLoop prev (bz <$> s)) = lower_byte <$> s ∧
  all_ascii (snakeLoop prev (bz <$> s)) = true ∧ existsb is_upper (snakeLoop prev (bz <$> s)) = false.
Proof.
  revert prev. induction s as [|c s IH]; intros prev Ha Hu; [done|]. cbn [all_ascii forallb] in Ha. apply andb_true_iff in Ha as [Hc Hs].
  apply not_elem_of_cons in Hu as [Hn Hu]. rewrite !fmap_cons. destruct (snakeLoop_cons prev c (bz <$> s) Hc) as (sep & Hsep & ->).
  destruct (IH (Some (bz c)) Hs Hu) as (H1 & H2 & H3). unfold dropUnderscores in *. rewrite !List.filter_app, H1, !all_ascii_app, H2, !existsb_app, H3.
  assert (negb (Ascii.eqb (lower_byte c) "_") = true ∧ is_ascii (lower_byte c) = true ∧ is_upper (lower_byte c) = false) as (E1 & E2 & E3).
  { clear -Hc Hn. apply Ascii.eqb_neq in Hn. revert Hc Hn. by_byte c. }
  cbn [List.filter all_ascii forallb existsb]. rewrite E1, E2, E3. rewrite !elem_of_cons, elem_of_nil in Hsep. destruct Hsep as [->|[->|[]]]; done.
Qed.

(** Keys of the ASCII alphabet are only re-spelt: without the underscores the key is the
    original in lower case; a key has no upper-case letters unless it has a blank, an
    underscore, a dash or a dot; and re-spelling twice changes nothing more. *)
Theorem snake_case_respells (s : gostring) : all_ascii s = true →
  (ContainsAny s " _-." = false → dropUnderscores (snakeCase s) = lower_byte <$> s ∧ existsb is_upper (snakeCase s) = false) ∧
  (ContainsAny s " _-." = true → snakeCase s = s) ∧
  snakeCase (snakeCase s) = snakeCase s.
Proof.
  intros Ha. assert (∀ t, all_ascii t = true → existsb IsUpper (runes t) = existsb is_upper t) as Hup.
  { intros t Ht. rewrite runes_ascii by done. clear -Ht. induction t as [|c t IH]; [done|]. cbn [all_ascii forallb] in Ht. apply andb_true_iff in Ht as [Hc Ht].
    rewrite fmap_cons. cbn [existsb]. by rewrite IsUpper_byte, IH. }
  assert (∀ t, all_ascii t = true → existsb is_upper t = false → snakeCase t = t) as Hlow.
  { intros t Ht Hn. unfold snakeCase. by rewrite Hup, Hn. }
  destruct (ContainsAny s " _-.") eqn:Hsep.
  { assert (snakeCase s = s) as E by (unfold snakeCase; by rewrite Hsep, orb_true_r). rewrite E. split; [done|]. split; [done|exact E]. }
  assert ("_"%char ∉ s) as Hno.
  { intros Hin. apply (proj1 (ContainsAny_false _ _) Hsep) in Hin. apply Hin. by apply elem_spec. }
  destruct (existsb is_upper s) eqn:Hu.
  - assert (snakeCase s = snakeLoop None (bz <$> s)) as E by (unfold snakeCase; rewrite Hup, Hu, Hsep, runes_ascii by done; done).
    destruct (snakeLoop_spec s None Ha Hno) as (H1 & H2 & H3). rewrite E. split; [done|]. split; [done|]. by apply Hlow.
  - rewrite (Hlow s) by done. split; [intros _; split; [|done]|split; [done|by apply Hlow]].
    clear -Ha Hu Hno. induction s as [|c s IH]; [done|]. cbn [existsb all_ascii forallb] in *. apply orb_false_iff in Hu as [Hu Hus].
    apply andb_true_iff in Ha as [Hc Hs]. apply not_elem_of_cons in Hno as [Hn Hno]. unfold dropUnderscores in *. cbn [List.filter].
    rewrite (proj2 (Ascii.eqb_neq c "_") ltac:(congruence)). cbn [negb]. rewrite fmap_cons, IH by done. unfold lower_byte at 2. by rewrite Hu.
Qed.
End key_facts.

(** Lines at least an interval apart, and after the last one before them. *)
Fixpoint spaced (every : Duration) (last : option Time) (lines : list (Time * Z)) : Prop :=
  match lines with
  | [] => True
  | (t, _) :: lines => match last with Some p => p + every ≤ t | None => True end ∧ spaced every (Some t) lines
  end.
Definition reported (lines : list (Time * Z)) : Z := foldr (λ x n, snd x + n) 0 lines.

Lemma handleAll_spec (ts : list Time) (h : otelErrorHandler) :
  let '(h', lines) := handleAll ts h in
  oh_every h' = oh_every h ∧ spaced (oh_every h) (oh_last h) lines ∧
  Z.of_nat (length ts) + oh_suppressed h = Z.of_nat (length lines) + reported lines + oh_suppressed h'.
Proof.
  revert h. induction ts as [|t ts IH]; intros h; [simpl; split_and!; [done|done|lia]|]. cbn [handleAll].
  assert (match Handle t h with
    | (h1, Some n) => oh_every h1 = oh_every h ∧ oh_last h1 = Some t ∧ n = oh_suppressed h ∧ oh_suppressed h1 = 0 ∧
        match oh_last h with Some p => p + oh_every h ≤ t | None => True end
    | (h1, None) => oh_every h1 = oh_every h ∧ oh_last h1 = oh_last h ∧ oh_suppressed h1 = oh_suppressed h + 1
    end) as Hh.
  { unfold Handle. destruct (oh_last h) as [p|] eqn:E; [destruct (Z.ltb_spec (t - p) (oh_every h))|]; simpl; split_and!; done || lia. }
  destruct (Handle t h) as [h1 line]. specialize (IH h1). destruct (handleAll ts h1) as [h2 lines]. destruct IH as (He & Hs & Hn).
  destruct line as [n|]; cbn [length].
  - destruct Hh as (E1 & E2 & -> & E3 & Hgap). rewrite E1, E2 in Hs. split_and!; [congruence|done|]. cbn [spaced reported foldr snd length] in *. unfold reported in *. lia.
  - destruct Hh as (E1 & E2 & E3). rewrite E1, E2 in Hs. split_and!; [congruence|done|]. lia.
Qed.

(** A collector that is down is reported at once, then at most once a minute, and no error
    goes uncounted: each one is logged itself, or counted in a later line, or waits to be. *)
Theorem exporter_errors_counted (ts : list Time) :
  let '(h, lines) := handleAll ts newHandler in
  (∀ t, head ts = Some t → head lines = Some (t, 0)) ∧ spaced Minute None lines ∧
  Z.of_nat (length ts) = Z.of_nat (length lines) + reported lines + oh_suppressed h.
Proof.
  pose proof (handleAll_spec ts newHandler) as Hs. destruct ts as [|t ts]; [done|]. cbn [handleAll Handle newHandler oh_last oh_every oh_suppressed] in *.
  destruct (handleAll ts _) as [h lines]. destruct Hs as (_ & Hsp & Hn). split_and!; [by intros ? [= ->]|done|]. cbn [oh_suppressed] in Hn. lia.
Qed.

(** Tracing is on exactly with an endpoint, the supported protocol and a working exporter,
    unless it is disabled; without an endpoint it never keeps a process from starting. *)
Theorem tracing_on_iff `{UnicodeTables} (env : string → gostring) (exporter resource : res gostring unit) :
  let endpoint := env "OTEL_EXPORTER_OTLP_ENDPOINT" ≠ [] ∨ env "OTEL_EXPORTER_OTLP_TRACES_ENDPOINT" ≠ [] in
  let proto := if bool_decide (env "OTEL_EXPORTER_OTLP_TRACES_PROTOCOL" = []) then env "OTEL_EXPORTER_OTLP_PROTOCOL"
               else env "OTEL_EXPORTER_OTLP_TRACES_PROTOCOL" in
  (InitTracing env exporter resource = Ok true ↔
     EqualFold (env "OTEL_SDK_DISABLED") "true" = false ∧ endpoint ∧ (proto = [] ∨ proto = lit "http/protobuf") ∧
     exporter = Ok () ∧ resource = Ok ()) ∧
  (¬ endpoint → InitTracing env exporter resource = Ok false).
Proof.
  cbv zeta. unfold InitTracing. cbv zeta. destruct (EqualFold _ _); [split; [split; [done|by intros [? _]]|done]|].
  destruct (bool_decide_reflect (env "OTEL_EXPORTER_OTLP_ENDPOINT" = [])), (bool_decide_reflect (env "OTEL_EXPORTER_OTLP_TRACES_ENDPOINT" = []));
    cbn [andb]; (split; [|tauto || done]).
  1: split; [done|tauto].
  all: set (proto := if bool_decide _ then _ else _); destruct (bool_decide_reflect (proto = [])), (bool_decide_reflect (proto = lit "http/protobuf"));
    cbn [negb andb]; destruct exporter as [[]|], resource as [[]|]; naive_solver.
Qed.

(** A handler that writes its status once gets a span with the status the client saw. *)
Lemma span_status (codes : list Z) : (length codes ≤ 1)%nat → spanOf codes = (default 200 (head codes), 500 <=? default 200 (head codes)).
Proof. destruct codes as [|c [|]]; simpl; done || lia. Qed.

Module TelemetryExample.
Definition ascii_classes : UnicodeClasses := {| unicode_upper := λ _, false; unicode_lowercase := λ _, false; unicode_digit := λ _, false |}.
#[local] Existing Instances ascii_tables ascii_classes.
Example keys_respelt : snakeCase "reconcileID" = lit "reconcile_id" ∧ snakeCase "MailBackend" = lit "mail_backend" ∧
  snakeCase "HTTPStatus" = lit "http_status" ∧ snakeCase "X-Request" = lit "X-Request".
Proof. by vm_compute. Qed.
End TelemetryExample.
