(* ===== verification/Decimal.v ===== *)
(** * Decimal numbers ([strconv.Itoa] and its readers)

    Shared by the files whose text has numbers in it. *)

From stdpp Require Import pretty.
From S2P Require Import Prelude GoStrings Credential Resolver.

Lemma digits_value_app (a b : gostring) (acc : Z) : digits_value acc (a ++ b) = digits_value acc a ≫= λ n, digits_value n b.
Proof. revert acc. induction a as [|c a IH]; intros acc; [done|]. cbn. destruct (is_digit c); [apply IH|done]. Qed.

Lemma digit_char (x : N) : (x < 10)%N → is_digit (pretty_N_char x) = true ∧ bz (pretty_N_char x) = 48 + Z.of_N x.
Proof.
  intros Hx. assert (x = 0 ∨ x = 1 ∨ x = 2 ∨ x = 3 ∨ x = 4 ∨ x = 5 ∨ x = 6 ∨ x = 7 ∨ x = 8 ∨ x = 9)%N as Hc by lia.
  repeat (destruct Hc as [->|Hc]; [done|]). by subst x.
Qed.

Lemma pretty_digits (x : N) (s : string) :
  ∃ ds, lit (pretty_N_go x s) = ds ++ lit s ∧ Forall (λ c, is_digit c = true) ds ∧ digits_value 0 ds = Some (Z.of_N x) ∧
    ∀ k : nat, (x < 10 ^ N.of_nat k)%N → (length ds ≤ k)%nat.
Proof.
  revert s. induction (N.lt_wf_0 x) as [x _ IH]. intros s. destruct (decide (x = 0)%N) as [->|Hx].
  { exists []. rewrite pretty_N_go_0. split_and!; try done. intros k _. simpl. lia. }
  rewrite pretty_N_go_step by lia.
  destruct (IH (x `div` 10)%N (N.div_lt x 10 ltac:(lia) eq_refl) (String (pretty_N_char (x `mod` 10)) s)) as (ds & He & Hd & Hv & Hl).
  destruct (digit_char (x `mod` 10)) as [Hc Hz]; [by apply N.mod_lt|].
  exists (ds ++ [pretty_N_char (x `mod` 10)]). rewrite He. split_and!.
  - by rewrite <-app_assoc.
  - by apply Forall_app_2; [|repeat constructor].
  - rewrite digits_value_app, Hv. cbn. rewrite Hc, Hz. f_equal.
    pose proof (N.div_mod x 10 ltac:(done)). lia.
  - intros [|k] Hk; [simpl in Hk; lia|]. rewrite length_app. cbn [length]. specialize (Hl k).
    rewrite Nat2N.inj_succ, N.pow_succ_r' in Hk. pose proof (N.Div0.div_lt_upper_bound x 10 (10 ^ N.of_nat k) Hk). lia.
Qed.

Lemma Itoa_digits (n : Z) : 0 ≤ n →
  Itoa n ≠ [] ∧ Forall (λ c, is_digit c = true) (Itoa n) ∧ digits_value 0 (Itoa n) = Some n.
Proof.
  intros Hn. unfold Itoa. destruct n as [|p|]; [by repeat constructor| |lia].
  change (pretty (Zpos p)) with (if decide (Npos p = 0)%N then "0" else pretty_N_go (Npos p) "").
  rewrite decide_False by done. destruct (pretty_digits (Npos p) "") as (ds & -> & Hd & Hv & _).
  rewrite app_nil_r. split_and!; [by intros ->|done..].
Qed.

Lemma ParseUint_Itoa (bits n : Z) : 0 ≤ n < 2 ^ bits → ParseUint bits (Itoa n) = Some n.
Proof.
  intros Hn. destruct (Itoa_digits n ltac:(lia)) as (Hne & _ & Hv). unfold ParseUint.
  destruct (Itoa n) as [|c s]; [done|]. rewrite Hv. cbn. by rewrite (proj2 (Z.ltb_lt n _)) by lia.
Qed.

Lemma Itoa_only (c : ascii) (n : Z) : 0 ≤ n → is_digit c = false → c ∉ Itoa n.
Proof. intros Hn Hc Hin. destruct (Itoa_digits n Hn) as (_ & Hd & _). rewrite Forall_forall in Hd. apply Hd in Hin. congruence. Qed.

Lemma Itoa_short (n : Z) (k : nat) : 0 ≤ n < 10 ^ Z.of_nat k → (0 < k)%nat → (length (Itoa n) ≤ k)%nat.
Proof.
  intros Hn Hk. unfold Itoa. destruct n as [|p|]; [cbn; lia| |lia].
  change (pretty (Zpos p)) with (if decide (Npos p = 0)%N then "0" else pretty_N_go (Npos p) "").
  rewrite decide_False by done. destruct (pretty_digits (Npos p) "") as (ds & -> & _ & _ & Hl).
  rewrite app_nil_r. apply Hl. lia.
Qed.

(** [strconv.ParseInt] reads what [strconv.Itoa] wrote. *)
Lemma digits_value_fold (s : gostring) (acc n : Z) :
  digits_value acc s = Some n → foldl (λ n c, n * 10 + (bz c - 48)) acc s = n ∧ forallb is_digit s = true.
Proof.
  revert acc. induction s as [|c s IH]; intros acc; cbn; [by intros [= ->]|]. destruct (is_digit c); [|done].
  intros Hd. by destruct (IH _ Hd).
Qed.

Lemma ParseInt64_Itoa (n : Z) : 0 ≤ n < 2 ^ 63 → ParseInt64 (Itoa n) = Some n.
Proof.
  intros Hn. destruct (Itoa_digits n ltac:(lia)) as (Hne & Hd & Hv). destruct (digits_value_fold _ _ _ Hv) as [Hf Hall].
  unfold ParseInt64. destruct (Itoa n) as [|c s]; [done|]. inversion Hd as [|? ? Hc _]. subst.
  assert (Ascii.eqb c "-" = false) as -> by (apply Ascii.eqb_neq; by intros ->).
  assert (Ascii.eqb c "+" = false) as -> by (apply Ascii.eqb_neq; by intros ->).
  rewrite Hall. unfold min_int64, max_int64. rewrite bool_decide_eq_false_2 by done. cbn [negb andb].
  by rewrite (proj2 (Z.leb_le _ _)), (proj2 (Z.leb_le _ _)) by lia.
Qed.

Lemma notin_text (c : ascii) (s : gostring) : existsb (Ascii.eqb c) s = false → c ∉ s.
Proof.
  intros He Hin. rewrite <-not_true_iff_false, existsb_exists in He. apply He. exists c.
  rewrite <-list_elem_of_In. split; [done|]. apply Ascii.eqb_refl.
Qed.
