(* ===== verification/Argon.v ===== *)
(** * Writing argon2id hashes ([HashArgon2id] of [internal/credential/credential.go])

    The PHC string a user of bring-your-own passwords stores, and its way back: what
    [ParseArgon2id] and [VerifyArgon2id] make of it. *)

From S2P Require Import Prelude GoStrings Address Credential Resolver MimeText Decimal.

(** [HashArgon2id]; the hash is 32 bytes long. *)
Definition HashArgon2id `{Hashes} (password salt : gostring) (memoryKiB t threads : Z) : gostring :=
  let key := IDKey password salt t memoryKiB threads 32 in
  lit "$argon2id$v=19$m=" ++ Itoa memoryKiB ++ lit ",t=" ++ Itoa t ++ lit ",p=" ++ Itoa threads ++
  lit "$" ++ b64_Encode c_plus c_slash salt ++ lit "$" ++ b64_Encode c_plus c_slash key.

(** The documented length of what [argon2.IDKey] returns. *)
Class ArgonLaws `{Hashes} := {
  IDKey_length : ∀ p s t m q n, 0 ≤ n → Z.of_nat (length (IDKey p s t m q n)) = n }.

(** ** The way back *)

Lemma b64_no_dollar (s : gostring) : c_dollar ∉ b64_Encode c_plus c_slash s.
Proof.
  rewrite b64_Encode_values. intros (n & Hc & Hn)%list_elem_of_fmap.
  pose proof (b64_values_range c_plus c_slash s) as Hr. rewrite Forall_forall in Hr. specialize (Hr n Hn).
  assert (forallb (λ n, negb (Ascii.eqb (b64_digit c_plus c_slash n) c_dollar)) (seqZ 0 64) = true) as Hall by (vm_compute; reflexivity).
  rewrite forallb_forall in Hall. specialize (Hall n). rewrite <-list_elem_of_In, elem_of_seqZ, <-Hc in Hall.
  specialize (Hall ltac:(lia)). by rewrite Ascii.eqb_refl in Hall.
Qed.

Lemma decodeB64_Encode (s : gostring) : decodeB64 (b64_Encode c_plus c_slash s) = Some s.
Proof.
  unfold decodeB64. rewrite <-(app_nil_r (b64_Encode _ _ s)), (TrimRight_padding _ c_eq 0) by (intros H%b64_chars; naive_solver).
  by apply b64_round_trip.
Qed.

(** The parameter field, in the order [HashArgon2id] writes it. *)
Definition param (k : string) (n : Z) : gostring := lit k ++ c_eq :: Itoa n.

Lemma param_Cut (k : string) (n : Z) : c_eq ∉ lit k → Cut (param k n) c_eq = Some (lit k, Itoa n).
Proof. intros Hk. by apply Cut_Some. Qed.

Lemma param_no (c : ascii) (k : string) (n : Z) : 0 ≤ n → is_digit c = false → c ∉ lit k → c ≠ c_eq → c ∉ param k n.
Proof.
  intros Hn Hc Hk Hne. unfold param. rewrite not_elem_of_app, not_elem_of_cons. split_and!; [done..|]. by apply Itoa_only.
Qed.

Lemma params_read (m t p : Z) : 0 ≤ m < 2 ^ 32 → 0 ≤ t < 2 ^ 32 → 0 ≤ p ≤ 255 →
  argon2_params 0 0 0 [] (Split (Join [param "m" m; param "t" t; param "p" p] [c_comma]) c_comma)
  = Ok (m, t, p, [lit "p"; lit "t"; lit "m"]).
Proof.
  intros Hm Ht Hp. rewrite Split_Join; [|done|].
  - cbn [argon2_params]. rewrite !param_Cut by (by apply notin_text).
    rewrite !ParseUint_Itoa by lia. by rewrite (proj2 (Z.ltb_ge 255 p)) by lia.
  - repeat constructor; apply param_no; (done || lia || by apply notin_text).
Qed.

Lemma phc_Split (m t p : Z) (salt key : gostring) : 0 ≤ m → 0 ≤ t → 0 ≤ p →
  Split (lit "$argon2id$v=19$m=" ++ Itoa m ++ lit ",t=" ++ Itoa t ++ lit ",p=" ++ Itoa p ++
         lit "$" ++ b64_Encode c_plus c_slash salt ++ lit "$" ++ b64_Encode c_plus c_slash key) c_dollar
  = [[]; lit "argon2id"; lit "v=19"; Join [param "m" m; param "t" t; param "p" p] [c_comma];
     b64_Encode c_plus c_slash salt; b64_Encode c_plus c_slash key].
Proof.
  intros Hm Ht Hp. set (l := [_; _; _; _; _; _]).
  assert (Split (Join l [c_dollar]) c_dollar = l) as HS.
  { apply Split_Join; [done|]. subst l.
    assert (∀ k n, 0 ≤ n → c_dollar ∉ lit k → c_dollar ∉ param k n) as Hpar by (intros; by apply param_no).
    assert (c_dollar ∉ Join [param "m" m; param "t" t; param "p" p] [c_comma]) as HJ.
    { unfold Join. cbn [foldr]. rewrite !not_elem_of_app, !not_elem_of_cons.
      split_and!; try first [apply not_elem_of_nil|discriminate]. all: apply Hpar; [lia|by apply notin_text]. }
    rewrite !Forall_cons. split_and!; [by apply notin_text..|exact HJ|apply b64_no_dollar|apply b64_no_dollar|done]. }
  rewrite <-HS. f_equal. subst l. unfold Join, param.
  generalize (Itoa m) (Itoa t) (Itoa p) (b64_Encode c_plus c_slash salt) (b64_Encode c_plus c_slash key). clear.
  intros. cbn. by rewrite <-?app_assoc; cbn; rewrite <-?app_assoc; cbn; rewrite ?app_nil_r.
Qed.

Lemma phc_reads_back (p : Argon2Params) : argon2_bounded p →
  ParseArgon2id (lit "$argon2id$v=19$m=" ++ Itoa (a2_MemoryKiB p) ++ lit ",t=" ++ Itoa (a2_Time p) ++ lit ",p=" ++
    Itoa (a2_Threads p) ++ lit "$" ++ b64_Encode c_plus c_slash (a2_Salt p) ++ lit "$" ++ b64_Encode c_plus c_slash (a2_Key p)) = Ok p.
Proof.
  destruct p as [m t q salt key]. intros [Hm Ht Hs Hq Hl Hk]. cbn [a2_MemoryKiB a2_Time a2_Threads a2_Salt a2_Key] in *.
  unfold ParseArgon2id. rewrite phc_Split by (unfold Argon2MinMemoryKiB in *; lia).
  rewrite !(bool_decide_true (_ = _)) by done. cbn [negb].
  unfold Argon2MinMemoryKiB, Argon2MaxMemoryKiB, Argon2MinMemoryTimeKiB, Argon2MaxTime, Argon2MaxThreads,
    argon2MinSaltLen, argon2MinKeyLen, argon2MaxKeyLen in *.
  rewrite params_read by lia. cbn [res_bind mbind].
  rewrite !(bool_decide_true (_ ∈ _)) by (by repeat constructor).
  rewrite (Z.mod_small (m * t)) by nia. rewrite !decodeB64_Encode.
  repeat match goal with
  | |- context [(?a <? ?b)%Z] => rewrite (proj2 (Z.ltb_ge a b)) by lia
  | |- context [(?a <? ?b)%nat] => rewrite (proj2 (Nat.ltb_ge a b)) by lia
  end. done.
Qed.

(** What [HashArgon2id] writes with a salt and costs within the limits is accepted,
    reads back as the salt, costs and hash it was made from, and verifies exactly the
    passwords argon2id cannot tell from the hashed one. *)
Theorem argon2id_round_trip `{ArgonLaws} (password salt : gostring) (m t p : Z) :
  Argon2MinMemoryKiB ≤ m ≤ Argon2MaxMemoryKiB → 1 ≤ t ≤ Argon2MaxTime → Argon2MinMemoryTimeKiB ≤ m * t →
  1 ≤ p ≤ Argon2MaxThreads → (argon2MinSaltLen ≤ length salt)%nat →
  let key := IDKey password salt t m p 32 in
  ParseArgon2id (HashArgon2id password salt m t p)
    = Ok {| a2_MemoryKiB := m; a2_Time := t; a2_Threads := p; a2_Salt := salt; a2_Key := key |} ∧
  ∀ attempt, VerifyArgon2id (HashArgon2id password salt m t p) attempt = Ok (IDKey attempt salt t m p 32 == key).
Proof.
  intros Hm Ht Hs Hp Hsalt key. pose proof (IDKey_length password salt t m p 32 ltac:(lia)) as Hkey. fold key in Hkey.
  assert (ParseArgon2id (HashArgon2id password salt m t p)
    = Ok {| a2_MemoryKiB := m; a2_Time := t; a2_Threads := p; a2_Salt := salt; a2_Key := key |}) as HP.
  { refine (phc_reads_back {| a2_MemoryKiB := m; a2_Time := t; a2_Threads := p; a2_Salt := salt; a2_Key := key |} _). constructor; cbn [a2_MemoryKiB a2_Time a2_Threads a2_Salt a2_Key]; try done.
    unfold argon2MinKeyLen, argon2MaxKeyLen. lia. }
  split; [done|]. intros attempt. unfold VerifyArgon2id. rewrite HP. cbn -[bool_decide]. by rewrite Hkey.
Qed.

(** ** A hash by hand *)

Module ArgonExample.

(** The first bytes of the password, padded. *)
Definition cut_hash : Hashes := {|
  Sum256 := λ s, s; IDKey := λ p s t m q n, let k := take (Z.to_nat n) p in k ++ replicate (Z.to_nat n - length k) "."%char |}.
#[local] Existing Instance cut_hash.

#[local] Instance cut_laws : ArgonLaws.
Proof. constructor. intros. cbn. rewrite length_app, length_replicate, length_take. lia. Qed.

Lemma argon2id_round_trip_witness :
  VerifyArgon2id (HashArgon2id (lit "secret") (lit "saltsalt") 19456 2 1) (lit "secret") = Ok true.
Proof.
  destruct (argon2id_round_trip (lit "secret") (lit "saltsalt") 19456 2 1) as [_ Hv];
    [split; vm_compute; discriminate|split; vm_compute; discriminate|vm_compute; discriminate|split; vm_compute; discriminate
    |cbn; unfold argon2MinSaltLen; lia|].
  rewrite Hv. by rewrite bool_decide_true.
Defined.

End ArgonExample.
