(* ===== verification/JsonPatch.v ===== *)
(** * The patches of the two Secret writers ([writeSecret] of
      [mailcredential_controller.go], [write] of [oauth_broker.go]) and the
      requeueing of MailCredentials

    Both controllers replace a Secret they cannot read by an RFC 6902 document whose
    test operations ask for their own marks first.  Here are the documents as they are
    sent, with their RFC 6901 pointers, and what a server that follows the two RFCs makes
    of them; the writers' files assume no more than that of [api_patch] and [tok_patch]. *)

From S2P Require Import Prelude GoStrings Address Types Credential Resolver CredController MimeText OAuth TokenBroker.

(** ** The documents *)

Definition c_tilde : ascii := "~".

(** [strings.NewReplacer("~", "~0", "/", "~1")]. *)
Definition escapeChar (c : ascii) : gostring :=
  if Ascii.eqb c c_tilde then lit "~0" else if Ascii.eqb c c_slash then lit "~1" else [c].
Definition jsonPointerEscape (s : gostring) : gostring := s ≫= escapeChar.

(** A value: a string, or a map of byte slices, which JSON writes in base64. *)
Inductive PatchValue := Text (s : gostring) | Bytes (m : gmap gostring gostring).
Inductive PatchOp := OpTest (path : gostring) (v : PatchValue) | OpAdd (path : gostring) (v : PatchValue).

Definition bytesValue (data : gmap gostring gostring) : PatchValue := Bytes (std_Encode <$> data).

Definition credentialPatch (name uid : gostring) (data : gmap gostring gostring) : list PatchOp :=
  [OpTest (lit "/metadata/labels/" ++ jsonPointerEscape CredentialLabel) (Text name);
   OpTest (lit "/metadata/annotations/" ++ jsonPointerEscape CredentialUIDAnnotation) (Text uid);
   OpAdd (lit "/data") (bytesValue data)].

Definition tokenDocument (name uid : gostring) (p : TokenPatch) : list PatchOp :=
  [OpTest (lit "/metadata/labels/" ++ jsonPointerEscape OAuthTokenLabel) (Text name);
   OpTest (lit "/metadata/annotations/" ++ jsonPointerEscape OAuthTokenUIDAnnotation) (Text uid);
   OpAdd (lit "/metadata/annotations/" ++ jsonPointerEscape OAuthSeedAnnotation) (Text (tp_seed p));
   OpAdd (lit "/metadata/annotations/" ++ jsonPointerEscape OAuthRefreshAtAnnotation) (Text (tp_refreshAt p));
   OpAdd (lit "/data") (bytesValue (tp_data p))].

(** ** A server that follows the RFCs *)

(** RFC 6901: the reference tokens of a pointer. *)
Fixpoint unescape (s : gostring) : option gostring :=
  match s with
  | [] => Some []
  | c :: s =>
      if Ascii.eqb c c_tilde then
        match s with
        | d :: s => if Ascii.eqb d "0" then cons c_tilde <$> unescape s
                    else if Ascii.eqb d "1" then cons c_slash <$> unescape s else None
        | [] => None
        end
      else cons c <$> unescape s
  end.

Definition tokens_of (path : gostring) : option (list gostring) :=
  match path with
  | [] => Some []
  | c :: rest => if Ascii.eqb c c_slash then mapM unescape (Split rest c_slash) else None
  end.

(** The members of a Secret's document these patches can reach.  An empty map is not in
    the document at all, so nothing can be added to it. *)
Inductive target := Label (k : gostring) | Annotation (k : gostring) | AllData.
Definition target_of (path : gostring) : option target :=
  match tokens_of path with
  | Some [a; b; k] => if a == lit "metadata" then
                        if b == lit "labels" then Some (Label k) else if b == lit "annotations" then Some (Annotation k) else None
                      else None
  | Some [a] => if a == lit "data" then Some AllData else None
  | _ => None
  end.

Definition set_annotation (k v : gostring) (s : Secret) : Secret :=
  {| sec_Labels := sec_Labels s; sec_Annotations := <[k := v]> (sec_Annotations s); sec_Owners := sec_Owners s;
     sec_Type := sec_Type s; sec_Data := sec_Data s |}.
Definition set_label (k v : gostring) (s : Secret) : Secret :=
  {| sec_Labels := <[k := v]> (sec_Labels s); sec_Annotations := sec_Annotations s; sec_Owners := sec_Owners s;
     sec_Type := sec_Type s; sec_Data := sec_Data s |}.

(** The bytes of a decoded map; [None] if a value is no base64. *)
Definition decodeAll (m : gmap gostring gostring) : option (gmap gostring gostring) :=
  if bool_decide (map_Forall (λ _ v, is_Some (decodeB64 v)) m) then Some (omap decodeB64 m) else None.

Definition applyOp (op : PatchOp) (s : Secret) : option Secret :=
  match op with
  | OpTest path (Text v) =>
      match target_of path with
      | Some (Label k) => if sec_Labels s !! k == Some v then Some s else None
      | Some (Annotation k) => if sec_Annotations s !! k == Some v then Some s else None
      | _ => None
      end
  | OpAdd path (Text v) =>
      match target_of path with
      | Some (Label k) => if sec_Labels s == ∅ then None else Some (set_label k v s)
      | Some (Annotation k) => if sec_Annotations s == ∅ then None else Some (set_annotation k v s)
      | _ => None
      end
  | OpAdd path (Bytes m) =>
      match target_of path with Some AllData => (λ d, set_data d s) <$> decodeAll m | _ => None end
  | OpTest path (Bytes m) =>
      match target_of path with Some AllData => if decodeAll m == Some (sec_Data s) then Some s else None | _ => None end
  end.

(** The operations in order, all or none. *)
Definition applyPatch (ops : list PatchOp) (s : Secret) : option Secret := foldl (λ s op, s ≫= applyOp op) (Some s) ops.

(** ** Pointers *)

Lemma unescape_app (c : ascii) (s : gostring) : unescape (escapeChar c ++ s) = cons c <$> unescape s.
Proof.
  unfold escapeChar. destruct (Ascii.eqb_spec c c_tilde) as [->|Ht]; [done|].
  destruct (Ascii.eqb_spec c c_slash) as [->|Hs]; [done|]. cbn [app unescape]. by rewrite (proj2 (Ascii.eqb_neq c c_tilde)).
Qed.

Lemma unescape_escape (s : gostring) : unescape (jsonPointerEscape s) = Some s.
Proof. induction s as [|c s IH]; [done|]. cbn [jsonPointerEscape mbind list_bind]. rewrite unescape_app. unfold jsonPointerEscape in IH. by rewrite IH. Qed.

Lemma escape_no_slash (s : gostring) : c_slash ∉ jsonPointerEscape s.
Proof.
  unfold jsonPointerEscape. rewrite list_elem_of_bind. intros (x & Hc & _). unfold escapeChar in Hc. destruct (Ascii.eqb_spec x c_tilde) as [Ht|Ht].
  { apply list_elem_of_In in Hc. by destruct Hc as [?|[?|[]]]. }
  destruct (Ascii.eqb_spec x c_slash) as [Hs|Hs].
  { apply list_elem_of_In in Hc. by destruct Hc as [?|[?|[]]]. }
  apply list_elem_of_singleton in Hc. congruence.
Qed.

(** A pointer built with [jsonPointerEscape] names the key, whatever characters it has. *)
Theorem pointer_round_trip (k : gostring) :
  target_of (lit "/metadata/labels/" ++ jsonPointerEscape k) = Some (Label k) ∧
  target_of (lit "/metadata/annotations/" ++ jsonPointerEscape k) = Some (Annotation k).
Proof.
  pose proof (escape_no_slash k) as Hk.
  assert (∀ kind, c_slash ∉ lit kind →
    tokens_of (c_slash :: (lit "metadata" ++ c_slash :: (lit kind ++ c_slash :: jsonPointerEscape k)))
    = (λ b, [lit "metadata"; b; k]) <$> unescape (lit kind)) as Htok.
  { intros kind Hkind. unfold tokens_of. rewrite Ascii.eqb_refl, !Split_app, (Split_notin (lit kind)), (Split_notin (jsonPointerEscape k)) by done.
    change (Split (lit "metadata") c_slash) with [lit "metadata"]. cbn [app].
    generalize (unescape_escape k). generalize (jsonPointerEscape k). intros e He. cbn -[unescape lit]. rewrite He. by destruct (unescape (lit kind)). }
  unfold target_of. split.
  - change (lit "/metadata/labels/" ++ jsonPointerEscape k)
      with (c_slash :: (lit "metadata" ++ c_slash :: (lit "labels" ++ c_slash :: jsonPointerEscape k))).
    by rewrite Htok by set_solver.
  - change (lit "/metadata/annotations/" ++ jsonPointerEscape k)
      with (c_slash :: (lit "metadata" ++ c_slash :: (lit "annotations" ++ c_slash :: jsonPointerEscape k))).
    by rewrite Htok by set_solver.
Qed.

(** ** What the patches do *)

Lemma decodeAll_bytes (data : gmap gostring gostring) : decodeAll (std_Encode <$> data) = Some data.
Proof.
  unfold decodeAll. rewrite bool_decide_true.
  - f_equal. apply (map_eq (M:=gmap gostring)). intros k. rewrite (lookup_omap (M:=gmap gostring)), (lookup_fmap (M:=gmap gostring)).
    destruct (data !! k) as [v|]; [|done]. simpl. apply std_round_trip.
  - intros k v Hv. apply (lookup_fmap_Some (M:=gmap gostring)) in Hv as (x & <- & _). rewrite std_round_trip. by eexists.
Qed.

Lemma target_data : target_of (lit "/data") = Some AllData.
Proof. by vm_compute. Qed.

(** The tests pass exactly on the controller's own Secret; what is then replaced is the
    data, byte for byte, and for tokens the two annotations.  In every other case the
    whole document is refused. *)
Lemma credentialPatch_applies (name uid : gostring) (data : gmap gostring gostring) (s : Secret) :
  applyPatch (credentialPatch name uid data) s
  = if (sec_Labels s !! CredentialLabel == Some name) && (sec_Annotations s !! CredentialUIDAnnotation == Some uid)
    then Some (set_data data s) else None.
Proof.
  unfold applyPatch, credentialPatch, bytesValue. cbn [foldl mbind option_bind applyOp].
  rewrite (proj1 (pointer_round_trip _)). case_bool_decide; [|done]. cbn [mbind option_bind applyOp andb].
  rewrite (proj2 (pointer_round_trip _)). case_bool_decide; [|done]. cbn [mbind option_bind applyOp].
  by rewrite target_data, decodeAll_bytes.
Qed.

Lemma tokenDocument_applies (name uid : gostring) (p : TokenPatch) (s : Secret) :
  applyPatch (tokenDocument name uid p) s
  = if (sec_Labels s !! OAuthTokenLabel == Some name) && (sec_Annotations s !! OAuthTokenUIDAnnotation == Some uid)
    then Some (apply_patch p s) else None.
Proof.
  assert (∀ k v (m : gmap gostring gostring), m !! k = Some v → m ≠ ∅) as Hne.
  { intros k v m Hm ->. by rewrite (lookup_empty (M:=gmap gostring)) in Hm. }
  unfold applyPatch, tokenDocument, bytesValue. cbn [foldl mbind option_bind applyOp].
  rewrite (proj1 (pointer_round_trip _)). case_bool_decide; [|done]. cbn [mbind option_bind applyOp andb].
  rewrite (proj2 (pointer_round_trip _)). case_bool_decide as Ha; [|done]. cbn [mbind option_bind applyOp].
  rewrite (proj2 (pointer_round_trip _)), bool_decide_false by eauto. cbn [mbind option_bind applyOp].
  rewrite (proj2 (pointer_round_trip _)), bool_decide_false.
  - cbn [mbind option_bind applyOp]. by rewrite target_data, decodeAll_bytes.
  - cbn [set_annotation sec_Annotations]. apply (insert_non_empty (M:=gmap gostring)).
Qed.

(** A server that applies the documents, and refuses one that does not apply as invalid. *)
Definition patchSecret (k : secret_key) (ops : list PatchOp) (s : gmap secret_key Secret) : gmap secret_key Secret * option APIError :=
  match s !! k with
  | None => (s, Some NotFound)
  | Some v => match applyPatch ops v with Some v' => (<[k := v']> s, None) | None => (s, Some Invalid) end
  end.
Definition createSecret (k : secret_key) (v : Secret) (s : gmap secret_key Secret) : gmap secret_key Secret * option APIError :=
  match s !! k with Some _ => (s, Some AlreadyExists) | None => (<[k := v]> s, None) end.

#[local] Instance patching : SecretAPI (gmap secret_key Secret) := {|
  api_secrets := λ s, s; api_create := createSecret; api_patch := λ k name uid d, patchSecret k (credentialPatch name uid d) |}.
#[local] Instance token_patching : TokenSecretAPI (gmap secret_key Secret) := {|
  tok_secrets := λ s, s; tok_create := createSecret; tok_patch := λ k name uid p, patchSecret k (tokenDocument name uid p) |}.

Lemma createSecret_ok (k : secret_key) (v : Secret) (s s' : gmap secret_key Secret) :
  createSecret k v s = (s', None) → s !! k = None ∧ s' = <[k := v]> s.
Proof. unfold createSecret. by destruct (s !! k) eqn:E; intros [= <-]. Qed.

Lemma createSecret_failed (k : secret_key) (v : Secret) (s s' : gmap secret_key Secret) (e : APIError) :
  createSecret k v s = (s', Some e) → s' = s.
Proof. unfold createSecret. by destruct (s !! k); intros [= <-]. Qed.

Lemma patchSecret_cases (k : secret_key) (ops : list PatchOp) (s s' : gmap secret_key Secret) (e : option APIError) :
  patchSecret k ops s = (s', e) →
  match e with
  | None => ∃ v v', s !! k = Some v ∧ applyPatch ops v = Some v' ∧ s' = <[k := v']> s
  | Some _ => s' = s
  end.
Proof.
  unfold patchSecret. destruct (s !! k) as [v|]; [|by intros [= <- <-]].
  destruct (applyPatch ops v) as [v'|] eqn:Ha; intros [= <- <-]; [by exists v, v'|done].
Qed.

(** C25. Sent to a server that follows RFC 6901 and RFC 6902, the two patches satisfy
    everything the writers' proofs ask of the API server: a patch that succeeds hit the
    controller's own Secret and replaced nothing but what it may, a refused one changed
    nothing. *)
Theorem patches_satisfy_interface :
  @SecretAPILaws (gmap secret_key Secret) patching ∧ @TokenSecretAPILaws (gmap secret_key Secret) token_patching.
Proof.
  split; split; cbn [api_secrets api_create api_patch patching tok_secrets tok_create tok_patch token_patching].
  - intros *. apply createSecret_ok.
  - intros * Hc. left. by eapply createSecret_failed.
  - intros * (v & v' & Hv & Ha & ->)%patchSecret_cases. exists v. rewrite credentialPatch_applies in Ha.
    destruct (_ && _) eqn:Hb; [|done]. injection Ha as <-. apply andb_true_iff in Hb as [Hl Hu].
    split_and!; [done|split; by eapply bool_decide_eq_true|done].
  - intros * Hp%patchSecret_cases. by left.
  - intros *. apply createSecret_ok.
  - intros * Hc. left. by eapply createSecret_failed.
  - intros * (v & v' & Hv & Ha & ->)%patchSecret_cases. exists v. rewrite tokenDocument_applies in Ha.
    destruct (_ && _) eqn:Hb; [|done]. injection Ha as <-. apply andb_true_iff in Hb as [Hl Hu].
    split_and!; [done|split; by eapply bool_decide_eq_true|done].
  - intros * Hp%patchSecret_cases. by left.
Qed.

(** ** Requeueing MailCredentials *)

(** The index the manager keeps ([spec.serviceAccountName]). *)
Definition credentialSAIndex (mc : MailCredential) : list gostring := [mcs_ServiceAccountName (mc_Spec mc)].

(** The requests for an event of the ServiceAccount [ns/name]; a list that failed makes
    none. *)
Definition credentialsForServiceAccount (list : option (list MailCredential)) (ns name : gostring) : Datatypes.list (gostring * gostring) :=
  match list with
  | None => []
  | Some items =>
      (λ mc, (mc_Namespace mc, mc_Name mc)) <$>
        List.filter (λ mc, (mc_Namespace mc == ns) && bool_decide (name ∈ credentialSAIndex mc)) items
  end.

(** An event of a ServiceAccount reaches exactly the credentials that name it. *)
Lemma requeued_credentials (items : list MailCredential) (ns name : gostring) (k : gostring * gostring) :
  k ∈ credentialsForServiceAccount (Some items) ns name ↔
  ∃ mc, mc ∈ items ∧ k = (ns, mc_Name mc) ∧ mc_Namespace mc = ns ∧ mcs_ServiceAccountName (mc_Spec mc) = name.
Proof.
  unfold credentialsForServiceAccount, credentialSAIndex. rewrite list_elem_of_fmap. split.
  - intros (mc & -> & Hin). rewrite list_elem_of_In, filter_In, <-list_elem_of_In in Hin. destruct Hin as [Hin Hb].
    apply andb_true_iff in Hb as [Hn%bool_decide_eq_true Hs%bool_decide_eq_true]. apply list_elem_of_singleton in Hs.
    exists mc. by rewrite Hn.
  - intros (mc & Hin & -> & Hn & Hs). exists mc. rewrite Hn. split; [done|].
    rewrite list_elem_of_In, filter_In, <-list_elem_of_In. split; [done|].
    rewrite !bool_decide_true; [done| |done]. by apply list_elem_of_singleton.
Qed.
