(* ===== verification/OAuthTest.v ===== *)
(** * The token endpoint of the tests ([internal/oauth/oauthtest/server.go])

    The provider the repository itself implements.  It is a second implementation of what
    TokenBroker.v asks of a provider: its answers, read by the OAuth client of OAuth.v, are
    steps of [provider].  How [encoding/json] writes the answers is written out here;
    reading them is the parameter [TokenEndpoint] with its documented behaviour
    ([AnswersRead]).  The text of a failed request ([Error()] of oauth.go) is here too. *)

From S2P Require Import Prelude GoStrings Address Credential Resolver CredController OAuth TokenBroker MimeText AuditLog Decimal.

(** ** State *)

Record failure := { fl_status : Z; fl_header : gmap gostring (list gostring); fl_body : gostring }.

Record Server := {
  sv_URL : gostring; sv_ClientID : gostring; sv_ClientSecret : gostring; sv_refresh : gostring; sv_rotate : bool;
  sv_lifetime : Duration; sv_failure : option failure; sv_requests : Z; sv_last : gmap gostring gostring }.

Definition TokenPath : gostring := "/token".

(** [New]; [url] is where the test server listens. *)
Definition NewServer (url clientID clientSecret : gostring) : Server := {|
  sv_URL := url; sv_ClientID := clientID; sv_ClientSecret := clientSecret; sv_refresh := []; sv_rotate := false;
  sv_lifetime := Hour; sv_failure := None; sv_requests := 0; sv_last := ∅ |}.

Definition TokenURL (s : Server) : gostring := sv_URL s ++ TokenPath.

Definition SetLifetime (d : Duration) (s : Server) : Server := {|
  sv_URL := sv_URL s; sv_ClientID := sv_ClientID s; sv_ClientSecret := sv_ClientSecret s; sv_refresh := sv_refresh s;
  sv_rotate := sv_rotate s; sv_lifetime := d; sv_failure := sv_failure s; sv_requests := sv_requests s; sv_last := sv_last s |}.
Definition SetRefreshToken (rt : gostring) (rotate : bool) (s : Server) : Server := {|
  sv_URL := sv_URL s; sv_ClientID := sv_ClientID s; sv_ClientSecret := sv_ClientSecret s; sv_refresh := rt;
  sv_rotate := rotate; sv_lifetime := sv_lifetime s; sv_failure := sv_failure s; sv_requests := sv_requests s; sv_last := sv_last s |}.
Definition set_failure (f : option failure) (s : Server) : Server := {|
  sv_URL := sv_URL s; sv_ClientID := sv_ClientID s; sv_ClientSecret := sv_ClientSecret s; sv_refresh := sv_refresh s;
  sv_rotate := sv_rotate s; sv_lifetime := sv_lifetime s; sv_failure := f; sv_requests := sv_requests s; sv_last := sv_last s |}.
Definition Fail_ (status : Z) (header : gmap gostring (list gostring)) (body : gostring) : Server → Server :=
  set_failure (Some {| fl_status := status; fl_header := header; fl_body := body |}).
Definition Recover : Server → Server := set_failure None.

(** ** Answers *)

(** A JSON object with the members in the order [encoding/json] writes a map's keys;
    values are given as JSON.  [Encode] ends with a newline. *)
Definition encodeMap (ms : list (gostring * gostring)) : gostring :=
  lit "{" ++ Join ((λ m, quoteString (fst m) ++ lit ":" ++ snd m) <$> ms) "," ++ lit "}" ++ [LF].

Definition errorBody (code : gostring) (description : option gostring) : gostring :=
  encodeMap ((lit "error", quoteString code) ::
             match description with Some d => [(lit "error_description", quoteString d)] | None => [] end).

Definition answerBody (accessToken : gostring) (expires : Z) (rotated : gostring) : gostring :=
  encodeMap ([(lit "access_token", quoteString accessToken); (lit "expires_in", Itoa expires)]
             ++ (if rotated == [] then [] else [(lit "refresh_token", quoteString rotated)])
             ++ [(lit "token_type", quoteString (lit "Bearer"))]).

(** [url.Values.Get]. *)
Definition form_Get (form : gmap gostring gostring) (k : string) : gostring := default [] (form !! lit k).

Definition refreshOK (form : gmap gostring gostring) (s : Server) : bool :=
  (form_Get form "grant_type" == lit "refresh_token") && (sv_refresh s != []) && (form_Get form "refresh_token" == sv_refresh s).

(** The locked section of [serve]: the state after the request, and the refresh token it
    was given in exchange. *)
Definition register (form : gmap gostring gostring) (s : Server) : Server * gostring :=
  let n := sv_requests s + 1 in
  let rotated := if refreshOK form s && bool_decide (sv_failure s = None) && sv_rotate s then lit "refresh-" ++ Itoa n else [] in
  ({| sv_URL := sv_URL s; sv_ClientID := sv_ClientID s; sv_ClientSecret := sv_ClientSecret s;
      sv_refresh := if rotated == [] then sv_refresh s else rotated; sv_rotate := sv_rotate s; sv_lifetime := sv_lifetime s;
      sv_failure := sv_failure s; sv_requests := n; sv_last := form |}, rotated).

(** [serve], for the path and method of a request; the form is parsed. *)
Definition serve (path method : gostring) (form : gmap gostring gostring) (s : Server) : Server * Answered :=
  if (path != TokenPath) || (method != lit "POST") then (s, Answer 404 [] (lit "404 page not found" ++ [LF]))
  else
    let grant := form_Get form "grant_type" in
    let ok := refreshOK form s in
    let '(s', rotated) := register form s in
    (s', match sv_failure s with
         | Some f => Answer (fl_status f) (default [] (fl_header f !! lit "Retry-After" ≫= head)) (fl_body f)
         | None =>
             if (grant != lit "client_credentials") && (grant != lit "refresh_token") then
               Answer 400 [] (errorBody (lit "unsupported_grant_type") None)
             else if (form_Get form "client_id" != sv_ClientID s) || (form_Get form "client_secret" != sv_ClientSecret s) then
               Answer 401 [] (errorBody (lit "invalid_client") (Some (lit "AADSTS7000215: Invalid client secret provided.")))
             else if (grant == lit "refresh_token") && negb ok then
               Answer 400 [] (errorBody (lit "invalid_grant")
                 (Some (lit "AADSTS70000: The provided grant has expired due to it being revoked.")))
             else Answer 200 [] (answerBody (lit "token-" ++ Itoa (sv_requests s')) (Z.quot (sv_lifetime s) Second) rotated)
         end).

(** A client's request to the token URL. *)
Definition doRequest (s : Server) (url : gostring) (form : gmap gostring gostring) : Answered :=
  if url == TokenURL s then snd (serve TokenPath (lit "POST") form s) else NoAnswer (lit "connection refused").
Definition after_request (s : Server) (form : gmap gostring gostring) : Server := fst (serve TokenPath (lit "POST") form s).

(** ** A provider that rotates *)

(** Reading such bodies with [encoding/json]. *)
Class AnswersRead `{TokenEndpoint} := {
  read_error : ∀ code d, all_ascii code = true → all_ascii (default [] d) = true → ErrorFields (errorBody code d) = (code, default [] d);
  read_answer : ∀ tok n rt, all_ascii tok = true → all_ascii rt = true → 0 ≤ n →
    AnswerFields (answerBody tok n rt) =
      Some {| tf_AccessToken := tok; tf_TokenType := lit "Bearer"; tf_ExpiresIn := Some (Itoa n); tf_RefreshToken := rt |} }.

(** A failure the client takes for temporary. *)
Definition passing (f : failure) : Prop := fl_status f = 429 ∨ fl_status f = 408 ∨ 500 ≤ fl_status f.

Section facts.
Context `{UnicodeTables, TokenEndpoint, !AnswersRead}.

Lemma Itoa_visible (n : Z) : 0 ≤ n → forallb (λ c, (33 <=? bz c) && (bz c <=? 126)) (Itoa n) = true.
Proof.
  intros Hn. destruct (Itoa_digits n Hn) as (_ & Hd & _). rewrite forallb_forall. intros c Hc%list_elem_of_In.
  rewrite Forall_forall in Hd. apply Hd in Hc. revert Hc. unfold is_digit, in_range.
  destruct c as [[] [] [] [] [] [] [] []]; vm_compute; congruence.
Qed.

Lemma digits_b64 (n : Z) : 0 ≤ n → forallb b64tokenByte (Itoa n) = true.
Proof.
  intros Hn. destruct (Itoa_digits n Hn) as (_ & Hd & _). rewrite forallb_forall. intros c Hc%list_elem_of_In.
  rewrite Forall_forall in Hd. unfold b64tokenByte. by rewrite (Hd c Hc), !orb_true_r.
Qed.

Lemma Itoa_ascii (n : Z) : 0 ≤ n → all_ascii (Itoa n) = true.
Proof.
  intros Hn. destruct (Itoa_digits n Hn) as (_ & Hd & _). unfold all_ascii. rewrite forallb_forall. intros c Hc%list_elem_of_In.
  rewrite Forall_forall in Hd. apply Hd in Hc. revert Hc. destruct c as [[] [] [] [] [] [] [] []]; vm_compute; congruence.
Qed.

Lemma issued_ok (n : Z) : 0 ≤ n → isB64Token (lit "token-" ++ Itoa n) = true.
Proof.
  intros Hn. unfold isB64Token.
  assert (TrimRight (lit "token-" ++ Itoa n) "=" = lit "token-" ++ Itoa n) as ->.
  { rewrite <-(app_nil_r (lit "token-" ++ Itoa n)) at 1. apply (TrimRight_padding _ "="%char 0).
    apply not_elem_of_app. split; [by apply notin_text|by apply Itoa_only]. }
  rewrite bool_decide_eq_false_2 by done. rewrite forallb_app. by rewrite digits_b64 by done.
Qed.

Lemma expires_read (n : Z) : 0 ≤ n < 2 ^ 63 → expiresIn (Itoa n) = Some n.
Proof.
  intros Hn. unfold expiresIn, TrimQuotes. rewrite drop_byte_none by (apply Itoa_only; [lia|done]).
  rewrite <-(app_nil_r (Itoa n)), (TrimRight_padding _ _ 0) by (apply Itoa_only; [lia|done]).
  destruct (Itoa_digits n ltac:(lia)) as (Hne & Hd & _). rewrite !bool_decide_eq_false_2; [by apply ParseInt64_Itoa|done|].
  intros E. rewrite E in Hd. by inversion Hd.
Qed.

Lemma quote_length (s : gostring) : all_ascii s = true → (length (quoteString s) ≤ 6 * length s + 2)%nat.
Proof.
  intros Ha. unfold quoteString. rewrite !length_app. cbn [length].
  assert (length (pieces s ≫= escapePiece) ≤ 6 * length s)%nat; [|lia].
  unfold pieces. generalize (length s) at 1. intros n. revert s Ha.
  induction n as [|n IH]; intros [|a s] Ha; [done|cbn; lia|cbn; lia|].
  cbn [all_ascii forallb] in Ha. apply andb_true_iff in Ha as [Ha Hs]. cbn [pieces_fuel]. rewrite DecodeRune_ascii by done.
  rewrite bind_cons, length_app. cbn [take drop]. unfold escapePiece at 1. rewrite Ha.
  assert (length (escapeByte a) ≤ 6)%nat as Hb by (clear; destruct a as [[] [] [] [] [] [] [] []]; vm_compute; lia).
  specialize (IH s Hs). rewrite take_0, drop_0. cbn [length]. lia.
Qed.

Lemma Join_length (l : list gostring) (sep : gostring) (k : nat) :
  Forall (λ x, (length x ≤ k)%nat) l → (length (Join l sep) ≤ length l * (k + length sep))%nat.
Proof.
  destruct l as [|x l]; [done|]. intros [Hx Hl]%Forall_cons. unfold Join. rewrite length_app.
  assert (length (foldr (λ y acc, sep ++ y ++ acc) [] l) ≤ length l * (k + length sep))%nat; [|cbn [length]; lia].
  clear x Hx. induction Hl as [|x l Hx _ IH]; [done|]. cbn [foldr length]. rewrite !length_app. lia.
Qed.

(** An answer is far below the client's limit. *)
Lemma answer_short (tok rt : gostring) (n : Z) : all_ascii tok = true → all_ascii rt = true → 0 ≤ n < 2 ^ 63 →
  (length tok ≤ 100)%nat → (length rt ≤ 100)%nat → Z.of_nat (length (answerBody tok n rt)) ≤ maxResponseBytes.
Proof.
  intros Ht Hr Hn Hlt Hlr. unfold answerBody, encodeMap. rewrite !length_app. cbn [length].
  assert (∀ l : list (gostring * gostring), (length l ≤ 4)%nat →
    Forall (λ m, (length (quoteString (fst m) ++ lit ":" ++ snd m) ≤ 700)%nat) l →
    (length (Join ((λ m, quoteString (fst m) ++ lit ":" ++ snd m) <$> l) ",") ≤ 4 * 701)%nat) as HJ.
  { intros l Hl4 Hl. etrans; [apply (Join_length _ _ 700)|]; [by apply Forall_fmap|]. rewrite length_fmap. change (length (lit ",")) with 1%nat. exact (Nat.mul_le_mono_r _ _ 701 Hl4). }
  pose proof (quote_length tok Ht). pose proof (quote_length rt Hr).
  assert (length (Itoa n) ≤ 19)%nat by (apply Itoa_short; lia).
  assert (∀ k v, (length (quoteString (lit k)) ≤ 20)%nat → (length v ≤ 602)%nat →
    (length (quoteString (fst (lit k, v)) ++ lit ":" ++ snd (lit k, v)) ≤ 700)%nat) as Hm.
  { intros k v Hk Hv. rewrite !length_app. cbn [fst snd]. change (length (lit ":")) with 1%nat. lia. }
  set (l := _ ++ _ ++ _). assert (length l ≤ 4 ∧ Forall (λ m, (length (quoteString (fst m) ++ lit ":" ++ snd m) ≤ 700)%nat) l)%nat as [Hl1 Hl2];
    [|etrans; [apply Nat2Z.inj_le, Nat.add_le_mono_l, Nat.add_le_mono_r, (HJ l Hl1 Hl2)|vm_compute; discriminate]].
  subst l. split.
  - rewrite !length_app. destruct (rt == []); cbn; lia.
  - rewrite !Forall_app, !Forall_cons. split_and!; try apply Forall_nil_2; try (apply Hm; [by vm_compute; lia|lia]).
    + destruct (rt == []); [apply Forall_nil_2|]. apply Forall_cons_2; [apply Hm; [vm_compute; lia|lia]|apply Forall_nil_2].
    + apply Hm; vm_compute; lia.
Qed.

(** The form a refresh sends. *)
Definition refreshForm (c : ClientCredentials) (rt : gostring) : gmap gostring gostring :=
  let form := <[lit "grant_type" := lit "refresh_token"]> (<[lit "refresh_token" := rt]> {[lit "client_id" := cc_ClientID c]}) in
  withScope (cc_Scopes c) (if cc_ClientSecret c != [] then <[lit "client_secret" := cc_ClientSecret c]> form else form).

Lemma Get_scope (l : list gostring) (form : gmap gostring gostring) (k : string) : lit k ≠ lit "scope" →
  form_Get (withScope l form) k = form_Get form k.
Proof.
  intros Hk. unfold withScope, form_Get. destruct (0 <? length l)%nat; [|done].
  by rewrite (lookup_insert_ne (M:=gmap gostring)) by congruence.
Qed.

Lemma refreshForm_members (c : ClientCredentials) (rt : gostring) :
  form_Get (refreshForm c rt) "grant_type" = lit "refresh_token" ∧ form_Get (refreshForm c rt) "refresh_token" = rt ∧
  form_Get (refreshForm c rt) "client_id" = cc_ClientID c ∧ form_Get (refreshForm c rt) "client_secret" = cc_ClientSecret c.
Proof.
  unfold refreshForm. rewrite !Get_scope by done. unfold form_Get.
  destruct (bool_decide_reflect (cc_ClientSecret c = [])) as [E|E]; cbn [negb].
  - rewrite E. split_and!; by vm_compute.
  - split_and!; by vm_compute.
Qed.

(** The answers, as the client reads them. *)
Lemma parse_refused (status : Z) (retryAfter body : gostring) (now : Time) : status ≠ StatusOK →
  status = 429 ∨ status = 408 ∨ 500 ≤ status →
  ∃ e, parseResponse status retryAfter body now = Err e ∧ oe_Permanent e = false.
Proof.
  intros Hs Hp. unfold parseResponse. destruct (_ <? _); [by eexists|]. rewrite (proj2 (Z.eqb_neq _ _)) by done. cbn [negb].
  eexists. split; [done|]. unfold refusedAnswer. destruct (ErrorFields body) as [code d]. cbn [oe_Permanent].
  unfold StatusTooManyRequests, StatusRequestTimeout.
  destruct Hp as [->|[->|Hp]]; [done|done|]. rewrite (proj2 (Z.leb_le _ _)) by done. by rewrite !orb_true_r.
Qed.

Lemma parse_issued (tok rt : gostring) (n : Z) (now : Time) : all_ascii tok = true → isB64Token tok = true →
  all_ascii rt = true → isVisibleASCII rt maxRefreshTokenBytes = true → 0 ≤ n < 2 ^ 63 → (length tok ≤ 100)%nat → (length rt ≤ 100)%nat →
  ∃ t, parseResponse 200 [] (take (Z.to_nat (maxResponseBytes + 1)) (answerBody tok n rt)) now = Ok (t, rt).
Proof.
  intros Ht Hb Hr Hv Hn Hl1 Hl2. pose proof (answer_short tok rt n Ht Hr Hn Hl1 Hl2) as Hs.
  rewrite take_ge by lia. unfold parseResponse. rewrite (proj2 (Z.ltb_ge _ _)) by done. cbn [negb].
  rewrite read_answer by (done || lia). cbn [tf_ExpiresIn tf_TokenType tf_AccessToken tf_RefreshToken].
  change (negb (200 =? StatusOK)) with false. cbn iota. rewrite expires_read by done.
  rewrite (proj2 (EqualFold_ascii (lit "Bearer") (lit "bearer") eq_refl eq_refl)) by done. cbn [negb]. rewrite Hb, Hv.
  cbn [negb]. rewrite andb_false_r. by eexists.
Qed.

(** *** What the server does with a refresh *)

(** The client's own refresh: what is answered, and the newest token after it. *)
Definition redeem (c : ClientCredentials) (s : Server) (rt : gostring) (now : Time) : res FetchError (Token * gostring) * gostring :=
  (match Refresh c rt (doRequest s) now with Ok x => Ok x | Err e => Err (TokenError e) end,
   sv_refresh (after_request s (refreshForm c rt))).

Lemma after_refresh (c : ClientCredentials) (s : Server) (rt : gostring) :
  sv_refresh s ≠ [] → sv_rotate s = true →
  sv_refresh (after_request s (refreshForm c rt)) =
    if (rt == sv_refresh s) && bool_decide (sv_failure s = None) then lit "refresh-" ++ Itoa (sv_requests s + 1) else sv_refresh s.
Proof.
  intros Hr Hrot. destruct (refreshForm_members c rt) as (Hg & Ht & _).
  unfold after_request, serve, register, refreshOK.
  rewrite (bool_decide_eq_true_2 (TokenPath = TokenPath)), (bool_decide_eq_true_2 (lit "POST" = lit "POST")) by done.
  cbn [negb orb fst sv_refresh].
  rewrite Hg, Ht, Hrot, (bool_decide_eq_true_2 (lit "refresh_token" = _)), (bool_decide_eq_false_2 (sv_refresh s = [])) by done. cbn [negb andb].
  rewrite andb_true_r. by destruct (bool_decide (rt = sv_refresh s)), (bool_decide (sv_failure s = None)).
Qed.

(** The answer to a client that is known. *)
Lemma doRequest_known (c : ClientCredentials) (s : Server) (rt : gostring) :
  cc_TokenURL c = TokenURL s → cc_ClientID c = sv_ClientID s → cc_ClientSecret c = sv_ClientSecret s → sv_refresh s ≠ [] →
  sv_rotate s = true → sv_failure s = None →
  doRequest s (cc_TokenURL c) (refreshForm c rt) =
    if rt == sv_refresh s
    then Answer 200 [] (answerBody (lit "token-" ++ Itoa (sv_requests s + 1)) (Z.quot (sv_lifetime s) Second)
                          (lit "refresh-" ++ Itoa (sv_requests s + 1)))
    else Answer 400 [] (errorBody (lit "invalid_grant")
                          (Some (lit "AADSTS70000: The provided grant has expired due to it being revoked."))).
Proof.
  intros Hu Hid Hsec Hr Hrot Hf. destruct (refreshForm_members c rt) as (Hg & Ht & Hi & Hs).
  unfold doRequest. rewrite bool_decide_eq_true_2 by done. unfold serve, register, refreshOK.
  rewrite Hg, Ht, Hi, Hs, Hf, Hrot, Hid, Hsec. cbn [snd sv_requests].
  rewrite (bool_decide_eq_true_2 (TokenPath = TokenPath)), (bool_decide_eq_true_2 (lit "POST" = lit "POST")),
    (bool_decide_eq_true_2 (lit "refresh_token" = lit "refresh_token")), (bool_decide_eq_true_2 (sv_ClientID s = _)),
    (bool_decide_eq_true_2 (sv_ClientSecret s = _)), (bool_decide_eq_true_2 (None = None)),
    (bool_decide_eq_false_2 (sv_refresh s = [])) by done.
  rewrite (bool_decide_eq_false_2 (lit "refresh_token" = lit "client_credentials")) by done. cbn [negb orb andb snd].
  by destruct (rt == sv_refresh s).
Qed.

Lemma lifetime_range (d : Duration) : 0 ≤ d < 2 ^ 63 → 0 ≤ Z.quot d Second < 2 ^ 63.
Proof. intros Hd. unfold Second. rewrite Z.quot_div_nonneg by lia. pose proof (Z.div_le_upper_bound d 1000000000 d). pose proof (Z.div_pos d 1000000000). lia. Qed.

Lemma redeem_granted (c : ClientCredentials) (s : Server) (now : Time) :
  cc_TokenURL c = TokenURL s → httpsURL (TokenURL s) = true → cc_ClientID c = sv_ClientID s →
  cc_ClientSecret c = sv_ClientSecret s → sv_refresh s ≠ [] → sv_rotate s = true → sv_failure s = None →
  0 ≤ sv_lifetime s < 2 ^ 63 → 0 ≤ sv_requests s < 10 ^ 18 →
  ∃ t, Refresh c (sv_refresh s) (doRequest s) now = Ok (t, lit "refresh-" ++ Itoa (sv_requests s + 1)).
Proof.
  intros Hu Hh Hid Hsec Hr Hrot Hf Hlt Hn. unfold Refresh, post. rewrite Hu, Hh. cbn [negb].
  pose proof (doRequest_known c s (sv_refresh s) Hu Hid Hsec Hr Hrot Hf) as Hd. rewrite Hu in Hd. unfold refreshForm in Hd.
  rewrite Hd, bool_decide_eq_true_2 by done. set (n := sv_requests s + 1).
  assert (length (Itoa n) ≤ 19)%nat as Hl by (apply Itoa_short; [subst n|]; lia).
  destruct (parse_issued (lit "token-" ++ Itoa n) (lit "refresh-" ++ Itoa n) (Z.quot (sv_lifetime s) Second) now) as [t Ht].
  - unfold all_ascii. rewrite forallb_app. by apply (Itoa_ascii n); lia.
  - apply issued_ok. lia.
  - unfold all_ascii. rewrite forallb_app. by apply (Itoa_ascii n); lia.
  - unfold isVisibleASCII. rewrite bool_decide_eq_false_2 by done. rewrite (proj2 (Z.ltb_ge _ _)).
    + cbn [orb]. rewrite forallb_app. by rewrite Itoa_visible by lia.
    + rewrite length_app. unfold maxRefreshTokenBytes. change (length (lit "refresh-")) with 8%nat. lia.
  - by apply lifetime_range.
  - rewrite length_app. change (length (lit "token-")) with 6%nat. lia.
  - rewrite length_app. change (length (lit "refresh-")) with 8%nat. lia.
  - rewrite Ht. cbn [res_bind mbind fst snd]. exists t. by rewrite bool_decide_eq_false_2.
Qed.

Lemma redeem_refused (c : ClientCredentials) (s : Server) (rt : gostring) (now : Time) :
  cc_TokenURL c = TokenURL s → httpsURL (TokenURL s) = true → cc_ClientID c = sv_ClientID s →
  cc_ClientSecret c = sv_ClientSecret s → sv_refresh s ≠ [] → sv_rotate s = true → sv_failure s = None → rt ≠ sv_refresh s →
  ∃ e, Refresh c rt (doRequest s) now = Err e ∧ oe_Permanent e = true ∧ oe_Code e = lit "invalid_grant".
Proof.
  intros Hu Hh Hid Hsec Hr Hrot Hf Hne. unfold Refresh, post. rewrite Hu, Hh. cbn [negb].
  pose proof (doRequest_known c s rt Hu Hid Hsec Hr Hrot Hf) as Hd. rewrite Hu in Hd. unfold refreshForm in Hd.
  rewrite Hd, bool_decide_eq_false_2 by done. clear Hd.
  assert (length (errorBody (lit "invalid_grant") (Some (lit "AADSTS70000: The provided grant has expired due to it being revoked."))) ≤ 200)%nat as Hl
    by (vm_compute; lia).
  rewrite take_ge by (unfold maxResponseBytes; lia). unfold parseResponse.
  rewrite (proj2 (Z.ltb_ge _ _)) by (unfold maxResponseBytes; lia). unfold refusedAnswer. rewrite read_error by done.
  eexists. split; [done|]. split; by vm_compute.
Qed.

(** The test server, asked by the OAuth client, answers as a provider that rotates its
    refresh tokens does: only the newest one is redeemed, and replaced; a failure that is
    switched on leaves it in place, and an old one is rejected for good.  So what is proved
    of the broker and such a provider holds with this server. *)
Theorem test_server_rotates (c : ClientCredentials) (s : Server) (rt : gostring) (now : Time) :
  cc_TokenURL c = TokenURL s → httpsURL (TokenURL s) = true → cc_ClientID c = sv_ClientID s →
  cc_ClientSecret c = sv_ClientSecret s → sv_refresh s ≠ [] → sv_rotate s = true →
  (∀ f, sv_failure s = Some f → passing f) → 0 ≤ sv_lifetime s < 2 ^ 63 → 0 ≤ sv_requests s < 10 ^ 18 →
  provider (sv_refresh s) rt (fst (redeem c s rt now)) (snd (redeem c s rt now)).
Proof.
  intros Hu Hh Hid Hsec Hr Hrot Hpass Hlt Hn. unfold redeem. cbn [fst snd]. rewrite after_refresh by done.
  destruct (sv_failure s) as [f|] eqn:Hf.
  - rewrite andb_false_r. assert (∃ e, Refresh c rt (doRequest s) now = Err e ∧ oe_Permanent e = false) as (e & -> & He);
      [|by apply unavailable].
    unfold Refresh, post. rewrite Hu, Hh. cbn [negb]. unfold doRequest. rewrite bool_decide_eq_true_2 by done.
    unfold serve. rewrite (bool_decide_eq_true_2 (TokenPath = TokenPath)), (bool_decide_eq_true_2 (lit "POST" = lit "POST")) by done.
    rewrite Hf. cbn [negb orb]. destruct (register _ _) as [s' rotated]. cbn [snd].
    edestruct (parse_refused (fl_status f)) as (e & He & Hp); [|by apply Hpass|rewrite He; by eexists].
    unfold StatusOK. specialize (Hpass f eq_refl). unfold passing in Hpass. lia.
  - rewrite andb_true_r. destruct (bool_decide_reflect (rt = sv_refresh s)) as [->|Hne].
    + destruct (redeem_granted c s now) as [t ->]; try done. by apply grants.
    + destruct (redeem_refused c s rt now) as (e & -> & He & _); try done. by apply rejects.
Qed.
End facts.

(** ** What a failed request says *)

(** [Error()] of an [*Error]; its text ends up in conditions and logs. *)
Definition errorText (e : OAuthError) : gostring :=
  lit "oauth token request failed" ++ (if oe_Status e =? 0 then [] else lit " (HTTP " ++ Itoa (oe_Status e) ++ lit ")") ++
  ([oe_Code e; oe_Description e] ≫= λ s, if s == [] then [] else lit ": " ++ s) ++
  match oe_Err e with Some err => lit ": " ++ err | None => [] end.

Lemma printable_safe (s : gostring) (n : Z) : 0 ≤ n →
  Forall (λ c, 32 ≤ bz c < 127) (printable s n) ∧ Z.of_nat (length (printable s n)) ≤ n + 3.
Proof. intros Hn. apply printable_loop_safe; [done|constructor|cbn; lia]. Qed.

Lemma text_printable (k : gostring) : forallb (λ c, (32 <=? bz c) && (bz c <? 127)) k = true → Forall (λ c, 32 ≤ bz c < 127) k.
Proof. intros Hk. apply Forall_forall. intros c Hc. rewrite forallb_forall in Hk. specialize (Hk c). rewrite <-list_elem_of_In in Hk. specialize (Hk Hc). apply andb_true_iff in Hk as [H1 H2]. lia. Qed.

(** Printable ASCII of at most [n] bytes. *)
Definition fits (n : Z) (s : gostring) : Prop := Forall (λ c, 32 ≤ bz c < 127) s ∧ Z.of_nat (length s) ≤ n.

Lemma text_fits_app (m n : Z) (s t : gostring) : fits m s → fits n t → fits (m + n) (s ++ t).
Proof. intros [Hs Hm] [Ht Hn]. split; [by apply Forall_app_2|]. rewrite length_app. lia. Qed.

Lemma fits_text (k : gostring) (n : Z) : forallb (λ c, (32 <=? bz c) && (bz c <? 127)) k = true → Z.of_nat (length k) ≤ n → fits n k.
Proof. intros Hk Hn. split; [by apply text_printable|done]. Qed.

Lemma text_fits_nil (n : Z) : 0 ≤ n → fits n [].
Proof. by split. Qed.

(** What comes from an answer in an error. *)
Definition answer_error (status : Z) (e : OAuthError) : Prop :=
  oe_Err e = None ∧ oe_Status e = status ∧ fits 67 (oe_Code e) ∧ fits 303 (oe_Description e).

Lemma plain_answer_error (status : Z) (d : gostring) : fits 303 d → answer_error status (plainError status d).
Proof. intros Hd. repeat split; try done; constructor || apply Hd. Qed.

Lemma plain_text_error (status : Z) (k : gostring) : forallb (λ c, (32 <=? bz c) && (bz c <? 127)) k = true →
  Z.of_nat (length k) ≤ 303 → answer_error status (plainError status k).
Proof. intros. by apply plain_answer_error, fits_text. Qed.

Lemma parse_answer_error `{UnicodeTables, TokenEndpoint} (status : Z) (retryAfter body : gostring) (now : Time) (e : OAuthError) :
  parseResponse status retryAfter body now = Err e → answer_error status e.
Proof.
  unfold parseResponse. destruct (_ <? _); [intros [= <-]; by apply plain_text_error|].
  destruct (negb _).
  { intros [= <-]. unfold refusedAnswer. destruct (ErrorFields body) as [code d].
    split_and!; [done|done|by apply printable_safe|by apply printable_safe]. }
  destruct (AnswerFields body) as [r|]; [|intros [= <-]; by apply plain_text_error].
  destruct (match tf_ExpiresIn r with None => _ | Some b => _ end); [|intros [= <-]; by apply plain_text_error].
  destruct (negb _).
  { intros [= <-]. apply plain_answer_error.
    apply (text_fits_app 20 283 (lit "token_type ")); [by apply fits_text|]. apply (text_fits_app 67 216); [by apply printable_safe|by apply fits_text]. }
  destruct (negb _); [intros [= <-]; by apply plain_text_error|].
  destruct (_ && _); [intros [= <-]; by apply plain_text_error|done].
Qed.

Lemma Itoa_fits (n : Z) : 0 ≤ n < 1000 → fits 3 (Itoa n).
Proof.
  intros Hn. split.
  - apply Forall_forall. intros c Hin. pose proof (Itoa_visible n ltac:(lia)) as Hv. rewrite forallb_forall in Hv.
    specialize (Hv c). rewrite <-list_elem_of_In in Hv. specialize (Hv Hin). apply andb_true_iff in Hv as [H1 H2]. lia.
  - pose proof (Itoa_short n 3 ltac:(lia) ltac:(lia)). lia.
Qed.

(** Whatever a token endpoint answers, the text of the error is printable ASCII and at
    most 500 bytes long: an answer cannot write lines or control characters into a
    condition or a log. *)
Theorem answer_error_text `{UnicodeTables, TokenEndpoint} (status : Z) (retryAfter body : gostring) (now : Time) (e : OAuthError) :
  0 ≤ status < 1000 → parseResponse status retryAfter body now = Err e → fits 500 (errorText e).
Proof.
  intros Hst (Herr & Hs & Hc & Hd)%parse_answer_error. unfold errorText. rewrite Herr, Hs.
  apply (text_fits_app 50 450); [by apply fits_text|]. apply (text_fits_app 20 430).
  { destruct (_ =? _); [by apply text_fits_nil|]. apply (text_fits_app 8 12); [by apply fits_text|].
    apply (text_fits_app 3 9); [by apply Itoa_fits|by apply fits_text]. }
  apply (text_fits_app 430 0); [|by apply text_fits_nil]. cbn [mbind list_bind].
  apply (text_fits_app 69 361); [|apply (text_fits_app 305 56); [|by apply text_fits_nil]].
  - case_bool_decide; [by apply text_fits_nil|]. by apply (text_fits_app 2 67); [apply fits_text|].
  - case_bool_decide; [by apply text_fits_nil|]. by apply (text_fits_app 2 303); [apply fits_text|].
Qed.

(** ** The broker's hypothesis, discharged *)

Module OAuthTestExample.

(** Reads the bodies above. *)
Fixpoint span_digits (s : gostring) : gostring * gostring :=
  match s with
  | c :: t => if is_digit c then let '(d, r) := span_digits t in (c :: d, r) else ([], s)
  | [] => ([], [])
  end.
Definition after_key (k : string) (s : gostring) : gostring := drop (length (lit "," ++ quoteString (lit k) ++ lit ":")) s.
Definition has_key (k : string) (s : gostring) : bool := HasPrefix s (lit "," ++ quoteString (lit k) ++ lit ":").

Definition optional (k : string) (s : gostring) : gostring :=
  if has_key k s then match readQuoted (after_key k s) with Some (v, _) => v | None => [] end else [].

#[local] Instance reading : TokenEndpoint := {|
  ParseHTTPTime := λ _, None; httpsURL := λ u, HasPrefix u (lit "https://");
  ErrorFields := λ b, match readQuoted (after_key "error" b) with Some (c, r) => (c, optional "error_description" r) | None => ([], []) end;
  AnswerFields := λ b,
    match readQuoted (after_key "access_token" b) with
    | None => None
    | Some (tok, r) =>
        let '(n, r) := span_digits (after_key "expires_in" r) in
        Some {| tf_AccessToken := tok; tf_TokenType := lit "Bearer"; tf_ExpiresIn := Some n; tf_RefreshToken := optional "refresh_token" r |}
    end |}.

Lemma span_digits_app (d : gostring) (c : ascii) (t : gostring) :
  Forall (λ c, is_digit c = true) d → is_digit c = false → span_digits (d ++ c :: t) = (d, c :: t).
Proof. intros Hd Hc. induction Hd as [|x d Hx _ IH]; cbn; [by rewrite Hc|]. by rewrite Hx, IH. Qed.

Lemma after_key_app (k : string) (c : ascii) (t : gostring) : after_key k (c :: quoteString (lit k) ++ ":"%char :: t) = t.
Proof.
  unfold after_key. change (c :: quoteString (lit k) ++ ":"%char :: t) with ([c] ++ quoteString (lit k) ++ lit ":" ++ t).
  rewrite !app_assoc. rewrite drop_app_length'; [done|]. by rewrite !length_app.
Qed.

Lemma optional_app (k : string) (v t : gostring) : all_ascii v = true →
  optional k (","%char :: quoteString (lit k) ++ ":"%char :: quoteString v ++ t) = v.
Proof.
  intros Hv. unfold optional. rewrite after_key_app, readQuoted_quote, toValid_ascii by done.
  assert (has_key k (","%char :: quoteString (lit k) ++ ":"%char :: quoteString v ++ t) = true) as ->; [|done].
  apply HasPrefix_spec. exists (quoteString v ++ t). unfold lit. cbn. by rewrite <-!app_assoc.
Qed.

(** A body member by member. *)
Definition rest_of (ms : list (gostring * gostring)) : gostring :=
  foldr (λ m acc, ","%char :: quoteString (fst m) ++ ":"%char :: snd m ++ acc) (lit "}" ++ [LF]) ms.

Lemma encodeMap_cons (k v : gostring) (ms : list (gostring * gostring)) :
  encodeMap ((k, v) :: ms) = "{"%char :: quoteString k ++ ":"%char :: v ++ rest_of ms.
Proof.
  unfold encodeMap, Join. rewrite fmap_cons. cbn [fst snd app lit list_ascii_of_string].
  assert (∀ ms, foldr (λ y acc, lit "," ++ y ++ acc) [] ((λ m, quoteString (fst m) ++ lit ":" ++ snd m) <$> ms) ++ lit "}" ++ [LF] = rest_of ms) as Hr.
  { clear. induction ms as [|[k v] ms IH]; [done|]. rewrite fmap_cons. cbn [foldr fst snd].
    change (rest_of ((k, v) :: ms)) with (","%char :: quoteString k ++ ":"%char :: v ++ rest_of ms). rewrite <-IH. unfold lit. cbn [app list_ascii_of_string]. by rewrite <-!app_assoc. }
  rewrite <-(Hr ms). unfold lit. cbn [app list_ascii_of_string]. by rewrite <-!app_assoc.
Qed.

#[local] Instance reading_laws : AnswersRead.
Proof.
  split.
  - intros code d Hc Hd. cbn [ErrorFields reading]. unfold errorBody. rewrite encodeMap_cons, after_key_app, readQuoted_quote, toValid_ascii by done.
    destruct d as [d|]; [|by vm_compute]. cbn [rest_of foldr fst snd]. by rewrite optional_app.
  - intros tok n rt Ht Hr Hn. cbn [AnswerFields reading]. unfold answerBody. cbn [app].
    rewrite encodeMap_cons, after_key_app, readQuoted_quote, toValid_ascii by done. cbn [rest_of foldr fst snd].
    rewrite after_key_app. destruct (bool_decide_reflect (rt = [])) as [->|Hne]; cbn [app foldr fst snd].
    + rewrite span_digits_app by (done || by apply Itoa_digits). by vm_compute (optional _ _).
    + rewrite span_digits_app by (done || by apply Itoa_digits). by rewrite optional_app.
Qed.

#[local] Existing Instance ascii_tables.

(** A public client, as Microsoft's device sign-in makes. *)
Definition server : Server := SetRefreshToken (lit "r0") true (NewServer (lit "https://127.0.0.1") (lit "app") []).
Definition client : ClientCredentials :=
  {| cc_TokenURL := TokenURL server; cc_ClientID := lit "app"; cc_ClientSecret := []; cc_Scopes := [lit "mail"] |}.

(** The first token is redeemed and replaced; while the server fails the new one stays,
    and the first one is rejected afterwards. *)
Lemma test_server_rotates_witness :
  provider (lit "r0") (lit "r0") (fst (redeem client server (lit "r0") 0)) (lit "refresh-1") ∧
  (let s1 := Fail_ 503 ∅ (lit "down") (after_request server (refreshForm client (lit "r0"))) in
   provider (lit "refresh-1") (lit "refresh-1") (fst (redeem client s1 (lit "refresh-1") 0)) (lit "refresh-1") ∧
   let s2 := Recover (after_request s1 (refreshForm client (lit "refresh-1"))) in
   provider (lit "refresh-1") (lit "r0") (fst (redeem client s2 (lit "r0") 0)) (lit "refresh-1")).
Proof.
  split; [|cbv zeta; split].
  - apply (test_server_rotates client server (lit "r0") 0); vm_compute; done.
  - apply (test_server_rotates client (Fail_ 503 ∅ (lit "down") (after_request server (refreshForm client (lit "r0")))) (lit "refresh-1") 0);
      try (vm_compute; done). intros f [= <-]. right. right. by vm_compute.
  - apply (test_server_rotates client (Recover (after_request (Fail_ 503 ∅ (lit "down") (after_request server (refreshForm client (lit "r0"))))
      (refreshForm client (lit "refresh-1")))) (lit "r0") 0); vm_compute; done.
Defined.
End OAuthTestExample.
