(* ===== verification/Serving.v ===== *)
(** * Start-up and shutdown ([internal/smtpproxy/run.go], [internal/apiserver/server.go],
      [internal/controller/controller.go], [internal/audit], [cmd/sigillum])

    How the command line becomes the components the other files model, and what happens
    between a termination signal and the end of the process.  Flags are given parsed, as
    package [flag] leaves them; what the cluster, the file system and the network answer
    while a process starts is an argument ([Answers]). *)

From S2P Require Import Prelude GoStrings Types RateLimit Credential RedisLimit Verifier Driver Webhook Resolver Gateway Slots LoginThrottle Session CredController TokenReview HttpRequest HttpApi BodyBudget Guard StartUp AuditLog.

(** ** Options of the SMTP front end *)

Definition ModeOAuthBearer : gostring := "oauthbearer".
Definition ModeCredential : gostring := "credential".
Definition ModePodIP : gostring := "podip".

Record ProxyOptions := {
  po_Listen : gostring; po_MetricsListen : gostring; po_Domain : gostring; po_AuthModes : list gostring;
  po_AllowInsecureAuth : bool; po_AllowInsecureCredentialAuth : bool; po_AuthFailureWindow : Duration;
  po_AuthFailuresPerUserIP : Z; po_MaxMessageBytes : Z; po_MaxRecipients : Z; po_MaxLineLength : Z;
  po_ReadTimeout : Duration; po_DataTimeout : Duration; po_WriteTimeout : Duration; po_AuthTimeout : Duration;
  po_SendTimeout : Duration; po_MaxConcurrent : Z; po_MaxConcurrentPerTenant : Z; po_ShutdownTimeout : Duration;
  po_ShutdownDelay : Duration; po_TokenAudience : gostring; po_TokenCacheSize : Z; po_TokenCacheTTL : Duration;
  po_AuditLog : gostring; po_ClusterName : gostring; po_SecretNamespaces : gostring; po_SkipCRDCheck : bool;
  po_RateLimit : LimiterConfig }.

Definition minLineLength : Z := 1000.
Definition maxLineLength : Z := 2 ^ 20.
(** Bytes per second. *)
Definition minDataRate : Z := 100 * 2 ^ 10.

(** In 64 bits. *)
Definition dataTimeout (o : ProxyOptions) : Duration :=
  if 0 <? po_DataTimeout o then po_DataTimeout o
  else wrap 64 (wrap 64 (po_MaxMessageBytes o * Second) `quot` minDataRate + po_ReadTimeout o).

(** What the flag package starts from; the rate limit's flags are in RedisLimit.v. *)
Definition defaultOptions (rl : LimiterConfig) : ProxyOptions := {|
  po_Listen := ":2587"; po_MetricsListen := ":9090"; po_Domain := "sigillum"; po_AuthModes := []; po_AllowInsecureAuth := true;
  po_AllowInsecureCredentialAuth := false; po_AuthFailureWindow := 5 * Minute; po_AuthFailuresPerUserIP := 10;
  po_MaxMessageBytes := 32 * 1024 * 1024; po_MaxRecipients := 100; po_MaxLineLength := 2000; po_ReadTimeout := 60 * Second;
  po_DataTimeout := 0; po_WriteTimeout := 60 * Second; po_AuthTimeout := 10 * Second; po_SendTimeout := 60 * Second;
  po_MaxConcurrent := 4; po_MaxConcurrentPerTenant := 0; po_ShutdownTimeout := 25 * Second; po_ShutdownDelay := 5 * Second;
  po_TokenAudience := "sigillum"; po_TokenCacheSize := 4096; po_TokenCacheTTL := 5 * Minute; po_AuditLog := "stdout";
  po_ClusterName := []; po_SecretNamespaces := []; po_SkipCRDCheck := false; po_RateLimit := rl |}.
Definition defaultModes : gostring := ModeOAuthBearer.

Definition set_AuthModes (ms : list gostring) (o : ProxyOptions) : ProxyOptions := {|
  po_Listen := po_Listen o; po_MetricsListen := po_MetricsListen o; po_Domain := po_Domain o; po_AuthModes := ms;
  po_AllowInsecureAuth := po_AllowInsecureAuth o; po_AllowInsecureCredentialAuth := po_AllowInsecureCredentialAuth o;
  po_AuthFailureWindow := po_AuthFailureWindow o; po_AuthFailuresPerUserIP := po_AuthFailuresPerUserIP o;
  po_MaxMessageBytes := po_MaxMessageBytes o; po_MaxRecipients := po_MaxRecipients o; po_MaxLineLength := po_MaxLineLength o;
  po_ReadTimeout := po_ReadTimeout o; po_DataTimeout := po_DataTimeout o; po_WriteTimeout := po_WriteTimeout o;
  po_AuthTimeout := po_AuthTimeout o; po_SendTimeout := po_SendTimeout o; po_MaxConcurrent := po_MaxConcurrent o;
  po_MaxConcurrentPerTenant := po_MaxConcurrentPerTenant o; po_ShutdownTimeout := po_ShutdownTimeout o;
  po_ShutdownDelay := po_ShutdownDelay o; po_TokenAudience := po_TokenAudience o; po_TokenCacheSize := po_TokenCacheSize o;
  po_TokenCacheTTL := po_TokenCacheTTL o; po_AuditLog := po_AuditLog o; po_ClusterName := po_ClusterName o;
  po_SecretNamespaces := po_SecretNamespaces o; po_SkipCRDCheck := po_SkipCRDCheck o; po_RateLimit := po_RateLimit o |}.

Inductive FlagError :=
| BadFlag (msg : gostring) | UnknownAuthMode (m : gostring) | NoAuthMode | LineLengthOutOfRange.

Section proxy.
Context `{UnicodeTables}.

(** The loop over the listed modes. *)
Fixpoint parseModes (ms : list gostring) : res FlagError (list gostring) :=
  match ms with
  | [] => Ok []
  | m :: ms =>
      let m := TrimSpace (ToLower m) in
      if m == [] then parseModes ms
      else if (m == ModeOAuthBearer) || (m == ModeCredential) || (m == ModePodIP) then
        let! rest := parseModes ms in Ok (m :: rest)
      else Err (UnknownAuthMode m)
  end.

(** [parsed]: the options and the value of --auth-modes, or the flag package's error. *)
Definition ParseFlags (parsed : res gostring (ProxyOptions * gostring)) : res FlagError ProxyOptions :=
  match parsed with
  | Err e => Err (BadFlag e)
  | Ok (o, modes) =>
      let! ms := parseModes (Split modes ","%char) in
      if (length ms =? 0)%nat then Err NoAuthMode
      else if (po_MaxLineLength o <? minLineLength) || (maxLineLength <? po_MaxLineLength o) then Err LineLengthOutOfRange
      else Ok (set_AuthModes ms o)
  end.

Definition has (o : ProxyOptions) (mode : gostring) : bool := existsb (λ m, m == mode) (po_AuthModes o).

(** [NewServer]: the settings of the go-smtp server; [sv_TLS]: STARTTLS is offered. *)
Record SmtpServer := {
  sv_Addr : gostring; sv_Domain : gostring; sv_MaxMessageBytes : Z; sv_MaxRecipients : Z; sv_MaxLineLength : Z;
  sv_ReadTimeout : Duration; sv_WriteTimeout : Duration; sv_AllowInsecureAuth : bool; sv_TLS : bool }.

Definition NewServer (o : ProxyOptions) (tls : bool) : SmtpServer := {|
  sv_Addr := po_Listen o; sv_Domain := po_Domain o; sv_MaxMessageBytes := po_MaxMessageBytes o;
  sv_MaxRecipients := po_MaxRecipients o; sv_MaxLineLength := po_MaxLineLength o; sv_ReadTimeout := po_ReadTimeout o;
  sv_WriteTimeout := po_WriteTimeout o; sv_AllowInsecureAuth := po_AllowInsecureAuth o; sv_TLS := tls |}.

Definition maxConcurrentArgon2 : Z := 2.

(** [backend.Slots] and the cap of [backend.Tenants]. *)
Definition slotsOf (o : ProxyOptions) : option (Z * Z) :=
  if 0 <? po_MaxConcurrent o then
    let perTenant := po_MaxConcurrentPerTenant o in
    let perTenant := if perTenant <=? 0 then (po_MaxConcurrent o + 1) `quot` 2 else perTenant in
    let perTenant := if po_MaxConcurrent o <? perTenant then po_MaxConcurrent o else perTenant in
    Some (po_MaxConcurrent o, perTenant)
  else None.

(** [Backend], as the sessions use it. *)
Record ProxyBackend := {
  pb_Options : Session.Options; pb_Slots : option (Z * Z); pb_AuthFailures : option (Duration * Z); pb_Argon2 : option Z;
  pb_AuthTimeout : Duration; pb_SendTimeout : Duration; pb_DataTimeout : Duration }.

Definition backendOf (o : ProxyOptions) : ProxyBackend :=
  let credential := has o ModeCredential in
  {| pb_Options := {| o_Credentials := credential; o_AllowInsecureCredentialAuth := credential && po_AllowInsecureCredentialAuth o;
                      o_AuthFailures := credential; o_Tokens := has o ModeOAuthBearer; o_Pods := has o ModePodIP |};
     pb_Slots := slotsOf o;
     pb_AuthFailures := if credential then Some (po_AuthFailureWindow o, po_AuthFailuresPerUserIP o) else None;
     pb_Argon2 := if credential then Some maxConcurrentArgon2 else None;
     pb_AuthTimeout := po_AuthTimeout o; pb_SendTimeout := po_SendTimeout o; pb_DataTimeout := dataTimeout o |}.

(** *** [Run] *)

(** What the calls of a starting process answer. *)
Record Answers := {
  an_config : res gostring unit;                 (* ctrl.GetConfig *)
  an_schemas : res WaitError unit;               (* crdcheck.Wait *)
  an_cluster : res gostring unit;                (* cluster.New *)
  an_tracing : res gostring unit;
  an_clientset : res gostring unit;
  an_index : res gostring unit;                  (* IndexField of the pods *)
  an_informer : res gostring unit;               (* the MailCredential informer *)
  an_open : gostring → bool;                     (* the audit log *)
  an_tls : res gostring bool;                    (* tlsreload.FromEnv: a certificate is configured *)
  an_listen : res gostring unit }.

Inductive StartError :=
| FlagsRefused (e : FlagError) | StartFailed (msg : gostring) | SchemasRefused (e : WaitError) | LimiterRefused (e : BuildError).

Definition step_of {A} (x : res gostring A) : res StartError A := match x with Ok a => Ok a | Err e => Err (StartFailed e) end.
Definition only_if (b : bool) (x : res StartError unit) : res StartError unit := if b then x else Ok ().

(** What serves, once [Run] got that far. *)
Record Proxy := {
  px_Options : ProxyOptions; px_Backend : ProxyBackend; px_Server : SmtpServer; px_Audit : AuditSink;
  px_Limiter : MemoryLimiter + RedisClient }.

Definition ProxyRun `{LRUMap cacheEntry C} (parsed : res gostring (ProxyOptions * gostring)) (w : Answers)
    : res StartError (Proxy * option (Authenticator C)) :=
  let! o := match ParseFlags parsed with Ok o => Ok o | Err e => Err (FlagsRefused e) end in
  let! _ := step_of (an_config w) in
  let! _ := only_if (negb (po_SkipCRDCheck o)) (match an_schemas w with Ok _ => Ok () | Err e => Err (SchemasRefused e) end) in
  let! _ := step_of (an_cluster w) in
  let! _ := step_of (an_tracing w) in
  let! authn := (if has o ModeOAuthBearer then
                   let! _ := step_of (an_clientset w) in
                   let! a := step_of (NewAuthenticator [po_TokenAudience o] (po_TokenCacheSize o) (po_TokenCacheTTL o)) in Ok (Some a)
                 else Ok None) in
  let! _ := only_if (has o ModePodIP) (step_of (an_index w)) in
  let! _ := only_if (has o ModeCredential) (step_of (an_informer w)) in
  let! audit := step_of (FromFlag (an_open w) (po_AuditLog o)) in
  let! limiter := match Build (po_RateLimit o) with Ok l => Ok l | Err e => Err (LimiterRefused e) end in
  let! tls := step_of (an_tls w) in
  let! _ := step_of (an_listen w) in
  Ok ({| px_Options := o; px_Backend := backendOf o; px_Server := NewServer o tls; px_Audit := audit; px_Limiter := limiter |}, authn).
End proxy.

(** ** Start-up of the HTTP front end *)

Record ApiFlags := {
  af_Listen : gostring; af_MetricsListen : gostring; af_TokenCacheSize : Z; af_TokenCacheTTL : Duration; af_TokenAudience : gostring;
  af_ShutdownTimeout : Duration; af_ShutdownDelay : Duration; af_AuditLog : gostring; af_ClusterName : gostring;
  af_SecretNamespaces : gostring; af_SkipCRDCheck : bool; af_MaxInflightBody : Z; af_RateLimit : LimiterConfig }.

Definition defaultApiFlags (rl : LimiterConfig) : ApiFlags := {|
  af_Listen := ":8443"; af_MetricsListen := ":9090"; af_TokenCacheSize := 4096; af_TokenCacheTTL := 5 * Minute;
  af_TokenAudience := "sigillum"; af_ShutdownTimeout := 25 * Second; af_ShutdownDelay := 5 * Second; af_AuditLog := "stdout";
  af_ClusterName := []; af_SecretNamespaces := []; af_SkipCRDCheck := false; af_MaxInflightBody := 32 * 2 ^ 20; af_RateLimit := rl |}.

(** The server before its first request: the caches are empty, no flag is set. *)
Record ApiServer (C W : Type) := {
  as_authn : Authenticator C; as_bodies : option (bodyBudget W); as_audit : AuditSink; as_limiter : MemoryLimiter + RedisClient;
  as_writeTimeout : Duration; as_tls : bool; as_secretNamespaces : list gostring }.
Arguments as_authn {C W} _. Arguments as_bodies {C W} _. Arguments as_audit {C W} _. Arguments as_limiter {C W} _.
Arguments as_writeTimeout {C W} _. Arguments as_tls {C W} _. Arguments as_secretNamespaces {C W} _. Arguments Build_ApiServer {C W} _ _ _ _ _ _ _.

Definition writeTimeout : Duration := 60 * Second.
Definition requestBudget : Duration := writeTimeout - 10 * Second.

Definition ApiRun `{LRUMap cacheEntry C, Weighted W} (parsed : res gostring ApiFlags) (podNs : gostring) (w : Answers)
    : res StartError (ApiServer C W) :=
  let! f := match parsed with Ok f => Ok f | Err e => Err (FlagsRefused (BadFlag e)) end in
  let! _ := step_of (an_config w) in
  let! _ := only_if (negb (af_SkipCRDCheck f)) (match an_schemas w with Ok _ => Ok () | Err e => Err (SchemasRefused e) end) in
  let! _ := step_of (an_clientset w) in
  let! _ := step_of (an_cluster w) in
  let! _ := step_of (an_tracing w) in
  let! authn := step_of (NewAuthenticator [af_TokenAudience f] (af_TokenCacheSize f) (af_TokenCacheTTL f)) in
  let! audit := step_of (FromFlag (an_open w) (af_AuditLog f)) in
  let! limiter := match Build (af_RateLimit f) with Ok l => Ok l | Err e => Err (LimiterRefused e) end in
  let! tls := step_of (an_tls w) in
  Ok (Build_ApiServer authn (newBodyBudget (af_MaxInflightBody f)) audit limiter writeTimeout tls
        (SecretNamespaces podNs (af_SecretNamespaces f))).

(** *** [opsHandler] *)

Definition opsReadyz (synced draining : bool) : Z := if draining then 503 else if negb synced then 503 else 200.

(** ** What a started front end enforces *)

Section proxy_facts.
Context `{UnicodeTables}.

Definition known_mode (m : gostring) : Prop := m = ModeOAuthBearer ∨ m = ModeCredential ∨ m = ModePodIP.

Lemma parseModes_known (ms out : list gostring) : parseModes ms = Ok out → Forall known_mode out.
Proof.
  revert out. induction ms as [|m ms IH]; simpl; intros out; [intros [= <-]; constructor|].
  destruct (TrimSpace (ToLower m) == []); [apply IH|]. destruct (_ || _) eqn:E; [|done]. rewrite res_bind_Ok. intros (rest & Hr & [= <-]).
  constructor; [|by apply IH]. rewrite !orb_true_iff, !bool_decide_eq_true in E. unfold known_mode. tauto.
Qed.

Lemma parseModes_listed (ms out : list gostring) (m : gostring) :
  parseModes ms = Ok out → m ∈ out ↔ m ≠ [] ∧ ∃ x, x ∈ ms ∧ m = TrimSpace (ToLower x).
Proof.
  revert out. induction ms as [|x ms IH]; cbn [parseModes]; intros out.
  - intros [= <-]. setoid_rewrite elem_of_nil. naive_solver.
  - setoid_rewrite elem_of_cons. cbv zeta. destruct (bool_decide_reflect (TrimSpace (ToLower x) = [])) as [E|E].
    + intros Hp%IH. rewrite Hp. naive_solver.
    + destruct (_ || _); [|done]. rewrite res_bind_Ok. intros (rest & Hr & [= <-]). rewrite elem_of_cons, (IH _ Hr). naive_solver.
Qed.

Lemma has_elem (o : ProxyOptions) (m : gostring) : has o m = true ↔ m ∈ po_AuthModes o.
Proof.
  unfold has. rewrite existsb_exists. setoid_rewrite bool_decide_eq_true. setoid_rewrite <- list_elem_of_In. naive_solver.
Qed.

Lemma ParseFlags_Ok (parsed : res gostring (ProxyOptions * gostring)) (o : ProxyOptions) :
  ParseFlags parsed = Ok o →
  po_AuthModes o ≠ [] ∧ Forall known_mode (po_AuthModes o) ∧ minLineLength ≤ po_MaxLineLength o ≤ maxLineLength ∧
  ∃ o0 modes, parsed = Ok (o0, modes) ∧ o = set_AuthModes (po_AuthModes o) o0 ∧
    ∀ m, m ∈ po_AuthModes o ↔ m ≠ [] ∧ ∃ x, x ∈ Split modes ","%char ∧ m = TrimSpace (ToLower x).
Proof.
  unfold ParseFlags. destruct parsed as [[o0 modes]|]; [|done]. rewrite res_bind_Ok. intros (ms & Hms & Ho).
  destruct (Nat.eqb_spec (length ms) 0) as [|Hne]; [done|]. destruct (_ || _) eqn:El; [done|]. injection Ho as <-. cbn [po_AuthModes po_MaxLineLength set_AuthModes].
  apply orb_false_iff in El as [El1%Z.ltb_ge El2%Z.ltb_ge]. split; [by destruct ms|]. split; [by eapply parseModes_known|].
  split; [lia|]. exists o0, modes. split; [done|]. split; [done|]. intros m. by apply parseModes_listed.
Qed.

Lemma FromFlag_Discard (open : gostring → bool) (v : gostring) (k : AuditSink) :
  FromFlag open v = Ok k → k = Discard ↔ v = lit "none" ∨ v = lit "off".
Proof.
  unfold FromFlag. repeat case_bool_decide; simpl; subst; try (intros [= <-]; naive_solver).
  destruct (open v); [|done]. intros [= <-]. naive_solver.
Qed.

(** The share of one namespace: at least one slot, at most all, and with the derived cap
    never all of several. *)
Lemma slotsOf_spec (o : ProxyOptions) (total cap : Z) :
  slotsOf o = Some (total, cap) → total = po_MaxConcurrent o ∧ 1 ≤ cap ≤ total ∧
  (2 ≤ total → po_MaxConcurrentPerTenant o ≤ 0 → cap < total ∧ total ≤ 2 * cap).
Proof.
  unfold slotsOf. destruct (Z.ltb_spec 0 (po_MaxConcurrent o)); [|done]. cbv zeta. intros [= <- <-]. split; [done|].
  rewrite Z.quot_div_nonneg by lia.
  pose proof (Z.div_mod (po_MaxConcurrent o + 1) 2 ltac:(lia)). pose proof (Z.mod_pos_bound (po_MaxConcurrent o + 1) 2 ltac:(lia)).
  destruct (Z.leb_spec (po_MaxConcurrentPerTenant o) 0); case_match; rewrite ?Z.ltb_lt, ?Z.ltb_ge in *; lia.
Qed.

(** The mode that turns a mechanism on. *)
Definition mode_of (m : Mechanism) : gostring := match m with OAuthBearer => ModeOAuthBearer | _ => ModeCredential end.

(** What a front end that serves enforces: the CRDs were checked (or the operator said
    not to); a mechanism is accepted only if its mode was listed, and a password only over
    TLS or where the operator allowed otherwise; tokens are reviewed for an audience;
    audit records are kept unless the operator said none; lines are bounded; and one namespace holds at least one and never more than its share
    of the slots, with the derived share never all of several. *)
Theorem started_proxy `{LRUMap cacheEntry C} (parsed : res gostring (ProxyOptions * gostring)) (w : Answers) (px : Proxy)
    (authn : option (Authenticator C)) :
  ProxyRun parsed w = Ok (px, authn) →
  let o := px_Options px in
  (po_SkipCRDCheck o = true ∨ an_schemas w = Ok ()) ∧
  (po_AuthModes o ≠ [] ∧ Forall known_mode (po_AuthModes o)) ∧
  minLineLength ≤ sv_MaxLineLength (px_Server px) ≤ maxLineLength ∧
  (∀ s mech, Auth (pb_Options (px_Backend px)) s mech = Ok () → mode_of mech ∈ po_AuthModes o ∧
     (mech = OAuthBearer ∨ s_tls s = true ∨ po_AllowInsecureCredentialAuth o = true)) ∧
  (ModeOAuthBearer ∈ po_AuthModes o → ∃ a, authn = Some a ∧ au_audiences a ≠ []) ∧
  (px_Audit px = Discard ↔ po_AuditLog o = lit "none" ∨ po_AuditLog o = lit "off") ∧
  ∀ total cap, pb_Slots (px_Backend px) = Some (total, cap) → 1 ≤ cap ≤ total ∧
    ∀ t ns, Slots.reachable cap t → Z.of_nat (holders ns t) ≤ cap ∧
      (2 ≤ total → po_MaxConcurrentPerTenant o ≤ 0 → Z.of_nat (holders ns t) < total).
Proof.
  unfold ProxyRun. rewrite res_bind_Ok. intros (o & Hf & Hr). destruct (ParseFlags parsed) as [o'|] eqn:Ef; [|done]. injection Hf as ->.
  apply ParseFlags_Ok in Ef as (Hne & Hknown & Hlen & _).
  apply res_bind_Ok in Hr as (? & _ & Hr). apply res_bind_Ok in Hr as (? & Hcrd & Hr).
  apply res_bind_Ok in Hr as (? & _ & Hr). apply res_bind_Ok in Hr as (? & _ & Hr).
  apply res_bind_Ok in Hr as (a & Ha & Hr). do 2 (apply res_bind_Ok in Hr as (? & _ & Hr)).
  apply res_bind_Ok in Hr as (sink & Haudit & Hr). do 3 (apply res_bind_Ok in Hr as (? & _ & Hr)). injection Hr as <- ->. cbv zeta. cbn [px_Options px_Backend px_Server px_Audit backendOf pb_Options pb_Slots NewServer sv_MaxLineLength].
  split_and!; try done; try apply Hlen.
  - unfold only_if in Hcrd. destruct (po_SkipCRDCheck o); [by left|right]. simpl in Hcrd. by destruct (an_schemas w) as [[]|].
  - intros s mech. unfold Auth, credentialAuthAllowed. cbn [o_Credentials o_Tokens o_AllowInsecureCredentialAuth].
    rewrite <- has_elem. destruct mech; simpl; [destruct (has o ModeCredential)..|destruct (has o ModeOAuthBearer)|]; simpl; try done; [..|auto].
    all: destruct (s_tls s), (po_AllowInsecureCredentialAuth o); simpl; auto; done.
  - rewrite <- has_elem. intros Eh. rewrite Eh in Ha. apply res_bind_Ok in Ha as (? & _ & Ha). apply res_bind_Ok in Ha as (a' & Ha' & [= <-]).
    exists a'. split; [done|]. unfold NewAuthenticator in Ha'. destruct (List.filter _ _); [done|]. by injection Ha' as <-.
  - apply FromFlag_Discard with (an_open w). by destruct (FromFlag _ _) as [k|]; [injection Haudit as ->|].
  - intros total cap (-> & Hcap & Hder)%slotsOf_spec. split; [done|]. intros t ns [Hok Ht]%slots_reachable.
    pose proof (holders_bounded cap t ns Hok Ht). split; [done|]. intros Htwo Hder0. destruct (Hder Htwo Hder0). lia.
Qed.

(** The HTTP front end serves only after the CRDs were checked (or the operator said not
    to), reviews tokens for the configured audience, bounds the bodies in memory unless
    told not to, and keeps audit records unless told none; and a request's budget ends
    before the connection would be closed unanswered. *)
Theorem started_api `{LRUMap cacheEntry C, Weighted W} (f : ApiFlags) (podNs : gostring) (w : Answers) (s : ApiServer C W) :
  ApiRun (Ok f) podNs w = Ok s →
  (af_SkipCRDCheck f = true ∨ an_schemas w = Ok ()) ∧
  au_audiences (as_authn s) = [TrimSpace (af_TokenAudience f)] ∧ TrimSpace (af_TokenAudience f) ≠ [] ∧
  (as_bodies s = None ↔ af_MaxInflightBody f ≤ 0) ∧
  (as_audit s = Discard ↔ af_AuditLog f = lit "none" ∨ af_AuditLog f = lit "off") ∧
  0 < requestBudget < as_writeTimeout s.
Proof.
  unfold ApiRun. rewrite res_bind_Ok. intros (? & [= <-] & Hr). apply res_bind_Ok in Hr as (? & _ & Hr). apply res_bind_Ok in Hr as (? & Hcrd & Hr).
  do 3 (apply res_bind_Ok in Hr as (? & _ & Hr)). apply res_bind_Ok in Hr as (a & Ha & Hr). apply res_bind_Ok in Hr as (sink & Haudit & Hr).
  do 2 (apply res_bind_Ok in Hr as (? & _ & Hr)). injection Hr as <-. cbn [as_authn as_bodies as_audit as_writeTimeout].
  split; [|split; [|split; [|split; [|split]]]].
  - unfold only_if in Hcrd. destruct (af_SkipCRDCheck f); [by left|right]. simpl in Hcrd. by destruct (an_schemas w) as [[]|].
  - unfold NewAuthenticator in Ha. cbn [fmap list_fmap List.filter] in Ha. destruct (_ != []); [|done]. by injection Ha as <-.
  - intros E. unfold NewAuthenticator in Ha. cbn [fmap list_fmap List.filter] in Ha. by rewrite E in Ha.
  - unfold newBodyBudget. destruct (Z.leb_spec (af_MaxInflightBody f) 0); split; done || lia.
  - apply FromFlag_Discard with (an_open w). by destruct (FromFlag _ _) as [k|]; [injection Haudit as ->|].
  - unfold requestBudget, writeTimeout, Second. lia.
Qed.

(** The derived limit of a DATA transfer leaves room for the largest message at the
    minimal rate, to the nanosecond, beside one idle timeout, as long as the sizes stay
    below 9.2 GB and the timeouts below a century. *)
Lemma dataTimeout_enough (o : ProxyOptions) :
  po_DataTimeout o ≤ 0 → 0 ≤ po_MaxMessageBytes o ≤ 9223372036 → 0 ≤ po_ReadTimeout o ≤ 36525 * 24 * Hour →
  let spent := dataTimeout o - po_ReadTimeout o in
  spent * minDataRate ≤ po_MaxMessageBytes o * Second < (spent + 1) * minDataRate.
Proof.
  intros Hd Hm Hr. unfold dataTimeout, minDataRate, Hour, Minute, Second in *. destruct (Z.ltb_spec 0 (po_DataTimeout o)); [lia|].
  rewrite (wrap_id 64 (_ * _)) by lia. rewrite Z.quot_div_nonneg by lia.
  set (q := po_MaxMessageBytes o * 1000000000 / (100 * 2 ^ 10)).
  assert (0 ≤ q ≤ 90071992539063) as Hq by (unfold q; split; [apply Z.div_pos; lia|apply Z.div_le_upper_bound; lia]).
  rewrite wrap_id by lia. replace (q + po_ReadTimeout o - po_ReadTimeout o) with q by lia. unfold q.
  pose proof (Z.div_mod (po_MaxMessageBytes o * 1000000000) (100 * 2 ^ 10) ltac:(lia)).
  pose proof (Z.mod_pos_bound (po_MaxMessageBytes o * 1000000000) (100 * 2 ^ 10) ltac:(lia)). lia.
Qed.

(** [dataDeadlines]: the window of a transfer that starts now, on a wrapped connection. *)
Definition dataDeadlines (now : Time) (wrapped : bool) (idle timeout : Duration) : option dataWindow :=
  if negb wrapped || ((idle =? 0) && (timeout =? 0)) then None
  else Some {| dw_idle := idle; dw_end := if 0 <? timeout then now + timeout else 0 |}.

(** A started front end bounds every DATA transfer: each read has a deadline, at most
    the idle timeout away and never past the derived limit of the whole transfer. *)
Lemma data_bounded (o : ProxyOptions) (start now : Time) :
  0 < start ≤ now → 0 < po_ReadTimeout o → 0 < dataTimeout o →
  ∃ win, dataDeadlines start true (po_ReadTimeout o) (dataTimeout o) = Some win ∧
    0 < deadline now win ≤ start + dataTimeout o ∧ deadline now win ≤ now + po_ReadTimeout o.
Proof.
  intros Hn Hr Hd. unfold dataDeadlines. cbn [negb orb]. rewrite (proj2 (Z.eqb_neq (po_ReadTimeout o) 0)) by lia.
  eexists. split; [done|]. rewrite (proj2 (Z.ltb_lt 0 (dataTimeout o))) by done. unfold deadline. cbn [dw_idle dw_end].
  rewrite (proj2 (Z.ltb_lt 0 (po_ReadTimeout o))) by done. rewrite (bool_decide_false (start + dataTimeout o = 0)) by lia.
  rewrite (bool_decide_false (now + po_ReadTimeout o = 0)) by lia. cbn [negb andb orb].
  destruct (Z.ltb_spec (start + dataTimeout o) (now + po_ReadTimeout o)); lia.
Qed.

(** In 64 bits the product overflows from 9.2 GB on: at 10 GiB the derived limit is
    negative, and a transfer has only the idle timeout. *)
Lemma huge_messages_unlimited (o : ProxyOptions) (start : Time) :
  po_DataTimeout o = 0 → po_MaxMessageBytes o = 10 * 2 ^ 30 → po_ReadTimeout o = 60 * Second →
  dataDeadlines start true (po_ReadTimeout o) (dataTimeout o) = Some {| dw_idle := 60 * Second; dw_end := 0 |}.
Proof. intros Hd Hm Hr. unfold dataTimeout. by rewrite Hd, Hm, Hr. Qed.
End proxy_facts.

(** ** Shutdown of the servers

    [Run] after the signal, in api and smtp mode: readiness fails, the process sleeps for
    the delay, only then are requests refused and the listener closed.  Other goroutines
    answer probes and requests between any two steps. *)

Module Drain.

Record state := { d_now : Time; d_draining : option Time; d_shutting : option Time; d_closed : option Time }.
Definition serving (t : Time) : state := {| d_now := t; d_draining := None; d_shutting := None; d_closed := None |}.

Section steps.
Context (delay : Duration).

(** [time.Sleep] returns no earlier than asked, and at once for a delay of 0 or less. *)
Inductive step : state → state → Prop :=
| tick s t : d_now s ≤ t →
    step s {| d_now := t; d_draining := d_draining s; d_shutting := d_shutting s; d_closed := d_closed s |}
| signal s : d_draining s = None →
    step s {| d_now := d_now s; d_draining := Some (d_now s); d_shutting := d_shutting s; d_closed := d_closed s |}
| slept s t : d_draining s = Some t → d_shutting s = None → (0 < delay → t + delay ≤ d_now s) →
    step s {| d_now := d_now s; d_draining := Some t; d_shutting := Some (d_now s); d_closed := d_closed s |}
| closed s t : d_shutting s = Some t → d_closed s = None →
    step s {| d_now := d_now s; d_draining := d_draining s; d_shutting := Some t; d_closed := Some (d_now s) |}.

Inductive run : state → Prop :=
| run_start t : run (serving t)
| run_step s s' : run s → step s s' → run s'.

Record ordered (s : state) : Prop := {
  or_draining : ∀ t, d_draining s = Some t → t ≤ d_now s;
  or_shutting : ∀ t, d_shutting s = Some t → t ≤ d_now s ∧ ∃ t0, d_draining s = Some t0 ∧ t0 + Z.max 0 delay ≤ t;
  or_closed : ∀ t, d_closed s = Some t → ∃ t1, d_shutting s = Some t1 ∧ t1 ≤ t }.

Lemma run_ordered (s : state) : run s → ordered s.
Proof.
  induction 1 as [t|s s' _ [Hd Hs Hc] Hstep]; [by split|].
  destruct Hstep as [s t Ht|s Hn|s t Hdr Hns Hwait|s t Hsh Hnc]; split; cbn [d_now d_draining d_shutting d_closed].
  - intros t0 E. specialize (Hd _ E). lia.
  - intros t1 E. destruct (Hs _ E) as (? & t0 & ? & ?). split; [lia|]. by exists t0.
  - exact Hc.
  - intros t0 [= <-]. lia.
  - intros t1 E. destruct (Hs _ E) as (? & t0 & ? & ?). congruence.
  - exact Hc.
  - intros t0 [= <-]. by apply Hd.
  - intros t1 [= <-]. split; [lia|]. exists t. split; [done|]. specialize (Hd _ Hdr). lia.
  - intros t2 E. destruct (Hc _ E) as (t1 & ? & ?). congruence.
  - exact Hd.
  - intros t1 [= <-]. by apply Hs.
  - intros t2 [= <-]. exists t. split; [done|]. by apply Hs.
Qed.
End steps.

Definition is_set (x : option Time) : bool := bool_decide (is_Some x).
Definition draining (s : state) : bool := is_set (d_draining s).
Definition shutting (s : state) : bool := is_set (d_shutting s).
End Drain.

(** The endpoints are told first: a request is refused for a shutdown, and the listener
    closed, only after readiness failed for the whole delay, in both modes; so long the
    server answers requests as ever. *)
Theorem readiness_fails_first (delay : Duration) (s : Drain.state) (synced : bool) :
  Drain.run delay s →
  (Drain.shutting s = true ∨ Drain.is_set (Drain.d_closed s) = true →
    ∃ t, Drain.d_draining s = Some t ∧ t + Z.max 0 delay ≤ Drain.d_now s) ∧
  (Drain.draining s = true →
    handleReadyz (Drain.draining s) (Drain.shutting s) synced = 503 ∧ opsReadyz synced (Drain.draining s) = 503) ∧
  (Drain.draining s = false → Drain.shutting s = false ∧
    handleReadyz (Drain.draining s) (Drain.shutting s) synced = (if synced then 200 else 503) ∧
    opsReadyz synced (Drain.draining s) = if synced then 200 else 503).
Proof.
  intros [Hd Hs Hc]%Drain.run_ordered. unfold Drain.shutting, Drain.draining, Drain.is_set. split_and!.
  - intros Hx. assert (∃ t1, Drain.d_shutting s = Some t1) as [t1 E].
    { destruct Hx as [[t1 E]%bool_decide_eq_true|[t2 E]%bool_decide_eq_true]; [by exists t1|]. destruct (Hc _ E) as (t1 & ? & _). by exists t1. }
    destruct (Hs _ E) as (? & t0 & ? & ?). exists t0. split; [done|lia].
  - intros ->. by split.
  - intros Hn. rewrite Hn. apply bool_decide_eq_false in Hn.
    assert (bool_decide (is_Some (Drain.d_shutting s)) = false) as ->.
    { apply bool_decide_eq_false. intros [t1 E]. destruct (Hs _ E) as (_ & t0 & E0 & _). apply Hn. by rewrite E0. }
    by destruct synced.
Qed.

(** *** The controller ([drainOnSignal], [drainContext]) *)

Inductive DrainPhase := Idle | Delaying | Cancelled | Exited.
Inductive DrainEvent := SignalReceived | DelayOver.

(** One event of the goroutine; an event it does not wait for changes nothing. *)
Definition drainOnSignal (delay : Duration) (p : DrainPhase) (e : DrainEvent) : DrainPhase :=
  match p, e with
  | Idle, SignalReceived => if 0 <? delay then Delaying else Cancelled
  | Delaying, _ => Cancelled
  | Cancelled, SignalReceived => Exited
  | p, _ => p
  end.

(** The "drain" readiness check passes; the manager, and with it the webhook server, runs. *)
Definition drainReady (p : DrainPhase) : bool := match p with Idle => true | _ => false end.
Definition managerRuns (p : DrainPhase) : bool := match p with Idle | Delaying => true | _ => false end.

Definition signals (es : list DrainEvent) : nat :=
  length (List.filter (λ e, match e with SignalReceived => true | DelayOver => false end) es).

Lemma signals_snoc (es : list DrainEvent) (e : DrainEvent) :
  signals (es ++ [e]) = (signals es + match e with SignalReceived => 1 | DelayOver => 0 end)%nat.
Proof. unfold signals. rewrite List.filter_app, length_app. by destruct e. Qed.

(** The first signal fails readiness at once.  With a delay the manager, and with it the
    webhook server, runs on exactly until the delay is over or a second signal arrives;
    and three signals end the process, whatever happens in between. *)
Theorem webhook_outlives_readiness (delay : Duration) (es : list DrainEvent) :
  let p := foldl (drainOnSignal delay) Idle es in
  (drainReady p = true ↔ signals es = 0%nat) ∧
  (managerRuns p = true ↔ signals es = 0%nat ∨ 0 < delay ∧ ∃ pre, signals pre = 0%nat ∧ es = pre ++ [SignalReceived]) ∧
  ((3 ≤ signals es)%nat → p = Exited).
Proof.
  cbv zeta. set (phase := λ es, foldl (drainOnSignal delay) Idle es).
  assert (∀ es, match phase es with
    | Idle => signals es = 0%nat
    | Delaying => 0 < delay ∧ signals es = 1%nat ∧ ∃ pre, signals pre = 0%nat ∧ es = pre ++ [SignalReceived]
    | Cancelled => (1 ≤ signals es ≤ 2)%nat ∧ ¬ (0 < delay ∧ ∃ pre, signals pre = 0%nat ∧ es = pre ++ [SignalReceived])
    | Exited => (2 ≤ signals es)%nat
    end) as Hinv.
  { intros l. induction l as [|e l IH] using rev_ind; [done|]. unfold phase in *. rewrite foldl_app, signals_snoc. simpl.
    destruct (foldl _ Idle l) eqn:E; destruct e; simpl.
    - destruct (Z.ltb_spec 0 delay); [split; [done|]; split; [lia|by exists l]|]. split; [lia|]. intros [? _]. lia.
    - lia.
    - destruct IH as (Hd & Hn & _). split; [lia|]. intros (_ & pre & Hp & Heq). apply app_inj_tail in Heq as [<- _]. lia.
    - destruct IH as (Hd & Hn & _). split; [lia|]. intros (_ & pre & Hp & Heq). by apply app_inj_tail in Heq as [_ ?].
    - lia.
    - split; [lia|]. intros (_ & pre & Hp & Heq). by apply app_inj_tail in Heq as [_ ?].
    - lia.
    - lia. }
  specialize (Hinv es). fold (phase es). destruct (phase es) eqn:E; simpl.
  - split_and!; [done| |lia]. split; [by left|done].
  - destruct Hinv as (? & ? & ?). split_and!; [by split; [|lia]| |lia]. split; [by right|done].
  - destruct Hinv as (? & Hno). split_and!; [by split; [|lia]| |lia]. split; [done|]. intros [|]; [lia|done].
  - split_and!; [by split; [|lia]| |done]. split; [done|]. intros [|(_ & pre & Hp & ->)]; [lia|]. rewrite signals_snoc in Hinv. lia.
Qed.

(** ** Start-up of the controller *)

Record ControllerFlags := {
  cf_DisableWebhook : bool; cf_ClusterName : gostring; cf_SecretNamespaces : gostring; cf_CredentialsGenerated : bool;
  cf_CredentialExclude : gostring; cf_GuardName : gostring; cf_GuardCheck : Duration; cf_ServiceAccountName : gostring;
  cf_SMTPHost : gostring; cf_SMTPPort : Z; cf_SkipCRDCheck : bool; cf_ShutdownDelay : Duration; cf_RateLimitBackend : gostring }.

Inductive ControllerError :=
| IntervalNotPositive | ExclusionsRefused | UnknownLimiter (b : gostring) | PortOutOfRange (p : Z)
| ControllerFailed (msg : gostring) | ControllerSchemas (e : WaitError) | GuardNeedsNames.

Record Controller := {
  ct_Reconciler : Reconciler; ct_Guard : option Guard;
  (** the validators of the webhook server, if it runs *)
  ct_CredentialValidator : option CredentialValidator; ct_RateLimitBackend : gostring;
  ct_SecretNamespaces : list gostring }.

(** [run]; [podNs] is POD_NAMESPACE; [manager] is what building the manager and adding the
    first three reconcilers answers, [setup] what adding the rest answers. *)
Definition ControllerRun (f : ControllerFlags) (podNs : gostring) (config manager setup : res gostring unit) (schemas : res WaitError unit)
    : res ControllerError Controller :=
  if cf_GuardCheck f <=? 0 then Err IntervalNotPositive
  else
    let exclusions := ParseExclusions (cf_CredentialExclude f) podNs in
    if negb (Exclusions_Validate exclusions) then Err ExclusionsRefused
    else if negb ((cf_RateLimitBackend f == []) || (cf_RateLimitBackend f == lit "memory") || (cf_RateLimitBackend f == lit "redis"))
    then Err (UnknownLimiter (cf_RateLimitBackend f))
    else if (cf_SMTPPort f <? 1) || (65535 <? cf_SMTPPort f) then Err (PortOutOfRange (cf_SMTPPort f))
    else
      let secretNs := SecretNamespaces podNs (cf_SecretNamespaces f) in
      let! _ := match config with Ok _ => Ok () | Err e => Err (ControllerFailed e) end in
      let! _ := (if cf_SkipCRDCheck f then Ok () else match schemas with Ok _ => Ok () | Err e => Err (ControllerSchemas e) end) in
      let! _ := match manager with Ok _ => Ok () | Err e => Err (ControllerFailed e) end in
      let! guard := (if cf_CredentialsGenerated f then
                       if (podNs == []) || (cf_ServiceAccountName f == []) then Err GuardNeedsNames
                       else Ok (Some {| gd_Name := cf_GuardName f;
                                        gd_ControllerUsername := lit "system:serviceaccount:" ++ podNs ++ lit ":" ++ cf_ServiceAccountName f;
                                        gd_Exclusions := exclusions |})
                     else Ok None) in
      let! _ := match setup with Ok _ => Ok () | Err e => Err (ControllerFailed e) end in
      Ok {| ct_Reconciler := {| rc_Exclusions := exclusions; rc_GeneratedEnabled := cf_CredentialsGenerated f;
                                rc_SMTPHost := cf_SMTPHost f; rc_SMTPPort := wrap 32 (cf_SMTPPort f) |};
            ct_Guard := guard;
            ct_CredentialValidator := if cf_DisableWebhook f then None
              else Some {| cv_Exclusions := exclusions; cv_GeneratedEnabled := cf_CredentialsGenerated f |};
            ct_RateLimitBackend := cf_RateLimitBackend f; ct_SecretNamespaces := secretNs |}.

(** The parts of a started controller agree: the webhook refuses and the controller skips
    the same namespaces that the guard forbids, the release's own among them; passwords
    are issued only with a guard, which confines the ServiceAccount the controller runs
    as; and the port in issued Secrets is the one of the flag. *)
Theorem started_controller (f : ControllerFlags) (podNs : gostring) (config manager setup : res gostring unit)
    (schemas : res WaitError unit) (c : Controller) :
  ControllerRun f podNs config manager setup schemas = Ok c →
  let r := ct_Reconciler c in
  (cf_SkipCRDCheck f = true ∨ schemas = Ok ()) ∧
  (podNs ≠ [] → Excluded (rc_Exclusions r) podNs = true) ∧
  (∀ v, ct_CredentialValidator c = Some v → cv_Exclusions v = rc_Exclusions r ∧ cv_GeneratedEnabled v = rc_GeneratedEnabled r) ∧
  (rc_GeneratedEnabled r = true → ∃ g, ct_Guard c = Some g ∧ gd_Exclusions g = rc_Exclusions r ∧
     gd_ControllerUsername g = serviceAccountPrefix ++ podNs ++ lit ":" ++ cf_ServiceAccountName f ∧ podNs ≠ []) ∧
  rc_SMTPPort r = cf_SMTPPort f ∧ 1 ≤ rc_SMTPPort r ≤ 65535.
Proof.
  unfold ControllerRun. destruct (_ <=? 0); [done|]. cbv zeta. destruct (negb _); [done|]. destruct (negb _); [done|].
  destruct (_ || _) eqn:Ep; [done|]. apply orb_false_iff in Ep as [Ep1%Z.ltb_ge Ep2%Z.ltb_ge].
  rewrite res_bind_Ok. intros (? & _ & Hr). apply res_bind_Ok in Hr as (? & Hcrd & Hr). apply res_bind_Ok in Hr as (? & _ & Hr).
  apply res_bind_Ok in Hr as (g & Hg & Hr). apply res_bind_Ok in Hr as (? & _ & [= <-]).
  cbn [ct_Reconciler ct_Guard ct_CredentialValidator rc_Exclusions rc_GeneratedEnabled rc_SMTPPort]. rewrite wrap_id by lia.
  split_and!; try done; try lia.
  - destruct (cf_SkipCRDCheck f); [by left|right]. by destruct schemas as [[]|].
  - intros Hne. unfold Excluded, ParseExclusions. cbn [ex_ReleaseNamespace].
    rewrite (bool_decide_false (podNs = [])) by done. by rewrite (bool_decide_true (podNs = podNs)).
  - intros v. destruct (cf_DisableWebhook f); [done|]. by intros [= <-].
  - intros Hgen. rewrite Hgen in Hg. destruct (bool_decide_reflect (podNs = [])); [done|]. simpl in Hg.
    destruct (cf_ServiceAccountName f == []); [done|]. injection Hg as <-. eexists. split; [done|]. by split_and!.
Qed.

(** ** The entry point ([cmd/sigillum/main.go]) *)

(** [parseEntrypointArgs]; the value of a bare --mode is the next argument, whatever it is. *)
Fixpoint parseEntrypointArgs (args : list gostring) (mode : gostring) (showVersion help : bool) : gostring * bool * bool :=
  match args with
  | [] => (mode, showVersion, help)
  | a :: rest =>
      if (a == lit "-version") || (a == lit "--version") then parseEntrypointArgs rest mode true help
      else if (a == lit "-h") || (a == lit "-help") || (a == lit "--help") then parseEntrypointArgs rest mode showVersion true
      else if (a == lit "-mode") || (a == lit "--mode") then
        match rest with
        | m :: rest => parseEntrypointArgs rest m showVersion help
        | [] => (mode, showVersion, help)
        end
      else if HasPrefix a "-mode=" || HasPrefix a "--mode=" then
        parseEntrypointArgs rest (match Cut a "="%char with Some (_, v) => v | None => a end) showVersion help
      else parseEntrypointArgs rest mode showVersion help
  end.

Inductive Mode := ApiMode | ControllerMode | SmtpMode.
Definition modes : list (gostring * Mode) := [(lit "api", ApiMode); (lit "controller", ControllerMode); (lit "smtp", SmtpMode)].

(** What the process does: print its version, its usage (with the exit code, and with the
    flags of every mode), or run a mode, with the usage before it if asked for help. *)
Inductive Entry := PrintVersion | Usage (code : Z) (allFlags : bool) | RunMode (m : Mode) (usage : bool).

Definition main (args : list gostring) : Entry :=
  let '(name, showVersion, help) := parseEntrypointArgs args [] false false in
  if showVersion then PrintVersion
  else match List.find (λ m, fst m == name) modes with
       | None => if help then Usage 0 true else Usage 2 false
       | Some (_, m) => RunMode m help
       end.

(** The exit code of a mode's result: [None] is success, help counts as such. *)
Definition exitCode (err : option bool) : Z := match err with Some false => 1 | _ => 0 end.

(** The arguments the entry point looks at, as a reader of the command line sees them. *)
Inductive token := TVersion | THelp | TMode (m : gostring) | TOther.
Fixpoint tokens (args : list gostring) : list token :=
  match args with
  | [] => []
  | a :: rest =>
      if bool_decide (a ∈ [lit "-version"; lit "--version"]) then TVersion :: tokens rest
      else if bool_decide (a ∈ [lit "-h"; lit "-help"; lit "--help"]) then THelp :: tokens rest
      else if bool_decide (a ∈ [lit "-mode"; lit "--mode"]) then
        match rest with m :: rest => TMode m :: tokens rest | [] => [TOther] end
      else if HasPrefix a "-mode=" then TMode (drop 6 a) :: tokens rest
      else if HasPrefix a "--mode=" then TMode (drop 7 a) :: tokens rest
      else TOther :: tokens rest
  end.
Definition lastMode (ts : list token) (m : gostring) : gostring := foldl (λ m t, match t with TMode m => m | _ => m end) m ts.

Lemma elem_pair (a x y : gostring) : bool_decide (a ∈ [x; y]) = (a == x) || (a == y).
Proof. apply eq_true_iff_eq. rewrite orb_true_iff, !bool_decide_eq_true. set_solver. Qed.
Lemma elem_triple (a x y z : gostring) : bool_decide (a ∈ [x; y; z]) = (a == x) || (a == y) || (a == z).
Proof. apply eq_true_iff_eq. rewrite !orb_true_iff, !bool_decide_eq_true. set_solver. Qed.

(** The last mode named counts, in either spelling; --version and --help count wherever
    they stand, except as the value of a bare --mode. *)
Theorem entry_arguments (args : list gostring) :
  parseEntrypointArgs args [] false false =
  (lastMode (tokens args) [], existsb (λ t, match t with TVersion => true | _ => false end) (tokens args),
   existsb (λ t, match t with THelp => true | _ => false end) (tokens args)).
Proof.
  assert (∀ n args m v h, (length args ≤ n)%nat → parseEntrypointArgs args m v h =
    (lastMode (tokens args) m, v || existsb (λ t, match t with TVersion => true | _ => false end) (tokens args),
     h || existsb (λ t, match t with THelp => true | _ => false end) (tokens args))) as Hgen; [|by apply (Hgen (length args))].
  induction n as [|n IH]; intros [|a rest] m v h Hlen; try (simpl in Hlen; lia); try (simpl; by rewrite !orb_false_r).
  simpl in Hlen. cbn [parseEntrypointArgs tokens]. rewrite !elem_pair, elem_triple.
  destruct ((a == lit "-version") || _); [rewrite IH by lia; cbn [existsb lastMode foldl]; by rewrite orb_true_r|].
  destruct ((a == lit "-h") || _ || _); [rewrite IH by lia; cbn [existsb lastMode foldl]; by rewrite orb_true_r|].
  destruct ((a == lit "-mode") || _).
  { destruct rest as [|x rest]; [by rewrite !orb_false_r|]. rewrite IH by (simpl in Hlen; lia). done. }
  destruct (HasPrefix a "-mode=") eqn:E1; cbn [orb].
  { apply HasPrefix_spec in E1 as [t ->]. rewrite IH by lia. done. }
  destruct (HasPrefix a "--mode=") eqn:E2; [|rewrite IH by lia; done].
  apply HasPrefix_spec in E2 as [t ->]. rewrite IH by lia. done.
Qed.

Module ServingExample.
#[local] Existing Instances ascii_tables map_cache.
Definition in_memory : LimiterConfig := {|
  lc_Backend := "memory"; lc_RedisAddrs := []; lc_RedisMaster := []; lc_RedisDB := 0; lc_RedisTLS := false;
  lc_RedisKeyPrefix := "sigillum:rl:"; lc_FailOpen := false |}.
Definition all_well : Answers := {|
  an_config := Ok (); an_schemas := Ok (); an_cluster := Ok (); an_tracing := Ok (); an_clientset := Ok (); an_index := Ok ();
  an_informer := Ok (); an_open := λ _, true; an_tls := Ok true; an_listen := Ok () |}.
Definition start_up (modes : gostring) := ProxyRun (C:=gmap gostring cacheEntry) (Ok (defaultOptions in_memory, modes)) all_well.

(** The defaults start; a misspelt mode does not. *)
Example default_started : is_ok (start_up defaultModes) = true ∧ start_up "OAuthBearer, password" = Err (FlagsRefused (UnknownAuthMode "password")).
Proof. split; match goal with |- ?a = ?b => exact (eq_refl b <: a = b) end. Qed.

(** Four slots, two per namespace; and 32 MiB may take 327.68 seconds beside the idle
    timeout. *)
Example default_shares : slotsOf (defaultOptions in_memory) = Some (4, 2) ∧
  dataTimeout (defaultOptions in_memory) = 327680000000 + 60 * Second.
Proof. split; match goal with |- ?a = ?b => exact (eq_refl b <: a = b) end. Qed.
End ServingExample.
