(* ===== verification/Conn.v ===== *)
(** * Connections of the SMTP front end ([internal/smtpproxy/conn.go])

    The wrapper every accepted connection gets: what each of its methods does to the
    network connection below, which is a list of operations ([NetOp]) with the answers
    given.  A session whose input can no longer be trusted closes after its reply; the
    theorems say what that means for any later use of the connection, and when it never
    happens. *)

From S2P Require Import Prelude GoStrings Types Address Engine RateLimit Credential Verifier Driver Webhook Resolver Gateway Bcc MailParse Session Serving.

(** ** The connection below *)

(** What is done to a [net.Conn].  [NDrain] reads until the client stops sending. *)
Inductive NetOp :=
| NWrite (p : gostring) | NSetReadDeadline (t : Time) | NRead | NCloseWrite | NDrain | NClose.

Definition lingerTimeout : Duration := 5 * Second.

(** What a call answers: [Write] its count, [Read] its bytes. *)
Inductive Answer := Wrote (a : res gostring nat) | Got (a : res gostring gostring) | Closed (e : option gostring) | Nothing.

Definition EOF : gostring := "EOF".

(** ** The wrapper *)

Record clientConn := { cc_state : conn_state; cc_data : option dataWindow }.

(** [Accept] wraps what the listener accepted. *)
Definition Accept {A} (accepted : res gostring A) : res gostring (A * clientConn) :=
  match accepted with Err e => Err e | Ok c => Ok (c, {| cc_state := connOpen; cc_data := None |}) end.

Definition with_state (st : conn_state) (c : clientConn) : clientConn := {| cc_state := st; cc_data := cc_data c |}.
Definition with_data (w : option dataWindow) (c : clientConn) : clientConn := {| cc_state := cc_state c; cc_data := w |}.

(** [ans] is what the write below answers. *)
Definition Write (p : gostring) (ans : res gostring nat) (c : clientConn) : clientConn * list NetOp * Answer :=
  let '(through, st) := conn_Write (cc_state c) in
  if through then (with_state st c, [NWrite p], Wrote ans) else (with_state st c, [], Wrote (Ok (length p))).

(** [dl] is the error of setting the deadline, if any. *)
Definition Read (now : Time) (dl : option gostring) (ans : res gostring gostring) (c : clientConn)
    : clientConn * list NetOp * Answer :=
  if negb (conn_Read (cc_state c)) then (c, [], Got (Err EOF))
  else match cc_data c with
       | None => (c, [NRead], Got ans)
       | Some w =>
           match dl with
           | Some e => (c, [NSetReadDeadline (deadline now w)], Got (Err e))
           | None => (c, [NSetReadDeadline (deadline now w); NRead], Got ans)
           end
       end.

(** [half]: the connection below can close its sending side alone, as TCP can. *)
Definition Close (now : Time) (half : bool) (ans : option gostring) (c : clientConn) : clientConn * list NetOp * Answer :=
  match cc_state c with
  | connOpen => (c, [NClose], Closed ans)
  | _ => (c, (if half then [NCloseWrite] else []) ++ [NSetReadDeadline (now + lingerTimeout); NDrain; NClose], Closed ans)
  end.

(** ** The session's way to it *)

(** The connection go-smtp hands to a session: TLS wraps the one below. *)
Inductive SessionConn := Bare | Wrapped (c : clientConn) | TLSOver (c : SessionConn).

(** [clientConn]: looks through one layer of TLS. *)
Definition clientConnOf (nc : SessionConn) : option clientConn :=
  match nc with TLSOver (Wrapped c) | Wrapped c => Some c | _ => None end.

(** Puts the changed wrapper back. *)
Definition setClientConn (c : clientConn) (nc : SessionConn) : SessionConn :=
  match nc with TLSOver (Wrapped _) => TLSOver (Wrapped c) | Wrapped _ => Wrapped c | nc => nc end.

(** [closeAfterReply] of the session: without the wrapper it closes at once. *)
Definition closeSession (nc : SessionConn) : SessionConn * list NetOp :=
  match clientConnOf nc with
  | Some c => (setClientConn (with_state (closeAfterReply (cc_state c)) c) nc, [])
  | None => (nc, [NClose])
  end.

(** [dataDeadlines] stores the window of a transfer and returns the function that
    removes it. *)
Definition startData (now : Time) (idle timeout : Duration) (nc : SessionConn) : SessionConn :=
  match clientConnOf nc, dataDeadlines now (bool_decide (is_Some (clientConnOf nc))) idle timeout with
  | Some c, Some w => setClientConn (with_data (Some w) c) nc
  | _, _ => nc
  end.
Definition stopData (nc : SessionConn) : SessionConn :=
  match clientConnOf nc with Some c => setClientConn (with_data None c) nc | None => nc end.

(** ** Uses of a connection *)

Inductive Call :=
| CallWrite (p : gostring) (ans : res gostring nat)
| CallRead (now : Time) (dl : option gostring) (ans : res gostring gostring)
| CallClose (now : Time) (half : bool) (ans : option gostring)
| CallCloseAfterReply
| CallData (w : option dataWindow).

Definition call (e : Call) (c : clientConn) : clientConn * list NetOp * Answer :=
  match e with
  | CallWrite p ans => Write p ans c
  | CallRead now dl ans => Read now dl ans c
  | CallClose now half ans => Close now half ans c
  | CallCloseAfterReply => (with_state (closeAfterReply (cc_state c)) c, [], Nothing)
  | CallData w => (with_data w c, [], Nothing)
  end.

Fixpoint calls (es : list Call) (c : clientConn) : clientConn * list (list NetOp * Answer) :=
  match es with
  | [] => (c, [])
  | e :: es => let '(c1, ops, a) := call e c in let '(c2, rest) := calls es c1 in (c2, (ops, a) :: rest)
  end.

(** ** What closing after the reply means *)

(** The bytes written below, and those the calls asked to write. *)
Definition written (out : list (list NetOp * Answer)) : list gostring :=
  concat (fst <$> out) ≫= λ op, match op with NWrite p => [p] | _ => [] end.
Definition payloads (es : list Call) : list gostring := es ≫= λ e, match e with CallWrite p _ => [p] | _ => [] end.

(** A read that found the end of the input, without asking the connection below. *)
Definition read_ends (e : Call) (x : list NetOp * Answer) : Prop :=
  match e with CallRead _ _ _ => x = ([], Got (Err EOF)) | _ => True end.

(** A close that lets the client read what was written before. *)
Definition lingers (e : Call) (x : list NetOp * Answer) : Prop :=
  match e with
  | CallClose now half ans =>
      x = ((if half then [NCloseWrite] else []) ++ [NSetReadDeadline (now + lingerTimeout); NDrain; NClose], Closed ans)
  | _ => True
  end.

Lemma written_cons (ops : list NetOp) (a : Answer) (out : list (list NetOp * Answer)) :
  written ((ops, a) :: out) = (ops ≫= λ op, match op with NWrite p => [p] | _ => [] end) ++ written out.
Proof. unfold written. cbn. by rewrite bind_app. Qed.

(** Reads in the middle of a closing transfer may still reach the network. *)
Lemma read_writes_nothing (now : Time) (dl : option gostring) (ans : res gostring gostring) (c : clientConn) :
  written [(snd (fst (Read now dl ans c)), snd (Read now dl ans c))] = [].
Proof. unfold Read. destruct (negb _); [done|]. destruct (cc_data c); [destruct dl|]; done. Qed.

Lemma calls_cons (e : Call) (es : list Call) (c : clientConn) :
  snd (calls (e :: es) c) = (snd (fst (call e c)), snd (call e c)) :: snd (calls es (fst (fst (call e c)))).
Proof. cbn [calls]. destruct (call e c) as [[c1 ops] a]. cbn [fst snd]. by destruct (calls es c1). Qed.

Lemma call_replied (e : Call) (c : clientConn) : cc_state c = connReplied →
  cc_state (fst (fst (call e c))) = connReplied ∧ written [(snd (fst (call e c)), snd (call e c))] = [] ∧
  read_ends e (snd (fst (call e c)), snd (call e c)) ∧ lingers e (snd (fst (call e c)), snd (call e c)).
Proof. intros Hc. destruct c as [st dw]. simpl in Hc. subst st. by destruct e as [| |? []| |]. Qed.

Lemma calls_replied (es : list Call) (c : clientConn) : cc_state c = connReplied →
  written (snd (calls es c)) = [] ∧ Forall2 read_ends es (snd (calls es c)) ∧ Forall2 lingers es (snd (calls es c)).
Proof.
  revert c. induction es as [|e es IH]; intros c Hc; [by split_and!|].
  destruct (call_replied e c Hc) as (H1 & H2 & H3 & H4). destruct (IH _ H1) as (I1 & I2 & I3).
  rewrite calls_cons. split_and!; [|by constructor..].
  rewrite written_cons, I1. rewrite written_cons in H2. apply app_eq_nil in H2. by rewrite (proj1 H2).
Qed.

(** While the reply is awaited: one call. *)
Lemma call_closing (e : Call) (c : clientConn) : cc_state c = connCloseAfterReply →
  let x := (snd (fst (call e c)), snd (call e c)) in
  lingers e x ∧
  match e with
  | CallWrite p ans => cc_state (fst (fst (call e c))) = connReplied ∧ x = ([NWrite p], Wrote ans)
  | _ => cc_state (fst (fst (call e c))) = connCloseAfterReply ∧ written [x] = []
  end.
Proof.
  intros Hc x. destruct c as [st dw]. simpl in Hc. subst st x. destruct e as [|now dl ans|? []| |]; try done.
  split; [done|]. split; [|apply read_writes_nothing]. cbn. by destruct dw; [destruct dl|].
Qed.

Lemma calls_closing (es : list Call) (c : clientConn) : cc_state c = connCloseAfterReply →
  let out := snd (calls es c) in
  written out = take 1 (payloads es) ∧ Forall2 lingers es out ∧
  (∀ before p ans after, es = before ++ CallWrite p ans :: after →
     Forall2 read_ends after (drop (S (length before)) out)).
Proof.
  revert c. induction es as [|e es IH]; intros c Hc out; [by repeat split; [..|intros [] ]|]. subst out.
  pose proof (call_closing e c Hc) as [Hl He]. rewrite calls_cons.
  set (x := (snd (fst (call e c)), snd (call e c))) in *.
  destruct (match e with CallWrite _ _ => true | _ => false end) eqn:Hw.
  - destruct e as [p ans| | | |]; try done. destruct He as [Hr Hx].
    destruct (calls_replied es _ Hr) as (I1 & I2 & I3). split_and!; [|by constructor|].
    + rewrite Hx, written_cons, I1. done.
    + intros [|e' before] p' ans' after Heq; [by simplify_eq/=|]. simplify_eq/=.
      apply Forall2_app_inv_l in I2 as (l1 & l2 & H1 & H2 & Heq). rewrite Heq.
      pose proof (Forall2_length _ _ _ H1) as Hlen.
      inversion H2 as [|? y ? l3 _ H3]; simplify_eq.
      replace (S (length before)) with (length l1 + 1)%nat by lia. by rewrite drop_app_add.
  - assert (cc_state (fst (fst (call e c))) = connCloseAfterReply ∧ written [x] = []) as [Hs Hx] by (by destruct e).
    destruct (IH _ Hs) as (I1 & I2 & I3). split_and!; [|by constructor|].
    + subst x. rewrite written_cons. rewrite written_cons in Hx. apply app_eq_nil in Hx as [Hx _].
      rewrite Hx, I1. by destruct e.
    + intros [|e' before] p ans after Heq; simplify_eq/=. by eapply I3.
Qed.

(** On an open connection the wrapper only adds the deadlines of a transfer. *)
Definition passes_through (w : option dataWindow) (e : Call) (x : list NetOp * Answer) : Prop :=
  match e with
  | CallWrite p ans => x = ([NWrite p], Wrote ans)
  | CallRead now dl ans =>
      x = match w, dl with
          | None, _ => ([NRead], Got ans)
          | Some w, None => ([NSetReadDeadline (deadline now w); NRead], Got ans)
          | Some w, Some e => ([NSetReadDeadline (deadline now w)], Got (Err e))
          end
  | CallClose now half ans => x = ([NClose], Closed ans)
  | CallCloseAfterReply | CallData _ => True
  end.

Lemma calls_open (es : list Call) (c : clientConn) : cc_state c = connOpen →
  Forall (λ e, match e with CallCloseAfterReply | CallData _ => False | _ => True end) es →
  Forall2 (passes_through (cc_data c)) es (snd (calls es c)).
Proof.
  revert c. induction es as [|e es IH]; intros c Hc Hes; [constructor|]. inversion Hes as [|? ? He Hes']. subst.
  rewrite calls_cons. destruct c as [st dw]. simpl in Hc. subst st. constructor.
  - destruct e as [|now dl ans| | |]; try done. cbn. by destruct dw; [destruct dl|].
  - destruct e as [|now dl ans|? half ans| |]; try done; [exact (IH (Build_clientConn connOpen dw) eq_refl Hes')|
      |exact (IH (Build_clientConn connOpen dw) eq_refl Hes')].
    replace (fst (fst (call (CallRead now dl ans) {| cc_state := connOpen; cc_data := dw |})))
      with (Build_clientConn connOpen dw) by (cbn; destruct dw; [destruct dl|]; done).
    exact (IH (Build_clientConn connOpen dw) eq_refl Hes').
Qed.

(** The session finds the wrapper on a plain connection and below STARTTLS, and
    otherwise gives up the connection at once. *)
Lemma closeSession_closes (c : clientConn) (tls : bool) :
  let nc := if tls then TLSOver (Wrapped c) else Wrapped c in
  (∃ c', clientConnOf (fst (closeSession nc)) = Some c' ∧ cc_state c' = closeAfterReply (cc_state c) ∧ cc_data c' = cc_data c) ∧
  snd (closeSession nc) = [] ∧ snd (closeSession (if tls then TLSOver Bare else Bare)) = [NClose].
Proof. destruct tls; (split_and!; [by eexists|done..]). Qed.

(** A started front end gives every read of a DATA transfer a deadline: at most the idle
    timeout away, and never past the limit of the whole transfer.  Afterwards the window
    is gone. *)
Lemma transfer_reads_bounded (o : ProxyOptions) (start now : Time) (tls : bool) (c : clientConn) (ans : res gostring gostring) :
  0 < start ≤ now → 0 < po_ReadTimeout o → 0 < dataTimeout o → cc_state c = connOpen →
  let nc := if tls then TLSOver (Wrapped c) else Wrapped c in
  (∃ c', clientConnOf (startData start (po_ReadTimeout o) (dataTimeout o) nc) = Some c' ∧
     ∃ t, call (CallRead now None ans) c' = (c', [NSetReadDeadline t; NRead], Got ans) ∧
       0 < t ≤ start + dataTimeout o ∧ t ≤ now + po_ReadTimeout o) ∧
  (∃ c', clientConnOf (stopData (startData start (po_ReadTimeout o) (dataTimeout o) nc)) = Some c' ∧ cc_data c' = None).
Proof.
  intros Hn Hr Hd Hc nc. destruct (data_bounded o start now Hn Hr Hd) as (win & Hwin & Hb).
  assert (startData start (po_ReadTimeout o) (dataTimeout o) nc = setClientConn (with_data (Some win) c) nc) as ->.
  { unfold startData. subst nc. destruct tls; cbn [clientConnOf]; rewrite (bool_decide_true (is_Some _)) by eauto; by rewrite Hwin. }
  split.
  - exists (with_data (Some win) c). split; [by destruct tls|]. exists (deadline now win). split; [|lia].
    destruct c as [st dw]. simpl in Hc. by subst st.
  - by exists (with_data None (with_data (Some win) c)); destruct tls.
Qed.

Section session.
Context `{AddressParser, UnicodeTables, LabelMatcher, K8sNames, UUIDs, X509, Limiter L}.
Context `{MailReader, MIMEReader, CredentialVerifier E V}.

Lemma checkCredential_conn (env : CallEnv E) (from : gostring) (to : list gostring) (s : session) (w : world L V) :
  s_conn (fst (fst (checkCredential env from to s w))) = s_conn s.
Proof.
  unfold checkCredential. destruct (s_revoked s); [done|]. destruct (s_cred s); [|done].
  by repeat (case_match; simplify_eq/=; try done).
Qed.

(** Whether DATA closes: exactly when the transfer was cut short. *)
Lemma data_conn (env : CallEnv E) (read : DataRead) (s : session) (w : world L V) :
  is_Some (s_identity s) → ce_tenantSlot env = true → ce_slot env = true →
  let '(s', _, e) := Data env read s w in
  match read with
  | DataDeadline => s_conn s' = closeAfterReply (s_conn s) ∧ ∃ r, e = Some (Reply r) ∧ se_Code r = 451
  | DataTooLongLine => s_conn s' = closeAfterReply (s_conn s) ∧ ∃ r, e = Some (Reply r) ∧ se_Code r = 550
  | _ => s_conn s' = s_conn s
  end.
Proof.
  intros [id Hid] Ht Hs. unfold Data. rewrite Hid, Ht, Hs. cbn [negb].
  destruct read as [data| | | |msg]; try done; [|split; [done|by eexists]..].
  unfold relay. destruct (parseMessage _) as [[[h body] hdr]|e]; [|done].
  pose proof (checkCredential_conn env (s_from s) (s_rcpts s) s w) as Hc.
  destruct (checkCredential env (s_from s) (s_rcpts s) s w) as [[s1 w1] e]. simpl in Hc.
  destruct e; [done|]. destruct (s_identity s1); [|done]. by destruct (Send _ _ _ _).
Qed.

(** C5. A DATA command that could not be read to its end (a deadline passed, or a line over
    the limit) is answered with one 4xx or 5xx reply, after which the rest of the message
    cannot pass for commands: whatever is then done with the connection, its first write
    is the last that reaches the client, from it on every read finds the end of the input,
    and closing waits at most five seconds for a client that still sends.  After any other
    DATA the connection is untouched, and the wrapper passes every call through, setting
    the deadline of the transfer before each read. *)
Theorem aborted_data_ends_session (env : CallEnv E) (read : DataRead) (s : session) (w : world L V)
    (win : option dataWindow) (es : list Call) :
  is_Some (s_identity s) → ce_tenantSlot env = true → ce_slot env = true → s_conn s = connOpen →
  let '(s', _, e) := Data env read s w in
  let out := snd (calls es {| cc_state := s_conn s'; cc_data := win |}) in
  match read with
  | DataDeadline | DataTooLongLine =>
      (∃ r, e = Some (Reply r) ∧ 400 ≤ se_Code r < 600) ∧
      written out = take 1 (payloads es) ∧ Forall2 lingers es out ∧
      (∀ before p ans after, es = before ++ CallWrite p ans :: after →
         Forall2 read_ends after (drop (S (length before)) out))
  | _ => Forall (λ c, match c with CallCloseAfterReply | CallData _ => False | _ => True end) es →
         Forall2 (passes_through win) es out
  end.
Proof.
  intros Hid Ht Hs Ho. pose proof (data_conn env read s w Hid Ht Hs) as Hd.
  destruct (Data env read s w) as [[s' w'] e]. rewrite Ho in Hd. cbn zeta.
  destruct read; try (intros Hes; exact (calls_open es (Build_clientConn (s_conn s') win) Hd Hes));
    destruct Hd as (Hc & r & He & Hcode); (split; [exists r; split; [done|lia]|]);
    exact (calls_closing es (Build_clientConn (s_conn s') win) Hc).
Qed.

End session.

(** ** A transfer that stalls *)

Module ConnExample.
#[local] Existing Instances plain_parser ascii_tables matchLabelsOnly simple_names no_uuids any_certificate from_only
  list_conditions toy_hashes list_lru SessionExample.no_mime.

(** The rest of the stalled message looks like commands; the reply to DATA is followed by
    an attempt to read the next command and to answer it. *)
Definition after_timeout : list Call :=
  [CallRead 10 None (Ok (lit "MAIL FROM:<a@b>")); CallWrite (lit "451 Timeout") (Ok 11%nat);
   CallRead 20 None (Ok (lit "RCPT TO:<c@d>")); CallWrite (lit "250 OK") (Ok 6%nat); CallClose 30 true None].

Lemma aborted_data_ends_session_witness :
  let '(s', _, e) := Data (SessionExample.call example_reader) DataDeadline (m_session SessionExample.logged_in)
                          (m_world SessionExample.logged_in) in
  let out := snd (calls after_timeout {| cc_state := s_conn s'; cc_data := None |}) in
  (∃ r, e = Some (Reply r) ∧ 400 ≤ se_Code r < 600) ∧
  written out = [lit "451 Timeout"] ∧ Forall2 lingers after_timeout out ∧
  (∀ before p ans after, after_timeout = before ++ CallWrite p ans :: after →
     Forall2 read_ends after (drop (S (length before)) out)).
Proof.
  apply (aborted_data_ends_session (SessionExample.call example_reader) DataDeadline (m_session SessionExample.logged_in)
           (m_world SessionExample.logged_in) None after_timeout); vm_compute; [by eexists|reflexivity..].
Defined.

End ConnExample.
