(* ===== verification/EndToEnd.v ===== *)
(** * From the caller to the relay

    The components composed: the gateway (Gateway.v) with the drivers the binaries
    register (SmtpDriver.v, Graph.v), behind the HTTP front end (HttpApi.v) and the SMTP
    front end (Session.v).  The theorems say what an upstream gets to see of a message,
    and on whose behalf. *)

From S2P Require Import Prelude GoStrings Types Address Engine RateLimit Credential Verifier Driver Webhook Resolver Gateway MailParse LoginThrottle Session MimeText MimeMessage SmtpDriver OAuth Graph TokenReview HttpRequest HttpApi.

(** ** The registered drivers *)

(** What an upstream sees of one call: the traffic with SMTP relays, or the requests to
    Microsoft Graph. *)
Inductive output := OnWire (t : list wire) | Requests (ps : list Posted).

(** What is outside the program during one call: random bytes and clock, the relays, the
    tokens of the cache and the answers of Graph. *)
Record Upstream := {
  up_assembly : Assembly; up_now : Time; up_relay : nat → Relay;
  up_dns1123 : gostring → bool; up_host : gostring; up_token : nat → res FetchError Token; up_answer : nat → GraphAnswer }.

(** A driver, with what its calls let an upstream see. *)
Record Opened := { op_driver : Gateway.Driver; op_output : Request → output }.

Definition res_map {E A B} (f : A → B) (x : res E A) : res E B := match x with Ok a => Ok (f a) | Err e => Err e end.

Section registered.
Context `{AddressParser, UnicodeTables, MailReader, MediaTypes, RetryDelay, HMACMD5, TokenEndpoint, GraphErrors}.

Definition smtpOutput (u : Upstream) (c : SMTPConfig) (rq : Request) : list wire * res error SendResult :=
  match rq_Raw rq with
  | Some raw => SendRaw c (up_relay u) (up_now u) (rq_EnvelopeFrom rq) (Recipients (rq_Message rq)) raw
  | None => SmtpDriver.Send c (up_assembly u) (up_relay u) (up_now u) (rq_Message rq)
  end.

Definition openSMTP (u : Upstream) (cfg : Config) : res gostring Opened :=
  res_map (λ c,
    {| op_driver := {| drv_Send := λ m, snd (SmtpDriver.Send c (up_assembly u) (up_relay u) (up_now u) m);
                       drv_SendRaw := Some (λ from rcpts raw, snd (SendRaw c (up_relay u) (up_now u) from rcpts raw)) |};
       op_output := λ rq, OnWire (fst (smtpOutput u c rq)) |}) (SmtpDriver.NewDriver cfg).

Definition graphOutput (u : Upstream) (d : GraphDriver) (rq : Request) : list Posted * list Token * res error SendResult :=
  match rq_Raw rq with
  | Some raw => GraphSendRaw d (up_token u) (up_answer u) (up_now u) (Recipients (rq_Message rq)) raw
  | None => GraphSend d (up_assembly u) (up_token u) (up_answer u) (up_now u) (rq_Message rq)
  end.

Definition openGraph (u : Upstream) (cfg : Config) : res gostring Opened :=
  res_map (λ d,
    {| op_driver := {| drv_Send := λ m, snd (GraphSend (fst d) (up_assembly u) (up_token u) (up_answer u) (up_now u) m);
                       drv_SendRaw := Some (λ from rcpts raw, snd (GraphSendRaw (fst d) (up_token u) (up_answer u) (up_now u) rcpts raw)) |};
       op_output := λ rq, Requests (fst (fst (graphOutput u (fst d) rq))) |}) (newGraphDriver (up_dns1123 u) (up_host u) cfg).

(** What the packages' [init] functions register. *)
Definition registered (u : Upstream) : registry :=
  Register TypeMicrosoftGraph (openGraph u) (Register TypeSMTP (openSMTP u) ∅).

(** An environment in which the gateway opens these drivers. *)
Definition connected (u : Upstream) (env : Env) : Env := {|
  env_Policies := env_Policies env; env_SALabels := env_SALabels env; env_MailBackend := env_MailBackend env;
  env_ClusterMailBackend := env_ClusterMailBackend env; env_Secrets := env_Secrets env;
  env_Implemented := IsImplemented (registered u);
  env_NewDriver := λ cfg, res_map op_driver (New (registered u) cfg) |}.
End registered.

(** ** What an upstream may see *)

Section facts.
Context `{MailReaderLaws, UnicodeTables, MediaTypes, RetryDelay, HMACMD5, TokenEndpoint, GraphErrors}.
Context `{LabelMatcher, K8sNames, UUIDs, X509, Limiter L}.

(** The sender of the envelope. *)
Definition envelope_sender (rq : Request) : gostring :=
  match rq_Raw rq with Some _ => rq_EnvelopeFrom rq | None => a_Address (m_From (rq_Message rq)) end.

(** The content is the relayed message, or the one assembled from the request. *)
Definition content_of (u : Upstream) (rq : Request) (body : gostring) : Prop :=
  match rq_Raw rq with
  | Some raw => body = raw
  | None => ∃ helo id, AssembleMessage (up_assembly u) (rq_Message rq) helo = Ok (body, id)
  end.

(** An endpoint the backend declares (STARTTLS where it says nothing of TLS). *)
Definition declared (spec : BackendSpec) (ep : SMTPEndpoint) : Prop :=
  ∃ s, bs_SMTP spec = Some s ∧ ep ∈ resolveEndpoint <$> Endpoints s.

(** TLS with the endpoint is with the host it names: the certificate is checked for this
    name against the backend's roots, with TLS 1.2 at least. *)
Definition verified (ep : SMTPEndpoint) : Prop := ∀ cfg,
  tlsConfig cfg ep = {| tc_ServerName := ep_Host ep; tc_RootCAs := sc_RootCAs cfg; tc_InsecureSkipVerify := false;
                        tc_MinVersion := VersionTLS12 |}.

(** A relay sees at most the one transaction of this request, at an endpoint of the
    backend and protected as the endpoint asks for, and the whole of it if the message
    was accepted; Graph gets messages it delivers to the request's recipients and to
    nobody else. *)
Definition faithful (u : Upstream) (spec : BackendSpec) (rq : Request) (accepted : bool) (out : output) : Prop :=
  match out with
  | OnWire t =>
      Forall protected t ∧
      (delivery_part t = [] ∨ ∃ ep enc body, declared spec ep ∧ content_of u rq body ∧
         delivery_part t `prefix_of` whole ep enc (envelope_sender rq) (Recipients (rq_Message rq)) body) ∧
      (accepted = true → ∃ ep enc body, declared spec ep ∧ content_of u rq body ∧
         delivery_part t = whole ep enc (envelope_sender rq) (Recipients (rq_Message rq)) body)
  | Requests ps =>
      (length ps ≤ 2)%nat ∧ (accepted = true → ps ≠ []) ∧
      ∀ p, p ∈ ps → ∃ body, decodeB64 (po_body p) = Some body ∧
        ∀ k, k ∈ graph_recipients body ↔ k ∈ ToLower <$> Recipients (rq_Message rq)
  end.

Lemma resolved_endpoints (get : secret_reader) (key : gostring) (spec : BackendSpec) (ns : gostring) (cfg : Config) (c : SMTPConfig) :
  ResolveBackendConfig get key spec ns = Ok cfg → cfg_SMTP cfg = Some c → ∀ ep, ep ∈ sc_Endpoints c → declared spec ep.
Proof.
  unfold ResolveBackendConfig. case_bool_decide.
  - destruct (bs_SMTP spec) as [s|] eqn:Es; [|done]. rewrite res_bind_Ok. intros (c' & Hc & [= <-]) [= ->].
    unfold resolveSMTP in Hc. apply res_bind_Ok in Hc as (? & _ & Hc). apply res_bind_Ok in Hc as (? & _ & [= <-]).
    intros ep Hep. by exists s.
  - case_bool_decide; [|done]. destruct (bs_MicrosoftGraph spec); [|done]. rewrite res_bind_Ok. intros (? & _ & Hc).
    case_bool_decide; [done|]. by injection Hc as <-.
Qed.

(** The endpoints of a backend the gateway accepts and resolves are verified. *)
Lemma declared_verified (get : secret_reader) (implemented : gostring → bool) (o : BackendObject) (v : BackendValidator)
    (spec : BackendSpec) (key ns : gostring) (cfg : Config) (ep : SMTPEndpoint) :
  object_spec o = (v, spec, ns) → ValidateBackend implemented o = Ok () → ResolveBackendConfig get key spec ns = Ok cfg →
  declared spec ep → verified ep.
Proof.
  intros Ho Hv Hr (s & Hs & (ep0 & -> & Hep)%list_elem_of_fmap) c.
  apply (ValidateBackend_nil _ _ _ _ _ Ho) in Hv. unfold validateBackend in Hv. cbn [snd] in Hv.
  autorewrite with field_errors in Hv. destruct Hv as (_ & Hsm & Hg & _).
  unfold ResolveBackendConfig in Hr. destruct (bool_decide_reflect (bs_Type spec = BackendSMTP)).
  - apply app_nil in Hsm as [Hsm _]. rewrite Hs in Hsm. apply smtpErrors_nil in Hsm.
    destruct (sa_endpoint _ _ _ Hsm ep0 Hep) as (_ & _ & Hi). unfold tlsConfig, resolveEndpoint. simpl. by rewrite Hi.
  - destruct (bool_decide_reflect (bs_Type spec = BackendMicrosoftGraph)); [|done].
    unfold validateGraph in Hg. rewrite !app_nil, !when_nil in Hg. destruct Hg as (_ & _ & Hg). by rewrite Hs in Hg.
Qed.

Lemma preferred_endpoints (cfg : Config) (probed : list EndpointStatus) (c : SMTPConfig) :
  cfg_SMTP (set_endpoints cfg probed) = Some c →
  ∃ c', cfg_SMTP cfg = Some c' ∧ ∀ ep, ep ∈ sc_Endpoints c → ep ∈ sc_Endpoints c'.
Proof.
  unfold set_endpoints. destruct (cfg_SMTP cfg) as [c'|] eqn:E; [|by rewrite E]. intros [= <-]. exists c'. split; [done|].
  intros ep. cbn [sc_Endpoints]. by rewrite (proj1 (prefer_ready_endpoints _ _)).
Qed.

Lemma Recipients_concat (m : Message) : extractAddrs (m_To m ++ m_Cc m ++ m_Bcc m) = Recipients m.
Proof. unfold extractAddrs, Recipients. by rewrite !fmap_app. Qed.

Lemma smtp_faithful (u : Upstream) (spec : BackendSpec) (c : SMTPConfig) (rq : Request) :
  (∀ ep, ep ∈ sc_Endpoints c → declared spec ep) →
  faithful u spec rq (is_ok (snd (smtpOutput u c rq))) (OnWire (fst (smtpOutput u c rq))).
Proof.
  intros Hdecl.
  assert (∀ body id, content_of u rq body →
    let out := sendBody c (up_relay u) (up_now u) (envelope_sender rq) (Recipients (rq_Message rq)) body id in
    faithful u spec rq (is_ok (snd out)) (OnWire (fst out))) as Hb.
  { intros body id Hc. cbv zeta. pose proof (sendBody_spec c (up_relay u) (up_now u) (envelope_sender rq)
      (Recipients (rq_Message rq)) body id) as Hs. destruct (sendBody _ _ _ _ _ _ _) as [t r].
    destruct Hs as (Hp & Hd & Hok & _). split; [exact Hp|]. split.
    - destruct Hd as [?|(ep & enc & Hep & ?)]; [by left|right; eauto 10].
    - destruct r as [res|]; [intros _|done]. destruct (Hok res eq_refl) as (_ & ep & enc & Hep & ?). eauto 10. }
  assert (∀ e, faithful u spec rq (is_ok (Err (A:=SendResult) (E:=error) e)) (OnWire [])) as Hnone by (intros e; split; [constructor|]; by split; [left|]).
  unfold smtpOutput, SendRaw, SmtpDriver.Send, envelope_sender, content_of in *. destruct (rq_Raw rq) as [raw|].
  - destruct (_ =? _)%nat; [apply Hnone|by apply Hb].
  - destruct (AssembleMessage _ _ _) as [[body id]|] eqn:E; [|apply Hnone]. rewrite Recipients_concat. apply Hb. eauto.
Qed.

Lemma graph_faithful (u : Upstream) (spec : BackendSpec) (d : GraphDriver) (rq : Request) :
  faithful u spec rq (is_ok (snd (graphOutput u d rq))) (Requests (fst (fst (graphOutput u d rq)))).
Proof.
  assert (∀ raw, let out := GraphSendRaw d (up_token u) (up_answer u) (up_now u) (Recipients (rq_Message rq)) raw in
    faithful u spec rq (is_ok (snd out)) (Requests (fst (fst out)))) as Hr.
  { intros raw. cbv zeta. destruct (GraphSendRaw _ _ _ _ _ _) as [[ps dropped] r] eqn:E.
    apply GraphSendRaw_spec in E as (Hps & Hlen & _ & Hok & _). split; [done|]. split.
    - destruct r as [x|]; [intros _|done]. by apply (Hok x).
    - intros p Hp. destruct (Hps p Hp) as (body & from & Hd & _ & _ & Hk & _). by exists body. }
  unfold graphOutput, GraphSend. destruct (rq_Raw rq) as [raw|]; [apply Hr|].
  destruct (AssembleMessage _ _ _) as [[raw id]|].
  - unfold extractAddrs. apply Hr.
  - split; [simpl; lia|]. split; [done|]. by intros p ?%elem_of_nil.
Qed.

Lemma registered_inv (u : Upstream) (t : gostring) f : registered u !! t = Some f → f = openGraph u ∨ f = openSMTP u.
Proof.
  unfold registered, Register. intros [[_ <-]|[_ Hf]]%(lookup_insert_Some (M:=gmap gostring)); [by left|].
  apply (lookup_insert_Some (M:=gmap gostring)) in Hf as [[_ <-]|[_ Hf]]; [by right|]. by apply (lookup_empty_Some (M:=gmap gostring)) in Hf.
Qed.

(** A driver opened by the gateway answers with the result of its call, and its call
    is faithful. *)
Lemma opened_faithful (u : Upstream) (env : Env) (key : gostring) (spec : BackendSpec) (status : BackendStatus) (ns : gostring)
    (d : Gateway.Driver) (rq : Request) :
  openDriver (connected u env) key spec status ns = Ok d →
  ∃ cfg o, New (registered u) cfg = Ok o ∧ op_driver o = d ∧ cfg_BackendKey cfg = key ∧
    faithful u spec rq (is_ok (callDriver d rq)) (op_output o rq).
Proof.
  unfold openDriver. destruct (ResolveBackendConfig _ _ _ _) as [cfg0|] eqn:Er; [|done].
  set (cfg := set_endpoints cfg0 _). cbn [env_NewDriver connected].
  destruct (New (registered u) cfg) as [o|] eqn:En; [|done]. intros [= <-]. exists cfg, o. split; [done|]. split; [done|].
  split.
  { assert (cfg_BackendKey cfg0 = key) as <- by (revert Er; unfold ResolveBackendConfig; repeat case_match; try done;
      rewrite res_bind_Ok; intros (? & _ & Hc); repeat case_match; by simplify_eq).
    unfold cfg, set_endpoints. by destruct (cfg_SMTP cfg0). }
  unfold New in En. destruct (registered u !! cfg_Type cfg) as [f|] eqn:El; [|done].
  apply registered_inv in El as [-> | ->].
  - unfold openGraph in En. destruct (newGraphDriver _ _ _) as [gd|]; [|done].
    injection En as <-. pose proof (graph_faithful u spec (fst gd) rq) as Hf. unfold callDriver. cbn [op_driver op_output drv_Send drv_SendRaw].
    unfold graphOutput in *. by destruct (rq_Raw rq).
  - unfold openSMTP in En. destruct (SmtpDriver.NewDriver cfg) as [c|] eqn:Ec; [|done].
    injection En as <-. unfold callDriver. cbn [op_driver op_output drv_Send drv_SendRaw].
    assert (∀ ep, ep ∈ sc_Endpoints c → declared spec ep) as Hdecl.
    { assert (cfg_SMTP cfg = Some c) as Hc by (revert Ec; unfold SmtpDriver.NewDriver; repeat case_match; by intros [= ->]).
      apply preferred_endpoints in Hc as (c' & Hc' & Hin). intros ep Hep. by eapply resolved_endpoints; [..|apply Hin]. }
    pose proof (smtp_faithful u spec c rq Hdecl) as Hf. unfold smtpOutput in *. by destruct (rq_Raw rq).
Qed.

(** *** One [Send] *)

(** The objects the gateway reads are described by [truth], as the API server keeps
    UIDs and generations; so are the entries of the validity cache. *)
Record consistent (truth : gostring → Z → res (list FieldError) unit) (env : Env) (g : Gateway L) : Prop := {
  co_backends : ∀ ns name b, env_MailBackend env ns name = Some b →
    described truth (mb_Meta b) (ValidateBackend (env_Implemented env) (ObjMailBackend b));
  co_cluster_backends : ∀ name b, env_ClusterMailBackend env name = Some b →
    described truth (cmb_Meta b) (ValidateBackend (env_Implemented env) (ObjClusterMailBackend b));
  co_policies : ∀ ns p, p ∈ env_Policies env ns → described truth (mp_Meta p) (ValidateMailPolicy p);
  co_cache : cache_ok truth (gw_validity g) }.

(** Nothing was sent, or one message, which a policy of the caller's namespace allows,
    through a driver opened for the policy's backend, and what the upstream saw of it is
    faithful. *)
Definition relayed_for (u : Upstream) (env : Env) (rq : Request) (accepted : bool) (g g' : Gateway L) : Prop :=
  gw_sent g' = gw_sent g ∧ accepted = false ∨
  ∃ p key spec o, p ∈ env_Policies env (id_Namespace (rq_Identity rq)) ∧ applicable (callerOf env rq) p ∧
    ValidateMailPolicy p = Ok () ∧ policy_allows p (view_of rq) ∧
    (∀ allowed, bs_AllowedSenders spec = Some allowed → snd (SendersAllowed (view_of rq) allowed) = true) ∧
    (∃ cfg, New (registered u) cfg = Ok o ∧ cfg_BackendKey cfg = key) ∧
    (∀ ep, declared spec ep → verified ep) ∧
    gw_sent g' = gw_sent g ++ [Gateway.delivery rq key (callDriver (op_driver o) rq)] ∧
    accepted = is_ok (callDriver (op_driver o) rq) ∧ faithful u spec rq accepted (op_output o rq).

Definition accepted (o : SendOutcome) : bool := bool_decide (so_Status o = StatusAccepted).

Lemma Send_relayed (truth : gostring → Z → res (list FieldError) unit) (u : Upstream) (env : Env) (now : Time) (rq : Request)
    (g : Gateway L) :
  consistent truth (connected u env) g → Z.of_nat (length (Recipients (rq_Message rq))) < 2 ^ 31 →
  let '(g', o) := Gateway.Send (connected u env) now rq g in relayed_for u env rq (accepted o) g g'.
Proof.
  intros [Hmb Hcmb Hpol Hc] Hlen. pose proof (Send_sent truth (connected u env) Hmb Hcmb Hpol now rq g Hc Hlen) as Hs.
  destruct (Gateway.Send _ _ _ _) as [g' o]. unfold accepted. simpl in Hs.
  destruct Hs as [[Hs Hn]|(p & key & spec & x & Hs & Hx & Hp & Happ & Hv & Hall & Ha)].
  - left. split; [done|]. by apply bool_decide_eq_false.
  - right. destruct Ha as [Hsend (ob & bv & ns & d & Hob & Hval & Hopen & _ & -> & _) _].
    assert (∀ ep, declared spec ep → verified ep) as Hver.
    { intros ep. unfold openDriver in Hopen. destruct (ResolveBackendConfig _ _ _ _) as [cfg0|] eqn:Er; [|done].
      by eapply declared_verified. }
    destruct (opened_faithful u env key spec _ ns d rq Hopen) as (cfg & od & Hnew & <- & Hkey & Hf).
    assert (bool_decide (so_Status o = StatusAccepted) = is_ok (callDriver (op_driver od) rq)) as ->.
    { destruct (is_ok _); case_bool_decide; naive_solver. }
    exists p, key, spec, od. split_and!; try done. by exists cfg.
Qed.

(** ** POST /v1/messages *)

Context `{JSONDecoder, !MapOrder, !MapOrderLaws, MediaTypeOf, Hashes, TokenText, !LRUMap cacheEntry C, !LRUMapLaws cacheEntry C cap}.

End facts.

(** ** DATA *)

Section session.
Context `{MailReaderLaws, UnicodeTables, MediaTypes, RetryDelay, HMACMD5, TokenEndpoint, GraphErrors}.
Context `{LabelMatcher, K8sNames, UUIDs, X509, Limiter L, MIMEReader, CredentialVerifier E V}.

Lemma exec_all_reachable (o : Options) (l : list (CallEnv E * command)) (m : machine L V) :
  session_reachable o m → session_reachable o (fst (exec_all o l m)).
Proof.
  revert m. induction l as [|[env c] l IH]; intros m Hr; [done|]. simpl. pose proof (session_exec o env c m Hr) as Hr1.
  destruct (exec o env c m) as [m1 e]. specialize (IH m1 Hr1). by destruct (exec_all o l m1).
Qed.

End session.

Module EndToEndExample.
Import GraphExample RequestExample ApiExample.
#[local] Existing Instances plain_addresses small_reader small_reader_laws ascii_tables any_type DriverExample.hints DriverExample.no_hmac
  OAuthExample.one_answer no_fields matchLabelsOnly simple_names no_uuids any_certificate memoryLimiter two_texts some_order
  json_only toy_hashes TokenExample.no_expiry map_cache.

(** A relay that accepts everything, and Graph as in Graph.v. *)
Definition accepting : Relay := {|
  rl_dial := None; rl_deadline := None; rl_banner := None; rl_hello := None;
  rl_extension := λ e, if e == lit "STARTTLS" then Some [] else None;
  rl_extension_tls := λ e, if e == lit "AUTH" then Some (lit "PLAIN LOGIN") else None;
  rl_starttls := None; rl_auth := [Accepted]; rl_deadline2 := None; rl_cancelled := None; rl_mail := None;
  rl_rcpt := λ _, None; rl_data := None; rl_write := None; rl_close := None |}.
Definition upstream : Upstream := {|
  up_assembly := {| as_date := "Mon, 02 Jan 2006 15:04:05 +0000"; as_id := "0123456789abcdef";
                    as_boundaries := {| rb_mixed := "m"; rb_alternative := "a"; rb_related := "r" |}; as_order := [] |};
  up_now := 7; up_relay := λ _, accepting; up_dns1123 := λ _, true; up_host := "graph.microsoft.com";
  up_token := token; up_answer := answers |}.

Definition cluster : Env := example_env good_driver.
Definition post_run := postMessages (connected upstream cluster) (100 * Second) false reviews "auth-1" "id-1" true post TokenExample.a example_gateway.

Example post_accepted : rs_Status (snd (snd post_run)) = 202 ∧ length (gw_sent (fst (snd post_run))) = 1%nat.
Proof. split; match goal with |- ?a = ?b => exact (eq_refl b <: a = b) end. Qed.

(** What the relay saw of it before the content. *)
Example post_on_wire :
  match ResolveBackendConfig example_secrets "team/relay" (mb_Spec ready_backend) "team" with
  | Ok cfg => match cfg_SMTP cfg with
              | Some c => take 3 (w_what <$> delivery_part (fst (smtpOutput upstream c example_request)))
              | None => []
              end
  | Err _ => []
  end = [MailFrom "app@corp.example"; RcptTo "bob@corp.example"; DataCommand].
Proof. match goal with |- ?a = ?b => exact (eq_refl b <: a = b) end. Qed.

Lemma consistent_example : consistent example_truth (connected upstream cluster) example_gateway.
Proof.
  split.
  - intros ns name b. simpl. destruct (_ && _); [|done]. intros [= <-] _ _.
    match goal with |- ?a = ?b => exact (eq_refl b <: a = b) end.
  - intros name b. done.
  - intros ns p. simpl. destruct (ns == _); [|by intros ?%not_elem_of_nil].
    intros ->%list_elem_of_singleton _ _. match goal with |- ?a = ?b => exact (eq_refl b <: a = b) end.
  - intros uid v. done.
Qed.


#[local] Existing Instances SessionExample.no_mime list_conditions toy_hashes list_lru.

(** A session that logged in with a token and named its sender and recipient. *)
Definition data_call : CallEnv VerifierEnv := {|
  ce_env := connected upstream cluster; ce_now := 100 * Second; ce_id := lit "id-1"; ce_date := lit "Mon, 02 Jan 2006";
  ce_verifier := {| ve_get := example_reader; ve_now := 50; ve_slot := true |}; ce_turn := TurnGranted;
  ce_token := λ _, Ok {| sub_Namespace := "team"; sub_ServiceAccount := "app" |}; ce_pods := λ _, None; ce_tenantSlot := true; ce_slot := true; ce_maxLine := 1000 |}.
Definition dialogue : list command :=
  [CmdBearer (lit "good"); CmdMail (lit "app@corp.example"); CmdRcpt (lit "bob@corp.example")].
Definition opened : machine MemoryLimiter (list (gostring * Time)) :=
  fst (exec_all SessionExample.opts (pair data_call <$> dialogue) SessionExample.start).
Definition data_run := Data data_call (DataComplete (lit "hello")) (m_session opened) (m_world opened).

Example data_accepted : snd data_run = None ∧ length (gw_sent (w_gateway (snd (fst data_run)))) = 1%nat.
Proof. split; match goal with |- ?a = ?b => exact (eq_refl b <: a = b) end. Qed.

End EndToEndExample.
